(* ===== verification/_CoqProject ===== *)
-Q . S2P
Prelude.v
GoTime.v
GoStrings.v
Cron.v
CronNext.v
Gob.v
Persister.v
RaftNode.v
RaftLog.v
RaftOps.v
RaftFrame.v
RaftTheorems.v
History.v
HistorySteps.v
Cluster.v
ClusterVotes.v
ClusterSafety.v
ClusterInv.v
ClusterSteps.v
ClusterEffects.v
ClusterElections.v
ClusterAppend.v
ClusterSnapshots.v
ClusterReplies.v
ClusterLog.v
ClusterValidity.v
ClusterTotal.v
ClusterHanded.v
ClusterLoops.v
ClusterProgress.v
ClusterCatchUp.v
ClusterCommit.v
Transport.v
Store.v
StoreSpec.v
StoreTheorems.v
System.v
SystemSafety.v
SystemValidity.v
SystemOrigin.v
SystemProgress.v
SystemDivergence.v
Effects.v
EffectsLogic.v
Scheduler.v
SchedulerTheorems.v
Executor.v
Api.v
Main.v
Nodes.v
NodeLaws.v
NodeSafety.v
NodeTheorems.v
NodeOrder.v
NodeReads.v
NodeProgress.v
NodeFiring.v
Startup.v
