(* ===== verification/Prelude.v ===== *)
(** * A verification development for raft-scheduler

    raft-scheduler is a distributed cron scheduler.  Every node runs a Raft peer
    (src/internal/raft), a store of jobs that applies the committed commands
    (src/internal/store), a scheduler that fires due jobs on the leader
    (src/internal/scheduler), a REST API (src/internal/api) and the cron-expression
    library (src/pkg/cron); src/cmd/crond/main.go configures and wires them.  A
    write goes API or scheduler -> [Store.Submit] -> [Raft.Start] -> replication ->
    [Raft.applyLoop] -> [Store.applyLoop] -> [Store.apply]; a read is served by the
    local store.

    ** Files

    - Prelude.v: words of 64 bits, Go slices and their panics, bounded loops,
      results; the lemmas and tactics the components share.
    - GoTime.v, GoStrings.v: what the program uses of Go's [time], [strings] and
      [strconv].
    - Cron.v, CronNext.v: src/pkg/cron/parser.go.  [Parse] and its helpers, masks of
      64 bits, [Next] as the loop of the code; a grammar with a printer for the
      round trip.
    - Gob.v: encoding/gob as a class of stream codecs, with executable instances.
    - Persister.v, RaftNode.v: src/internal/raft/persister.go and raft.go, one function
      per critical section of the code.  RaftLog.v, RaftOps.v, RaftFrame.v: lemmas about one
      peer; RaftTheorems.v: the theorems about one peer.
    - Cluster.v: the peers together: goroutines with their captured variables, RPCs in
      flight, crashes and restarts, as the step function [cluster_step].
      ClusterVotes.v: what each operation does to term, vote and role;
      ClusterSafety.v: the inductive invariant of the votes and election safety.
    - History.v, HistorySteps.v: the argument for the safety of the logs on ghost state
      (the logs of the leaders of all terms, the full logs of the peers, the
      acknowledgements), apart from the code.  ClusterInv.v relates a cluster to such a
      history ([linv]); its events preserve that: ClusterSteps.v (requests, the apply
      loop), ClusterElections.v (votes, elections), ClusterAppend.v (AppendEntries),
      ClusterSnapshots.v (InstallSnapshot, the calls of the service, restarts) and
      ClusterReplies.v (the leader).  ClusterLog.v: the theorems about the logs.
    - ClusterEffects.v: what an event that is no call of the service does, by cases.
      ClusterValidity.v: nothing is in a log that was not submitted.  ClusterTotal.v: no
      goroutine gets stuck.  ClusterHanded.v: every index a peer has applied was handed to
      some service as a command, so what was handed over is one log without gaps
      ([service_log]).  ClusterLoops.v: the loops that raft.Make and [becomeLeader] start
      are there as long as they should be, and what one turn of each does; a call and its
      reply as one round trip.  ClusterProgress.v: a leader can always be elected;
      ClusterCatchUp.v: it can bring any follower up to date, round by round;
      ClusterCommit.v: so every command can be committed and handed over.  None of this
      progress needs a restart.
    - Transport.v: src/internal/raft/rpc.go.  [wire_step] runs the peers with method names
      and gob bytes between them, and is simulated by [cluster_step].
    - Store.v: src/internal/store/store.go and snapshot.go, and [world_step], a store with
      its [Submit] calls, timeouts and the messages of its channel.  StoreSpec.v: the
      abstract store (a history of commands) and what Raft delivers;
      StoreTheorems.v: the theorems.
    - System.v: the nodes as main.go wires them: [sys_step] runs a cluster whose peers
      hand their messages to stores, which call [Start] and [Snapshot]; a node that went
      down comes back from its persister or from an empty one; the invariant [sys_ok].  SystemSafety.v: its preservation and the
      theorems; SystemValidity.v, SystemOrigin.v: where the commands and the contents of
      the stores come from; SystemProgress.v: a [Submit] to a new leader is answered;
      SystemDivergence.v: runs that install old snapshots or come back empty.
    - Effects.v: programs that call the store, the clock, the executor and the other
      packages, and the Go interfaces as classes.  EffectsLogic.v: assertions about every
      prefix of a run.  Scheduler.v, SchedulerTheorems.v: scheduler.go and recovery.go.
      Executor.v: executor.go.  Api.v: handlers.go, server.go and middleware.go.
    - Main.v: the configuration and the wait for leadership of main.go.
    - Nodes.v: the whole program: [node_step] runs the goroutines of Scheduler.v, Api.v
      and Main.v on every node of a system, call by call.  NodeLaws.v: what each
      guarantees about its calls.  NodeSafety.v: the invariant; NodeTheorems.v: the
      theorems for clients and jobs, and a job that runs twice.  NodeOrder.v: the order
      of writes and of reads.  NodeReads.v: what a client reads after a write.
      NodeProgress.v, NodeFiring.v: jobs can always be created and run.
    - Startup.v: main.go from the environment to the signal, the end of a node, and nodes
      side by side as a state of Nodes.v.

    Definitions have the names of the source.  A [Record] field has the name of the
    struct field, with a prefix where two structs share one.

    ** How the code is modelled

    - Memory shared by goroutines is always accessed under a mutex, so one critical
      section is one step: a function from state to state.  Where the code unlocks
      in the middle (RPCs, channel sends, the wait in [Submit]) it is split there, and
      Cluster.v and [world_step] let anything happen in between.
    - [applyCh] has no buffer: in System.v a message is sent only when the one before it was
      received ([applyCh_free]), so that at most one is being handled and one waits.
    - A Go run-time panic is [None].  In the cluster it stands for the crash of the
      process.
    - A process that went down comes back with the persister it had ([EvRestart],
      [SysRestart]: what raft.Make is written for) or with an empty one ([SysStartOver],
      [NodeStartOver]: what main.go does).  Theorems about runs that need the first say
      so with [disks_survive], [node_disks_survive]; the runs of Cluster.v have only the
      first.
    - The network may lose, delay, reorder and duplicate every request and reply.
    - [int] is [Z]: terms and indices go up by one at a time and are not followed up to
      2^63, where they would wrap around.  The exception is the step of a cron field,
      which comes from the user: there the wrap-around is written out.
    - What the code calls outside src/ (clock, shell, HTTP, random bytes) is a call
      with any answer: theorems quantify over the sequence of calls and answers.
      The gob codec is a class with its law; every witness uses concrete instances.

    ** Theorems

    - Cron: an expression that is printed parses back to the set it denotes; [Next] ends,
      in zones a whole number of hours from UTC, and is the least minute after its argument
      that matches as index/1_parser.md says ([documented]) when the two day fields are
      both [*] or both restricted; when one is, it has no effect ([Next_one_day_field],
      [Next_ignores_dow]).  Where else it fails: half-hour zones, and steps next to 2^63.
    - One Raft peer: votes, AppendEntries against a reference merge, conflict hints that
      make progress, the commit index, compaction, snapshots, restart from the persister,
      in-order delivery; no RPC handler panics.
    - The cluster, over whole runs with losses, duplicates, crashes and restarts: at most
      one leader per term, from majorities of votes and one vote per term; the same
      command at the same index for every state machine, leaders that have all of them,
      log matching, the same committed entries everywhere, append-only leaders, indices
      in order, and progress: no goroutine panics or waits for a reply of the wrong type;
      every command was submitted; from every state a new leader can be elected and any
      command can be committed and handed to a state machine.
      The RPCs over TCP are those of the model: nodes that exchange method names and
      bytes run as the cluster does ([wires_implement_cluster]).
      The properties of the logs are about runs in which the service takes snapshots only
      of what it was given ([service_ok] of ClusterLog.v), as store.go does: an index
      that has not been applied would be compacted away before it is committed.
    - The store: it computes its history; replicas of one log agree; snapshots are
      recovery points; a [Submit] without error was committed; every channel is sent to
      at most once.  [delivers] of StoreSpec.v is the contract between Raft and store:
      StoreTheorems.v proves the store's theorems from it, and [store_follows_log] that
      one peer's apply loop meets it between snapshots.
    - The whole system: at any two moments of a run, every store holds the result of a
      prefix of the log of what the peers have handed to their stores, which is the only
      list with these commands at their indices and no others ([service_log],
      [replicated_store]); a [Submit] without error put its command into that log for good
      ([submit_durable]).  Both are about
      runs ([sys_exec]) in which no snapshot is installed on a peer that has applied more or
      is in the middle of sending entries ([snapshots_in_step]).  raft.go does not ensure
      that: [stores_diverge] is a run that loses an acknowledged job.  They also need that
      a node that comes back has its persister ([disks_survive]), which main.go does not
      do ([start_over_two_leaders]).  The two conditions are hypotheses of the theorems;
      the proofs work with the runs that meet them as a function ([sys_run],
      [sys_run_exec]).
    - Scheduler, executors, API: which calls each makes, on every branch, for all answers.
    - The whole program, over runs ([node_exec]) under the same two conditions
      ([node_snapshots_in_step], [node_disks_survive]): a 201 or 204 is final ([answer_is_final]), a
      job works only after the advance of its [NextRun] is ([works_after_advance]), and the
      node that answered reads what was written ([read_your_writes]), and a write that is
      acknowledged before another is submitted comes before it in the log
      ([writes_in_order]); these four need that no two commands draw the same 64 random
      bits ([distinct_ids]).  A store that runs never goes back ([reads_go_forward]).  Every
      job in a store was created or advanced by a goroutine ([jobs_have_origin]), every
      run record is of a run that happened ([runs_happened]).  That a job runs once per
      activation is not true: [double_fire].  From every state that these runs reach,
      with two nodes or more, a client can get a job created ([job_can_be_created]) and have
      it run when it is due ([created_job_can_run]), in continuations in which nothing fails
      ([undisturbed]).
    - Main: the configuration, and the one catch-up of a leader.  Startup: nodes that are
      given the same peer list, whenever each is started, are together a state that the
      runs of Nodes.v reach, so the theorems above are about them ([deployment_starts]).

    ** Fuel and bounds

    [Next] runs its loop at most 2^22 times: each turn advances a minute or more and the
    limit is four years (under 2,110,000 minutes) away, so the theorem is that it
    returns.  [fillRangeStep] runs at most 2^7 turns, enough for every int64 step, also
    one that wraps around ([fill_loop_leaves]).  The searches of raft.go take the distance they
    can cover as fuel ([walkBack], [searchTerm], [advanceLoop], [applyFuel]).

    ** Not modelled

    - Sockets: that a dial fails, a connection breaks or a request arrives is an event of
      Transport.v.  The bytes of the gob format are those of any codec with the law of
      Gob.v.
    - [ticker] and [sendRequestVote] of raft.go (never called), src/internal/raft/util.go
      (debug output), the log lines of main.go, JSON and the HTTP protocol under the API,
      the delivery of signals, and the tests.
    - Locations with daylight saving: GoTime.v has fixed offsets.

    ** Still to prove

    [leader_electable], [command_can_commit] and [created_job_can_run] say that from every
    state there is a way on, a run of the network, timers and goroutines; that every fair
    run takes one is not proved, nor true of the code without a bound on the delays. *)
From stdpp Require Import base tactics list numbers option.
From Stdlib Require Import ZArith Lia.

Local Open Scope Z_scope.

(** ** Machine integers

    Go's [int] and [int64] are 64-bit two's complement; [uint64] is reduced
    modulo [2^64].  Most indices and terms of the program stay far from the
    bounds and are plain [Z]; the places where wrap-around is reachable (the
    cron step loop) write it out with these two functions. *)
Definition wrap64 (z : Z) : Z := (z + 2 ^ 63) mod 2 ^ 64 - 2 ^ 63.
Definition u64 (z : Z) : Z := z mod 2 ^ 64.
Definition max_int64 : Z := 2 ^ 63 - 1.
Definition min_int64 : Z := - 2 ^ 63.

(** ** Slices

    A Go slice is a list; an index or a slice bound out of range is a run-time
    panic, which the model writes [None].  ([l[:i]] may reach up to the
    capacity in Go; every such expression of the program is guarded by the
    length, so the model asks for the length.) *)
Definition idx {A} (l : list A) (i : Z) : option A :=
  if decide (0 <= i) then l !! Z.to_nat i else None.
Definition idx_set {A} (l : list A) (i : Z) (x : A) : option (list A) :=
  if decide (0 <= i < Z.of_nat (length l)) then Some (<[Z.to_nat i := x]> l) else None.
Definition slice_from {A} (l : list A) (i : Z) : option (list A) :=
  if decide (0 <= i <= Z.of_nat (length l)) then Some (drop (Z.to_nat i) l) else None.
Definition slice_to {A} (l : list A) (i : Z) : option (list A) :=
  if decide (0 <= i <= Z.of_nat (length l)) then Some (take (Z.to_nat i) l) else None.
Definition zlen {A} (l : list A) : Z := Z.of_nat (length l).

(** ** Loops

    [loop n body s] runs at most [2 ^ n] iterations of [body]: [inl] asks for
    another iteration, [inr] leaves the loop.  The doubling keeps the fuel
    small and the function executable for loops with millions of turns. *)
Fixpoint loop {S R : Type} (n : nat) (body : S → S + R) (s : S) : S + R :=
  match n with
  | O => body s
  | S n' =>
      match loop n' body s with
      | inl s' => loop n' body s'
      | inr r => inr r
      end
  end.

(** ** Results: a Go [(value, error)] pair whose value is only used when the
    error is nil *)
Inductive result (E A : Type) : Type :=
| Ok (a : A)
| Err (e : E).
Arguments Ok {E A} a.
Arguments Err {E A} e.

#[export] Instance result_ret {E} : MRet (result E) := λ A a, Ok a.
#[export] Instance result_bind {E} : MBind (result E) := λ A B f m,
  match m with Ok a => f a | Err e => Err e end.

(** [fmt.Errorf] with a [%w] verb: wrap the error, if there is one. *)
Definition wrap_err {E E' A} (w : E → E') (r : result E A) : result E' A :=
  match r with Ok a => Ok a | Err e => Err (w e) end.

(** ** Automation *)
Create HintDb go discriminated.
Create Rewrite HintDb go.

(** Case analysis on the first [option] bind of a hypothesis. *)
Ltac bind_inv H :=
  repeat match type of H with
  | (mbind _ ?e = Some _) =>
      let E := fresh "E" in destruct e eqn:E; simpl in H; [|discriminate H]
  end.

(** Split every conjunction and existential of the context. *)
Ltac split_hyps :=
  repeat match goal with
  | H : _ ∧ _ |- _ => destruct H
  | H : ∃ _, _ |- _ => destruct H
  | H : Some _ = Some _ |- _ => injection H as H; try subst
  | H : (_, _) = (_, _) |- _ => injection H as H; try subst
  end.

(** Linear arithmetic with [/] and [mod] by constants. *)
Ltac dlia := Z.div_mod_to_equations; lia.

(** ** Lemmas on machine integers *)
Section Words.

Lemma wrap64_id z : min_int64 <= z <= max_int64 → wrap64 z = z.
Proof.
  unfold wrap64, min_int64, max_int64. intros Hz. rewrite Z.mod_small; lia.
Qed.

Lemma wrap64_bounds z : min_int64 <= wrap64 z <= max_int64.
Proof.
  unfold wrap64, min_int64, max_int64.
  pose proof (Z.mod_pos_bound (z + 2 ^ 63) (2 ^ 64) ltac:(lia)). lia.
Qed.

Lemma wrap64_over z : max_int64 < z < 2 ^ 64 + max_int64 → wrap64 z = z - 2 ^ 64.
Proof.
  unfold wrap64, max_int64. intros Hz.
  replace (z + 2 ^ 63) with ((z - 2 ^ 63) + 1 * 2 ^ 64) by lia.
  rewrite Z.mod_add by lia. rewrite Z.mod_small; lia.
Qed.

Lemma u64_small z : 0 <= z < 2 ^ 64 → u64 z = z.
Proof. intros. unfold u64. by rewrite Z.mod_small. Qed.

Lemma u64_bounds z : 0 <= u64 z < 2 ^ 64.
Proof. unfold u64. apply Z.mod_pos_bound. lia. Qed.

Lemma u64_testbit z i : 0 <= i < 64 → Z.testbit (u64 z) i = Z.testbit z i.
Proof. intros. unfold u64. apply Z.mod_pow2_bits_low. lia. Qed.

Lemma u64_testbit_high z i : 64 <= i → Z.testbit (u64 z) i = false.
Proof. intros. unfold u64. apply Z.mod_pow2_bits_high. lia. Qed.

End Words.

(** A boolean test on an interval of integers, decided by computation. *)
Lemma forallb_seqZ (f : Z → bool) lo n :
  forallb f (seqZ lo n) = true → ∀ d, lo <= d < lo + n → f d = true.
Proof.
  intros H d Hd. rewrite List.forallb_forall in H. apply H.
  apply list_elem_of_In, elem_of_seqZ. lia.
Qed.

(** ** Lemmas on slices *)
Section Slices.
Context {A : Type}.
Implicit Types (l : list A) (i : Z).

Lemma idx_is_Some l i : is_Some (idx l i) ↔ 0 <= i < zlen l.
Proof.
  unfold idx, zlen. case_decide as Hi.
  - rewrite lookup_lt_is_Some. lia.
  - split; [intros [? ?]; discriminate | lia].
Qed.

Lemma idx_Some_bounds l i x : idx l i = Some x → 0 <= i < zlen l.
Proof. intros H. apply idx_is_Some. by eexists. Qed.

Lemma idx_lookup l i : 0 <= i → idx l i = l !! Z.to_nat i.
Proof. intros. unfold idx. by rewrite decide_True. Qed.

Lemma idx_neg l i : i < 0 → idx l i = None.
Proof. intros. unfold idx. by rewrite decide_False by lia. Qed.

Lemma idx_ge l i : zlen l <= i → idx l i = None.
Proof.
  unfold zlen. intros H. rewrite idx_lookup by lia. apply lookup_ge_None. lia.
Qed.

Lemma idx_app_l l k i : i < zlen l → idx (l ++ k) i = idx l i.
Proof.
  unfold zlen. intros. unfold idx. case_decide; [|done]. apply lookup_app_l. lia.
Qed.

Lemma idx_app_r l k i : zlen l <= i → idx (l ++ k) i = idx k (i - zlen l).
Proof.
  unfold zlen. intros. rewrite !idx_lookup by lia. rewrite lookup_app_r by lia.
  f_equal. lia.
Qed.

Lemma idx_drop l n i : 0 <= i → 0 <= n → idx (drop (Z.to_nat n) l) i = idx l (n + i).
Proof.
  intros. rewrite !idx_lookup by lia. rewrite lookup_drop. f_equal. lia.
Qed.

Lemma idx_take l n i : i < n → idx (take (Z.to_nat n) l) i = idx l i.
Proof.
  intros. unfold idx. case_decide; [|done]. apply lookup_take_lt. lia.
Qed.

Lemma idx_cons_0 x l : idx (x :: l) 0 = Some x.
Proof. done. Qed.

Lemma idx_cons_S x l i : 0 < i → idx (x :: l) i = idx l (i - 1).
Proof.
  intros. rewrite !idx_lookup by lia.
  replace (Z.to_nat i) with (S (Z.to_nat (i - 1))) by lia. done.
Qed.

Lemma idx_set_Some l i x l' :
  idx_set l i x = Some l' → 0 <= i < zlen l ∧ l' = <[Z.to_nat i := x]> l.
Proof. unfold idx_set, zlen. case_decide; intros; simplify_eq; done. Qed.

Lemma idx_set_ok l i x :
  0 <= i < zlen l → idx_set l i x = Some (<[Z.to_nat i := x]> l).
Proof. unfold idx_set, zlen. intros. by rewrite decide_True. Qed.

Lemma slice_from_ok l i : 0 <= i <= zlen l → slice_from l i = Some (drop (Z.to_nat i) l).
Proof. unfold slice_from, zlen. intros. by rewrite decide_True. Qed.

Lemma slice_to_ok l i : 0 <= i <= zlen l → slice_to l i = Some (take (Z.to_nat i) l).
Proof. unfold slice_to, zlen. intros. by rewrite decide_True. Qed.

Lemma slice_from_Some l i l' :
  slice_from l i = Some l' → 0 <= i <= zlen l ∧ l' = drop (Z.to_nat i) l.
Proof. unfold slice_from, zlen. case_decide; intros; simplify_eq; done. Qed.

Lemma slice_to_Some l i l' :
  slice_to l i = Some l' → 0 <= i <= zlen l ∧ l' = take (Z.to_nat i) l.
Proof. unfold slice_to, zlen. case_decide; intros; simplify_eq; done. Qed.

Lemma zlen_nonneg l : 0 <= zlen l.
Proof. unfold zlen. lia. Qed.

Lemma zlen_cons x l : zlen (x :: l) = zlen l + 1.
Proof. unfold zlen. simpl. lia. Qed.

Lemma zlen_nil : zlen (@nil A) = 0.
Proof. done. Qed.

Lemma zlen_app l k : zlen (l ++ k) = zlen l + zlen k.
Proof. unfold zlen. rewrite length_app. lia. Qed.

Lemma zlen_drop l n : 0 <= n <= zlen l → zlen (drop (Z.to_nat n) l) = zlen l - n.
Proof. unfold zlen. rewrite length_drop. lia. Qed.

Lemma zlen_take l n : 0 <= n <= zlen l → zlen (take (Z.to_nat n) l) = n.
Proof. unfold zlen. rewrite length_take. lia. Qed.

Lemma prefix_by_lookup (l l' : list A) :
  (∀ (i : nat) x, l !! i = Some x → l' !! i = Some x) → l `prefix_of` l'.
Proof.
  revert l'. induction l as [|x l IH]; intros l' Hle; [apply prefix_nil|].
  pose proof (Hle 0%nat x eq_refl) as Hx. destruct l' as [|x' l']; [done|]. injection Hx as ->.
  apply prefix_cons, IH. intros i y Hi. by apply (Hle (S i)).
Qed.

Lemma idx_ext l k : zlen l = zlen k → (∀ i, 0 <= i < zlen l → idx l i = idx k i) → l = k.
Proof.
  unfold zlen. intros Hl Hi. apply list_eq. intros n.
  destruct (decide (n < length l)%nat) as [Hn|Hn].
  - specialize (Hi (Z.of_nat n) ltac:(lia)).
    rewrite !idx_lookup in Hi by lia. by rewrite Nat2Z.id in Hi.
  - rewrite !lookup_ge_None_2 by lia. done.
Qed.

End Slices.

#[export] Hint Rewrite @zlen_cons @zlen_nil @zlen_app : go.
#[export] Hint Resolve zlen_nonneg u64_bounds wrap64_bounds : go.

(** ** Reasoning about loops *)
Section Loops.
Context {S R : Type} (body : S → S + R) (Inv : S → Prop).

(** An invariant of [body] holds at every state [loop] stops in; when it leaves
    with a result, some state satisfying the invariant produced that result. *)
Lemma loop_inv n s :
  (∀ s s', Inv s → body s = inl s' → Inv s') → Inv s →
  match loop n body s with
  | inl s' => Inv s'
  | inr r => ∃ s', Inv s' ∧ body s' = inr r
  end.
Proof.
  intros Hstep. revert s. induction n as [|n IH]; intros s Hs; simpl.
  - destruct (body s) eqn:E; eauto.
  - specialize (IH s Hs) as H1. destruct (loop n body s) as [s'|r]; [|done].
    by apply IH.
Qed.

(** Each unfinished iteration decreases the measure by one at least. *)
Lemma loop_measure (m : S → Z) n s s' :
  (∀ s s', Inv s → body s = inl s' → Inv s' ∧ m s' <= m s - 1) → Inv s →
  loop n body s = inl s' → Inv s' ∧ m s' <= m s - 2 ^ Z.of_nat n.
Proof.
  intros Hstep. revert s s'. induction n as [|n IH]; intros s s' Hs; simpl.
  - intros E. by apply Hstep.
  - destruct (loop n body s) as [s1|r] eqn:E1; [|discriminate].
    intros E2. destruct (IH _ _ Hs E1) as [H1 M1].
    destruct (IH _ _ H1 E2) as [H2 M2]. split; [done|].
    rewrite Nat2Z.inj_succ, Z.pow_succ_r by lia. lia.
Qed.

(** A loop whose measure is bounded below and starts under the fuel leaves. *)
Lemma loop_terminates (m : S → Z) n s :
  (∀ s s', Inv s → body s = inl s' → Inv s' ∧ m s' <= m s - 1) →
  (∀ s, Inv s → 0 <= m s) → Inv s → m s < 2 ^ Z.of_nat n →
  ∃ r, loop n body s = inr r.
Proof.
  intros Hstep Hpos Hs Hm. destruct (loop n body s) as [s'|r] eqn:E; [|eauto].
  destruct (loop_measure m n s s' Hstep Hs E) as [Hs' Hlt].
  specialize (Hpos _ Hs'). lia.
Qed.

(** A body that never leaves from the states of an invariant diverges. *)
Lemma loop_diverges n s :
  (∀ s, Inv s → ∃ s', body s = inl s' ∧ Inv s') → Inv s →
  ∃ s', loop n body s = inl s' ∧ Inv s'.
Proof.
  intros Hstep. revert s. induction n as [|n IH]; intros s Hs; simpl; [by apply Hstep|].
  destruct (IH s Hs) as (s1 & -> & H1). by apply IH.
Qed.

(** Bodies that agree give loops that agree. *)
Lemma loop_ext (body' : S → S + R) n s : (∀ s, body s = body' s) → loop n body s = loop n body' s.
Proof.
  intros H. revert s. induction n as [|n IH]; intros s; simpl; [done|].
  rewrite IH. destruct (loop n body' s); [apply IH|done].
Qed.

End Loops.
