(* ===== verification/GoTime.v ===== *)
(** * The part of Go's [time] package the program uses

    An instant is a number of nanoseconds since the zero [time.Time]
    (January 1, year 1, 00:00 UTC) together with the offset, in seconds east of
    UTC, of the location it is presented in; locations are fixed-offset zones
    (zones with daylight saving need the tz database and are outside the
    model).  [Add], [Truncate] and the comparisons act on the instant; [Year],
    [Month], [Day], [Weekday], [Hour] and [Minute] act on its presentation in
    its location, through the proleptic Gregorian calendar.  The calendar
    lemmas that follow are those [Expression.Next] needs: which instants share
    a minute, an hour, a day or a month. *)
From stdpp Require Import base tactics list numbers option.
From Stdlib Require Import ZArith Lia.
From S2P Require Import Prelude.

Local Open Scope Z_scope.

(** ** Durations, in nanoseconds *)
Definition Second : Z := 1000000000.
Definition Minute : Z := 60000000000.
Definition Hour : Z := 3600000000000.
Definition DayNs : Z := 86400000000000.

Record Time := mkTime { abs : Z; loc : Z }.

#[export] Instance Time_eq_dec : EqDecision Time.
Proof. solve_decision. Defined.

(** ** The calendar: days are counted from 0001-01-01, day 0 *)
Definition is_leap (y : Z) : bool :=
  (y mod 4 =? 0) && (negb (y mod 100 =? 0) || (y mod 400 =? 0)).
Definition leap_day (y : Z) : Z := if is_leap y then 1 else 0.

Definition days_before_year (y : Z) : Z :=
  365 * (y - 1) + (y - 1) / 4 - (y - 1) / 100 + (y - 1) / 400.

(** Days of the year before month [m], in a year with [lp] leap days. *)
Definition days_before_month (lp m : Z) : Z :=
  if m <=? 1 then 0 else if m <=? 2 then 31
  else lp + (if m <=? 3 then 59 else if m <=? 4 then 90
        else if m <=? 5 then 120 else if m <=? 6 then 151
        else if m <=? 7 then 181 else if m <=? 8 then 212
        else if m <=? 9 then 243 else if m <=? 10 then 273
        else if m <=? 11 then 304 else if m <=? 12 then 334 else 365).

Definition year_of_day (d : Z) : Z :=
  let n400 := d / 146097 in
  let r400 := d mod 146097 in
  let n100 := Z.min 3 (r400 / 36524) in
  let r100 := r400 - 36524 * n100 in
  let n4 := r100 / 1461 in
  let r4 := r100 mod 1461 in
  let n1 := Z.min 3 (r4 / 365) in
  400 * n400 + 100 * n100 + 4 * n4 + n1 + 1.

Definition month_of_yday (lp yd : Z) : Z :=
  if yd <? 31 then 1 else if yd <? 59 + lp then 2
  else if yd <? 90 + lp then 3 else if yd <? 120 + lp then 4
  else if yd <? 151 + lp then 5 else if yd <? 181 + lp then 6
  else if yd <? 212 + lp then 7 else if yd <? 243 + lp then 8
  else if yd <? 273 + lp then 9 else if yd <? 304 + lp then 10
  else if yd <? 334 + lp then 11 else 12.

Definition yday (d : Z) : Z := d - days_before_year (year_of_day d).
Definition month_of_day (d : Z) : Z :=
  month_of_yday (leap_day (year_of_day d)) (yday d).
Definition mday_of_day (d : Z) : Z :=
  yday d - days_before_month (leap_day (year_of_day d)) (month_of_day d) + 1.

(** Day number of a date; months outside 1..12 are normalised as [time.Date]
    does, days outside the month simply count on. *)
Definition day_of_civil (y m d : Z) : Z :=
  let y' := y + (m - 1) / 12 in
  let m' := (m - 1) mod 12 + 1 in
  days_before_year y' + days_before_month (leap_day y') m' + d - 1.

(** ** Operations on instants *)
Definition zeroTime : Time := mkTime 0 0.
Definition IsZero (t : Time) : bool := abs t =? 0.
Definition Before (t u : Time) : bool := abs t <? abs u.
Definition After (t u : Time) : bool := abs u <? abs t.

Definition Add (t : Time) (d : Z) : Time := mkTime (abs t + d) (loc t).
(** [Sub] saturates. *)
Definition Sub (t u : Time) : Z := Z.max min_int64 (Z.min max_int64 (abs t - abs u)).
(** [Truncate] rounds the instant, not its presentation, down to a multiple of
    [d] since the zero time. *)
Definition Truncate (t : Time) (d : Z) : Time := mkTime (abs t - abs t mod d) (loc t).

(** Nanoseconds of the wall clock in the location of [t]. *)
Definition wall (t : Time) : Z := abs t + loc t * Second.
Definition wall_day (t : Time) : Z := wall t / DayNs.

Definition Year (t : Time) : Z := year_of_day (wall_day t).
Definition Month (t : Time) : Z := month_of_day (wall_day t).
Definition Day (t : Time) : Z := mday_of_day (wall_day t).
Definition Weekday (t : Time) : Z := (wall_day t + 1) mod 7.
Definition HourOf (t : Time) : Z := wall t mod DayNs / Hour.
Definition MinuteOf (t : Time) : Z := wall t mod Hour / Minute.
Definition SecondOf (t : Time) : Z := wall t mod Minute / Second.
Definition NanoOf (t : Time) : Z := wall t mod Second.

Definition Date (y m d hh mm ss ns l : Z) : Time :=
  mkTime (day_of_civil y m d * DayNs + hh * Hour + mm * Minute + ss * Second + ns
          - l * Second) l.

Definition AddDate (t : Time) (years months days : Z) : Time :=
  Date (Year t + years) (Month t + months) (Day t + days)
       (HourOf t) (MinuteOf t) (SecondOf t) (NanoOf t) (loc t).

(** The location is a whole number of hours away from UTC. *)
Definition hour_zone (t : Time) : Prop := loc t mod 3600 = 0.

(** ** Calendar lemmas *)
Section Calendar.

Lemma leap_day_01 y : 0 <= leap_day y <= 1.
Proof. unfold leap_day. destruct (is_leap y); lia. Qed.

Lemma days_before_year_succ y :
  days_before_year (y + 1) = days_before_year y + 365 + leap_day y.
Proof.
  unfold days_before_year, leap_day, is_leap.
  destruct (Z.eqb_spec (y mod 4) 0), (Z.eqb_spec (y mod 100) 0), (Z.eqb_spec (y mod 400) 0);
    simpl; dlia.
Qed.

Lemma year_of_day_spec d :
  days_before_year (year_of_day d) <= d < days_before_year (year_of_day d + 1).
Proof. unfold days_before_year, year_of_day. split; dlia. Qed.

Lemma days_before_year_mono y y' :
  y <= y' → days_before_year y + 365 * (y' - y) <= days_before_year y'.
Proof. unfold days_before_year. intros. dlia. Qed.

Lemma year_of_day_unique d y :
  days_before_year y <= d < days_before_year (y + 1) → year_of_day d = y.
Proof.
  intros H. pose proof (year_of_day_spec d) as H'.
  destruct (Z.lt_trichotomy (year_of_day d) y) as [Hlt|[Heq|Hgt]]; [|done|].
  - pose proof (days_before_year_mono (year_of_day d + 1) y ltac:(lia)). lia.
  - pose proof (days_before_year_mono (y + 1) (year_of_day d) ltac:(lia)). lia.
Qed.

Lemma yday_bounds d : 0 <= yday d < 365 + leap_day (year_of_day d).
Proof.
  unfold yday. pose proof (year_of_day_spec d).
  pose proof (days_before_year_succ (year_of_day d)). lia.
Qed.

Lemma month_of_yday_spec lp yd :
  0 <= lp <= 1 → 0 <= yd < 365 + lp →
  1 <= month_of_yday lp yd <= 12 ∧
  days_before_month lp (month_of_yday lp yd) <= yd
    < days_before_month lp (month_of_yday lp yd + 1).
Proof.
  intros Hlp Hyd. unfold month_of_yday.
  repeat match goal with
  | |- context [if ?a <? ?b then _ else _] => destruct (Z.ltb_spec a b)
  end; unfold days_before_month; simpl; lia.
Qed.

Lemma days_before_month_mono lp m m' :
  0 <= lp <= 1 → 1 <= m <= m' → m' <= 13 →
  days_before_month lp m <= days_before_month lp m'.
Proof.
  intros Hlp Hm Hm'. unfold days_before_month.
  repeat match goal with
  | |- context [if ?a <=? ?b then _ else _] => destruct (Z.leb_spec a b)
  end; lia.
Qed.

Lemma month_of_yday_unique lp yd m :
  0 <= lp <= 1 → 0 <= yd < 365 + lp → 1 <= m <= 12 →
  days_before_month lp m <= yd < days_before_month lp (m + 1) →
  month_of_yday lp yd = m.
Proof.
  intros Hlp Hyd Hm Hb. destruct (month_of_yday_spec lp yd Hlp Hyd) as [Hr Hs].
  destruct (Z.lt_trichotomy (month_of_yday lp yd) m) as [Hlt|[Heq|Hgt]]; [|done|].
  - pose proof (days_before_month_mono lp (month_of_yday lp yd + 1) m Hlp
                  ltac:(lia) ltac:(lia)). lia.
  - pose proof (days_before_month_mono lp (m + 1) (month_of_yday lp yd) Hlp
                  ltac:(lia) ltac:(lia)). lia.
Qed.

Lemma month_of_day_spec d :
  let lp := leap_day (year_of_day d) in
  1 <= month_of_day d <= 12 ∧
  days_before_month lp (month_of_day d) <= yday d < days_before_month lp (month_of_day d + 1).
Proof.
  apply month_of_yday_spec; [apply leap_day_01 | apply yday_bounds].
Qed.

Lemma mday_of_day_bounds d : 1 <= mday_of_day d <= 31.
Proof.
  unfold mday_of_day. destruct (month_of_day_spec d) as [Hm Hb].
  pose proof (leap_day_01 (year_of_day d)).
  set (m := month_of_day d) in *. set (lp := leap_day _) in *.
  assert (days_before_month lp (m + 1) <= days_before_month lp m + 31); [|lia].
  clearbody m lp. clear Hb. unfold days_before_month.
  repeat match goal with
  | |- context [if ?a <=? ?b then _ else _] => destruct (Z.leb_spec a b)
  end; lia.
Qed.

(** Months 1..12 need no normalisation; month 13 is January of the next year. *)
Lemma day_of_civil_norm y m d :
  1 <= m <= 13 →
  day_of_civil y m d = days_before_year y + days_before_month (leap_day y) m + d - 1.
Proof.
  intros Hm. unfold day_of_civil. destruct (decide (m = 13)) as [->|Hne].
  - change ((13 - 1) / 12) with 1. change ((13 - 1) mod 12 + 1) with 1.
    rewrite days_before_year_succ. unfold days_before_month. simpl. lia.
  - rewrite Z.div_small, Z.mod_small by lia.
    replace (y + 0) with y by lia. replace (m - 1 + 1) with m by lia. done.
Qed.

Lemma day_of_civil_of_day d k :
  day_of_civil (year_of_day d) (month_of_day d) (mday_of_day d + k) = d + k.
Proof.
  destruct (month_of_day_spec d) as [Hm _].
  rewrite day_of_civil_norm by lia. unfold mday_of_day, yday. lia.
Qed.

(** The days of the month of [d] are an interval, and all share its month. *)
Lemma month_interval d d' :
  day_of_civil (year_of_day d) (month_of_day d) 1 <= d'
    < day_of_civil (year_of_day d) (month_of_day d + 1) 1 →
  year_of_day d' = year_of_day d ∧ month_of_day d' = month_of_day d.
Proof.
  destruct (month_of_day_spec d) as [Hm Hb].
  set (y := year_of_day d) in *. set (m := month_of_day d) in *.
  rewrite !day_of_civil_norm by lia. intros Hd'.
  pose proof (leap_day_01 y) as Hl.
  pose proof (days_before_month_mono (leap_day y) 1 m Hl ltac:(lia) ltac:(lia)) as H1.
  pose proof (days_before_month_mono (leap_day y) (m + 1) 13 Hl ltac:(lia) ltac:(lia)) as H13.
  unfold days_before_month in H1 at 1. unfold days_before_month in H13 at 2.
  simpl in H1, H13.
  assert (Hy : year_of_day d' = y).
  { apply year_of_day_unique. rewrite days_before_year_succ. lia. }
  split; [done|]. unfold month_of_day, yday. rewrite Hy.
  apply month_of_yday_unique; lia.
Qed.

Lemma month_interval_self d :
  day_of_civil (year_of_day d) (month_of_day d) 1 <= d
    < day_of_civil (year_of_day d) (month_of_day d + 1) 1.
Proof.
  destruct (month_of_day_spec d) as [Hm Hb]. rewrite !day_of_civil_norm by lia.
  unfold yday in Hb. lia.
Qed.

(** Four calendar years are 1459 to 1462 days, whatever day they start from. *)
Lemma four_years y m d :
  1 <= m <= 12 →
  1459 <= day_of_civil (y + 4) m d - day_of_civil y m d <= 1462.
Proof.
  intros Hm. rewrite !day_of_civil_norm by lia.
  pose proof (leap_day_01 y). pose proof (leap_day_01 (y + 4)).
  assert (1460 <= days_before_year (y + 4) - days_before_year y <= 1461).
  { unfold days_before_year. dlia. }
  set (a := leap_day y) in *. set (b := leap_day (y + 4)) in *.
  assert (-1 <= days_before_month b m - days_before_month a m <= 1); [|lia].
  clearbody a b. unfold days_before_month.
  repeat match goal with
  | |- context [if ?a <=? ?b then _ else _] => destruct (Z.leb_spec a b)
  end; lia.
Qed.

End Calendar.

(** ** Presentation of an instant *)
Section Presentation.

Lemma wall_Date y m d hh mm ss ns l :
  wall (Date y m d hh mm ss ns l) =
  day_of_civil y m d * DayNs + hh * Hour + mm * Minute + ss * Second + ns.
Proof. unfold wall, Date. simpl. lia. Qed.

Lemma wall_decompose t :
  wall t = wall_day t * DayNs + HourOf t * Hour + MinuteOf t * Minute
           + SecondOf t * Second + NanoOf t.
Proof.
  unfold wall_day, HourOf, MinuteOf, SecondOf, NanoOf.
  generalize (wall t). intros w. unfold DayNs, Hour, Minute, Second. dlia.
Qed.

Lemma Month_bounds t : 1 <= Month t <= 12.
Proof. apply month_of_day_spec. Qed.

Lemma Day_bounds t : 1 <= Day t <= 31.
Proof. apply mday_of_day_bounds. Qed.

Lemma Weekday_bounds t : 0 <= Weekday t <= 6.
Proof. unfold Weekday. dlia. Qed.

Lemma HourOf_bounds t : 0 <= HourOf t <= 23.
Proof. unfold HourOf, DayNs, Hour. dlia. Qed.

Lemma MinuteOf_bounds t : 0 <= MinuteOf t <= 59.
Proof. unfold MinuteOf, Minute, Hour. dlia. Qed.

Lemma same_day t u :
  wall_day t = wall_day u → Month t = Month u ∧ Day t = Day u ∧ Weekday t = Weekday u.
Proof. unfold Month, Day, Weekday. by intros ->. Qed.

Lemma day_of_civil_date t : day_of_civil (Year t) (Month t) (Day t) = wall_day t.
Proof.
  unfold Year, Month, Day. rewrite <- (Z.add_0_r (mday_of_day _)).
  rewrite day_of_civil_of_day. lia.
Qed.

Lemma AddDate_wall t y m d :
  wall (AddDate t y m d) =
  wall t + (day_of_civil (Year t + y) (Month t + m) (Day t + d) - wall_day t) * DayNs.
Proof.
  unfold AddDate. rewrite wall_Date. rewrite (wall_decompose t) at 1. lia.
Qed.

Lemma AddDate_one_day t : wall (AddDate t 0 0 1) = wall t + DayNs.
Proof.
  rewrite AddDate_wall. rewrite !Z.add_0_r.
  unfold Year, Month, Day. rewrite day_of_civil_of_day. lia.
Qed.

Lemma AddDate_four_years t :
  wall t + 1459 * DayNs <= wall (AddDate t 4 0 0) <= wall t + 1462 * DayNs.
Proof.
  rewrite AddDate_wall. rewrite !Z.add_0_r.
  pose proof (four_years (Year t) (Month t) (Day t) (Month_bounds t)).
  pose proof (day_of_civil_date t). unfold DayNs. lia.
Qed.

End Presentation.

#[export] Hint Resolve Month_bounds Day_bounds Weekday_bounds HourOf_bounds
  MinuteOf_bounds leap_day_01 : go.
