(* ===== verification/GoStrings.v ===== *)
(** * The part of Go's [strings] and [strconv] packages the program uses

    Go strings are byte sequences, here the standard [string] of 8-bit
    characters.  [Index], [Split] and [SplitN] are only called with one-byte
    separators.  [Fields] and [TrimSpace] recognise the UTF-8 encodings of every
    Unicode white-space rune.  [Itoa] prints the integers of error and log texts,
    [Duration_String] the durations. *)
From stdpp Require Import base tactics list strings numbers option.
From Stdlib Require Import ZArith Lia Ascii String.
From S2P Require Import Prelude.

Local Open Scope string_scope.
Local Open Scope Z_scope.

(** ** Substrings *)
Fixpoint str_take (n : nat) (s : string) : string :=
  match n, s with
  | S n', String a s' => String a (str_take n' s')
  | _, _ => EmptyString
  end.
Fixpoint str_drop (n : nat) (s : string) : string :=
  match n, s with
  | S n', String _ s' => str_drop n' s'
  | _, _ => s
  end.
Arguments str_take : simpl nomatch.
Arguments str_drop : simpl nomatch.

(** [strings.Index(s, c)] for a one-byte [c]; [None] is Go's [-1]. *)
Fixpoint Index (s : string) (c : ascii) : option nat :=
  match s with
  | EmptyString => None
  | String a s' => if decide (a = c) then Some O else S <$> Index s' c
  end.

(** Put a character in front of the first word of a list of words. *)
Definition cons_head (a : ascii) (ws : list string) : list string :=
  match ws with
  | w :: ws' => String a w :: ws'
  | [] => [String a EmptyString]
  end.

(** [strings.Split(s, c)] for a one-byte [c]. *)
Fixpoint Split (s : string) (c : ascii) : list string :=
  match s with
  | EmptyString => [EmptyString]
  | String a s' => if decide (a = c) then EmptyString :: Split s' c
                   else cons_head a (Split s' c)
  end.

(** [strings.SplitN(s, c, 2)]: cut at the first separator only. *)
Definition SplitN2 (s : string) (c : ascii) : list string :=
  match Index s c with
  | Some i => [str_take i s; str_drop (S i) s]
  | None => [s]
  end.

(** ** White space *)
Definition byte_at (s : string) (n : nat) : Z :=
  match String.get n s with Some a => Z.of_nat (nat_of_ascii a) | None => -1 end.

(** Number of bytes of the white-space rune [s] starts with, [0] if it starts
    with none.  The lead bytes C2, E1, E2, E3 never occur inside another rune,
    so testing every byte position agrees with decoding rune by rune. *)
Definition space_len (s : string) : nat :=
  let b0 := byte_at s 0 in let b1 := byte_at s 1 in let b2 := byte_at s 2 in
  if bool_decide (9 <= b0 <= 13) || (b0 =? 32) then 1%nat
  else if (b0 =? 0xC2) && ((b1 =? 0x85) || (b1 =? 0xA0)) then 2%nat
  else if (b0 =? 0xE1) && (b1 =? 0x9A) && (b2 =? 0x80) then 3%nat
  else if (b0 =? 0xE2) && (b1 =? 0x80) &&
          (bool_decide (0x80 <= b2 <= 0x8A) || (b2 =? 0xA8) || (b2 =? 0xA9) || (b2 =? 0xAF))
       then 3%nat
  else if (b0 =? 0xE2) && (b1 =? 0x81) && (b2 =? 0x9F) then 3%nat
  else if (b0 =? 0xE3) && (b1 =? 0x80) && (b2 =? 0x80) then 3%nat
  else 0%nat.

(** Cut at every white-space rune; [skip] bytes of the current rune remain. *)
Fixpoint split_spaces (skip : nat) (s : string) : list string :=
  match s with
  | EmptyString => [EmptyString]
  | String a s' =>
      match skip with
      | S k => split_spaces k s'
      | O => match space_len s with
             | S k => EmptyString :: split_spaces k s'
             | O => cons_head a (split_spaces O s')
             end
      end
  end.

Definition nonempty (s : string) : bool := negb (String.eqb s EmptyString).

(** [strings.Fields(s)] *)
Definition Fields (s : string) : list string :=
  List.filter nonempty (split_spaces 0 s).

(** Position of the first byte that is not white space, and of the end of the
    last rune that is not white space. *)
Fixpoint trim_left (skip : nat) (s : string) : string :=
  match s with
  | EmptyString => EmptyString
  | String _ s' =>
      match skip with
      | S k => trim_left k s'
      | O => match space_len s with S k => trim_left k s' | O => s end
      end
  end.
Fixpoint all_space (skip : nat) (s : string) : bool :=
  match s with
  | EmptyString => true
  | String _ s' =>
      match skip with
      | S k => all_space k s'
      | O => match space_len s with S k => all_space k s' | O => false end
      end
  end.
Fixpoint trim_right (s : string) : string :=
  match s with
  | EmptyString => EmptyString
  | String a s' => if all_space 0 s then EmptyString else String a (trim_right s')
  end.
(** [strings.TrimSpace(s)] *)
Definition TrimSpace (s : string) : string := trim_right (trim_left 0 s).

(** ** Decimal integers *)
Definition digit (a : ascii) : option Z :=
  let b := Z.of_nat (nat_of_ascii a) in
  if bool_decide (48 <= b <= 57) then Some (b - 48) else None.

Fixpoint digits (s : string) (acc : Z) : option Z :=
  match s with
  | EmptyString => Some acc
  | String a s' => match digit a with
                   | Some d => digits s' (acc * 10 + d)
                   | None => None
                   end
  end.

(** One digit at least. *)
Definition unsigned (s : string) : option Z :=
  match s with EmptyString => None | String _ _ => digits s 0 end.

(** [strconv.Atoi(s)]: an optional sign, decimal digits, within [int64];
    [None] is a non-nil error. *)
Definition Atoi (s : string) : option Z :=
  v ← match s with
      | String a s' =>
          if decide (a = "-"%char) then Z.opp <$> unsigned s'
          else if decide (a = "+"%char) then unsigned s' else unsigned s
      | EmptyString => None
      end;
  if bool_decide (min_int64 <= v <= max_int64) then Some v else None.

(** Decimal printing of a non-negative integer. *)
Definition digit_char (d : Z) : ascii := ascii_of_nat (Z.to_nat (48 + d)).
Fixpoint itoa_go (fuel : nat) (n : Z) (acc : string) : string :=
  let acc' := String (digit_char (n mod 10)) acc in
  match fuel with
  | O => acc'
  | S f => if n <? 10 then acc' else itoa_go f (n / 10) acc'
  end.
(** Nineteen digits are enough for every [int64]. *)
Definition Itoa (n : Z) : string := itoa_go 19 n EmptyString.

(** [Duration.String], on nanoseconds: [fmtFrac] puts [v / 10^prec] before its digits
    after the point, without trailing zeros, and returns the whole part. *)
Fixpoint fmtFrac (prec : nat) (v : Z) (print : bool) (buf : string) : Z * string :=
  match prec with
  | O => (v, if print then "." ++ buf else buf)
  | S n =>
      let digit := v mod 10 in
      let print := print || negb (digit =? 0) in
      fmtFrac n (v / 10) print (if print then String (digit_char digit) buf else buf)
  end.

Definition Duration_String (d : Z) : string :=
  let u := Z.abs d in
  let s :=
    if u =? 0 then "0s" else
    if u <? 10 ^ 9 then
      let '(v, buf) :=
        if u <? 10 ^ 3 then fmtFrac 0 u false "ns"
        else if u <? 10 ^ 6 then fmtFrac 3 u false "µs"
        else fmtFrac 6 u false "ms" in
      Itoa v ++ buf
    else
      let '(secs, buf) := fmtFrac 9 u false "s" in
      let buf := Itoa (secs mod 60) ++ buf in
      let mins := secs / 60 in
      if mins =? 0 then buf else
      let buf := Itoa (mins mod 60) ++ "m" ++ buf in
      let hours := mins / 60 in
      if hours =? 0 then buf else Itoa hours ++ "h" ++ buf in
  if d <? 0 then "-" ++ s else s.

Example Duration_String_ms : Duration_String 1500000 = "1.5ms". Proof. reflexivity. Qed.
Example Duration_String_h : Duration_String 3661000000000 = "1h1m1s". Proof. reflexivity. Qed.
Example Duration_String_neg : Duration_String (-2050000000) = "-2.05s". Proof. reflexivity. Qed.

Fixpoint str_join (sep : string) (ws : list string) : string :=
  match ws with
  | [] => EmptyString
  | [w] => w
  | w :: ws' => w ++ sep ++ str_join sep ws'
  end.

(** [c] does not occur in [s]. *)
Fixpoint absent (c : ascii) (s : string) : bool :=
  match s with
  | EmptyString => true
  | String a s' => negb (bool_decide (a = c)) && absent c s'
  end.
(** No white-space rune starts in [s]: every byte is printable ASCII. *)
Fixpoint plain (s : string) : bool :=
  match s with
  | EmptyString => true
  | String a s' => bool_decide (33 <= Z.of_nat (nat_of_ascii a) <= 126) && plain s'
  end.

(** ** Lemmas *)
Section Substrings.

Lemma app_String a s t : String a s ++ t = String a (s ++ t).
Proof. done. Qed.

Lemma app_Empty t : EmptyString ++ t = t.
Proof. done. Qed.

Lemma absent_app c s t : absent c (s ++ t) = absent c s && absent c t.
Proof. induction s as [|a s IH]; [done|]. rewrite app_String. simpl. rewrite IH. by rewrite andb_assoc. Qed.

Lemma plain_app s t : plain (s ++ t) = plain s && plain t.
Proof. induction s as [|a s IH]; [done|]. rewrite app_String. simpl. rewrite IH. by rewrite andb_assoc. Qed.

Lemma append_empty_r s : s ++ EmptyString = s.
Proof. induction s as [|a s IH]; [done|]. by rewrite app_String, IH. Qed.

Lemma plain_String a s :
  plain (String a s) = bool_decide (33 <= Z.of_nat (nat_of_ascii a) <= 126) && plain s.
Proof. done. Qed.

Lemma Index_absent s c : absent c s = true → Index s c = None.
Proof.
  induction s as [|a s IH]; simpl; [done|].
  intros [Ha Hs]%andb_prop. apply negb_true_iff, bool_decide_eq_false in Ha.
  rewrite decide_False by done. by rewrite IH.
Qed.

(** The first separator of [s ++ c :: t] is where [s] ends. *)
Lemma Index_first s c t : absent c s = true → Index (s ++ String c t) c = Some (String.length s).
Proof.
  induction s as [|a s IH]; rewrite ?app_String, ?app_Empty; simpl.
  - intros _. by rewrite decide_True.
  - intros [Ha Hs]%andb_prop. apply negb_true_iff, bool_decide_eq_false in Ha.
    rewrite decide_False by done. by rewrite IH.
Qed.

Lemma str_take_app s t : str_take (String.length s) (s ++ t) = s.
Proof. induction s as [|a s IH]; [by destruct t|]. rewrite app_String. simpl. by rewrite IH. Qed.

Lemma str_drop_app s c t : str_drop (S (String.length s)) (s ++ String c t) = t.
Proof. induction s as [|a s IH]; [by destruct t|]. rewrite app_String. done. Qed.

Lemma cons_head_nonnil a ws : cons_head a ws ≠ [].
Proof. by destruct ws. Qed.

Lemma Split_absent s c : absent c s = true → Split s c = [s].
Proof.
  induction s as [|a s IH]; simpl; [done|].
  intros [Ha Hs]%andb_prop. apply negb_true_iff, bool_decide_eq_false in Ha.
  rewrite decide_False by done. by rewrite IH.
Qed.

Lemma Split_app s c t : absent c s = true → Split (s ++ String c t) c = s :: Split t c.
Proof.
  induction s as [|a s IH]; rewrite ?app_String, ?app_Empty; simpl.
  - intros _. by rewrite decide_True.
  - intros [Ha Hs]%andb_prop. apply negb_true_iff, bool_decide_eq_false in Ha.
    rewrite decide_False by done. by rewrite IH.
Qed.

(** Splitting undoes joining. *)
Lemma Split_join c ws :
  ws ≠ [] → Forall (λ w, absent c w = true) ws →
  Split (str_join (String c EmptyString) ws) c = ws.
Proof.
  intros Hne Hall. induction Hall as [|w ws Hw Hws IH]; [done|].
  destruct ws as [|w' ws]; [by apply Split_absent|].
  change (str_join _ (w :: w' :: ws))
    with (w ++ String c (str_join (String c EmptyString) (w' :: ws))).
  rewrite Split_app by done. by rewrite IH.
Qed.

Lemma Split_nonnil s c : Split s c ≠ [].
Proof. destruct s; simpl; [done|]. case_decide; [done|]. apply cons_head_nonnil. Qed.

End Substrings.

Section Spaces.

Lemma space_len_plain a s :
  33 <= Z.of_nat (nat_of_ascii a) <= 126 → space_len (String a s) = 0%nat.
Proof.
  intros Ha. unfold space_len.
  change (byte_at (String a s) 0) with (Z.of_nat (nat_of_ascii a)).
  rewrite (bool_decide_eq_false_2 (9 <= _ <= 13)) by lia.
  assert (∀ k, k = 32 ∨ 126 < k → (Z.of_nat (nat_of_ascii a) =? k) = false) as Hk.
  { intros k Hk. apply Z.eqb_neq. lia. }
  rewrite !Hk by lia. done.
Qed.

Lemma split_spaces_plain s : plain s = true → split_spaces 0 s = [s].
Proof.
  induction s as [|a s IH]; [done|]. simpl plain. intros [Ha Hs]%andb_prop.
  apply bool_decide_eq_true in Ha. cbn [split_spaces].
  rewrite space_len_plain by done. by rewrite IH.
Qed.

Lemma split_spaces_app s t :
  plain s = true → split_spaces 0 (s ++ String " " t) = s :: split_spaces 0 t.
Proof.
  induction s as [|a s IH]; [done|]. simpl plain. intros [Ha Hs]%andb_prop.
  apply bool_decide_eq_true in Ha. change (String a s ++ ?x) with (String a (s ++ x)).
  cbn [split_spaces]. rewrite space_len_plain by done. by rewrite IH.
Qed.

(** Non-empty plain words joined by single spaces are the fields again. *)
Lemma Fields_join ws :
  Forall (λ w, plain w = true ∧ nonempty w = true) ws → Fields (str_join " " ws) = ws.
Proof.
  unfold Fields. intros Hall. induction Hall as [|w ws [Hw Hn] Hws IH]; [done|].
  destruct ws as [|w' ws].
  - simpl str_join. rewrite split_spaces_plain by done. simpl. by rewrite Hn.
  - change (str_join _ (w :: w' :: ws)) with (w ++ String " " (str_join " " (w' :: ws))).
    rewrite split_spaces_app by done. cbn [List.filter]. rewrite Hn. by rewrite IH.
Qed.

End Spaces.

Section Decimal.

Lemma digit_digit_char d : 0 <= d <= 9 → digit (digit_char d) = Some d.
Proof.
  intros Hd.
  assert (d = 0 ∨ d = 1 ∨ d = 2 ∨ d = 3 ∨ d = 4 ∨ d = 5 ∨ d = 6 ∨ d = 7 ∨ d = 8 ∨ d = 9)
    as Hc by lia.
  by destruct_or! Hc; subst d.
Qed.

Lemma digits_app s t acc : digits (s ++ t) acc = v ← digits s acc; digits t v.
Proof.
  revert acc. induction s as [|a s IH]; intros acc; [done|]. rewrite app_String. simpl.
  destruct (digit a); [apply IH|done].
Qed.

(** Printing puts the digits of [n] in front of the accumulator. *)
Lemma itoa_go_digits fuel n acc :
  0 <= n < 10 ^ (Z.of_nat fuel + 1) →
  ∃ p, itoa_go fuel n acc = p ++ acc ∧ nonempty p = true ∧
       (∀ a, digits p a = Some (a * 10 ^ Z.of_nat (String.length p) + n)) ∧
       Forall (λ c, is_Some (digit c)) (list_ascii_of_string p).
Proof.
  revert n acc. induction fuel as [|f IH]; intros n acc Hn.
  - change (10 ^ (Z.of_nat 0 + 1)) with 10 in Hn. simpl. rewrite Z.mod_small by lia.
    exists (String (digit_char n) EmptyString).
    assert (Hd := digit_digit_char n ltac:(lia)). split_and!; [done|done| |].
    + intros a. simpl. by rewrite Hd.
    + simpl. constructor; [rewrite Hd; by eexists|constructor].
  - cbn [itoa_go]. destruct (Z.ltb_spec n 10) as [Hlt|Hge].
    + rewrite Z.mod_small by lia.
      exists (String (digit_char n) EmptyString).
      assert (Hd := digit_digit_char n ltac:(lia)). split_and!; [done|done| |].
      * intros a. simpl. by rewrite Hd.
      * simpl. constructor; [rewrite Hd; by eexists|constructor].
    + destruct (IH (n / 10) (String (digit_char (n mod 10)) acc)) as (p & Hp & Hne & Hdig & Hall).
      { rewrite Nat2Z.inj_succ in Hn. rewrite Z.add_succ_l, Z.pow_succ_r in Hn by lia.
        split; [apply Z.div_pos; lia|]. apply Z.div_lt_upper_bound; lia. }
      assert (Hd := digit_digit_char (n mod 10) ltac:(dlia)).
      exists (p ++ String (digit_char (n mod 10)) EmptyString). split_and!.
      * rewrite Hp. clear. induction p as [|c p IHp]; [done|]. by rewrite !app_String, IHp.
      * by destruct p.
      * intros a. rewrite digits_app, Hdig. simpl. rewrite Hd. f_equal.
        assert (String.length (p ++ String (digit_char (n mod 10)) EmptyString)
                = S (String.length p)) as ->.
        { clear. induction p as [|c p IHp]; [done|]. rewrite app_String. simpl. by rewrite IHp. }
        rewrite Nat2Z.inj_succ, Z.pow_succ_r by lia. pose proof (Z.div_mod n 10). lia.
      * clear -Hall Hd. induction p as [|c p IHp]; rewrite ?app_String, ?app_Empty; simpl in *.
        -- constructor; [rewrite Hd; by eexists|constructor].
        -- inversion Hall; subst. constructor; auto.
Qed.

Lemma Itoa_spec n :
  0 <= n <= max_int64 →
  nonempty (Itoa n) = true ∧ digits (Itoa n) 0 = Some n ∧
  Forall (λ c, is_Some (digit c)) (list_ascii_of_string (Itoa n)).
Proof.
  unfold max_int64, Itoa. intros Hn.
  destruct (itoa_go_digits 19 n EmptyString) as (p & -> & Hne & Hd & Hall).
  { change (10 ^ (Z.of_nat 19 + 1)) with 100000000000000000000. lia. }
  rewrite append_empty_r. split; [done|]. split; [|done]. by rewrite Hd.
Qed.

Lemma digit_range c : is_Some (digit c) → 48 <= Z.of_nat (nat_of_ascii c) <= 57.
Proof. unfold digit. intros [d H]. case_bool_decide; [lia|discriminate]. Qed.

Lemma digits_absent s c :
  Forall (λ a, is_Some (digit a)) (list_ascii_of_string s) → digit c = None → absent c s = true.
Proof.
  induction s as [|a s IH]; simpl; [done|]. intros Hall Hc. inversion Hall as [|? ? Ha Hs]; subst.
  rewrite IH by done. rewrite bool_decide_eq_false_2; [done|]. intros ->.
  rewrite Hc in Ha. by destruct Ha.
Qed.

Lemma digits_plain s :
  Forall (λ a, is_Some (digit a)) (list_ascii_of_string s) → plain s = true.
Proof.
  induction s as [|a s IH]; simpl; [done|]. intros Hall. inversion Hall as [|? ? Ha Hs]; subst.
  rewrite IH by done. rewrite bool_decide_eq_true_2; [done|]. apply digit_range in Ha. lia.
Qed.

Lemma Itoa_absent n c : 0 <= n <= max_int64 → digit c = None → absent c (Itoa n) = true.
Proof. intros Hn Hc. apply digits_absent; [by apply Itoa_spec|done]. Qed.

Lemma Itoa_plain n : 0 <= n <= max_int64 → plain (Itoa n) = true.
Proof. intros Hn. apply digits_plain. by apply Itoa_spec. Qed.

(** [Atoi] reads back what [Itoa] prints. *)
Lemma Atoi_Itoa n : 0 <= n <= max_int64 → Atoi (Itoa n) = Some n.
Proof.
  intros Hn. destruct (Itoa_spec n Hn) as (Hne & Hd & Hall). unfold Atoi.
  destruct (Itoa n) as [|a s] eqn:E; [done|]. inversion Hall as [|? ? Ha Hs]; subst.
  apply digit_range in Ha. rewrite decide_False, decide_False.
  - unfold unsigned. rewrite Hd. simpl. rewrite bool_decide_eq_true_2; [done|].
    unfold min_int64. lia.
  - intros ->. vm_compute in Ha. destruct Ha as [Ha _]. by destruct Ha.
  - intros ->. vm_compute in Ha. destruct Ha as [Ha _]. by destruct Ha.
Qed.

Lemma Atoi_bounds s v : Atoi s = Some v → min_int64 <= v <= max_int64.
Proof.
  unfold Atoi. intros H. bind_inv H. case_bool_decide; [|done]. by simplify_eq.
Qed.

End Decimal.
