(* ===== verification/Cron.v ===== *)
(** * pkg/cron: cron expressions

    [Expression], the parser ([Parse], [parseField], [parsePart],
    [fillRangeStep]) and the search for the next activation ([Next] with
    [advanceMonth] and [advanceHour]), translated from pkg/cron/parser.go.  The
    lemmas of this file are about bit masks and the parser; CronNext.v has
    those about [Next]. *)
From stdpp Require Import base tactics list strings numbers option.
From Stdlib Require Import ZArith Lia Ascii String.
From S2P Require Import Prelude.
From S2P Require Import GoTime.
From S2P Require Import GoStrings.

Local Open Scope string_scope.
Local Open Scope Z_scope.

(** ** Data *)

(** Each field is a [uint64] used as a bit mask. *)
Record Expression := mkExpression {
  second : Z; minute : Z; hour : Z; dayOfMonth : Z; month : Z; dayOfWeek : Z
}.

Inductive CronErr :=
| ErrFieldCount (n : Z)
| ErrStep (s : string)
| ErrRangeStart (s : string)
| ErrRangeEnd (s : string)
| ErrValue (s : string)
| ErrOutOfRange (lo hi min max : Z)
| ErrIn (field : string) (e : CronErr).

(** ** Bit masks *)

(** [1 << uint(i)] as a [uint64]: shifts of 64 or more give 0. *)
Definition shl1 (i : Z) : Z := if u64 i <? 64 then Z.shiftl 1 (u64 i) else 0.

(** [mask & (1<<uint(i)) != 0] *)
Definition has_bit (mask i : Z) : bool := negb (Z.land mask (shl1 i) =? 0).

Definition fill_body (hi step : Z) (s : Z * Z) : (Z * Z) + Z :=
  let '(i, mask) := s in
  if i <=? hi then inl (wrap64 (i + step), Z.lor mask (shl1 i)) else inr mask.

(** The loop leaves within 128 turns for the bounds of every cron field
    ([fill_terminates] below). *)
Definition fillRangeStep (lo hi step : Z) : Z :=
  match loop 7 (fill_body hi step) (lo, 0) with inr mask => mask | inl (_, mask) => mask end.

(** [bits.TrailingZeros64] *)
Fixpoint pos_trailing_zeros (p : positive) : Z :=
  match p with xO p' => 1 + pos_trailing_zeros p' | _ => 0 end.
Definition TrailingZeros64 (z : Z) : Z :=
  match z with Zpos p => pos_trailing_zeros p | _ => 64 end.

Definition nextBit (mask pos : Z) : Z :=
  let shifted := Z.shiftr mask (u64 pos) in
  if shifted =? 0 then -1 else pos + TrailingZeros64 shifted.

(** ** The parser *)
Definition parsePart (part : string) (min max : Z) : result CronErr Z :=
  '(step, part) ←
    match Index part "/" with
    | Some i =>
        match Atoi (str_drop (S i) part) with
        | Some s => if s <=? 0 then Err (ErrStep (str_drop (S i) part))
                    else Ok (s, str_take i part)
        | None => Err (ErrStep (str_drop (S i) part))
        end
    | None => Ok (1, part)
    end;
  '(lo, hi) ←
    (if decide (part = "*") then Ok (min, max)
     else match Index part "-" with
     | Some i =>
         match Atoi (str_take i part) with
         | None => Err (ErrRangeStart (str_take i part))
         | Some lo =>
             match Atoi (str_drop (S i) part) with
             | None => Err (ErrRangeEnd (str_drop (S i) part))
             | Some hi => Ok (lo, hi)
             end
         end
     | None =>
         match Atoi part with
         | None => Err (ErrValue part)
         | Some v => Ok (v, v)
         end
     end);
  if (lo <? min) || (hi >? max) || (lo >? hi) then Err (ErrOutOfRange lo hi min max)
  else Ok (fillRangeStep lo hi step).

(** The [for] loop of [parseField], over the remaining parts. *)
Fixpoint parseParts (parts : list string) (min max mask : Z) : result CronErr Z :=
  match parts with
  | [] => Ok mask
  | part :: parts' =>
      m ← parsePart part min max;
      parseParts parts' min max (Z.lor mask m)
  end.

Definition parseField (field : string) (min max : Z) : result CronErr Z :=
  if decide (field = "*") then Ok (fillRangeStep min max 1)
  else parseParts (Split field ",") min max 0.

Definition Parse (expr : string) : result CronErr Expression :=
  let fields := Fields expr in
  match fields with
  | [f0; f1; f2; f3; f4] =>
      mi ← wrap_err (ErrIn "minute") (parseField f0 0 59);
      ho ← wrap_err (ErrIn "hour") (parseField f1 0 23);
      dm ← wrap_err (ErrIn "dom") (parseField f2 1 31);
      mo ← wrap_err (ErrIn "month") (parseField f3 1 12);
      dw ← wrap_err (ErrIn "dow") (parseField f4 0 6);
      Ok (mkExpression 0 mi ho dm mo dw)
  | _ => Err (ErrFieldCount (zlen fields))
  end.

(** ** The next activation *)
Definition advanceMonth (t : Time) : Time := Date (Year t) (Month t + 1) 1 0 0 0 0 (loc t).

Definition advanceHour (t : Time) : Time :=
  let next := Truncate (Add t Hour) Hour in
  Date (Year next) (Month next) (Day next) (HourOf next) 0 0 0 (loc t).

Definition dom_match (e : Expression) (t : Time) : bool := has_bit (dayOfMonth e) (Day t).
Definition dow_match (e : Expression) (t : Time) : bool := has_bit (dayOfWeek e) (Weekday t).

Definition next_body (e : Expression) (limit : Time) (t : Time) : Time + Time :=
  if Before t limit then
    if negb (has_bit (month e) (Month t)) then inl (advanceMonth t)
    else if negb (dom_match e t) && negb (dow_match e t) then
      let t1 := AddDate t 0 0 1 in
      inl (Date (Year t1) (Month t1) (Day t1) 0 0 0 0 (loc t1))
    else if negb (has_bit (hour e) (HourOf t)) then inl (advanceHour t)
    else if negb (has_bit (minute e) (MinuteOf t)) then inl (Truncate (Add t Minute) Minute)
    else inr t
  else inr zeroTime.

Definition next_start (t : Time) : Time := Add (Truncate t Minute) Minute.
Definition next_limit (t : Time) : Time := AddDate (next_start t) 4 0 0.

(** [None] means that the search has not left its loop after 2^22 turns, more
    than there are minutes in the four years it searches. *)
Definition Next (e : Expression) (t : Time) : option Time :=
  match loop 22 (next_body e (next_limit t)) (next_start t) with
  | inr r => Some r
  | inl _ => None
  end.

(** The test that [Next] applies to a minute, day by [domMatch || dowMatch] as in the code;
    what src/index/1_parser.md documents is [documented] below. *)
Definition matches (e : Expression) (t : Time) : bool :=
  has_bit (month e) (Month t) && (dom_match e t || dow_match e t) &&
  has_bit (hour e) (HourOf t) && has_bit (minute e) (MinuteOf t).

(** ** The matching that src/index/1_parser.md documents

    A field is restricted when it is not [*].  If both day fields are restricted either
    may match, if neither is every day does, and if one is that one decides. *)
Definition day_fields (expr : string) : option (string * string) :=
  match Fields expr with [_; _; dom; _; dow] => Some (dom, dow) | _ => None end.
Definition restricted (field : string) : bool := negb (String.eqb field "*").

Definition documented_day (dom dow : string) (e : Expression) (t : Time) : bool :=
  match restricted dom, restricted dow with
  | false, false => true
  | true, false => dom_match e t
  | false, true => dow_match e t
  | true, true => dom_match e t || dow_match e t
  end.

(** A minute and the month, hour and minute fields, the day left aside. *)
Definition time_match (e : Expression) (t : Time) : bool :=
  has_bit (month e) (Month t) && has_bit (hour e) (HourOf t) && has_bit (minute e) (MinuteOf t).

(** The expression [expr], parsed to [e], matches the minute [t]. *)
Definition documented (expr : string) (e : Expression) (t : Time) : bool :=
  time_match e t &&
  match day_fields expr with Some (dom, dow) => documented_day dom dow e t | None => false end.

(** Both day fields of [expr] are [*], or neither is. *)
Definition day_fields_alike (expr : string) : bool :=
  match day_fields expr with
  | Some (dom, dow) => Bool.eqb (restricted dom) (restricted dow)
  | None => false
  end.

(** ** Concrete syntax, for the round-trip theorems *)

(** [*], a value, or a range; an optional step. *)
Inductive cron_range := CStar | CVal (v : Z) | CRange (lo hi : Z).
Record cron_part := mkPart { p_range : cron_range; p_step : option Z }.

Definition print_range (r : cron_range) : string :=
  match r with
  | CStar => "*"
  | CVal v => Itoa v
  | CRange lo hi => Itoa lo ++ String "-" (Itoa hi)
  end.
Definition print_part (p : cron_part) : string :=
  match p_step p with
  | None => print_range (p_range p)
  | Some s => print_range (p_range p) ++ String "/" (Itoa s)
  end.
Definition print_field (ps : list cron_part) : string := str_join "," (map print_part ps).

Definition range_lo (min : Z) (r : cron_range) : Z :=
  match r with CStar => min | CVal v => v | CRange lo _ => lo end.
Definition range_hi (max : Z) (r : cron_range) : Z :=
  match r with CStar => max | CVal v => v | CRange _ hi => hi end.
Definition step_of (p : cron_part) : Z := match p_step p with Some s => s | None => 1 end.

Definition part_ok (min max : Z) (p : cron_part) : Prop :=
  min <= range_lo min (p_range p) <= range_hi max (p_range p) ∧
  range_hi max (p_range p) <= max ∧ 1 <= step_of p <= max_int64 - max.

(** The values a part, and a field, stand for. *)
Definition part_has (min max : Z) (p : cron_part) (j : Z) : bool :=
  (range_lo min (p_range p) <=? j) && (j <=? range_hi max (p_range p)) &&
  ((j - range_lo min (p_range p)) mod step_of p =? 0).
Definition field_has (min max : Z) (ps : list cron_part) (j : Z) : bool :=
  existsb (λ p, part_has min max p j) ps.

Definition field_ok (min max : Z) (ps : list cron_part) : Prop :=
  ps ≠ [] ∧ Forall (part_ok min max) ps.

Record cron_syntax := mkSyntax {
  s_minute : list cron_part; s_hour : list cron_part; s_dom : list cron_part;
  s_month : list cron_part; s_dow : list cron_part
}.
Definition print_syntax (c : cron_syntax) : string :=
  str_join " " [print_field (s_minute c); print_field (s_hour c); print_field (s_dom c);
                print_field (s_month c); print_field (s_dow c)].
Definition syntax_ok (c : cron_syntax) : Prop :=
  field_ok 0 59 (s_minute c) ∧ field_ok 0 23 (s_hour c) ∧ field_ok 1 31 (s_dom c) ∧
  field_ok 1 12 (s_month c) ∧ field_ok 0 6 (s_dow c).

(** A mask a field parser may produce: some bit set, none above [max]. *)
Definition mask_ok (max m : Z) : Prop :=
  (∃ j, 0 <= j <= max ∧ Z.testbit m j = true) ∧
  ∀ j, Z.testbit m j = true → 0 <= j <= max.

Definition expr_ok (e : Expression) : Prop :=
  second e = 0 ∧ mask_ok 59 (minute e) ∧ mask_ok 23 (hour e) ∧ mask_ok 31 (dayOfMonth e) ∧
  mask_ok 12 (month e) ∧ mask_ok 6 (dayOfWeek e).

(** ** Bit masks: lemmas *)
Section Masks.

Lemma shl1_small i : 0 <= i < 64 → shl1 i = 2 ^ i.
Proof.
  intros Hi. unfold shl1. rewrite u64_small by lia.
  destruct (Z.ltb_spec i 64); [|lia]. by rewrite Z.shiftl_1_l.
Qed.

(** A shift by a negative [int] is a shift by a huge [uint]. *)
Lemma shl1_neg i : min_int64 <= i < 0 → shl1 i = 0.
Proof.
  unfold shl1, u64, min_int64. intros Hi.
  replace (i mod 2 ^ 64) with (i + 2 ^ 64).
  - destruct (Z.ltb_spec (i + 2 ^ 64) 64); lia.
  - apply Z.mod_unique with (-1); lia.
Qed.

Lemma shl1_testbit i j :
  0 <= i < 64 → 0 <= j → Z.testbit (shl1 i) j = bool_decide (i = j).
Proof.
  intros Hi Hj. rewrite shl1_small by lia.
  case_bool_decide as H; [subst; by apply Z.pow2_bits_true|].
  by apply Z.pow2_bits_false.
Qed.

Lemma has_bit_testbit mask i : 0 <= i < 64 → has_bit mask i = Z.testbit mask i.
Proof.
  intros Hi. unfold has_bit. rewrite shl1_small by lia.
  destruct (Z.testbit mask i) eqn:E.
  - apply negb_true_iff, Z.eqb_neq. intros H.
    assert (Z.testbit (Z.land mask (2 ^ i)) i = true) as Ht.
    { by rewrite Z.land_spec, E, Z.pow2_bits_true by lia. }
    rewrite H, Z.bits_0 in Ht. done.
  - apply negb_false_iff, Z.eqb_eq. apply Z.bits_inj'. intros n Hn.
    rewrite Z.land_spec, Z.bits_0. destruct (decide (i = n)) as [<-|Hne].
    + by rewrite E.
    + rewrite Z.pow2_bits_false by done. by rewrite andb_false_r.
Qed.

Lemma trailing_zeros_spec p :
  let k := pos_trailing_zeros p in
  0 <= k ∧ Z.testbit (Zpos p) k = true ∧ ∀ j, 0 <= j < k → Z.testbit (Zpos p) j = false.
Proof.
  induction p as [p IH|p IH|]; simpl.
  - split_and!; [lia|done|lia].
  - destruct IH as (H0 & H1 & H2). split_and!; [lia| |].
    + rewrite Pos2Z.inj_xO. replace (1 + pos_trailing_zeros p)
        with (Z.succ (pos_trailing_zeros p)) by lia. by rewrite Z.double_bits_succ.
    + intros j Hj. rewrite Pos2Z.inj_xO. destruct (decide (j = 0)) as [->|Hne]; [done|].
      replace j with (Z.succ (j - 1)) by lia. rewrite Z.double_bits_succ. apply H2. lia.
  - split_and!; [lia|done|lia].
Qed.

End Masks.

(** ** The step loop of [fillRangeStep] *)
Section Fill.
Context (lo hi step : Z).
Hypothesis Hlo : 0 <= lo <= 63.
Hypothesis Hhi : 0 <= hi <= 59.
Hypothesis Hstep : 1 <= step <= max_int64.

(** The states the loop goes through: a [step] below [2^62] takes [i] past [hi]
    without wrapping; a larger one may make [i] alternate between small values
    and values next to [min_int64], going down by at least two at each round. *)
Definition fill_inv (s : Z * Z) : Prop :=
  let i := fst s in
  if step <? 2 ^ 62 then 0 <= i
  else (-63 <= i <= 63) ∨ (hi < i <= max_int64) ∨
       (∃ j, 2 ^ 63 - step <= j <= 59 ∧ i = j + step - 2 ^ 64).

Definition fill_measure (s : Z * Z) : Z :=
  let i := fst s in
  if step <? 2 ^ 62 then Z.max 0 (hi + 1 - i)
  else if i <? - 2 ^ 62 then i + 2 ^ 64 - step + 63
  else if i <=? hi then i + 64 else 0.

Lemma fill_step s s' :
  fill_inv s → fill_body hi step s = inl s' →
  fill_inv s' ∧ fill_measure s' <= fill_measure s - 1.
Proof using Hhi Hstep.
  destruct s as [i mask]. unfold fill_body, fill_inv, fill_measure. simpl.
  intros Hi. destruct (Z.leb_spec i hi) as [Hle|Hgt]; [|discriminate].
  intros [= <-]. simpl. unfold max_int64 in *.
  destruct (Z.ltb_spec step (2 ^ 62)).
  { rewrite wrap64_id by (unfold min_int64, max_int64; lia). lia. }
  destruct Hi as [Hi|[Hi|(j & Hj & ->)]]; [|lia|].
  - destruct (Z.ltb_spec i (- 2 ^ 62)); [lia|].
    destruct (Z.leb_spec (i + step) (2 ^ 63 - 1)).
    + rewrite wrap64_id by (unfold min_int64, max_int64; lia). split; [lia|].
      destruct (Z.ltb_spec (i + step) (- 2 ^ 62)); [lia|].
      destruct (Z.leb_spec (i + step) hi); lia.
    + rewrite wrap64_over by (unfold max_int64; lia). split.
      * right. right. exists i. lia.
      * destruct (Z.ltb_spec (i + step - 2 ^ 64) (- 2 ^ 62)); lia.
  - rewrite wrap64_id by (unfold min_int64, max_int64; lia). split; [left; lia|].
    destruct (Z.ltb_spec (j + step - 2 ^ 64) (- 2 ^ 62)); [|lia].
    destruct (Z.ltb_spec (j + step - 2 ^ 64 + step) (- 2 ^ 62)); [lia|].
    destruct (Z.leb_spec (j + step - 2 ^ 64 + step) hi); lia.
Qed.

Lemma fill_measure_nonneg s : fill_inv s → 0 <= fill_measure s.
Proof using Hhi Hstep.
  destruct s as [i mask]. unfold fill_inv, fill_measure. simpl.
  destruct (Z.ltb_spec step (2 ^ 62)); [lia|].
  unfold max_int64 in *.
  intros [Hi|[Hi|(j & Hj & ->)]].
  - destruct (Z.ltb_spec i (- 2 ^ 62)); [lia|].
    destruct (Z.leb_spec i hi); lia.
  - destruct (Z.ltb_spec i (- 2 ^ 62)); [lia|].
    destruct (Z.leb_spec i hi); lia.
  - destruct (Z.ltb_spec (j + step - 2 ^ 64) (- 2 ^ 62)); lia.
Qed.

Lemma fill_inv_start mask : fill_inv (lo, mask).
Proof using Hlo. unfold fill_inv. simpl. case_match; lia. Qed.

(** The loop always leaves, even where [i += step] wraps around. *)
Lemma fill_loop_leaves : ∃ mask, loop 7 (fill_body hi step) (lo, 0) = inr mask.
Proof using Hlo Hhi Hstep.
  apply (loop_terminates (fill_body hi step) fill_inv fill_measure);
    eauto using fill_step, fill_measure_nonneg, fill_inv_start.
  unfold fill_measure. simpl. repeat case_match; lia.
Qed.

(** Whatever the step, every bit is at most [hi], and [lo] is there if the
    range is not empty. *)
Definition fill_bits (s : Z * Z) : Prop :=
  fill_inv s ∧ (∀ j, Z.testbit (snd s) j = true → 0 <= j <= hi) ∧
  (s = (lo, 0) ∨ Z.testbit (snd s) lo = true).

Lemma fill_bits_step s s' :
  fill_bits s → fill_body hi step s = inl s' → fill_bits s'.
Proof using Hlo Hhi Hstep.
  intros (Hinv & Hb & Hl) E. destruct (fill_step s s' Hinv E) as [Hinv' _].
  split; [done|]. destruct s as [i mask]. unfold fill_body in E. simpl in *.
  destruct (Z.leb_spec i hi) as [Hle|Hgt]; [|discriminate]. simplify_eq. simpl.
  assert (Hi : i < 0 ∧ shl1 i = 0 ∨ 0 <= i).
  { destruct (decide (0 <= i)); [by right|]. left. split; [lia|]. apply shl1_neg.
    unfold fill_inv, min_int64, max_int64 in *. simpl in Hinv.
    destruct (Z.ltb_spec step (2 ^ 62)); [lia|]. destruct Hinv as [?|[?|(?&?&->)]]; lia. }
  destruct Hi as [[Hneg Hz]|Hpos].
  - rewrite Hz, Z.lor_0_r. split; [done|]. destruct Hl as [[= -> ->]|Hl]; [lia|by right].
  - split.
    + intros j. destruct (decide (0 <= j)); [|by rewrite Z.testbit_neg_r by lia].
      rewrite Z.lor_spec, shl1_testbit by lia. intros [Hj|Hj]%orb_prop; [eauto|].
      apply bool_decide_eq_true in Hj. lia.
    + right. rewrite Z.lor_spec, shl1_testbit by lia. destruct Hl as [[= -> ->]|Hl].
      * by rewrite bool_decide_eq_true_2, orb_true_r.
      * by rewrite Hl.
Qed.

Lemma fill_mask :
  lo <= hi → Z.testbit (fillRangeStep lo hi step) lo = true ∧
  ∀ j, Z.testbit (fillRangeStep lo hi step) j = true → 0 <= j <= hi.
Proof using Hlo Hhi Hstep.
  intros Hle. unfold fillRangeStep.
  pose proof (loop_inv (fill_body hi step) fill_bits 7 (lo, 0) fill_bits_step) as Hl.
  destruct fill_loop_leaves as [m Hm]. rewrite Hm in Hl |- *.
  destruct Hl as ([i mask] & (_ & Hb & Hlo') & E).
  { split; [apply fill_inv_start|]. split; [|by left].
    simpl. intros j. by rewrite Z.bits_0. }
  unfold fill_body in E. simpl in *.
  destruct (Z.leb_spec i hi) as [Hle'|Hgt]; [discriminate|]. simplify_eq.
  split; [|done]. destruct Hlo' as [[= -> _]|?]; [lia|done].
Qed.

Lemma fill_mask_ok : lo <= hi → mask_ok hi (fillRangeStep lo hi step).
Proof using Hlo Hhi Hstep.
  intros Hle. destruct (fill_mask Hle) as [H1 H2]. split; [|done]. exists lo. split; [lia|done].
Qed.

(** Without wrap-around the mask holds exactly the multiples of [step] counted
    from [lo]. *)
Definition fill_exact (s : Z * Z) : Prop :=
  let '(i, mask) := s in
  lo <= i <= max_int64 ∧ (i = lo ∨ i - step <= hi) ∧ (i - lo) mod step = 0 ∧
  ∀ j, 0 <= j → Z.testbit mask j = (lo <=? j) && (j <? i) && ((j - lo) mod step =? 0).

Lemma mod_gap i j :
  (i - lo) mod step = 0 → (j - lo) mod step = 0 → i < j < i + step → False.
Proof using Hstep.
  intros Hi Hj Hij. assert (Hd : (j - i) mod step = 0).
  { replace (j - i) with ((j - lo) - (i - lo)) by lia.
    by rewrite Zminus_mod, Hi, Hj, Z.mod_0_l by lia. }
  rewrite Z.mod_small in Hd by lia. lia.
Qed.

Lemma fill_exact_step s s' :
  hi + step <= max_int64 →
  fill_exact s → fill_body hi step s = inl s' → fill_exact s'.
Proof using Hlo Hhi Hstep.
  intros Hov. destruct s as [i mask]. unfold fill_body, fill_exact.
  intros (Hi & _ & Hmod & Hb). destruct (Z.leb_spec i hi) as [Hle|Hgt]; [|discriminate].
  intros [= <-]. rewrite wrap64_id by (unfold min_int64, max_int64 in *; lia).
  split; [lia|]. split; [lia|]. split.
  { replace (i + step - lo) with (i - lo + 1 * step) by lia. by rewrite Z.mod_add by lia. }
  intros j Hj. rewrite Z.lor_spec, shl1_testbit, Hb by lia.
  case_bool_decide as Hij.
  - subst j. rewrite orb_true_r, Hmod.
    destruct (Z.leb_spec lo i), (Z.ltb_spec i (i + step)); try lia; done.
  - rewrite orb_false_r. destruct (Z.ltb_spec j i), (Z.ltb_spec j (i + step)); try done; try lia.
    rewrite andb_false_r. simpl. destruct (Z.leb_spec lo j); [|done]. simpl. symmetry.
    apply Z.eqb_neq. intros Hmj. apply (mod_gap i j); [done|done|lia].
Qed.

Lemma fill_testbit j :
  hi + step <= max_int64 → 0 <= j →
  Z.testbit (fillRangeStep lo hi step) j =
  (lo <=? j) && (j <=? hi) && ((j - lo) mod step =? 0).
Proof using Hlo Hhi Hstep.
  intros Hov Hj. unfold fillRangeStep.
  pose proof (loop_inv (fill_body hi step) fill_exact 7 (lo, 0)
                (λ s s', fill_exact_step s s' Hov)) as Hl.
  destruct fill_loop_leaves as [m Hm]. rewrite Hm in Hl |- *.
  destruct Hl as ([i mask] & (Hi & Hlast & Hmod & Hb) & E).
  { unfold fill_exact, max_int64. rewrite Z.sub_diag, Z.mod_0_l by lia.
    split_and!; [lia|lia|by left|done|]. intros k Hk. rewrite Z.bits_0.
    destruct (Z.leb_spec lo k), (Z.ltb_spec k lo); (lia || done). }
  unfold fill_body in E. destruct (Z.leb_spec i hi) as [Hle|Hgt]; [discriminate|].
  simplify_eq. rewrite Hb by done.
  destruct (Z.leb_spec lo j), (Z.leb_spec j hi), (Z.ltb_spec j i); try lia; simpl; try done.
  apply Z.eqb_neq. intros Hmj. destruct Hlast as [->|Hlast]; [lia|].
  apply (mod_gap j i); [done|done|lia].
Qed.

End Fill.

(** ** The parser: lemmas *)
Section Parser.
Context (min max : Z).
Hypothesis Hmin : 0 <= min <= max.
Hypothesis Hmax : max <= 59.

Lemma mask_ok_weaken hi m : hi <= max → mask_ok hi m → mask_ok max m.
Proof using Type.
  intros Hle [(j & Hj & Ht) Hb]. split; [exists j; split; [lia|done]|].
  intros k Hk. specialize (Hb k Hk). lia.
Qed.

Lemma mask_ok_lor m m' : (m = 0 ∨ mask_ok max m) → mask_ok max m' → mask_ok max (Z.lor m m').
Proof using Type.
  intros Hm [(j & Hj & Ht) Hb]. split.
  - exists j. by rewrite Z.lor_spec, Ht, orb_true_r.
  - intros k. rewrite Z.lor_spec. intros [Hk|Hk]%orb_prop; [|by apply Hb].
    destruct Hm as [->|[_ Hm]]; [by rewrite Z.bits_0 in Hk|by apply Hm].
Qed.

(** A range printed without a step is not cut at the slash. *)
Lemma print_range_absent c lo hi r :
  (r = CStar ∨ 0 <= range_lo lo r <= max_int64 ∧ 0 <= range_hi hi r <= max_int64) →
  digit c = None → c ≠ "*"%char → c ≠ "-"%char → absent c (print_range r) = true.
Proof using Type.
  intros Hr Hc Hstar Hdash. destruct r as [|v|l h]; simpl in *.
  - by rewrite bool_decide_eq_false_2.
  - apply Itoa_absent; [|done]. by destruct Hr as [?|[? ?]].
  - destruct Hr as [?|[? ?]]; [done|].
    rewrite absent_app. simpl. rewrite !Itoa_absent by done.
    by rewrite bool_decide_eq_false_2.
Qed.

(** Reading a printed range gives its bounds. *)
Lemma parse_range lo hi r :
  (r = CStar ∨ 0 <= range_lo lo r <= max_int64 ∧ 0 <= range_hi hi r <= max_int64) →
  (if decide (print_range r = "*") then Ok (lo, hi)
   else match Index (print_range r) "-" with
        | Some i =>
            match Atoi (str_take i (print_range r)) with
            | None => Err (ErrRangeStart (str_take i (print_range r)))
            | Some l =>
                match Atoi (str_drop (S i) (print_range r)) with
                | None => Err (ErrRangeEnd (str_drop (S i) (print_range r)))
                | Some h => Ok (l, h)
                end
            end
        | None =>
            match Atoi (print_range r) with
            | None => Err (ErrValue (print_range r))
            | Some v => Ok (v, v)
            end
        end) = Ok (range_lo lo r, range_hi hi r).
Proof using Type.
  intros Hr.
  assert (Hns : ∀ s, absent "*" s = true → s ≠ "*") by (by intros s Hs ->).
  destruct r as [|v|l h]; simpl in *.
  - done.
  - destruct Hr as [?|[Hv _]]; [done|].
    rewrite decide_False by (by apply Hns, Itoa_absent).
    rewrite Index_absent by (by apply Itoa_absent). by rewrite Atoi_Itoa.
  - destruct Hr as [?|[Hl Hh]]; [done|].
    rewrite decide_False.
    + rewrite Index_first by (by apply Itoa_absent).
      by rewrite str_take_app, str_drop_app, !Atoi_Itoa.
    + apply Hns. rewrite absent_app. simpl. by rewrite !Itoa_absent.
Qed.

Lemma part_range_bounds p :
  part_ok min max p →
  p_range p = CStar ∨ 0 <= range_lo min (p_range p) <= max_int64 ∧
                      0 <= range_hi max (p_range p) <= max_int64.
Proof using Hmin Hmax.
  intros (Hlo & Hhi & Hst). unfold max_int64 in *. right. lia.
Qed.

(** Parsing a printed part succeeds, with the bits of the values it denotes. *)
Lemma parsePart_print p :
  part_ok min max p →
  ∃ m, parsePart (print_part p) min max = Ok m ∧
       mask_ok max m ∧ ∀ j, 0 <= j → Z.testbit m j = part_has min max p j.
Proof using Hmin Hmax.
  intros Hp. pose proof (part_range_bounds p Hp) as Hr. destruct Hp as (Hlo & Hhi & Hst).
  assert (Hstep : ∃ st, step_of p = st ∧
    match Index (print_part p) "/" with
    | Some i =>
        match Atoi (str_drop (S i) (print_part p)) with
        | Some s => if s <=? 0 then Err (ErrStep (str_drop (S i) (print_part p)))
                    else Ok (s, str_take i (print_part p))
        | None => Err (ErrStep (str_drop (S i) (print_part p)))
        end
    | None => Ok (1, print_part p)
    end = Ok (st, print_range (p_range p))).
  { exists (step_of p). split; [done|]. unfold print_part, step_of in *.
    destruct (p_step p) as [s|].
    - rewrite Index_first by (by eapply print_range_absent).
      rewrite str_drop_app, str_take_app, Atoi_Itoa by (unfold max_int64 in *; lia).
      destruct (Z.leb_spec s 0); [lia|done].
    - by rewrite Index_absent by (by eapply print_range_absent). }
  destruct Hstep as (st & Hst' & E). unfold parsePart. rewrite E. simpl.
  rewrite parse_range by done. simpl. rewrite Hst' in Hst.
  set (l := range_lo min (p_range p)) in *. set (h := range_hi max (p_range p)) in *.
  destruct (Z.ltb_spec l min), (Z.gtb_spec h max), (Z.gtb_spec l h); try lia.
  simpl. eexists. split; [done|].
  assert (Hs64 : 1 <= st <= max_int64) by (unfold max_int64 in *; lia).
  split; [eapply mask_ok_weaken; [|apply fill_mask_ok]; lia|].
  intros j Hj. rewrite fill_testbit by lia. unfold part_has. by rewrite Hst'.
Qed.

(** The special case for [*] agrees with the general one. *)
Lemma parseField_parts f : parseField f min max = parseParts (Split f ",") min max 0.
Proof using Hmin.
  unfold parseField. case_decide as Hf; [|done]. subst f.
  change (Split "*" ",") with ["*"]. cbn [parseParts]. unfold parsePart. simpl.
  destruct (Z.ltb_spec min min), (Z.gtb_spec max max), (Z.gtb_spec min max); try lia.
  done.
Qed.

Lemma parseParts_print ps mask :
  Forall (part_ok min max) ps →
  ∃ m, parseParts (map print_part ps) min max mask = Ok m ∧
       ∀ j, 0 <= j → Z.testbit m j = Z.testbit mask j || field_has min max ps j.
Proof using Hmin Hmax.
  intros Hps. revert mask. induction Hps as [|p ps Hp Hps IH]; intros mask; simpl.
  - exists mask. split; [done|]. intros j _. by rewrite orb_false_r.
  - destruct (parsePart_print p Hp) as (m & -> & _ & Hm). simpl.
    destruct (IH (Z.lor mask m)) as (m' & -> & Hm'). exists m'. split; [done|].
    intros j Hj. by rewrite Hm', Z.lor_spec, Hm, orb_assoc by done.
Qed.

Lemma print_part_absent_comma p : part_ok min max p → absent "," (print_part p) = true.
Proof using Hmin Hmax.
  intros Hp. pose proof (part_range_bounds p Hp) as Hr. destruct Hp as (_ & _ & Hst).
  unfold print_part, step_of in *. destruct (p_step p).
  - rewrite absent_app. simpl. rewrite Itoa_absent by (unfold max_int64 in *; try lia; done).
    by erewrite print_range_absent.
  - by eapply print_range_absent.
Qed.

Lemma print_part_plain p :
  part_ok min max p → plain (print_part p) = true ∧ nonempty (print_part p) = true.
Proof using Hmin Hmax.
  intros Hp. pose proof (part_range_bounds p Hp) as Hr. destruct Hp as (_ & _ & Hst).
  assert (Hpr : plain (print_range (p_range p)) = true ∧
                nonempty (print_range (p_range p)) = true).
  { destruct (p_range p) as [|v|l h]; simpl in *; [done| |];
      destruct Hr as [?|[H1 H2]]; try done.
    - split; [by apply Itoa_plain|by apply Itoa_spec].
    - rewrite plain_app. simpl. rewrite !Itoa_plain by done. split; [done|].
      by destruct (Itoa l). }
  destruct Hpr as [Hpl Hne]. unfold print_part, step_of in *. destruct (p_step p); [|done].
  rewrite plain_app. simpl. rewrite Hpl, Itoa_plain by (unfold max_int64 in *; lia).
  split; [done|]. by destruct (print_range (p_range p)).
Qed.

Lemma parseField_print ps :
  field_ok min max ps →
  ∃ m, parseField (print_field ps) min max = Ok m ∧
       ∀ j, 0 <= j → Z.testbit m j = field_has min max ps j.
Proof using Hmin Hmax.
  intros [Hne Hps]. rewrite parseField_parts. unfold print_field.
  rewrite Split_join.
  - destruct (parseParts_print ps 0 Hps) as (m & -> & Hm). exists m. split; [done|].
    intros j Hj. by rewrite Hm, Z.bits_0 by done.
  - by destruct ps.
  - apply Forall_map. revert Hps. apply List.Forall_impl. intros p. apply print_part_absent_comma.
Qed.

Lemma print_field_plain ps :
  field_ok min max ps → plain (print_field ps) = true ∧ nonempty (print_field ps) = true.
Proof using Hmin Hmax.
  intros [Hne Hps]. unfold print_field. induction Hps as [|p ps Hp Hps IH]; [done|].
  destruct (print_part_plain p Hp) as [Hpl Hn].
  destruct ps as [|p' ps]; [by split|]. destruct IH as [IHp _]; [done|].
  change (str_join "," (map print_part (p :: p' :: ps)))
    with (print_part p ++ String "," (str_join "," (map print_part (p' :: ps)))).
  rewrite plain_app, plain_String, Hpl, IHp. split; [done|].
  by destruct (print_part p).
Qed.

(** What the parser accepts is a mask of values up to [max], with one at least. *)
Lemma parsePart_mask_ok part m : parsePart part min max = Ok m → mask_ok max m.
Proof using Hmin Hmax.
  unfold parsePart. match goal with |- (?e ≫= _ = _ → _) => destruct e as [[st p]|] eqn:Es end;
    [|done]. simpl.
  match goal with |- (?e ≫= _ = _ → _) => destruct e as [[lo hi]|] eqn:Er end; [|done]. simpl.
  destruct (Z.ltb_spec lo min), (Z.gtb_spec hi max), (Z.gtb_spec lo hi); try done.
  intros [= <-].
  assert (Hst : 1 <= st <= max_int64).
  { destruct (Index part "/"); [|simplify_eq; unfold max_int64; lia].
    destruct (Atoi _) as [s|] eqn:Ea; [|done]. destruct (Z.leb_spec s 0); [done|].
    simplify_eq. apply Atoi_bounds in Ea. lia. }
  eapply mask_ok_weaken; [|apply fill_mask_ok]; lia.
Qed.

Lemma parseParts_mask_ok parts mask m :
  (mask = 0 ∧ parts ≠ [] ∨ mask_ok max mask) →
  parseParts parts min max mask = Ok m → mask_ok max m.
Proof using Hmin Hmax.
  revert mask. induction parts as [|p ps IH]; intros mask Hm; simpl.
  - destruct Hm as [[_ ?]|Hm]; [done|]. by intros [= <-].
  - destruct (parsePart p min max) as [m'|] eqn:E; [|done]. simpl. apply IH.
    right. apply mask_ok_lor; [tauto|]. by eapply parsePart_mask_ok.
Qed.

Lemma parseField_mask_ok f m : parseField f min max = Ok m → mask_ok max m.
Proof using Hmin Hmax.
  rewrite parseField_parts. apply parseParts_mask_ok. left. split; [done|apply Split_nonnil].
Qed.

End Parser.

Section ParseExpr.

Lemma Parse_fields s e :
  Parse s = Ok e →
  ∃ f0 f1 f2 f3 f4, Fields s = [f0; f1; f2; f3; f4] ∧ second e = 0 ∧
    parseField f0 0 59 = Ok (minute e) ∧ parseField f1 0 23 = Ok (hour e) ∧
    parseField f2 1 31 = Ok (dayOfMonth e) ∧ parseField f3 1 12 = Ok (month e) ∧
    parseField f4 0 6 = Ok (dayOfWeek e).
Proof.
  unfold Parse.
  destruct (Fields s) as [|f0 [|f1 [|f2 [|f3 [|f4 [|]]]]]] eqn:Ef; try done.
  destruct (parseField f0 0 59) as [mi|] eqn:E0; [|done]. simpl.
  destruct (parseField f1 0 23) as [ho|] eqn:E1; [|done]. simpl.
  destruct (parseField f2 1 31) as [dm|] eqn:E2; [|done]. simpl.
  destruct (parseField f3 1 12) as [mo|] eqn:E3; [|done]. simpl.
  destruct (parseField f4 0 6) as [dw|] eqn:E4; [|done]. simpl.
  intros [= <-]. exists f0, f1, f2, f3, f4. by split_and!.
Qed.

(** A [*] as a day field leaves every day matching. *)
Lemma star_mask min max m :
  0 <= min <= max → max <= 59 → parseField "*" min max = Ok m →
  ∀ j, min <= j <= max → has_bit m j = true.
Proof.
  intros Hm Hx E j Hj. unfold parseField in E. rewrite decide_True in E by done.
  injection E as <-. rewrite has_bit_testbit by lia.
  rewrite fill_testbit by (unfold max_int64; lia).
  rewrite Z.mod_1_r. destruct (Z.leb_spec min j), (Z.leb_spec j max); try lia; done.
Qed.

Lemma unrestricted_star f : restricted f = false → f = "*".
Proof. unfold restricted. destruct (String.eqb_spec f "*"); done. Qed.

Lemma day_fields_match expr e dom dow :
  Parse expr = Ok e → day_fields expr = Some (dom, dow) →
  (restricted dom = false → ∀ t, dom_match e t = true) ∧
  (restricted dow = false → ∀ t, dow_match e t = true).
Proof.
  intros (f0 & f1 & f2 & f3 & f4 & Ef & _ & _ & _ & Hd & _ & Hw)%Parse_fields.
  unfold day_fields. rewrite Ef. intros [= -> ->]. split; intros ->%unrestricted_star t.
  - pose proof (Day_bounds t). apply (star_mask 1 31); [lia..|done|lia].
  - pose proof (Weekday_bounds t). apply (star_mask 0 6); [lia..|done|lia].
Qed.

(** The test of the code is the documented one when the day fields are alike, and leaves
    every day when just one of them is restricted. *)
Lemma matches_documented expr e t :
  Parse expr = Ok e → day_fields_alike expr = true → matches e t = documented expr e t.
Proof.
  intros E Ha. unfold day_fields_alike, documented, documented_day, matches, time_match in *.
  destruct (day_fields expr) as [[dom dow]|] eqn:Ed; [|done].
  destruct (day_fields_match _ _ _ _ E Ed) as [Hd Hw].
  destruct (restricted dom), (restricted dow); try done.
  - by destruct (has_bit (month e) _), (dom_match e t || dow_match e t), (has_bit (hour e) _), (has_bit (minute e) _).
  - rewrite Hd, Hw by done. simpl. by rewrite !andb_true_r.
Qed.

Lemma matches_every_day expr e t :
  Parse expr = Ok e → day_fields_alike expr = false → matches e t = time_match e t.
Proof.
  intros E Ha. unfold day_fields_alike, matches, time_match in *.
  assert (Hs : ∃ dom dow, day_fields expr = Some (dom, dow)).
  { destruct (Parse_fields _ _ E) as (? & ? & dom & ? & dow & Ef & _). exists dom, dow.
    unfold day_fields. by rewrite Ef. }
  destruct Hs as (dom & dow & Ed). rewrite Ed in Ha.
  destruct (day_fields_match _ _ _ _ E Ed) as [Hd Hw].
  destruct (restricted dom), (restricted dow); try done;
    [rewrite Hw by done|rewrite Hd by done]; rewrite ?orb_true_r, andb_true_r; done.
Qed.

Lemma Parse_expr_ok s e : Parse s = Ok e → expr_ok e.
Proof.
  intros H. destruct (Parse_fields s e H) as (f0 & f1 & f2 & f3 & f4 & _ & Hs & H0 & H1 & H2 & H3 & H4).
  unfold expr_ok. split_and!; [done| | | | |];
    eapply parseField_mask_ok; try eassumption; lia.
Qed.

End ParseExpr.
