(* ===== verification/CronNext.v ===== *)
(** * pkg/cron: the next activation

    Lemmas about [Expression.Next] (Cron.v): each way the search moves forward
    skips only instants that do not match, moves by a minute at least, and stays
    on minute boundaries, when the location is a whole number of hours from
    UTC.  From these follow that the search ends and that its result is the
    least matching minute.  The theorems about the parser are here too. *)
From stdpp Require Import base tactics list strings numbers option.
From Stdlib Require Import ZArith Lia Ascii String.
From S2P Require Import Prelude.
From S2P Require Import GoTime.
From S2P Require Import GoStrings.
From S2P Require Import Cron.

Local Open Scope string_scope.
Local Open Scope Z_scope.

(** An instant on a minute boundary. *)
Definition aligned (t : Time) : Prop := abs t mod Minute = 0.

(** [u] is presented in the location of [t]. *)
Definition same_loc (t u : Time) : Prop := loc u = loc t.

(** One forward move of the search, from [t] to [t']. *)
Definition skips (e : Expression) (t t' : Time) : Prop :=
  same_loc t t' ∧ aligned t' ∧ abs t + Minute <= abs t' ∧
  ∀ u, same_loc t u → abs t <= abs u < abs t' → matches e u = false.

(** ** Moving to the next month, day, hour and minute *)
Section Moves.

Lemma wall_same_loc t u : same_loc t u → wall u - wall t = abs u - abs t.
Proof. unfold wall, same_loc. intros ->. lia. Qed.

Lemma hour_zone_wall t k : hour_zone t → (abs t = k - loc t * Second) → k mod Hour = 0 →
  aligned t.
Proof.
  unfold hour_zone, aligned, Hour, Minute, Second. intros Hz -> Hk. dlia.
Qed.

Lemma gap_minute t t' : aligned t → aligned t' → abs t < abs t' → abs t + Minute <= abs t'.
Proof. unfold aligned, Minute. intros. dlia. Qed.

Lemma Date_midnight y m d l :
  wall (Date y m d 0 0 0 0 l) = day_of_civil y m d * DayNs ∧ loc (Date y m d 0 0 0 0 l) = l.
Proof. rewrite wall_Date. split; [lia|done]. Qed.

Lemma midnight_aligned t k : hour_zone t → wall t = k * DayNs → aligned t.
Proof.
  intros Hz Hw. apply (hour_zone_wall t (k * DayNs)); [done| |].
  - unfold wall in Hw. lia.
  - unfold DayNs, Hour. dlia.
Qed.

Lemma wall_day_range t : wall_day t * DayNs <= wall t < (wall_day t + 1) * DayNs.
Proof. unfold wall_day, DayNs. dlia. Qed.

Lemma wall_day_between t d1 d2 :
  d1 * DayNs <= wall t < d2 * DayNs → d1 <= wall_day t < d2.
Proof. unfold wall_day, DayNs. intros. dlia. Qed.

(** The first instant of the next month. *)
Lemma advanceMonth_spec t :
  hour_zone t →
  same_loc t (advanceMonth t) ∧ aligned (advanceMonth t) ∧ abs t < abs (advanceMonth t) ∧
  ∀ u, same_loc t u → abs t <= abs u < abs (advanceMonth t) → Month u = Month t.
Proof.
  intros Hz. unfold advanceMonth.
  destruct (Date_midnight (Year t) (Month t + 1) 1 (loc t)) as [Hw Hl].
  set (t' := Date _ _ _ _ _ _ _ _) in *.
  assert (Hsl : same_loc t t') by done.
  pose proof (month_interval_self (wall_day t)) as Hs. fold (Year t) (Month t) in Hs.
  pose proof (wall_day_range t) as Hr. pose proof (wall_same_loc t t' Hsl) as Hd.
  split_and!; [done| | |].
  - eapply midnight_aligned; [|done]. unfold hour_zone. by rewrite Hsl.
  - unfold DayNs in *. nia.
  - intros u Hu Hb. pose proof (wall_same_loc t u Hu) as Hdu.
    destruct (wall_day_between u (wall_day t) (day_of_civil (Year t) (Month t + 1) 1)) as [H1 H2];
      [lia|].
    apply month_interval. fold (Year t) (Month t). lia.
Qed.

(** Midnight of the next day. *)
Definition nextDay (t : Time) : Time :=
  let t1 := AddDate t 0 0 1 in Date (Year t1) (Month t1) (Day t1) 0 0 0 0 (loc t1).

Lemma nextDay_spec t :
  hour_zone t →
  same_loc t (nextDay t) ∧ aligned (nextDay t) ∧ abs t < abs (nextDay t) ∧
  ∀ u, same_loc t u → abs t <= abs u < abs (nextDay t) →
       Month u = Month t ∧ Day u = Day t ∧ Weekday u = Weekday t.
Proof.
  intros Hz. unfold nextDay.
  assert (Hd1 : wall_day (AddDate t 0 0 1) = wall_day t + 1).
  { unfold wall_day. rewrite AddDate_one_day. unfold DayNs. dlia. }
  assert (Hl1 : loc (AddDate t 0 0 1) = loc t) by done.
  generalize dependent (AddDate t 0 0 1). intros t1 Hd1 Hl1.
  destruct (Date_midnight (Year t1) (Month t1) (Day t1) (loc t1)) as [Hw Hl].
  rewrite day_of_civil_date, Hd1 in Hw.
  set (t' := Date _ _ _ _ _ _ _ _) in *.
  assert (Hsl : same_loc t t') by (unfold same_loc; congruence).
  pose proof (wall_day_range t) as Hr. pose proof (wall_same_loc t t' Hsl) as Hd.
  split_and!; [done| | |].
  - eapply midnight_aligned; [|done]. unfold hour_zone. by rewrite Hsl.
  - lia.
  - intros u Hu Hb. pose proof (wall_same_loc t u Hu) as Hdu.
    apply same_day. pose proof (wall_day_between u (wall_day t) (wall_day t + 1)). lia.
Qed.

Lemma mod_day_hour w : (w mod DayNs) mod Hour = w mod Hour.
Proof. apply Z.mod_mod_divide. by exists 24. Qed.

(** A date built from the day and the hour of an instant is the start of its hour. *)
Lemma Date_of_hour t l :
  wall (Date (Year t) (Month t) (Day t) (HourOf t) 0 0 0 l) = wall t / Hour * Hour.
Proof.
  rewrite wall_Date. rewrite day_of_civil_date. unfold wall_day, HourOf.
  pose proof (Z.div_mod (wall t) DayNs ltac:(done)).
  pose proof (Z.div_mod (wall t mod DayNs) Hour ltac:(done)).
  pose proof (Z.div_mod (wall t) Hour ltac:(done)).
  rewrite mod_day_hour in *. lia.
Qed.

(** Instants of one hour share its number. *)
Lemma HourOf_same t u : wall u / Hour = wall t / Hour → HourOf u = HourOf t.
Proof.
  intros Hq. unfold HourOf.
  assert (∀ w, w mod DayNs / Hour = (w / Hour) mod 24) as Hw.
  { intros w. apply Z.mod_unique with (w / DayNs).
    - left. unfold DayNs, Hour. dlia.
    - symmetry. apply Z.div_unique with (w mod Hour).
      + left. apply Z.mod_pos_bound. done.
      + rewrite <- mod_day_hour. unfold DayNs, Hour.
        pose proof (Z.div_mod w 86400000000000 ltac:(done)).
        pose proof (Z.div_mod (w mod 86400000000000) 3600000000000 ltac:(done)). lia. }
  by rewrite !Hw, Hq.
Qed.

Lemma wall_hour_up t :
  hour_zone t → wall (Truncate (Add t Hour) Hour) = (wall t / Hour + 1) * Hour.
Proof.
  unfold hour_zone, Truncate, Add, wall. cbn [abs loc]. unfold Hour, Second.
  generalize (abs t) (loc t). intros a l Hz. dlia.
Qed.

Lemma hour_boundary_aligned t : hour_zone t → wall t mod Hour = 0 → aligned t.
Proof.
  intros Hz Hw. apply (hour_zone_wall t (wall t)); [done| |done].
  unfold wall. generalize (loc t * Second). intros z. lia.
Qed.

(** Instants of one hour share their day. *)
Lemma wall_day_same t u : wall u / Hour = wall t / Hour → wall_day u = wall_day t.
Proof.
  intros Hq. unfold wall_day. change DayNs with (Hour * 24).
  by rewrite <- !Z.div_div, Hq by done.
Qed.

(** The next hour boundary. *)
Lemma advanceHour_spec t :
  hour_zone t →
  same_loc t (advanceHour t) ∧ aligned (advanceHour t) ∧ abs t < abs (advanceHour t) ∧
  ∀ u, same_loc t u → abs t <= abs u < abs (advanceHour t) → HourOf u = HourOf t.
Proof.
  intros Hz. unfold advanceHour. set (nx := Truncate (Add t Hour) Hour).
  assert (Hnx : wall nx = (wall t / Hour + 1) * Hour).
  { by apply wall_hour_up. }
  clearbody nx.
  pose proof (Date_of_hour nx (loc t)) as Hw. rewrite Hnx, Z.div_mul in Hw by done.
  set (t' := Date _ _ _ _ _ _ _ _) in *.
  assert (Hsl : same_loc t t') by done. clearbody t'. pose proof (wall_same_loc t t' Hsl) as Hd.
  split_and!; [done| | |].
  - apply (hour_boundary_aligned t').
    + unfold hour_zone. by rewrite Hsl.
    + rewrite Hw. by apply Z.mod_mul.
  - pose proof (Z.mod_pos_bound (wall t) Hour ltac:(done)).
    pose proof (Z.div_mod (wall t) Hour ltac:(done)). lia.
  - intros u Hu Hb. pose proof (wall_same_loc t u Hu) as Hdu. apply HourOf_same.
    pose proof (Z.mod_pos_bound (wall t) Hour ltac:(done)).
    pose proof (Z.div_mod (wall t) Hour ltac:(done)).
    symmetry. apply Z.div_unique with (wall u - wall t / Hour * Hour); lia.
Qed.

(** The next minute boundary. *)
Lemma next_minute_spec t :
  hour_zone t →
  let t' := Truncate (Add t Minute) Minute in
  same_loc t t' ∧ aligned t' ∧ abs t < abs t' ∧
  ∀ u, same_loc t u → abs t <= abs u < abs t' → MinuteOf u = MinuteOf t.
Proof.
  intros Hz t'. unfold t', Truncate, Add, same_loc, aligned. simpl.
  split_and!; [done|unfold Minute; dlia|unfold Minute; dlia|].
  intros u Hu Hb. unfold hour_zone in Hz. unfold MinuteOf, wall. rewrite Hu.
  unfold Minute, Hour, Second in *. dlia.
Qed.

End Moves.

(** ** The search *)
Section Search.
Context (e : Expression).

Lemma matches_month t u : Month u = Month t → has_bit (month e) (Month t) = false → matches e u = false.
Proof. intros Hm Hf. unfold matches. by rewrite Hm, Hf. Qed.

(** Every move of the search skips only instants that do not match. *)
Lemma next_body_skips limit t t' :
  hour_zone t → aligned t → next_body e limit t = inl t' → abs t < abs limit ∧ skips e t t'.
Proof.
  intros Hz Ha. unfold next_body, Before. destruct (Z.ltb_spec (abs t) (abs limit)); [|done].
  destruct (has_bit (month e) (Month t)) eqn:Em; simpl.
  2:{ intros [= <-]. split; [done|].
      destruct (advanceMonth_spec t Hz) as (H1 & H2 & H3 & H4).
      split_and!; eauto using gap_minute. intros u Hu Hb.
      apply (matches_month t u); [by apply H4|done]. }
  destruct (dom_match e t || dow_match e t) eqn:Ed.
  2:{ rewrite <- negb_orb, Ed. simpl. intros [= <-]. split; [done|].
      destruct (nextDay_spec t Hz) as (H1 & H2 & H3 & H4).
      split_and!; eauto using gap_minute. intros u Hu Hb.
      destruct (H4 u Hu Hb) as (_ & HD & HW). unfold matches, dom_match, dow_match in *.
      rewrite HD, HW, Ed. by rewrite andb_false_r. }
  rewrite <- negb_orb, Ed. simpl.
  destruct (has_bit (hour e) (HourOf t)) eqn:Eh; simpl.
  2:{ intros [= <-]. split; [done|].
      destruct (advanceHour_spec t Hz) as (H1 & H2 & H3 & H4).
      split_and!; eauto using gap_minute. intros u Hu Hb.
      unfold matches. rewrite (H4 u Hu Hb), Eh. by rewrite andb_false_r. }
  destruct (has_bit (minute e) (MinuteOf t)) eqn:Emi; simpl; [done|].
  intros [= <-]. split; [done|].
  destruct (next_minute_spec t Hz) as (H1 & H2 & H3 & H4).
  split_and!; eauto using gap_minute. intros u Hu Hb.
  unfold matches. rewrite (H4 u Hu Hb), Emi. by rewrite andb_false_r.
Qed.

(** Leaving the loop: at the limit, or at an instant that matches. *)
Lemma next_body_result limit t r :
  next_body e limit t = inr r →
  (abs limit <= abs t ∧ r = zeroTime) ∨ (abs t < abs limit ∧ r = t ∧ matches e t = true).
Proof.
  unfold next_body, Before. destruct (Z.ltb_spec (abs t) (abs limit)).
  2:{ intros [= <-]. by left. }
  destruct (has_bit (month e) (Month t)) eqn:Em; simpl; [|done].
  rewrite <- negb_orb. destruct (dom_match e t || dow_match e t) eqn:Ed; simpl; [|done].
  destruct (has_bit (hour e) (HourOf t)) eqn:Eh; simpl; [|done].
  destruct (has_bit (minute e) (MinuteOf t)) eqn:Emi; simpl; [|done].
  intros [= <-]. right. unfold matches. by rewrite Em, Ed, Eh, Emi.
Qed.

(** The invariant of the search started at [t0]. *)
Definition search_inv (t0 t : Time) : Prop :=
  same_loc t0 t ∧ aligned t ∧ abs t0 <= abs t ∧
  ∀ u, same_loc t0 u → abs t0 <= abs u < abs t → matches e u = false.

Lemma search_inv_start t0 : aligned t0 → search_inv t0 t0.
Proof. intros Ha. split_and!; [done|done|lia|]. intros. lia. Qed.

Lemma search_inv_step limit t0 t t' :
  hour_zone t0 → search_inv t0 t → next_body e limit t = inl t' →
  search_inv t0 t' ∧ abs t < abs limit ∧ abs t + Minute <= abs t'.
Proof.
  intros Hz (Hl & Ha & Hle & Hm) E.
  assert (Hzt : hour_zone t) by (unfold hour_zone; by rewrite Hl).
  destruct (next_body_skips limit t t' Hzt Ha E) as (Hlt & Hl' & Ha' & Hgap & Hskip).
  unfold same_loc, Minute in *. split_and!; [|lia|lia].
  split_and!; [congruence|done|lia|]. intros u Hu Hb.
  destruct (decide (abs u < abs t)); [apply Hm; [done|lia]|apply Hskip; [congruence|lia]].
Qed.

Lemma next_start_aligned t : aligned (next_start t) ∧ abs t < abs (next_start t) <= abs t + Minute.
Proof. unfold aligned, next_start, Add, Truncate, Minute. simpl. dlia. Qed.

Lemma next_start_least t u : aligned u → abs t < abs u → abs (next_start t) <= abs u.
Proof. unfold aligned, next_start, Add, Truncate, Minute. simpl. intros. dlia. Qed.

Lemma next_limit_window t :
  loc (next_limit t) = loc t ∧ abs (next_limit t) <= abs (next_start t) + 1462 * DayNs.
Proof.
  split; [done|]. unfold next_limit.
  pose proof (AddDate_four_years (next_start t)) as [_ H].
  assert (Hl : same_loc (next_start t) (AddDate (next_start t) 4 0 0)) by done.
  pose proof (wall_same_loc _ _ Hl) as Hd.
  generalize dependent (AddDate (next_start t) 4 0 0). intros l H _ Hd. lia.
Qed.

(** Four years are less than 2^22 minutes: the search leaves its loop. *)
Lemma search_leaves t :
  hour_zone t → ∃ r, loop 22 (next_body e (next_limit t)) (next_start t) = inr r.
Proof.
  intros Hz. destruct (next_start_aligned t) as [Ha _].
  destruct (next_limit_window t) as [_ Hw].
  assert (Hz0 : hour_zone (next_start t)) by exact Hz.
  apply (loop_terminates _ (search_inv (next_start t))
           (λ s, Z.max 0 ((abs (next_limit t) - abs s + Minute) / Minute))).
  - intros s s' Hs E. destruct (search_inv_step _ _ _ _ Hz0 Hs E) as (Hs' & Hlt & Hgap).
    split; [done|]. unfold Minute in *. dlia.
  - intros s Hs. lia.
  - by apply search_inv_start.
  - unfold DayNs, Minute in *. change (2 ^ Z.of_nat 22) with 4194304. dlia.
Qed.

(** [r] is the least minute after [t], before the limit of four years, with [m], or the zero
    time when there is none. *)
Definition least_minute (m : Time → bool) (t r : Time) : Prop :=
  (r = zeroTime ∧
   ∀ u, same_loc t u → aligned u → abs t < abs u < abs (next_limit t) → m u = false) ∨
  (same_loc t r ∧ aligned r ∧ abs t < abs r < abs (next_limit t) ∧ m r = true ∧
   ∀ u, same_loc t u → aligned u → abs t < abs u < abs r → m u = false).

Lemma least_minute_ext m m' t r :
  (∀ u, m u = m' u) → least_minute m t r → least_minute m' t r.
Proof.
  intros Hm [[-> H]|(H1 & H2 & H3 & H4 & H)]; [left|right]; rewrite <- ?Hm.
  - split; [done|]. intros u. rewrite <- Hm. apply H.
  - rewrite Hm in H4. split_and!; try lia; try done; [by rewrite <- Hm in H4|].
    intros u. rewrite <- Hm. apply H.
Qed.

(** What [Next] returns: the least matching minute after [t], or the zero time
    when no minute of the window matches. *)
Lemma Next_result t : hour_zone t → ∃ r, Next e t = Some r ∧ least_minute (matches e) t r.
Proof.
  intros Hz. destruct (search_leaves t Hz) as [r Hr]. exists r. unfold Next. rewrite Hr.
  split; [done|]. assert (Hz0 : hour_zone (next_start t)) by exact Hz.
  destruct (next_start_aligned t) as [Ha Hb].
  pose proof (loop_inv (next_body e (next_limit t)) (search_inv (next_start t)) 22 (next_start t)
    (λ s s' Hs E, proj1 (search_inv_step _ _ _ _ Hz0 Hs E)) (search_inv_start _ Ha)) as Hl.
  rewrite Hr in Hl. destruct Hl as (s & (Hsl & Hsa & Hsb & Hsm) & E).
  apply next_body_result in E as [[Hge ->]|(Hlt & -> & Hmt)].
  - left. split; [done|]. intros u Hu Hua Hub. apply Hsm; [done|].
    pose proof (next_start_least t u Hua ltac:(lia)). lia.
  - right. split_and!; [done|done|lia|lia|done|]. intros u Hu Hua Hub. apply Hsm; [done|].
    pose proof (next_start_least t u Hua ltac:(lia)). lia.
Qed.

(** After the zero instant the two cases are told apart by [IsZero]. *)
Lemma Next_nonzero t r :
  hour_zone t → 0 <= abs t → Next e t = Some r → IsZero r = false →
  same_loc t r ∧ aligned r ∧ abs t < abs r ∧ matches e r = true.
Proof.
  intros Hz Ht Hn Hr. destruct (Next_result t Hz) as (r' & Hn' & Hc).
  rewrite Hn in Hn'. simplify_eq. destruct Hc as [[-> _]|(H1 & H2 & H3 & H4 & _)]; [done|].
  split_and!; [done|done|lia|done].
Qed.

(** In a zone half an hour off, [advanceHour] goes back to the start of the hour
    when the minute is below 30. *)
Lemma advanceHour_half_hour t :
  loc t mod 3600 = 1800 → wall t mod Hour < 30 * Minute →
  same_loc t (advanceHour t) ∧ wall (advanceHour t) = wall t / Hour * Hour.
Proof.
  intros Hz Hm. unfold advanceHour. set (nx := Truncate (Add t Hour) Hour).
  assert (Hnx : wall nx / Hour = wall t / Hour).
  { unfold nx, Truncate, Add. unfold wall in *. cbn [abs loc].
    generalize dependent (abs t). generalize dependent (loc t). clear nx.
    intros l Hz a Hm. unfold Hour, Minute, Second in *. dlia. }
  clearbody nx. split; [done|]. by rewrite Date_of_hour, Hnx.
Qed.

(** The states of a search that never leaves. *)
Definition stuck_inv (limit t0 t : Time) : Prop :=
  same_loc t0 t ∧ wall t / Hour = wall t0 / Hour ∧ wall t mod Hour < 30 * Minute ∧
  abs t < abs limit.

Lemma stuck_step limit t0 t :
  loc t0 mod 3600 = 1800 → has_bit (month e) (Month t0) = true →
  dom_match e t0 || dow_match e t0 = true → has_bit (hour e) (HourOf t0) = false →
  stuck_inv limit t0 t →
  ∃ t', next_body e limit t = inl t' ∧ stuck_inv limit t0 t'.
Proof.
  intros Hz Hm Hd Hh (Hl & Hq & Hmin & Hlim).
  destruct (same_day t t0 (wall_day_same t0 t Hq)) as (HM & HD & HW).
  exists (advanceHour t). split.
  - unfold next_body, Before, dom_match, dow_match in *.
    destruct (Z.ltb_spec (abs t) (abs limit)); [|lia].
    by rewrite HM, HD, HW, (HourOf_same t0 t Hq), Hm, Hh, <- negb_orb, Hd.
  - assert (Hzt : loc t mod 3600 = 1800) by (unfold same_loc in Hl; congruence).
    destruct (advanceHour_half_hour t Hzt Hmin) as [Hl' Hw'].
    generalize dependent (advanceHour t). intros t' Hl' Hw'.
    pose proof (wall_same_loc t t' Hl') as Hd'.
    pose proof (Z.mod_pos_bound (wall t) Hour ltac:(done)).
    pose proof (Z.div_mod (wall t) Hour ltac:(done)).
    split_and!.
    + unfold same_loc in *. congruence.
    + by rewrite Hw', Z.div_mul.
    + rewrite Hw', Z.mod_mul by done. done.
    + lia.
Qed.

End Search.

(** ** The theorems about cron expressions *)
Section Claims.

(** C26. The next activation is the documented one, for expressions whose day fields are
    both [*] or both restricted (not [*]), in a location a whole number of hours from UTC:
    [Next] ends and returns the least minute after [t] that matches the expression as
    index/1_parser.md says, its month, hour and minute fields and its day (every day when
    both day fields are [*], either field when both are restricted), or the zero time when
    no minute before the four-year limit matches.  When only one day field is restricted
    the code does not do what is documented: see [Next_one_day_field]. *)
Theorem Next_least_match expr e t :
  Parse expr = Ok e → day_fields_alike expr = true → hour_zone t →
  ∃ r, Next e t = Some r ∧ least_minute (documented expr e) t r.
Proof.
  intros E Ha Hz. destruct (Next_result e t Hz) as (r & Hr & Hl). exists r. split; [done|].
  eapply least_minute_ext; [|done]. intros u. by apply matches_documented.
Qed.

(** When just one day field is restricted it has no effect: the activation is the least
    minute of any day, where the document has the restricted field decide. *)
Theorem Next_one_day_field expr e t :
  Parse expr = Ok e → day_fields_alike expr = false → hour_zone t →
  ∃ r, Next e t = Some r ∧ least_minute (time_match e) t r.
Proof.
  intros E Ha Hz. destruct (Next_result e t Hz) as (r & Hr & Hl). exists r. split; [done|].
  eapply least_minute_ext; [|done]. intros u. by eapply matches_every_day.
Qed.

(** In a location half an hour off UTC hours (+5:30 for instance), the search
    never leaves its loop when it stands in the first half of an hour the
    expression does not allow: [advanceHour] steps back to the start of that
    same hour, whatever the fuel. *)
Theorem Next_half_hour_diverges e t :
  loc t mod 3600 = 1800 → wall (next_start t) mod Hour < 30 * Minute →
  has_bit (month e) (Month (next_start t)) = true →
  dom_match e (next_start t) || dow_match e (next_start t) = true →
  has_bit (hour e) (HourOf (next_start t)) = false →
  ∀ n, ∃ s, loop n (next_body e (next_limit t)) (next_start t) = inl s.
Proof.
  intros Hz Hmin Hm Hd Hh n.
  destruct (loop_diverges (next_body e (next_limit t)) (stuck_inv (next_limit t) (next_start t))
              n (next_start t)) as (s & Hs & _); [|..].
  - intros s Hs. by apply stuck_step.
  - split_and!; [done|done|done|]. pose proof (AddDate_four_years (next_start t)) as [H _].
    assert (Hl : same_loc (next_start t) (next_limit t)) by done.
    pose proof (wall_same_loc _ _ Hl) as Hw. unfold next_limit in *.
    generalize dependent (AddDate (next_start t) 4 0 0). unfold DayNs. lia.
  - by exists s.
Qed.

(** C39. With an unrestricted day of month the day-of-week field has no effect:
    two expressions that differ only in it have the same next activation, so
    "0 9 * * 1" fires every day and not on Mondays only. *)
Theorem Next_ignores_dow e e' t :
  (∀ d, 1 <= d <= 31 → Z.testbit (dayOfMonth e) d = true) →
  dayOfMonth e' = dayOfMonth e → month e' = month e → hour e' = hour e →
  minute e' = minute e → Next e t = Next e' t.
Proof.
  intros Hall Hd Hm Hh Hmi. unfold Next. erewrite loop_ext; [done|]. intros s.
  unfold next_body, dom_match. rewrite Hd, Hm, Hh, Hmi.
  pose proof (Day_bounds s). by rewrite (has_bit_testbit (dayOfMonth e)), Hall by lia.
Qed.

(** C27. Reading back a printed expression: every expression written from parts
    [*], [v], [a-b] with an optional step, the values within the bounds of its field and the
    step at least 1 and at most 2^63 - 1 less the largest value of the field (above that
    [i += step] wraps around, see [fillRangeStep_wraps]), parses to masks that hold exactly
    the values the parts denote. *)
Theorem Parse_print_roundtrip c :
  syntax_ok c →
  ∃ e, Parse (print_syntax c) = Ok e ∧
    ∀ j, 0 <= j →
      Z.testbit (minute e) j = field_has 0 59 (s_minute c) j ∧
      Z.testbit (hour e) j = field_has 0 23 (s_hour c) j ∧
      Z.testbit (dayOfMonth e) j = field_has 1 31 (s_dom c) j ∧
      Z.testbit (month e) j = field_has 1 12 (s_month c) j ∧
      Z.testbit (dayOfWeek e) j = field_has 0 6 (s_dow c) j.
Proof.
  intros (H0 & H1 & H2 & H3 & H4).
  destruct (parseField_print 0 59 ltac:(lia) ltac:(lia) _ H0) as (m0 & E0 & B0).
  destruct (parseField_print 0 23 ltac:(lia) ltac:(lia) _ H1) as (m1 & E1 & B1).
  destruct (parseField_print 1 31 ltac:(lia) ltac:(lia) _ H2) as (m2 & E2 & B2).
  destruct (parseField_print 1 12 ltac:(lia) ltac:(lia) _ H3) as (m3 & E3 & B3).
  destruct (parseField_print 0 6 ltac:(lia) ltac:(lia) _ H4) as (m4 & E4 & B4).
  exists (mkExpression 0 m0 m1 m2 m3 m4). split; [|by intros j Hj; split_and!; eauto].
  unfold Parse, print_syntax. rewrite Fields_join.
  - by rewrite E0, E1, E2, E3, E4.
  - repeat (constructor; [by eapply print_field_plain; [..|eassumption]; lia|]). constructor.
Qed.

(** What [Parse] accepts is well formed: the seconds mask is 0 and each of the
    five masks has some bit set and none above the maximum of its field. *)
Theorem Parse_well_formed s e : Parse s = Ok e → expr_ok e.
Proof. apply Parse_expr_ok. Qed.

(** C40. For every step from 1 to 2^63 - 1 and every range [0 <= lo <= hi <= 59], all that
    [parsePart] lets through, the loop of [fillRangeStep] ends, sets the bit [lo] and none
    above [hi], although [i += step] may wrap; when it does not wrap, the mask holds exactly
    [lo], [lo+step], ... up to [hi]. *)
Theorem fillRangeStep_correct lo hi step :
  0 <= lo <= hi → hi <= 59 → 1 <= step <= max_int64 →
  (∃ m, loop 7 (fill_body hi step) (lo, 0) = inr m) ∧
  Z.testbit (fillRangeStep lo hi step) lo = true ∧
  mask_ok hi (fillRangeStep lo hi step) ∧
  (hi + step <= max_int64 →
   ∀ j, 0 <= j → Z.testbit (fillRangeStep lo hi step) j =
                 (lo <=? j) && (j <=? hi) && ((j - lo) mod step =? 0)).
Proof.
  intros Hlo Hhi Hst. split_and!.
  - apply fill_loop_leaves; lia.
  - apply fill_mask; lia.
  - apply fill_mask_ok; lia.
  - intros Hov j Hj. apply fill_testbit; lia.
Qed.

(** A step next to the largest [int64] wraps around and sets bits below the
    start of the range: "59/9223372036854775807" is accepted as every odd
    minute, not as minute 59 alone. *)
Theorem fillRangeStep_wraps :
  parseField "59/9223372036854775807" 0 59 = parseField "1-59/2" 0 59 ∧
  parseField "59/9223372036854775807" 0 59 ≠ parseField "59" 0 59.
Proof. split; [lazy; reflexivity|lazy; discriminate]. Qed.

(** [nextBit] returns -1 when no bit of the mask at or above [pos] is set, and
    otherwise the lowest such bit. *)
Theorem nextBit_lowest mask pos :
  0 <= mask < 2 ^ 64 → 0 <= pos < 64 →
  (nextBit mask pos = -1 ∧ ∀ j, pos <= j → Z.testbit mask j = false) ∨
  (pos <= nextBit mask pos < 64 ∧ Z.testbit mask (nextBit mask pos) = true ∧
   ∀ j, pos <= j < nextBit mask pos → Z.testbit mask j = false).
Proof.
  intros Hm Hp. unfold nextBit. rewrite u64_small by lia.
  assert (Hb : ∀ k, 0 <= k → Z.testbit (Z.shiftr mask pos) k = Z.testbit mask (k + pos)).
  { intros k Hk. by rewrite Z.shiftr_spec. }
  destruct (Z.eqb_spec (Z.shiftr mask pos) 0) as [Hz|Hnz].
  - left. split; [done|]. intros j Hj. replace j with (j - pos + pos) by lia.
    rewrite <- Hb, Hz by lia. apply Z.bits_0.
  - right. assert (Hpos : 0 < Z.shiftr mask pos) by (pose proof (Z.shiftr_nonneg mask pos); lia).
    destruct (Z.shiftr mask pos) as [|p|p] eqn:Es; [done| |lia]. simpl.
    destruct (trailing_zeros_spec p) as (H0 & H1 & H2).
    set (k := pos_trailing_zeros p) in *. rewrite Hb in H1 by done.
    rewrite Z.add_comm in H1. split_and!; [lia| |done|].
    + destruct (Z.lt_ge_cases (pos + k) 64); [done|].
      pose proof (u64_small mask Hm) as Hu.
      rewrite <- Hu, u64_testbit_high in H1 by lia. done.
    + intros j Hj. replace j with (j - pos + pos) by lia. rewrite <- Hb by lia. apply H2. lia.
Qed.

End Claims.

(** ** Concrete inputs *)
Section Witnesses.

(** "30 9 * * *", January 1 2024 00:00 in UTC, and 10:05 in India. *)
Definition ex_expr : Expression :=
  mkExpression 0 (2 ^ 30) (2 ^ 9) (2 ^ 32 - 2) (2 ^ 13 - 2) 127.
Definition ex_utc : Time := Date 2024 1 1 0 0 0 0 0.
Definition ex_ist : Time := Date 2024 1 1 10 5 0 0 19800.
Definition ex_syntax : cron_syntax :=
  mkSyntax [mkPart (CVal 5) None; mkPart (CRange 10 40) (Some 15)]
           [mkPart CStar (Some 6)] [mkPart CStar None] [mkPart CStar None]
           [mkPart (CRange 1 5) None].

Example ex_parse : Parse "30 9 * * *" = Ok ex_expr.
Proof. vm_compute. reflexivity. Qed.

Example ex_next : Next ex_expr ex_utc = Some (Date 2024 1 1 9 30 0 0 0).
Proof. vm_compute. reflexivity. Qed.

(** "0 0 31 2 *" is not impossible to the code: it fires on the first of
    February, since the unrestricted day of week always matches. *)
Example ex_impossible :
  (e ← Parse "0 0 31 2 *"; mret (Next e ex_utc)) = Ok (Some (Date 2024 2 1 0 0 0 0 0)).
Proof. vm_compute. reflexivity. Qed.

(** "0 9 1 * 1", the example of the document: 9:00 on the 1st, or on Mondays. *)
Definition ex_either : Expression := mkExpression 0 1 (2 ^ 9) 2 (2 ^ 13 - 2) 2.

Lemma Next_least_match_witness :
  Parse "0 9 1 * 1" = Ok ex_either ∧
  Next ex_either ex_utc = Some (Date 2024 1 1 9 0 0 0 0) ∧
  ∃ r, Next ex_either ex_utc = Some r ∧ least_minute (documented "0 9 1 * 1" ex_either) ex_utc r.
Proof.
  assert (H : Parse "0 9 1 * 1" = Ok ex_either) by (vm_compute; reflexivity).
  split; [exact H|]. split; [vm_compute; reflexivity|].
  apply (Next_least_match "0 9 1 * 1" ex_either ex_utc H); vm_compute; reflexivity.
Defined.

(** "0 0 31 2 *", which the document calls impossible, and "0 0 1 * *", midnight of every
    first: both fire on any day. *)
Example ex_one_day_field :
  day_fields_alike "0 0 31 2 *" = false ∧ day_fields_alike "0 0 1 * *" = false ∧
  (e ← Parse "0 0 1 * *"; mret (Next e ex_utc)) = Ok (Some (Date 2024 1 2 0 0 0 0 0)).
Proof. split_and!; vm_compute; reflexivity. Qed.

Lemma Next_one_day_field_witness :
  Parse "30 9 * * 1" = Ok (mkExpression 0 (2 ^ 30) (2 ^ 9) (2 ^ 32 - 2) (2 ^ 13 - 2) 2) ∧
  ∃ r, Next (mkExpression 0 (2 ^ 30) (2 ^ 9) (2 ^ 32 - 2) (2 ^ 13 - 2) 2) ex_utc = Some r ∧
    least_minute (time_match (mkExpression 0 (2 ^ 30) (2 ^ 9) (2 ^ 32 - 2) (2 ^ 13 - 2) 2)) ex_utc r.
Proof.
  set (e := mkExpression 0 (2 ^ 30) (2 ^ 9) (2 ^ 32 - 2) (2 ^ 13 - 2) 2).
  assert (H : Parse "30 9 * * 1" = Ok e) by (vm_compute; reflexivity). split; [exact H|].
  apply (Next_one_day_field "30 9 * * 1" e ex_utc H); vm_compute; reflexivity.
Defined.

Lemma Next_half_hour_diverges_witness :
  HourOf ex_ist = 10 ∧
  ∀ n, ∃ s, loop n (next_body ex_expr (next_limit ex_ist)) (next_start ex_ist) = inl s.
Proof.
  split; [vm_compute; reflexivity|].
  apply (Next_half_hour_diverges ex_expr ex_ist); vm_compute; reflexivity.
Defined.

Lemma Next_ignores_dow_witness :
  Next ex_expr ex_utc =
  Next (mkExpression 0 (minute ex_expr) (hour ex_expr) (dayOfMonth ex_expr)
          (month ex_expr) 2) ex_utc.
Proof.
  apply (Next_ignores_dow ex_expr); try reflexivity.
  intros d Hd. apply (forallb_seqZ (Z.testbit (dayOfMonth ex_expr)) 1 31); [reflexivity|lia].
Defined.

Lemma Parse_print_roundtrip_witness :
  syntax_ok ex_syntax ∧ print_syntax ex_syntax = "5,10-40/15 */6 * * 1-5" ∧
  ∃ e, Parse (print_syntax ex_syntax) = Ok e ∧
    ∀ j, 0 <= j →
      Z.testbit (minute e) j = field_has 0 59 (s_minute ex_syntax) j ∧
      Z.testbit (hour e) j = field_has 0 23 (s_hour ex_syntax) j ∧
      Z.testbit (dayOfMonth e) j = field_has 1 31 (s_dom ex_syntax) j ∧
      Z.testbit (month e) j = field_has 1 12 (s_month ex_syntax) j ∧
      Z.testbit (dayOfWeek e) j = field_has 0 6 (s_dow ex_syntax) j.
Proof.
  assert (Hok : syntax_ok ex_syntax).
  { unfold syntax_ok, field_ok. simpl.
    split_and!; try done;
      repeat (apply List.Forall_cons; [unfold part_ok, step_of, max_int64; simpl; lia|]);
      apply List.Forall_nil. }
  split; [done|]. split; [reflexivity|]. apply (Parse_print_roundtrip ex_syntax Hok).
Defined.

Lemma Parse_well_formed_witness : Parse "30 9 * * *" = Ok ex_expr ∧ expr_ok ex_expr.
Proof.
  assert (H : Parse "30 9 * * *" = Ok ex_expr) by exact ex_parse.
  split; [exact H|]. apply (Parse_well_formed "30 9 * * *"). exact H.
Defined.

Lemma fillRangeStep_correct_witness :
  (∃ m, loop 7 (fill_body 59 15) (0, 0) = inr m) ∧
  Z.testbit (fillRangeStep 0 59 15) 0 = true ∧
  mask_ok 59 (fillRangeStep 0 59 15) ∧
  (59 + 15 <= max_int64 →
   ∀ j, 0 <= j → Z.testbit (fillRangeStep 0 59 15) j =
                 (0 <=? j) && (j <=? 59) && ((j - 0) mod 15 =? 0)).
Proof. apply (fillRangeStep_correct 0 59 15); unfold max_int64; lia. Defined.

Lemma nextBit_lowest_witness :
  nextBit 40 4 = 5 ∧
  ((nextBit 40 4 = -1 ∧ ∀ j, 4 <= j → Z.testbit 40 j = false) ∨
   (4 <= nextBit 40 4 < 64 ∧ Z.testbit 40 (nextBit 40 4) = true ∧
    ∀ j, 4 <= j < nextBit 40 4 → Z.testbit 40 j = false)).
Proof. split; [reflexivity|]. apply (nextBit_lowest 40 4); lia. Defined.

End Witnesses.
