(* ===== verification/Gob.v ===== *)
(** * encoding/gob, as a class of stream codecs

    The program writes values one after the other to a buffer with a gob
    encoder and reads them back in the same order.  [Gob A] states what it
    relies on: decoding the front of a stream that starts with an encoded value
    gives that value and leaves the rest, and an encoding is never empty.  The
    models of the persister and of the store's snapshots are parametric in the
    codec; the instances below, a plain tag-and-length format, make them
    executable. *)
From Stdlib Require Import ZArith Lia Ascii String.
From Stdlib Require Import Init.Byte.
From stdpp Require Import base tactics list strings numbers option.
From S2P Require Import Prelude.

Local Open Scope Z_scope.

Abbreviation bytes := (list Byte.byte).

Class Gob (A : Type) := {
  gob_encode : A → bytes;
  gob_decode : bytes → option (A * bytes);
  gob_decode_encode : ∀ x rest, gob_decode (gob_encode x ++ rest) = Some (x, rest);
  gob_encode_nonempty : ∀ x, gob_encode x ≠ []
}.

(** ** Integers: bits from the least significant one, then an end mark *)
Fixpoint pos_encode (p : positive) : bytes :=
  match p with
  | xH => [x02]
  | xO p' => x00 :: pos_encode p'
  | xI p' => x01 :: pos_encode p'
  end.
Fixpoint pos_decode (bs : bytes) : option (positive * bytes) :=
  match bs with
  | x02 :: r => Some (xH, r)
  | x00 :: r => '(p, r') ← pos_decode r; Some (xO p, r')
  | x01 :: r => '(p, r') ← pos_decode r; Some (xI p, r')
  | _ => None
  end.

Definition Z_encode (z : Z) : bytes :=
  match z with
  | Z0 => [x00]
  | Zpos p => x01 :: pos_encode p
  | Zneg p => x02 :: pos_encode p
  end.
Definition Z_decode (bs : bytes) : option (Z * bytes) :=
  match bs with
  | x00 :: r => Some (0, r)
  | x01 :: r => '(p, r') ← pos_decode r; Some (Zpos p, r')
  | x02 :: r => '(p, r') ← pos_decode r; Some (Zneg p, r')
  | _ => None
  end.

Lemma pos_decode_encode p rest : pos_decode (pos_encode p ++ rest) = Some (p, rest).
Proof. induction p as [p IH|p IH|]; simpl; [by rewrite IH..|done]. Qed.

#[export] Instance Gob_Z : Gob Z.
Proof.
  refine {| gob_encode := Z_encode; gob_decode := Z_decode |}.
  - intros [|p|p] rest; simpl; [done|by rewrite pos_decode_encode..].
  - by intros [].
Defined.

(** ** Bytes, pairs, options, lists *)
#[export] Instance Gob_byte : Gob Byte.byte.
Proof.
  refine {| gob_encode b := [b];
            gob_decode bs := match bs with b :: r => Some (b, r) | [] => None end |}.
  - done.
  - done.
Defined.

Section Combinators.
Context {A B : Type} {GA : Gob A} {GB : Gob B}.

#[export] Instance Gob_prod : Gob (A * B).
Proof using GA GB.
  refine {| gob_encode '(a, b) := gob_encode a ++ gob_encode b;
            gob_decode bs := '(a, r) ← gob_decode bs; '(b, r') ← gob_decode r; Some ((a, b), r') |}.
  - intros [a b] rest. rewrite <- app_assoc, gob_decode_encode. simpl.
    by rewrite gob_decode_encode.
  - intros [a b] H. apply app_eq_nil in H as [H _]. by apply gob_encode_nonempty in H.
Defined.

#[export] Instance Gob_option : Gob (option A).
Proof using GA.
  refine {| gob_encode o := match o with None => [x00] | Some a => x01 :: gob_encode a end;
            gob_decode bs := match bs with
                             | x00 :: r => Some (None, r)
                             | x01 :: r => '(a, r') ← gob_decode r; Some (Some a, r')
                             | _ => None
                             end |}.
  - intros [a|] rest; simpl; [|done]. by rewrite gob_decode_encode.
  - by intros [a|].
Defined.

Fixpoint decode_many (n : nat) (bs : bytes) : option (list A * bytes) :=
  match n with
  | O => Some ([], bs)
  | S n' => '(a, r) ← gob_decode bs; '(l, r') ← decode_many n' r; Some (a :: l, r')
  end.

Lemma decode_many_encode l rest :
  decode_many (length l) (mjoin (map gob_encode l) ++ rest) = Some (l, rest).
Proof using Type.
  induction l as [|a l IH]; simpl; [done|].
  rewrite <- app_assoc, gob_decode_encode. simpl. by rewrite IH.
Qed.

#[export] Instance Gob_list : Gob (list A).
Proof using GA.
  refine {| gob_encode l := gob_encode (Z.of_nat (length l)) ++ mjoin (map gob_encode l);
            gob_decode bs := '(n, r) ← gob_decode bs; decode_many (Z.to_nat n) r |}.
  - intros l rest. rewrite <- app_assoc, gob_decode_encode. simpl.
    by rewrite Nat2Z.id, decode_many_encode.
  - intros l H. apply app_eq_nil in H as [H _]. by apply gob_encode_nonempty in H.
Defined.

(** A type that embeds into one with a codec has a codec. *)
Definition Gob_via (f : A → B) (g : B → A) (Hgf : ∀ a, g (f a) = a) : Gob A.
Proof using GB.
  refine {| gob_encode a := gob_encode (f a);
            gob_decode bs := '(b, r) ← gob_decode bs; Some (g b, r) |}.
  - intros a rest. rewrite gob_decode_encode. simpl. by rewrite Hgf.
  - intros a. apply gob_encode_nonempty.
Defined.

End Combinators.

#[export] Instance Gob_string : Gob string.
Proof.
  refine (Gob_via list_byte_of_string string_of_list_byte _).
  apply string_of_list_byte_of_string.
Defined.
