(* ===== verification/Persister.v ===== *)
(** * internal/raft/persister.go: the persisted Raft state and snapshot

    [clone] copies a slice, so the persister never shares memory with its
    callers and byte lists model it; a nil slice reads back as an empty one.
    Its mutex makes each operation atomic. *)
From stdpp Require Import base tactics list numbers option.
From Stdlib Require Import ZArith Lia.
From S2P Require Import Prelude.
From S2P Require Import Gob.

Local Open Scope Z_scope.

Record Persister := mkPersister { raftstate : bytes; snapshot : bytes }.

Definition MakePersister : Persister := mkPersister [] [].

(** [copy(make([]byte, len(orig)), orig)] *)
Definition clone (orig : bytes) : bytes := take (length orig) orig.

Definition Copy (ps : Persister) : Persister := mkPersister (raftstate ps) (snapshot ps).
Definition ReadRaftState (ps : Persister) : bytes := clone (raftstate ps).
Definition RaftStateSize (ps : Persister) : Z := zlen (raftstate ps).
Definition Save (rs snap : bytes) (ps : Persister) : Persister :=
  mkPersister (clone rs) (clone snap).
Definition ReadSnapshot (ps : Persister) : bytes := clone (snapshot ps).
Definition SnapshotSize (ps : Persister) : Z := zlen (snapshot ps).

Lemma clone_id b : clone b = b.
Proof. unfold clone. by rewrite firstn_all. Qed.

Lemma ReadRaftState_Save rs snap ps : ReadRaftState (Save rs snap ps) = rs.
Proof. unfold ReadRaftState, Save. simpl. by rewrite !clone_id. Qed.

Lemma ReadSnapshot_Save rs snap ps : ReadSnapshot (Save rs snap ps) = snap.
Proof. unfold ReadSnapshot, Save. simpl. by rewrite !clone_id. Qed.

#[export] Hint Rewrite clone_id ReadRaftState_Save ReadSnapshot_Save : go.
