(* ===== verification/RaftNode.v ===== *)
(** * internal/raft: one Raft peer

    The state of a peer ([Raft]), the RPC messages and every operation of
    internal/raft/raft.go, as functions on that state.  Each function is the
    code one goroutine runs while it holds [rf.mu]; where the code releases the
    lock (around an RPC or a channel send) the operation is split in two, and
    Cluster.v puts the pieces together as goroutines.

    - A Go panic (index out of range) is [None]; RaftLog.v proves that none
      happens in a well-formed state.
    - [time.Now()] is the argument [now], in nanoseconds.
    - [rf.state] holds one of three literals, the constructors of [role].
    - Indices and terms are [Z]: no counter gets near [2^63].
    - [rf.applyCh] and the network are not part of the state: messages to send
      are results. *)
From stdpp Require Import base tactics list strings numbers option.
From Stdlib Require Import ZArith Lia.
From S2P Require Import Prelude.
From S2P Require Import Gob.
From S2P Require Import Persister.

Local Open Scope Z_scope.

(** ** Data *)
Inductive role := Follower | Candidate | Leader.

#[export] Instance role_eq_dec : EqDecision role.
Proof. solve_decision. Defined.

(** An address; the RPC itself is a step of the cluster. *)
Record Peer := NewPeer { addr : string }.

(** [Command] is [None] for a nil interface. *)
Record LogEntry (Command : Type) := mkEntry { le_Term : Z; le_Command : option Command }.
Arguments mkEntry {Command}. Arguments le_Term {Command}. Arguments le_Command {Command}.

#[export] Instance Gob_LogEntry {Command} `{Gob Command} : Gob (LogEntry Command).
Proof.
  refine (Gob_via (λ e, (le_Term e, le_Command e)) (λ p, mkEntry (fst p) (snd p)) _).
  by intros [].
Defined.

Record ApplyMsg (Command : Type) := mkApplyMsg {
  am_CommandValid : bool;
  am_Command : option Command;
  am_CommandIndex : Z;
  am_SnapshotValid : bool;
  am_Snapshot : bytes;
  am_SnapshotTerm : Z;
  am_SnapshotIndex : Z
}.
Arguments mkApplyMsg {Command}. Arguments am_CommandValid {Command}.
Arguments am_Command {Command}. Arguments am_CommandIndex {Command}.
Arguments am_SnapshotValid {Command}. Arguments am_Snapshot {Command}.
Arguments am_SnapshotTerm {Command}. Arguments am_SnapshotIndex {Command}.

Record RequestVoteArgs := mkRVArgs {
  rva_Term : Z; rva_CandidateId : Z; rva_LastLogIndex : Z; rva_LastLogTerm : Z
}.
Record RequestVoteReply := mkRVReply { rvr_Term : Z; rvr_VoteGranted : bool }.

Record AppendEntriesArgs (Command : Type) := mkAEArgs {
  aea_Term : Z; aea_LeaderId : Z; aea_PrevLogIndex : Z; aea_PrevLogTerm : Z;
  aea_Entries : list (LogEntry Command); aea_LeaderCommit : Z
}.
Arguments mkAEArgs {Command}. Arguments aea_Term {Command}. Arguments aea_LeaderId {Command}.
Arguments aea_PrevLogIndex {Command}. Arguments aea_PrevLogTerm {Command}.
Arguments aea_Entries {Command}. Arguments aea_LeaderCommit {Command}.

Record AppendEntriesReply := mkAEReply {
  aer_Term : Z; aer_Success : bool; aer_ConflictTerm : Z; aer_ConflictIndex : Z
}.

Record InstallSnapshotArgs := mkISArgs {
  isa_Term : Z; isa_LeaderId : Z; isa_LastIncludedIndex : Z; isa_LastIncludedTerm : Z;
  isa_Data : bytes
}.
Record InstallSnapshotReply := mkISReply { isr_Term : Z }.

Record Raft (Command : Type) := mkRaft {
  peers : list Peer;
  persister : Persister;
  me : nat;
  dead : bool;
  currentTerm : Z;
  votedFor : Z;
  log : list (LogEntry Command);
  lastIncludedIndex : Z;
  lastIncludedTerm : Z;
  commitIndex : Z;
  lastApplied : Z;
  nextIndex : list Z;
  matchIndex : list Z;
  state : role;
  lastHeartbeat : Z;
  pendingSnapshot : option (ApplyMsg Command)
}.
Arguments peers {Command}. Arguments persister {Command}. Arguments me {Command}.
Arguments dead {Command}. Arguments currentTerm {Command}. Arguments votedFor {Command}.
Arguments log {Command}. Arguments lastIncludedIndex {Command}.
Arguments lastIncludedTerm {Command}. Arguments commitIndex {Command}.
Arguments lastApplied {Command}. Arguments nextIndex {Command}.
Arguments matchIndex {Command}. Arguments state {Command}.
Arguments lastHeartbeat {Command}. Arguments pendingSnapshot {Command}.

(** ** Field assignments *)
Definition set_persister {Command} (x : Persister) (rf : Raft Command) : Raft Command :=
  mkRaft Command
    (peers rf) x (me rf) (dead rf) (currentTerm rf) (votedFor rf) (log rf)
    (lastIncludedIndex rf) (lastIncludedTerm rf) (commitIndex rf) (lastApplied rf)
    (nextIndex rf) (matchIndex rf) (state rf) (lastHeartbeat rf) (pendingSnapshot rf).
Definition set_dead {Command} (x : bool) (rf : Raft Command) : Raft Command :=
  mkRaft Command
    (peers rf) (persister rf) (me rf) x (currentTerm rf) (votedFor rf) (log rf)
    (lastIncludedIndex rf) (lastIncludedTerm rf) (commitIndex rf) (lastApplied rf)
    (nextIndex rf) (matchIndex rf) (state rf) (lastHeartbeat rf) (pendingSnapshot rf).
Definition set_currentTerm {Command} (x : Z) (rf : Raft Command) : Raft Command :=
  mkRaft Command
    (peers rf) (persister rf) (me rf) (dead rf) x (votedFor rf) (log rf)
    (lastIncludedIndex rf) (lastIncludedTerm rf) (commitIndex rf) (lastApplied rf)
    (nextIndex rf) (matchIndex rf) (state rf) (lastHeartbeat rf) (pendingSnapshot rf).
Definition set_votedFor {Command} (x : Z) (rf : Raft Command) : Raft Command :=
  mkRaft Command
    (peers rf) (persister rf) (me rf) (dead rf) (currentTerm rf) x (log rf)
    (lastIncludedIndex rf) (lastIncludedTerm rf) (commitIndex rf) (lastApplied rf)
    (nextIndex rf) (matchIndex rf) (state rf) (lastHeartbeat rf) (pendingSnapshot rf).
Definition set_log {Command} (x : list (LogEntry Command)) (rf : Raft Command) : Raft Command :=
  mkRaft Command
    (peers rf) (persister rf) (me rf) (dead rf) (currentTerm rf) (votedFor rf) x
    (lastIncludedIndex rf) (lastIncludedTerm rf) (commitIndex rf) (lastApplied rf)
    (nextIndex rf) (matchIndex rf) (state rf) (lastHeartbeat rf) (pendingSnapshot rf).
Definition set_lastIncludedIndex {Command} (x : Z) (rf : Raft Command) : Raft Command :=
  mkRaft Command
    (peers rf) (persister rf) (me rf) (dead rf) (currentTerm rf) (votedFor rf) (log
    rf) x (lastIncludedTerm rf) (commitIndex rf) (lastApplied rf) (nextIndex rf)
    (matchIndex rf) (state rf) (lastHeartbeat rf) (pendingSnapshot rf).
Definition set_lastIncludedTerm {Command} (x : Z) (rf : Raft Command) : Raft Command :=
  mkRaft Command
    (peers rf) (persister rf) (me rf) (dead rf) (currentTerm rf) (votedFor rf) (log
    rf) (lastIncludedIndex rf) x (commitIndex rf) (lastApplied rf) (nextIndex rf)
    (matchIndex rf) (state rf) (lastHeartbeat rf) (pendingSnapshot rf).
Definition set_commitIndex {Command} (x : Z) (rf : Raft Command) : Raft Command :=
  mkRaft Command
    (peers rf) (persister rf) (me rf) (dead rf) (currentTerm rf) (votedFor rf) (log
    rf) (lastIncludedIndex rf) (lastIncludedTerm rf) x (lastApplied rf) (nextIndex rf)
    (matchIndex rf) (state rf) (lastHeartbeat rf) (pendingSnapshot rf).
Definition set_lastApplied {Command} (x : Z) (rf : Raft Command) : Raft Command :=
  mkRaft Command
    (peers rf) (persister rf) (me rf) (dead rf) (currentTerm rf) (votedFor rf) (log
    rf) (lastIncludedIndex rf) (lastIncludedTerm rf) (commitIndex rf) x (nextIndex rf)
    (matchIndex rf) (state rf) (lastHeartbeat rf) (pendingSnapshot rf).
Definition set_nextIndex {Command} (x : list Z) (rf : Raft Command) : Raft Command :=
  mkRaft Command
    (peers rf) (persister rf) (me rf) (dead rf) (currentTerm rf) (votedFor rf) (log
    rf) (lastIncludedIndex rf) (lastIncludedTerm rf) (commitIndex rf) (lastApplied rf)
    x (matchIndex rf) (state rf) (lastHeartbeat rf) (pendingSnapshot rf).
Definition set_matchIndex {Command} (x : list Z) (rf : Raft Command) : Raft Command :=
  mkRaft Command
    (peers rf) (persister rf) (me rf) (dead rf) (currentTerm rf) (votedFor rf) (log
    rf) (lastIncludedIndex rf) (lastIncludedTerm rf) (commitIndex rf) (lastApplied rf)
    (nextIndex rf) x (state rf) (lastHeartbeat rf) (pendingSnapshot rf).
Definition set_state {Command} (x : role) (rf : Raft Command) : Raft Command :=
  mkRaft Command
    (peers rf) (persister rf) (me rf) (dead rf) (currentTerm rf) (votedFor rf) (log
    rf) (lastIncludedIndex rf) (lastIncludedTerm rf) (commitIndex rf) (lastApplied rf)
    (nextIndex rf) (matchIndex rf) x (lastHeartbeat rf) (pendingSnapshot rf).
Definition set_lastHeartbeat {Command} (x : Z) (rf : Raft Command) : Raft Command :=
  mkRaft Command
    (peers rf) (persister rf) (me rf) (dead rf) (currentTerm rf) (votedFor rf) (log
    rf) (lastIncludedIndex rf) (lastIncludedTerm rf) (commitIndex rf) (lastApplied rf)
    (nextIndex rf) (matchIndex rf) (state rf) x (pendingSnapshot rf).
Definition set_pendingSnapshot {Command} (x : option (ApplyMsg Command)) (rf : Raft Command) : Raft Command :=
  mkRaft Command
    (peers rf) (persister rf) (me rf) (dead rf) (currentTerm rf) (votedFor rf) (log
    rf) (lastIncludedIndex rf) (lastIncludedTerm rf) (commitIndex rf) (lastApplied rf)
    (nextIndex rf) (matchIndex rf) (state rf) (lastHeartbeat rf) x.

(** ** Operations *)
Section Operations.
Context {Command : Type}.
Context {gobZ : Gob Z} {gobLog : Gob (list (LogEntry Command))}.
Implicit Types (rf : Raft Command).

(** *** Snapshot index helpers *)
Definition logIndex rf (absoluteIndex : Z) : Z := absoluteIndex - lastIncludedIndex rf.
Definition lastLogIndex rf : Z := lastIncludedIndex rf + zlen (log rf) - 1.
Definition logTerm rf (absoluteIndex : Z) : option Z :=
  if absoluteIndex =? lastIncludedIndex rf then Some (lastIncludedTerm rf)
  else le_Term <$> idx (log rf) (logIndex rf absoluteIndex).

(** *** Persistence *)
Definition persistWithSnapshot rf (snap : bytes) : Raft Command :=
  let w := gob_encode (currentTerm rf) ++ gob_encode (votedFor rf) ++ gob_encode (log rf) ++
           gob_encode (lastIncludedIndex rf) ++ gob_encode (lastIncludedTerm rf) in
  set_persister (Save w snap (persister rf)) rf.

Definition persist rf : Raft Command := persistWithSnapshot rf (ReadSnapshot (persister rf)).

Definition decodeState (data : bytes) : option (Z * Z * list (LogEntry Command) * Z * Z) :=
  '(currentTerm, d) ← gob_decode data;
  '(votedFor, d) ← gob_decode d;
  '(log, d) ← gob_decode d;
  '(lastIncludedIndex, d) ← gob_decode d;
  '(lastIncludedTerm, d) ← gob_decode d;
  Some (currentTerm, votedFor, log, lastIncludedIndex, lastIncludedTerm).

Definition readPersist rf (data : bytes) : Raft Command :=
  if zlen data <? 1 then rf
  else match decodeState data with
  | None => rf
  | Some (ct, vf, lg, lii, lit) =>
      set_lastIncludedTerm lit (set_lastIncludedIndex lii
        (set_log lg (set_votedFor vf (set_currentTerm ct rf))))
  end.

(** A new peer; the two goroutines it starts are steps of the cluster. *)
Definition Make (ps : list Peer) (me : nat) (persister : Persister) (now : Z) : Raft Command :=
  let rf := mkRaft Command ps persister me false 0 (-1) [mkEntry 0 None] 0 0 0 0 [] []
              Follower now None in
  let rf := readPersist rf (ReadRaftState persister) in
  let rf := set_lastApplied (lastIncludedIndex rf) rf in
  set_commitIndex (lastIncludedIndex rf) rf.

(** *** Queries, [Kill], [Start], [Snapshot] *)
Definition GetState rf : Z * bool := (currentTerm rf, bool_decide (state rf = Leader)).
Definition Kill rf : Raft Command := set_dead true rf.
Definition killed rf : bool := dead rf.

(** When the third result is true the caller also starts [sendHeartbeats] in a
    new goroutine. *)
Definition Start rf (command : option Command) : (Z * Z * bool) * Raft Command :=
  if decide (state rf = Leader) then
    let rf := set_log (log rf ++ [mkEntry (currentTerm rf) command]) rf in
    ((lastLogIndex rf, currentTerm rf, true), persist rf)
  else ((-1, currentTerm rf, false), rf).

Definition Snapshot rf (index : Z) (snap : bytes) : option (Raft Command) :=
  if index <=? lastIncludedIndex rf then Some rf else
  newLastIncludedTerm ← logTerm rf index;
  lg ← slice_from (log rf) (logIndex rf index);
  lg ← match lg with
       | [] => None
       | e :: r => Some (mkEntry (le_Term e) None :: r)
       end;
  Some (persistWithSnapshot
    (set_lastIncludedTerm newLastIncludedTerm (set_lastIncludedIndex index (set_log lg rf))) snap).

(** *** Elections *)
Definition RequestVote rf (args : RequestVoteArgs) (now : Z)
  : option (Raft Command * RequestVoteReply) :=
  let replyTerm := currentTerm rf in
  if rva_Term args <? currentTerm rf then Some (rf, mkRVReply replyTerm false) else
  let rf := if rva_Term args >? currentTerm rf
            then persist (set_votedFor (-1) (set_state Follower
                            (set_currentTerm (rva_Term args) rf)))
            else rf in
  if negb (votedFor rf =? -1) && negb (votedFor rf =? rva_CandidateId args)
  then Some (rf, mkRVReply replyTerm false) else
  let lastIndex := lastLogIndex rf in
  lastTerm ← logTerm rf lastIndex;
  let logOk := (rva_LastLogTerm args >? lastTerm) ||
               ((rva_LastLogTerm args =? lastTerm) && (rva_LastLogIndex args >=? lastIndex)) in
  if negb logOk then Some (rf, mkRVReply replyTerm false) else
  let rf := persist (set_votedFor (rva_CandidateId args) rf) in
  Some (set_lastHeartbeat now rf, mkRVReply replyTerm true).

(** The indices [range rf.peers] visits, without [rf.me]. *)
Definition otherPeers rf : list nat :=
  List.filter (λ i, negb (i =? me rf)%nat) (List.seq 0 (length (peers rf))).

(** The new state, the term of the election, and for each other peer the
    arguments of the RequestVote goroutine; the counter [votes] starts at 1. *)
Definition startElection rf
  : option (Raft Command * Z * list (nat * RequestVoteArgs)) :=
  let rf := set_state Candidate rf in
  let rf := set_currentTerm (currentTerm rf + 1) rf in
  let rf := persist (set_votedFor (Z.of_nat (me rf)) rf) in
  let term := currentTerm rf in
  calls ← mapM (λ i,
      let lastIdx := lastLogIndex rf in
      lastTerm ← logTerm rf lastIdx;
      Some (i, mkRVArgs term (Z.of_nat (me rf)) lastIdx lastTerm)) (otherPeers rf);
  Some (rf, term, calls).

(** One turn of [electionTimeoutLoop] after its sleep. *)
Definition electionTimeout rf (now sleepDuration : Z)
  : option (Raft Command * option (Z * list (nat * RequestVoteArgs))) :=
  if bool_decide (state rf ≠ Leader) && (now - lastHeartbeat rf >=? sleepDuration) then
    '(rf, term, calls) ← startElection rf; Some (rf, Some (term, calls))
  else Some (rf, None).

(** The goroutine [heartbeatLoop] it starts is a step of the cluster. *)
Definition becomeLeader rf : Raft Command :=
  let rf := set_state Leader rf in
  let n := length (peers rf) in
  set_matchIndex (replicate n 0) (set_nextIndex (replicate n (lastLogIndex rf + 1)) rf).

Definition majority rf : Z := zlen (peers rf) / 2 + 1.

(** A candidate's goroutine after its RequestVote call returned [reply]: the
    new state, the new vote count, and whether the peer became leader. *)
Definition handleVoteReply rf (term votes : Z) (reply : RequestVoteReply)
  : Raft Command * Z * bool :=
  if negb (currentTerm rf =? term) || bool_decide (state rf ≠ Candidate) then (rf, votes, false)
  else if rvr_Term reply >? currentTerm rf then
    (persist (set_votedFor (-1) (set_state Follower (set_currentTerm (rvr_Term reply) rf))),
     votes, false)
  else if rvr_VoteGranted reply then
    let votes := votes + 1 in
    if votes >=? majority rf then (becomeLeader rf, votes, true) else (rf, votes, false)
  else (rf, votes, false).

(** *** Log replication: the follower *)

(** The walk back to the first index of the conflicting term. *)
Fixpoint walkBack rf (conflictTerm : Z) (fuel : nat) (ci : Z) : option Z :=
  match fuel with
  | O => Some ci
  | S f =>
      if ci >? lastIncludedIndex rf + 1 then
        t ← logTerm rf (ci - 1);
        if t =? conflictTerm then walkBack rf conflictTerm f (ci - 1) else Some ci
      else Some ci
  end.

(** The loop over [args.Entries]: [idx] is the index of the first remaining
    entry.  The result is the new log. *)
Fixpoint appendEntriesLoop rf (i : Z) (entries : list (LogEntry Command))
  : option (list (LogEntry Command)) :=
  match entries with
  | [] => Some (log rf)
  | entry :: rest =>
      if i <? lastLogIndex rf + 1 then
        t ← logTerm rf i;
        if negb (t =? le_Term entry) then
          kept ← slice_to (log rf) (logIndex rf i);
          Some (kept ++ entries)
        else appendEntriesLoop rf (i + 1) rest
      else Some (log rf ++ entries)
  end.

Definition AppendEntries rf (args : AppendEntriesArgs Command) (now : Z)
  : option (Raft Command * AppendEntriesReply) :=
  if aea_Term args <? currentTerm rf
  then Some (rf, mkAEReply (currentTerm rf) false (-1) 0) else
  let rf := persist (set_currentTerm (aea_Term args)
                       (set_state Follower (set_lastHeartbeat now rf))) in
  let replyTerm := currentTerm rf in
  if aea_PrevLogIndex args <? lastIncludedIndex rf
  then Some (rf, mkAEReply replyTerm false (-1) (lastIncludedIndex rf + 1)) else
  if aea_PrevLogIndex args >? lastLogIndex rf
  then Some (rf, mkAEReply replyTerm false (-1) (lastLogIndex rf + 1)) else
  prevTerm ← logTerm rf (aea_PrevLogIndex args);
  if negb (prevTerm =? aea_PrevLogTerm args) then
    ci ← walkBack rf prevTerm (Z.to_nat (aea_PrevLogIndex args - lastIncludedIndex rf))
           (aea_PrevLogIndex args);
    Some (rf, mkAEReply replyTerm false prevTerm ci)
  else
  lg ← appendEntriesLoop rf (aea_PrevLogIndex args + 1) (aea_Entries args);
  let rf := persist (set_log lg rf) in
  let rf :=
    if aea_LeaderCommit args >? commitIndex rf then
      let lastNewIndex := aea_PrevLogIndex args + zlen (aea_Entries args) in
      if aea_LeaderCommit args <? lastNewIndex then set_commitIndex (aea_LeaderCommit args) rf
      else set_commitIndex lastNewIndex rf
    else rf in
  Some (rf, mkAEReply replyTerm true (-1) 0).

(** *** Log replication: the leader *)

(** What [sendHeartbeats] reads under the lock, and the peers it spawns a
    goroutine for. *)
Definition sendHeartbeats rf : Z * Z * Z * list nat :=
  (currentTerm rf, Z.of_nat (me rf), commitIndex rf, otherPeers rf).

Definition sendSnapshotArgs rf : InstallSnapshotArgs :=
  mkISArgs (currentTerm rf) (Z.of_nat (me rf)) (lastIncludedIndex rf) (lastIncludedTerm rf)
    (ReadSnapshot (persister rf)).

Inductive heartbeat_action :=
| HBStop
| HBSnapshot (args : InstallSnapshotArgs)
| HBAppend (args : AppendEntriesArgs Command).

(** A goroutine of [sendHeartbeats] up to its RPC; [term], [leaderId] and
    [commit] were read by [sendHeartbeats]. *)
Definition heartbeatBegin rf (peer : nat) (term leaderId commit : Z)
  : option heartbeat_action :=
  if decide (state rf = Leader) then
    ni ← nextIndex rf !! peer;
    if ni <=? lastIncludedIndex rf then Some (HBSnapshot (sendSnapshotArgs rf)) else
    let prevLogIndex := ni - 1 in
    prevLogTerm ← logTerm rf prevLogIndex;
    entries ← slice_from (log rf) (logIndex rf ni);
    Some (HBAppend (mkAEArgs term leaderId prevLogIndex prevLogTerm entries commit))
  else Some HBStop.

(** [rf.matchIndex[i] >= n] counted over [range rf.peers] without [rf.me]. *)
Fixpoint countMatches rf (n : Z) (ps : list nat) (count : Z) : option Z :=
  match ps with
  | [] => Some count
  | i :: ps' =>
      m ← matchIndex rf !! i;
      countMatches rf n ps' (if m >=? n then count + 1 else count)
  end.

(** The loop of [maybeAdvanceCommitIndex] from [n] on; [k] turns remain. *)
Fixpoint advanceLoop rf (n : Z) (k : nat) : option (Raft Command) :=
  match k with
  | O => Some rf
  | S k' =>
      t ← logTerm rf n;
      if negb (t =? currentTerm rf) then advanceLoop rf (n + 1) k' else
      count ← countMatches rf n (otherPeers rf) 1;
      advanceLoop (if count >=? majority rf then set_commitIndex n rf else rf) (n + 1) k'
  end.

Definition maybeAdvanceCommitIndex rf : option (Raft Command) :=
  advanceLoop rf (commitIndex rf + 1) (Z.to_nat (lastLogIndex rf - commitIndex rf)).

(** The backwards search for the conflicting term: [k] indices above
    [lastIncludedIndex] remain; -1 when the term is not in the log. *)
Fixpoint searchTerm rf (conflictTerm : Z) (k : nat) : option Z :=
  match k with
  | O => Some (-1)
  | S k' =>
      let j := lastIncludedIndex rf + Z.of_nat k in
      t ← logTerm rf j;
      if t =? conflictTerm then Some (j + 1) else searchTerm rf conflictTerm k'
  end.

(** [rf.nextIndex[peer]] after a rejected AppendEntries. *)
Definition backUp rf (reply : AppendEntriesReply) : option Z :=
  ni ← (if aer_ConflictTerm reply =? -1 then Some (aer_ConflictIndex reply) else
        newIndex ← searchTerm rf (aer_ConflictTerm reply)
                     (Z.to_nat (lastLogIndex rf - lastIncludedIndex rf));
        Some (if newIndex =? -1 then aer_ConflictIndex reply else newIndex));
  Some (if ni <? 1 then 1 else ni).

(** A goroutine of [sendHeartbeats] after its AppendEntries call returned. *)
Definition handleAppendReply rf (peer : nat) (args : AppendEntriesArgs Command)
  (reply : AppendEntriesReply) : option (Raft Command) :=
  if bool_decide (state rf ≠ Leader) || negb (currentTerm rf =? aea_Term args) then Some rf else
  let rf := if aer_Term reply >? currentTerm rf
            then persist (set_votedFor (-1) (set_state Follower
                            (set_currentTerm (aer_Term reply) rf)))
            else rf in
  if aer_Success reply then
    let newMatch := aea_PrevLogIndex args + zlen (aea_Entries args) in
    m ← matchIndex rf !! peer;
    let m := if newMatch >? m then newMatch else m in
    ni ← idx_set (nextIndex rf) (Z.of_nat peer) (m + 1);
    maybeAdvanceCommitIndex (set_nextIndex ni (set_matchIndex (<[peer := m]> (matchIndex rf)) rf))
  else
    newNext ← backUp rf reply;
    ni ← idx_set (nextIndex rf) (Z.of_nat peer) newNext;
    Some (set_nextIndex ni rf).

(** *** Snapshots *)
Definition snapshotMsg (args : InstallSnapshotArgs) : ApplyMsg Command :=
  mkApplyMsg false None 0 true (isa_Data args) (isa_LastIncludedTerm args)
    (isa_LastIncludedIndex args).

Definition InstallSnapshot rf (args : InstallSnapshotArgs) (now : Z)
  : option (Raft Command * InstallSnapshotReply) :=
  let reply := mkISReply (currentTerm rf) in
  if isa_Term args <? currentTerm rf then Some (rf, reply) else
  let rf := if isa_Term args >? currentTerm rf
            then set_votedFor (-1) (set_currentTerm (isa_Term args) rf) else rf in
  let rf := set_lastHeartbeat now (set_state Follower rf) in
  if isa_LastIncludedIndex args <=? lastIncludedIndex rf then Some (rf, reply) else
  lg ← (if isa_LastIncludedIndex args <=? lastLogIndex rf
        then slice_from (log rf) (logIndex rf (isa_LastIncludedIndex args))
        else Some [mkEntry (isa_LastIncludedTerm args) None]);
  let rf := set_lastIncludedTerm (isa_LastIncludedTerm args)
              (set_lastIncludedIndex (isa_LastIncludedIndex args) (set_log lg rf)) in
  let rf := if commitIndex rf <? isa_LastIncludedIndex args
            then set_commitIndex (isa_LastIncludedIndex args) rf else rf in
  let rf := if lastApplied rf <? isa_LastIncludedIndex args
            then set_lastApplied (isa_LastIncludedIndex args) rf else rf in
  let rf := persistWithSnapshot rf (isa_Data args) in
  Some (set_pendingSnapshot (Some (snapshotMsg args)) rf, reply).

(** [sendSnapshot] after its InstallSnapshot call returned. *)
Definition handleSnapshotReply rf (peer : nat) (args : InstallSnapshotArgs)
  (reply : InstallSnapshotReply) : option (Raft Command) :=
  if bool_decide (state rf ≠ Leader) || negb (currentTerm rf =? isa_Term args) then Some rf else
  if isr_Term reply >? currentTerm rf then
    Some (persist (set_votedFor (-1) (set_state Follower (set_currentTerm (isr_Term reply) rf))))
  else
    m ← matchIndex rf !! peer;
    let m := if isa_LastIncludedIndex args >? m then isa_LastIncludedIndex args else m in
    ni ← idx_set (nextIndex rf) (Z.of_nat peer) (m + 1);
    Some (set_nextIndex ni (set_matchIndex (<[peer := m]> (matchIndex rf)) rf)).

(** *** The apply loop *)

(** The inner loop of [applyLoop] up to its next message ([Some msg], the lock
    is released while it is sent) or its end ([None]). *)
Fixpoint applyInner rf (fuel : nat) : option (option (ApplyMsg Command) * Raft Command) :=
  match fuel with
  | O => Some (None, rf)
  | S f =>
      if lastApplied rf <? commitIndex rf then
        let rf := set_lastApplied (lastApplied rf + 1) rf in
        if lastApplied rf <=? lastIncludedIndex rf
        then applyInner (set_lastApplied (lastIncludedIndex rf) rf) f
        else
          e ← idx (log rf) (logIndex rf (lastApplied rf));
          Some (Some (mkApplyMsg true (le_Command e) (lastApplied rf) false [] 0 0), rf)
      else Some (None, rf)
  end.
Definition applyFuel rf : nat := S (Z.to_nat (commitIndex rf - lastApplied rf)).

(** Where the goroutine of [applyLoop] resumes after a message was sent: at the
    top of the outer loop, or inside the inner one. *)
Inductive apply_pc := ApplyTop | ApplyInner.

(** One critical section of [applyLoop]: the message it ends by sending, if any,
    and where it resumes. *)
Definition applyLoop_step rf (pc : apply_pc)
  : option (option (ApplyMsg Command) * Raft Command * apply_pc) :=
  match pc, pendingSnapshot rf with
  | ApplyTop, Some msg => Some (Some msg, set_pendingSnapshot None rf, ApplyTop)
  | _, _ =>
      '(msg, rf) ← applyInner rf (applyFuel rf);
      Some (msg, rf, match msg with Some _ => ApplyInner | None => ApplyTop end)
  end.

End Operations.
