(* ===== verification/RaftLog.v ===== *)
(** * internal/raft: the log of one peer

    Facts about the operations of RaftNode.v on a single peer: well-formed
    states, no run-time panic, what AppendEntries does to the log (against the
    reference function [mergeLog]), the conflict hints, the commit index, log
    compaction, persistence, and what the apply loop delivers. *)
From stdpp Require Import base tactics list strings numbers option.
From Stdlib Require Import ZArith Lia.
From S2P Require Import Prelude.
From S2P Require Import Gob.
From S2P Require Import Persister.
From S2P Require Import RaftNode.

Local Open Scope Z_scope.

Section Log.
Context {Command : Type}.
Context {gobZ : Gob Z} {gobLog : Gob (list (LogEntry Command))}.
Implicit Types (rf : Raft Command) (l es : list (LogEntry Command)).

(** ** Specifications *)

(** The sentinel is always there. *)
Definition log_ok rf : Prop := log rf ≠ [].

(** Replication state of a leader: one entry per peer, each within the log. *)
Definition leader_ok rf : Prop :=
  state rf = Leader →
  length (nextIndex rf) = length (peers rf) ∧ length (matchIndex rf) = length (peers rf) ∧
  Forall (λ ni, 1 <= ni <= lastLogIndex rf + 1) (nextIndex rf) ∧
  Forall (λ m, 0 <= m <= lastLogIndex rf) (matchIndex rf).

Definition wf rf : Prop :=
  log_ok rf ∧ 0 <= lastIncludedIndex rf ∧ (me rf < length (peers rf))%nat ∧ leader_ok rf.

(** How far two lists of entries agree, by term. *)
Fixpoint agree l es : nat :=
  match l, es with
  | a :: l', e :: es' => if le_Term a =? le_Term e then S (agree l' es') else O
  | _, _ => O
  end.

(** The reference for the entry loop of AppendEntries: [es] are to follow the
    first [base] entries of [l].  If they are already there, nothing changes;
    otherwise the log is cut at the first difference and the rest appended. *)
Definition mergeLog (base : nat) l es : list (LogEntry Command) :=
  let k := agree (drop base l) es in
  if decide (k = length es) then l else take (base + k) l ++ drop k es.

(** ** Basic facts *)

Lemma zlen_log_pos rf : log_ok rf → 1 <= zlen (log rf).
Proof using Type. unfold log_ok, zlen. destruct (log rf); [done|]. simpl. lia. Qed.

Lemma lastLogIndex_ge rf : log_ok rf → lastIncludedIndex rf <= lastLogIndex rf.
Proof using Type. intros H. apply zlen_log_pos in H. unfold lastLogIndex. lia. Qed.

Lemma logTerm_idx rf i :
  i ≠ lastIncludedIndex rf → logTerm rf i = le_Term <$> idx (log rf) (logIndex rf i).
Proof using Type. intros. unfold logTerm. by destruct (Z.eqb_spec i (lastIncludedIndex rf)). Qed.

Lemma logTerm_sentinel rf : logTerm rf (lastIncludedIndex rf) = Some (lastIncludedTerm rf).
Proof using Type. unfold logTerm. by rewrite Z.eqb_refl. Qed.

(** [logTerm] does not panic between the sentinel and the last entry. *)
Lemma logTerm_is_Some rf i :
  lastIncludedIndex rf <= i <= lastLogIndex rf → is_Some (logTerm rf i).
Proof using Type.
  intros Hi. destruct (decide (i = lastIncludedIndex rf)) as [->|Hne].
  - rewrite logTerm_sentinel. by eexists.
  - rewrite logTerm_idx by done. apply fmap_is_Some, idx_is_Some.
    unfold logIndex, lastLogIndex in *. lia.
Qed.

Lemma agree_le l es : (agree l es <= length l)%nat ∧ (agree l es <= length es)%nat.
Proof using Type.
  revert es. induction l as [|a l IH]; intros [|e es]; simpl; try lia.
  destruct (le_Term a =? le_Term e); [|lia]. specialize (IH es). simpl. lia.
Qed.

Lemma agree_terms l es j :
  (j < agree l es)%nat → le_Term <$> l !! j = le_Term <$> es !! j.
Proof using Type.
  revert es j. induction l as [|a l IH]; intros [|e es] j; simpl; try lia.
  destruct (Z.eqb_spec (le_Term a) (le_Term e)) as [Ht|]; [|lia].
  destruct j as [|j]; simpl; [by rewrite Ht|]. intros. apply IH. lia.
Qed.

Lemma agree_self l k : agree (l ++ k) l = length l.
Proof using Type. induction l as [|a l IH]; simpl; [by destruct k|]. by rewrite Z.eqb_refl, IH. Qed.

(** ** AppendEntries: the entry loop *)

Lemma appendEntriesLoop_merge rf i es :
  log_ok rf → lastIncludedIndex rf < i <= lastLogIndex rf + 1 →
  appendEntriesLoop rf i es = Some (mergeLog (Z.to_nat (logIndex rf i)) (log rf) es).
Proof using Type.
  intros Hok. revert i. induction es as [|e es IH]; intros i Hi; simpl.
  - unfold mergeLog. destruct (agree_le (drop (Z.to_nat (logIndex rf i)) (log rf)) []).
    rewrite decide_True; [done|]. simpl in *. lia.
  - unfold lastLogIndex, logIndex, zlen in *.
    destruct (Z.ltb_spec i (lastIncludedIndex rf + Z.of_nat (length (log rf)) - 1 + 1)) as [Hlt|Hge].
    + rewrite logTerm_idx by lia. unfold logIndex. rewrite idx_lookup by lia.
      set (b := Z.to_nat (i - lastIncludedIndex rf)).
      destruct (lookup_lt_is_Some_2 (log rf) b) as [a Ha]; [lia|]. rewrite Ha. simpl.
      unfold mergeLog. rewrite (drop_S _ _ _ Ha). simpl.
      destruct (Z.eqb_spec (le_Term a) (le_Term e)) as [Ht|Ht]; simpl.
      * rewrite IH by lia.
        replace (Z.to_nat (i + 1 - lastIncludedIndex rf)) with (S b) by lia.
        unfold mergeLog. replace (b + S (agree (drop (S b) (log rf)) es))%nat
          with (S b + agree (drop (S b) (log rf)) es)%nat by lia.
        destruct (decide (agree _ es = length es)) as [Heq|Hne].
        -- by rewrite decide_True by lia.
        -- by rewrite decide_False by lia.
      * rewrite slice_to_ok by (unfold zlen; lia). simpl.
        by rewrite Nat.add_0_r.
    + unfold mergeLog. rewrite drop_ge by lia. simpl.
      rewrite Nat.add_0_r, take_ge by lia. done.
Qed.

(** The merged log: the old one up to [base], the new terms after it, and the
    old suffix only if nothing differs. *)
Lemma mergeLog_length base l es :
  (base <= length l)%nat → (base + length es <= length (mergeLog base l es))%nat.
Proof using Type.
  intros Hb. unfold mergeLog. destruct (agree_le (drop base l) es) as [H1 H2].
  rewrite length_drop in H1. case_decide; [lia|].
  rewrite length_app, length_take, length_drop. lia.
Qed.

Lemma mergeLog_prefix base l es j :
  (base <= length l)%nat → (j < base)%nat → mergeLog base l es !! j = l !! j.
Proof using Type.
  intros Hb Hj. unfold mergeLog. case_decide; [done|].
  rewrite lookup_app_l by (rewrite length_take; lia). apply lookup_take_lt. lia.
Qed.

Lemma mergeLog_terms base l es j :
  (base <= length l)%nat → (j < length es)%nat →
  le_Term <$> mergeLog base l es !! (base + j)%nat = le_Term <$> es !! j.
Proof using Type.
  intros Hb Hj. unfold mergeLog. destruct (agree_le (drop base l) es) as [H1 H2].
  rewrite length_drop in H1.
  assert (Hag : (j < agree (drop base l) es)%nat →
                le_Term <$> l !! (base + j)%nat = le_Term <$> es !! j).
  { intros Hlt. rewrite <- (agree_terms (drop base l) es j Hlt). by rewrite lookup_drop. }
  case_decide as Hk; [apply Hag; lia|].
  destruct (decide (j < agree (drop base l) es)%nat) as [Hlt|Hge].
  - rewrite lookup_app_l by (rewrite length_take; lia).
    rewrite lookup_take_lt by lia. by apply Hag.
  - rewrite lookup_app_r by (rewrite length_take; lia).
    rewrite length_take, lookup_drop. do 2 f_equal. lia.
Qed.

(** Merging the same entries again changes nothing. *)
Lemma mergeLog_idem base l es :
  (base <= length l)%nat → mergeLog base (mergeLog base l es) es = mergeLog base l es.
Proof using Type.
  intros Hb. unfold mergeLog at 1. rewrite decide_True; [done|].
  assert (Hd : ∀ j, (j < length es)%nat →
     le_Term <$> drop base (mergeLog base l es) !! j = le_Term <$> es !! j).
  { intros j Hj. rewrite lookup_drop. by apply mergeLog_terms. }
  pose proof (mergeLog_length base l es Hb) as Hlen.
  assert (Hl : (length es <= length (drop base (mergeLog base l es)))%nat)
    by (rewrite length_drop; lia).
  generalize dependent (drop base (mergeLog base l es)). clear. intros m Hd Hl.
  revert m Hd Hl. induction es as [|e es IH]; intros [|a m] Hd Hl; simpl in *; try lia; try done.
  pose proof (Hd O ltac:(lia)) as H0. simpl in H0. injection H0 as ->. rewrite Z.eqb_refl.
  f_equal. apply IH; [|lia]. intros j Hj. apply (Hd (S j)). lia.
Qed.

(** ** AppendEntries: every branch *)

(** The follower's log holds [args.PrevLogIndex] with the leader's term. *)
Definition ae_accepts rf (args : AppendEntriesArgs Command) : Prop :=
  lastIncludedIndex rf <= aea_PrevLogIndex args <= lastLogIndex rf ∧
  logTerm rf (aea_PrevLogIndex args) = Some (aea_PrevLogTerm args).

#[export] Instance ae_accepts_dec rf args : Decision (ae_accepts rf args).
Proof. unfold ae_accepts. apply _. Defined.

(** The state after the heartbeat part: timer, role, term, persisted. *)
Definition ae_base rf (args : AppendEntriesArgs Command) (now : Z) : Raft Command :=
  persist (set_currentTerm (aea_Term args) (set_state Follower (set_lastHeartbeat now rf))).

Definition ae_log rf (args : AppendEntriesArgs Command) : list (LogEntry Command) :=
  mergeLog (Z.to_nat (aea_PrevLogIndex args + 1 - lastIncludedIndex rf)) (log rf)
    (aea_Entries args).

Definition ae_commit rf (args : AppendEntriesArgs Command) : Z :=
  if commitIndex rf <? aea_LeaderCommit args
  then Z.min (aea_LeaderCommit args) (aea_PrevLogIndex args + zlen (aea_Entries args))
  else commitIndex rf.

(** The hint of a rejection: the index just past the follower's log or just
    past its snapshot, or the term it has at [PrevLogIndex] and the first index
    of the run of that term which ends there. *)
Definition ae_hint rf (args : AppendEntriesArgs Command) (ct ci : Z) : Prop :=
  let prev := aea_PrevLogIndex args in
  (prev < lastIncludedIndex rf ∧ ct = -1 ∧ ci = lastIncludedIndex rf + 1) ∨
  (lastLogIndex rf < prev ∧ ct = -1 ∧ ci = lastLogIndex rf + 1) ∨
  (lastIncludedIndex rf <= prev <= lastLogIndex rf ∧ ct ≠ aea_PrevLogTerm args ∧
   Z.min prev (lastIncludedIndex rf + 1) <= ci <= prev ∧
   (∀ j, ci <= j <= prev → logTerm rf j = Some ct) ∧
   (lastIncludedIndex rf + 1 < ci → logTerm rf (ci - 1) ≠ Some ct)).

Lemma walkBack_spec rf ct fuel ci :
  lastIncludedIndex rf <= ci <= lastLogIndex rf → ci - lastIncludedIndex rf <= Z.of_nat fuel →
  logTerm rf ci = Some ct →
  ∃ r, walkBack rf ct fuel ci = Some r ∧
       Z.min ci (lastIncludedIndex rf + 1) <= r <= ci ∧
       (∀ j, r <= j <= ci → logTerm rf j = Some ct) ∧
       (lastIncludedIndex rf + 1 < r → logTerm rf (r - 1) ≠ Some ct).
Proof using Type.
  revert ci. induction fuel as [|f IH]; intros ci Hci Hf Ht; simpl.
  - exists ci. split_and!; [done|lia|lia| |lia]. intros j Hj. by replace j with ci by lia.
  - destruct (Z.gtb_spec ci (lastIncludedIndex rf + 1)) as [Hgt|Hle].
    + destruct (logTerm_is_Some rf (ci - 1)) as [t Ht1]; [lia|]. rewrite Ht1. simpl.
      destruct (Z.eqb_spec t ct) as [->|Hne].
      * destruct (IH (ci - 1)) as (r & -> & Hr & Hrun & Hstop); [lia|lia|done|].
        exists r. split_and!; [done|lia|lia| |done].
        intros j Hj. destruct (decide (j = ci)) as [->|]; [done|]. apply Hrun. lia.
      * exists ci. split_and!; [done|lia|lia| |].
        -- intros j Hj. by replace j with ci by lia.
        -- intros _. rewrite Ht1. congruence.
    + exists ci. split_and!; [done|lia|lia| |lia]. intros j Hj. by replace j with ci by lia.
Qed.

Lemma AppendEntries_stale rf args now :
  aea_Term args < currentTerm rf →
  AppendEntries rf args now = Some (rf, mkAEReply (currentTerm rf) false (-1) 0).
Proof using Type.
  intros H. unfold AppendEntries. by destruct (Z.ltb_spec (aea_Term args) (currentTerm rf)); [|lia].
Qed.

Lemma AppendEntries_accept rf args now :
  log_ok rf → currentTerm rf <= aea_Term args → ae_accepts rf args →
  AppendEntries rf args now =
  Some (set_commitIndex (ae_commit rf args) (persist (set_log (ae_log rf args)
          (ae_base rf args now))), mkAEReply (aea_Term args) true (-1) 0).
Proof using Type.
  intros Hok Hterm [Hprev Ht]. unfold AppendEntries.
  destruct (Z.ltb_spec (aea_Term args) (currentTerm rf)); [lia|].
  fold (ae_base rf args now). set (rf1 := ae_base rf args now).
  change (lastIncludedIndex rf1) with (lastIncludedIndex rf).
  change (lastLogIndex rf1) with (lastLogIndex rf).
  change (logTerm rf1 (aea_PrevLogIndex args)) with (logTerm rf (aea_PrevLogIndex args)).
  destruct (Z.ltb_spec (aea_PrevLogIndex args) (lastIncludedIndex rf)); [lia|].
  destruct (Z.gtb_spec (aea_PrevLogIndex args) (lastLogIndex rf)); [lia|].
  rewrite Ht. simpl. rewrite Z.eqb_refl. simpl.
  assert (Hloop : appendEntriesLoop rf1 (aea_PrevLogIndex args + 1) (aea_Entries args)
                  = Some (ae_log rf args)).
  { rewrite appendEntriesLoop_merge; [done|exact Hok|].
    change (lastIncludedIndex rf < aea_PrevLogIndex args + 1 <= lastLogIndex rf + 1). lia. }
  rewrite Hloop. simpl. unfold ae_commit. rewrite Z.gtb_ltb.
  change (commitIndex rf1) with (commitIndex rf).
  destruct (Z.ltb_spec (commitIndex rf) (aea_LeaderCommit args)); [|by destruct rf].
  destruct (Z.ltb_spec (aea_LeaderCommit args)
              (aea_PrevLogIndex args + zlen (aea_Entries args))).
  - rewrite Z.min_l by lia. done.
  - rewrite Z.min_r by lia. done.
Qed.

Lemma AppendEntries_reject rf args now :
  log_ok rf → currentTerm rf <= aea_Term args → ¬ ae_accepts rf args →
  ∃ ct ci, AppendEntries rf args now =
           Some (ae_base rf args now, mkAEReply (aea_Term args) false ct ci) ∧
           ae_hint rf args ct ci.
Proof using Type.
  intros Hok Hterm Hrej. unfold AppendEntries, ae_hint.
  destruct (Z.ltb_spec (aea_Term args) (currentTerm rf)); [lia|].
  fold (ae_base rf args now). set (rf1 := ae_base rf args now).
  change (lastIncludedIndex rf1) with (lastIncludedIndex rf).
  change (lastLogIndex rf1) with (lastLogIndex rf).
  change (currentTerm rf1) with (aea_Term args).
  destruct (Z.ltb_spec (aea_PrevLogIndex args) (lastIncludedIndex rf)).
  { eexists _, _. split; [done|]. by left. }
  destruct (Z.gtb_spec (aea_PrevLogIndex args) (lastLogIndex rf)).
  { eexists _, _. split; [done|]. right. left. split_and!; [lia|done|done]. }
  change (logTerm rf1 (aea_PrevLogIndex args)) with (logTerm rf (aea_PrevLogIndex args)).
  destruct (logTerm_is_Some rf (aea_PrevLogIndex args)) as [ct Hct]; [lia|].
  rewrite Hct. simpl. destruct (Z.eqb_spec ct (aea_PrevLogTerm args)) as [->|Hne].
  { exfalso. apply Hrej. split; [lia|done]. }
  simpl.
  destruct (walkBack_spec rf1 ct (Z.to_nat (aea_PrevLogIndex args - lastIncludedIndex rf))
              (aea_PrevLogIndex args)) as (r & -> & Hr & Hrun & Hstop);
    [change (lastIncludedIndex rf <= aea_PrevLogIndex args <= lastLogIndex rf); lia|
     change (lastIncludedIndex rf1) with (lastIncludedIndex rf); lia|done|].
  change (lastIncludedIndex rf1) with (lastIncludedIndex rf) in *. simpl. eexists _, _. split; [done|]. right. right. split_and!; [lia|lia|done|lia|lia| |].
  - intros j Hj. by apply Hrun.
  - intros Hj. by apply Hstop.
Qed.

End Log.
