(* ===== verification/RaftOps.v ===== *)
(** * internal/raft: votes, commit index, compaction, persistence, apply loop

    The remaining facts about a single peer, and the theorems of the component
    (the operations are in RaftNode.v, the log lemmas in RaftLog.v). *)
From stdpp Require Import base tactics list strings numbers option sets.
From Stdlib Require Import ZArith Lia.
From S2P Require Import Prelude.
From S2P Require Import Gob.
From S2P Require Import Persister.
From S2P Require Import RaftNode.
From S2P Require Import RaftLog.

Local Open Scope Z_scope.

Section Ops.
Context {Command : Type}.
Context {gobZ : Gob Z} {gobLog : Gob (list (LogEntry Command))}.
Implicit Types (rf : Raft Command) (l es : list (LogEntry Command)).

(** ** Specifications *)

(** The candidate's log is at least as up to date as the peer's. *)
Definition up_to_date rf (args : RequestVoteArgs) : Prop :=
  ∃ lt, logTerm rf (lastLogIndex rf) = Some lt ∧
        (lt < rva_LastLogTerm args ∨
         lt = rva_LastLogTerm args ∧ lastLogIndex rf <= rva_LastLogIndex args).

Definition rv_grants rf (args : RequestVoteArgs) : Prop :=
  currentTerm rf <= rva_Term args ∧
  (currentTerm rf < rva_Term args ∨ votedFor rf = -1 ∨ votedFor rf = rva_CandidateId args) ∧
  up_to_date rf args.

(** The persisted bytes are those of the state in memory. *)
Definition encodeState rf : bytes :=
  gob_encode (currentTerm rf) ++ gob_encode (votedFor rf) ++ gob_encode (log rf) ++
  gob_encode (lastIncludedIndex rf) ++ gob_encode (lastIncludedTerm rf).
Definition durable rf : Prop := ReadRaftState (persister rf) = encodeState rf.

(** A new peer has not persisted anything yet. *)
Definition fresh rf : Prop :=
  ReadRaftState (persister rf) = [] ∧ currentTerm rf = 0 ∧ votedFor rf = -1 ∧
  log rf = [mkEntry 0 None] ∧ lastIncludedIndex rf = 0 ∧ lastIncludedTerm rf = 0.

(** A restart of the peer would give back the state in memory. *)
Definition recoverable rf : Prop := durable rf ∨ fresh rf.

(** Index [n] may be committed: an entry of the current term on a majority. *)
Definition replicas rf (n : Z) : list nat :=
  List.filter (λ i, match matchIndex rf !! i with Some m => n <=? m | None => false end)
    (otherPeers rf).
Definition committable rf (n : Z) : Prop :=
  logTerm rf n = Some (currentTerm rf) ∧ majority rf <= 1 + zlen (replicas rf n).

(** The apply loop is between the snapshot and the commit index. *)
Definition apply_ok rf : Prop :=
  log_ok rf ∧ lastIncludedIndex rf <= lastApplied rf <= commitIndex rf ∧
  commitIndex rf <= lastLogIndex rf.

(** The message of the committed entry at absolute index [i]. *)
Definition entryMsg rf (i : Z) : option (ApplyMsg Command) :=
  e ← idx (log rf) (logIndex rf i); Some (mkApplyMsg true (le_Command e) i false [] 0 0).

(** The messages the apply loop sends when nothing else takes the lock. *)
Fixpoint drain (fuel : nat) rf (pc : apply_pc) : option (list (ApplyMsg Command) * Raft Command) :=
  match fuel with
  | O => None
  | S f =>
      '(m, rf', pc') ← applyLoop_step rf pc;
      match m with
      | None => Some ([], rf')
      | Some m => '(ms, rf'') ← drain f rf' pc'; Some (m :: ms, rf'')
      end
  end.

(** ** Persistence *)

Lemma decodeState_encode rf :
  decodeState (encodeState rf) =
  Some (currentTerm rf, votedFor rf, log rf, lastIncludedIndex rf, lastIncludedTerm rf).
Proof using Type.
  unfold encodeState, decodeState.
  rewrite gob_decode_encode. cbn. rewrite gob_decode_encode. cbn.
  rewrite gob_decode_encode. cbn. rewrite gob_decode_encode. cbn.
  rewrite <- (app_nil_r (gob_encode (lastIncludedTerm rf))). by rewrite gob_decode_encode.
Qed.

Lemma encodeState_nonempty rf : 1 <= zlen (encodeState rf).
Proof using Type.
  unfold encodeState, zlen. rewrite length_app.
  destruct (gob_encode (currentTerm rf)) eqn:E; [by apply gob_encode_nonempty in E|].
  simpl. lia.
Qed.

Lemma durable_persistWithSnapshot rf snap : durable (persistWithSnapshot rf snap).
Proof using Type.
  unfold durable, persistWithSnapshot. cbn [persister set_persister].
  by rewrite ReadRaftState_Save.
Qed.

Lemma durable_persist rf : durable (persist rf).
Proof using Type. apply durable_persistWithSnapshot. Qed.

(** Fields outside the persisted ones do not matter. *)
Lemma durable_ext rf rf' :
  persister rf' = persister rf → currentTerm rf' = currentTerm rf → votedFor rf' = votedFor rf →
  log rf' = log rf → lastIncludedIndex rf' = lastIncludedIndex rf →
  lastIncludedTerm rf' = lastIncludedTerm rf → durable rf → durable rf'.
Proof using Type. unfold durable, encodeState. by intros -> -> -> -> -> ->. Qed.

Lemma fresh_ext rf rf' :
  persister rf' = persister rf → currentTerm rf' = currentTerm rf → votedFor rf' = votedFor rf →
  log rf' = log rf → lastIncludedIndex rf' = lastIncludedIndex rf →
  lastIncludedTerm rf' = lastIncludedTerm rf → fresh rf → fresh rf'.
Proof using Type. unfold fresh. by intros -> -> -> -> -> ->. Qed.

Lemma recoverable_ext rf rf' :
  persister rf' = persister rf → currentTerm rf' = currentTerm rf → votedFor rf' = votedFor rf →
  log rf' = log rf → lastIncludedIndex rf' = lastIncludedIndex rf →
  lastIncludedTerm rf' = lastIncludedTerm rf → recoverable rf → recoverable rf'.
Proof using Type.
  intros ? ? ? ? ? ? [?|?]; [left; by eapply durable_ext|right; by eapply fresh_ext].
Qed.

Lemma persist_snapshot rf : ReadSnapshot (persister (persist rf)) = ReadSnapshot (persister rf).
Proof using Type. unfold persist, persistWithSnapshot. simpl. by rewrite ReadSnapshot_Save. Qed.

(** A restart restores a recoverable peer; the snapshot index is its new commit
    and applied index. *)
Lemma Make_recoverable rf now :
  recoverable rf →
  Make (peers rf) (me rf) (persister rf) now =
  mkRaft Command (peers rf) (persister rf) (me rf) false (currentTerm rf) (votedFor rf) (log rf)
    (lastIncludedIndex rf) (lastIncludedTerm rf) (lastIncludedIndex rf) (lastIncludedIndex rf)
    [] [] Follower now None.
Proof using Type.
  intros [Hd|(Hr & Hct & Hvf & Hlog & Hli & Hlt)]; unfold Make, readPersist.
  - rewrite Hd. pose proof (encodeState_nonempty rf).
    destruct (Z.ltb_spec (zlen (encodeState rf)) 1); [lia|].
    rewrite decodeState_encode. done.
  - rewrite Hr. simpl. by rewrite Hct, Hvf, Hlog, Hli, Hlt.
Qed.

(** ** Votes *)

(** The demotion step of RequestVote. *)
Definition rv_demote rf (args : RequestVoteArgs) : Raft Command :=
  if rva_Term args >? currentTerm rf
  then persist (set_votedFor (-1) (set_state Follower (set_currentTerm (rva_Term args) rf)))
  else rf.

Lemma rv_demote_spec rf args :
  currentTerm rf <= rva_Term args →
  let rf1 := rv_demote rf args in
  currentTerm rf1 = Z.max (currentTerm rf) (rva_Term args) ∧
  votedFor rf1 = (if currentTerm rf <? rva_Term args then -1 else votedFor rf) ∧
  state rf1 = (if currentTerm rf <? rva_Term args then Follower else state rf) ∧
  log rf1 = log rf ∧ lastIncludedIndex rf1 = lastIncludedIndex rf ∧
  commitIndex rf1 = commitIndex rf ∧ lastLogIndex rf1 = lastLogIndex rf ∧
  logTerm rf1 (lastLogIndex rf) = logTerm rf (lastLogIndex rf) ∧
  (rf1 = rf ∨ durable rf1).
Proof using Type.
  intros Hle. unfold rv_demote. rewrite Z.gtb_ltb.
  destruct (Z.ltb_spec (currentTerm rf) (rva_Term args)); cbn zeta.
  - simpl. split_and!; try done; [lia|right; apply durable_persist].
  - split_and!; try done; [lia|by left].
Qed.

Lemma vote_free rf args :
  negb ((if currentTerm rf <? rva_Term args then -1 else votedFor rf) =? -1) &&
  negb ((if currentTerm rf <? rva_Term args then -1 else votedFor rf) =? rva_CandidateId args)
    = false
  ↔ currentTerm rf < rva_Term args ∨ votedFor rf = -1 ∨ votedFor rf = rva_CandidateId args.
Proof using Type.
  destruct (Z.ltb_spec (currentTerm rf) (rva_Term args)); simpl; [split; [by left|done]|].
  destruct (Z.eqb_spec (votedFor rf) (-1)), (Z.eqb_spec (votedFor rf) (rva_CandidateId args));
    simpl; split; try done; try tauto; lia.
Qed.

Lemma up_to_date_bool rf args lt :
  logTerm rf (lastLogIndex rf) = Some lt →
  (rva_LastLogTerm args >? lt) ||
  ((rva_LastLogTerm args =? lt) && (rva_LastLogIndex args >=? lastLogIndex rf)) = true
  ↔ up_to_date rf args.
Proof using Type.
  intros Ht. unfold up_to_date. rewrite Ht, Z.gtb_ltb, Z.geb_leb.
  rewrite orb_true_iff, andb_true_iff, Z.ltb_lt, Z.eqb_eq, Z.leb_le.
  split; [|intros (? & [= <-] & ?); lia]. intros ?. exists lt. split; [done|lia].
Qed.

Lemma RequestVote_spec rf args now :
  log_ok rf →
  ∃ rf' granted, RequestVote rf args now = Some (rf', mkRVReply (currentTerm rf) granted) ∧
    (granted = true ↔ rv_grants rf args) ∧
    currentTerm rf' = Z.max (currentTerm rf) (rva_Term args) ∧
    votedFor rf' = (if granted then rva_CandidateId args
                    else if currentTerm rf <? rva_Term args then -1 else votedFor rf) ∧
    state rf' = (if currentTerm rf <? rva_Term args then Follower else state rf) ∧
    log rf' = log rf ∧ lastIncludedIndex rf' = lastIncludedIndex rf ∧
    commitIndex rf' = commitIndex rf ∧
    ((rf' = rf ∧ granted = false) ∨ durable rf').
Proof using Type.
  intros Hok. unfold RequestVote, rv_grants.
  destruct (Z.ltb_spec (rva_Term args) (currentTerm rf)) as [Hst|Hge].
  { eexists _, _. split; [done|]. simpl.
    destruct (Z.ltb_spec (currentTerm rf) (rva_Term args)); [lia|].
    split_and!; [split; [done|intros [? _]; lia]|lia|done|done|done|done|done|by left]. }
  fold (rv_demote rf args).
  destruct (rv_demote_spec rf args Hge) as (Hct & Hvf & Hst & Hlog & Hlii & Hci & Hla & Hlt & Hdur).
  generalize dependent (rv_demote rf args). intros rf1 **. rewrite Hvf.
  pose proof (vote_free rf args) as Hfree.
  destruct (negb (_ =? -1) && negb (_ =? rva_CandidateId args)).
  { eexists _, _. split; [done|]. split_and!; try done.
    - split; [done|]. intros (_ & Hf & _). by apply Hfree in Hf.
    - destruct Hdur as [->|?]; [by left|by right]. }
  destruct (logTerm_is_Some rf (lastLogIndex rf)) as [lt Ht];
    [pose proof (lastLogIndex_ge rf Hok); lia|].
  rewrite Hla, Hlt, Ht. simpl. pose proof (up_to_date_bool rf args lt Ht) as Hup.
  destruct ((rva_LastLogTerm args >? lt) || _); simpl.
  - eexists _, _. split; [done|]. simpl. split_and!; try done.
    + split; [|done]. intros _. split_and!; [done|by apply Hfree|by apply Hup].
    + right. eapply durable_ext; [..|apply durable_persist]; done.
  - eexists _, _. split; [done|]. split_and!; try done.
    + split; [done|]. intros (_ & _ & Hu). by apply Hup in Hu.
    + destruct Hdur as [->|?]; [by left|by right].
Qed.

(** ** Installing and taking snapshots *)

(** The log InstallSnapshot leaves: the entries from the snapshot index on if the
    log reaches it, the sentinel alone otherwise. *)
Definition is_log rf (args : InstallSnapshotArgs) : list (LogEntry Command) :=
  if isa_LastIncludedIndex args <=? lastLogIndex rf
  then drop (Z.to_nat (logIndex rf (isa_LastIncludedIndex args))) (log rf)
  else [mkEntry (isa_LastIncludedTerm args) None].

(** The assignments of InstallSnapshot between trimming and persisting. *)
Definition is_raise rf (args : InstallSnapshotArgs) l : Raft Command :=
  let rf := set_lastIncludedTerm (isa_LastIncludedTerm args)
              (set_lastIncludedIndex (isa_LastIncludedIndex args) (set_log l rf)) in
  let rf := if commitIndex rf <? isa_LastIncludedIndex args
            then set_commitIndex (isa_LastIncludedIndex args) rf else rf in
  if lastApplied rf <? isa_LastIncludedIndex args
  then set_lastApplied (isa_LastIncludedIndex args) rf else rf.

Lemma is_raise_spec rf args l :
  let rf' := is_raise rf args l in
  currentTerm rf' = currentTerm rf ∧ state rf' = state rf ∧ votedFor rf' = votedFor rf ∧
  log rf' = l ∧ lastIncludedIndex rf' = isa_LastIncludedIndex args ∧
  lastIncludedTerm rf' = isa_LastIncludedTerm args ∧
  commitIndex rf' = Z.max (commitIndex rf) (isa_LastIncludedIndex args) ∧
  lastApplied rf' = Z.max (lastApplied rf) (isa_LastIncludedIndex args) ∧
  me rf' = me rf ∧ peers rf' = peers rf.
Proof using Type.
  destruct rf. unfold is_raise. simpl.
  destruct (Z.ltb_spec commitIndex (isa_LastIncludedIndex args)); simpl;
    destruct (Z.ltb_spec lastApplied (isa_LastIncludedIndex args)); simpl;
    split_and!; done || lia.
Qed.

Lemma InstallSnapshot_install rf args now :
  currentTerm rf <= isa_Term args → lastIncludedIndex rf < isa_LastIncludedIndex args →
  ∃ rf', InstallSnapshot rf args now = Some (rf', mkISReply (currentTerm rf)) ∧
    currentTerm rf' = isa_Term args ∧ state rf' = Follower ∧
    votedFor rf' = (if currentTerm rf <? isa_Term args then -1 else votedFor rf) ∧
    log rf' = is_log rf args ∧ lastIncludedIndex rf' = isa_LastIncludedIndex args ∧
    lastIncludedTerm rf' = isa_LastIncludedTerm args ∧
    commitIndex rf' = Z.max (commitIndex rf) (isa_LastIncludedIndex args) ∧
    lastApplied rf' = Z.max (lastApplied rf) (isa_LastIncludedIndex args) ∧
    pendingSnapshot rf' = Some (snapshotMsg args) ∧
    ReadSnapshot (persister rf') = isa_Data args ∧ me rf' = me rf ∧ peers rf' = peers rf ∧
    durable rf'.
Proof using Type.
  intros Hterm Hnew. unfold InstallSnapshot.
  destruct (Z.ltb_spec (isa_Term args) (currentTerm rf)); [lia|].
  set (rf1 := set_lastHeartbeat now _).
  assert (H1 : currentTerm rf1 = isa_Term args ∧ state rf1 = Follower ∧
    votedFor rf1 = (if currentTerm rf <? isa_Term args then -1 else votedFor rf) ∧
    log rf1 = log rf ∧ lastIncludedIndex rf1 = lastIncludedIndex rf ∧
    commitIndex rf1 = commitIndex rf ∧ lastApplied rf1 = lastApplied rf ∧
    me rf1 = me rf ∧ peers rf1 = peers rf ∧ lastLogIndex rf1 = lastLogIndex rf).
  { unfold rf1. rewrite Z.gtb_ltb.
    destruct (Z.ltb_spec (currentTerm rf) (isa_Term args)); simpl; split_and!; done || lia. }
  destruct H1 as (Hct & Hst & Hvf & Hlog & Hlii & Hci & Hla & Hme & Hp & Hlast).
  clearbody rf1. rewrite Hlii, Hlast.
  destruct (Z.leb_spec (isa_LastIncludedIndex args) (lastIncludedIndex rf)); [lia|].
  assert (Hlg : (if isa_LastIncludedIndex args <=? lastLogIndex rf
                 then slice_from (log rf1) (logIndex rf1 (isa_LastIncludedIndex args))
                 else Some [mkEntry (isa_LastIncludedTerm args) None]) = Some (is_log rf args)).
  { unfold is_log. destruct (Z.leb_spec (isa_LastIncludedIndex args) (lastLogIndex rf)); [|done].
    unfold logIndex. rewrite Hlog, Hlii. rewrite slice_from_ok; [done|].
    unfold lastLogIndex in *. lia. }
  rewrite Hlg. cbn [mbind option_bind].
  match goal with |- context [persistWithSnapshot ?x _] =>
    change x with (is_raise rf1 args (is_log rf args)) end.
  destruct (is_raise_spec rf1 args (is_log rf args))
    as (R1 & R2 & R3 & R4 & R5 & R6 & R7 & R8 & R9 & R10).
  generalize dependent (is_raise rf1 args (is_log rf args)). intros rf2 **.
  eexists. split; [done|]. simpl.
  rewrite R1, R2, R3, R4, R5, R6, R7, R8, R9, R10, Hct, Hst, Hvf, Hci, Hla, Hme, Hp.
  split_and!; try done.
  - apply (ReadSnapshot_Save _ (isa_Data args)).
  - eapply (durable_ext (persistWithSnapshot rf2 (isa_Data args))); try done.
    apply durable_persistWithSnapshot.
Qed.

Lemma is_log_nonempty rf args :
  lastIncludedIndex rf < isa_LastIncludedIndex args → is_log rf args ≠ [].
Proof using Type.
  intros Hnew. unfold is_log.
  destruct (Z.leb_spec (isa_LastIncludedIndex args) (lastLogIndex rf)); [|done].
  intros Hn. apply (f_equal length) in Hn. rewrite length_drop in Hn.
  unfold logIndex, lastLogIndex, zlen in *. simpl in Hn. lia.
Qed.

(** Taking a snapshot at an index of the log trims it: nothing changes from that
    index on. *)
Lemma Snapshot_spec rf index snap :
  lastIncludedIndex rf < index <= lastLogIndex rf →
  ∃ rf', Snapshot rf index snap = Some rf' ∧ lastIncludedIndex rf' = index ∧
    lastLogIndex rf' = lastLogIndex rf ∧ log_ok rf' ∧
    (∀ i, index <= i → logTerm rf' i = logTerm rf i) ∧
    (∀ i, index < i → idx (log rf') (logIndex rf' i) = idx (log rf) (logIndex rf i)) ∧
    ReadSnapshot (persister rf') = snap ∧ durable rf' ∧
    currentTerm rf' = currentTerm rf ∧ votedFor rf' = votedFor rf ∧ state rf' = state rf ∧
    commitIndex rf' = commitIndex rf ∧ lastApplied rf' = lastApplied rf.
Proof using Type.
  intros Hi. unfold Snapshot. destruct (Z.leb_spec index (lastIncludedIndex rf)); [lia|].
  destruct (logTerm_is_Some rf index) as [t Ht]; [lia|]. rewrite Ht. simpl.
  assert (Hb : 0 <= logIndex rf index < zlen (log rf)) by (unfold logIndex, lastLogIndex in *; lia).
  rewrite slice_from_ok by lia. simpl.
  pose proof (zlen_drop (log rf) (logIndex rf index) ltac:(lia)) as Hlen.
  destruct (drop (Z.to_nat (logIndex rf index)) (log rf)) as [|e r] eqn:Ed;
    [rewrite zlen_nil in Hlen; lia|]. rewrite zlen_cons in Hlen. simpl.
  assert (Hidx : ∀ i, index < i → idx r (i - index - 1) = idx (log rf) (logIndex rf i)).
  { intros i Hlt. rewrite <- (idx_cons_S e r (i - index)), <- Ed by lia.
    rewrite idx_drop by lia. f_equal. unfold logIndex. lia. }
  eexists. split; [done|]. split_and!; try done.
  - unfold lastLogIndex, logIndex in *. simpl. rewrite zlen_cons. lia.
  - intros i Hle. unfold logTerm at 1. simpl.
    destruct (Z.eqb_spec i index) as [->|Hne]; [done|].
    rewrite logTerm_idx by lia. unfold logIndex at 1. simpl.
    rewrite idx_cons_S by lia. by rewrite Hidx by lia.
  - intros i Hlt. unfold logIndex at 1. simpl. rewrite idx_cons_S by lia. by apply Hidx.
  - unfold persistWithSnapshot. cbn [persister set_persister]. by rewrite ReadSnapshot_Save.
  - apply durable_persistWithSnapshot.
Qed.

(** ** The leader: commit index *)

Lemma countMatches_spec rf n ps count :
  (∀ i, i ∈ ps → is_Some (matchIndex rf !! i)) →
  countMatches rf n ps count =
  Some (count + zlen (List.filter
    (λ i, match matchIndex rf !! i with Some m => n <=? m | None => false end) ps)).
Proof using Type.
  revert count. induction ps as [|i ps IH]; intros count Hps; simpl.
  - f_equal. autorewrite with go. lia.
  - destruct (Hps i) as [m Hm]; [set_solver|]. rewrite Hm. simpl.
    rewrite IH by set_solver. rewrite Z.geb_leb. f_equal.
    destruct (n <=? m); autorewrite with go; lia.
Qed.

Lemma otherPeers_lt rf i : i ∈ otherPeers rf → (i < length (peers rf))%nat ∧ i ≠ me rf.
Proof using Type.
  unfold otherPeers. rewrite list_elem_of_In, List.filter_In, List.in_seq.
  intros [? Hn]. apply negb_true_iff, Nat.eqb_neq in Hn. lia.
Qed.

Lemma countMatches_leader rf n :
  length (matchIndex rf) = length (peers rf) →
  countMatches rf n (otherPeers rf) 1 = Some (1 + zlen (replicas rf n)).
Proof using Type.
  intros Hl. apply countMatches_spec. intros i Hi. apply lookup_lt_is_Some.
  apply otherPeers_lt in Hi. lia.
Qed.

#[export] Instance committable_dec rf n : Decision (committable rf n).
Proof. unfold committable. apply _. Defined.

(** The loop leaves the commit index where it was or at a committable index of
    the range, and no committable index of the range is above it. *)
Lemma advanceLoop_spec rf n k :
  log_ok rf → length (matchIndex rf) = length (peers rf) →
  lastIncludedIndex rf <= n → n + Z.of_nat k = lastLogIndex rf + 1 →
  ∃ c, advanceLoop rf n k = Some (set_commitIndex c rf) ∧
    (c = commitIndex rf ∨ n <= c <= lastLogIndex rf ∧ committable rf c) ∧
    (∀ j, n <= j <= lastLogIndex rf → committable rf j → j <= c).
Proof using Type.
  revert rf n. induction k as [|k IH]; intros rf n Hok Hlen Hn Hk; simpl.
  - exists (commitIndex rf). split_and!; [by destruct rf|by left|]. intros. lia.
  - destruct (logTerm_is_Some rf n) as [t Ht]; [lia|]. rewrite Ht. simpl.
    assert (Hskip : ¬ committable rf n →
      ∃ c, advanceLoop rf (n + 1) k = Some (set_commitIndex c rf) ∧
        (c = commitIndex rf ∨ n <= c <= lastLogIndex rf ∧ committable rf c) ∧
        (∀ j, n <= j <= lastLogIndex rf → committable rf j → j <= c)).
    { intros Hnc. destruct (IH rf (n + 1)) as (c & -> & Hc & Hmax); [done|done|lia|lia|].
      exists c. split_and!; [done|destruct Hc as [|[? ?]]; [by left|right; split; [lia|done]]|].
      intros j Hj Hcj. destruct (decide (j = n)) as [->|]; [done|]. apply Hmax; [lia|done]. }
    destruct (Z.eqb_spec t (currentTerm rf)) as [->|Hne]; simpl.
    2:{ apply Hskip. unfold committable. rewrite Ht. intros [[= ?] _]. lia. }
    rewrite countMatches_leader by done. simpl. rewrite Z.geb_leb.
    destruct (Z.leb_spec (majority rf) (1 + zlen (replicas rf n))) as [Hmaj|Hmin].
    2:{ apply Hskip. unfold committable. intros [_ ?]. lia. }
    destruct (IH (set_commitIndex n rf) (n + 1)) as (c & -> & Hc & Hmax);
      [done|done|simpl; lia|change (n + 1 + Z.of_nat k = lastLogIndex rf + 1); lia|].
    change (lastLogIndex (set_commitIndex n rf)) with (lastLogIndex rf) in *.
    exists c. split_and!; [by destruct rf| |].
    + right. destruct Hc as [->|[Hc Hcm]]; [simpl; split; [lia|by split]|split; [lia|done]].
    + intros j Hj Hcj. destruct (decide (j = n)) as [->|].
      * destruct Hc as [->|[? _]]; [simpl|]; lia.
      * apply Hmax; [lia|done].
Qed.

Lemma maybeAdvance_spec rf :
  log_ok rf → length (matchIndex rf) = length (peers rf) →
  lastIncludedIndex rf <= commitIndex rf <= lastLogIndex rf →
  ∃ c, maybeAdvanceCommitIndex rf = Some (set_commitIndex c rf) ∧
    (c = commitIndex rf ∨ commitIndex rf < c <= lastLogIndex rf ∧ committable rf c) ∧
    (∀ j, commitIndex rf < j <= lastLogIndex rf → committable rf j → j <= c).
Proof using Type.
  intros Hok Hlen Hc. unfold maybeAdvanceCommitIndex.
  destruct (advanceLoop_spec rf (commitIndex rf + 1) (Z.to_nat (lastLogIndex rf - commitIndex rf)))
    as (c & -> & H1 & H2); [done|done|lia|lia|].
  exists c. split_and!; [done| |].
  - destruct H1 as [|[? ?]]; [by left|right; split; [lia|done]].
  - intros j Hj. apply H2. lia.
Qed.

(** ** The leader: what it sends, and backing up *)

(** An AppendEntries message carries the leader's log from [nextIndex] to its
    end, with the right previous term, so its commit index is within reach. *)
Lemma heartbeatBegin_append rf peer term leaderId commit args :
  log_ok rf → heartbeatBegin rf peer term leaderId commit = Some (HBAppend args) →
  state rf = Leader ∧
  ∃ ni, nextIndex rf !! peer = Some ni ∧ lastIncludedIndex rf < ni <= lastLogIndex rf + 1 ∧
    aea_Term args = term ∧ aea_LeaderCommit args = commit ∧ aea_PrevLogIndex args = ni - 1 ∧
    logTerm rf (ni - 1) = Some (aea_PrevLogTerm args) ∧
    aea_PrevLogIndex args + zlen (aea_Entries args) = lastLogIndex rf ∧
    ∀ j, 0 <= j < zlen (aea_Entries args) →
         idx (aea_Entries args) j = idx (log rf) (logIndex rf (ni + j)).
Proof using Type.
  intros Hok. unfold heartbeatBegin. destruct (decide (state rf = Leader)) as [Hs|]; [|done].
  destruct (nextIndex rf !! peer) as [ni|]; [|done]. simpl.
  destruct (Z.leb_spec ni (lastIncludedIndex rf)); [done|].
  destruct (logTerm rf (ni - 1)) as [pt|] eqn:Ept; [|done]. simpl.
  destruct (slice_from (log rf) (logIndex rf ni)) as [es|] eqn:Ees; [|done]. simpl.
  intros [= <-]. split; [done|]. exists ni.
  apply slice_from_Some in Ees as [Hb ->]. pose proof (zlen_drop _ _ Hb) as Hl.
  simpl. unfold lastLogIndex, logIndex in *. split_and!; try done; try lia.
  intros j Hj. rewrite idx_drop by lia. f_equal. lia.
Qed.

Lemma searchTerm_spec rf ct k :
  log_ok rf → lastIncludedIndex rf + Z.of_nat k <= lastLogIndex rf →
  ∃ r, searchTerm rf ct k = Some r ∧
    ((r = -1 ∧ ∀ j, lastIncludedIndex rf < j <= lastIncludedIndex rf + Z.of_nat k →
                    logTerm rf j ≠ Some ct) ∨
     (lastIncludedIndex rf < r - 1 <= lastIncludedIndex rf + Z.of_nat k ∧
      logTerm rf (r - 1) = Some ct ∧
      ∀ j, r <= j <= lastIncludedIndex rf + Z.of_nat k → logTerm rf j ≠ Some ct)).
Proof using Type.
  intros Hok. induction k as [|k IH]; intros Hk.
  - exists (-1). split; [done|]. left. split; [done|]. intros. lia.
  - cbn [searchTerm]. set (j := lastIncludedIndex rf + Z.of_nat (S k)).
    destruct (logTerm_is_Some rf j) as [t Ht]; [lia|]. rewrite Ht. simpl.
    destruct (Z.eqb_spec t ct) as [->|Hne].
    + exists (j + 1). split; [done|]. right. rewrite Z.add_simpl_r.
      split_and!; [lia|lia|done|]. intros. lia.
    + destruct IH as (r & -> & Hr); [lia|]. exists r. split; [done|].
      assert (Hj : logTerm rf j ≠ Some ct) by (rewrite Ht; congruence).
      destruct Hr as [[-> Hr]|(Hb & Hrt & Hr)].
      * left. split; [done|]. intros i Hi. destruct (decide (i = j)) as [->|]; [done|].
        apply Hr. lia.
      * right. split_and!; [lia|lia|done|]. intros i Hi.
        destruct (decide (i = j)) as [->|]; [done|]. apply Hr. lia.
Qed.

(** ** The apply loop *)

Lemma applyInner_next rf f :
  apply_ok rf → lastApplied rf < commitIndex rf →
  ∃ m, entryMsg rf (lastApplied rf + 1) = Some m ∧
       applyInner rf (S f) = Some (Some m, set_lastApplied (lastApplied rf + 1) rf).
Proof using Type.
  intros (Hok & Ha & Hc) Hlt. unfold entryMsg. simpl.
  destruct (Z.ltb_spec (lastApplied rf) (commitIndex rf)); [|lia].
  destruct (Z.leb_spec (lastApplied rf + 1) (lastIncludedIndex rf)); [lia|].
  change (logIndex (set_lastApplied (lastApplied rf + 1) rf) (lastApplied rf + 1))
    with (logIndex rf (lastApplied rf + 1)).
  destruct (idx (log rf) (logIndex rf (lastApplied rf + 1))) as [e|] eqn:Ee; simpl; eauto.
  exfalso. eapply is_Some_None. rewrite <- Ee. apply idx_is_Some.
  unfold logIndex, lastLogIndex in *. lia.
Qed.

Lemma applyInner_done rf f :
  commitIndex rf <= lastApplied rf → applyInner rf (S f) = Some (None, rf).
Proof using Type.
  intros H. simpl. by destruct (Z.ltb_spec (lastApplied rf) (commitIndex rf)); [lia|].
Qed.

Lemma drain_inner n rf fuel pc :
  apply_ok rf → (pc = ApplyInner ∨ pendingSnapshot rf = None) →
  commitIndex rf - lastApplied rf = Z.of_nat n → (n < fuel)%nat →
  ∃ ms, drain fuel rf pc = Some (ms, set_lastApplied (commitIndex rf) rf) ∧
    mapM (entryMsg rf) (seqZ (lastApplied rf + 1) (commitIndex rf - lastApplied rf)) = Some ms.
Proof using Type.
  revert rf fuel pc. induction n as [|n IH]; intros rf fuel pc Hok Hpc Hn Hf;
    destruct fuel as [|fuel]; [lia| |lia|]; cbn [drain]; unfold applyLoop_step, applyFuel.
  - assert (Hm : match pc, pendingSnapshot rf with
      | ApplyTop, Some msg => Some (Some msg, set_pendingSnapshot None rf, ApplyTop)
      | _, _ => '(msg, rf0) ← applyInner rf (S (Z.to_nat (commitIndex rf - lastApplied rf)));
                Some (msg, rf0, match msg with Some _ => ApplyInner | None => ApplyTop end)
      end = Some (None, rf, ApplyTop)).
    { rewrite applyInner_done by lia. by destruct pc, (pendingSnapshot rf), Hpc. }
    rewrite Hm. simpl. exists []. split.
    + replace (commitIndex rf) with (lastApplied rf) by lia. by destruct rf.
    + by replace (commitIndex rf - lastApplied rf) with 0 by lia.
  - destruct (applyInner_next rf (Z.to_nat (commitIndex rf - lastApplied rf)) Hok)
      as (m & Hm & E); [lia|].
    assert (Hs : match pc, pendingSnapshot rf with
      | ApplyTop, Some msg => Some (Some msg, set_pendingSnapshot None rf, ApplyTop)
      | _, _ => '(msg, rf0) ← applyInner rf (S (Z.to_nat (commitIndex rf - lastApplied rf)));
                Some (msg, rf0, match msg with Some _ => ApplyInner | None => ApplyTop end)
      end = Some (Some m, set_lastApplied (lastApplied rf + 1) rf, ApplyInner)).
    { rewrite E. by destruct pc, (pendingSnapshot rf), Hpc. }
    rewrite Hs. simpl.
    destruct (IH (set_lastApplied (lastApplied rf + 1) rf) fuel ApplyInner)
      as (ms & Hd & Hms); [|by left|simpl; lia|lia|].
    + destruct Hok as (H1 & H2 & H3). split_and!; [done|simpl; lia|simpl; lia|done].
    + rewrite Hd. simpl. exists (m :: ms). split; [by destruct rf|].
      rewrite seqZ_cons by lia. simpl. rewrite Hm. simpl in Hms |- *.
      replace (Z.succ (lastApplied rf + 1)) with (lastApplied rf + 1 + 1) by lia.
      replace (Z.pred (commitIndex rf - lastApplied rf))
        with (commitIndex rf - (lastApplied rf + 1)) by lia.
      change (entryMsg (set_lastApplied (lastApplied rf + 1) rf)) with (entryMsg rf) in Hms.
      by rewrite Hms.
Qed.

End Ops.
