(* ===== verification/RaftFrame.v ===== *)
(** * What the operations of a peer leave alone

    Elections, votes and the bookkeeping of replication change neither the log nor
    anything the service sees of a peer; AppendEntries and [Start] change the log only;
    a snapshot that is outdated is not installed. *)
From Stdlib Require Import ZArith Lia.
From stdpp Require Import base tactics list numbers option.
From S2P Require Import Prelude.
From S2P Require Import Gob.
From S2P Require Import Persister.
From S2P Require Import RaftNode.
From S2P Require Import RaftLog.
From S2P Require Import RaftOps.

Local Open Scope Z_scope.

Section Frame.
Context {Command : Type} {gobZ : Gob Z} {gobLog : Gob (list (LogEntry Command))}.
Implicit Types (rf : Raft Command).

(** What the service of a peer depends on, and the log with it. *)
Definition qview rf : bytes * Z * Z * option (ApplyMsg Command) :=
  (ReadSnapshot (persister rf), lastIncludedIndex rf, lastApplied rf, pendingSnapshot rf).
Definition kept rf : list (LogEntry Command) * (bytes * Z * Z * option (ApplyMsg Command)) :=
  (log rf, qview rf).

Lemma kept_log rf rf' : kept rf' = kept rf → log rf' = log rf.
Proof using Type. intros E. by apply (f_equal fst) in E. Qed.

Lemma kept_qview rf rf' : kept rf' = kept rf → qview rf' = qview rf.
Proof using Type. intros E. by apply (f_equal snd) in E. Qed.

Lemma qview_persist rf : qview (persist rf) = qview rf.
Proof using Type. unfold qview. by rewrite persist_snapshot. Qed.

Lemma kept_persist rf : kept (persist rf) = kept rf.
Proof using Type. unfold kept. by rewrite qview_persist. Qed.

Lemma RequestVote_kept rf args now rf' r : RequestVote rf args now = Some (rf', r) → kept rf' = kept rf.
Proof using Type.
  unfold RequestVote. intros E. destruct (rva_Term args <? currentTerm rf); [by injection E as <- _|].
  set (rf1 := if rva_Term args >? currentTerm rf then _ else rf) in E.
  assert (H1 : kept rf1 = kept rf).
  { unfold rf1. destruct (_ >? _); [|done]. by rewrite kept_persist. }
  clearbody rf1. destruct (negb _ && negb _); [by injection E as <- _|].
  destruct (logTerm rf1 (lastLogIndex rf1)); [|done]. cbn [mbind option_bind] in E.
  match type of E with (if ?b then _ else _) = _ => destruct b end; [by injection E as <- _|].
  injection E as <- _. rewrite <- H1. exact (kept_persist (set_votedFor (rva_CandidateId args) rf1)).
Qed.

Lemma electionTimeout_kept rf now d rf' r : electionTimeout rf now d = Some (rf', r) → kept rf' = kept rf.
Proof using Type.
  unfold electionTimeout, startElection. intros E. destruct (_ && _); [|by injection E as <- _].
  destruct (mapM _ _) as [cs|]; [|done]. cbn [mbind option_bind] in E. injection E as <- _.
  by rewrite kept_persist.
Qed.

Lemma handleVoteReply_kept rf term votes reply rf' vs won :
  handleVoteReply rf term votes reply = (rf', vs, won) → kept rf' = kept rf.
Proof using Type.
  unfold handleVoteReply. intros E. repeat case_match; injection E as <- _ _; try done.
  by rewrite kept_persist.
Qed.

Lemma advanceLoop_kept rf i k rf' : advanceLoop rf i k = Some rf' → kept rf' = kept rf.
Proof using Type.
  revert rf i. induction k as [|k IH]; intros rf i; simpl; [by intros [= <-]|].
  destruct (logTerm rf i) as [t|]; [|done]. cbn [mbind option_bind].
  destruct (negb _); [apply IH|]. destruct (countMatches _ _ _ _); [|done]. cbn [mbind option_bind].
  intros E. apply IH in E. rewrite E. by destruct (_ >=? _).
Qed.

Lemma handleAppendReply_kept rf peer args reply rf' :
  handleAppendReply rf peer args reply = Some rf' → kept rf' = kept rf.
Proof using Type.
  unfold handleAppendReply. destruct (_ || _); [by intros [= <-]|].
  set (rf1 := if aer_Term reply >? currentTerm rf then _ else rf).
  assert (H1 : kept rf1 = kept rf).
  { unfold rf1. destruct (_ >? _); [|done]. by rewrite kept_persist. }
  clearbody rf1. rewrite <- H1. destruct (aer_Success reply).
  - destruct (matchIndex rf1 !! peer); [|done]. cbn [mbind option_bind].
    destruct (idx_set _ _ _); [|done]. cbn [mbind option_bind]. intros E.
    apply advanceLoop_kept in E. by rewrite E.
  - destruct (backUp _ _); [|done]. cbn [mbind option_bind].
    destruct (idx_set _ _ _); [|done]. cbn [mbind option_bind]. by intros [= <-].
Qed.

Lemma InstallSnapshot_kept rf args now rf' r :
  InstallSnapshot rf args now = Some (rf', r) →
  isa_Term args < currentTerm rf ∨ isa_LastIncludedIndex args <= lastIncludedIndex rf →
  kept rf' = kept rf.
Proof using Type.
  intros E Hc. unfold InstallSnapshot in E.
  destruct (Z.ltb_spec (isa_Term args) (currentTerm rf)); [by injection E as <- _|].
  destruct (isa_Term args >? currentTerm rf); simpl in E;
    (destruct (Z.leb_spec (isa_LastIncludedIndex args) (lastIncludedIndex rf)); [|lia]);
    by injection E as <- _.
Qed.

Lemma handleSnapshotReply_kept rf peer args reply rf' :
  handleSnapshotReply rf peer args reply = Some rf' → kept rf' = kept rf.
Proof using Type.
  unfold handleSnapshotReply. destruct (_ || _); [by intros [= <-]|].
  destruct (isr_Term reply >? currentTerm rf); [intros [= <-]; by rewrite kept_persist|].
  destruct (matchIndex rf !! peer); [|done]. cbn [mbind option_bind].
  destruct (idx_set _ _ _); [|done]. cbn [mbind option_bind]. by intros [= <-].
Qed.

(** The log is all that changes. *)
Lemma AppendEntries_qview rf args now rf' r :
  log_ok rf → AppendEntries rf args now = Some (rf', r) → qview rf' = qview rf.
Proof using Type.
  intros Hok E. destruct (decide (aea_Term args < currentTerm rf)) as [Hs|Hs].
  { rewrite AppendEntries_stale in E by done. by injection E as <- _. }
  assert (Hb : qview (ae_base rf args now) = qview rf) by (unfold ae_base; by rewrite qview_persist).
  destruct (decide (ae_accepts rf args)) as [Ha|Ha].
  - rewrite AppendEntries_accept in E by (done || lia). injection E as <- _. rewrite <- Hb.
    exact (qview_persist (set_log (ae_log rf args) (ae_base rf args now))).
  - destruct (AppendEntries_reject rf args now Hok ltac:(lia) Ha) as (ct & ci & E2 & _).
    rewrite E in E2. by injection E2 as -> _.
Qed.

Lemma Start_qview rf command : qview (Start rf command).2 = qview rf.
Proof using Type. unfold Start. case_decide; [simpl; by rewrite qview_persist|done]. Qed.

End Frame.
