(* ===== verification/RaftTheorems.v ===== *)
(** * internal/raft: the theorems about one peer

    Built from the lemmas of RaftLog.v and RaftOps.v: no handler panics, what
    votes and AppendEntries do on every branch, that conflict hints make
    progress, the commit index, log compaction, persistence across restarts and
    what the apply loop delivers. *)
From stdpp Require Import base tactics list strings numbers option.
From Stdlib Require Import ZArith Lia.
From Stdlib Require Import Init.Byte.
From S2P Require Import Prelude.
From S2P Require Import Gob.
From S2P Require Import Persister.
From S2P Require Import RaftNode.
From S2P Require Import RaftLog.
From S2P Require Import RaftOps.

Local Open Scope Z_scope.

Section Steps.
Context {Command : Type}.
Context {gobZ : Gob Z} {gobLog : Gob (list (LogEntry Command))}.
Implicit Types (rf : Raft Command).

(** One operation on a peer; an InstallSnapshot that only raises the term is
    left out, it is the subject of [InstallSnapshot_loses_term]. *)
Inductive op_step rf : Raft Command → Prop :=
| op_vote args now rf' r : RequestVote rf args now = Some (rf', r) → op_step rf rf'
| op_append args now rf' r : AppendEntries rf args now = Some (rf', r) → op_step rf rf'
| op_install args now rf' r :
    isa_Term args <= currentTerm rf ∨ lastIncludedIndex rf < isa_LastIncludedIndex args →
    InstallSnapshot rf args now = Some (rf', r) → op_step rf rf'
| op_start c : op_step rf (snd (Start rf c))
| op_snapshot index snap rf' : Snapshot rf index snap = Some rf' → op_step rf rf'
| op_timeout now d rf' r : electionTimeout rf now d = Some (rf', r) → op_step rf rf'
| op_vote_reply term votes reply : op_step rf (fst (fst (handleVoteReply rf term votes reply)))
| op_append_reply peer args reply rf' :
    handleAppendReply rf peer args reply = Some rf' → op_step rf rf'
| op_snapshot_reply peer args reply rf' :
    handleSnapshotReply rf peer args reply = Some rf' → op_step rf rf'
| op_apply pc m rf' pc' : applyLoop_step rf pc = Some (m, rf', pc') → op_step rf rf'
| op_kill : op_step rf (Kill rf).

(** Operations on volatile fields only. *)
Definition same_persisted rf rf' : Prop :=
  persister rf' = persister rf ∧ currentTerm rf' = currentTerm rf ∧ votedFor rf' = votedFor rf ∧
  log rf' = log rf ∧ lastIncludedIndex rf' = lastIncludedIndex rf ∧
  lastIncludedTerm rf' = lastIncludedTerm rf.

Lemma same_persisted_refl rf : same_persisted rf rf.
Proof using Type. done. Qed.

Lemma same_persisted_recoverable rf rf' :
  same_persisted rf rf' → recoverable rf → recoverable rf'.
Proof using Type. intros (?&?&?&?&?&?). by apply recoverable_ext. Qed.

Lemma same_persisted_durable rf rf' : same_persisted rf rf' → durable rf → durable rf'.
Proof using Type. intros (?&?&?&?&?&?). by apply durable_ext. Qed.

Lemma advanceLoop_persisted rf n k rf' :
  advanceLoop rf n k = Some rf' → same_persisted rf rf'.
Proof using Type.
  revert rf n. induction k as [|k IH]; intros rf n; simpl; [by intros [= <-]|].
  intros H. destruct (logTerm rf n) as [t|]; [|done]. simpl in H.
  destruct (t =? currentTerm rf); simpl in H; [|by eapply IH].
  destruct (countMatches rf n (otherPeers rf) 1) as [c|]; [|done]. simpl in H.
  destruct (c >=? majority rf); [|by eapply IH].
  destruct (IH _ _ H) as (?&?&?&?&?&?). done.
Qed.

Lemma applyInner_persisted rf f m rf' :
  applyInner rf f = Some (m, rf') → same_persisted rf rf'.
Proof using Type.
  revert rf. induction f as [|f IH]; intros rf; simpl; [by intros [= _ <-]|].
  destruct (lastApplied rf <? commitIndex rf); [|by intros [= _ <-]].
  match goal with |- (if ?b then _ else _) = _ → _ => destruct b end.
  - intros H. destruct (IH _ H) as (?&?&?&?&?&?). done.
  - destruct (idx _ _); [|done]. by intros [= _ <-].
Qed.

Lemma AppendEntries_durable rf args now rf' r :
  AppendEntries rf args now = Some (rf', r) → rf' = rf ∨ durable rf'.
Proof using Type.
  unfold AppendEntries. destruct (aea_Term args <? currentTerm rf); [intros [= <- _]; by left|].
  fold (ae_base rf args now). assert (Hb : durable (ae_base rf args now)) by apply durable_persist.
  set (rf1 := ae_base rf args now) in *. clearbody rf1. intros H.
  destruct (aea_PrevLogIndex args <? lastIncludedIndex rf1); [simplify_eq; by right|].
  destruct (aea_PrevLogIndex args >? lastLogIndex rf1); [simplify_eq; by right|].
  destruct (logTerm rf1 (aea_PrevLogIndex args)) as [t|]; [|done]. simpl in H.
  destruct (negb (t =? aea_PrevLogTerm args)).
  - destruct (walkBack _ _ _ _); [|done]. simpl in H. simplify_eq. by right.
  - destruct (appendEntriesLoop _ _ _) as [lg|]; [|done]. simpl in H.
    right. pose proof (durable_persist (set_log lg rf1)) as Hd.
    simplify_eq. repeat case_match; eapply (durable_ext (persist (set_log lg rf1))); done.
Qed.

Lemma startElection_durable rf rf' term calls :
  startElection rf = Some (rf', term, calls) → durable rf'.
Proof using Type.
  unfold startElection. intros H. destruct (mapM _ _); [|done]. simpl in H. simplify_eq.
  apply durable_persist.
Qed.

Lemma Snapshot_durable rf index snap rf' : Snapshot rf index snap = Some rf' → rf' = rf ∨ durable rf'.
Proof using Type.
  unfold Snapshot. destruct (index <=? lastIncludedIndex rf); [intros [= <-]; by left|].
  intros H. destruct (logTerm rf index); [|done]. simpl in H.
  destruct (slice_from _ _) as [[|e l]|]; [done| |done]. simpl in H. simplify_eq. right.
  apply durable_persistWithSnapshot.
Qed.

Lemma handleVoteReply_persisted rf term votes reply :
  let rf' := fst (fst (handleVoteReply rf term votes reply)) in
  same_persisted rf rf' ∨ durable rf'.
Proof using Type.
  unfold handleVoteReply. repeat case_match; simpl; try (by left); right; apply durable_persist.
Qed.

Lemma handleAppendReply_persisted rf peer args reply rf' :
  handleAppendReply rf peer args reply = Some rf' → same_persisted rf rf' ∨ durable rf'.
Proof using Type.
  unfold handleAppendReply. case_match; [intros [= <-]; by left|].
  set (rf1 := if aer_Term reply >? currentTerm rf then _ else rf).
  assert (H1 : rf1 = rf ∨ durable rf1).
  { unfold rf1. case_match; [right; apply durable_persist|by left]. }
  clearbody rf1. intros E.
  assert (Hp : same_persisted rf1 rf').
  { destruct (aer_Success reply).
    - destruct (matchIndex rf1 !! peer); [|done]. simpl in E.
      destruct (idx_set _ _ _); [|done]. simpl in E.
      apply advanceLoop_persisted in E. by destruct E as (?&?&?&?&?&?).
    - destruct (backUp _ _); [|done]. simpl in E.
      destruct (idx_set _ _ _); [|done]. simpl in E. by simplify_eq. }
  destruct H1 as [->|Hd]; [by left|right]. by eapply same_persisted_durable.
Qed.

Lemma handleSnapshotReply_persisted rf peer args reply rf' :
  handleSnapshotReply rf peer args reply = Some rf' → same_persisted rf rf' ∨ durable rf'.
Proof using Type.
  unfold handleSnapshotReply. case_match; [intros [= <-]; by left|].
  case_match; [intros [= <-]; right; apply durable_persist|].
  destruct (matchIndex rf !! peer); [|done]. simpl.
  destruct (idx_set _ _ _); [|done]. simpl. intros [= <-]. by left.
Qed.

Lemma InstallSnapshot_outdated rf args now :
  isa_Term args <= currentTerm rf → isa_LastIncludedIndex args <= lastIncludedIndex rf →
  ∃ rf', InstallSnapshot rf args now = Some (rf', mkISReply (currentTerm rf)) ∧
         same_persisted rf rf'.
Proof using Type.
  intros Ht Hi. unfold InstallSnapshot.
  destruct (Z.ltb_spec (isa_Term args) (currentTerm rf)); [by exists rf|].
  destruct (Z.gtb_spec (isa_Term args) (currentTerm rf)); [lia|]. simpl.
  destruct (Z.leb_spec (isa_LastIncludedIndex args) (lastIncludedIndex rf)); [|lia].
  by eexists.
Qed.

Lemma InstallSnapshot_persisted rf args now rf' r :
  isa_Term args <= currentTerm rf ∨ lastIncludedIndex rf < isa_LastIncludedIndex args →
  InstallSnapshot rf args now = Some (rf', r) → same_persisted rf rf' ∨ durable rf'.
Proof using Type.
  intros Hc E. destruct (decide (currentTerm rf <= isa_Term args)) as [Hge|Hlt].
  - destruct (decide (lastIncludedIndex rf < isa_LastIncludedIndex args)) as [Hn|Ho].
    + destruct (InstallSnapshot_install rf args now Hge Hn)
        as (rf2 & E2 & _ & _ & _ & _ & _ & _ & _ & _ & _ & _ & _ & _ & Hd).
      simplify_eq. by right.
    + destruct (InstallSnapshot_outdated rf args now ltac:(lia) ltac:(lia)) as (rf2 & E2 & Hs).
      simplify_eq. by left.
  - left. unfold InstallSnapshot in E. destruct (Z.ltb_spec (isa_Term args) (currentTerm rf)); [|lia].
    by simplify_eq.
Qed.

Lemma op_step_persisted rf rf' :
  log_ok rf → op_step rf rf' → same_persisted rf rf' ∨ durable rf'.
Proof using Type.
  intros Hok H. inversion H; subst.
  - destruct (RequestVote_spec rf args now Hok)
      as (rf2 & g & E & _ & _ & _ & _ & _ & _ & _ & Hd).
    simplify_eq. destruct Hd as [[-> _]|?]; [by left|by right].
  - destruct (AppendEntries_durable _ _ _ _ _ H0) as [->|?]; [by left|by right].
  - by eapply InstallSnapshot_persisted.
  - unfold Start. case_decide; simpl; [right; apply durable_persist|by left].
  - destruct (Snapshot_durable _ _ _ _ H0) as [->|?]; [by left|by right].
  - unfold electionTimeout in H0. case_match; [|simplify_eq; by left].
    destruct (startElection rf) as [[[rf2 t] cs]|] eqn:E; [|done]. simpl in H0. simplify_eq.
    right. by eapply startElection_durable.
  - apply handleVoteReply_persisted.
  - by eapply handleAppendReply_persisted.
  - by eapply handleSnapshotReply_persisted.
  - left. unfold applyLoop_step in H0. destruct pc, (pendingSnapshot rf);
      try (simplify_eq; done); destruct (applyInner rf _) as [[m2 rf2]|] eqn:E; try done;
      simpl in H0; simplify_eq; by eapply applyInner_persisted.
  - by left.
Qed.

(** The log after an accepted AppendEntries, by absolute index. *)
Lemma ae_log_terms rf args rf' :
  log_ok rf → ae_accepts rf args → log rf' = ae_log rf args →
  lastIncludedIndex rf' = lastIncludedIndex rf → lastIncludedTerm rf' = lastIncludedTerm rf →
  (∀ i, i <= aea_PrevLogIndex args → logTerm rf' i = logTerm rf i) ∧
  (∀ j, 0 <= j < zlen (aea_Entries args) →
        logTerm rf' (aea_PrevLogIndex args + 1 + j) = le_Term <$> idx (aea_Entries args) j) ∧
  aea_PrevLogIndex args + zlen (aea_Entries args) <= lastLogIndex rf' ∧ log_ok rf'.
Proof using Type.
  intros Hok [Hb Ht] Hlog Hlii Hlit. unfold ae_log in Hlog.
  set (base := Z.to_nat (aea_PrevLogIndex args + 1 - lastIncludedIndex rf)) in *.
  assert (Hbase : (base <= length (log rf))%nat ∧ (1 <= base)%nat)
    by (unfold base, lastLogIndex, zlen in *; lia).
  pose proof (mergeLog_length base (log rf) (aea_Entries args) ltac:(lia)) as Hlen.
  rewrite <- Hlog in Hlen. split_and!.
  - intros i Hi. unfold logTerm, logIndex. rewrite Hlii, Hlit, Hlog.
    destruct (i =? lastIncludedIndex rf); [done|]. f_equal. unfold idx. case_decide; [|done].
    apply mergeLog_prefix; unfold base; lia.
  - intros j Hj. rewrite logTerm_idx by lia. unfold logIndex. rewrite Hlii, Hlog.
    rewrite !idx_lookup by lia. rewrite <- (mergeLog_terms base (log rf) (aea_Entries args)) by (unfold zlen in *; lia).
    do 2 f_equal. unfold base. lia.
  - unfold lastLogIndex, zlen in *. rewrite Hlii. unfold base in *. lia.
  - unfold log_ok. intros Hn. rewrite Hn in Hlen. simpl in Hlen. lia.
Qed.

End Steps.

(** ** The theorems *)
Section Claims.
Context {Command : Type}.
Context {gobZ : Gob Z} {gobLog : Gob (list (LogEntry Command))}.
Implicit Types (rf : Raft Command).

(** C35. No RPC handler panics: in a peer whose log holds its sentinel, every
    RequestVote, AppendEntries and InstallSnapshot message is answered, whatever
    its arguments, and the log keeps a sentinel. *)
Theorem rpc_handlers_never_panic rf :
  log_ok rf →
  (∀ args now, ∃ rf' r, RequestVote rf args now = Some (rf', r) ∧ log_ok rf') ∧
  (∀ args now, ∃ rf' r, AppendEntries rf args now = Some (rf', r) ∧ log_ok rf') ∧
  (∀ args now, ∃ rf' r, InstallSnapshot rf args now = Some (rf', r) ∧ log_ok rf').
Proof using Type.
  intros Hok. split_and!; intros args now.
  - destruct (RequestVote_spec rf args now Hok) as (rf' & g & E & _ & _ & _ & _ & Hlog & _).
    exists rf', (mkRVReply (currentTerm rf) g). split; [done|]. unfold log_ok. by rewrite Hlog.
  - destruct (decide (aea_Term args < currentTerm rf)) as [Hs|Hs].
    { rewrite AppendEntries_stale by done. by eexists _, _. }
    destruct (decide (ae_accepts rf args)) as [Ha|Ha].
    + rewrite AppendEntries_accept by (done || lia). eexists _, _. split; [done|].
      by eapply (ae_log_terms rf args _ Hok Ha).
    + destruct (AppendEntries_reject rf args now Hok ltac:(lia) Ha) as (ct & ci & E & _).
      rewrite E. by eexists _, _.
  - destruct (decide (isa_Term args < currentTerm rf)) as [Hs|Hs].
    { unfold InstallSnapshot. destruct (Z.ltb_spec (isa_Term args) (currentTerm rf)); [|lia].
      by eexists _, _. }
    destruct (decide (lastIncludedIndex rf < isa_LastIncludedIndex args)) as [Hn|Ho].
    + destruct (InstallSnapshot_install rf args now ltac:(lia) Hn)
        as (rf' & E & _ & _ & _ & Hlog & _).
      exists rf', (mkISReply (currentTerm rf)). split; [done|].
      unfold log_ok. rewrite Hlog. by apply is_log_nonempty.
    + unfold InstallSnapshot. destruct (Z.ltb_spec (isa_Term args) (currentTerm rf)); [lia|].
      destruct (isa_Term args >? currentTerm rf); simpl;
        (destruct (Z.leb_spec (isa_LastIncludedIndex args) (lastIncludedIndex rf)); [|lia]);
        by eexists _, _.
Qed.

(** C33. A vote is granted exactly when the candidate's term is not older, the
    peer has no vote for another candidate in that term, and the candidate's log
    is at least as up to date; the term becomes the larger of the two, the vote
    is recorded, reset or kept accordingly, and what changed is persisted. *)
Theorem RequestVote_grants_iff rf args now :
  log_ok rf →
  ∃ rf' granted, RequestVote rf args now = Some (rf', mkRVReply (currentTerm rf) granted) ∧
    (granted = true ↔ rv_grants rf args) ∧
    currentTerm rf' = Z.max (currentTerm rf) (rva_Term args) ∧
    votedFor rf' = (if granted then rva_CandidateId args
                    else if currentTerm rf <? rva_Term args then -1 else votedFor rf) ∧
    state rf' = (if currentTerm rf <? rva_Term args then Follower else state rf) ∧
    log rf' = log rf ∧ lastIncludedIndex rf' = lastIncludedIndex rf ∧
    commitIndex rf' = commitIndex rf ∧
    ((rf' = rf ∧ granted = false) ∨ durable rf').
Proof using Type. apply RequestVote_spec. Qed.

(** C23. AppendEntries refines the reference merge: it succeeds exactly when the
    term is not stale and the log holds the previous entry with its term; then
    the log is the merge of the old log and the entries and the commit index
    the clamped leader commit; otherwise log and commit index stay.  Unless
    stale, the peer becomes a follower of that term and keeps its vote. *)
Theorem AppendEntries_refines_merge rf args now rf' r :
  log_ok rf → AppendEntries rf args now = Some (rf', r) →
  (aer_Success r = true ↔ currentTerm rf <= aea_Term args ∧ ae_accepts rf args) ∧
  (aer_Success r = true → log rf' = ae_log rf args ∧ commitIndex rf' = ae_commit rf args) ∧
  (aer_Success r = false → log rf' = log rf ∧ commitIndex rf' = commitIndex rf) ∧
  (currentTerm rf <= aea_Term args →
   currentTerm rf' = aea_Term args ∧ state rf' = Follower ∧ votedFor rf' = votedFor rf).
Proof using Type.
  intros Hok E. destruct (decide (aea_Term args < currentTerm rf)) as [Hs|Hs].
  { rewrite AppendEntries_stale in E by done. simplify_eq. simpl.
    split_and!; try done; [|lia]. split; [done|]. intros [? _]. lia. }
  destruct (decide (ae_accepts rf args)) as [Ha|Ha].
  - rewrite AppendEntries_accept in E by (done || lia). simplify_eq. simpl.
    split_and!; try done. split; [|done]. intros _. split; [lia|done].
  - destruct (AppendEntries_reject rf args now Hok ltac:(lia) Ha) as (ct & ci & E' & _).
    rewrite E' in E. simplify_eq. simpl. split_and!; try done. by split; [|intros [_ ?]].
Qed.

(** The hint of a rejection in the current term is exact: just past the log
    when it is too short, just past the snapshot when the leader is behind it,
    otherwise the conflicting term with the first index of its run. *)
Theorem AppendEntries_conflict_hint rf args now :
  log_ok rf → currentTerm rf <= aea_Term args → ¬ ae_accepts rf args →
  ∃ ct ci, AppendEntries rf args now =
           Some (ae_base rf args now, mkAEReply (aea_Term args) false ct ci) ∧
           ae_hint rf args ct ci.
Proof using Type. apply AppendEntries_reject. Qed.

(** Receiving an accepted AppendEntries message again succeeds and leaves log,
    term and commit index as they are: a duplicated RPC is harmless. *)
Theorem AppendEntries_idempotent rf args now now' rf1 r1 :
  log_ok rf → AppendEntries rf args now = Some (rf1, r1) → aer_Success r1 = true →
  ∃ rf2 r2, AppendEntries rf1 args now' = Some (rf2, r2) ∧ aer_Success r2 = true ∧
    log rf2 = log rf1 ∧ commitIndex rf2 = commitIndex rf1 ∧ currentTerm rf2 = currentTerm rf1.
Proof using Type.
  intros Hok E Hs.
  assert (Hge : currentTerm rf <= aea_Term args).
  { destruct (decide (aea_Term args < currentTerm rf)); [|lia].
    rewrite AppendEntries_stale in E by done. by simplify_eq. }
  assert (Ha : ae_accepts rf args).
  { destruct (decide (ae_accepts rf args)) as [?|Ha]; [done|].
    destruct (AppendEntries_reject rf args now Hok Hge Ha) as (ct & ci & E' & _).
    rewrite E' in E. by simplify_eq. }
  rewrite AppendEntries_accept in E by done. simplify_eq.
  set (rf1 := set_commitIndex _ _).
  destruct (ae_log_terms rf args rf1 Hok Ha eq_refl eq_refl eq_refl) as (Hpre & _ & Hlast & Hok1).
  assert (Hlii : lastIncludedIndex rf1 = lastIncludedIndex rf) by done.
  assert (Ha1 : ae_accepts rf1 args).
  { destruct Ha as [Hb Ht]. split; [|by rewrite Hpre].
    pose proof (zlen_nonneg (aea_Entries args)). lia. }
  assert (Hct : currentTerm rf1 = aea_Term args) by done.
  rewrite (AppendEntries_accept rf1 args now' Hok1 ltac:(lia) Ha1). eexists _, _.
  split_and!; [done|done| | |done]; simpl.
  - unfold ae_log. rewrite Hlii. apply mergeLog_idem.
    destruct Ha as [Hb _]. unfold lastLogIndex, zlen in Hb. lia.
  - unfold ae_commit. change (commitIndex rf1) with (ae_commit rf args). unfold ae_commit.
    destruct (Z.ltb_spec (commitIndex rf) (aea_LeaderCommit args)).
    + case_match; lia.
    + by destruct (Z.ltb_spec (commitIndex rf) (aea_LeaderCommit args)); [lia|].
Qed.

(** C24. Replication: when a follower accepts the message a leader built from its
    log, its log has the leader's terms from [PrevLogIndex] to the leader's last
    index, reaches it, and its commit index is raised to the leader's, never
    lowered. *)
Theorem AppendEntries_replicates (rfL rf : Raft Command) peer term leaderId commit args now rf' r :
  log_ok rfL → log_ok rf → commit <= lastLogIndex rfL →
  heartbeatBegin rfL peer term leaderId commit = Some (HBAppend args) →
  AppendEntries rf args now = Some (rf', r) → aer_Success r = true →
  (∀ i, aea_PrevLogIndex args <= i <= lastLogIndex rfL → logTerm rf' i = logTerm rfL i) ∧
  lastLogIndex rfL <= lastLogIndex rf' ∧ commitIndex rf' = Z.max (commitIndex rf) commit.
Proof using Type.
  intros HokL Hok Hc Hb E Hs.
  destruct (heartbeatBegin_append _ _ _ _ _ _ HokL Hb)
    as (_ & ni & _ & Hni & _ & Hcm & Hprev & Hpt & Hlen & Hes).
  destruct (decide (aea_Term args < currentTerm rf)) as [Hst|Hst].
  { rewrite AppendEntries_stale in E by done. by simplify_eq. }
  destruct (decide (ae_accepts rf args)) as [Ha|Ha].
  2:{ destruct (AppendEntries_reject rf args now Hok ltac:(lia) Ha) as (ct & ci & E' & _).
      rewrite E' in E. by simplify_eq. }
  rewrite AppendEntries_accept in E by (done || lia). simplify_eq.
  set (rf1 := set_commitIndex _ _).
  destruct (ae_log_terms rf args rf1 Hok Ha eq_refl eq_refl eq_refl) as (Hpre & Hent & Hlast & _).
  split_and!; [|lia|].
  - intros i Hi. destruct (decide (i = aea_PrevLogIndex args)) as [->|Hne].
    + rewrite Hpre by lia. destruct Ha as [_ ->]. by rewrite Hprev.
    + replace i with (aea_PrevLogIndex args + 1 + (i - aea_PrevLogIndex args - 1)) by lia.
      rewrite Hent, Hes by lia. rewrite logTerm_idx by lia. do 3 f_equal. lia.
  - change (commitIndex rf1) with (ae_commit rf args). unfold ae_commit.
    destruct (Z.ltb_spec (commitIndex rf) (aea_LeaderCommit args)); lia.
Qed.

(** C36. Backing up makes progress: when a follower rejects the message that a leader made
    for it, and not because its own term is higher, the leader's [backUp] of the reply that
    [AppendEntries] gave moves [nextIndex] strictly down, or leaves it at 1.  The follower's
    snapshot ends at or before [PrevLogIndex] (a follower that has compacted more asks for
    the entry after its snapshot, which may be further up), its terms are not negative, and
    when the leader has an entry past [PrevLogIndex] of the term that the follower has
    there, it has that term there too (what log matching gives). *)
Theorem backUp_progress (rfL rf rf' : Raft Command) peer term leaderId commit args now r ni :
  log_ok rfL → 0 <= lastIncludedIndex rfL → log_ok rf →
  heartbeatBegin rfL peer term leaderId commit = Some (HBAppend args) →
  nextIndex rfL !! peer = Some ni →
  AppendEntries rf args now = Some (rf', r) → aer_Success r = false →
  currentTerm rf <= aea_Term args → lastIncludedIndex rf <= aea_PrevLogIndex args →
  (∀ i t, logTerm rf i = Some t → 0 <= t) →
  (∀ j t, logTerm rf (ni - 1) = Some t → ni - 1 <= j → logTerm rfL j = Some t →
          logTerm rfL (ni - 1) = Some t) →
  ∃ ni', backUp rfL r = Some ni' ∧ 1 <= ni' <= Z.max 1 (ni - 1).
Proof using Type.
  intros Hok H0 Hokf Hb Hni Ea Hs Ht Hlii Hpos Hsame.
  destruct (decide (ae_accepts rf args)) as [Hacc|Hrej].
  { rewrite AppendEntries_accept in Ea by done. by simplify_eq. }
  destruct (AppendEntries_reject rf args now Hokf Ht Hrej) as (ct & ci & E' & Hhint).
  rewrite Ea in E'. injection E' as -> ->.
  destruct (heartbeatBegin_append _ _ _ _ _ _ Hok Hb)
    as (_ & ni2 & Hni2 & Hb2 & _ & _ & Hprev & Hpt & _ & _). simplify_eq.
  unfold backUp. simpl.
  assert (Hfin : ∀ v, v <= ni - 1 →
    ∃ ni', Some (if v <? 1 then 1 else v) = Some ni' ∧ 1 <= ni' <= Z.max 1 (ni - 1)).
  { intros v Hv. eexists. split; [done|]. destruct (Z.ltb_spec v 1); lia. }
  destruct Hhint as [(Hlt & _)|[(Hlt & -> & ->)|(Hr & Hne & Hci & Hrun & _)]]; [lia| |].
  { simpl. apply Hfin. lia. }
  assert (Hct : logTerm rf (ni - 1) = Some ct) by (rewrite <- Hprev; apply Hrun; lia).
  pose proof (Hpos _ _ Hct). destruct (Z.eqb_spec ct (-1)); [lia|].
  pose proof (lastLogIndex_ge rfL Hok).
  destruct (searchTerm_spec rfL ct (Z.to_nat (lastLogIndex rfL - lastIncludedIndex rfL)) Hok)
    as (v & -> & Hv); [lia|]. simpl.
  destruct Hv as [[-> _]|(Hvb & Hvt & _)]; simpl; [apply Hfin; lia|].
  destruct (Z.eqb_spec v (-1)); [lia|]. apply Hfin.
  destruct (decide (v - 1 < ni - 1)); [lia|].
  pose proof (Hsame (v - 1) ct Hct ltac:(lia) Hvt) as Hc. rewrite Hpt in Hc. congruence.
Qed.

(** [maybeAdvanceCommitIndex] changes the commit index only, to the greatest
    index above it that holds an entry of the current term stored on a
    majority, and leaves it when there is none. *)
Theorem maybeAdvanceCommitIndex_greatest rf :
  log_ok rf → length (matchIndex rf) = length (peers rf) →
  lastIncludedIndex rf <= commitIndex rf <= lastLogIndex rf →
  ∃ c, maybeAdvanceCommitIndex rf = Some (set_commitIndex c rf) ∧
    (c = commitIndex rf ∨ commitIndex rf < c <= lastLogIndex rf ∧ committable rf c) ∧
    (∀ j, commitIndex rf < j <= lastLogIndex rf → committable rf j → j <= c).
Proof using Type. apply maybeAdvance_spec. Qed.

(** Compaction: taking a snapshot at an index of the log drops the entries
    before it and changes no term or command after it, nor the last index; the
    trimmed state and the snapshot are persisted together. *)
Theorem Snapshot_compacts rf index snap :
  lastIncludedIndex rf < index <= lastLogIndex rf →
  ∃ rf', Snapshot rf index snap = Some rf' ∧ lastIncludedIndex rf' = index ∧
    lastLogIndex rf' = lastLogIndex rf ∧ log_ok rf' ∧
    (∀ i, index <= i → logTerm rf' i = logTerm rf i) ∧
    (∀ i, index < i → idx (log rf') (logIndex rf' i) = idx (log rf) (logIndex rf i)) ∧
    ReadSnapshot (persister rf') = snap ∧ durable rf' ∧
    currentTerm rf' = currentTerm rf ∧ votedFor rf' = votedFor rf ∧ state rf' = state rf ∧
    commitIndex rf' = commitIndex rf ∧ lastApplied rf' = lastApplied rf.
Proof using Type. apply Snapshot_spec. Qed.

(** C32. Crash recovery: after any operation on a recoverable peer (the outdated
    InstallSnapshot that only raises the term excepted), a restart from its
    persister gives back term, vote, log and snapshot index, as a follower whose
    commit and applied indices are the snapshot index. *)
Theorem restart_restores rf rf' now :
  log_ok rf → recoverable rf → op_step rf rf' →
  let r := Make (peers rf') (me rf') (persister rf') now in
  currentTerm r = currentTerm rf' ∧ votedFor r = votedFor rf' ∧ log r = log rf' ∧
  lastIncludedIndex r = lastIncludedIndex rf' ∧ lastIncludedTerm r = lastIncludedTerm rf' ∧
  state r = Follower ∧ commitIndex r = lastIncludedIndex rf' ∧
  lastApplied r = lastIncludedIndex rf' ∧ recoverable rf'.
Proof using Type.
  intros Hok Hr Hs.
  assert (Hr' : recoverable rf').
  { destruct (op_step_persisted rf rf' Hok Hs) as [Hp|Hd]; [|by left].
    by eapply same_persisted_recoverable. }
  intros r. unfold r. rewrite (Make_recoverable rf' now Hr'). simpl. by split_and!.
Qed.

(** An outdated InstallSnapshot of a newer term raises [currentTerm] and
    resets the vote in memory only: a restart goes back to the old term. *)
Theorem InstallSnapshot_loses_term rf args now now' :
  recoverable rf → currentTerm rf < isa_Term args →
  isa_LastIncludedIndex args <= lastIncludedIndex rf →
  ∃ rf', InstallSnapshot rf args now = Some (rf', mkISReply (currentTerm rf)) ∧
    currentTerm rf' = isa_Term args ∧
    currentTerm (Make (peers rf') (me rf') (persister rf') now') = currentTerm rf.
Proof using Type.
  intros Hr Ht Hi. unfold InstallSnapshot.
  destruct (Z.ltb_spec (isa_Term args) (currentTerm rf)); [lia|].
  destruct (Z.gtb_spec (isa_Term args) (currentTerm rf)); [|lia]. simpl.
  destruct (Z.leb_spec (isa_LastIncludedIndex args) (lastIncludedIndex rf)); [|lia].
  eexists. split_and!; [done|done|].
  change (currentTerm (Make (peers rf) (me rf) (persister rf) now') = currentTerm rf).
  by rewrite Make_recoverable.
Qed.

(** The uncontended apply loop delivers exactly the committed entries not yet
    applied, once each, in index order, and ends with [lastApplied] at the
    commit index. *)
Theorem applyLoop_delivers_in_order rf fuel :
  apply_ok rf → pendingSnapshot rf = None →
  commitIndex rf - lastApplied rf < Z.of_nat fuel →
  ∃ ms, drain fuel rf ApplyTop = Some (ms, set_lastApplied (commitIndex rf) rf) ∧
    mapM (entryMsg rf) (seqZ (lastApplied rf + 1) (commitIndex rf - lastApplied rf)) = Some ms.
Proof using Type.
  intros Hok Hp Hf. apply (drain_inner (Z.to_nat (commitIndex rf - lastApplied rf)));
    [done|by right| |].
  - destruct Hok as (_ & ? & _). lia.
  - destruct Hok as (_ & ? & _). lia.
Qed.

(** A snapshot older than what a peer has already applied is installed and
    handed to the state machine all the same: the apply loop delivers it and
    resumes after [lastApplied], so the entries between the snapshot and
    [lastApplied] are undone and never delivered again. *)
Theorem InstallSnapshot_rolls_back rf args now :
  currentTerm rf <= isa_Term args →
  lastIncludedIndex rf < isa_LastIncludedIndex args < lastApplied rf →
  ∃ rf' rf'' r, InstallSnapshot rf args now = Some (rf', r) ∧
    applyLoop_step rf' ApplyTop = Some (Some (snapshotMsg args), rf'', ApplyTop) ∧
    am_SnapshotIndex (@snapshotMsg Command args) < lastApplied rf'' ∧
    lastApplied rf'' = lastApplied rf ∧ pendingSnapshot rf'' = None.
Proof using Type.
  intros Ht Hi.
  destruct (InstallSnapshot_install rf args now Ht ltac:(lia))
    as (rf' & E & _ & _ & _ & _ & _ & _ & _ & Ha & Hp & _).
  exists rf', (set_pendingSnapshot None rf'), (mkISReply (currentTerm rf)).
  split_and!; [done| |simpl; lia|simpl; lia|done].
  unfold applyLoop_step. by rewrite Hp.
Qed.

(** C34. Installing a newer snapshot: entries past it are kept with their terms
    when the log reaches it (even if the log's own entry at that index has
    another term), the log is reset otherwise; commit and applied indices are
    raised to it and the snapshot is queued and persisted with the state. *)
Theorem InstallSnapshot_effect rf args now :
  currentTerm rf <= isa_Term args → lastIncludedIndex rf < isa_LastIncludedIndex args →
  ∃ rf', InstallSnapshot rf args now = Some (rf', mkISReply (currentTerm rf)) ∧
    logTerm rf' (isa_LastIncludedIndex args) = Some (isa_LastIncludedTerm args) ∧
    lastLogIndex rf' = Z.max (lastLogIndex rf) (isa_LastIncludedIndex args) ∧
    (∀ i, isa_LastIncludedIndex args < i <= lastLogIndex rf → logTerm rf' i = logTerm rf i) ∧
    commitIndex rf' = Z.max (commitIndex rf) (isa_LastIncludedIndex args) ∧
    lastApplied rf' = Z.max (lastApplied rf) (isa_LastIncludedIndex args) ∧
    pendingSnapshot rf' = Some (snapshotMsg args) ∧
    ReadSnapshot (persister rf') = isa_Data args ∧ durable rf'.
Proof using Type.
  intros Ht Hi. destruct (InstallSnapshot_install rf args now Ht Hi)
    as (rf' & E & _ & _ & _ & Hlog & Hlii & Hlit & Hc & Ha & Hp & Hs & _ & _ & Hd).
  exists rf'. unfold is_log in Hlog.
  split_and!; try done.
  - unfold logTerm. by rewrite Hlii, Hlit, Z.eqb_refl.
  - unfold lastLogIndex at 1. rewrite Hlii, Hlog.
    destruct (Z.leb_spec (isa_LastIncludedIndex args) (lastLogIndex rf)).
    + rewrite zlen_drop by (unfold logIndex, lastLogIndex in *; lia).
      unfold logIndex, lastLogIndex in *. lia.
    + rewrite zlen_cons, zlen_nil. lia.
  - intros i Hb. rewrite !logTerm_idx by lia. unfold logIndex at 1. rewrite Hlii, Hlog.
    destruct (Z.leb_spec (isa_LastIncludedIndex args) (lastLogIndex rf)); [|lia].
    rewrite idx_drop by (unfold logIndex, lastLogIndex in *; lia).
    do 2 f_equal. unfold logIndex. lia.
Qed.

End Claims.


(** ** Concrete peers, on which the hypotheses of the theorems hold *)
Module Examples.

Definition peers3 : list Peer := [NewPeer "a"; NewPeer "b"; NewPeer "c"].

(** A peer just started, with three commands in a log that starts at index 0. *)
Definition boot : Raft Z := Make peers3 1 (MakePersister) 0.
Definition entries : list (LogEntry Z) := [mkEntry 1 (Some 10); mkEntry 1 (Some 11); mkEntry 2 (Some 12)].
Definition log3 : list (LogEntry Z) := mkEntry 0 None :: entries.
Definition follower : Raft Z := persist (set_log log3 (set_currentTerm 2 boot)).
(** The leader of term 2, two of whose entries are on peer 0. *)
Definition leader : Raft Z :=
  set_matchIndex [3; 3; 1] (set_nextIndex [4; 4; 2] (set_state Leader follower)).
(** A follower that has applied everything. *)
Definition applied : Raft Z := set_lastApplied 3 (set_commitIndex 3 follower).
Definition behind : Raft Z :=
  persist (set_log [mkEntry 0 None; mkEntry 1 (Some 10); mkEntry 1 (Some 11); mkEntry 1 (Some 14)]
             (set_currentTerm 1 boot)).
Definition snap2 : InstallSnapshotArgs := mkISArgs 3 0 2 1 [].


(** A message of the leader of term 2, accepted by [follower] and by [behind]
    only when it starts at an entry they share. *)
Definition ae_good : AppendEntriesArgs Z := mkAEArgs 2 0 1 1 [mkEntry 1 (Some 11); mkEntry 2 (Some 12)] 2.
Definition ae_bad : AppendEntriesArgs Z := mkAEArgs 2 1 3 2 [] 2.

Lemma rpc_handlers_never_panic_witness :
  ∃ rf' r, AppendEntries behind ae_bad 7 = Some (rf', r) ∧ log_ok rf'.
Proof. apply (rpc_handlers_never_panic behind). done. Defined.

Lemma RequestVote_grants_iff_witness :
  ∃ rf' granted,
    RequestVote follower (mkRVArgs 3 2 3 2) 0 = Some (rf', mkRVReply 2 granted) ∧
    votedFor rf' = (if granted then 2 else -1).
Proof.
  destruct (RequestVote_grants_iff follower (mkRVArgs 3 2 3 2) 0)
    as (rf' & g & E & _ & _ & Hv & _); [done|]. by exists rf', g.
Defined.

Lemma AppendEntries_refines_merge_witness :
  ∃ rf' r, AppendEntries behind ae_good 5 = Some (rf', r) ∧ log rf' = log3 ∧ commitIndex rf' = 2.
Proof.
  destruct (AppendEntries behind ae_good 5) as [[rf' r]|] eqn:E; [|vm_compute in E; discriminate].
  assert (Hr : aer_Success r = true) by (vm_compute in E; by simplify_eq).
  destruct (AppendEntries_refines_merge behind ae_good 5 rf' r) as (_ & Hs & _); [done|exact E|].
  destruct (Hs Hr) as [H1 H2]. exists rf', r. split; [reflexivity|]. by rewrite H1, H2.
Defined.

Lemma AppendEntries_conflict_hint_witness :
  ∃ ct ci, ae_hint behind ae_bad ct ci.
Proof.
  destruct (AppendEntries_conflict_hint behind ae_bad 5) as (ct & ci & _ & H);
    [done|by vm_compute| |by exists ct, ci].
  intros [_ H]. vm_compute in H. by simplify_eq.
Defined.

Lemma AppendEntries_idempotent_witness :
  ∃ rf1 r1 rf2 r2, AppendEntries behind ae_good 5 = Some (rf1, r1) ∧
    AppendEntries rf1 ae_good 6 = Some (rf2, r2) ∧ log rf2 = log rf1.
Proof.
  destruct (AppendEntries behind ae_good 5) as [[rf1 r1]|] eqn:E; [|by vm_compute in E].
  assert (Hs : aer_Success r1 = true) by (vm_compute in E; by simplify_eq).
  destruct (AppendEntries_idempotent behind ae_good 5 6 rf1 r1) as (rf2 & r2 & E2 & _ & Hl & _);
    [done|done|done|]. by exists rf1, r1, rf2, r2.
Defined.

Lemma AppendEntries_replicates_witness :
  ∃ rf' : Raft Z, logTerm rf' 3 = logTerm leader 3 ∧ commitIndex rf' = Z.max 0 3.
Proof.
  destruct (heartbeatBegin leader 2 2 1 3) as [[| |args]|] eqn:Eh;
    try (vm_compute in Eh; discriminate).
  assert (Hb : ∃ rf' r, AppendEntries behind args 5 = Some (rf', r) ∧ aer_Success r = true ∧
             aea_PrevLogIndex args = 1).
  { vm_compute in Eh. simplify_eq. do 2 eexists. split; [by vm_compute|done]. }
  destruct Hb as (rf' & r & E & Hs & Hp).
  destruct (AppendEntries_replicates leader behind 2 2 1 3 args 5 rf' r) as (Ht & _ & Hc);
    [done|done|by vm_compute|done|done|done|].
  exists rf'. split; [apply Ht; rewrite Hp; by vm_compute|done].
Defined.

Lemma maybeAdvanceCommitIndex_greatest_witness :
  ∃ c, maybeAdvanceCommitIndex leader = Some (set_commitIndex c leader) ∧
       (committable leader 3 → 3 <= c).
Proof.
  destruct (maybeAdvanceCommitIndex_greatest leader) as (c & E & _ & Hc);
    [done|done|by vm_compute|].
  exists c. split; [done|]. intros. apply Hc; [by vm_compute|done].
Defined.

Lemma Snapshot_compacts_witness :
  ∃ rf', Snapshot follower 2 [x01] = Some rf' ∧ logTerm rf' 3 = Some 2.
Proof.
  destruct (Snapshot_compacts follower 2 [x01]) as (rf' & E & _ & _ & _ & Ht & _);
    [by vm_compute|]. exists rf'. split; [done|]. by rewrite Ht.
Defined.

Lemma restart_restores_witness :
  log (Make (peers follower) (me follower) (persister (snd (Start leader (Some 13)))) 9) =
  log3 ++ [mkEntry 2 (Some 13)].
Proof.
  destruct (restart_restores leader (snd (Start leader (Some 13))) 9) as (_ & _ & H & _);
    [done|left; by vm_compute|apply op_start|].
  exact H.
Defined.

Lemma InstallSnapshot_loses_term_witness :
  ∃ rf' : Raft Z, currentTerm rf' = 3 ∧
    currentTerm (Make (Command := Z) (peers rf') (me rf') (persister rf') 9) = 2.
Proof.
  destruct (InstallSnapshot_loses_term follower (mkISArgs 3 0 0 0 []) 5 9)
    as (rf' & _ & H1 & H2); [left; by vm_compute|done|done|].
  exists rf'. split; [exact H1|exact H2].
Defined.

Lemma applyLoop_delivers_in_order_witness :
  ∃ ms, drain 5 (set_commitIndex 3 follower) ApplyTop =
        Some (ms, set_lastApplied 3 (set_commitIndex 3 follower)) ∧
        am_Command <$> ms = [Some 10; Some 11; Some 12].
Proof.
  destruct (applyLoop_delivers_in_order (set_commitIndex 3 follower) 5) as (ms & E & Hm);
    [split_and!; by vm_compute|done|done|].
  exists ms. split; [done|]. vm_compute in Hm. by simplify_eq.
Defined.

Lemma InstallSnapshot_rolls_back_witness :
  ∃ rf' rf'' r, InstallSnapshot applied snap2 5 = Some (rf', r) ∧
    applyLoop_step rf' ApplyTop = Some (Some (snapshotMsg snap2), rf'', ApplyTop) ∧
    lastApplied rf'' = 3.
Proof.
  destruct (InstallSnapshot_rolls_back applied snap2 5) as (rf' & rf'' & r & E1 & E2 & _ & E3 & _);
    [done|by vm_compute|]. exists rf', rf'', r. by split_and!.
Defined.

Lemma InstallSnapshot_effect_witness :
  ∃ rf' : Raft Z, logTerm rf' 2 = Some 1 ∧ commitIndex rf' = Z.max 0 2.
Proof.
  destruct (InstallSnapshot_effect follower snap2 5) as (rf' & _ & H1 & _ & _ & H2 & _);
    [done|done|]. exists rf'. split; [exact H1|exact H2].
Defined.

Lemma backUp_progress_witness :
  ∃ ni', backUp leader (mkAEReply 2 false 1 1) = Some ni' ∧ 1 <= ni' <= 3.
Proof.
  destruct (heartbeatBegin leader 1 2 1 3) as [[| |args]|] eqn:Eh;
    try (vm_compute in Eh; discriminate).
  destruct (AppendEntries behind args 7) as [[rf' r]|] eqn:Ea;
    [|vm_compute in Eh; injection Eh as <-; vm_compute in Ea; discriminate].
  assert (Hr : r = mkAEReply 2 false 1 1) by
    (vm_compute in Eh; simplify_eq; vm_compute in Ea; simplify_eq; done).
  rewrite <- Hr. apply (backUp_progress leader behind rf' 1 2 1 3 args 7 r 4); try done.
  - by rewrite Hr.
  - vm_compute in Eh. injection Eh as <-. by vm_compute.
  - vm_compute in Eh. injection Eh as <-. by vm_compute.
  - intros i t Hi. unfold logTerm in Hi.
    case_match; [by simplify_eq|].
    assert (Hall : Forall (λ e : LogEntry Z, 0 <= le_Term e) (log behind)) by
      (repeat constructor; by vm_compute).
    apply fmap_Some in Hi as (e & He & ->). rewrite idx_lookup in He
      by (apply idx_Some_bounds in He; lia).
    by eapply Forall_lookup in Hall.
  - intros j t Ht Hj Hl. vm_compute in Ht. simplify_eq.
    assert (j = 3 ∨ 3 < j) as [->|Hgt] by lia; [done|].
    rewrite logTerm_idx in Hl by (change (lastIncludedIndex leader) with 0; lia).
    rewrite idx_ge in Hl; [done|].
    change (zlen (log leader)) with 4. change (logIndex leader j) with (j - 0). lia.
Defined.

End Examples.
