(* ===== verification/History.v ===== *)
(** * Histories of a cluster: what the leaders of its terms had in their logs

    The argument for the safety of the logs, apart from how peers and messages
    change.  A [history] is ghost state: the log of the leader of every term, the
    log of every peer with the entries it has compacted, the log of every
    candidate when it asked for votes, and which peer acknowledged which prefix
    of the log of a term.  [hist_ok] relates it to the votes cast and to the terms
    that restarts give back, and is preserved by the six ways a cluster moves
    ([hist_floor] to [hist_ack]).  Its consequence is [committed_kept]: what a
    majority acknowledged is in the log of every later leader. *)
From stdpp Require Import functions.
From stdpp Require Import base tactics list strings numbers option sets.
From Stdlib Require Import ZArith Lia.
From S2P Require Import Prelude.
From S2P Require Import RaftNode.

Local Open Scope Z_scope.

(** ** Majorities *)
Definition majority_of (n : nat) (Q : list nat) : Prop :=
  NoDup Q ∧ Z.of_nat n / 2 + 1 <= zlen Q ∧ ∀ q, q ∈ Q → (q < n)%nat.

(** Two majorities of [n] peers share one. *)
Lemma majorities_meet (n : nat) (Q1 Q2 : list nat) :
  majority_of n Q1 → majority_of n Q2 → ∃ q, q ∈ Q1 ∧ q ∈ Q2.
Proof.
  intros (N1 & L1 & H1) (N2 & L2 & H2).
  destruct (decide (Exists (λ q, q ∈ Q2) Q1)) as [He|Hn].
  { by apply Exists_exists in He. }
  exfalso. rewrite <- Forall_Exists_neg in Hn.
  assert (Hsub : Q1 ++ Q2 ⊆+ seq 0 n).
  { apply NoDup_submseteq.
    - apply NoDup_app. split_and!; [done| |done]. intros q Hq. by eapply Forall_forall in Hn.
    - intros q [Hq|Hq]%elem_of_app; apply elem_of_seq; [pose proof (H1 q Hq)|pose proof (H2 q Hq)]; lia. }
  apply submseteq_length in Hsub. rewrite length_app, length_seq in Hsub.
  unfold zlen in *. dlia.
Qed.

Section History.
Context {Command : Type}.
Abbreviation entries := (list (LogEntry Command)).
Implicit Types (l w s : list (LogEntry Command)) (i j m k T : Z) (p q v z : nat).

(** ** Logs that agree up to an index *)
Definition same l l' i : Prop :=
  i < zlen l ∧ i < zlen l' ∧ ∀ j, j <= i → idx l j = idx l' j.
Definition term_at l i : option Z := le_Term <$> idx l i.
Definition sentinel : LogEntry Command := mkEntry 0 None.

Lemma same_refl l i : i < zlen l → same l l i.
Proof. intros. unfold same. by split_and!. Qed.

Lemma same_sym l l' i : same l l' i → same l' l i.
Proof. intros (?&?&H). unfold same. split_and!; [done..|]. intros j Hj. by rewrite H. Qed.

Lemma same_trans l1 l2 l3 i : same l1 l2 i → same l2 l3 i → same l1 l3 i.
Proof. intros (?&?&H) (?&?&H'). unfold same. split_and!; [done..|]. intros j Hj. by rewrite H, H'. Qed.

Lemma same_le l l' i j : same l l' i → j <= i → same l l' j.
Proof. intros (?&?&H) Hj. unfold same. split_and!; [lia..|]. intros k Hk. apply H. lia. Qed.

Lemma same_term l l' i j : same l l' i → j <= i → term_at l j = term_at l' j.
Proof. intros (_ & _ & H) Hj. unfold term_at. by rewrite H. Qed.

Lemma same_app l l' i : i < zlen l → same l (l ++ l') i.
Proof.
  intros Hi. unfold same. split_and!; [done|rewrite zlen_app; pose proof (zlen_nonneg l'); lia|].
  intros j Hj. by rewrite idx_app_l by lia.
Qed.

Lemma term_at_bounds l i t : term_at l i = Some t → 0 <= i < zlen l.
Proof. unfold term_at. intros (e & He & _)%fmap_Some. by eapply idx_Some_bounds. Qed.

Lemma term_at_is_Some l i : 0 <= i < zlen l → is_Some (term_at l i).
Proof. intros Hi. by apply fmap_is_Some, idx_is_Some. Qed.

Lemma idx_snoc l (e : LogEntry Command) i :
  idx (l ++ [e]) i = if decide (i = zlen l) then Some e else idx l i.
Proof.
  destruct (decide (i = zlen l)) as [->|Hne].
  - rewrite idx_app_r by lia. by rewrite Z.sub_diag.
  - destruct (decide (i < zlen l)); [by rewrite idx_app_l by lia|].
    rewrite !idx_ge; [done|lia|]. rewrite zlen_app. unfold zlen in *. simpl. lia.
Qed.

(** ** Ghost state *)
Record history := mkHistory {
  h_log : Z → option entries;     (* the log of the leader of a term *)
  h_leader : Z → nat;             (* that leader *)
  h_full : nat → entries;         (* the log of a peer, compacted entries included *)
  h_asked : nat → Z → entries;    (* the log of a candidate when it asked for votes *)
  h_acks : list (nat * Z * Z)     (* the peer told the leader of the term it has its log up to here *)
}.
Implicit Types (h : history).

Definition h_ack h v T m : Prop := (v, T, m) ∈ h_acks h.

(** Somebody of [Q] acknowledged entry [i] of term [T], or nobody. *)
Lemma acked_dec h (Q : list nat) T i :
  (∃ v m, v ∈ Q ∧ i <= m ∧ h_ack h v T m) ∨ (∀ v m, v ∈ Q → h_ack h v T m → m < i).
Proof.
  destruct (decide (Exists (λ '(v, T', m), v ∈ Q ∧ T' = T ∧ i <= m) (h_acks h))) as [He|Hn].
  - left. apply Exists_exists in He as ([[v T'] m] & Hin & Hv & -> & Hm). by exists v, m.
  - right. intros v m Hv Ha. destruct (decide (m < i)) as [|Hge]; [done|]. exfalso. apply Hn.
    apply Exists_exists. exists (v, T, m). split_and!; [done|done|done|lia].
Qed.

(** Every entry comes from the log of the leader of its term, with all before it. *)
Definition wf_log h l : Prop :=
  idx l 0 = Some sentinel ∧
  ∀ i e, 0 < i → idx l i = Some e → ∃ l', h_log h (le_Term e) = Some l' ∧ same l l' i.

Definition sorted l : Prop :=
  ∀ i j ti tj, i <= j → term_at l i = Some ti → term_at l j = Some tj → ti <= tj.

(** The last entry of a candidate is not older than entry [i] of term [T]. *)
Definition up_to_date_with l T i : Prop :=
  ∃ t, term_at l (zlen l - 1) = Some t ∧ (T < t ∨ T = t ∧ i <= zlen l - 1).

Section Invariant.
Context (n : nat).

(** A majority left term [T] without having acknowledged entry [i]. *)
Definition blocked (fl : nat → Z) h T i : Prop :=
  ∃ B, majority_of n B ∧ ∀ v, v ∈ B → T < fl v ∧ ∀ m, h_ack h v T m → m < i.

(** A majority acknowledged entry [i] of term [T]. *)
Definition committed h T i : Prop :=
  ∃ l, h_log h T = Some l ∧ term_at l i = Some T ∧
  ∃ Q, majority_of n Q ∧ ∀ q, q ∈ Q → ∃ m, i <= m ∧ h_ack h q T m.

(** [fl v] is the term a restart of [v] gives back, [vt v T z] says that [v] voted
    for [z] in term [T]. *)
Record hist_ok (fl : nat → Z) (vt : nat → Z → nat → Prop) h : Prop := {
  hk_log : ∀ T l, h_log h T = Some l →
    0 < T ∧ wf_log h l ∧ ∀ i t, term_at l i = Some t → t <= T;
  hk_sorted : ∀ T l, h_log h T = Some l → sorted l;
  hk_quorum : ∀ T l, h_log h T = Some l →
    ∃ Q, majority_of n Q ∧ ∀ v, v ∈ Q → vt v T (h_leader h T);
  hk_full : ∀ v, wf_log h (h_full h v);
  hk_floor : ∀ v T z, vt v T z → T <= fl v;
  hk_uniq : ∀ v T z z', vt v T z → vt v T z' → z = z';
  hk_self_vote : ∀ v T z, vt v T z → vt z T z;
  hk_asked : ∀ v T z, vt v T z → wf_log h (h_asked h z T);
  hk_ack : ∀ v T m, h_ack h v T m → T <= fl v ∧ ∃ l, h_log h T = Some l ∧ m < zlen l;
  hk_self : ∀ T l i, h_log h T = Some l → term_at l i = Some T → h_ack h (h_leader h T) T i;
  hk_stable : ∀ v T m i l, h_ack h v T m → i <= m → h_log h T = Some l → term_at l i = Some T →
    same (h_full h v) l i ∨ blocked fl h T i;
  hk_vote : ∀ v T' z T m i l, vt v T' z → h_ack h v T m → T < T' → i <= m →
    h_log h T = Some l → term_at l i = Some T →
    up_to_date_with (h_asked h z T') T i ∨ blocked fl h T i;
  hk_block : ∀ T T' l l' i, h_log h T = Some l → h_log h T' = Some l' → T < T' →
    term_at l i = Some T → same l' l i ∨ blocked fl h T i;
  hk_dead : ∀ z T i t, vt z T z → term_at (h_asked h z T) i = Some t → T <= t →
    ∃ B, majority_of n B ∧
      ∀ v, v ∈ B → ¬ vt v T z ∧ (T < fl v ∨ ∃ z', z' ≠ z ∧ vt v T z')
}.

(** ** Consequences *)
Section Consequences.
Context (fl : nat → Z) (vt : nat → Z → nat → Prop) (h : history) (Hok : hist_ok fl vt h).

(** Log matching. *)
Lemma wf_match l l' i t :
  wf_log h l → wf_log h l' → term_at l i = Some t → term_at l' i = Some t → same l l' i.
Proof using Type.
  intros [H0 Hw] [H0' Hw'] Ht Ht'. pose proof (term_at_bounds _ _ _ Ht).
  pose proof (term_at_bounds _ _ _ Ht').
  destruct (decide (i = 0)) as [->|Hne].
  { unfold same. split_and!; [lia..|]. intros j Hj. destruct (decide (j = 0)) as [->|]; [congruence|].
    by rewrite !idx_neg by lia. }
  apply fmap_Some in Ht as (e & He & ->). apply fmap_Some in Ht' as (e' & He' & Hee).
  destruct (Hw i e) as (l1 & Hl1 & Hs1); [lia|done|].
  destruct (Hw' i e') as (l2 & Hl2 & Hs2); [lia|done|].
  rewrite Hee in Hl1. simplify_eq. eapply same_trans; [done|by apply same_sym].
Qed.

Lemma wf_sorted l : wf_log h l → sorted l.
Proof using Hok.
  intros [H0 Hw] i j ti tj Hij Hi Hj.
  pose proof (term_at_bounds _ _ _ Hi). pose proof (term_at_bounds _ _ _ Hj).
  destruct (decide (j = 0)) as [->|Hne].
  { assert (i = 0) as -> by lia. rewrite Hi in Hj. injection Hj. lia. }
  pose proof Hj as (e & He & ->)%fmap_Some.
  destruct (Hw j e) as (l' & Hl' & Hs); [lia|done|].
  rewrite (same_term _ _ _ _ Hs Hij) in Hi. rewrite (same_term _ _ _ j Hs) in Hj by lia.
  by eapply (hk_sorted _ _ _ Hok).
Qed.

Lemma committed_blocked T i : committed h T i → ¬ blocked fl h T i.
Proof using Hok.
  intros (l & _ & _ & Q & HQ & HA) (B & HB & HN).
  destruct (majorities_meet n Q B HQ HB) as (q & Hq & Hb).
  destruct (HA q Hq) as (m & Hm & Ha). destruct (HN q Hb) as [_ Hlt].
  specialize (Hlt m Ha). lia.
Qed.

(** What is committed in a term is in the logs of the leaders of later terms. *)
Lemma committed_kept T T' i l l' :
  committed h T i → h_log h T = Some l → h_log h T' = Some l' → T <= T' → same l' l i.
Proof using Hok.
  intros Hc Hl Hl' HT. pose proof Hc as (l0 & Hl0 & Ht & _). simplify_eq.
  destruct (decide (T = T')) as [->|Hne].
  { simplify_eq. apply same_refl. pose proof (term_at_bounds _ _ _ Ht). lia. }
  destruct (hk_block _ _ _ Hok T T' l l' i Hl Hl') as [?|Hb]; [lia|done|done|].
  by eapply committed_blocked in Hb.
Qed.

(** The last entry of a peer that has entry [i] of term [T] is not older. *)
Lemma holds_up_to_date w l T i :
  wf_log h w → same w l i → term_at l i = Some T → up_to_date_with w T i.
Proof using Hok.
  intros Hw Hs Ht. pose proof (term_at_bounds _ _ _ Ht).
  rewrite <- (same_term _ _ _ _ Hs) in Ht by lia. destruct Hs as (Hlen & _ & _).
  destruct (term_at_is_Some w (zlen w - 1)) as [t Hlt]; [lia|]. exists t. split; [done|].
  pose proof (wf_sorted w Hw i (zlen w - 1) T t ltac:(lia) Ht Hlt).
  destruct (decide (T < t)); [by left|right; lia].
Qed.

(** A candidate that is up to date with an entry has it, or the entry is lost. *)
Lemma up_to_date_has r T i l :
  wf_log h r → up_to_date_with r T i → h_log h T = Some l → term_at l i = Some T →
  same r l i ∨ blocked fl h T i.
Proof using Hok.
  intros Hw (t & Ht & Hc) Hl Hi.
  destruct (hk_log _ _ _ Hok T l Hl) as (HT & _ & _).
  pose proof (term_at_bounds _ _ _ Ht). pose proof (term_at_bounds _ _ _ Hi).
  set (k := zlen r - 1) in *.
  assert (Hk : 0 < k).
  { destruct (decide (k = 0)) as [E|]; [|lia]. rewrite E in Ht.
    unfold term_at in Ht. destruct Hw as [Hs0 _]. rewrite Hs0 in Ht. simpl in Ht. simplify_eq. lia. }
  pose proof Ht as (e & He & ->)%fmap_Some.
  destruct Hw as [_ Hw]. destruct (Hw k e Hk He) as (lt & Hlt & Hs).
  destruct Hc as [Hlt'|[-> Hle]].
  - destruct (hk_block _ _ _ Hok T (le_Term e) l lt i) as [Hb|Hb]; [done..| |by right]. left.
    assert (i < k).
    { destruct (decide (i < k)) as [|Hge]; [done|]. exfalso.
      rewrite (same_term _ _ _ k Hs) in Ht by lia.
      rewrite <- (same_term _ _ _ i Hb) in Hi by lia.
      pose proof (hk_sorted _ _ _ Hok _ _ Hlt k i _ _ ltac:(lia) Ht Hi). lia. }
    eapply same_trans; [by apply (same_le _ _ k); [|lia]|done].
  - simplify_eq. left. by apply (same_le _ _ k).
Qed.

End Consequences.
End Invariant.
End History.
Arguments history : clear implicits.
