(* ===== verification/HistorySteps.v ===== *)
(** * Histories of a cluster: the steps

    The changes of a history that a step of the cluster makes, each a function,
    and that [hist_ok] is preserved by it: a peer gives up older terms
    ([hist_floor]), votes ([hist_grant]), starts an election ([hist_ask]), wins it
    ([hist_elect]), appends an entry as the leader ([hist_append]), replaces its log
    ([hist_full]) or acknowledges a prefix of a leader's log ([hist_ack]). *)
From stdpp Require Import base tactics list strings numbers option sets.
From Stdlib Require Import ZArith Lia.
From S2P Require Import Prelude.
From S2P Require Import RaftNode.
From S2P Require Import History.

Local Open Scope Z_scope.

Section Steps.
Context {Command : Type}.
Implicit Types (l w : list (LogEntry Command)) (i j m T : Z) (p q v z : nat).
Implicit Types (h : history Command).

(** ** The changes *)
Definition ghost_ask p T h : history Command :=
  mkHistory (h_log h) (h_leader h) (h_full h)
    (λ z T', if decide (z = p ∧ T' = T) then h_full h p else h_asked h z T') (h_acks h).

Definition ghost_elect p T h : history Command :=
  mkHistory (λ T', if decide (T' = T) then Some (h_asked h p T) else h_log h T')
    (λ T', if decide (T' = T) then p else h_leader h T') (h_full h) (h_asked h) (h_acks h).

Definition ghost_append p T (e : LogEntry Command) h : history Command :=
  mkHistory (λ T', if decide (T' = T) then Some (h_full h p ++ [e]) else h_log h T') (h_leader h)
    (λ v, if decide (v = p) then h_full h p ++ [e] else h_full h v) (h_asked h)
    ((p, T, zlen (h_full h p)) :: h_acks h).

Definition ghost_full p w h : history Command :=
  mkHistory (h_log h) (h_leader h) (λ v, if decide (v = p) then w else h_full h v)
    (h_asked h) (h_acks h).

Definition ghost_ack p T m h : history Command :=
  mkHistory (h_log h) (h_leader h) (h_full h) (h_asked h)
    ((p, T, m) :: h_acks h).

(** ** What only grows *)
Definition hist_ext h h' : Prop :=
  (∀ T l, h_log h T = Some l →
     h_leader h' T = h_leader h T ∧ ∃ l', h_log h' T = Some l' ∧ l `prefix_of` l') ∧
  ∀ v T m, h_ack h v T m → h_ack h' v T m.

Lemma hist_ext_refl h : hist_ext h h.
Proof. split; [|done]. intros T l Hl. split; [done|]. by exists l. Qed.

Lemma hist_ext_trans h1 h2 h3 : hist_ext h1 h2 → hist_ext h2 h3 → hist_ext h1 h3.
Proof.
  intros [H1 A1] [H2 A2]. split; [|auto]. intros T l Hl.
  destruct (H1 T l Hl) as (E1 & l1 & Hl1 & P1). destruct (H2 T l1 Hl1) as (E2 & l2 & Hl2 & P2).
  split; [congruence|]. exists l2. split; [done|by etrans].
Qed.

Lemma same_prefix l l' i : l `prefix_of` l' → i < zlen l → same l l' i.
Proof. intros [k ->]. apply same_app. Qed.

Lemma same_grow w l l' i : same w l i → l `prefix_of` l' → same w l' i.
Proof.
  intros Hs Hp. eapply same_trans; [done|]. apply same_prefix; [done|]. apply Hs.
Qed.

Lemma wf_log_ext h h' l : hist_ext h h' → wf_log h l → wf_log h' l.
Proof.
  intros [He _] [H0 Hw]. split; [done|]. intros i e Hi Hie.
  destruct (Hw i e Hi Hie) as (l1 & Hl1 & Hs). destruct (He _ _ Hl1) as (_ & l2 & Hl2 & Hp).
  exists l2. split; [done|]. by eapply same_grow.
Qed.

Lemma wf_log_same h h' l : h_log h' = h_log h → wf_log h l → wf_log h' l.
Proof. intros E [H0 Hw]. split; [done|]. by rewrite E. Qed.

Section Preservation.
Context (n : nat).

Lemma committed_ext h h' T i : hist_ext h h' → committed n h T i → committed n h' T i.
Proof.
  intros [He Ha] (l & Hl & Ht & Q & HQ & HA). destruct (He T l Hl) as (_ & l' & Hl' & Hp).
  exists l'. split; [done|]. pose proof (term_at_bounds _ _ _ Ht).
  split; [by rewrite <- (same_term _ _ i i (same_prefix l l' i Hp ltac:(lia)))|].
  exists Q. split; [done|]. intros q Hq. destruct (HA q Hq) as (m & Hm & Hack). eauto.
Qed.

(** New acknowledgements of a term come from peers that a restart would not take
    past it. *)
Lemma blocked_ext fl fl' h h' T i :
  (∀ v, fl v <= fl' v) → (∀ v m, h_ack h' v T m → h_ack h v T m ∨ fl v <= T) →
  blocked n fl h T i → blocked n fl' h' T i.
Proof.
  intros Hfl Ha (B & HB & HN). exists B. split; [done|]. intros v Hv.
  destruct (HN v Hv) as [Hlt Hm]. split; [specialize (Hfl v); lia|].
  intros m [H|H]%Ha; [by apply Hm|lia].
Qed.

Lemma hist_floor fl fl' vt h :
  (∀ v, fl v <= fl' v) → hist_ok n fl vt h → hist_ok n fl' vt h.
Proof.
  intros Hfl H. assert (Hb : ∀ T i, blocked n fl h T i → blocked n fl' h T i).
  { intros T i. apply blocked_ext; [done|]. by left. }
  constructor; try apply H.
  - intros v T z Hv. apply (hk_floor _ _ _ _ H) in Hv. specialize (Hfl v). lia.
  - intros v T m Ha. destruct (hk_ack _ _ _ _ H _ _ _ Ha) as [? ?]. split; [|done].
    specialize (Hfl v). lia.
  - intros v T m i l Ha Hi Hl Ht.
    destruct (hk_stable _ _ _ _ H _ _ _ _ _ Ha Hi Hl Ht); [by left|right; auto].
  - intros v T' z T m i l Hv Ha HT Hi Hl Ht.
    destruct (hk_vote _ _ _ _ H _ _ _ _ _ _ _ Hv Ha HT Hi Hl Ht); [by left|right; auto].
  - intros T T' l l' i Hl Hl' HT Ht.
    destruct (hk_block _ _ _ _ H _ _ _ _ _ Hl Hl' HT Ht); [by left|right; auto].
  - intros z T i t Hz Ht HT. destruct (hk_dead _ _ _ _ H _ _ _ _ Hz Ht HT) as (B & HB & HN).
    exists B. split; [done|]. intros v Hv. destruct (HN v Hv) as [? [?|?]]; [|by auto].
    split; [done|left]. specialize (Hfl v). lia.
Qed.

Lemma hist_votes fl vt vt' h :
  (∀ v T z, vt' v T z ↔ vt v T z) → hist_ok n fl vt h → hist_ok n fl vt' h.
Proof.
  intros Hvt H. constructor; try apply H.
  - intros T l Hl. destruct (hk_quorum _ _ _ _ H T l Hl) as (Q & HQ & HV). exists Q.
    split; [done|]. intros v Hv. by apply Hvt, HV.
  - intros v T z Hv%Hvt. by eapply hk_floor.
  - intros v T z z' H1%Hvt H2%Hvt. by eapply (hk_uniq _ _ _ _ H).
  - intros v T z Hv%Hvt. apply Hvt. by eapply (hk_self_vote _ _ _ _ H).
  - intros v T z Hv%Hvt. by eapply (hk_asked _ _ _ _ H).
  - intros v T' z T m i l Hv%Hvt. by eapply (hk_vote _ _ _ _ H).
  - intros z T i t Hz%Hvt Ht HT. destruct (hk_dead _ _ _ _ H _ _ _ _ Hz Ht HT) as (B & HB & HN).
    exists B. split; [done|]. intros v Hv. destruct (HN v Hv) as [Hno Ho].
    split; [by intros ?%Hvt|]. destruct Ho as [?|(z' & ? & ?)]; [by left|right].
    exists z'. split; [done|]. by apply Hvt.
Qed.

(** Peer [p] votes for [z] in term [T], which is now the term it keeps. *)
Lemma hist_grant fl vt vt' h p T z :
  hist_ok n fl vt h →
  (∀ v T' z', vt' v T' z' ↔ vt v T' z' ∨ v = p ∧ T' = T ∧ z' = z) →
  fl p = T → vt z T z → (∀ z', vt p T z' → z' = z) →
  (∀ t, term_at (h_full h p) (zlen (h_full h p) - 1) = Some t →
     ∃ t', term_at (h_asked h z T) (zlen (h_asked h z T) - 1) = Some t' ∧
           (t < t' ∨ t = t' ∧ zlen (h_full h p) <= zlen (h_asked h z T))) →
  hist_ok n fl vt' h.
Proof.
  intros H Hvt Hfl Hz Hone Hup. constructor; try apply H.
  - intros T' l Hl. destruct (hk_quorum _ _ _ _ H T' l Hl) as (Q & HQ & HV).
    exists Q. split; [done|]. intros v Hv. apply Hvt. left. auto.
  - intros v T' z' [Hv|(-> & -> & ->)]%Hvt; [by eapply hk_floor|lia].
  - intros v T' z1 z2 [H1|(-> & -> & ->)]%Hvt [H2|(E1 & E2 & E3)]%Hvt; subst; try done.
    + by eapply (hk_uniq _ _ _ _ H).
    + by apply Hone.
    + symmetry. by apply Hone.
  - intros v T' z' [Hv|(-> & -> & ->)]%Hvt; apply Hvt; left; [|done].
    by eapply (hk_self_vote _ _ _ _ H).
  - intros v T' z' [Hv|(-> & -> & ->)]%Hvt; by eapply (hk_asked _ _ _ _ H).
  - intros v T' z' T1 m i l [Hv|(-> & -> & ->)]%Hvt Ha HT Hi Hl Ht;
      [by eapply (hk_vote _ _ _ _ H)|].
    destruct (hk_stable _ _ _ _ H _ _ _ _ _ Ha Hi Hl Ht) as [Hs|?]; [left|by right].
    destruct (holds_up_to_date n fl vt h H _ l T1 i (hk_full _ _ _ _ H p) Hs Ht)
      as (t & Hlt & Hc).
    destruct (Hup t Hlt) as (t' & Ht' & Hc'). exists t'. split; [done|].
    destruct Hc as [Hc|[-> Hc]], Hc' as [Hc'|[-> Hc']]; [left; lia|by left|by left|right; lia].
  - intros z' T' i t [Hv|(-> & -> & ->)]%Hvt Ht HT.
    + destruct (hk_dead _ _ _ _ H _ _ _ _ Hv Ht HT) as (B & HB & HN). exists B.
      split; [done|]. intros v Hv'. destruct (HN v Hv') as [Hno Ho]. split.
      * intros [?|(-> & -> & ->)]%Hvt; [done|]. destruct Ho as [?|(z2 & Hne & Hz2)]; [lia|].
        by apply Hne, Hone.
      * destruct Ho as [?|(z2 & Hne & Hz2)]; [by left|right]. exists z2. split; [done|].
        apply Hvt. by left.
    + destruct (hk_dead _ _ _ _ H _ _ _ _ Hz Ht HT) as (B & HB & HN). exists B.
      split; [done|]. intros v Hv'. destruct (HN v Hv') as [Hno Ho]. split.
      * intros [?|(-> & _ & _)]%Hvt; [done|]. destruct Ho as [?|(z2 & Hne & Hz2)]; [lia|].
        by apply Hne, Hone.
      * destruct Ho as [?|(z2 & Hne & Hz2)]; [by left|right]. exists z2. split; [done|].
        apply Hvt. by left.
Qed.

(** Peer [p] starts an election in the new term [T], votes for itself and asks for
    votes with its log. *)
(** An entry of term [T] or later in the log of [p], that has not been in term [T]: a
    majority voted for somebody else. *)
Lemma ask_dead fl vt h p T i t :
  hist_ok n fl vt h → fl p < T → 0 < T → term_at (h_full h p) i = Some t → T <= t →
  ∃ B, majority_of n B ∧
    ∀ v, v ∈ B → v ≠ p ∧ ¬ vt v T p ∧ (T < fl v ∨ ∃ z, z ≠ p ∧ vt v T z).
Proof.
  intros H Hlt HT Ht HT'. assert (Hno : ∀ v, ¬ vt v T p).
  { intros v Hv. apply (hk_self_vote _ _ _ _ H), (hk_floor _ _ _ _ H) in Hv. lia. }
  pose proof (term_at_bounds _ _ _ Ht) as Hib. destruct (hk_full _ _ _ _ H p) as [Hs0 Hw].
  destruct (decide (i = 0)) as [->|Hi].
  { unfold term_at in Ht. rewrite Hs0 in Ht. simpl in Ht. simplify_eq. lia. }
  apply fmap_Some in Ht as (e & He & ->). destruct (Hw i e) as (l & Hl & _); [lia|done|].
  destruct (hk_quorum _ _ _ _ H _ _ Hl) as (Q & HQ & HV). exists Q. split; [done|].
  intros v Hv. pose proof (HV v Hv) as Hvv. pose proof (hk_floor _ _ _ _ H _ _ _ Hvv) as Hf.
  split_and!; [intros ->; lia|apply Hno|]. destruct (decide (le_Term e = T)) as [E|]; [|left; lia].
  right. exists (h_leader h T). rewrite E in Hvv. split; [|done]. intros Hx. rewrite Hx in Hvv. by eapply Hno.
Qed.

Lemma hist_ask fl fl' vt vt' h p T :
  hist_ok n fl vt h →
  (∀ v T' z', vt' v T' z' ↔ vt v T' z' ∨ v = p ∧ T' = T ∧ z' = p) →
  (∀ v, fl' v = if decide (v = p) then T else fl v) → fl p < T → 0 < T →
  hist_ok n fl' vt' (ghost_ask p T h).
Proof.
  intros H0 Hvt Hfl Hlt HT.
  assert (Hno : ∀ v, ¬ vt v T p).
  { intros v Hv. apply (hk_self_vote _ _ _ _ H0), (hk_floor _ _ _ _ H0) in Hv. lia. }
  assert (Hle : ∀ v, fl v <= fl' v) by (intros v; rewrite Hfl; case_decide; subst; lia).
  pose proof (hist_floor fl fl' vt h Hle H0) as H.
  assert (Hasked : ∀ v T' z, vt v T' z → h_asked (ghost_ask p T h) z T' = h_asked h z T').
  { intros v T' z Hv. simpl. rewrite decide_False; [done|]. intros [-> ->]. by eapply Hno. }
  assert (Hself : h_asked (ghost_ask p T h) p T = h_full h p)
    by (simpl; by rewrite decide_True).
  constructor; try apply H.
  - intros T' l Hl. destruct (hk_quorum _ _ _ _ H T' l Hl) as (Q & HQ & HV).
    exists Q. split; [done|]. intros v Hv. apply Hvt. left. by apply HV.
  - intros v T' z [Hv|(-> & -> & ->)]%Hvt; [by eapply (hk_floor _ _ _ _ H)|].
    rewrite Hfl, decide_True by done. done.
  - intros v T' z1 z2 [H1|(-> & -> & ->)]%Hvt [H2|(E1 & E2 & E3)]%Hvt; subst; try done.
    + by eapply (hk_uniq _ _ _ _ H).
    + apply (hk_floor _ _ _ _ H0) in H1. lia.
    + apply (hk_floor _ _ _ _ H0) in H2. lia.
  - intros v T' z [Hv|(-> & -> & ->)]%Hvt; apply Hvt; [left|by right].
    by eapply (hk_self_vote _ _ _ _ H).
  - intros v T' z [Hv|(-> & -> & ->)]%Hvt.
    + rewrite (Hasked _ _ _ Hv). by eapply (hk_asked _ _ _ _ H).
    + rewrite Hself. apply (hk_full _ _ _ _ H).
  - intros v T' z T1 m i l [Hv|(-> & -> & ->)]%Hvt Ha HT' Hi Hl Ht.
    + rewrite (Hasked _ _ _ Hv). by eapply (hk_vote _ _ _ _ H).
    + rewrite Hself.
      destruct (hk_stable _ _ _ _ H _ _ _ _ _ Ha Hi Hl Ht) as [Hs|?]; [left|by right].
      eapply (holds_up_to_date n fl' vt h H); [apply (hk_full _ _ _ _ H)|done|done].
  - intros z T' i t [Hv|(_ & -> & ->)]%Hvt Ht HT'.
    + rewrite (Hasked _ _ _ Hv) in Ht.
      destruct (hk_dead _ _ _ _ H _ _ _ _ Hv Ht HT') as (B & HB & HN). exists B.
      split; [done|]. intros v Hv'. destruct (HN v Hv') as [Hn Ho]. split.
      * intros [?|(-> & -> & ->)]%Hvt; [done|]. by apply (Hno p).
      * destruct Ho as [?|(z2 & ? & ?)]; [by left|right]. exists z2. split; [done|]. apply Hvt. by left.
    + rewrite Hself in Ht. destruct (ask_dead fl vt h p T i t H0 Hlt HT Ht HT') as (B & HB & HN).
      exists B. split; [done|]. intros v (Hvp & Hvt' & Ho)%HN.
      split; [intros [?|(? & _)]%Hvt; [by eapply Hno|done]|].
      destruct Ho as [?|(z & ? & ?)]; [left; specialize (Hle v); lia|right].
      exists z. split; [done|]. apply Hvt. by left.
Qed.

Lemma majority_inhabited Q : majority_of n Q → ∃ q, q ∈ Q.
Proof.
  intros (_ & HQ & _). destruct Q as [|q Q]; [|exists q; by left].
  unfold zlen in HQ. simpl in HQ. dlia.
Qed.

Lemma elect_ext h p T : h_log h T = None → hist_ext h (ghost_elect p T h).
Proof.
  intros HN. split; [|done]. intros T' l Hl. simpl.
  rewrite !decide_False by congruence. split; [done|]. by exists l.
Qed.

(** Peer [p] wins the election it started in term [T]. *)
(** All entries of an elected candidate are of earlier terms. *)
Lemma elected_terms fl vt h p T Q i t :
  hist_ok n fl vt h → majority_of n Q → (∀ v, v ∈ Q → vt v T p) → term_at (h_asked h p T) i = Some t → t < T.
Proof.
  intros H HQ HV Ht. destruct (decide (t < T)) as [|Hge]; [done|]. exfalso.
  destruct (majority_inhabited Q HQ) as (v0 & Hv0).
  pose proof (hk_self_vote _ _ _ _ H _ _ _ (HV v0 Hv0)) as Hpp.
  destruct (hk_dead _ _ _ _ H p T i t Hpp Ht) as (B & HB & Hno); [lia|].
  destruct (majorities_meet n Q B HQ HB) as (v & H1 & H2). by apply (proj1 (Hno v H2)), HV.
Qed.

Lemma hist_elect fl vt h p T Q :
  hist_ok n fl vt h → h_log h T = None → 0 < T →
  majority_of n Q → (∀ v, v ∈ Q → vt v T p) →
  hist_ok n fl vt (ghost_elect p T h).
Proof.
  intros H HN HT HQ HV. set (r := h_asked h p T). set (h' := ghost_elect p T h).
  pose proof (elect_ext h p T HN) as Hext. fold h' in Hext.
  destruct (majority_inhabited Q HQ) as (v0 & Hv0).
  pose proof (hk_self_vote _ _ _ _ H _ _ _ (HV v0 Hv0)) as Hpp.
  pose proof (hk_asked _ _ _ _ H _ _ _ Hpp) as Hwf. fold r in Hwf.
  pose proof (wf_sorted n fl vt h H r Hwf) as Hsort.
  assert (Hold : ∀ i t, term_at r i = Some t → t < T) by (intros i t; by apply (elected_terms fl vt h p T Q)).
  assert (Hlog : ∀ T' l, h_log h' T' = Some l → T' = T ∧ l = r ∨ T' ≠ T ∧ h_log h T' = Some l).
  { intros T' l. simpl. case_decide as E; intros Hl; [left|by right].
    split; [done|]. injection Hl as <-. by subst. }
  constructor; try apply H.
  - intros T' l [[-> ->]|[_ Hl]]%Hlog.
    + split_and!; [done|by eapply wf_log_ext|]. intros i t Ht. apply Hold in Ht. lia.
    + destruct (hk_log _ _ _ _ H _ _ Hl) as (H1 & H2 & H3). split_and!; [done| |done].
      by eapply wf_log_ext.
  - intros T' l [[-> ->]|[_ Hl]]%Hlog; [done|]. by eapply (hk_sorted _ _ _ _ H).
  - intros T' l Hl. simpl. apply Hlog in Hl as [[-> ->]|[Hne Hl]].
    + exists Q. rewrite decide_True by done. by split.
    + rewrite decide_False by done. by eapply (hk_quorum _ _ _ _ H).
  - intros v. by eapply wf_log_ext, (hk_full _ _ _ _ H).
  - intros v T' z Hv. by eapply wf_log_ext, (hk_asked _ _ _ _ H).
  - intros v T' m Ha. destruct (hk_ack _ _ _ _ H _ _ _ Ha) as (Hle & l & Hl & Hm).
    split; [done|]. exists l. split; [|done]. simpl. rewrite decide_False; [done|congruence].
  - intros T' l i Hl Ht. simpl. apply Hlog in Hl as [[-> ->]|[Hne Hl]].
    + apply Hold in Ht. lia.
    + rewrite decide_False by done. by eapply (hk_self _ _ _ _ H).
  - intros v T' m i l Ha Hi [[-> ->]|[Hne Hl]]%Hlog Ht; [apply Hold in Ht; lia|].
    by eapply (hk_stable _ _ _ _ H).
  - intros v T' z T1 m i l Hv Ha HT' Hi [[-> ->]|[Hne Hl]]%Hlog Ht; [apply Hold in Ht; lia|].
    by eapply (hk_vote _ _ _ _ H).
  - intros T1 T2 l1 l2 i [[-> ->]|[Hne1 Hl1]]%Hlog [[-> ->]|[Hne2 Hl2]]%Hlog HT12 Ht;
      [lia|apply Hold in Ht; lia| |by eapply (hk_block _ _ _ _ H)].
    destruct (acked_dec h Q T1 i) as [(v & m & Hv & Hm & Ha)|Hno].
    + destruct (hk_vote _ _ _ _ H v T p T1 m i l1) as [Hu|?]; [by apply HV|done..| |by right].
      by eapply (up_to_date_has n fl vt h H).
    + right. exists Q. split; [done|]. intros v Hv. split; [|intros m Ha; by eapply Hno].
      pose proof (hk_floor _ _ _ _ H _ _ _ (HV v Hv)). lia.
Qed.

Lemma ack_append p T e h v T' m :
  h_ack (ghost_append p T e h) v T' m ↔
  h_ack h v T' m ∨ v = p ∧ T' = T ∧ m = zlen (h_full h p).
Proof.
  unfold h_ack. simpl. rewrite elem_of_cons. split.
  - intros [[= -> -> ->]|?]; [by right|by left].
  - intros [?|(-> & -> & ->)]; [by right|by left].
Qed.

Lemma append_ext h p T e l :
  h_log h T = Some l → h_full h p = l → hist_ext h (ghost_append p T e h).
Proof.
  intros Hl Hf. split; [|intros v T' m Ha; apply ack_append; by left].
  intros T' l' Hl'. split; [done|]. simpl. case_decide as E; [subst T'|by exists l'].
  simplify_eq. eexists. split; [done|]. by eexists.
Qed.

(** The leader [p] of term [T] appends an entry of its term. *)
Section Append.
Context (fl : nat → Z) (vt : nat → Z → nat → Prop) (h : history Command) (p : nat) (T : Z)
  (e : LogEntry Command) (l : list (LogEntry Command)).
Context (H : hist_ok n fl vt h) (Hl : h_log h T = Some l) (Hld : h_leader h T = p) (Hf : h_full h p = l)
  (He : le_Term e = T) (Hfl : fl p = T).
Abbreviation h' := (ghost_append p T e h).
Abbreviation l' := (l ++ [e]).

Let Hext : hist_ext h h' := append_ext h p T e l Hl Hf.
Let Hpre : l `prefix_of` l' := prefix_app_r l l [e] (reflexivity l).

(** The logs of the leaders, before and after. *)
Lemma append_log T' l2 :
  h_log h' T' = Some l2 → ∃ l1, h_log h T' = Some l1 ∧ l1 `prefix_of` l2 ∧ (T' = T ∧ l1 = l ∧ l2 = l' ∨ T' ≠ T ∧ l2 = l1).
Proof using All.
  simpl. case_decide as E; intros Hl2.
  - exists l. subst T'. rewrite Hf in Hl2. injection Hl2 as <-. split_and!; [done|by eexists|by left].
  - exists l2. split_and!; [done|done|by right].
Qed.

Lemma append_at i t : term_at l' i = Some t → i = zlen l ∧ t = T ∨ i < zlen l ∧ term_at l i = Some t.
Proof using All.
  intros Ht. pose proof (term_at_bounds _ _ _ Ht) as Hb. unfold term_at in Ht. rewrite idx_snoc in Ht. case_decide as E.
  - left. split; [done|]. simpl in Ht. injection Ht as <-. exact He.
  - right. split; [|done]. rewrite zlen_app in Hb. unfold zlen in *. simpl in Hb. lia.
Qed.

Lemma append_blocked T' i : blocked n fl h T' i → blocked n fl h' T' i.
Proof using All.
  apply blocked_ext; [done|]. intros v m [?|(-> & -> & _)]%ack_append; [by left|]. right. lia.
Qed.

Lemma append_full_ne v : v ≠ p → h_full h' v = h_full h v.
Proof using All. intros Hv. simpl. by rewrite decide_False. Qed.

Lemma append_full : h_full h' p = l'.
Proof using All. simpl. rewrite decide_True by done. by rewrite Hf. Qed.

Lemma append_wf : wf_log h' l'.
Proof using All.
  destruct (hk_log _ _ _ _ H T l Hl) as (_ & [Hs0 Hw] & _). split.
  { rewrite idx_snoc, decide_False; [done|]. apply idx_Some_bounds in Hs0. lia. }
  intros i e' Hi Hie. rewrite idx_snoc in Hie. case_decide as E.
  - injection Hie as <-. exists l'. rewrite He. split; [simpl; by rewrite decide_True, Hf|].
    apply same_refl. rewrite zlen_app, zlen_cons, zlen_nil. lia.
  - destruct (Hw i e' Hi Hie) as (l1 & Hl1 & Hs).
    destruct (proj1 Hext _ _ Hl1) as (_ & l2 & Hl2 & Hp). exists l2. split; [done|].
    eapply same_grow; [|done]. apply same_sym. eapply same_grow; [|exact Hpre]. by apply same_sym.
Qed.

(** What a peer acknowledged before, in the log of the leader now. *)
Lemma append_acked v T' m i l1 l2 :
  h_ack h v T' m → i <= m → h_log h T' = Some l1 → l1 `prefix_of` l2 → term_at l2 i = term_at l1 i.
Proof using All.
  intros Ha Hi Hl1 Hp. destruct (hk_ack _ _ _ _ H _ _ _ Ha) as (_ & l0 & Hl0 & Hm).
  rewrite Hl1 in Hl0. injection Hl0 as <-. symmetry. apply (same_term l1 l2 i i); [|lia].
  apply same_prefix; [done|lia].
Qed.

Lemma append_grows v l2 i : same (h_full h v) l2 i → same (h_full h' v) l2 i.
Proof using All.
  intros Hs. destruct (decide (v = p)) as [->|Hv]; [|by rewrite append_full_ne].
  rewrite append_full. apply same_sym. eapply same_grow; [by apply same_sym|]. rewrite Hf. exact Hpre.
Qed.

Lemma append_logs T' l2 :
  h_log h' T' = Some l2 → 0 < T' ∧ wf_log h' l2 ∧ ∀ i t, term_at l2 i = Some t → t <= T'.
Proof using All.
  intros (l1 & Hl1 & _ & [(-> & -> & ->)|[Hne ->]])%append_log.
  - destruct (hk_log _ _ _ _ H T l Hl) as (HT & _ & Hle). split_and!; [done|apply append_wf|].
    intros i t [[_ ->]|[_ Ht]]%append_at; [lia|by eapply Hle].
  - destruct (hk_log _ _ _ _ H _ _ Hl1) as (H1 & H2 & H3). split_and!; [done|by eapply wf_log_ext|done].
Qed.

Lemma append_sorted T' l2 : h_log h' T' = Some l2 → sorted l2.
Proof using All.
  intros (l1 & Hl1 & _ & [(-> & -> & ->)|[Hne ->]])%append_log; [|by eapply (hk_sorted _ _ _ _ H)].
  destruct (hk_log _ _ _ _ H T l Hl) as (_ & _ & Hle). intros i j ti tj Hij Hi Hj.
  apply append_at in Hi as [[-> ->]|[Hi1 Hi]], Hj as [[-> ->]|[Hj1 Hj]]; [lia|lia| |].
  - by eapply Hle.
  - by eapply (hk_sorted _ _ _ _ H T l Hl i j).
Qed.

Lemma append_acks v T' m : h_ack h' v T' m → T' <= fl v ∧ ∃ l2, h_log h' T' = Some l2 ∧ m < zlen l2.
Proof using All.
  intros [Ha|(-> & -> & ->)]%ack_append.
  - destruct (hk_ack _ _ _ _ H _ _ _ Ha) as (Hle & l1 & Hl1 & Hm). split; [done|].
    destruct (proj1 Hext _ _ Hl1) as (_ & l2 & Hl2 & Hp). exists l2. split; [done|].
    apply prefix_length in Hp. unfold zlen in *. lia.
  - split; [lia|]. exists l'. split; [simpl; by rewrite decide_True, Hf|]. rewrite Hf.
    rewrite zlen_app, zlen_cons, zlen_nil. lia.
Qed.

Lemma append_self T' l2 i : h_log h' T' = Some l2 → term_at l2 i = Some T' → h_ack h' (h_leader h T') T' i.
Proof using All.
  intros (l1 & Hl1 & _ & [(-> & -> & ->)|[Hne ->]])%append_log Ht; apply ack_append.
  - apply append_at in Ht as [[-> _]|[_ Ht]]; [right; by rewrite Hf|left]. by eapply (hk_self _ _ _ _ H).
  - left. by eapply (hk_self _ _ _ _ H).
Qed.

Lemma append_stable v T' m i l2 :
  h_ack h' v T' m → i <= m → h_log h' T' = Some l2 → term_at l2 i = Some T' →
  same (h_full h' v) l2 i ∨ blocked n fl h' T' i.
Proof using All.
  intros Ha Hi (l1 & Hl1 & Hp & Hc)%append_log Ht. apply ack_append in Ha as [Ha|(-> & -> & ->)].
  - rewrite (append_acked _ _ _ _ _ _ Ha Hi Hl1 Hp) in Ht.
    destruct (hk_stable _ _ _ _ H _ _ _ _ _ Ha Hi Hl1 Ht) as [Hs|Hb]; [left|right; by apply append_blocked].
    eapply same_grow; [by apply append_grows|done].
  - left. rewrite append_full. destruct Hc as [(_ & -> & ->)|[? _]]; [|done].
    apply same_refl. apply term_at_bounds in Ht. lia.
Qed.

Lemma append_vote v T' z T1 m i l2 :
  vt v T' z → h_ack h' v T1 m → T1 < T' → i <= m → h_log h' T1 = Some l2 → term_at l2 i = Some T1 →
  up_to_date_with (h_asked h z T') T1 i ∨ blocked n fl h' T1 i.
Proof using All.
  intros Hv Ha HT1 Hi (l1 & Hl1 & Hp & _)%append_log Ht. apply ack_append in Ha as [Ha|(-> & -> & ->)].
  - rewrite (append_acked _ _ _ _ _ _ Ha Hi Hl1 Hp) in Ht.
    destruct (hk_vote _ _ _ _ H _ _ _ _ _ _ _ Hv Ha HT1 Hi Hl1 Ht); [by left|right; by apply append_blocked].
  - apply (hk_floor _ _ _ _ H) in Hv. lia.
Qed.

(** The new entry is not committed when a later term has a leader. *)
Lemma append_new_blocked T' l2 : h_log h T' = Some l2 → T < T' → blocked n fl h' T (zlen l).
Proof using All.
  intros Hl2 HT. destruct (hk_quorum _ _ _ _ H _ _ Hl2) as (Q & HQ & HV). exists Q. split; [done|].
  intros v Hv. pose proof (hk_floor _ _ _ _ H _ _ _ (HV v Hv)). split; [lia|].
  intros m [Ha|(-> & _)]%ack_append; [|lia].
  destruct (hk_ack _ _ _ _ H _ _ _ Ha) as (_ & l0 & Hl0 & Hm). rewrite Hl in Hl0. by injection Hl0 as <-.
Qed.

Lemma append_block T1 T2 l1' l2' i :
  h_log h' T1 = Some l1' → h_log h' T2 = Some l2' → T1 < T2 → term_at l1' i = Some T1 →
  same l2' l1' i ∨ blocked n fl h' T1 i.
Proof using All.
  intros (l1 & Hl1 & Hp1 & Hc1)%append_log (l2 & Hl2 & Hp2 & _)%append_log HT12 Ht.
  assert (Hcase : T1 = T ∧ i = zlen l ∨ i < zlen l1).
  { destruct Hc1 as [(-> & -> & ->)|[_ ->]];
      [apply append_at in Ht as [[? _]|[? _]]; [by left|by right]|right; apply term_at_bounds in Ht; lia]. }
  destruct Hcase as [[-> ->]|Hi]; [right; by eapply append_new_blocked|].
  rewrite <- (same_term l1 l1' i i) in Ht by first [lia | by apply same_prefix].
  destruct (hk_block _ _ _ _ H _ _ _ _ _ Hl1 Hl2 HT12 Ht) as [Hs|Hb]; [left|right; by apply append_blocked].
  eapply same_grow; [|done]. apply same_sym. eapply same_grow; [|done]. by apply same_sym.
Qed.

Lemma hist_append : hist_ok n fl vt h'.
Proof using All.
  constructor; try apply H.
  - apply append_logs.
  - apply append_sorted.
  - intros T' l2 (l1 & Hl1 & _)%append_log. by eapply (hk_quorum _ _ _ _ H).
  - intros v. destruct (decide (v = p)) as [->|Hv]; [rewrite append_full; apply append_wf|].
    rewrite append_full_ne by done. eapply wf_log_ext; [done|]. by apply (hk_full _ _ _ _ H).
  - intros v T' z Hv. eapply wf_log_ext; [done|]. by eapply (hk_asked _ _ _ _ H).
  - apply append_acks.
  - apply append_self.
  - apply append_stable.
  - apply append_vote.
  - apply append_block.
Qed.

End Append.

Lemma full_ext h p w : hist_ext h (ghost_full p w h).
Proof. split; [|done]. intros T l Hl. split; [done|]. by exists l. Qed.

(** The log of [p] becomes [w]; the entries it acknowledged stay or are lost. *)
Lemma hist_full fl vt h p w :
  hist_ok n fl vt h → wf_log h w →
  (∀ T m i l, h_ack h p T m → i <= m → h_log h T = Some l → term_at l i = Some T →
     same (h_full h p) l i → same w l i ∨ blocked n fl h T i) →
  hist_ok n fl vt (ghost_full p w h).
Proof.
  intros H Hw Hkeep. constructor; try apply H.
  - intros v. eapply wf_log_ext; [apply full_ext|]. simpl.
    case_decide; [done|apply (hk_full _ _ _ _ H)].
  - intros v T m i l Ha Hi Hl Ht.
    destruct (hk_stable _ _ _ _ H _ _ _ _ _ Ha Hi Hl Ht) as [Hs|?]; [|by right].
    simpl. case_decide as E; [subst v|by left]. by eapply Hkeep.
Qed.

Lemma ack_cons h p T m v T' m' :
  h_ack (ghost_ack p T m h) v T' m' ↔ h_ack h v T' m' ∨ v = p ∧ T' = T ∧ m' = m.
Proof.
  unfold h_ack. simpl. rewrite elem_of_cons. split.
  - intros [[= -> -> ->]|?]; [by right|by left].
  - intros [?|(-> & -> & ->)]; [by right|by left].
Qed.

Lemma ack_ext h p T m : hist_ext h (ghost_ack p T m h).
Proof.
  split; [|intros v T' m' Ha; apply ack_cons; by left].
  intros T' l Hl. split; [done|]. by exists l.
Qed.

(** Peer [p], which keeps term [T], acknowledges the log of its leader up to [m]. *)
Lemma hist_acked fl vt h p T m l :
  hist_ok n fl vt h → fl p = T → h_log h T = Some l → same (h_full h p) l m →
  hist_ok n fl vt (ghost_ack p T m h).
Proof.
  intros H Hfl Hl Hs.
  assert (Hbl : ∀ T' i, blocked n fl h T' i → blocked n fl (ghost_ack p T m h) T' i).
  { intros T' i. apply blocked_ext; [done|]. intros v m' [?|(-> & -> & _)]%ack_cons; [by left|].
    right. lia. }
  constructor; try apply H.
  - intros v T' m' [Ha|(-> & -> & ->)]%ack_cons; [by apply (hk_ack _ _ _ _ H)|].
    split; [lia|]. exists l. split; [done|]. apply Hs.
  - intros T' l' i Hl' Ht. apply ack_cons. left. by apply (hk_self _ _ _ _ H T' l' i).
  - intros v T' m' i l' [Ha|(-> & -> & ->)]%ack_cons Hi Hl' Ht.
    + destruct (hk_stable _ _ _ _ H _ _ _ _ _ Ha Hi Hl' Ht); [by left|right; by apply Hbl].
    + left. cbn [ghost_ack h_log] in Hl'. rewrite Hl in Hl'. injection Hl' as <-. by eapply same_le.
  - intros v T' z T1 m' i l' Hv [Ha|(-> & -> & ->)]%ack_cons HT Hi Hl' Ht.
    + destruct (hk_vote _ _ _ _ H _ _ _ _ _ _ _ Hv Ha HT Hi Hl' Ht); [by left|right; by apply Hbl].
    + apply (hk_floor _ _ _ _ H) in Hv. lia.
  - intros T1 T2 l1 l2 i Hl1 Hl2 HT Ht.
    destruct (hk_block _ _ _ _ H _ _ _ _ _ Hl1 Hl2 HT Ht); [by left|right; by apply Hbl].
Qed.

(** ** Prefixes that are committed for good *)

(** The entries of [s] up to [i] are committed in a term up to [t]. *)
Definition stable h t s i : Prop :=
  idx s 0 = Some sentinel ∧ 0 <= i < zlen s ∧
  (i = 0 ∨ ∃ T k l, T <= t ∧ i <= k ∧ committed n h T k ∧ h_log h T = Some l ∧ same s l i).

Lemma stable_le h t s i t' j : stable h t s i → t <= t' → 0 <= j <= i → stable h t' s j.
Proof.
  intros (H0 & Hi & Hc) Ht Hj. split_and!; [done|lia|lia|].
  destruct Hc as [->|(T & k & l & ? & ? & ? & ? & ?)]; [left; lia|right].
  exists T, k, l. split_and!; [lia|lia|done|done|eapply same_le; [done|lia]].
Qed.

Lemma stable_ext h h' t s i : hist_ext h h' → stable h t s i → stable h' t s i.
Proof.
  intros Hext (H0 & Hi & Hc). split_and!; [done|lia|lia|].
  destruct Hc as [->|(T & k & l & ? & ? & ? & Hl & ?)]; [by left|right].
  destruct (proj1 Hext _ _ Hl) as (_ & l' & Hl' & Hp).
  exists T, k, l'. split_and!; [done|done|by eapply committed_ext|done|by eapply same_grow].
Qed.

Lemma stable_same h t s w i : stable h t s i → same s w i → stable h t w i.
Proof.
  intros (H0 & Hi & Hc) Hs. pose proof Hs as (_ & Hw & Heq).
  split_and!; [rewrite <- Heq by lia; done|lia|lia|].
  destruct Hc as [->|(T & k & l & ? & ? & ? & ? & ?)]; [by left|right].
  exists T, k, l. split_and!; [done..|]. eapply same_trans; [by apply same_sym|done].
Qed.

Lemma stable_zero h t w : wf_log h w → stable h t w 0.
Proof.
  intros [H0 _]. pose proof (idx_Some_bounds _ _ _ H0). split_and!; [done|lia|lia|by left].
Qed.

Lemma stable_commit h t T l i :
  T <= t → committed n h T i → h_log h T = Some l → wf_log h l → stable h t l i.
Proof.
  intros HT Hc Hl [H0 _]. pose proof Hc as (l' & Hl' & Ht & _). rewrite Hl in Hl'.
  injection Hl' as <-. apply term_at_bounds in Ht. split_and!; [done|lia|lia|right].
  exists T, i, l. split_and!; [done|lia|done|done|]. apply same_refl. lia.
Qed.

Lemma same_zero w w' : idx w 0 = Some sentinel → idx w' 0 = Some sentinel → same w w' 0.
Proof.
  intros H H'. pose proof (idx_Some_bounds _ _ _ H). pose proof (idx_Some_bounds _ _ _ H').
  unfold same. split_and!; [lia|lia|].
  intros j Hj. destruct (decide (j = 0)) as [->|]; [congruence|]. by rewrite !idx_neg by lia.
Qed.

Section Stable.
Context (fl : nat → Z) (vt : nat → Z → nat → Prop) (h : history Command) (Hok : hist_ok n fl vt h).

(** Leaders of later terms have it. *)
Lemma stable_leader t s i T l : stable h t s i → h_log h T = Some l → t <= T → same s l i.
Proof using Hok.
  intros (H0 & Hi & Hc) Hl Ht. destruct (hk_log _ _ _ _ Hok _ _ Hl) as (_ & [Hl0 _] & _).
  destruct Hc as [->|(T1 & k & l1 & HT1 & Hk & Hcm & Hl1 & Hs)]; [by apply same_zero|].
  eapply same_trans; [done|]. apply same_sym. eapply same_le; [|done].
  eapply (committed_kept n fl vt h Hok T1 T k l1 l); [done..|lia].
Qed.

(** Any two agree. *)
Lemma stable_agree t t' s s' i i' j :
  stable h t s i → stable h t' s' i' → j <= i → j <= i' → same s s' j.
Proof using Hok.
  intros (H0 & Hi & Hc) (H0' & Hi' & Hc') Hj Hj'.
  destruct Hc as [->|(T & k & l & HT & Hk & Hcm & Hl & Hs)];
    [eapply same_le; [by apply same_zero|lia]|].
  destruct Hc' as [->|(T' & k' & l' & HT' & Hk' & Hcm' & Hl' & Hs')];
    [eapply same_le; [by apply same_zero|lia]|].
  eapply same_trans; [eapply same_le; [done|lia]|]. eapply same_trans; [|apply same_sym; eapply same_le; [done|lia]].
  destruct (decide (T <= T')).
  - apply same_sym. eapply same_le; [eapply (committed_kept n fl vt h Hok T T' k); done|lia].
  - eapply same_le; [eapply (committed_kept n fl vt h Hok T' T k'); done || lia|lia].
Qed.

(** What the leader of [T] replicated on a majority is stable. *)
Lemma stable_new T l i Q :
  h_log h T = Some l → term_at l i = Some T → majority_of n Q →
  (∀ q, q ∈ Q → (∃ m, i <= m ∧ h_ack h q T m) ∨ ∃ s, stable h T s i) → stable h T l i.
Proof using Hok.
  intros Hl Ht HQ HV. destruct (hk_log _ _ _ _ Hok _ _ Hl) as (_ & Hwf & Hle).
  assert (Hs : (∃ s, stable h T s i) ∨ ∀ q, q ∈ Q → ∃ m, i <= m ∧ h_ack h q T m).
  { clear HQ. induction Q as [|q Q IH]; [right; by intros q ?%not_elem_of_nil|].
    destruct IH as [?|IH]; [intros q' Hq'; apply HV; by right|by left|].
    destruct (HV q) as [Hq|?]; [by left| |by left].
    right. intros q' [->|?]%elem_of_cons; [done|by apply IH]. }
  destruct Hs as [(s & Hs)|Ha].
  - eapply stable_same; [done|]. by eapply stable_leader.
  - eapply stable_commit; [done| |done|done]. exists l. split_and!; [done..|]. by exists Q.
Qed.

End Stable.

(** ** The beginning *)
Definition hist_init : history Command :=
  mkHistory (λ _, None) (λ _, O) (λ _, [sentinel]) (λ _ _, [sentinel]) [].

Lemma wf_sentinel h : wf_log h [sentinel].
Proof.
  split; [done|]. intros i e Hi He. apply idx_Some_bounds in He. unfold zlen in He. simpl in He. lia.
Qed.

Lemma hist_init_ok fl vt : (∀ v T z, ¬ vt v T z) → hist_ok n fl vt hist_init.
Proof.
  intros Hno. assert (Hack : ∀ v T m, ¬ h_ack hist_init v T m)
    by (intros v T m ?%not_elem_of_nil; done).
  constructor; try done; intros; try (by apply wf_sentinel); exfalso; naive_solver.
Qed.

End Preservation.
End Steps.
