(* ===== verification/Cluster.v ===== *)
(** * internal/raft: the peers of a cluster together

    A cluster is the list of its peers, the goroutines they run and the
    messages between them.  One event runs one critical section of one
    goroutine, serves one RPC, or starts, stops or restarts a peer:

    - a goroutine is a [thread]; the loops of raft.go ([electionTimeoutLoop],
      [applyLoop], [heartbeatLoop]) and the closures it starts with [go] are
      threads, with the variables they have captured;
    - [votes] and [term] of one [startElection] call are captured by all its
      goroutines: they are a cell of [elections];
    - requests and replies are never removed: the network may delay, reorder,
      lose and duplicate them.  [RPCAdapter] and [Peer.Call] are the events
      [EvServe], [EvReply] and [EvCallFail];
    - a crash, or a Go panic (a handler that returns [None]), is the restart of
      the peer from its persister: its goroutines are gone, what it sent is not;
    - which event comes next, the clock and the random timeouts are arbitrary. *)
From stdpp Require Import base tactics list strings numbers option sets.
From Stdlib Require Import ZArith Lia.
From S2P Require Import Prelude.
From S2P Require Import Gob.
From S2P Require Import Persister.
From S2P Require Import RaftNode.
From S2P Require Import RaftLog.
From S2P Require Import RaftOps.

Local Open Scope Z_scope.

(** The captured variables of one call of [startElection]. *)
Record election := mkElection { el_cand : nat; el_term : Z; el_votes : Z }.

Section Model.
Context {Command : Type}.
Context {gobZ : Gob Z} {gobLog : Gob (list (LogEntry Command))}.

Inductive rpc :=
| CallVote (args : RequestVoteArgs)
| CallAppend (args : AppendEntriesArgs Command)
| CallSnapshot (args : InstallSnapshotArgs).

Inductive rpc_reply :=
| ReplyVote (reply : RequestVoteReply)
| ReplyAppend (reply : AppendEntriesReply)
| ReplySnapshot (reply : InstallSnapshotReply).

(** [p] is the peer a thread belongs to, [req] the request it waits for. *)
Inductive thread :=
| TElectionLoop (p : nat)
| TApplyLoop (p : nat) (pc : apply_pc)
| TVote (p cell peer : nat) (args : RequestVoteArgs)
| TVoteCall (p cell peer req : nat)
| THeartbeatLoop (p : nat)
| TSendHeartbeats (p : nat) (loop : bool)
| TBeat (p peer : nat) (term leaderId commit : Z)
| TAppendCall (p peer req : nat) (args : AppendEntriesArgs Command)
| TSnapshotCall (p peer req : nat) (args : InstallSnapshotArgs).

Definition t_node (t : thread) : nat :=
  match t with
  | TElectionLoop p | TApplyLoop p _ | TVote p _ _ _ | TVoteCall p _ _ _ | THeartbeatLoop p
  | TSendHeartbeats p _ | TBeat p _ _ _ _ | TAppendCall p _ _ _ | TSnapshotCall p _ _ _ => p
  end.

Record cluster := mkCluster {
  nodes : list (Raft Command);
  elections : list election;
  threads : list thread;
  net : list (nat * rpc);                  (* destination and request *)
  replies : list (nat * rpc_reply);        (* request index and reply *)
  applied : list (nat * ApplyMsg Command)  (* peer and message sent on its applyCh *)
}.

Inductive event :=
| EvElection (k : nat) (now sleepDuration : Z)
| EvRun (k : nat)
| EvServe (i : nat) (now : Z)
| EvReply (k j : nat)
| EvCallFail (k : nat)
| EvStart (p : nat) (command : option Command)
| EvSnapshot (p : nat) (index : Z) (snap : bytes)
| EvKill (p : nat)
| EvRestart (p : nat) (now : Z).

(** Thread [k] is replaced by [ts]. *)
Definition respawn (k : nat) (ts l : list thread) : list thread := delete k l ++ ts.

(** The goroutines of one [sendHeartbeats] call. *)
Definition beats (p : nat) (rf : Raft Command) : list thread :=
  let '(term, leaderId, commit, ps) := sendHeartbeats rf in
  (λ peer, TBeat p peer term leaderId commit) <$> ps.

(** One turn of [electionTimeoutLoop]. *)
Definition runElection (c : cluster) (k : nat) (now d : Z) : option cluster :=
  match threads c !! k with
  | Some (TElectionLoop p) =>
      rf ← nodes c !! p;
      '(rf', started) ← electionTimeout rf now d;
      let loop := if killed rf' then [] else [TElectionLoop p] in
      match started with
      | None =>
          Some (mkCluster (<[p := rf']> (nodes c)) (elections c) (respawn k loop (threads c))
                  (net c) (replies c) (applied c))
      | Some (term, calls) =>
          let cell := length (elections c) in
          Some (mkCluster (<[p := rf']> (nodes c)) (elections c ++ [mkElection p term 1])
                  (respawn k (loop ++ ((λ '(peer, args), TVote p cell peer args) <$> calls))
                     (threads c))
                  (net c) (replies c) (applied c))
      end
  | _ => None
  end.

(** One critical section of another goroutine, up to the call it makes. *)
Definition runThread (c : cluster) (k : nat) : option cluster :=
  let req := length (net c) in
  match threads c !! k with
  | Some (TVote p cell peer args) =>
      Some (mkCluster (nodes c) (elections c) (respawn k [TVoteCall p cell peer req] (threads c))
              (net c ++ [(peer, CallVote args)]) (replies c) (applied c))
  | Some (THeartbeatLoop p) =>
      rf ← nodes c !! p;
      let ts := if killed rf then []
                else if decide (state rf = Leader) then [TSendHeartbeats p true] else [] in
      Some (mkCluster (nodes c) (elections c) (respawn k ts (threads c)) (net c) (replies c)
              (applied c))
  | Some (TSendHeartbeats p loop) =>
      rf ← nodes c !! p;
      let ts := beats p rf ++ (if loop then [THeartbeatLoop p] else []) in
      Some (mkCluster (nodes c) (elections c) (respawn k ts (threads c)) (net c) (replies c)
              (applied c))
  | Some (TBeat p peer term leaderId commit) =>
      rf ← nodes c !! p;
      action ← heartbeatBegin rf peer term leaderId commit;
      Some match action with
      | HBStop => mkCluster (nodes c) (elections c) (respawn k [] (threads c)) (net c) (replies c)
                    (applied c)
      | HBSnapshot args =>
          mkCluster (nodes c) (elections c)
            (respawn k [TSnapshotCall p peer req args] (threads c))
            (net c ++ [(peer, CallSnapshot args)]) (replies c) (applied c)
      | HBAppend args =>
          mkCluster (nodes c) (elections c)
            (respawn k [TAppendCall p peer req args] (threads c))
            (net c ++ [(peer, CallAppend args)]) (replies c) (applied c)
      end
  | Some (TApplyLoop p pc) =>
      rf ← nodes c !! p;
      '(msg, rf', pc') ← applyLoop_step rf pc;
      let ts := match pc' with
                | ApplyTop => if killed rf' then [] else [TApplyLoop p pc']
                | ApplyInner => [TApplyLoop p pc']
                end in
      Some (mkCluster (<[p := rf']> (nodes c)) (elections c) (respawn k ts (threads c))
              (net c) (replies c)
              (applied c ++ match msg with Some m => [(p, m)] | None => [] end))
  | _ => None
  end.

(** The handler of request [i] runs on its destination. *)
Definition serve (c : cluster) (i : nat) (now : Z) : option cluster :=
  '(p, call) ← net c !! i;
  rf ← nodes c !! p;
  '(rf', r) ← (match call with
               | CallVote args => '(rf', r) ← RequestVote rf args now; Some (rf', ReplyVote r)
               | CallAppend args => '(rf', r) ← AppendEntries rf args now; Some (rf', ReplyAppend r)
               | CallSnapshot args =>
                   '(rf', r) ← InstallSnapshot rf args now; Some (rf', ReplySnapshot r)
               end);
  Some (mkCluster (<[p := rf']> (nodes c)) (elections c) (threads c) (net c)
          (replies c ++ [(i, r)]) (applied c)).

(** Thread [k], which waits for a request, gets reply [j] to it. *)
Definition receive (c : cluster) (k j : nat) : option cluster :=
  '(i, r) ← replies c !! j;
  t ← threads c !! k;
  match t, r with
  | TVoteCall p cell peer req, ReplyVote reply =>
      if decide (i = req) then
        rf ← nodes c !! p;
        e ← elections c !! cell;
        let '(rf', votes, won) := handleVoteReply rf (el_term e) (el_votes e) reply in
        Some (mkCluster (<[p := rf']> (nodes c))
                (<[cell := mkElection (el_cand e) (el_term e) votes]> (elections c))
                (respawn k (if won then [THeartbeatLoop p] else []) (threads c))
                (net c) (replies c) (applied c))
      else None
  | TAppendCall p peer req args, ReplyAppend reply =>
      if decide (i = req) then
        rf ← nodes c !! p;
        rf' ← handleAppendReply rf peer args reply;
        Some (mkCluster (<[p := rf']> (nodes c)) (elections c) (respawn k [] (threads c))
                (net c) (replies c) (applied c))
      else None
  | TSnapshotCall p peer req args, ReplySnapshot reply =>
      if decide (i = req) then
        rf ← nodes c !! p;
        rf' ← handleSnapshotReply rf peer args reply;
        Some (mkCluster (<[p := rf']> (nodes c)) (elections c) (respawn k [] (threads c))
                (net c) (replies c) (applied c))
      else None
  | _, _ => None
  end.

(** The call thread [k] waits for returned an error. *)
Definition callFails (c : cluster) (k : nat) : option cluster :=
  match threads c !! k with
  | Some (TVoteCall _ _ _ _) | Some (TAppendCall _ _ _ _) | Some (TSnapshotCall _ _ _ _) =>
      Some (mkCluster (nodes c) (elections c) (respawn k [] (threads c)) (net c) (replies c)
              (applied c))
  | _ => None
  end.

Definition callStart (c : cluster) (p : nat) (command : option Command) : option cluster :=
  rf ← nodes c !! p;
  let '(_, _, ok, rf') := Start rf command in
  Some (mkCluster (<[p := rf']> (nodes c)) (elections c)
          (threads c ++ if ok then [TSendHeartbeats p false] else [])
          (net c) (replies c) (applied c)).

Definition callSnapshot (c : cluster) (p : nat) (index : Z) (snap : bytes) : option cluster :=
  rf ← nodes c !! p;
  rf' ← Snapshot rf index snap;
  Some (mkCluster (<[p := rf']> (nodes c)) (elections c) (threads c) (net c) (replies c)
          (applied c)).

Definition callKill (c : cluster) (p : nat) : option cluster :=
  rf ← nodes c !! p;
  Some (mkCluster (<[p := Kill rf]> (nodes c)) (elections c) (threads c) (net c) (replies c)
          (applied c)).

Definition loops (p : nat) : list thread := [TElectionLoop p; TApplyLoop p ApplyTop].

Definition restart (c : cluster) (p : nat) (now : Z) : option cluster :=
  rf ← nodes c !! p;
  Some (mkCluster (<[p := Make (peers rf) p (persister rf) now]> (nodes c)) (elections c)
          (List.filter (λ t, negb (t_node t =? p)%nat) (threads c) ++ loops p)
          (net c) (replies c) (applied c)).

Definition cluster_step (c : cluster) (ev : event) : option cluster :=
  match ev with
  | EvElection k now d => runElection c k now d
  | EvRun k => runThread c k
  | EvServe i now => serve c i now
  | EvReply k j => receive c k j
  | EvCallFail k => callFails c k
  | EvStart p command => callStart c p command
  | EvSnapshot p index snap => callSnapshot c p index snap
  | EvKill p => callKill c p
  | EvRestart p now => restart c p now
  end.

Fixpoint cluster_run (c : cluster) (evs : list event) : option cluster :=
  match evs with
  | [] => Some c
  | ev :: evs' => c' ← cluster_step c ev; cluster_run c' evs'
  end.

(** Every peer made with an empty persister. *)
Definition cluster_init (ps : list Peer) (now : Z) : cluster :=
  mkCluster ((λ p, Make ps p MakePersister now) <$> seq 0 (length ps)) []
    (seq 0 (length ps) ≫= loops) [] [] [].

Definition reachable (ps : list Peer) (now : Z) (c : cluster) : Prop :=
  ∃ evs, cluster_run (cluster_init ps now) evs = Some c.

Definition is_leader (c : cluster) (p : nat) (term : Z) : Prop :=
  ∃ rf, nodes c !! p = Some rf ∧ state rf = Leader ∧ currentTerm rf = term.

End Model.
Arguments rpc Command : clear implicits.
Arguments rpc_reply : clear implicits.
Arguments thread Command : clear implicits.
Arguments cluster Command : clear implicits.
Arguments event Command : clear implicits.
