(* ===== verification/ClusterVotes.v ===== *)
(** * How one operation changes a peer's term, vote and role

    [vstep] summarises every operation of RaftNode.v for the election argument
    of ClusterSafety.v: what a restart would give back ([boot]) is the term and
    vote in memory, or an older term that the peer has left without voting in the
    newer one (after an InstallSnapshot, which does not persist the term). *)
From stdpp Require Import base tactics list strings numbers option sets.
From Stdlib Require Import ZArith Lia.
From S2P Require Import Prelude.
From S2P Require Import Gob.
From S2P Require Import Persister.
From S2P Require Import RaftNode.
From S2P Require Import RaftLog.
From S2P Require Import RaftOps.

Local Open Scope Z_scope.

Section Votes.
Context {Command : Type}.
Context {gobZ : Gob Z} {gobLog : Gob (list (LogEntry Command))}.
Implicit Types (rf : Raft Command).

(** Term and vote after a restart. *)
Definition boot_of (ps : Persister) : Z * Z :=
  let r := Make [] 0 ps 0 : Raft Command in (currentTerm r, votedFor r).
Definition boot rf : Z * Z := boot_of (persister rf).
Definition tv rf : Z * Z := (currentTerm rf, votedFor rf).
Arguments boot_of : simpl never.
Arguments boot : simpl never.

Definition boot_ok rf : Prop :=
  fst (boot rf) <= currentTerm rf ∧
  (fst (boot rf) = currentTerm rf → snd (boot rf) = votedFor rf) ∧
  (fst (boot rf) < currentTerm rf → votedFor rf = -1).

Lemma Make_tv ps me p now : tv (Make ps me p now) = boot_of p.
Proof using Type.
  unfold boot_of, tv, Make, readPersist. destruct (zlen (ReadRaftState p) <? 1); [done|].
  by destruct (decodeState (ReadRaftState p)) as [[[[[ct vf] lg] lii] lit]|].
Qed.

Lemma Make_fixed ps me p now :
  let r := Make ps me p now : Raft Command in
  peers r = ps ∧ RaftNode.me r = me ∧ persister r = p ∧ state r = Follower.
Proof using Type.
  unfold Make, readPersist. destruct (zlen (ReadRaftState p) <? 1); [done|].
  by destruct (decodeState (ReadRaftState p)) as [[[[[ct vf] lg] lii] lit]|].
Qed.

Lemma boot_durable rf : durable rf → boot rf = tv rf.
Proof using Type.
  intros Hd. unfold boot. rewrite <- (Make_tv (peers rf) (me rf) _ 0).
  rewrite Make_recoverable by (by left). done.
Qed.

Lemma boot_persist rf : boot (persist rf) = tv (persist rf).
Proof using Type. apply boot_durable, durable_persist. Qed.

Lemma boot_persistWithSnapshot rf snap : 
  boot (persistWithSnapshot rf snap) = tv (persistWithSnapshot rf snap).
Proof using Type. apply boot_durable, durable_persistWithSnapshot. Qed.

Definition same_vote rf rf' : Prop := persister rf' = persister rf ∧ tv rf' = tv rf.
Definition saved_vote rf rf' : Prop :=
  boot rf' = tv rf' ∧ currentTerm rf <= currentTerm rf' ∧
  (currentTerm rf = currentTerm rf' → votedFor rf' = votedFor rf ∨ votedFor rf = -1).
Definition unsaved_term rf rf' : Prop :=
  persister rf' = persister rf ∧ currentTerm rf < currentTerm rf' ∧ votedFor rf' = -1.

Definition vote_change rf rf' : Prop :=
  peers rf' = peers rf ∧ me rf' = me rf ∧
  (same_vote rf rf' ∨ saved_vote rf rf' ∨ unsaved_term rf rf').

(** Every operation but the start of an election and winning one. *)
Definition vstep rf rf' : Prop :=
  vote_change rf rf' ∧
  (state rf' = Follower ∨ state rf' = state rf ∧ currentTerm rf' = currentTerm rf).

Lemma vstep_same rf rf' :
  peers rf' = peers rf → me rf' = me rf → persister rf' = persister rf → tv rf' = tv rf →
  state rf' = state rf → vstep rf rf'.
Proof using Type.
  intros Hp Hm Hs Ht Hst. split; [split_and!; try done; left; by split|].
  right. split; [done|]. unfold tv in Ht. by simplify_eq.
Qed.

Lemma vstep_refl rf : vstep rf rf.
Proof using Type. by apply vstep_same. Qed.

(** Stepping down to a newer term, persisted. *)
Lemma vstep_saved rf rf' :
  peers rf' = peers rf → me rf' = me rf → boot rf' = tv rf' →
  currentTerm rf <= currentTerm rf' →
  (currentTerm rf = currentTerm rf' → votedFor rf' = votedFor rf ∨ votedFor rf = -1) →
  state rf' = Follower ∨ state rf' = state rf ∧ currentTerm rf' = currentTerm rf → vstep rf rf'.
Proof using Type. intros. split; [split_and!; try done; right; left; by split_and!|done]. Qed.

Lemma vstep_after_same rf rf1 rf2 :
  vstep rf rf1 → peers rf2 = peers rf1 → me rf2 = me rf1 → persister rf2 = persister rf1 →
  tv rf2 = tv rf1 → state rf2 = state rf1 → vstep rf rf2.
Proof using Type.
  intros ((Hp & Hm & Hv) & Hs) Hp2 Hm2 Hps Ht Hst.
  assert (currentTerm rf2 = currentTerm rf1 ∧ votedFor rf2 = votedFor rf1) as [Hc Hf]
    by (unfold tv in Ht; by simplify_eq).
  split.
  - split_and!; [congruence..|].
    destruct Hv as [[H1 H2]|[(H1 & H2 & H3)|(H1 & H2 & H3)]].
    + left. split; congruence.
    + right. left. unfold saved_vote, boot. rewrite Hps, Hc, Hf, Ht. by split_and!.
    + right. right. unfold unsaved_term. rewrite Hps, Hc, Hf. by split_and!.
  - rewrite Hst, Hc. done.
Qed.

(** ** The operations *)
Lemma RequestVote_vstep rf args now rf' r :
  RequestVote rf args now = Some (rf', r) →
  vstep rf rf' ∧
  (rvr_VoteGranted r = true →
   currentTerm rf <= rva_Term args ∧
   (currentTerm rf < rva_Term args ∨ votedFor rf = -1 ∨ votedFor rf = rva_CandidateId args) ∧
   boot rf' = (rva_Term args, rva_CandidateId args)).
Proof using Type.
  intros E. unfold RequestVote in E.
  destruct (Z.ltb_spec (rva_Term args) (currentTerm rf)).
  { simplify_eq. split; [apply vstep_refl|done]. }
  set (rf1 := if rva_Term args >? currentTerm rf then _ else rf) in E.
  assert (H1 : peers rf1 = peers rf ∧ me rf1 = me rf ∧ currentTerm rf1 = rva_Term args ∧
    ((rf1 = rf ∧ currentTerm rf = rva_Term args) ∨
     (currentTerm rf < rva_Term args ∧ boot rf1 = tv rf1 ∧ votedFor rf1 = -1 ∧
      state rf1 = Follower))).
  { unfold rf1. destruct (Z.gtb_spec (rva_Term args) (currentTerm rf)).
    - split_and!; try done. right. split_and!; try done. apply boot_persist.
    - split_and!; try done; [lia|left; split; [done|lia]]. }
  assert (Hv1 : vstep rf rf1).
  { destruct H1 as (Hp & Hm & Hc & [[-> _]|(Hlt & Hb & Hv & Hs)]); [apply vstep_refl|].
    apply vstep_saved; try done; [lia|lia|by left]. }
  clearbody rf1.
  destruct (negb (votedFor rf1 =? -1) && negb (votedFor rf1 =? rva_CandidateId args)) eqn:Ev.
  { simplify_eq. by split. }
  destruct (logTerm rf1 (lastLogIndex rf1)); [|done]. simpl in E.
  match type of E with (if ?b then _ else _) = _ => destruct b end.
  { simplify_eq. by split. }
  apply andb_false_iff in Ev. rewrite !negb_false_iff, !Z.eqb_eq in Ev.
  set (rf2 := persist (set_votedFor (rva_CandidateId args) rf1)) in E.
  assert (H2 : peers rf2 = peers rf1 ∧ me rf2 = me rf1 ∧ currentTerm rf2 = currentTerm rf1 ∧
    votedFor rf2 = rva_CandidateId args ∧ state rf2 = state rf1 ∧ boot rf2 = tv rf2).
  { unfold rf2. split_and!; try done. apply boot_persist. }
  clearbody rf2. destruct H2 as (Hp2 & Hm2 & Hc2 & Hv2 & Hs2 & Hb2).
  destruct H1 as (Hp & Hm & Hc & H1).
  assert (Hstep : vstep rf rf2).
  { destruct H1 as [[-> Heq]|(Hlt & Hb & Hv & Hs)].
    - apply vstep_saved; try congruence; try lia. right. split; congruence.
    - apply vstep_saved; try congruence; try lia. left. congruence. }
  simplify_eq. split.
  { by apply (vstep_after_same rf rf2). }
  intros _. split_and!; [lia| |].
  - destruct H1 as [[-> _]|(Hlt & _)]; [by right|by left].
  - change (boot rf2 = (rva_Term args, rva_CandidateId args)). rewrite Hb2. unfold tv. congruence.
Qed.

Lemma AppendEntries_vstep rf args now rf' r :
  AppendEntries rf args now = Some (rf', r) → vstep rf rf'.
Proof using Type.
  unfold AppendEntries. destruct (Z.ltb_spec (aea_Term args) (currentTerm rf)).
  { intros. simplify_eq. apply vstep_refl. }
  set (rf1 := persist _).
  assert (H1 : vstep rf rf1 ∧ boot rf1 = tv rf1 ∧ state rf1 = Follower).
  { split_and!; [|apply boot_persist|done].
    apply vstep_saved; [done|done|apply boot_persist|done|by left|by left]. }
  clearbody rf1. destruct H1 as (H1 & Hb & Hf). intros E.
  destruct (aea_PrevLogIndex args <? lastIncludedIndex rf1); [by simplify_eq|].
  destruct (aea_PrevLogIndex args >? lastLogIndex rf1); [by simplify_eq|].
  destruct (logTerm rf1 (aea_PrevLogIndex args)); [|done]. simpl in E.
  destruct (negb _) in E.
  { destruct (walkBack _ _ _ _); [|done]. simpl in E. by simplify_eq. }
  destruct (appendEntriesLoop _ _ _) as [lg|]; [|done]. simpl in E.
  set (rf2 := persist (set_log lg rf1)) in E.
  assert (H2 : vstep rf rf2).
  { destruct H1 as ((Hp & Hm & Hv) & Hs).
    assert (currentTerm rf <= currentTerm rf1 ∧
            (currentTerm rf = currentTerm rf1 → votedFor rf1 = votedFor rf ∨ votedFor rf = -1))
      as [Hle Hvv].
    { destruct Hv as [[_ Ht]|[(_ & ? & ?)|(_ & ? & ?)]]; [|done|split; [lia|lia]].
      unfold tv in Ht. simplify_eq. split; [lia|by left]. }
    apply vstep_saved; try done. apply boot_persist. }
  clearbody rf2. simplify_eq.
  repeat case_match; try done; by apply (vstep_after_same rf rf2).
Qed.

Lemma InstallSnapshot_vstep rf args now rf' r :
  InstallSnapshot rf args now = Some (rf', r) → vstep rf rf'.
Proof using Type.
  unfold InstallSnapshot. destruct (Z.ltb_spec (isa_Term args) (currentTerm rf)).
  { intros. simplify_eq. apply vstep_refl. }
  set (rf1 := set_lastHeartbeat _ _).
  assert (H1 : vstep rf rf1 ∧ currentTerm rf <= currentTerm rf1 ∧ state rf1 = Follower ∧
    (currentTerm rf = currentTerm rf1 → votedFor rf1 = votedFor rf ∨ votedFor rf = -1)).
  { unfold rf1. destruct (Z.gtb_spec (isa_Term args) (currentTerm rf)).
    - split; [split; [split_and!; [done|done|right; right; by split_and!]|by left]|].
      simpl. split_and!; [lia|done|lia].
    - split; [split; [split_and!; [done|done|left; by split]|by left]|].
      simpl. split_and!; [lia|done|by left]. }
  clearbody rf1. destruct H1 as (H1 & Hle & Hf & Hvv). intros E.
  destruct (isa_LastIncludedIndex args <=? lastIncludedIndex rf1); [by simplify_eq|].
  destruct (if isa_LastIncludedIndex args <=? lastLogIndex rf1 then _ else _) as [lg|]; [|done].
  simpl in E.
  match type of E with Some (set_pendingSnapshot _ (persistWithSnapshot ?x _), _) = _ =>
    set (rf2 := x) in E end.
  assert (H2 : peers rf2 = peers rf1 ∧ me rf2 = me rf1 ∧ tv rf2 = tv rf1 ∧ state rf2 = state rf1).
  { unfold rf2. clear. destruct rf1. simpl. repeat case_match; done. }
  clearbody rf2. destruct H2 as (Hp2 & Hm2 & Ht2 & Hs2). simplify_eq.
  destruct H1 as ((Hp & Hm & _) & _).
  assert (currentTerm rf2 = currentTerm rf1 ∧ votedFor rf2 = votedFor rf1) as [Hc2 Hv2]
    by (unfold tv in Ht2; by simplify_eq).
  apply vstep_saved.
  - simpl. congruence.
  - simpl. congruence.
  - apply (boot_persistWithSnapshot rf2 (isa_Data args)).
  - simpl. lia.
  - simpl. by rewrite Hc2, Hv2.
  - left. simpl. congruence.
Qed.

Lemma startElection_vote rf rf' term calls :
  startElection rf = Some (rf', term, calls) →
  peers rf' = peers rf ∧ me rf' = me rf ∧ state rf' = Candidate ∧
  currentTerm rf' = currentTerm rf + 1 ∧ term = currentTerm rf' ∧
  votedFor rf' = Z.of_nat (me rf) ∧ boot rf' = tv rf' ∧
  fst <$> calls = otherPeers rf ∧
  Forall (λ c, rva_Term (snd c) = term ∧ rva_CandidateId (snd c) = Z.of_nat (me rf)) calls.
Proof using Type.
  unfold startElection. intros H.
  set (rf1 := persist _) in H.
  assert (H1 : peers rf1 = peers rf ∧ me rf1 = me rf ∧ state rf1 = Candidate ∧
    currentTerm rf1 = currentTerm rf + 1 ∧ votedFor rf1 = Z.of_nat (me rf) ∧ boot rf1 = tv rf1).
  { split_and!; try done. apply boot_persist. }
  clearbody rf1. destruct H1 as (Hp & Hm & Hs & Hc & Hv & Hb).
  destruct (mapM _ _) as [cs|] eqn:Em; [|done]. simpl in H. simplify_eq.
  apply mapM_Some in Em.
  assert (Ho : otherPeers rf' = otherPeers rf) by (unfold otherPeers; by rewrite Hp, Hm).
  rewrite <- Ho.
  split_and!; try done; clear - Em Hm; induction Em as [|i [j a] l k Hi _ IH]; try done; simpl.
  - destruct (logTerm _ _); [|done]. simpl in Hi. simplify_eq. by f_equal.
  - destruct (logTerm _ _); [|done]. simpl in Hi. simplify_eq. constructor; [|done].
    simpl. split; [done|congruence].
Qed.

Lemma handleVoteReply_vote rf term votes reply :
  let '(rf', votes', won) := handleVoteReply rf term votes reply in
  if won then
    rf' = becomeLeader rf ∧ votes' = votes + 1 ∧ rvr_VoteGranted reply = true ∧
    currentTerm rf = term ∧ state rf = Candidate ∧ majority rf <= votes'
  else vstep rf rf' ∧ (votes' = votes ∨ votes' = votes + 1 ∧ rvr_VoteGranted reply = true).
Proof using Type.
  unfold handleVoteReply.
  destruct (Z.eqb_spec (currentTerm rf) term); simpl; [|split; [apply vstep_refl|by left]].
  destruct (bool_decide_reflect (state rf ≠ Candidate)) as [|Hs]; simpl;
    [split; [apply vstep_refl|by left]|].
  apply dec_stable in Hs.
  destruct (Z.gtb_spec (rvr_Term reply) (currentTerm rf)).
  { split; [|by left]. apply vstep_saved; try done; simpl; [apply boot_persist|lia|lia|by left]. }
  destruct (rvr_VoteGranted reply); [|split; [apply vstep_refl|by left]].
  destruct (Z.geb_spec (votes + 1) (majority rf)); [by split_and!|].
  split; [apply vstep_refl|by right].
Qed.

Lemma advanceLoop_vote rf n k rf' :
  advanceLoop rf n k = Some rf' →
  peers rf' = peers rf ∧ me rf' = me rf ∧ persister rf' = persister rf ∧ tv rf' = tv rf ∧
  state rf' = state rf.
Proof using Type.
  revert rf n. induction k as [|k IH]; intros rf n; simpl; [by intros [= <-]|].
  intros H. destruct (logTerm rf n) as [t|]; [|done]. simpl in H.
  destruct (t =? currentTerm rf); simpl in H; [|by eapply IH].
  destruct (countMatches rf n (otherPeers rf) 1) as [c|]; [|done]. simpl in H.
  destruct (c >=? majority rf); [|by eapply IH].
  destruct (IH _ _ H) as (?&?&?&?&?). by split_and!.
Qed.

Lemma stepDown_vstep rf term :
  currentTerm rf < term →
  vstep rf (persist (set_votedFor (-1) (set_state Follower (set_currentTerm term rf)))).
Proof using Type.
  intros. apply vstep_saved; try done; simpl; [apply boot_persist|lia|lia|by left].
Qed.

Lemma handleAppendReply_vstep rf peer args reply rf' :
  handleAppendReply rf peer args reply = Some rf' → vstep rf rf'.
Proof using Type.
  unfold handleAppendReply. case_match; [intros [= <-]; apply vstep_refl|].
  set (rf1 := if aer_Term reply >? currentTerm rf then _ else rf).
  assert (H1 : vstep rf rf1).
  { unfold rf1. destruct (Z.gtb_spec (aer_Term reply) (currentTerm rf));
      [by apply stepDown_vstep|apply vstep_refl]. }
  clearbody rf1. intros E. apply (vstep_after_same rf rf1 rf' H1).
  all: destruct (aer_Success reply).
  all: try (destruct (matchIndex rf1 !! peer); [|done]; simpl in E;
            destruct (idx_set _ _ _); [|done]; simpl in E;
            by apply advanceLoop_vote in E as (?&?&?&?&?)).
  all: destruct (backUp _ _); [|done]; simpl in E; destruct (idx_set _ _ _); [|done]; simpl in E;
    by simplify_eq.
Qed.

Lemma handleSnapshotReply_vstep rf peer args reply rf' :
  handleSnapshotReply rf peer args reply = Some rf' → vstep rf rf'.
Proof using Type.
  unfold handleSnapshotReply. case_match; [intros [= <-]; apply vstep_refl|].
  destruct (Z.gtb_spec (isr_Term reply) (currentTerm rf)).
  { intros [= <-]. by apply stepDown_vstep. }
  destruct (matchIndex rf !! peer); [|done]. simpl.
  destruct (idx_set _ _ _); [|done]. simpl. intros [= <-]. by apply vstep_same.
Qed.

Lemma Start_vstep rf c : vstep rf (snd (Start rf c)).
Proof using Type.
  unfold Start. case_decide; simpl; [|apply vstep_refl].
  apply vstep_saved; try done; simpl; [apply boot_persist|by left|by right].
Qed.

Lemma Snapshot_vstep rf index snap rf' : Snapshot rf index snap = Some rf' → vstep rf rf'.
Proof using Type.
  unfold Snapshot. case_match; [intros [= <-]; apply vstep_refl|]. intros E.
  destruct (logTerm rf index); [|done]. simpl in E.
  destruct (slice_from _ _) as [[|e l]|]; [done| |done]. simpl in E. simplify_eq.
  apply vstep_saved; try done; simpl; [apply boot_persistWithSnapshot|by left|by right].
Qed.

Lemma applyInner_vote rf f m rf' :
  applyInner rf f = Some (m, rf') →
  peers rf' = peers rf ∧ me rf' = me rf ∧ persister rf' = persister rf ∧ tv rf' = tv rf ∧
  state rf' = state rf.
Proof using Type.
  revert rf. induction f as [|f IH]; intros rf; simpl; [by intros [= _ <-]|].
  destruct (lastApplied rf <? commitIndex rf); [|by intros [= _ <-]].
  match goal with |- (if ?b then _ else _) = _ → _ => destruct b end.
  - intros H. destruct (IH _ H) as (?&?&?&?&?). by split_and!.
  - destruct (idx _ _); [|done]. by intros [= _ <-].
Qed.

Lemma applyLoop_vstep rf pc m rf' pc' :
  applyLoop_step rf pc = Some (m, rf', pc') → vstep rf rf'.
Proof using Type.
  unfold applyLoop_step. intros E.
  destruct pc, (pendingSnapshot rf); try (simplify_eq; by apply vstep_same);
    destruct (applyInner rf _) as [[m2 rf2]|] eqn:Ei; try done; simpl in E; simplify_eq;
    apply applyInner_vote in Ei as (?&?&?&?&?); by apply vstep_same.
Qed.

Lemma boot_ok_vote_change rf rf' : boot_ok rf → vote_change rf rf' → boot_ok rf'.
Proof using Type.
  intros (H1 & H2 & H3) (_ & _ & [[Hp Ht]|[(Hb & Hle & _)|(Hp & Hlt & Hv)]]).
  - unfold tv in Ht. injection Ht as Hc Hv. unfold boot_ok, boot in *. rewrite Hp, Hc, Hv.
    by split_and!.
  - unfold boot_ok. rewrite Hb. simpl. split_and!; [lia|done|lia].
  - unfold boot_ok, boot in *. rewrite Hp. split_and!; [lia|lia|done].
Qed.

(** The term a restart gives back never goes down. *)
Lemma boot_mono rf rf' :
  boot_ok rf → vote_change rf rf' →
  boot rf' = boot rf ∨ fst (boot rf) < fst (boot rf') ∨
  fst (boot rf) = fst (boot rf') ∧ snd (boot rf) = -1.
Proof using Type.
  intros (H1 & H2 & H3) (_ & _ & [[Hp Ht]|[(Hb & Hle & Hv)|(Hp & Hlt & _)]]);
    [left; unfold boot; by rewrite Hp| |left; unfold boot; by rewrite Hp].
  rewrite Hb. rewrite (surjective_pairing (boot rf)). unfold tv. cbn [fst snd].
  destruct (decide (fst (boot rf) < currentTerm rf')) as [|Hge]; [right; by left|].
  assert (fst (boot rf) = currentTerm rf ∧ currentTerm rf = currentTerm rf') as [Hbt Hc] by lia.
  rewrite (H2 Hbt), Hbt, Hc.
  destruct (Hv Hc) as [->|Hv']; [by left|right; by right].
Qed.

(** What the elections need of a step of a peer; a restart is one as well. *)
Definition vmove rf rf' : Prop :=
  peers rf' = peers rf ∧ me rf' = me rf ∧
  (boot_ok rf → boot_ok rf' ∧
   (boot rf' = boot rf ∨ fst (boot rf) < fst (boot rf') ∨
    fst (boot rf) = fst (boot rf') ∧ snd (boot rf) = -1)).
Definition nstep rf rf' : Prop :=
  vmove rf rf' ∧
  (state rf' = Follower ∨ state rf' = state rf ∧ currentTerm rf' = currentTerm rf).

Lemma vote_change_vmove rf rf' : vote_change rf rf' → vmove rf rf'.
Proof using Type.
  intros H. split_and!; [apply H|apply H|]. intros Hok.
  split; [by eapply boot_ok_vote_change|by apply boot_mono].
Qed.

Lemma vstep_nstep rf rf' : vstep rf rf' → nstep rf rf'.
Proof using Type. intros [H ?]. split; [by apply vote_change_vmove|done]. Qed.

Lemma vmove_refl rf : vmove rf rf.
Proof using Type. split_and!; [done..|]. intros. split; [done|by left]. Qed.

Lemma nstep_refl rf : nstep rf rf.
Proof using Type. split; [apply vmove_refl|by right]. Qed.

Lemma Make_nstep rf now : nstep rf (Make (peers rf) (me rf) (persister rf) now).
Proof using Type.
  destruct (Make_fixed (peers rf) (me rf) (persister rf) now) as (Hp & Hm & Hs & Hf).
  pose proof (Make_tv (peers rf) (me rf) (persister rf) now) as Ht.
  set (r := Make _ _ _ _) in *. clearbody r.
  assert (Hb : boot r = tv r) by (unfold boot; by rewrite Hs).
  split; [|by left]. split_and!; [done..|]. intros _. split.
  - unfold boot_ok. rewrite Hb. unfold tv. cbn [fst snd]. split_and!; [lia|done|lia].
  - left. unfold boot. by rewrite Hs.
Qed.

End Votes.
