(* ===== verification/ClusterSafety.v ===== *)
(** * Election safety of the cluster

    In every reachable state, whatever the order of the events, the losses and
    duplications of messages and the restarts: a leader has the votes of a
    majority, a peer votes for one candidate per term, and so a term has at most
    one leader over the whole run. *)
From stdpp Require Import base tactics list strings numbers option sets.
From Stdlib Require Import ZArith Lia.
From S2P Require Import Prelude.
From S2P Require Import Gob.
From S2P Require Import Persister.
From S2P Require Import RaftNode.
From S2P Require Import RaftLog.
From S2P Require Import RaftOps.
From S2P Require Import History.
From S2P Require Import Cluster.
From S2P Require Import ClusterVotes.

Local Open Scope Z_scope.

Lemma NoDup_submseteq_l {A} (l k : list A) : l ⊆+ k → NoDup k → NoDup l.
Proof. intros [k' ->]%submseteq_Permutation [? _]%NoDup_app. done. Qed.

Section Safety.
Context {Command : Type}.
Context {gobZ : Gob Z} {gobLog : Gob (list (LogEntry Command))}.
Implicit Types (rf : Raft Command) (c : cluster Command).

(** ** Votes *)

(** Peer [q] answered a request of candidate [z] for term [T] with its vote. *)
Definition granted c (q : nat) (T z : Z) : Prop :=
  ∃ j i args t, replies c !! j = Some (i, ReplyVote (mkRVReply t true)) ∧
    net c !! i = Some (q, CallVote args) ∧ rva_Term args = T ∧ rva_CandidateId args = z.

(** Peer [p] started an election in term [T]. *)
Definition asked c (p : nat) (T : Z) : Prop :=
  ∃ k e, elections c !! k = Some e ∧ el_cand e = p ∧ el_term e = T.

Definition voted c (q : nat) (T z : Z) : Prop :=
  granted c q T z ∨ asked c q T ∧ z = Z.of_nat q.

(** [p] started an election in term [T], and with its own vote it has those of a
    majority of the [n] peers, at least one of them another peer's. *)
Definition elected (n : nat) c (p : nat) (T : Z) : Prop :=
  (p < n)%nat ∧ asked c p T ∧
  ∃ vs, vs ≠ [] ∧ NoDup (p :: vs) ∧ Z.of_nat n / 2 + 1 <= zlen (p :: vs) ∧
        ∀ v, v ∈ vs → (v < n)%nat ∧ granted c v T (Z.of_nat p).

(** The cell and the peer of a vote goroutine. *)
Definition vote_pair (t : thread Command) : option (nat * nat) :=
  match t with
  | TVote _ cell peer _ | TVoteCall _ cell peer _ => Some (cell, peer)
  | _ => None
  end.
Definition vpairs (ts : list (thread Command)) : list (nat * nat) := omap vote_pair ts.

Definition vote_thread_ok n c (p cell peer : nat) (args : RequestVoteArgs) : Prop :=
  (peer < n)%nat ∧ peer ≠ p ∧ rva_CandidateId args = Z.of_nat p ∧
  ∃ e, elections c !! cell = Some e ∧ el_cand e = p ∧ el_term e = rva_Term args.
Definition thread_ok n c (t : thread Command) : Prop :=
  match t with
  | TVote p cell peer args => vote_thread_ok n c p cell peer args
  | TVoteCall p cell peer req =>
      ∃ args, vote_thread_ok n c p cell peer args ∧ net c !! req = Some (peer, CallVote args)
  | _ => True
  end.

(** The votes counted so far come from distinct peers, whose goroutines are done. *)
Definition cell_ok n c (k : nat) (e : election) : Prop :=
  ∃ vs, NoDup vs ∧ el_votes e = 1 + zlen vs ∧
    ∀ v, v ∈ vs → (v < n)%nat ∧ v ≠ el_cand e ∧
      granted c v (el_term e) (Z.of_nat (el_cand e)) ∧ (k, v) ∉ vpairs (threads c).

Record inv (n : nat) c : Prop := {
  inv_len : length (nodes c) = n;
  inv_node : ∀ p rf, nodes c !! p = Some rf → me rf = p ∧ length (peers rf) = n ∧ boot_ok rf;
  inv_role : ∀ p rf, nodes c !! p = Some rf → state rf ≠ Follower → asked c p (currentTerm rf);
  inv_voted : ∀ q T z, voted c q T z →
    0 <= z ∧ ∃ rf, nodes c !! q = Some rf ∧ T <= fst (boot rf) ∧
                   (T = fst (boot rf) → z = snd (boot rf));
  inv_uniq : ∀ q T z1 z2, voted c q T z1 → voted c q T z2 → z1 = z2;
  inv_net : ∀ i q args, net c !! i = Some (q, CallVote args) → 0 <= rva_CandidateId args;
  inv_replies : ∀ j i r, replies c !! j = Some (i, r) → (i < length (net c))%nat;
  inv_pairs : NoDup (vpairs (threads c));
  inv_thread : ∀ t, t ∈ threads c → thread_ok n c t;
  inv_cell : ∀ k e, elections c !! k = Some e → cell_ok n c k e;
  inv_leader : ∀ p T, is_leader c p T → elected n c p T
}.

(** ** What only grows *)

(** Elections keep their candidate and term, messages stay. *)
Definition grows c c' : Prop :=
  (∀ k e, elections c !! k = Some e →
          ∃ e', elections c' !! k = Some e' ∧ el_cand e' = el_cand e ∧ el_term e' = el_term e) ∧
  net c `prefix_of` net c' ∧ replies c `prefix_of` replies c'.

Lemma granted_mono c c' q T z : grows c c' → granted c q T z → granted c' q T z.
Proof using Type.
  intros (_ & Hn & Hr) (j & i & args & t & H1 & H2 & H3). exists j, i, args, t.
  split_and!; [by eapply prefix_lookup_Some|by eapply prefix_lookup_Some|apply H3..].
Qed.

Lemma asked_mono c c' p T : grows c c' → asked c p T → asked c' p T.
Proof using Type.
  intros (He & _) (k & e & H & <- & <-). destruct (He k e H) as (e' & H' & ? & ?).
  by exists k, e'.
Qed.

Lemma voted_mono c c' q T z : grows c c' → voted c q T z → voted c' q T z.
Proof using Type.
  intros Hg [H|[H ?]]; [left; by eapply granted_mono|right; split; [|done]].
  by eapply asked_mono.
Qed.

Lemma elected_mono n c c' p T : grows c c' → elected n c p T → elected n c' p T.
Proof using Type.
  intros Hg (Hp & Ha & vs & Hne & HN & Hm & HV).
  split_and!; [done|by eapply asked_mono|]. exists vs. split_and!; [done..|].
  intros v Hv. destruct (HV v Hv). split; [done|by eapply granted_mono].
Qed.

Lemma elected_quorum n c p T :
  elected n c p T → ∃ Q, majority_of n Q ∧ ∀ q, q ∈ Q → voted c q T (Z.of_nat p).
Proof using Type.
  intros (Hp & Ha & vs & _ & HN & Hm & HV). exists (p :: vs). split.
  - split_and!; [done..|]. intros q [->|Hq]%elem_of_cons; [done|by apply HV].
  - intros q [->|Hq]%elem_of_cons; [by right|left; by apply HV].
Qed.

Lemma elected_unique n c p p' T : inv n c → elected n c p T → elected n c p' T → p = p'.
Proof using Type.
  intros Hi (Q & HQ & HV)%elected_quorum (Q' & HQ' & HV')%elected_quorum.
  destruct (majorities_meet n Q Q' HQ HQ') as (q & H1 & H2).
  pose proof (inv_uniq n c Hi q T _ _ (HV q H1) (HV' q H2)). lia.
Qed.

(** ** One event *)

(** A vote cast by the operation that takes [rf] to [rf']. *)
Definition newvote rf rf' (T z : Z) : Prop :=
  0 <= z ∧ currentTerm rf <= T ∧
  (currentTerm rf < T ∨ votedFor rf = -1 ∨ votedFor rf = z) ∧ boot rf' = (T, z).

(** The peers of [c'] come from those of [c] by one operation at most. *)
Definition nodes_step (R : Raft Command → Raft Command → Prop) c c' : Prop :=
  length (nodes c') = length (nodes c) ∧
  ∀ p rf', nodes c' !! p = Some rf' → ∃ rf, nodes c !! p = Some rf ∧ R rf rf'.

Lemma nodes_step_insert (R : Raft Command → Raft Command → Prop) c c' p rf rf' :
  (∀ rf, R rf rf) → nodes c !! p = Some rf → nodes c' = <[p := rf']> (nodes c) → R rf rf' →
  nodes_step R c c'.
Proof using Type.
  intros Hrefl Hp Hn HR. split; [by rewrite Hn, length_insert|]. intros q rf2. rewrite Hn.
  intros [(<- & <- & _)|(? & Hq)]%list_lookup_insert_Some; [by exists rf|by exists rf2].
Qed.

Lemma nodes_step_same (R : Raft Command → Raft Command → Prop) c c' :
  (∀ rf, R rf rf) → nodes c' = nodes c → nodes_step R c c'.
Proof using Type. intros Hrefl Hn. split; [by rewrite Hn|]. rewrite Hn. eauto. Qed.

Lemma old_vote_bound rf rf' T z :
  boot_ok rf → vmove rf rf' → 0 <= z →
  T <= fst (boot rf) ∧ (T = fst (boot rf) → z = snd (boot rf)) →
  T <= fst (boot rf') ∧ (T = fst (boot rf') → z = snd (boot rf')).
Proof using Type.
  intros Hok (_ & _ & Hc) Hz [H1 H2].
  destruct (Hc Hok) as (_ & [->|[Hlt|[Heq Hv]]]); [done|lia|].
  rewrite <- Heq. split; [done|]. intros HT. specialize (H2 HT). lia.
Qed.

(** The voting part of the invariant: new votes are cast as [newvote] says. *)
Lemma inv_votes_step n c c' :
  inv n c → nodes_step vmove c c' →
  (∀ q T z, voted c' q T z → voted c q T z ∨
    ∃ rf rf', nodes c !! q = Some rf ∧ nodes c' !! q = Some rf' ∧ newvote rf rf' T z) →
  (∀ q T z, voted c' q T z →
    0 <= z ∧ ∃ rf, nodes c' !! q = Some rf ∧ T <= fst (boot rf) ∧
                   (T = fst (boot rf) → z = snd (boot rf))) ∧
  (∀ q T z1 z2, voted c' q T z1 → voted c' q T z2 → z1 = z2).
Proof using Type.
  intros Hi [Hlen Hns] Hnew.
  assert (Hnode : ∀ q rf, nodes c !! q = Some rf →
            ∃ rf', nodes c' !! q = Some rf' ∧ vmove rf rf').
  { intros q rf Hq. destruct (nodes c' !! q) as [rf'|] eqn:E.
    - destruct (Hns q rf' E) as (rf0 & Hq0 & Hv). simplify_eq. by exists rf'.
    - apply lookup_ge_None in E. apply lookup_lt_Some in Hq. lia. }
  assert (Hcross : ∀ q T z1 z2, voted c q T z1 →
    (∃ rf rf', nodes c !! q = Some rf ∧ nodes c' !! q = Some rf' ∧ newvote rf rf' T z2) → z1 = z2).
  { intros q T z1 z2 Hv (rf & rf' & Hq & _ & _ & Hle & Hf & _).
    destruct (inv_voted n c Hi _ _ _ Hv) as (Hz & rf0 & Hq0 & Hb & Hbv). simplify_eq.
    destruct (inv_node n c Hi _ _ Hq) as (_ & _ & Hok1 & Hok2 & _).
    rewrite Hbv by lia. rewrite Hok2 by lia.
    destruct Hf as [?|[Hf|Hf]]; [lia| |done].
    rewrite Hbv, Hok2 in Hz by lia. lia. }
  split.
  - intros q T z Hv. destruct (Hnew q T z Hv) as [Ho|(rf & rf' & Hq & Hq' & Hz & _ & _ & Hb)].
    + destruct (inv_voted n c Hi _ _ _ Ho) as (Hz & rf & Hq & Hb). split; [done|].
      destruct (Hnode q rf Hq) as (rf' & Hq' & Hvc). exists rf'. split; [done|].
      eapply old_vote_bound; [|done..]. by apply (inv_node n c Hi q).
    + split; [done|]. exists rf'. rewrite Hb. by split.
  - intros q T z1 z2 Hv1 Hv2.
    destruct (Hnew q T z1 Hv1) as [Ho1|Hn1], (Hnew q T z2 Hv2) as [Ho2|Hn2].
    + by eapply (inv_uniq n c Hi).
    + by eapply Hcross.
    + symmetry. by eapply Hcross.
    + destruct Hn1 as (? & rf1 & _ & Hq1 & _ & _ & _ & Hb1).
      destruct Hn2 as (? & rf2 & _ & Hq2 & _ & _ & _ & Hb2). simplify_eq. congruence.
Qed.

Lemma inv_node_step n c c' :
  inv n c → nodes_step vmove c c' →
  length (nodes c') = n ∧
  ∀ p rf, nodes c' !! p = Some rf → me rf = p ∧ length (peers rf) = n ∧ boot_ok rf.
Proof using Type.
  intros Hi [Hlen Hns]. split; [rewrite Hlen; by apply inv_len|].
  intros p rf' Hp. destruct (Hns p rf' Hp) as (rf & Hq & Hv).
  destruct (inv_node n c Hi _ _ Hq) as (Hm & Hl & Hok).
  destruct Hv as (-> & -> & Hv). split_and!; [done..|]. by apply Hv.
Qed.

Lemma thread_ok_grows n c c' t : grows c c' → thread_ok n c t → thread_ok n c' t.
Proof using Type.
  intros (He & Hn & _).
  assert (Hv : ∀ p cell peer args, vote_thread_ok n c p cell peer args →
                                   vote_thread_ok n c' p cell peer args).
  { intros p cell peer args (H1 & H2 & H3 & e & H4 & H5 & H6).
    destruct (He _ _ H4) as (e' & H4' & ? & ?). split_and!; try done. exists e'.
    split_and!; congruence. }
  destruct t; simpl; try done; [by apply Hv|].
  intros (args & H1 & H2). exists args. split; [by apply Hv|]. by eapply prefix_lookup_Some.
Qed.

Lemma cell_ok_grows n c c' k e e' :
  grows c c' → cell_ok n c k e → el_votes e' = el_votes e → el_cand e' = el_cand e →
  el_term e' = el_term e → (∀ v, (k, v) ∈ vpairs (threads c') → (k, v) ∈ vpairs (threads c)) →
  cell_ok n c' k e'.
Proof using Type.
  intros Hg (vs & HN & Hc & HV) He Hcd Ht Hp. exists vs. split_and!; [done|congruence|].
  intros v Hv. destruct (HV v Hv) as (H1 & H2 & H3 & H4). rewrite Hcd, Ht.
  split_and!; [done..|by eapply granted_mono|]. intros Hin. by apply H4, Hp.
Qed.

(** An event that starts or wins no election: the peers make [nstep]s, messages
    are added, the elections stay. *)
Lemma inv_step n c c' :
  inv n c → nodes_step nstep c c' →
  elections c' = elections c → net c `prefix_of` net c' → replies c `prefix_of` replies c' →
  (∀ i q args, net c' !! i = Some (q, CallVote args) → 0 <= rva_CandidateId args) →
  (∀ j i r, replies c' !! j = Some (i, r) → (i < length (net c'))%nat) →
  (∀ q T z, granted c' q T z → granted c q T z ∨
    ∃ rf rf', nodes c !! q = Some rf ∧ nodes c' !! q = Some rf' ∧ newvote rf rf' T z) →
  vpairs (threads c') ⊆+ vpairs (threads c) →
  (∀ t, t ∈ threads c' → thread_ok n c' t ∨ t ∈ threads c) →
  inv n c'.
Proof using Type.
  intros Hi Hns He Hnet Hrep Hnet' Hrep' Hgr Hvp Hth.
  assert (Hg : grows c c') by (split_and!; [rewrite He; eauto|done|done]).
  assert (Hvc : nodes_step vmove c c').
  { destruct Hns as [Hl Hn]. split; [done|]. intros p rf' Hp.
    destruct (Hn p rf' Hp) as (rf & ? & Hv & _). by exists rf. }
  assert (Hask : ∀ p T, asked c' p T → asked c p T).
  { intros p T (k & e & H & ?). rewrite He in H. by exists k, e. }
  destruct (inv_votes_step n c c' Hi Hvc) as [Hvoted Huniq].
  { intros q T z [H|[H ->]]; [|left; right; split; [by apply Hask|done]].
    destruct (Hgr q T z H) as [H'|H']; [left; by left|by right]. }
  destruct (inv_node_step n c c' Hi Hvc) as [Hlen Hnode].
  assert (Hroles : ∀ p rf', nodes c' !! p = Some rf' → state rf' ≠ Follower →
            ∃ rf, nodes c !! p = Some rf ∧ state rf' = state rf ∧ currentTerm rf' = currentTerm rf).
  { intros p rf' Hp Hs. destruct Hns as [_ Hn]. destruct (Hn p rf' Hp) as (rf & Hq & _ & [?|[? ?]]);
      [done|by exists rf]. }
  constructor; try done.
  - intros p rf' Hp Hs. destruct (Hroles p rf' Hp Hs) as (rf & Hq & Hst & Ht).
    rewrite Ht. eapply asked_mono; [done|]. apply (inv_role n c Hi p rf Hq). congruence.
  - eapply NoDup_submseteq_l; [done|by apply (inv_pairs n c Hi)].
  - intros t Ht. destruct (Hth t Ht) as [?|H]; [done|].
    eapply thread_ok_grows; [done|]. by apply (inv_thread n c Hi).
  - intros k e Hk. rewrite He in Hk. eapply cell_ok_grows; [done|by apply (inv_cell n c Hi)|done..|].
    intros v Hin. by eapply elem_of_submseteq.
  - intros p T (rf' & Hp & Hs & Ht).
    destruct (Hroles p rf' Hp) as (rf & Hq & Hst & Htt); [by rewrite Hs|].
    eapply elected_mono; [done|]. apply (inv_leader n c Hi). exists rf. split_and!; congruence.
Qed.

(** ** Threads *)
Lemma vpairs_app ts ts' : vpairs (ts ++ ts') = vpairs ts ++ vpairs ts'.
Proof using Type. apply omap_app. Qed.

Lemma vpairs_submseteq l ts : l ⊆+ ts → vpairs l ⊆+ vpairs ts.
Proof using Type.
  intros [k H]%submseteq_Permutation. assert (Hp : vpairs ts ≡ₚ vpairs (l ++ k))
    by by apply omap_Permutation.
  rewrite Hp, vpairs_app. by apply submseteq_inserts_r.
Qed.

Lemma vpairs_delete k (l : list (thread Command)) t :
  l !! k = Some t → vpairs l ≡ₚ option_list (vote_pair t) ++ vpairs (delete k l).
Proof using Type.
  intros Hk. transitivity (vpairs (t :: delete k l)).
  - by apply omap_Permutation, delete_Permutation.
  - simpl. by destruct (vote_pair t).
Qed.

Lemma vpairs_respawn k ts (l : list (thread Command)) t :
  l !! k = Some t → vpairs ts ⊆+ option_list (vote_pair t) →
  vpairs (respawn k ts l) ⊆+ vpairs l.
Proof using Type.
  intros Hk Hts. unfold respawn. rewrite vpairs_app, (vpairs_delete k l t Hk).
  rewrite (Permutation_app_comm (vpairs (delete k l))). by apply submseteq_app.
Qed.

Lemma respawn_elem k ts (l : list (thread Command)) t :
  t ∈ respawn k ts l → t ∈ ts ∨ t ∈ l.
Proof using Type.
  unfold respawn. intros [H|H]%elem_of_app; [|by left]. right.
  rewrite list_elem_of_lookup in H. destruct H as [i H].
  destruct (decide (i < k)%nat).
  - rewrite list_lookup_delete_lt in H by done. by eapply list_elem_of_lookup_2.
  - rewrite list_lookup_delete_ge in H by lia. by eapply list_elem_of_lookup_2.
Qed.

Definition no_vote (ts : list (thread Command)) : Prop := Forall (λ t, vote_pair t = None) ts.

Lemma no_vote_vpairs ts : no_vote ts → vpairs ts = [].
Proof using Type. induction 1 as [|t ts H _ IH]; [done|]. simpl. by rewrite H. Qed.

Lemma no_vote_ok n c ts t : no_vote ts → t ∈ ts → thread_ok n c t.
Proof using Type.
  intros H Ht. eapply Forall_forall in H; [|done]. by destruct t.
Qed.

(** Messages do not change, and new threads are no vote goroutines. *)
Lemma inv_quiet n c c' :
  inv n c → nodes_step nstep c c' →
  elections c' = elections c → net c' = net c → replies c' = replies c →
  vpairs (threads c') ⊆+ vpairs (threads c) →
  (∀ t, t ∈ threads c' → thread_ok n c' t ∨ t ∈ threads c) → inv n c'.
Proof using Type.
  intros Hi Hn He Hnet Hr Hv Ht. apply (inv_step n c); try done.
  - by rewrite Hnet.
  - by rewrite Hr.
  - rewrite Hnet. apply (inv_net n c Hi).
  - rewrite Hnet, Hr. apply (inv_replies n c Hi).
  - intros q T z (j & i & args & t & H1 & H2 & H3). left. rewrite Hr in H1. rewrite Hnet in H2.
    by exists j, i, args, t.
Qed.

(** The same, when thread [k] of the old state ends or goes on as [ts]. *)
Lemma inv_local n c k t ts nodes' applied' :
  inv n c → threads c !! k = Some t → no_vote ts →
  nodes_step nstep c (mkCluster nodes' (elections c) (respawn k ts (threads c)) (net c)
                        (replies c) applied') →
  inv n (mkCluster nodes' (elections c) (respawn k ts (threads c)) (net c) (replies c) applied').
Proof using Type.
  intros Hi Hk Hts Hn. apply (inv_quiet n c); try done; simpl.
  - eapply vpairs_respawn; [done|]. rewrite no_vote_vpairs by done. apply submseteq_nil_l.
  - intros t' [H|H]%respawn_elem; [left; by eapply no_vote_ok|by right].
Qed.

(** A call is sent by thread [k], which waits for it as [t']. *)
Lemma inv_send n c k t t' q call nodes' :
  inv n c → threads c !! k = Some t →
  (∀ args, call = CallVote args → 0 <= rva_CandidateId args) →
  option_list (vote_pair t') ⊆+ option_list (vote_pair t) →
  let c' := mkCluster nodes' (elections c) (respawn k [t'] (threads c)) (net c ++ [(q, call)])
              (replies c) (applied c) in
  nodes_step nstep c c' → thread_ok n c' t' → inv n c'.
Proof using Type.
  intros Hi Hk Hcall Hvp c' Hn Hok. apply (inv_step n c); try done.
  - by eexists.
  - intros i q' args. simpl. rewrite lookup_snoc_Some. intros [[_ H]|[_ [= -> ->]]].
    + by eapply (inv_net n c Hi).
    + by apply Hcall.
  - intros j i r Hj. simpl. rewrite length_app. pose proof (inv_replies n c Hi _ _ _ Hj). lia.
  - intros q' T z (j & i & args & tm & H1 & H2 & H3). left. exists j, i, args, tm.
    split_and!; [done| |apply H3..]. simpl in H1, H2.
    pose proof (inv_replies n c Hi _ _ _ H1). rewrite lookup_app_l in H2 by done. done.
  - simpl. eapply vpairs_respawn; [done|]. simpl.
    destruct (vote_pair t') eqn:E; simpl in *; [done|apply submseteq_nil_l].
  - intros t0 [H|H]%respawn_elem; [left|by right]. apply list_elem_of_singleton in H as ->. done.
Qed.

(** ** The events *)
Lemma nstep_insert c c' p rf rf' :
  nodes c !! p = Some rf → nodes c' = <[p := rf']> (nodes c) → nstep rf rf' →
  nodes_step nstep c c'.
Proof using Type. intros. eapply nodes_step_insert; [apply nstep_refl|done..]. Qed.

Lemma inv_runThread n c k c' : inv n c → runThread c k = Some c' → inv n c'.
Proof using Type.
  intros Hi. unfold runThread.
  destruct (threads c !! k) as [[p|p pc|p cell peer args|p cell peer req|p|p loop
    |p peer term lid commit|p peer req args|p peer req args]|] eqn:Ek; try done; intros E.
  - destruct (nodes c !! p) as [rf|] eqn:Ep; [|done]. simpl in E.
    destruct (applyLoop_step rf pc) as [[[m rf'] pc']|] eqn:Ea; [|done]. simpl in E. simplify_eq.
    eapply inv_local; [done..| |].
    + destruct pc'; [destruct (killed rf')|]; repeat constructor.
    + eapply nstep_insert; [done..|]. by eapply vstep_nstep, applyLoop_vstep.
  - simplify_eq. pose proof (inv_thread n c Hi _ (list_elem_of_lookup_2 _ _ _ Ek))
      as (H1 & H2 & H3 & e & H4 & H5 & H6).
    eapply inv_send; [done..| | | |].
    + intros a [= <-]. lia.
    + done.
    + by apply nodes_step_same; [apply nstep_refl|].
    + simpl. exists args. split; [split_and!; try done; by exists e|]. apply list_lookup_middle.
      done.
  - destruct (nodes c !! p) as [rf|] eqn:Ep; [|done]. simpl in E. simplify_eq.
    eapply inv_local; [done..| |by apply nodes_step_same; [apply nstep_refl|]].
    destruct (killed rf); [constructor|]. case_decide; repeat constructor.
  - destruct (nodes c !! p) as [rf|] eqn:Ep; [|done]. simpl in E. simplify_eq.
    eapply inv_local; [done..| |by apply nodes_step_same; [apply nstep_refl|]].
    apply Forall_app. split; [|destruct loop; repeat constructor].
    unfold beats, sendHeartbeats. by apply Forall_fmap, Forall_true.
  - destruct (nodes c !! p) as [rf|] eqn:Ep; [|done]. simpl in E.
    destruct (heartbeatBegin _ _ _ _ _) as [[|args|args]|]; [| | |done]; simpl in E; simplify_eq.
    + eapply inv_local; [done|done|constructor|by apply nodes_step_same; [apply nstep_refl|]].
    + eapply inv_send; [done|done|done|done|by apply nodes_step_same; [apply nstep_refl|]|done].
    + eapply inv_send; [done|done|done|done|by apply nodes_step_same; [apply nstep_refl|]|done].
Qed.

(** A reply is added by the peer that served request [i]. *)
Lemma inv_reply n c p i rf rf' call r :
  inv n c → net c !! i = Some (p, call) → nodes c !! p = Some rf → nstep rf rf' →
  (∀ args t, call = CallVote args → r = ReplyVote (mkRVReply t true) →
             newvote rf rf' (rva_Term args) (rva_CandidateId args)) →
  inv n (mkCluster (<[p := rf']> (nodes c)) (elections c) (threads c) (net c)
           (replies c ++ [(i, r)]) (applied c)).
Proof using Type.
  intros Hi Hnet Hp Hs Hnew. pose proof (lookup_lt_Some _ _ _ Hp) as Hlt.
  apply (inv_step n c); try done.
  - by eapply nstep_insert.
  - by eexists.
  - apply (inv_net n c Hi).
  - intros j i' r'. simpl. rewrite lookup_snoc_Some. intros [[_ H]|[_ [= -> ->]]].
    + by eapply (inv_replies n c Hi).
    + by eapply lookup_lt_Some.
  - intros q T z (j & i' & args & t & H1 & H2 & <- & <-). simpl in H1, H2.
    apply lookup_snoc_Some in H1 as [[_ H1]|[_ H1]].
    + left. by exists j, i', args, t.
    + injection H1 as <- ->. rewrite Hnet in H2. injection H2 as -> ->. right.
      exists rf, rf'. split_and!; [done|by apply list_lookup_insert_eq|by eapply Hnew].
  - intros t Ht. by right.
Qed.

Lemma inv_serve n c i now c' : inv n c → serve c i now = Some c' → inv n c'.
Proof using Type.
  intros Hi. unfold serve. destruct (net c !! i) as [[p call]|] eqn:En; [|done]. simpl.
  destruct (nodes c !! p) as [rf|] eqn:Ep; [|done]. simpl. intros E.
  destruct call as [args|args|args].
  - destruct (RequestVote rf args now) as [[rf' r]|] eqn:Eh; [|done]. simpl in E. simplify_eq.
    destruct (RequestVote_vstep rf args now rf' r Eh) as [Hv Hg].
    eapply inv_reply; [done..|by apply vstep_nstep|]. intros args' t [= <-] [= ->].
    destruct (Hg eq_refl) as (H1 & H2 & H3). split_and!; try done. by eapply (inv_net n c Hi).
  - destruct (AppendEntries rf args now) as [[rf' r]|] eqn:Eh; [|done]. simpl in E. simplify_eq.
    eapply inv_reply; [done..|by eapply vstep_nstep, AppendEntries_vstep|done].
  - destruct (InstallSnapshot rf args now) as [[rf' r]|] eqn:Eh; [|done]. simpl in E. simplify_eq.
    eapply inv_reply; [done..|by eapply vstep_nstep, InstallSnapshot_vstep|done].
Qed.

Lemma inv_callFails n c k c' : inv n c → callFails c k = Some c' → inv n c'.
Proof using Type.
  intros Hi. unfold callFails. destruct (threads c !! k) as [t|] eqn:Ek; [|done].
  intros E. assert (c' = mkCluster (nodes c) (elections c) (respawn k [] (threads c)) (net c)
    (replies c) (applied c)) as -> by (destruct t; by simplify_eq).
  eapply inv_local; [done..|constructor|by apply nodes_step_same; [apply nstep_refl|]].
Qed.

(** Operations of the service on one peer. *)
Lemma inv_op n c p rf rf' ts :
  inv n c → nodes c !! p = Some rf → nstep rf rf' → no_vote ts →
  inv n (mkCluster (<[p := rf']> (nodes c)) (elections c) (threads c ++ ts) (net c) (replies c)
           (applied c)).
Proof using Type.
  intros Hi Hp Hs Hts. apply (inv_quiet n c); try done.
  - by eapply nstep_insert.
  - simpl. rewrite vpairs_app, (no_vote_vpairs ts), app_nil_r by done. done.
  - simpl. intros t [H|H]%elem_of_app; [by right|left]. by eapply no_vote_ok.
Qed.

Lemma inv_service n c ev c' :
  match ev with EvStart _ _ | EvSnapshot _ _ _ | EvKill _ => True | _ => False end →
  inv n c → cluster_step c ev = Some c' → inv n c'.
Proof using Type.
  intros Hev Hi. destruct ev; try done; simpl;
    unfold callStart, callSnapshot, callKill; destruct (nodes c !! p) as [rf|] eqn:Ep; try done; simpl.
  - pose proof (Start_vstep rf command) as Hv.
    destruct (Start rf command) as [[[i t] ok] rf']. intros E. simplify_eq.
    eapply inv_op; [done..|by apply vstep_nstep|]. destruct ok; repeat constructor.
  - destruct (Snapshot rf index snap) as [rf'|] eqn:Es; [|done]. simpl. intros E. simplify_eq.
    rewrite <- (app_nil_r (threads c)). eapply inv_op; [done..| |constructor].
    by eapply vstep_nstep, Snapshot_vstep.
  - intros E. simplify_eq. rewrite <- (app_nil_r (threads c)).
    eapply inv_op; [done..| |constructor]. by apply vstep_nstep, vstep_same.
Qed.

Lemma inv_restart n c p now c' : inv n c → restart c p now = Some c' → inv n c'.
Proof using Type.
  intros Hi. unfold restart. destruct (nodes c !! p) as [rf|] eqn:Ep; [|done]. simpl.
  intros E. simplify_eq. destruct (inv_node n c Hi _ _ Ep) as (Hm & _).
  assert (Hsub : List.filter (λ t, negb (t_node t =? p)%nat) (threads c) ⊆+ threads c).
  { clear. induction (threads c) as [|t l IH]; [done|]. simpl.
    destruct (negb _); [by apply submseteq_skip|by apply submseteq_cons]. }
  apply (inv_quiet n c); try done.
  - eapply nstep_insert; [done|done|]. rewrite <- Hm. apply Make_nstep.
  - simpl. rewrite vpairs_app, app_nil_r. by apply vpairs_submseteq.
  - simpl. intros t [H|H]%elem_of_app; [right; by eapply elem_of_submseteq|left].
    eapply (no_vote_ok _ _ (loops p)); [|done]. repeat constructor.
Qed.

Lemma nodes_step_weaken (R R' : Raft Command → Raft Command → Prop) c c' :
  (∀ rf rf', R rf rf' → R' rf rf') → nodes_step R c c' → nodes_step R' c c'.
Proof using Type.
  intros HR [Hl Hn]. split; [done|]. intros p rf' Hp. destruct (Hn p rf' Hp) as (rf & ? & ?).
  exists rf. eauto.
Qed.

(** ** Starting an election *)
Lemma start_vote_change rf rf' term calls :
  startElection rf = Some (rf', term, calls) → vote_change rf rf'.
Proof using Type.
  intros (Hp & Hm & _ & Ht & _ & _ & Hb & _)%startElection_vote.
  split_and!; try done. right. left. split_and!; [done|lia|lia].
Qed.

(** A cell that no goroutine mentions: vote goroutines belong to elections of the
    past. *)
Lemma vpairs_old n c x : inv n c → x ∈ vpairs (threads c) → (fst x < length (elections c))%nat.
Proof using Type.
  intros Hi Hx. unfold vpairs in Hx. apply list_elem_of_omap in Hx as (t & Ht & Hv).
  pose proof (inv_thread n c Hi t Ht) as Hok.
  destruct t; simpl in Hv; try done; simplify_eq; simpl in Hok |- *.
  - destruct Hok as (_ & _ & _ & e & He & _). by eapply lookup_lt_Some.
  - destruct Hok as (args & (_ & _ & _ & e & He & _) & _). by eapply lookup_lt_Some.
Qed.

Lemma otherPeers_NoDup rf : NoDup (otherPeers rf).
Proof using Type. apply NoDup_ListNoDup, List.NoDup_filter, NoDup_ListNoDup, NoDup_seq. Qed.

Lemma vpairs_calls p cell (calls : list (nat * RequestVoteArgs)) :
  vpairs ((λ '(peer, args), TVote p cell peer args) <$> calls) = pair cell <$> (fst <$> calls).
Proof using Type. induction calls as [|[i a] l IH]; [done|]. simpl. by f_equal. Qed.

(** The goroutines of a new election ask each peer once. *)
Lemma new_pairs n c peers :
  inv n c → NoDup peers → NoDup (vpairs (threads c) ++ (pair (length (elections c)) <$> peers)).
Proof using Type.
  intros Hi Hn. apply NoDup_app. split_and!; [by apply (inv_pairs n c Hi)| |].
  - intros x Hx Hx'. apply list_elem_of_fmap in Hx' as (i & -> & _).
    apply (vpairs_old n c _ Hi) in Hx. simpl in Hx. lia.
  - apply NoDup_fmap; [|done]. by intros ?? [= ->].
Qed.

(** A new cell adds one election of its candidate. *)
Lemma asked_snoc c c' p T v :
  elections c' = elections c ++ [mkElection p T v] →
  asked c' p T ∧ ∀ q T', asked c' q T' → asked c q T' ∨ q = p ∧ T' = T.
Proof using Type.
  intros He. split.
  - exists (length (elections c)), (mkElection p T v). split; [|done].
    rewrite He. by apply lookup_snoc_Some; right.
  - intros q T' (j & e & Hj & <- & <-). rewrite He in Hj.
    apply lookup_snoc_Some in Hj as [[_ Hj]|[_ <-]]; [left; by exists j, e|by right].
Qed.

(** The goroutines that ask for the votes of a new election. *)
Lemma vote_calls_ok n c rf p cell e (calls : list (nat * RequestVoteArgs)) t :
  fst <$> calls = otherPeers rf → length (peers rf) = n → me rf = p →
  elections c !! cell = Some e → el_cand e = p →
  Forall (λ x, rva_Term (snd x) = el_term e ∧ rva_CandidateId (snd x) = Z.of_nat (me rf)) calls →
  t ∈ ((λ '(peer, args), TVote p cell peer args) <$> calls) → thread_ok n c t.
Proof using Type.
  intros Hfst Hl Hm He Hc Hall Ht. apply list_elem_of_fmap in Ht as ([peer args] & -> & Hin). simpl.
  pose proof (proj1 (Forall_forall _ _) Hall _ Hin) as [Ha1 Ha2]. simpl in Ha1, Ha2.
  assert (Hpeer : peer ∈ otherPeers rf) by (rewrite <- Hfst; apply list_elem_of_fmap; by exists (peer, args)).
  apply otherPeers_lt in Hpeer as [H1 H2]. split_and!; [lia|congruence|congruence|].
  exists e. by split_and!.
Qed.

Lemma inv_startElection n c k p rf rf' term calls loop :
  inv n c → threads c !! k = Some (TElectionLoop p) → nodes c !! p = Some rf →
  startElection rf = Some (rf', term, calls) → no_vote loop →
  inv n (mkCluster (<[p := rf']> (nodes c)) (elections c ++ [mkElection p term 1])
           (respawn k (loop ++ ((λ '(peer, args), TVote p (length (elections c)) peer args) <$> calls))
              (threads c))
           (net c) (replies c) (applied c)).
Proof using Type.
  intros Hi Hk Hp Hs Hloop. set (c' := mkCluster _ _ _ _ _ _).
  pose proof (start_vote_change _ _ _ _ Hs) as Hvc.
  destruct (startElection_vote _ _ _ _ Hs) as (Hpe & Hme & Hst & Ht & -> & Hv & Hb & Hfst & Hall).
  destruct (inv_node n c Hi _ _ Hp) as (Hm & Hl & Hok).
  pose proof (lookup_lt_Some _ _ _ Hp) as Hlt.
  set (T := currentTerm rf') in *. set (cell := length (elections c)) in *.
  assert (Hg : grows c c').
  { split_and!; try done. intros j e He. exists e. split; [|done]. by apply lookup_app_l_Some. }
  assert (Hns : nodes_step vmove c c').
  { eapply nodes_step_insert; [apply vmove_refl|done|done|by apply vote_change_vmove]. }
  assert (Hnode : nodes c' !! p = Some rf') by by apply list_lookup_insert_eq.
  destruct (asked_snoc c c' p T 1 eq_refl) as [Hasked Hask].
  destruct (inv_votes_step n c c' Hi Hns) as [Hvoted Huniq].
  { intros q T' z [H|[H ->]]; [left; by left|].
    destruct (Hask q T' H) as [H'|[-> ->]]; [left; by right|right].
    exists rf, rf'. split; [done|]. split; [done|].
    split; [lia|]. split; [lia|]. split; [left; lia|].
    rewrite Hb. unfold tv. fold T. congruence. }
  destruct (inv_node_step n c c' Hi Hns) as [Hlen Hnodes].
  assert (Hvp : vpairs (threads c') ≡ₚ vpairs (threads c) ++ (pair cell <$> otherPeers rf)).
  { simpl. unfold respawn. rewrite !vpairs_app, vpairs_calls, Hfst, (no_vote_vpairs loop Hloop).
    by rewrite (vpairs_delete k (threads c) _ Hk). }
  constructor; try done.
  - intros q rf2 Hq Hs2. simpl in Hq.
    apply list_lookup_insert_Some in Hq as [(<- & <- & _)|(Hne & Hq)]; [done|].
    eapply asked_mono; [done|]. by eapply (inv_role n c Hi).
  - apply (inv_net n c Hi).
  - apply (inv_replies n c Hi).
  - rewrite Hvp. apply (new_pairs n c _ Hi), otherPeers_NoDup.
  - intros t [Ht'|Ht']%respawn_elem;
      [|eapply thread_ok_grows; [done|by apply (inv_thread n c Hi)]].
    apply elem_of_app in Ht' as [Ht'|Ht']; [by eapply no_vote_ok|].
    apply (vote_calls_ok n c' rf p cell (mkElection p T 1) calls); try done.
    by apply lookup_snoc_Some; right.
  - intros j e He. simpl in He. apply lookup_snoc_Some in He as [[Hj He]|[-> <-]].
    + eapply cell_ok_grows; [done|by apply (inv_cell n c Hi)|done..|].
      intros v. rewrite Hvp. intros [?|Hx]%elem_of_app; [done|].
      apply list_elem_of_fmap in Hx as (i & [= -> _] & _). unfold cell in Hj. lia.
    + exists []. split_and!; [constructor|done|by intros v ?%not_elem_of_nil].
  - intros q T' (rf2 & Hq & Hs2 & Ht2). simpl in Hq.
    apply list_lookup_insert_Some in Hq as [(<- & <- & _)|(Hne & Hq)]; [congruence|].
    eapply elected_mono; [done|]. apply (inv_leader n c Hi). by exists rf2.
Qed.

Lemma inv_runElection n c k now d c' : inv n c → runElection c k now d = Some c' → inv n c'.
Proof using Type.
  intros Hi. unfold runElection. destruct (threads c !! k) as [[p| | | | | | | |]|] eqn:Ek; try done.
  destruct (nodes c !! p) as [rf|] eqn:Ep; [|done]. simpl. unfold electionTimeout.
  assert (Hloop : ∀ rf', no_vote (if killed rf' then [] else [TElectionLoop p] : list (thread Command))).
  { intros rf'. destruct (killed rf'); repeat constructor. }
  destruct (_ && _).
  - destruct (startElection rf) as [[[rf' term] calls]|] eqn:Es; [|done]. simpl.
    intros E. simplify_eq. by eapply inv_startElection.
  - simpl. intros E. simplify_eq. eapply inv_local; [done..|].
    eapply nstep_insert; [done|done|apply nstep_refl].
Qed.

(** ** Counting votes *)
Lemma handleVoteReply_nmove rf term votes reply rf' votes' won :
  handleVoteReply rf term votes reply = (rf', votes', won) →
  vmove rf rf' ∧
  (state rf' ≠ Follower → state rf ≠ Follower ∧ currentTerm rf' = currentTerm rf) ∧
  (votes' = votes ∨ votes' = votes + 1 ∧ rvr_VoteGranted reply = true) ∧
  (state rf' = Leader → state rf = Leader ∨
     votes' = votes + 1 ∧ currentTerm rf' = term ∧ majority rf <= votes').
Proof using Type.
  intros E. pose proof (handleVoteReply_vote rf term votes reply) as H. rewrite E in H.
  destruct won.
  - destruct H as (-> & Hv & Hg & Ht & Hs & Hm). split_and!; try done.
    + apply vote_change_vmove. split_and!; try done. by left.
    + intros _. by rewrite Hs.
    + by right.
    + intros _. by right.
  - destruct H as ((Hv & Hs) & Hc). split_and!; [by apply vote_change_vmove| |done|].
    + intros Hn. destruct Hs as [?|[Hs ?]]; [done|]. by rewrite <- Hs.
    + intros Hl. left. destruct Hs as [?|[Hs ?]]; congruence.
Qed.

(** The cell of a reply that carries a vote: its peer had not been counted. *)
Lemma cell_ok_vote n c k p cell peer req e votes elections' ts nodes' :
  inv n c → threads c !! k = Some (TVoteCall p cell peer req) → no_vote ts →
  elections c !! cell = Some e →
  votes = el_votes e ∨ votes = el_votes e + 1 ∧ granted c peer (el_term e) (Z.of_nat (el_cand e)) →
  elections' = <[cell := mkElection (el_cand e) (el_term e) votes]> (elections c) →
  ∀ j e', elections' !! j = Some e' →
  cell_ok n (mkCluster nodes' elections' (respawn k ts (threads c)) (net c) (replies c)
               (applied c)) j e'.
Proof using Type.
  intros Hi Hk Hts He Hv -> j e' Hj. set (c' := mkCluster _ _ _ _ _ _).
  pose proof (vpairs_delete k (threads c) _ Hk) as Hp. simpl in Hp.
  assert (Hp' : vpairs (threads c') = vpairs (delete k (threads c))).
  { simpl. unfold respawn. by rewrite vpairs_app, (no_vote_vpairs ts Hts), app_nil_r. }
  assert (Hsub : ∀ x, x ∈ vpairs (threads c') → x ∈ vpairs (threads c)).
  { intros x. rewrite Hp', Hp. by right. }
  apply list_lookup_insert_Some in Hj as [(<- & <- & _)|(Hne & Hj)].
  - destruct (inv_cell n c Hi _ _ He) as (vs & HN & Hc & HV).
    destruct Hv as [->|[-> Hg]].
    { exists vs. split_and!; [done..|]. intros v Hin. destruct (HV v Hin) as (?&?&?&Hni).
      split_and!; try done. intros Hx. by apply Hni, Hsub. }
    pose proof (inv_thread n c Hi _ (list_elem_of_lookup_2 _ _ _ Hk)) as Hok. simpl in Hok.
    destruct Hok as (args & (Hlt & Hnp & _ & e0 & He0 & Hcand & _) & _). simplify_eq.
    exists (peer :: vs). split_and!.
    + constructor; [|done]. intros Hin. destruct (HV peer Hin) as (_ & _ & _ & Hni).
      apply Hni. rewrite Hp. by left.
    + simpl. rewrite zlen_cons. lia.
    + intros v [->|Hin]%elem_of_cons; cbn [el_cand el_term].
      * split_and!; try done. rewrite Hp'. pose proof (inv_pairs n c Hi) as HND.
        rewrite Hp in HND. by apply NoDup_cons in HND as [? _].
      * destruct (HV v Hin) as (?&?&?&Hni). split_and!; try done. intros Hx. by apply Hni, Hsub.
  - destruct (inv_cell n c Hi _ _ Hj) as (vs & HN & Hc & HV). exists vs. split_and!; [done..|].
    intros v Hin. destruct (HV v Hin) as (?&?&?&Hni). split_and!; try done.
    intros Hx. by apply Hni, Hsub.
Qed.

(** A candidate whose cell counts a majority, more than its own vote, is elected. *)
Lemma cell_elected n c k e p T :
  cell_ok n c k e → (p < n)%nat → el_cand e = p → el_term e = T → asked c p T →
  1 < el_votes e → Z.of_nat n / 2 + 1 <= el_votes e → elected n c p T.
Proof using Type.
  intros (vs & HN & Hc & HV) Hp <- <- Ha H1 Hmaj. split_and!; [done|done|]. exists vs. split_and!.
  - intros ->. rewrite zlen_nil in Hc. lia.
  - constructor; [|done]. intros Hin. by destruct (HV _ Hin) as (_ & ? & _).
  - rewrite zlen_cons. lia.
  - intros v Hin. by destruct (HV v Hin) as (? & _ & ? & _).
Qed.

(** Counting a vote changes only the count of its cell. *)
Lemma count_vote c c' cell e votes :
  elections c !! cell = Some e →
  elections c' = <[cell := mkElection (el_cand e) (el_term e) votes]> (elections c) →
  net c' = net c → replies c' = replies c → grows c c' ∧ ∀ q T, asked c' q T → asked c q T.
Proof using Type.
  intros He He' Hn Hr. split.
  - split_and!; [|by rewrite Hn|by rewrite Hr]. intros i e0 Hi. rewrite He'.
    destruct (decide (i = cell)) as [->|Hne].
    + simplify_eq. eexists. split; [apply list_lookup_insert_eq; by eapply lookup_lt_Some|done].
    + exists e0. split; [|done]. by rewrite list_lookup_insert_ne by done.
  - intros q T (i & e0 & Hi & <- & <-). rewrite He' in Hi.
    apply list_lookup_insert_Some in Hi as [(<- & <- & _)|(_ & Hi)]; by eexists _, _.
Qed.

Lemma inv_voteReply n c k j p cell peer req reply rf e rf' votes won :
  inv n c → threads c !! k = Some (TVoteCall p cell peer req) →
  replies c !! j = Some (req, ReplyVote reply) → nodes c !! p = Some rf →
  elections c !! cell = Some e →
  handleVoteReply rf (el_term e) (el_votes e) reply = (rf', votes, won) →
  inv n (mkCluster (<[p := rf']> (nodes c))
           (<[cell := mkElection (el_cand e) (el_term e) votes]> (elections c))
           (respawn k (if won then [THeartbeatLoop p] else []) (threads c))
           (net c) (replies c) (applied c)).
Proof using Type.
  intros Hi Hk Hj Hp He Hh. set (e' := mkElection _ _ _). set (c' := mkCluster _ _ _ _ _ _).
  destruct (handleVoteReply_nmove _ _ _ _ _ _ _ Hh) as (Hmv & Hrole & Hvotes & Hlead).
  destruct (inv_node n c Hi _ _ Hp) as (Hm & Hl & _).
  pose proof (lookup_lt_Some _ _ _ Hp) as Hlt. pose proof (inv_len n c Hi) as Hn.
  assert (Hts : no_vote (if won then [THeartbeatLoop p] else [] : list (thread Command)))
    by (destruct won; repeat constructor).
  destruct (count_vote c c' cell e votes He eq_refl eq_refl eq_refl) as [Hg Hask].
  assert (Hns : nodes_step vmove c c').
  { eapply nodes_step_insert; [apply vmove_refl|done|done|done]. }
  destruct (inv_votes_step n c c' Hi Hns) as [Hvoted Huniq].
  { intros q T z [H|[H ->]]; left; [by left|right; split; [by apply Hask|done]]. }
  destruct (inv_node_step n c c' Hi Hns) as [Hlen Hnodes].
  pose proof (inv_thread n c Hi _ (list_elem_of_lookup_2 _ _ _ Hk)) as Hok. simpl in Hok.
  destruct Hok as (args & (Hpn & Hpp & Hcid & e0 & He0 & Hcand & Hterm) & Hnet).
  assert (e0 = e) as -> by congruence.
  assert (Hgr : rvr_VoteGranted reply = true → granted c peer (el_term e) (Z.of_nat (el_cand e))).
  { intros Hr. destruct reply as [t g]. simpl in Hr. subst g. exists j, req, args, t. split_and!; [done..|congruence]. }
  assert (Hcells : ∀ i e2, elections c' !! i = Some e2 → cell_ok n c' i e2).
  { eapply (cell_ok_vote _ c k); [done|done|done|done| |done].
    destruct Hvotes as [?|[? Hgv]]; [by left|right]. split; [done|by apply Hgr]. }
  constructor; try done.
  - intros q rf2 Hq Hs2. simpl in Hq. eapply asked_mono; [done|].
    apply list_lookup_insert_Some in Hq as [(<- & <- & _)|(Hne & Hq)].
    + destruct (Hrole Hs2) as [Hs ->]. by eapply (inv_role _ c Hi).
    + by eapply (inv_role _ c Hi).
  - apply (inv_net _ c Hi).
  - apply (inv_replies _ c Hi).
  - eapply NoDup_submseteq_l; [|by apply (inv_pairs _ c Hi)]. simpl.
    eapply vpairs_respawn; [done|]. rewrite no_vote_vpairs by done. apply submseteq_nil_l.
  - intros t [Ht|Ht]%respawn_elem; [by eapply no_vote_ok|].
    eapply thread_ok_grows; [done|by apply (inv_thread _ c Hi)].
  - intros q T (rf2 & Hq & Hs2 & Ht2). simpl in Hq.
    apply list_lookup_insert_Some in Hq as [(<- & <- & _)|(Hne & Hq)];
      [|eapply elected_mono; [done|]; apply (inv_leader _ c Hi); by exists rf2].
    destruct (Hlead Hs2) as [Hl2|(Hv & Ht & Hmaj)].
    { eapply elected_mono; [done|]. apply (inv_leader _ c Hi). exists rf. split_and!; [done..|].
      destruct Hrole as [_ Hct]; [by rewrite Hs2|]. congruence. }
    destruct (inv_cell n c Hi _ _ He) as (vs0 & _ & Hc0 & _). pose proof (zlen_nonneg vs0).
    unfold majority, zlen in Hmaj. rewrite Hl in Hmaj.
    apply (cell_elected n c' cell e'); [|by rewrite <- Hn|done|by rewrite <- Ht2, Ht| |simpl; lia|done].
    + apply Hcells, list_lookup_insert_eq. by eapply lookup_lt_Some.
    + eapply asked_mono; [done|]. exists cell, e. split_and!; congruence.
Qed.

Lemma inv_receive n c k j c' : inv n c → receive c k j = Some c' → inv n c'.
Proof using Type.
  intros Hi. unfold receive. destruct (replies c !! j) as [[i r]|] eqn:Ej; [|done]. simpl.
  destruct (threads c !! k) as [t|] eqn:Ek; [|done]. simpl.
  destruct t as [| | |p cell peer req| | | |p peer req args|p peer req args], r as [reply|reply|reply];
    try done; (case_decide as Hr; [|done]); subst i;
    (destruct (nodes c !! p) as [rf|] eqn:Ep; [|done]); simpl.
  - destruct (elections c !! cell) as [e|] eqn:Ee; [|done]. simpl.
    destruct (handleVoteReply _ _ _ _) as [[rf' votes] won] eqn:Eh. intros E. simplify_eq.
    by eapply inv_voteReply.
  - destruct (handleAppendReply rf peer args reply) as [rf'|] eqn:Eh; [|done]. simpl.
    intros E. simplify_eq. eapply inv_local; [done..|constructor|].
    eapply nstep_insert; [done|done|by eapply vstep_nstep, handleAppendReply_vstep].
  - destruct (handleSnapshotReply rf peer args reply) as [rf'|] eqn:Eh; [|done]. simpl.
    intros E. simplify_eq. eapply inv_local; [done..|constructor|].
    eapply nstep_insert; [done|done|by eapply vstep_nstep, handleSnapshotReply_vstep].
Qed.

(** ** The invariant *)
Lemma inv_cluster_step n c ev c' : inv n c → cluster_step c ev = Some c' → inv n c'.
Proof using Type.
  intros Hi E. destruct ev; simpl in E;
    eauto using inv_runElection, inv_runThread, inv_serve, inv_receive, inv_callFails, inv_restart.
  - by eapply (inv_service n c (EvStart p command)).
  - by eapply (inv_service n c (EvSnapshot p index snap)).
  - by eapply (inv_service n c (EvKill p)).
Qed.

Lemma inv_cluster_run n c evs c' : inv n c → cluster_run c evs = Some c' → inv n c'.
Proof using Type.
  revert c. induction evs as [|ev evs IH]; intros c Hi; simpl; [by intros [= <-]|].
  destruct (cluster_step c ev) as [c1|] eqn:E; [|done]. simpl. apply IH.
  by eapply inv_cluster_step.
Qed.

Lemma boot_initial ps p now : boot (Make ps p MakePersister now) = (0, -1).
Proof using Type.
  unfold boot. destruct (Make_fixed ps p MakePersister now) as (_ & _ & -> & _). done.
Qed.

Lemma inv_init ps now : inv (length ps) (cluster_init ps now : cluster Command).
Proof using Type.
  assert (Hnode : ∀ p rf, nodes (cluster_init ps now : cluster Command) !! p = Some rf →
                    rf = Make ps p MakePersister now).
  { intros p rf Hp. simpl in Hp. apply list_lookup_fmap_Some in Hp as (q & -> & Hq).
    apply lookup_seq in Hq as [-> _]. done. }
  assert (Hth : no_vote (threads (cluster_init ps now : cluster Command))).
  { apply Forall_bind, Forall_true. intros p. repeat constructor. }
  constructor.
  - simpl. by rewrite length_fmap, length_seq.
  - intros p rf Hp. rewrite (Hnode p rf Hp).
    destruct (Make_fixed ps p MakePersister now) as (Hpe & Hm & _ & _).
    split_and!; [done|congruence|]. unfold boot_ok. rewrite boot_initial. done.
  - intros p rf Hp. by rewrite (Hnode p rf Hp).
  - by intros q T z [(j & i & args & t & [=] & _)|[(k & e & [=] & _) _]].
  - by intros q T z1 z2 [(j & i & args & t & [=] & _)|[(k & e & [=] & _) _]].
  - done.
  - done.
  - rewrite no_vote_vpairs by done. constructor.
  - intros t Ht. by eapply no_vote_ok.
  - done.
  - intros p T (rf & Hp & Hs & _). by rewrite (Hnode p rf Hp) in Hs.
Qed.

Lemma inv_reachable ps now c : reachable ps now c → inv (length ps) c.
Proof using Type. intros [evs H]. eapply inv_cluster_run; [apply inv_init|done]. Qed.

(** ** Nothing is taken back *)
Lemma grows_refl c : grows c c.
Proof using Type. split_and!; [|done|done]. intros k e He. by exists e. Qed.

Lemma grows_trans c1 c2 c3 : grows c1 c2 → grows c2 c3 → grows c1 c3.
Proof using Type.
  intros (E1 & N1 & R1) (E2 & N2 & R2).
  split_and!; [|by etrans|by etrans].
  intros k e He. destruct (E1 k e He) as (e' & He' & ? & ?).
  destruct (E2 k e' He') as (e'' & ? & ? & ?). exists e''. split_and!; congruence.
Qed.

Lemma grows_same c c' :
  elections c' = elections c → net c `prefix_of` net c' → replies c `prefix_of` replies c' →
  grows c c'.
Proof using Type. intros He ??. split_and!; [|done|done]. rewrite He. eauto. Qed.

Lemma receive_grows c k j c' : receive c k j = Some c' → grows c c'.
Proof using Type.
  unfold receive. intros E. destruct (replies c !! j) as [[i r]|]; [|done]. simpl in E.
  destruct (threads c !! k) as [t|]; [|done]. simpl in E.
  destruct t, r; try done; (case_decide; [|done]); (destruct (nodes c !! p); [|done]); simpl in E.
  - destruct (elections c !! cell) as [e|] eqn:Ee; [|done]. simpl in E.
    destruct (handleVoteReply _ _ _ _) as [[? ?] ?]. simplify_eq. split_and!; [|done|done].
    intros k' e' He'. simpl. destruct (decide (k' = cell)) as [->|].
    + eexists. rewrite list_lookup_insert_eq by (by eapply lookup_lt_Some).
      simplify_eq. by split_and!.
    + exists e'. by rewrite list_lookup_insert_ne by done.
  - destruct (handleAppendReply _ _ _ _); [|done]. simpl in E. simplify_eq. by apply grows_same.
  - destruct (handleSnapshotReply _ _ _ _); [|done]. simpl in E. simplify_eq. by apply grows_same.
Qed.

Lemma runThread_grows c k c' : runThread c k = Some c' → grows c c'.
Proof using Type.
  unfold runThread. intros E.
  destruct (threads c !! k) as [t|]; [|done]. destruct t; try done.
  - destruct (nodes c !! p); [|done]. simpl in E.
    destruct (applyLoop_step _ _) as [[[? ?] ?]|]; [|done]. simpl in E. simplify_eq.
    by apply grows_same.
  - simplify_eq. apply grows_same; [done|by eexists|done].
  - destruct (nodes c !! p); [|done]. simpl in E. simplify_eq. by apply grows_same.
  - destruct (nodes c !! p); [|done]. simpl in E. simplify_eq. by apply grows_same.
  - destruct (nodes c !! p); [|done]. simpl in E.
    destruct (heartbeatBegin _ _ _ _ _) as [[| |]|]; [| | |done]; simpl in E; simplify_eq;
      (apply grows_same; [done| |done]); simpl; [done|by eexists..].
Qed.

Lemma cluster_step_grows c ev c' : cluster_step c ev = Some c' → grows c c'.
Proof using Type.
  destruct ev; simpl; [|apply runThread_grows| |apply receive_grows| | | | |].
  - unfold runElection. destruct (threads c !! k) as [[]|]; try done.
    destruct (nodes c !! p) as [rf|]; [|done]. simpl.
    destruct (electionTimeout _ _ _) as [[rf' [[term calls]|]]|]; [| |done]; simpl;
      intros E; simplify_eq; [|by apply grows_same].
    split_and!; [|done|done]. intros j e He. exists e. split; [|done]. by apply lookup_app_l_Some.
  - unfold serve. destruct (net c !! i) as [[p call]|]; [|done]. simpl.
    destruct (nodes c !! p) as [rf|]; [|done]. simpl. intros E.
    assert (∃ rf' r, c' = mkCluster (<[p := rf']> (nodes c)) (elections c) (threads c) (net c)
              (replies c ++ [(i, r)]) (applied c)) as (rf' & r & ->).
    { destruct call;
        [destruct (RequestVote _ _ _) as [[rf' r]|] eqn:Eh|destruct (AppendEntries _ _ _) as [[rf' r]|] eqn:Eh
        |destruct (InstallSnapshot _ _ _) as [[rf' r]|] eqn:Eh]; try done; simpl in E; simplify_eq; eauto. }
    apply grows_same; [done|done|by eexists].
  - unfold callFails. destruct (threads c !! k) as [[]|]; try done; intros E; simplify_eq;
      by apply grows_same.
  - unfold callStart. destruct (nodes c !! p) as [rf|]; [|done]. simpl.
    destruct (Start rf command) as [[[? ?] ?] ?]. intros E; simplify_eq. by apply grows_same.
  - unfold callSnapshot. destruct (nodes c !! p) as [rf|]; [|done]. simpl.
    destruct (Snapshot _ _ _); [|done]. simpl. intros E; simplify_eq. by apply grows_same.
  - unfold callKill. destruct (nodes c !! p) as [rf|]; [|done]. simpl.
    intros E; simplify_eq. by apply grows_same.
  - unfold restart. destruct (nodes c !! p) as [rf|]; [|done]. simpl.
    intros E; simplify_eq. by apply grows_same.
Qed.

Lemma cluster_run_grows c evs c' : cluster_run c evs = Some c' → grows c c'.
Proof using Type.
  revert c. induction evs as [|ev evs IH]; intros c; simpl; [intros [= <-]; apply grows_refl|].
  destruct (cluster_step c ev) as [c1|] eqn:E; [|done]. simpl. intros H.
  eapply grows_trans; [by eapply cluster_step_grows|by apply IH].
Qed.

(** ** The theorems *)

(** C10. Election safety: over a whole run of the cluster, with any messages lost,
    duplicated or reordered and any peers stopped and restarted from their
    persisters, two peers that lead in the same term are the same peer. *)
Theorem election_safety ps now c evs c' p p' T :
  reachable ps now c → cluster_run c evs = Some c' →
  is_leader c p T → is_leader c' p' T → p = p'.
Proof using Type.
  intros Hr%inv_reachable Hrun Hl Hl'.
  pose proof (inv_cluster_run _ _ _ _ Hr Hrun) as Hi'.
  apply (elected_unique (length ps) c' p p' T Hi'); [|by apply (inv_leader _ _ Hi')].
  eapply elected_mono; [by eapply cluster_run_grows|]. by apply (inv_leader _ _ Hr).
Qed.

(** A leader was elected: it started an election in its term and has, with
    its own vote, those of a majority of the peers, each the reply of a distinct
    other peer to its request. *)
Theorem leader_has_majority ps now c p T :
  reachable ps now c → is_leader c p T → elected (length ps) c p T.
Proof using Type. intros Hr%inv_reachable. by apply inv_leader. Qed.

(** C28. A peer grants its vote of a term to one candidate only, also across
    crashes and restarts, and a candidate grants no other than itself. *)
Theorem one_vote_per_term ps now c q T z :
  reachable ps now c → granted c q T z →
  (∀ z', granted c q T z' → z' = z) ∧ (asked c q T → z = Z.of_nat q).
Proof using Type.
  intros Hr%inv_reachable Hg. split.
  - intros z' Hg'. eapply (inv_uniq _ _ Hr); by left.
  - intros Ha. eapply (inv_uniq _ _ Hr); [by left|by right].
Qed.

(** A cluster of a single peer never has a leader: the votes are counted only
    when a reply arrives, and there is nobody to reply. *)
Theorem single_node_never_leads ps now c p T :
  length ps = 1%nat → reachable ps now c → ¬ is_leader c p T.
Proof using Type.
  intros H1 Hr%inv_reachable Hl. apply (inv_leader _ _ Hr) in Hl.
  destruct Hl as (Hp & _ & vs & Hne & HN & _ & HV). rewrite H1 in *.
  destruct vs as [|v vs]; [done|]. destruct (HV v) as [Hv _]; [by left|].
  apply NoDup_cons in HN as [HN _]. apply HN. replace v with p by lia. left.
Qed.

(** What a restart would give back never exceeds the peer's term; at the same
    term it is the peer's vote, and a peer ahead of its persister has no vote. *)
Theorem persisted_vote_safe ps now c p rf now' :
  reachable ps now c → nodes c !! p = Some rf →
  let r := Make (peers rf) (me rf) (persister rf) now' in
  currentTerm r <= currentTerm rf ∧
  (currentTerm r = currentTerm rf → votedFor r = votedFor rf) ∧
  (currentTerm r < currentTerm rf → votedFor rf = -1).
Proof using Type.
  intros Hr%inv_reachable Hp. destruct (inv_node _ _ Hr _ _ Hp) as (_ & _ & Hok). simpl.
  pose proof (Make_tv (peers rf) (me rf) (persister rf) now') as Ht. unfold tv in Ht.
  unfold boot_ok, boot in Hok. rewrite <- Ht in Hok. exact Hok.
Qed.

End Safety.

(** ** A run of three peers *)
Module Runs.

Definition ps3 : list Peer := [NewPeer "a"; NewPeer "b"; NewPeer "c"].
Definition c0 : cluster Z := cluster_init ps3 0.

(** Peer 0 times out, asks peer 1, which grants its vote, and wins term 1. *)
Definition elect0 : list (event Z) :=
  [EvElection 0 300 260; EvRun 6; EvServe 0 301; EvReply 7 0].
Definition c1 : cluster Z := default c0 (cluster_run c0 elect0).

(** Peer 0 then crashes and restarts, and peer 1 is elected in term 2 with the
    vote of peer 0. *)
Definition elect1 : list (event Z) :=
  [EvRestart 0 302; EvElection 0 700 260; EvRun 6; EvServe 1 702; EvReply 7 1].
Definition c2 : cluster Z := default c0 (cluster_run c1 elect1).

Lemma c1_reachable : reachable ps3 0 c1.
Proof. exists elect0. vm_compute. reflexivity. Qed.

Lemma c1_leader : is_leader c1 0 1.
Proof. eexists. split_and!; [vm_compute; reflexivity|done|done]. Qed.

Lemma c2_leader : is_leader c2 1 2.
Proof. eexists. split_and!; [vm_compute; reflexivity|done|done]. Qed.

(** After the crash of its leader term 1 still has no other one. *)
Lemma election_safety_witness :
  is_leader c2 1 2 ∧ ∀ p', is_leader c2 p' 1 → 0%nat = p'.
Proof.
  split; [apply c2_leader|]. intros p' Hl.
  apply (election_safety ps3 0 c1 elect1 c2 0 p' 1);
    [apply c1_reachable|vm_compute; reflexivity|apply c1_leader|done].
Defined.

Lemma leader_has_majority_witness : elected 3 c1 0 1.
Proof. apply (leader_has_majority ps3 0 c1 0 1); [apply c1_reachable|apply c1_leader]. Defined.

Lemma one_vote_per_term_witness : granted c1 1 1 0 ∧ ∀ z, granted c1 1 1 z → z = 0.
Proof.
  assert (Hg : granted c1 1 1 0).
  { exists 0%nat, 0%nat, (mkRVArgs 1 0 0 0), 0. split_and!; vm_compute; reflexivity. }
  split; [done|]. apply (one_vote_per_term ps3 0 c1 1 1 0); [apply c1_reachable|done].
Defined.

Lemma single_node_never_leads_witness :
  ∃ c : cluster Z, cluster_run (cluster_init [NewPeer "a"] 0) [EvElection 0 300 260] = Some c ∧
    (currentTerm <$> nodes c) = [1] ∧ ¬ is_leader c 0 1.
Proof.
  destruct (cluster_run (cluster_init [NewPeer "a"] 0) [EvElection 0 300 260] : option (cluster Z))
    as [c|] eqn:E; [|vm_compute in E; discriminate].
  exists c. split_and!; [done|vm_compute in E; by simplify_eq|].
  apply (single_node_never_leads [NewPeer "a"] 0); [done|by eexists].
Defined.

Lemma persisted_vote_safe_witness :
  ∃ rf : Raft Z, nodes c1 !! 1%nat = Some rf ∧
    currentTerm (Make (Command := Z) (peers rf) (me rf) (persister rf) 9) <= currentTerm rf.
Proof.
  destruct (nodes c1 !! 1%nat) as [rf|] eqn:E; [|vm_compute in E; discriminate].
  exists rf. split; [done|]. apply (persisted_vote_safe ps3 0 c1 1%nat rf 9); [apply c1_reachable|done].
Defined.

End Runs.
