(* ===== verification/ClusterInv.v ===== *)
(** * The invariant of the logs of a cluster

    [linv] relates the peers, goroutines and messages of a cluster to a history
    (History.v): the log of a peer is the end of its full log, what it has
    snapshotted, committed or applied is stable, a leader's log is that of its
    term, and requests and replies say what they mean.  [linv_step] is the common
    part of every event; ClusterSteps.v has the events. *)
From stdpp Require Import base tactics list strings numbers option sets.
From Stdlib Require Import ZArith Lia.
From S2P Require Import Prelude.
From S2P Require Import Gob.
From S2P Require Import Persister.
From S2P Require Import RaftNode.
From S2P Require Import RaftLog.
From S2P Require Import RaftOps.
From S2P Require Import History.
From S2P Require Import HistorySteps.
From S2P Require Import Cluster.
From S2P Require Import ClusterVotes.
From S2P Require Import ClusterSafety.

Local Open Scope Z_scope.

Section LogInv.
Context {Command : Type}.
Context {gobZ : Gob Z} {gobLog : Gob (list (LogEntry Command))}.
Implicit Types (rf : Raft Command) (c : cluster Command) (h : history Command).
Implicit Types (w s : list (LogEntry Command)).

(** ** What the history is about *)

(** The term a restart of a peer gives back. *)
Definition floor c (v : nat) : Z :=
  match nodes c !! v with Some rf => fst (boot rf) | None => 0 end.
Definition votes c (v : nat) (T : Z) (z : nat) : Prop := voted c v T (Z.of_nat z).

(** The log in memory, and the one a restart gives back. *)
Definition mem_log rf : list (LogEntry Command) * Z * Z :=
  (log rf, lastIncludedIndex rf, lastIncludedTerm rf).
Definition disk_log (ps : Persister) : list (LogEntry Command) * Z * Z :=
  mem_log (Make [] 0 ps 0).
Arguments disk_log : simpl never.
Definition on_disk rf : Prop := disk_log (persister rf) = mem_log rf.

Definition same_log rf rf' : Prop :=
  mem_log rf' = mem_log rf ∧ commitIndex rf' = commitIndex rf ∧ lastApplied rf' = lastApplied rf ∧
  pendingSnapshot rf' = pendingSnapshot rf.

Section Invariant.
Context (n : nat).

(** ** One peer *)

(** The peer has index [i], and its log up to there is committed. *)
Definition known h (t : Z) w rf (i : Z) : Prop :=
  0 <= i ∧ (i <= lastIncludedIndex rf ∨ stable n h t w i).

Record core h (t : Z) w rf : Prop := {
  co_wf : wf_log h w;
  co_log : log rf ≠ [];
  co_lii : 0 <= lastIncludedIndex rf;
  co_len : zlen w = lastLogIndex rf + 1;
  co_win : ∀ i, lastIncludedIndex rf < i → idx w i = idx (log rf) (logIndex rf i);
  co_disk : on_disk rf;
  co_snap : ∃ s, stable n h t s (lastIncludedIndex rf) ∧
    term_at s (lastIncludedIndex rf) = Some (lastIncludedTerm rf) ∧
    (same w s (lastIncludedIndex rf) ∨ lastIncludedIndex rf < lastLogIndex rf);
  co_commit : known h t w rf (commitIndex rf);
  co_applied : known h t w rf (lastApplied rf);
  co_pending : ∀ msg, pendingSnapshot rf = Some msg → am_CommandValid msg = false;
  co_floor : 0 <= t;
  co_order : lastIncludedIndex rf <= lastApplied rf <= commitIndex rf
}.

(** What a leader of term [T] knows about peer [q]. *)
Definition matched h (T : Z) rf (q : nat) (x : Z) : Prop :=
  0 <= x <= lastLogIndex rf ∧
  (x = 0 ∨ (∃ m, x <= m ∧ h_ack h q T m) ∨ ∃ s, stable n h T s x).

Record leader_role h (t : Z) (p : nat) w rf : Prop := {
  lr_log : h_log h (currentTerm rf) = Some w;
  lr_self : h_leader h (currentTerm rf) = p;
  lr_term : t = currentTerm rf;
  lr_next_len : length (nextIndex rf) = n;
  lr_match_len : length (matchIndex rf) = n;
  lr_next : ∀ q x, nextIndex rf !! q = Some x → 1 <= x <= lastLogIndex rf + 1;
  lr_match : ∀ q x, matchIndex rf !! q = Some x → matched h (currentTerm rf) rf q x
}.

Record candidate_role h (t : Z) (p : nat) w rf : Prop := {
  cr_asked : h_asked h p (currentTerm rf) = w;
  cr_term : t = currentTerm rf;
  cr_other : ∀ l, h_log h (currentTerm rf) = Some l → h_leader h (currentTerm rf) ≠ p;
  cr_pos : 0 < currentTerm rf
}.

Definition role_ok h (t : Z) (p : nat) w rf : Prop :=
  match state rf with
  | Leader => leader_role h t p w rf
  | Candidate => candidate_role h t p w rf
  | Follower => True
  end.

(** ** Messages *)
Definition vote_req h c (args : RequestVoteArgs) : Prop :=
  ∃ z, rva_CandidateId args = Z.of_nat z ∧ votes c z (rva_Term args) z ∧
    let r := h_asked h z (rva_Term args) in
    rva_LastLogIndex args = zlen r - 1 ∧ term_at r (zlen r - 1) = Some (rva_LastLogTerm args).

(** A piece of the log of term [T], sent by its leader; [aea_Term args] is that
    term, or one the sender left before it was elected in [T]. *)
Definition append_from h (T : Z) (args : AppendEntriesArgs Command) : Prop :=
  aea_Term args <= T ∧
  ∃ l, h_log h T = Some l ∧ aea_LeaderId args = Z.of_nat (h_leader h T) ∧
    0 <= aea_PrevLogIndex args ∧
    aea_PrevLogIndex args + zlen (aea_Entries args) < zlen l ∧
    term_at l (aea_PrevLogIndex args) = Some (aea_PrevLogTerm args) ∧
    (∀ k, 0 <= k < zlen (aea_Entries args) →
          idx (aea_Entries args) k = idx l (aea_PrevLogIndex args + 1 + k)) ∧
    aea_LeaderCommit args <= aea_PrevLogIndex args + zlen (aea_Entries args) ∧
    ∃ s, stable n h (aea_Term args) s (aea_LeaderCommit args).

Definition snapshot_from h (args : InstallSnapshotArgs) : Prop :=
  ∃ l s, h_log h (isa_Term args) = Some l ∧
    isa_LeaderId args = Z.of_nat (h_leader h (isa_Term args)) ∧
    stable n h (isa_Term args) s (isa_LastIncludedIndex args) ∧
    term_at s (isa_LastIncludedIndex args) = Some (isa_LastIncludedTerm args).

Definition call_ok h c (q : nat) (call : rpc Command) : Prop :=
  match call with
  | CallVote args => vote_req h c args
  | CallAppend args => aea_LeaderId args ≠ Z.of_nat q ∧ ∃ T, append_from h T args
  | CallSnapshot args => isa_LeaderId args ≠ Z.of_nat q ∧ snapshot_from h args
  end.

(** The sender had been elected again when it read its log. *)
Definition overtaken h (args : AppendEntriesArgs Command) : Prop :=
  ∃ T l, aea_Term args < T ∧ h_log h T = Some l ∧
         aea_LeaderId args = Z.of_nat (h_leader h T).

Definition reply_ok h (q : nat) (call : rpc Command) (r : rpc_reply) : Prop :=
  match call, r with
  | CallAppend args, ReplyAppend reply =>
      overtaken h args ∨
      if aer_Success reply then
        let m := aea_PrevLogIndex args + zlen (aea_Entries args) in
        aer_Term reply = aea_Term args ∧ (∃ l, h_log h (aea_Term args) = Some l ∧ 0 <= m < zlen l) ∧
        ((∃ m', m <= m' ∧ h_ack h q (aea_Term args) m') ∨ ∃ s, stable n h (aea_Term args) s m)
      else ∃ l, h_log h (aea_Term args) = Some l ∧ aer_ConflictIndex reply <= zlen l
  | CallVote _, ReplyVote _ | CallSnapshot _, ReplySnapshot _ => True
  | _, _ => False
  end.

Definition lthread_ok h c (t : thread Command) : Prop :=
  match t with
  | TVote p cell peer args => vote_req h c args
  | TBeat p peer term leaderId commit =>
      peer ≠ p ∧ (peer < n)%nat ∧ leaderId = Z.of_nat p ∧
      (∃ rf, nodes c !! p = Some rf ∧ term <= currentTerm rf) ∧
      ∃ s, stable n h term s commit
  | TAppendCall p peer req args =>
      (peer < n)%nat ∧ aea_LeaderId args = Z.of_nat p ∧ net c !! req = Some (peer, CallAppend args)
  | TSnapshotCall p peer req args =>
      (peer < n)%nat ∧ isa_LeaderId args = Z.of_nat p ∧ net c !! req = Some (peer, CallSnapshot args)
  | _ => True
  end.

(** A command a peer handed to its state machine is committed, and the peer still
    has it or has compacted it. *)
Definition delivered_ok h c (p : nat) (msg : ApplyMsg Command) : Prop :=
  am_CommandValid msg = true →
  ∃ rf s e, nodes c !! p = Some rf ∧ 0 < am_CommandIndex msg ∧
    stable n h (floor c p) s (am_CommandIndex msg) ∧
    idx s (am_CommandIndex msg) = Some e ∧ le_Command e = am_Command msg ∧
    known h (floor c p) (h_full h p) rf (am_CommandIndex msg).

Record linv c h : Prop := {
  li_hist : hist_ok n (floor c) (votes c) h;
  li_core : ∀ p rf, nodes c !! p = Some rf → core h (floor c p) (h_full h p) rf;
  li_role : ∀ p rf, nodes c !! p = Some rf → role_ok h (floor c p) p (h_full h p) rf;
  li_thread : ∀ t, t ∈ threads c → lthread_ok h c t;
  li_net : ∀ i q call, net c !! i = Some (q, call) → call_ok h c q call;
  li_reply : ∀ j i r q call, replies c !! j = Some (i, r) → net c !! i = Some (q, call) →
    reply_ok h q call r;
  li_applied : ∀ p msg, (p, msg) ∈ applied c → delivered_ok h c p msg
}.

(** ** Histories that agree but for one peer *)
Record frame c (p : nat) h h' : Prop := {
  fr_ext : hist_ext h h';
  fr_full : ∀ q, q ≠ p → h_full h' q = h_full h q;
  fr_log : ∀ q T l, q ≠ p → h_log h T = Some l → h_leader h T = q → h_log h' T = Some l;
  fr_new : ∀ q T l, q ≠ p → h_log h' T = Some l → h_leader h' T = q → ∃ l', h_log h T = Some l';
  fr_asked : ∀ z T, votes c z T z → h_asked h' z T = h_asked h z T
}.

Lemma frame_refl c p h : frame c p h h.
Proof using Type. constructor; try done; [apply hist_ext_refl|]. intros q T l _ Hl _. by exists l. Qed.

(** ** Stability of the parts *)
Lemma known_mono h h' t t' w rf i :
  hist_ext h h' → t <= t' → known h t w rf i → known h' t' w rf i.
Proof using Type.
  intros He Ht [Hi [?|Hs]]; (split; [done|]); [by left|right].
  eapply stable_le; [by eapply stable_ext|done|]. lia.
Qed.

Lemma known_le h t w rf i j : known h t w rf i → 0 <= j <= i → known h t w rf j.
Proof using Type.
  intros [Hi [?|Hs]] Hj; (split; [lia|]); [left; lia|right]. by eapply stable_le.
Qed.

Lemma core_mono h h' t t' w rf : hist_ext h h' → t <= t' → core h t w rf → core h' t' w rf.
Proof using Type.
  intros He Ht []. constructor; try done.
  - by eapply wf_log_ext.
  - destruct co_snap0 as (s & Hs & Hlt & Hc). exists s. split_and!; [|done|done].
    eapply stable_le; [by eapply stable_ext|done|lia].
  - by eapply known_mono.
  - by eapply known_mono.
  - lia.
Qed.

(** The log, its snapshot and the indices determine the core. *)
Lemma core_same h t w rf rf' : same_log rf rf' → on_disk rf' → core h t w rf → core h t w rf'.
Proof using Type.
  intros (Hm & Hc & Ha & Hpd) Hd []. unfold mem_log in Hm. injection Hm as Hl Hi Ht.
  assert (Hlast : lastLogIndex rf' = lastLogIndex rf) by (unfold lastLogIndex; congruence).
  constructor; unfold known, logIndex in *; rewrite ?Hlast, ?Hi, ?Hl, ?Ht, ?Hc, ?Ha, ?Hpd; done.
Qed.

Lemma matched_ext h h' T rf q x :
  hist_ext h h' → matched h T rf q x → matched h' T rf q x.
Proof using Type.
  intros He (Hx & [?|[(m & ? & ?)|(s & ?)]]); (split; [done|]); [by left|right; left|right; right].
  - exists m. split; [done|]. by apply He.
  - exists s. by eapply stable_ext.
Qed.

Lemma role_frame c p h h' q t w rf :
  frame c p h h' → q ≠ p → (state rf = Candidate → votes c q (currentTerm rf) q) →
  role_ok h t q w rf → role_ok h' t q w rf.
Proof using Type.
  intros Hf Hq Hv. unfold role_ok. destruct (state rf).
  - done.
  - intros []. constructor; [|done| |done].
    + rewrite (fr_asked _ _ _ _ Hf); [done|]. by apply Hv.
    + intros l Hl Hx. destruct (fr_new _ _ _ _ Hf _ _ _ Hq Hl Hx) as (l' & Hl').
      destruct (proj1 (fr_ext _ _ _ _ Hf) _ _ Hl') as [E _]. rewrite E in Hx. by eapply cr_other0.
  - intros []. constructor; try done.
    + by eapply (fr_log _ _ _ _ Hf).
    + destruct (proj1 (fr_ext _ _ _ _ Hf) _ _ lr_log0) as [-> _]. done.
    + intros r x Hx. eapply matched_ext; [apply Hf|]. by apply lr_match0.
Qed.

Lemma append_from_ext h h' T args : hist_ext h h' → append_from h T args → append_from h' T args.
Proof using Type.
  intros He (Ht & l & Hl & Hld & Hp & Hlen & Hpt & Hent & Hcm & s & Hs).
  destruct (proj1 He _ _ Hl) as (E & l' & Hl' & Hpre). split; [done|]. exists l'.
  assert (Hsame : ∀ i, i < zlen l → same l l' i) by (intros; by apply same_prefix).
  pose proof (zlen_nonneg (aea_Entries args)).
  split_and!; [done|congruence|done| | | |done|exists s; by eapply stable_ext].
  - apply prefix_length in Hpre. unfold zlen in *. lia.
  - rewrite <- Hpt. symmetry. apply (same_term _ _ (aea_PrevLogIndex args)); [apply Hsame; lia|lia].
  - intros k Hk. rewrite Hent by done.
    destruct (Hsame (aea_PrevLogIndex args + 1 + k)) as (_ & _ & Hidx); [lia|]. apply Hidx. lia.
Qed.

Lemma snapshot_from_ext h h' args : hist_ext h h' → snapshot_from h args → snapshot_from h' args.
Proof using Type.
  intros He (l & s & Hl & Hld & Hs & Ht).
  destruct (proj1 He _ _ Hl) as (E & l' & Hl' & _). exists l', s.
  split_and!; [done|congruence|by eapply stable_ext|done].
Qed.

Lemma vote_req_mono c c' p h h' args :
  frame c p h h' → grows c c' → vote_req h c args → vote_req h' c' args.
Proof using Type.
  intros Hf Hg (z & Hz & Hv & Hr). exists z. split_and!; [done|by eapply voted_mono|].
  by rewrite (fr_asked _ _ _ _ Hf).
Qed.

Lemma call_ok_mono c c' p h h' q call :
  frame c p h h' → grows c c' → call_ok h c q call → call_ok h' c' q call.
Proof using Type.
  intros Hf Hg. pose proof (fr_ext _ _ _ _ Hf) as He. destruct call; simpl.
  - by eapply vote_req_mono.
  - intros (? & T & ?). split; [done|]. exists T. by eapply append_from_ext.
  - intros (? & ?). split; [done|]. by eapply snapshot_from_ext.
Qed.

Lemma reply_ok_mono h h' q call r : hist_ext h h' → reply_ok h q call r → reply_ok h' q call r.
Proof using Type.
  intros He. destruct call as [|args|], r as [|reply|]; try done. simpl.
  intros [(T & l & Ht & Hl & Hld)|Hr]; [left|right].
  - destruct (proj1 He _ _ Hl) as (E & l' & Hl' & _). exists T, l'. split_and!; [done..|congruence].
  - destruct (aer_Success reply).
    + destruct Hr as (Ht & (l & Hl & Hm) & Hr). destruct (proj1 He _ _ Hl) as (_ & l' & Hl' & Hp).
      apply prefix_length in Hp. split; [done|]. split; [exists l'; split; [done|unfold zlen in *; lia]|].
      destruct Hr as [(m' & ? & ?)|(s & ?)]; [left|right].
      * exists m'. split; [done|]. by apply He.
      * exists s. by eapply stable_ext.
    + destruct Hr as (l & Hl & Hm). destruct (proj1 He _ _ Hl) as (_ & l' & Hl' & Hp).
      apply prefix_length in Hp. exists l'. split; [done|]. unfold zlen in *. lia.
Qed.

(** What the step of peer [p] from [rf] to [rf'] must keep. *)
Record node_step c c' h h' (p : nat) rf rf' : Prop := {
  ns_floor : floor c p <= floor c' p;
  ns_core : core h' (floor c' p) (h_full h' p) rf';
  ns_role : role_ok h' (floor c' p) p (h_full h' p) rf';
  ns_known : ∀ i, known h (floor c p) (h_full h p) rf i →
                  known h' (floor c' p) (h_full h' p) rf' i
}.

Lemma node_step_refl c h p rf : linv c h → nodes c !! p = Some rf → node_step c c h h p rf rf.
Proof using Type. intros Hl Hp. constructor; [done|by apply Hl|by apply Hl|done]. Qed.

Lemma linv_step c c' h h' p :
  inv n c → linv c h → grows c c' →
  (∀ q, q ≠ p → nodes c' !! q = nodes c !! q) →
  hist_ok n (floor c') (votes c') h' → frame c p h h' →
  (∀ rf', nodes c' !! p = Some rf' → ∃ rf, nodes c !! p = Some rf ∧
     node_step c c' h h' p rf rf' ∧
     ∀ t, t ∈ threads c' → t ∈ threads c → t_node t = p →
          lthread_ok h' c' t ∨ currentTerm rf <= currentTerm rf') →
  (nodes c' !! p = None → nodes c !! p = None) →
  (∀ t, t ∈ threads c' → lthread_ok h' c' t ∨ t ∈ threads c) →
  (∀ i q call, net c' !! i = Some (q, call) → net c !! i = Some (q, call) ∨ call_ok h' c' q call) →
  (∀ j i r q call, replies c' !! j = Some (i, r) → net c' !! i = Some (q, call) →
     replies c !! j = Some (i, r) ∧ net c !! i = Some (q, call) ∨ reply_ok h' q call r) →
  (∀ q msg, (q, msg) ∈ applied c' → (q, msg) ∈ applied c ∨ delivered_ok h' c' q msg) →
  linv c' h'.
Proof using Type.
  intros Hi Hl Hg Hne Hh Hf Hp Hnone Hth Hnet Hrep Happ.
  pose proof (fr_ext _ _ _ _ Hf) as He.
  assert (Hfl : ∀ q, q ≠ p → floor c' q = floor c q)
    by (intros q Hq; unfold floor; by rewrite Hne).
  assert (Hfl' : ∀ q, floor c q <= floor c' q).
  { intros q. destruct (decide (q = p)) as [->|Hq]; [|by rewrite Hfl].
    destruct (nodes c' !! p) as [rf'|] eqn:E'.
    - destruct (Hp rf' eq_refl) as (rf & _ & Hs & _). apply Hs.
    - unfold floor. rewrite E'. by rewrite Hnone. }
  constructor; [done|..].
  - intros q rf Hq. destruct (decide (q = p)) as [->|Hqp].
    + destruct (Hp rf Hq) as (rf0 & _ & Hs & _). apply Hs.
    + rewrite Hfl, (fr_full _ _ _ _ Hf) by done. rewrite Hne in Hq by done.
      eapply core_mono; [done|done|]. by apply Hl.
  - intros q rf Hq. destruct (decide (q = p)) as [->|Hqp].
    + destruct (Hp rf Hq) as (rf0 & _ & Hs & _). apply Hs.
    + rewrite Hfl, (fr_full _ _ _ _ Hf) by done. rewrite Hne in Hq by done.
      eapply role_frame; [done|done| |by apply Hl]. intros Hc. right. split; [|done].
      eapply (inv_role n c Hi); [done|]. by rewrite Hc.
  - intros t Ht. destruct (Hth t Ht) as [|Hold]; [done|].
    pose proof (li_thread _ _ Hl t Hold) as Hok.
    destruct t as [| |? ? ? args| | | |q peer term lid commit|q peer req args|q peer req args];
      try done; simpl in Hok |- *.
    + by eapply vote_req_mono.
    + destruct Hok as (H1 & H2 & H3 & (rf & Hq & Hle) & s & Hs).
      split_and!; [done..| |exists s; by eapply stable_ext].
      destruct (decide (q = p)) as [->|Hqp]; [|exists rf; by rewrite Hne].
      destruct (nodes c' !! p) as [rf'|] eqn:E'; [|specialize (Hnone eq_refl); congruence].
      destruct (Hp rf' eq_refl) as (rf0 & Hq0 & _ & Hmono). simplify_eq.
      destruct (Hmono _ Ht Hold eq_refl) as [(_ & _ & _ & (rf1 & Hq1 & ?) & _)|?].
      * exists rf1. split; [|done]. by rewrite <- E'.
      * exists rf'. split; [done|lia].
    + destruct Hok as (? & ? & Hn). split_and!; [done..|]. eapply prefix_lookup_Some; [done|apply Hg].
    + destruct Hok as (? & ? & Hn). split_and!; [done..|]. eapply prefix_lookup_Some; [done|apply Hg].
  - intros i q call Hi'. destruct (Hnet i q call Hi') as [Hold|]; [|done].
    eapply call_ok_mono; [done|done|]. by eapply (li_net _ _ Hl).
  - intros j i r q call Hj Hi'. destruct (Hrep j i r q call Hj Hi') as [[Hj' Hn]|]; [|done].
    eapply reply_ok_mono; [done|]. by eapply (li_reply _ _ Hl).
  - intros q msg Hm. destruct (Happ q msg Hm) as [Hold|]; [|done]. intros Hv.
    destruct (li_applied _ _ Hl q msg Hold Hv) as (rf & s & e & Hq & Hpos & Hs & He' & Hc & Hk).
    assert (Hst : stable n h' (floor c' q) s (am_CommandIndex msg)).
    { eapply stable_le; [by eapply stable_ext|done|lia]. }
    destruct (decide (q = p)) as [->|Hqp].
    + destruct (nodes c' !! p) as [rf'|] eqn:E'; [|specialize (Hnone eq_refl); congruence].
      destruct (Hp rf' eq_refl) as (rf0 & Hq0 & Hns & _). rewrite Hq in Hq0. injection Hq0 as <-.
      exists rf', s, e. split_and!; try done. by apply (ns_known _ _ _ _ _ _ _ Hns).
    + exists rf, s, e. split_and!; try done; [by rewrite Hne|].
      rewrite (fr_full _ _ _ _ Hf), Hfl by done. by eapply known_mono.
Qed.

Lemma votes_same c c' :
  inv n c → grows c c' → (∀ p T, asked c' p T → asked c p T) →
  (∀ j i t, replies c' !! j = Some (i, ReplyVote (mkRVReply t true)) →
            replies c !! j = Some (i, ReplyVote (mkRVReply t true))) →
  ∀ v T z, votes c' v T z ↔ votes c v T z.
Proof using Type.
  intros Hi Hg Ha Hr v T z. split; [|by apply voted_mono].
  intros [(j & i & args & t & Hj & Hn & H)|[H1 H2]]; [left|right; split; [by apply Ha|done]].
  apply Hr in Hj. exists j, i, args, t. split_and!; [done| |apply H..].
  pose proof (inv_replies n c Hi _ _ _ Hj) as Hlt.
  destruct (lookup_lt_is_Some_2 _ _ Hlt) as [x Hx].
  rewrite (prefix_lookup_Some _ _ _ _ Hx (proj1 (proj2 Hg))) in Hn. by simplify_eq.
Qed.

(** Events that change no peer and no history. *)
Lemma linv_quiet c c' h :
  inv n c → linv c h → grows c c' → nodes c' = nodes c →
  (∀ v T z, votes c' v T z ↔ votes c v T z) →
  (∀ t, t ∈ threads c' → lthread_ok h c' t ∨ t ∈ threads c) →
  (∀ i q call, net c' !! i = Some (q, call) → net c !! i = Some (q, call) ∨ call_ok h c' q call) →
  replies c' = replies c → applied c' = applied c →
  linv c' h.
Proof using Type.
  intros Hi Hl Hg Hn Hv Hth Hnet Hrep Happ.
  assert (Hfl : floor c' = floor c) by (unfold floor; by rewrite Hn).
  apply (linv_step c c' h h 0); try done.
  - intros q _. by rewrite Hn.
  - rewrite Hfl. eapply hist_votes; [done|]. by apply Hl.
  - apply frame_refl.
  - rewrite Hn. intros rf Hp. exists rf. split; [done|]. split; [|by intros; right].
    constructor; rewrite Hfl; [done|by apply Hl|by apply Hl|done].
  - by rewrite Hn.
  - rewrite Hrep. intros j i r q call Hj Hi'.
    destruct (Hnet i q call Hi') as [|Hc]; [by left|].
    pose proof (inv_replies n c Hi _ _ _ Hj) as Hlt. left. split; [done|].
    destruct (lookup_lt_is_Some_2 _ _ Hlt) as [x Hx].
    rewrite (prefix_lookup_Some _ _ _ _ Hx (proj1 (proj2 Hg))) in Hi'. by simplify_eq.
  - rewrite Happ. by left.
Qed.

End Invariant.
End LogInv.
