(* ===== verification/ClusterSteps.v ===== *)
(** * The invariant of the logs: requests and quiet events

    What the core of a peer's state says about its log, and the events of Cluster.v
    that leave the logs alone: goroutines that end or send a request, the apply
    loop, votes and elections. *)
From stdpp Require Import base tactics list strings numbers option sets.
From Stdlib Require Import ZArith Lia.
From S2P Require Import Prelude.
From S2P Require Import Gob.
From S2P Require Import Persister.
From S2P Require Import RaftNode.
From S2P Require Import RaftLog.
From S2P Require Import RaftOps.
From S2P Require Import RaftTheorems.
From S2P Require Import History.
From S2P Require Import HistorySteps.
From S2P Require Import Cluster.
From S2P Require Import ClusterVotes.
From S2P Require Import ClusterSafety.
From S2P Require Import ClusterInv.

Local Open Scope Z_scope.

Section Steps.
Context {Command : Type}.
Context {gobZ : Gob Z} {gobLog : Gob (list (LogEntry Command))}.
Implicit Types (rf : Raft Command) (c : cluster Command) (h : history Command).
Implicit Types (w s : list (LogEntry Command)).

(** ** The log on disk *)
Lemma Make_mem ps me p now : mem_log (Make ps me p now : Raft Command) = disk_log p.
Proof using Type.
  unfold disk_log, mem_log, Make, readPersist. destruct (zlen (ReadRaftState p) <? 1); [done|].
  by destruct (decodeState (ReadRaftState p)) as [[[[[ct vf] lg] lii] lit]|].
Qed.

Lemma on_disk_recoverable rf : recoverable rf → on_disk rf.
Proof using Type.
  intros Hr. unfold on_disk. rewrite <- (Make_mem (peers rf) (me rf) _ 0).
  by rewrite Make_recoverable.
Qed.

Lemma on_disk_persist rf : on_disk (persist rf).
Proof using Type. apply on_disk_recoverable. left. apply durable_persist. Qed.

Lemma on_disk_same rf rf' :
  persister rf' = persister rf → mem_log rf' = mem_log rf → on_disk rf → on_disk rf'.
Proof using Type. unfold on_disk. by intros -> ->. Qed.

(** Fields that are not part of the log in memory. *)
Lemma on_disk_step rf rf' :
  same_persisted rf rf' ∨ durable rf' → on_disk rf → on_disk rf'.
Proof using Type.
  intros [(Hp & _ & _ & Hl & Hi & Ht)|Hd].
  - apply on_disk_same; [done|]. unfold mem_log. congruence.
  - intros _. apply on_disk_recoverable. by left.
Qed.

Section Invariant.
Context (n : nat).

(** ** Reading the log of a peer *)
Lemma core_last h t w rf :
  core n h t w rf → lastIncludedIndex rf <= lastLogIndex rf.
Proof using Type. intros []. by apply lastLogIndex_ge. Qed.

Lemma core_logTerm h t w rf i :
  core n h t w rf → lastIncludedIndex rf < i → logTerm rf i = term_at w i.
Proof using Type.
  intros [] Hi. rewrite logTerm_idx by lia. unfold term_at. by rewrite co_win.
Qed.

(** At its snapshot as well, unless its log has diverged from the snapshot. *)
Lemma core_logTerm_all h t w rf i :
  core n h t w rf → lastIncludedIndex rf <= i →
  term_at w (lastIncludedIndex rf) = Some (lastIncludedTerm rf) → logTerm rf i = term_at w i.
Proof using Type.
  intros Hc Hi Ht. destruct (decide (i = lastIncludedIndex rf)) as [->|].
  - by rewrite logTerm_sentinel.
  - eapply core_logTerm; [done|lia].
Qed.

Lemma core_last_term h t w rf :
  core n h t w rf → logTerm rf (lastLogIndex rf) = term_at w (zlen w - 1).
Proof using Type.
  intros Hc. pose proof (core_last _ _ _ _ Hc) as Hle.
  replace (zlen w - 1) with (lastLogIndex rf) by (rewrite (co_len _ _ _ _ _ Hc); lia).
  destruct (decide (lastIncludedIndex rf < lastLogIndex rf)) as [Hlt|Hge].
  - by eapply core_logTerm.
  - eapply core_logTerm_all; [done|done|].
    destruct (co_snap _ _ _ _ _ Hc) as (s & _ & Hs & [Hsame|?]); [|lia].
    rewrite <- Hs. apply (same_term _ _ _ _ Hsame). lia.
Qed.

Lemma known_stable h t w rf i :
  core n h t w rf → known n h t w rf i → ∃ s, stable n h t s i.
Proof using Type.
  intros Hc [Hi [Hle|Hs]]; [|by exists w].
  destruct (co_snap _ _ _ _ _ Hc) as (s & Hs & _). exists s. by eapply stable_le.
Qed.

Lemma known_bound h t w rf i : core n h t w rf → known n h t w rf i → 0 <= i <= lastLogIndex rf.
Proof using Type.
  intros Hc [Hi [Hle|Hs]]; [pose proof (core_last _ _ _ _ Hc); lia|].
  destruct Hs as (_ & Hs & _). rewrite (co_len _ _ _ _ _ Hc) in Hs. lia.
Qed.

Lemma floor_le c p rf : inv n c → nodes c !! p = Some rf → floor c p <= currentTerm rf.
Proof using Type.
  intros Hi Hp. unfold floor. rewrite Hp.
  by destruct (inv_node n c Hi _ _ Hp) as (_ & _ & H & _).
Qed.

(** The log of a leader is not behind its snapshot. *)
Lemma leader_snap fl vt h t p w rf :
  hist_ok n fl vt h → core n h t w rf → leader_role n h t p w rf →
  term_at w (lastIncludedIndex rf) = Some (lastIncludedTerm rf).
Proof using Type.
  intros Hh Hc Hl. destruct (co_snap _ _ _ _ _ Hc) as (s & Hs & Hst & _). rewrite <- Hst.
  assert (Hsame : same w s (lastIncludedIndex rf)).
  { apply same_sym. eapply (stable_leader n fl vt h Hh); [done|apply (lr_log _ _ _ _ _ _ Hl)|].
    rewrite (lr_term _ _ _ _ _ _ Hl). lia. }
  apply (same_term _ _ _ _ Hsame). lia.
Qed.

(** ** Requests *)
Lemma beats_ok c h p rf t :
  inv n c → linv n c h → nodes c !! p = Some rf → t ∈ beats p rf → lthread_ok n h c t.
Proof using Type.
  intros Hi Hl Hp Ht. unfold beats, sendHeartbeats in Ht.
  apply list_elem_of_fmap in Ht as (peer & -> & Hpeer). apply otherPeers_lt in Hpeer as [H1 H2].
  destruct (inv_node n c Hi _ _ Hp) as (Hm & Hlen & _).
  simpl. split_and!; [congruence|lia|congruence|by exists rf|].
  destruct (known_stable _ _ _ _ _ (li_core _ _ _ Hl _ _ Hp) (co_commit _ _ _ _ _ (li_core _ _ _ Hl _ _ Hp)))
    as (s & Hs).
  exists s. eapply stable_le; [done|by eapply floor_le|]. destruct Hs as (_ & ? & _). lia.
Qed.

Lemma heartbeat_append c h p peer term commit rf args s :
  inv n c → linv n c h → nodes c !! p = Some rf → term <= currentTerm rf →
  stable n h term s commit →
  heartbeatBegin rf peer term (Z.of_nat p) commit = Some (HBAppend args) →
  append_from n h (currentTerm rf) args ∧ aea_LeaderId args = Z.of_nat p.
Proof using Type.
  intros Hi Hl Hp Hterm Hs. unfold heartbeatBegin. case_decide as Hst; [|done]. intros E.
  pose proof (li_core _ _ _ Hl _ _ Hp) as Hc. pose proof (li_role _ _ _ Hl _ _ Hp) as Hr.
  unfold role_ok in Hr. rewrite Hst in Hr.
  pose proof (leader_snap _ _ _ _ _ _ _ (li_hist _ _ _ Hl) Hc Hr) as Hsnap.
  destruct (nextIndex rf !! peer) as [ni|] eqn:En; [|done]. simpl in E.
  destruct (Z.leb_spec ni (lastIncludedIndex rf)); [by simplify_eq|].
  destruct (logTerm rf (ni - 1)) as [pt|] eqn:Ept; [|done]. simpl in E.
  destruct (slice_from (log rf) (logIndex rf ni)) as [es|] eqn:Ees; [|done]. simpl in E. simplify_eq.
  split; [|done]. simpl. destruct (lr_next _ _ _ _ _ _ Hr _ _ En) as [Hn1 Hn2].
  pose proof (co_lii _ _ _ _ _ Hc) as Hlii.
  apply slice_from_Some in Ees as [Hb ->]. split; [done|]. exists (h_full h p).
  split_and!; simpl.
  - apply (lr_log _ _ _ _ _ _ Hr).
  - by rewrite (lr_self _ _ _ _ _ _ Hr).
  - lia.
  - rewrite zlen_drop by done. rewrite (co_len _ _ _ _ _ Hc). unfold logIndex, lastLogIndex in *. lia.
  - rewrite <- Ept. symmetry. eapply core_logTerm_all; [done|lia|done].
  - intros k Hk. rewrite idx_drop by (unfold logIndex in *; lia).
    rewrite (co_win _ _ _ _ _ Hc) by lia. f_equal. unfold logIndex. lia.
  - assert (Hsl : same s (h_full h p) commit).
    { eapply (stable_leader n _ _ h (li_hist _ _ _ Hl)); [done|apply (lr_log _ _ _ _ _ _ Hr)|done]. }
    destruct Hsl as (_ & Hbc & _). rewrite (co_len _ _ _ _ _ Hc) in Hbc.
    rewrite zlen_drop by done. unfold logIndex, lastLogIndex in *. lia.
  - by exists s.
Qed.

Lemma heartbeat_snapshot c h p rf :
  linv n c h → nodes c !! p = Some rf → state rf = Leader → me rf = p →
  snapshot_from n h (sendSnapshotArgs rf) ∧ isa_LeaderId (sendSnapshotArgs rf) = Z.of_nat p.
Proof using Type.
  intros Hl Hp Hst Hm. pose proof (li_core _ _ _ Hl _ _ Hp) as Hc.
  pose proof (li_role _ _ _ Hl _ _ Hp) as Hr. unfold role_ok in Hr. rewrite Hst in Hr.
  destruct (co_snap _ _ _ _ _ Hc) as (s & Hs & Ht & _). simpl. split; [|congruence].
  exists (h_full h p), s. simpl.
  split_and!; [apply (lr_log _ _ _ _ _ _ Hr)|rewrite (lr_self _ _ _ _ _ _ Hr); congruence| |done].
  by rewrite <- (lr_term _ _ _ _ _ _ Hr).
Qed.

(** ** The apply loop *)
Lemma core_set_applied h t w rf a :
  core n h t w rf → known n h t w rf a → lastIncludedIndex rf <= a <= commitIndex rf →
  core n h t w (set_lastApplied a rf).
Proof using Type. intros [] Ha Hb. by constructor. Qed.

Lemma applyInner_core h t w rf f m rf' :
  core n h t w rf → applyInner rf f = Some (m, rf') →
  ∃ a, rf' = set_lastApplied a rf ∧ known n h t w rf a ∧ lastIncludedIndex rf <= a <= commitIndex rf ∧
    ∀ msg, m = Some msg → am_CommandIndex msg = a ∧ lastIncludedIndex rf < a ∧
      stable n h t w a ∧ ∃ e, idx w a = Some e ∧ le_Command e = am_Command msg.
Proof using Type.
  intros Hc. pose proof (co_order _ _ _ _ _ Hc) as Hord.
  assert (Hno : ∃ a, rf = set_lastApplied a rf ∧ known n h t w rf a ∧
    lastIncludedIndex rf <= a <= commitIndex rf).
  { exists (lastApplied rf). split_and!; [by destruct rf|apply Hc|lia|lia]. }
  assert (Hend : Some (None, rf) = Some (m, rf') → ∃ a, rf' = set_lastApplied a rf ∧
    known n h t w rf a ∧ lastIncludedIndex rf <= a <= commitIndex rf ∧
    ∀ msg, m = Some msg → am_CommandIndex msg = a ∧ lastIncludedIndex rf < a ∧
      stable n h t w a ∧ ∃ e, idx w a = Some e ∧ le_Command e = am_Command msg).
  { intros [= <- <-]. destruct Hno as (a & ? & ? & ?). by exists a. }
  destruct f as [|f]; simpl; [done|].
  destruct (Z.ltb_spec (lastApplied rf) (commitIndex rf)) as [Hlt|_]; [|done].
  destruct (Z.leb_spec (lastApplied rf + 1) (lastIncludedIndex rf)) as [Hle|Hgt]; [lia|].
  assert (Hk : known n h t w rf (lastApplied rf + 1)).
  { eapply known_le; [by apply (co_commit _ _ _ _ _ Hc)|].
    destruct (co_applied _ _ _ _ _ Hc) as [? _]. lia. }
  destruct Hk as [Hk0 [?|Hs]]; [lia|].
  change (logIndex (set_lastApplied (lastApplied rf + 1) rf) (lastApplied rf + 1))
    with (logIndex rf (lastApplied rf + 1)).
  rewrite <- (co_win _ _ _ _ _ Hc) by lia.
  destruct (idx w (lastApplied rf + 1)) as [e|] eqn:Ee; [|done]. simpl. intros [= <- <-].
  exists (lastApplied rf + 1). split_and!; [done|split; [lia|by right]|lia|lia|].
  intros msg [= <-]. simpl. split_and!; [done|lia|done|]. by exists e.
Qed.

Lemma applyLoop_core h t w rf pc m rf' pc' :
  core n h t w rf → applyLoop_step rf pc = Some (m, rf', pc') →
  core n h t w rf' ∧ currentTerm rf' = currentTerm rf ∧ state rf' = state rf ∧
  nextIndex rf' = nextIndex rf ∧ matchIndex rf' = matchIndex rf ∧ mem_log rf' = mem_log rf ∧
  ∀ msg, m = Some msg → am_CommandValid msg = true →
    let i := am_CommandIndex msg in
    lastIncludedIndex rf < i ∧ stable n h t w i ∧ ∃ e, idx w i = Some e ∧ le_Command e = am_Command msg.
Proof using Type.
  intros Hc. unfold applyLoop_step.
  assert (Hin : ∀ f, applyInner rf f = Some (m, rf') → core n h t w rf' ∧
    currentTerm rf' = currentTerm rf ∧ state rf' = state rf ∧
    nextIndex rf' = nextIndex rf ∧ matchIndex rf' = matchIndex rf ∧ mem_log rf' = mem_log rf ∧
    ∀ msg, m = Some msg → am_CommandValid msg = true →
      let i := am_CommandIndex msg in
      lastIncludedIndex rf < i ∧ stable n h t w i ∧ ∃ e, idx w i = Some e ∧ le_Command e = am_Command msg).
  { intros f E. destruct (applyInner_core _ _ _ _ _ _ _ Hc E) as (a & -> & Ha & Hb & Hm).
    split_and!; try done; [by apply core_set_applied|]. intros msg Hmsg _.
    destruct (Hm msg Hmsg) as (-> & ? & ? & ?). done. }
  intros E. destruct pc, (pendingSnapshot rf) as [ps|] eqn:Ep.
  1: { simplify_eq. split_and!; try done; [destruct Hc; by constructor|].
       intros msg [= <-] Hv. rewrite (co_pending _ _ _ _ _ Hc _ Ep) in Hv. done. }
  all: destruct (applyInner rf (applyFuel rf)) as [[m2 rf2]|] eqn:Ea; [|done]; simpl in E;
    simplify_eq; by eapply Hin.
Qed.

(** A change of indices and timers, the log ending where it did. *)
Lemma leader_role_last h t p w rf rf' :
  currentTerm rf' = currentTerm rf → nextIndex rf' = nextIndex rf →
  matchIndex rf' = matchIndex rf → lastLogIndex rf' = lastLogIndex rf →
  leader_role n h t p w rf → leader_role n h t p w rf'.
Proof using Type.
  intros Ht Hni Hmi Hlast []. constructor; unfold matched; rewrite ?Ht, ?Hni, ?Hmi, ?Hlast; done.
Qed.

Lemma role_last h t p w rf rf' :
  state rf' = state rf → currentTerm rf' = currentTerm rf → nextIndex rf' = nextIndex rf →
  matchIndex rf' = matchIndex rf → lastLogIndex rf' = lastLogIndex rf →
  role_ok n h t p w rf → role_ok n h t p w rf'.
Proof using Type.
  intros Hs Ht Hni Hmi Hm. unfold role_ok. rewrite Hs. destruct (state rf); [done| |].
  - intros []. constructor; by rewrite ?Ht.
  - by apply leader_role_last.
Qed.

Lemma role_same h t p w rf rf' :
  state rf' = state rf → currentTerm rf' = currentTerm rf → nextIndex rf' = nextIndex rf →
  matchIndex rf' = matchIndex rf → mem_log rf' = mem_log rf →
  role_ok n h t p w rf → role_ok n h t p w rf'.
Proof using Type.
  intros Hs Ht Hni Hmi Hm. apply role_last; try done.
  unfold mem_log in Hm. injection Hm as Hl Hii _. unfold lastLogIndex. congruence.
Qed.

(** ** Goroutines that only send *)

(** Thread [k] goes on as [ts], after sending at most one request. *)
Lemma linv_local c h k ts new :
  inv n c → linv n c h →
  let c' := mkCluster (nodes c) (elections c) (respawn k ts (threads c)) (net c ++ new)
              (replies c) (applied c) in
  (∀ t, t ∈ ts → lthread_ok n h c' t) →
  (∀ q call, (q, call) ∈ new → call_ok n h c' q call) → linv n c' h.
Proof using Type.
  intros Hi Hl c' Hts Hnew.
  assert (Hg : grows c c') by (apply grows_same; [done|by eexists|done]).
  apply (linv_quiet n c); try done.
  - by apply (votes_same n).
  - intros t [?|?]%respawn_elem; [left; by apply Hts|by right].
  - intros i q call Hx. simpl in Hx. apply lookup_app_Some in Hx as [?|[_ Hx]]; [by left|right].
    eapply Hnew, list_elem_of_lookup_2. done.
Qed.

Lemma linv_local_0 c h k ts :
  inv n c → linv n c h →
  let c' := mkCluster (nodes c) (elections c) (respawn k ts (threads c)) (net c)
              (replies c) (applied c) in
  (∀ t, t ∈ ts → lthread_ok n h c' t) → linv n c' h.
Proof using Type.
  intros Hi Hl c' Hts. pose proof (linv_local c h k ts [] Hi Hl) as H.
  rewrite app_nil_r in H. apply H; [done|]. by intros q call ?%not_elem_of_nil.
Qed.

Lemma vote_req_net c c' h args :
  grows c c' → vote_req h c args → vote_req h c' args.
Proof using Type.
  intros Hg (z & Hz & Hv & Hr). exists z. split_and!; [done|by eapply voted_mono|done].
Qed.

Lemma linv_beat c h k p peer term lid commit rf action :
  inv n c → linv n c h → threads c !! k = Some (TBeat p peer term lid commit) →
  nodes c !! p = Some rf → heartbeatBegin rf peer term lid commit = Some action →
  linv n match action with
    | HBStop => mkCluster (nodes c) (elections c) (respawn k [] (threads c)) (net c) (replies c)
                  (applied c)
    | HBSnapshot args =>
        mkCluster (nodes c) (elections c)
          (respawn k [TSnapshotCall p peer (length (net c)) args] (threads c))
          (net c ++ [(peer, CallSnapshot args)]) (replies c) (applied c)
    | HBAppend args =>
        mkCluster (nodes c) (elections c)
          (respawn k [TAppendCall p peer (length (net c)) args] (threads c))
          (net c ++ [(peer, CallAppend args)]) (replies c) (applied c)
    end h.
Proof using Type.
  intros Hi Hl Hk Hp E.
  destruct (li_thread _ _ _ Hl _ (list_elem_of_lookup_2 _ _ _ Hk))
    as (Hne & Hlt & -> & (rf0 & Hp0 & Hterm) & s & Hs).
  rewrite Hp in Hp0. injection Hp0 as <-. destruct (inv_node n c Hi _ _ Hp) as (Hm & _).
  destruct action as [|args|args].
  - apply linv_local_0; [done..|]. by intros t ?%not_elem_of_nil.
  - assert (state rf = Leader ∧ args = sendSnapshotArgs rf) as [Hst ->].
    { unfold heartbeatBegin in E. case_decide; [|done].
      destruct (nextIndex rf !! peer); [|done]. simpl in E. case_match; [by simplify_eq|].
      destruct (logTerm rf _); [|done]. simpl in E. destruct (slice_from _ _); [|done].
      simpl in E. by simplify_eq. }
    destruct (heartbeat_snapshot c h p rf Hl Hp Hst Hm) as [Hf Hid].
    apply linv_local; [done..| |].
    + intros t ->%list_elem_of_singleton. simpl. split_and!; [done|congruence|].
      by apply list_lookup_middle.
    + intros q call [= -> ->]%list_elem_of_singleton. split; [|done]. rewrite Hid. lia.
  - destruct (heartbeat_append c h p peer term commit rf args s Hi Hl Hp Hterm Hs E) as [Hf Hid].
    apply linv_local; [done..| |].
    + intros t ->%list_elem_of_singleton. simpl. split_and!; [done|done|].
      by apply list_lookup_middle.
    + intros q call [= -> ->]%list_elem_of_singleton. split; [rewrite Hid; lia|]. by eexists.
Qed.

Lemma linv_callFails c h k c' :
  inv n c → linv n c h → callFails c k = Some c' → linv n c' h.
Proof using Type.
  intros Hi Hl. unfold callFails. destruct (threads c !! k) as [t|] eqn:Ek; [|done].
  intros E. assert (c' = mkCluster (nodes c) (elections c) (respawn k [] (threads c)) (net c)
    (replies c) (applied c)) as -> by (destruct t; by simplify_eq).
  apply linv_local_0; [done..|]. by intros t' ?%not_elem_of_nil.
Qed.

(** The apply loop sends one message at most. *)
Lemma linv_apply c h k p pc rf m rf' pc' ts :
  inv n c → linv n c h → threads c !! k = Some (TApplyLoop p pc) → nodes c !! p = Some rf →
  applyLoop_step rf pc = Some (m, rf', pc') → (∀ t, t ∈ ts → t = TApplyLoop p pc') →
  let c' := mkCluster (<[p := rf']> (nodes c)) (elections c) (respawn k ts (threads c))
              (net c) (replies c)
              (applied c ++ match m with Some m => [(p, m)] | None => [] end) in
  linv n c' h.
Proof using Type.
  intros Hi Hl Hk Hp E Hts c'. pose proof (lookup_lt_Some _ _ _ Hp) as Hlt.
  destruct (applyLoop_core _ _ _ _ _ _ _ _ (li_core _ _ _ Hl _ _ Hp) E)
    as (Hc & Ht & Hst & Hni & Hmi & Hm & Hmsg).
  destruct (applyLoop_vstep _ _ _ _ _ E) as ((Hpe & _ & Hv) & _).
  assert (Hps : persister rf' = persister rf).
  { unfold applyLoop_step in E. destruct pc, (pendingSnapshot rf); try by simplify_eq.
    all: destruct (applyInner rf _) as [[m2 rf2]|] eqn:Ea; [|done]; simpl in E; simplify_eq;
      by destruct (applyInner_vote _ _ _ _ Ea) as (_ & _ & ? & _). }
  assert (Hp' : nodes c' !! p = Some rf') by by apply list_lookup_insert_eq.
  assert (Hfl : ∀ q, floor c' q = floor c q).
  { intros q. unfold floor. destruct (decide (q = p)) as [->|]; simpl.
    - rewrite list_lookup_insert_eq, Hp by done. unfold boot. by rewrite Hps.
    - by rewrite list_lookup_insert_ne by done. }
  assert (Hg : grows c c') by by apply grows_same.
  apply (linv_step n c c' h h p); try done.
  - intros q Hq. simpl. by rewrite list_lookup_insert_ne.
  - eapply hist_votes; [by apply (votes_same n)|]. eapply hist_floor; [|apply Hl].
    intros v. rewrite Hfl. lia.
  - apply frame_refl.
  - intros rf2 E2. rewrite Hp' in E2. injection E2 as <-. exists rf. split; [done|].
    split; [|intros; right; lia]. constructor; rewrite Hfl.
    + done.
    + done.
    + eapply role_same; [..|by apply (li_role _ _ _ Hl)]; done.
    + unfold known. unfold mem_log in Hm. injection Hm as _ -> _. done.
  - intros E2. congruence.
  - intros t [?%Hts|?]%respawn_elem; [left; by subst|by right].
  - by left.
  - by left; split.
  - intros q msg. simpl. intros [?|Hin]%elem_of_app; [by left|right].
    destruct m as [m|]; [|by apply not_elem_of_nil in Hin].
    apply list_elem_of_singleton in Hin as [= -> ->]. intros Hvalid.
    destruct (Hmsg m eq_refl Hvalid) as (H1 & H2 & e & He & Hcmd).
    pose proof (co_lii _ _ _ _ _ Hc). unfold mem_log in Hm. injection Hm as Hlog Hlii Hlit.
    exists rf', (h_full h p), e. rewrite Hfl. split_and!; try done; [lia|].
    split; [lia|by right].
Qed.

Lemma linv_runThread c h k c' :
  inv n c → linv n c h → runThread c k = Some c' → linv n c' h.
Proof using Type.
  intros Hi Hl. unfold runThread.
  destruct (threads c !! k) as [[p|p pc|p cell peer args|p cell peer req|p|p loop
    |p peer term lid commit|p peer req args|p peer req args]|] eqn:Ek; try done; intros E.
  - destruct (nodes c !! p) as [rf|] eqn:Ep; [|done]. simpl in E.
    destruct (applyLoop_step rf pc) as [[[m rf'] pc']|] eqn:Ea; [|done]. simpl in E. simplify_eq.
    eapply linv_apply; [done..|]. intros t Ht. destruct pc'; [destruct (killed rf')|];
      try (by apply not_elem_of_nil in Ht); by apply list_elem_of_singleton in Ht.
  - simplify_eq. pose proof (li_thread _ _ _ Hl _ (list_elem_of_lookup_2 _ _ _ Ek)) as Hok.
    simpl in Hok. apply linv_local; [done..| |].
    + by intros t ->%list_elem_of_singleton.
    + intros q call [= -> ->]%list_elem_of_singleton. eapply vote_req_net; [|done].
      apply grows_same; [done|by eexists|done].
  - destruct (nodes c !! p) as [rf|] eqn:Ep; [|done]. simpl in E. simplify_eq.
    apply linv_local_0; [done..|]. intros t Ht.
    destruct (killed rf); [by apply not_elem_of_nil in Ht|].
    case_decide; [by apply list_elem_of_singleton in Ht as ->|by apply not_elem_of_nil in Ht].
  - destruct (nodes c !! p) as [rf|] eqn:Ep; [|done]. simpl in E. simplify_eq.
    apply linv_local_0; [done..|]. intros t [Ht|Ht]%elem_of_app.
    + pose proof (beats_ok c h p rf t Hi Hl Ep Ht) as Hok.
      unfold beats, sendHeartbeats in Ht. by apply list_elem_of_fmap in Ht as (peer & -> & _).
    + destruct loop; [by apply list_elem_of_singleton in Ht as ->|by apply not_elem_of_nil in Ht].
  - destruct (nodes c !! p) as [rf|] eqn:Ep; [|done]. simpl in E.
    destruct (heartbeatBegin rf peer term lid commit) as [action|] eqn:Eh; [|done].
    simpl in E. injection E as <-. by eapply (linv_beat c h k p peer term lid commit rf action).
Qed.

End Invariant.
End Steps.
