(* ===== verification/ClusterEffects.v ===== *)
(** * The effects of an event on the peers

    A case analysis of [cluster_step] shared by the arguments about what the peers hold:
    which peer changes and how, which request is sent, what is handed to a state machine. *)
From Stdlib Require Import ZArith Lia.
From stdpp Require Import base tactics list numbers option.
From S2P Require Import Prelude.
From S2P Require Import Gob.
From S2P Require Import Persister.
From S2P Require Import RaftNode.
From S2P Require Import RaftLog.
From S2P Require Import RaftOps.
From S2P Require Import RaftFrame.
From S2P Require Import Cluster.
From S2P Require Import ClusterSafety.
From S2P Require Import ClusterSteps.

Local Open Scope Z_scope.

Section Effects.
Context {Command : Type} {gobZ : Gob Z} {gobLog : Gob (list (LogEntry Command))}.
Implicit Types (c : cluster Command) (rf : Raft Command) (t : thread Command).

(** What the service does not do: a goroutine of a peer, a message, [Kill]. *)
Definition internal (ev : event Command) : bool :=
  match ev with EvStart _ _ | EvSnapshot _ _ _ | EvRestart _ _ => false | _ => true end.

(** The apply loop of [p] is between two entries. *)
Definition delivering (p : nat) (t : thread Command) : bool :=
  match t with TApplyLoop q ApplyInner => (q =? p)%nat | _ => false end.

(** The threads of [c'] are those of [c] and others which do not deliver. *)
Definition calm c c' : Prop := ∀ t, t ∈ threads c' → t ∈ threads c ∨ ∀ q, delivering q t = false.

Definition unchanged c c' : Prop := applied c' = applied c ∧ calm c c'.

(** A request that peer [p] with state [rf] may send to [peer]. *)
Definition sendable rf (peer : nat) (call : rpc Command) : Prop :=
  match call with
  | CallVote _ => True
  | CallAppend args => ∃ term leaderId commit,
      heartbeatBegin rf peer term leaderId commit = Some (HBAppend args)
  | CallSnapshot args => args = sendSnapshotArgs rf
  end.

Inductive effect c (ev : event Command) c' : Prop :=
| eff_none : nodes c' = nodes c → net c' = net c → unchanged c c' → effect c ev c'
| eff_quiet p rf rf' :
    nodes c !! p = Some rf → nodes c' = <[p := rf']> (nodes c) → kept rf' = kept rf →
    net c' = net c → unchanged c c' → effect c ev c'
| eff_vote peer args :
    nodes c' = nodes c → net c' = net c ++ [(peer, CallVote args)] → unchanged c c' → effect c ev c'
| eff_send p rf peer call :
    nodes c !! p = Some rf → sendable rf peer call → nodes c' = nodes c →
    net c' = net c ++ [(peer, call)] → unchanged c c' → effect c ev c'
| eff_apply p rf pc m rf' pc' k ts :
    threads c !! k = Some (TApplyLoop p pc) → nodes c !! p = Some rf →
    applyLoop_step rf pc = Some (m, rf', pc') → (∀ t, t ∈ ts → t = TApplyLoop p pc') →
    c' = mkCluster (<[p := rf']> (nodes c)) (elections c) (respawn k ts (threads c)) (net c)
      (replies c) (applied c ++ match m with Some m => [(p, m)] | None => [] end) → effect c ev c'
| eff_append i p rf args now rf' r :
    net c !! i = Some (p, CallAppend args) → nodes c !! p = Some rf →
    AppendEntries rf args now = Some (rf', r) → nodes c' = <[p := rf']> (nodes c) →
    net c' = net c → applied c' = applied c → threads c' = threads c → effect c ev c'
| eff_install i p rf args now rf' r :
    ev = EvServe i now →
    net c !! i = Some (p, CallSnapshot args) → nodes c !! p = Some rf →
    InstallSnapshot rf args now = Some (rf', r) → nodes c' = <[p := rf']> (nodes c) →
    net c' = net c → applied c' = applied c → threads c' = threads c → effect c ev c'.

(** Thread [k] goes on as [ts], which do not deliver. *)
Lemma respawn_quiet k ts c :
  Forall (λ t, ∀ q, delivering q t = false) ts →
  ∀ t, t ∈ respawn k ts (threads c) → t ∈ threads c ∨ ∀ q, delivering q t = false.
Proof using Type.
  rewrite Forall_forall. intros Hts t [Ht|Ht]%respawn_elem; [right; by apply Hts, list_elem_of_In|by left].
Qed.


Lemma calm_respawn c c' k ts :
  threads c' = respawn k ts (threads c) → Forall (λ t, ∀ q, delivering q t = false) ts → calm c c'.
Proof using Type. intros E Hts t. rewrite E. by apply respawn_quiet. Qed.

Lemma unchanged_same c c' : applied c' = applied c → threads c' = threads c → unchanged c c'.
Proof using Type. intros Ha Ht. split; [done|]. intros t. rewrite Ht. by left. Qed.

Lemma unchanged_respawn c c' k ts :
  applied c' = applied c → threads c' = respawn k ts (threads c) →
  Forall (λ t, ∀ q, delivering q t = false) ts → unchanged c c'.
Proof using Type. intros Ha Ht Hts. split; [done|by eapply calm_respawn]. Qed.

(** ** Internal events *)
Lemma runElection_effect c k now d c' : runElection c k now d = Some c' → effect c (EvElection k now d) c'.
Proof using Type.
  unfold runElection. destruct (threads c !! k) as [[p| | | | | | | |]|]; try done.
  destruct (nodes c !! p) as [rf|] eqn:Ep; [|done]. cbn [mbind option_bind].
  destruct (electionTimeout rf now d) as [[rf' [[term calls]|]]|] eqn:Ee; [| |done];
    cbn [mbind option_bind]; intros [= <-];
    (eapply (eff_quiet _ _ _ p rf rf'); [done|done|by eapply electionTimeout_kept|done|]);
    (eapply unchanged_respawn; [done|done|]).
  - apply Forall_app. split; [destruct (killed rf'); by repeat constructor|].
    apply Forall_fmap, Forall_true. by intros [].
  - destruct (killed rf'); by repeat constructor.
Qed.

Lemma heartbeatBegin_snapshot rf peer term lid commit args :
  heartbeatBegin rf peer term lid commit = Some (HBSnapshot args) → args = sendSnapshotArgs rf.
Proof using Type.
  unfold heartbeatBegin. case_decide; [|done]. destruct (nextIndex rf !! peer) as [ni|]; [|done].
  cbn [mbind option_bind]. destruct (ni <=? lastIncludedIndex rf); [by intros [= <-]|].
  destruct (logTerm rf (ni - 1)); [|done]. cbn [mbind option_bind]. by destruct (slice_from _ _).
Qed.

Lemma runThread_effect c k c' : runThread c k = Some c' → effect c (EvRun k) c'.
Proof using Type.
  unfold runThread. destruct (threads c !! k) as [[p|p pc|p cell peer args|p cell peer req|p|p loop
    |p peer term lid commit|p peer req args|p peer req args]|] eqn:Ek; try done.
  2: { intros [= <-]. eapply eff_vote; [done|done|]. eapply unchanged_respawn; [done|done|].
       by repeat constructor. }
  all: destruct (nodes c !! p) as [rf|] eqn:Ep; [|done]; cbn [mbind option_bind].
  - destruct (applyLoop_step rf pc) as [[[m rf'] pc']|] eqn:Ea; [|done]. cbn [mbind option_bind].
    intros [= <-]. eapply eff_apply; [done|done|done| |done]. intros t Ht.
    destruct pc'; [destruct (killed rf')|]; try (by apply not_elem_of_nil in Ht);
      by apply list_elem_of_singleton in Ht.
  - intros [= <-]. apply eff_none; [done..|]. eapply unchanged_respawn; [done|done|].
    destruct (killed rf); [constructor|]. case_decide; by repeat constructor.
  - intros [= <-]. apply eff_none; [done..|]. eapply unchanged_respawn; [done|done|]. apply Forall_app.
    split; [unfold beats, sendHeartbeats; by apply Forall_fmap, Forall_true|].
    destruct loop; by repeat constructor.
  - destruct (heartbeatBegin rf peer term lid commit) as [[|args|args]|] eqn:Eh; [| | |done];
      cbn [mbind option_bind]; intros [= <-].
    + apply eff_none; [done..|]. eapply unchanged_respawn; [done|done|constructor].
    + eapply (eff_send _ _ _ p rf peer (CallSnapshot args)); [done|by apply heartbeatBegin_snapshot in Eh|done|done|].
      eapply unchanged_respawn; [done|done|by repeat constructor].
    + eapply (eff_send _ _ _ p rf peer (CallAppend args)); [done|by exists term, lid, commit|done|done|].
      eapply unchanged_respawn; [done|done|by repeat constructor].
Qed.

Lemma serve_effect c i now c' : serve c i now = Some c' → effect c (EvServe i now) c'.
Proof using Type.
  unfold serve. destruct (net c !! i) as [[p call]|] eqn:En; [|done]. cbn [mbind option_bind].
  destruct (nodes c !! p) as [rf|] eqn:Ep; [|done]. cbn [mbind option_bind].
  destruct call as [args|args|args].
  - destruct (RequestVote rf args now) as [[rf' r]|] eqn:Eh; [|done]. cbn [mbind option_bind].
    intros [= <-]. eapply (eff_quiet _ _ _ p rf rf'); [done|done|by eapply RequestVote_kept|done|].
    by apply unchanged_same.
  - destruct (AppendEntries rf args now) as [[rf' r]|] eqn:Eh; [|done]. cbn [mbind option_bind].
    intros [= <-]. by eapply eff_append.
  - destruct (InstallSnapshot rf args now) as [[rf' r]|] eqn:Eh; [|done]. cbn [mbind option_bind].
    intros [= <-]. by eapply eff_install.
Qed.

Lemma receive_effect c k j c' : receive c k j = Some c' → effect c (EvReply k j) c'.
Proof using Type.
  unfold receive. destruct (replies c !! j) as [[i r]|]; [|done]. cbn [mbind option_bind].
  destruct (threads c !! k) as [t|]; [|done]. cbn [mbind option_bind].
  destruct t as [| | |p cell peer req| | | |p peer req args|p peer req args], r as [reply|reply|reply];
    try done; (case_decide; [|done]); (destruct (nodes c !! p) as [rf|] eqn:Ep; [|done]);
    cbn [mbind option_bind].
  - destruct (elections c !! cell) as [e|]; [|done]. cbn [mbind option_bind].
    destruct (handleVoteReply _ _ _ _) as [[rf' vs] won] eqn:Eh. intros [= <-].
    eapply (eff_quiet _ _ _ p rf rf'); [done|done|by eapply handleVoteReply_kept|done|].
    eapply unchanged_respawn; [done|done|]. destruct won; by repeat constructor.
  - destruct (handleAppendReply rf peer args reply) as [rf'|] eqn:Eh; [|done]. cbn [mbind option_bind].
    intros [= <-]. eapply (eff_quiet _ _ _ p rf rf'); [done|done|by eapply handleAppendReply_kept|done|].
    eapply unchanged_respawn; [done|done|constructor].
  - destruct (handleSnapshotReply rf peer args reply) as [rf'|] eqn:Eh; [|done]. cbn [mbind option_bind].
    intros [= <-]. eapply (eff_quiet _ _ _ p rf rf'); [done|done|by eapply handleSnapshotReply_kept|done|].
    eapply unchanged_respawn; [done|done|constructor].
Qed.

Lemma internal_effect c ev c' : internal ev = true → cluster_step c ev = Some c' → effect c ev c'.
Proof using Type.
  intros Hint E. destruct ev as [k now d|k|i now|k j|k| | |p|]; try done; simpl in E.
  - by eapply runElection_effect.
  - by eapply runThread_effect.
  - by eapply serve_effect.
  - by eapply receive_effect.
  - unfold callFails in E. destruct (threads c !! k) as [[]|]; try done; injection E as <-;
      (apply eff_none; [done..|]; eapply unchanged_respawn; [done|done|constructor]).
  - unfold callKill in E. destruct (nodes c !! p) as [rf|] eqn:Ep; [|done]. cbn [mbind option_bind] in E.
    injection E as <-. eapply (eff_quiet _ _ _ p rf (Kill rf)); [done..|]. by apply unchanged_same.
Qed.

(** A request in flight that was sent by this event. *)
Lemma effect_net c ev c' i q call :
  effect c ev c' → net c' !! i = Some (q, call) →
  net c !! i = Some (q, call) ∨ (∃ args, call = CallVote args) ∨
  ∃ p rf, nodes c !! p = Some rf ∧ sendable rf q call.
Proof using Type.
  intros He Hi. destruct He as [? Hn ?|? ? ? ? ? ? Hn|? ? ? Hn|p rf peer call2 Hp Hs ? Hn|
    |? ? ? ? ? ? ? ? ? ? ? Hn|? ? ? ? ? ? ? ? ? ? ? ? Hn]; subst; try (rewrite Hn in Hi); try (by left).
  - apply lookup_snoc_Some in Hi as [[_ ?]|[_ [= _ <-]]]; [by left|]. right. left. by eexists.
  - apply lookup_snoc_Some in Hi as [[_ ?]|[_ [= <- <-]]]; [by left|]. right. right. by exists p, rf.
Qed.

End Effects.
