(* ===== verification/ClusterElections.v ===== *)
(** * The invariant of the logs: votes and elections

    The events of Cluster.v in which peers vote, start elections and win or lose
    them. *)
From stdpp Require Import base tactics list strings numbers option sets.
From Stdlib Require Import ZArith Lia.
From S2P Require Import Prelude.
From S2P Require Import Gob.
From S2P Require Import Persister.
From S2P Require Import RaftNode.
From S2P Require Import RaftLog.
From S2P Require Import RaftOps.
From S2P Require Import RaftTheorems.
From S2P Require Import History.
From S2P Require Import HistorySteps.
From S2P Require Import Cluster.
From S2P Require Import ClusterVotes.
From S2P Require Import ClusterSafety.
From S2P Require Import ClusterInv.
From S2P Require Import ClusterSteps.

Local Open Scope Z_scope.

Section Votes.
Context {Command : Type}.
Context {gobZ : Gob Z} {gobLog : Gob (list (LogEntry Command))}.
Implicit Types (rf : Raft Command) (c : cluster Command) (h : history Command).
Implicit Types (w s : list (LogEntry Command)).
Context (n : nat).

(** ** One peer changes *)
Lemma floor_insert c c' p rf' :
  (p < length (nodes c))%nat → nodes c' = <[p := rf']> (nodes c) →
  (∀ q, q ≠ p → floor c' q = floor c q) ∧ floor c' p = fst (boot rf') ∧
  nodes c' !! p = Some rf' ∧ ∀ q, q ≠ p → nodes c' !! q = nodes c !! q.
Proof using Type.
  intros Hlt Hn. split_and!.
  - intros q Hq. unfold floor. by rewrite Hn, list_lookup_insert_ne.
  - unfold floor. by rewrite Hn, list_lookup_insert_eq.
  - by rewrite Hn, list_lookup_insert_eq.
  - intros q Hq. by rewrite Hn, list_lookup_insert_ne.
Qed.

Lemma vmove_floor c c' p rf rf' :
  inv n c → nodes c !! p = Some rf → nodes c' = <[p := rf']> (nodes c) → vmove rf rf' →
  floor c p <= floor c' p ∧ floor c' p <= currentTerm rf' ∧ ∀ q, floor c q <= floor c' q.
Proof using Type.
  intros Hi Hp Hn (_ & _ & Hv). pose proof (lookup_lt_Some _ _ _ Hp) as Hlt.
  destruct (floor_insert c c' p rf' Hlt Hn) as (Hne & Hfp & _).
  destruct (inv_node n c Hi _ _ Hp) as (_ & _ & Hok). destruct (Hv Hok) as ((Hle & _) & Hb).
  assert (Hf : floor c p = fst (boot rf)) by (unfold floor; by rewrite Hp).
  assert (Hmono : floor c p <= floor c' p).
  { rewrite Hf, Hfp. destruct Hb as [->|[?|[? _]]]; lia. }
  split_and!; [done|lia|]. intros q. destruct (decide (q = p)) as [->|Hq]; [done|].
  rewrite Hne by done. lia.
Qed.

Lemma role_step h t t' p w rf rf' :
  state rf' = Follower ∨ state rf' = state rf ∧ currentTerm rf' = currentTerm rf →
  nextIndex rf' = nextIndex rf → matchIndex rf' = matchIndex rf → mem_log rf' = mem_log rf →
  t <= t' <= currentTerm rf' → role_ok n h t p w rf → role_ok n h t' p w rf'.
Proof using Type.
  intros [Hs|[Hs Ht]] Hni Hmi Hm Hb Hr; [unfold role_ok; by rewrite Hs|].
  assert (Hr' : role_ok n h t p w rf') by by eapply role_same.
  unfold role_ok in *. rewrite Hs in *. destruct (state rf); [done| |].
  - assert (t' = t) as -> by (pose proof (cr_term _ _ _ _ _ Hr'); lia). done.
  - assert (t' = t) as -> by (pose proof (lr_term _ _ _ _ _ _ Hr'); lia). done.
Qed.

Lemma node_step_same c c' h h' p rf rf' :
  linv n c h → nodes c !! p = Some rf → hist_ext h h' → h_full h' p = h_full h p →
  floor c p <= floor c' p → same_log rf rf' → on_disk rf' →
  role_ok n h' (floor c' p) p (h_full h p) rf' → node_step n c c' h h' p rf rf'.
Proof using Type.
  intros Hl Hp He Hf Hfl Hs Hd Hr. constructor; rewrite ?Hf; try done.
  - eapply core_same; [done|done|]. eapply core_mono; [done|done|]. by apply Hl.
  - intros i Hk. destruct Hs as (Hm & _). unfold mem_log in Hm. injection Hm as _ Hlii _.
    unfold known. rewrite Hlii. by eapply known_mono.
Qed.

(** An operation of peer [p] that leaves its log, the history and the votes. *)
Lemma linv_op_same c h p rf rf' elections' threads' replies' :
  inv n c → linv n c h → nodes c !! p = Some rf →
  let c' := mkCluster (<[p := rf']> (nodes c)) elections' threads' (net c) replies' (applied c) in
  grows c c' → vmove rf rf' → currentTerm rf <= currentTerm rf' →
  state rf' = Follower ∨ state rf' = state rf ∧ currentTerm rf' = currentTerm rf →
  same_log rf rf' → nextIndex rf' = nextIndex rf → matchIndex rf' = matchIndex rf → on_disk rf' →
  (∀ v T z, votes c' v T z ↔ votes c v T z) →
  (∀ t, t ∈ threads' → lthread_ok n h c' t ∨ t ∈ threads c) →
  (∀ j i r q call, replies' !! j = Some (i, r) → net c !! i = Some (q, call) →
     replies c !! j = Some (i, r) ∨ reply_ok n h q call r) →
  linv n c' h.
Proof using Type.
  intros Hi Hl Hp c' Hg Hv Hterm Hst Hs Hni Hmi Hd Hvt Hth Hrep.
  pose proof (lookup_lt_Some _ _ _ Hp) as Hlt.
  destruct (floor_insert c c' p rf' Hlt eq_refl) as (Hne & Hfp & Hp' & Hnodes).
  destruct (vmove_floor c c' p rf rf' Hi Hp eq_refl Hv) as (Hf1 & Hf2 & Hfl).
  apply (linv_step n c c' h h p); try done.
  - eapply hist_votes; [done|]. eapply hist_floor; [done|]. by apply Hl.
  - apply frame_refl.
  - intros rf2 E. rewrite Hp' in E. injection E as <-. exists rf. split; [done|].
    split; [|intros; by right].
    apply node_step_same; try done; [apply hist_ext_refl|].
    eapply role_step; [done|done|done|apply Hs|done|]. by apply Hl.
  - congruence.
  - by left.
  - intros j i r q call Hj Hn. destruct (Hrep j i r q call Hj Hn); [left|right]; done.
  - by left.
Qed.

(** ** Voting *)
Lemma RequestVote_log rf args now rf' r :
  RequestVote rf args now = Some (rf', r) →
  same_log rf rf' ∧ nextIndex rf' = nextIndex rf ∧ matchIndex rf' = matchIndex rf.
Proof using Type.
  unfold RequestVote. intros E.
  destruct (rva_Term args <? currentTerm rf); [by simplify_eq|].
  set (rf1 := if rva_Term args >? currentTerm rf then _ else rf) in E.
  assert (H1 : same_log rf rf1 ∧ nextIndex rf1 = nextIndex rf ∧ matchIndex rf1 = matchIndex rf).
  { unfold rf1. destruct (rva_Term args >? currentTerm rf); by split_and!. }
  clearbody rf1.
  destruct (negb (votedFor rf1 =? -1) && negb (votedFor rf1 =? rva_CandidateId args));
    [by injection E as <- <-|].
  destruct (logTerm rf1 (lastLogIndex rf1)); [|done]. simpl in E.
  match type of E with (if ?b then _ else _) = _ => destruct b end; by injection E as <- <-.
Qed.

Lemma RequestVote_disk rf args now rf' r :
  log_ok rf → RequestVote rf args now = Some (rf', r) → on_disk rf → on_disk rf'.
Proof using Type.
  intros Hok E. apply on_disk_step. apply (op_step_persisted rf); [done|]. by eapply op_vote.
Qed.

Lemma granted_reply c p i args t rf' :
  inv n c → net c !! i = Some (p, CallVote args) → 0 <= rva_CandidateId args →
  let c' := mkCluster (<[p := rf']> (nodes c)) (elections c) (threads c) (net c)
              (replies c ++ [(i, ReplyVote (mkRVReply t true))]) (applied c) in
  ∀ v T z, votes c' v T z ↔
    votes c v T z ∨ v = p ∧ T = rva_Term args ∧ z = Z.to_nat (rva_CandidateId args).
Proof using Type.
  intros Hi Hn Hpos c' v T z. split.
  - intros [(j & i' & a & t' & Hj & Hn' & <- & Hc)|[H ->%Nat2Z.inj]];
      [|left; by right].
    simpl in Hj, Hn'. apply lookup_snoc_Some in Hj as [[_ Hj]|[_ [= -> _]]].
    + left. left. by exists j, i', a, t'.
    + rewrite Hn in Hn'. injection Hn' as -> ->. right. split_and!; [done|done|lia].
  - intros [H|(-> & -> & ->)].
    + eapply voted_mono; [|done]. apply grows_same; [done|done|by eexists].
    + left. exists (length (replies c)), i, args, t. split_and!; [|done|done|lia].
      by apply lookup_snoc_Some; right.
Qed.

(** The history with a granted vote. *)
Lemma granted_hist c h i p args now rf rf' rt :
  inv n c → linv n c h → net c !! i = Some (p, CallVote args) → nodes c !! p = Some rf →
  RequestVote rf args now = Some (rf', mkRVReply rt true) →
  let c' := mkCluster (<[p := rf']> (nodes c)) (elections c) (threads c) (net c)
              (replies c ++ [(i, ReplyVote (mkRVReply rt true))]) (applied c) in
  hist_ok n (floor c') (votes c') h.
Proof using Type.
  intros Hi Hl Hn Hp E c'. pose proof (lookup_lt_Some _ _ _ Hp) as Hlt.
  pose proof (li_core _ _ _ Hl _ _ Hp) as Hc. destruct (RequestVote_vstep _ _ _ _ _ E) as [Hv Hg].
  pose proof (vstep_nstep _ _ Hv) as [Hvm _]. destruct (Hg eq_refl) as (_ & _ & Hboot).
  destruct (li_net _ _ _ Hl _ _ _ Hn) as (z & Hz & Hzv & Hli & Hlt').
  pose proof (granted_reply c p i args rt rf' Hi Hn ltac:(lia)) as Hvt. fold c' in Hvt.
  rewrite Hz, Nat2Z.id in Hvt.
  destruct (floor_insert c c' p rf' Hlt eq_refl) as (_ & Hfp & _).
  destruct (vmove_floor c c' p rf rf' Hi Hp eq_refl Hvm) as (_ & _ & Hfl).
  eapply (hist_grant n (floor c') (votes c) (votes c')); [|apply Hvt|..].
  - eapply hist_floor; [done|]. apply Hl.
  - by rewrite Hfp, Hboot.
  - done.
  - intros z' Hz'.
    assert (Hp1 : votes c' p (rva_Term args) z') by (apply Hvt; by left).
    assert (Hp2 : votes c' p (rva_Term args) z) by (apply Hvt; by right).
    assert (Hi' : inv n c').
    { apply (inv_serve n c i now c' Hi). unfold serve. rewrite Hn. simpl. rewrite Hp. simpl.
      by rewrite E. }
    pose proof (inv_uniq n c' Hi' _ _ _ _ Hp1 Hp2). lia.
  - intros t Ht. destruct (RequestVote_spec rf args now (co_log _ _ _ _ _ Hc))
      as (rf2 & g & E2 & Hgi & _). rewrite E in E2. injection E2 as <- _ <-.
    destruct (proj1 Hgi eq_refl) as (_ & _ & lt & Hlast & Hup).
    rewrite (core_last_term n _ _ _ _ Hc) in Hlast. rewrite Ht in Hlast. injection Hlast as <-.
    exists (rva_LastLogTerm args). split; [done|].
    rewrite (co_len _ _ _ _ _ Hc). destruct Hup as [?|[-> ?]]; [by left|right]. split; [done|lia].
Qed.

Lemma linv_serve_vote c h i p args now rf rf' r :
  inv n c → linv n c h → net c !! i = Some (p, CallVote args) → nodes c !! p = Some rf →
  RequestVote rf args now = Some (rf', r) →
  linv n (mkCluster (<[p := rf']> (nodes c)) (elections c) (threads c) (net c)
            (replies c ++ [(i, ReplyVote r)]) (applied c)) h.
Proof using Type.
  intros Hi Hl Hn Hp E. set (c' := mkCluster _ _ _ _ _ _).
  pose proof (lookup_lt_Some _ _ _ Hp) as Hlt.
  destruct (RequestVote_log _ _ _ _ _ E) as (Hs & Hni & Hmi).
  destruct (RequestVote_vstep _ _ _ _ _ E) as [Hv Hg].
  pose proof (li_core _ _ _ Hl _ _ Hp) as Hc.
  pose proof (RequestVote_disk _ _ _ _ _ (co_log _ _ _ _ _ Hc) E (co_disk _ _ _ _ _ Hc)) as Hd.
  pose proof (vstep_nstep _ _ Hv) as [Hvm Hst].
  assert (Hgr : grows c c') by (apply grows_same; [done|done|by eexists]).
  assert (Hterm : currentTerm rf <= currentTerm rf').
  { destruct Hv as ((_ & _ & [[_ Ht]|[(_ & ? & _)|(_ & ? & _)]]) & _); [|lia|lia].
    unfold tv in Ht. injection Ht as -> _. lia. }
  assert (Hrep : ∀ j i0 r0 q call, replies c' !! j = Some (i0, r0) → net c !! i0 = Some (q, call) →
     replies c !! j = Some (i0, r0) ∨ reply_ok n h q call r0).
  { intros j i0 r0 q call Hj Hn0. simpl in Hj.
    apply lookup_snoc_Some in Hj as [[_ ?]|[_ [= <- <-]]]; [by left|right].
    rewrite Hn in Hn0. by injection Hn0 as <- <-. }
  destruct r as [rt [|]].
  2: { eapply linv_op_same; try done; [|intros t Ht; by right].
       apply (votes_same n); try done. intros j i' t Hj. simpl in Hj.
       by apply lookup_snoc_Some in Hj as [[_ ?]|[_ [= ]]]. }
  destruct (Hg eq_refl) as (Hle & Hfree & Hboot).
  destruct (floor_insert c c' p rf' Hlt eq_refl) as (Hne & Hfp & Hp' & Hnodes).
  destruct (vmove_floor c c' p rf rf' Hi Hp eq_refl Hvm) as (Hf1 & Hf2 & Hfl).
  apply (linv_step n c c' h h p); try done.
  - by eapply granted_hist.
  - apply frame_refl.
  - intros rf2 E2. rewrite Hp' in E2. injection E2 as <-. exists rf. split; [done|].
    split; [|intros; by right].
    apply node_step_same; try done; [apply hist_ext_refl|].
    eapply role_step; [done|done|done|apply Hs|done|]. by apply Hl.
  - congruence.
  - by right.
  - by left.
  - intros j i0 r0 q call Hj Hn0. destruct (Hrep j i0 r0 q call Hj Hn0); [left|right]; done.
  - by left.
Qed.

(** ** Starting an election *)
Lemma startElection_log rf rf' term calls :
  startElection rf = Some (rf', term, calls) →
  same_log rf rf' ∧ on_disk rf' ∧
  ∀ peer args, (peer, args) ∈ calls →
    rva_LastLogIndex args = lastLogIndex rf ∧
    logTerm rf (lastLogIndex rf) = Some (rva_LastLogTerm args).
Proof using Type.
  intros E. pose proof (startElection_durable _ _ _ _ E) as Hd.
  unfold startElection in E. destruct (mapM _ _) as [cs|] eqn:Em; [|done]. cbn [mbind option_bind] in E.
  injection E as <- _ <-. split; [done|]. split; [apply on_disk_recoverable; by left|].
  intros peer args Hin. apply mapM_Some in Em.
  apply list_elem_of_lookup in Hin as [j Hj].
  destruct (Forall2_lookup_r _ _ _ _ _ Em Hj) as (i & _ & Hf).
  change (logTerm _ _) with (logTerm rf (lastLogIndex rf)) in Hf.
  destruct (logTerm rf (lastLogIndex rf)) as [lt|]; [|done]. cbn [mbind option_bind] in Hf.
  by injection Hf as _ <-.
Qed.

(** A new election adds the candidate's own vote. *)
Lemma start_votes c (p : nat) term nodes' ts ap :
  let c' := mkCluster nodes' (elections c ++ [mkElection p term 1]) ts (net c) (replies c) ap in
  grows c c' → ∀ v T z, votes c' v T z ↔ votes c v T z ∨ v = p ∧ T = term ∧ z = p.
Proof using Type.
  intros c' Hg v T z. split.
  - intros [(j & i & a & tm & H)|[(j & e & He & Hcd & Htm) ->%Nat2Z.inj]];
      [left; left; by exists j, i, a, tm|].
    simpl in He. apply lookup_snoc_Some in He as [[_ He]|[_ <-]]; [|right; by split_and!].
    left. right. split; [by exists j, e|done].
  - intros [H|(-> & -> & ->)]; [by eapply voted_mono|]. right. split; [|done].
    exists (length (elections c)), (mkElection p term 1). split_and!; [|done|done].
    by apply lookup_snoc_Some; right.
Qed.

Lemma linv_startElection c h k p rf rf' term calls loop :
  inv n c → linv n c h → threads c !! k = Some (TElectionLoop p) → nodes c !! p = Some rf →
  startElection rf = Some (rf', term, calls) →
  (∀ t, t ∈ loop → t = TElectionLoop p) →
  let c' := mkCluster (<[p := rf']> (nodes c)) (elections c ++ [mkElection p term 1])
      (respawn k (loop ++ ((λ '(peer, args), TVote p (length (elections c)) peer args) <$> calls))
         (threads c))
      (net c) (replies c) (applied c) in
  grows c c' → linv n c' (ghost_ask p term h) ∧ hist_ext h (ghost_ask p term h).
Proof using Type.
  intros Hi Hl Hk Hp Es Hloop c' Hg. pose proof (lookup_lt_Some _ _ _ Hp) as Hlt.
  destruct (startElection_vote _ _ _ _ Es) as (_ & _ & Hst & Ht & HT & _ & Hb & _ & Hall).
  destruct (startElection_log _ _ _ _ Es) as (Hs & Hd & Hargs).
  destruct (inv_node n c Hi _ _ Hp) as (Hme & _). rewrite Hme in Hall.
  pose proof (li_core _ _ _ Hl _ _ Hp) as Hc. pose proof (li_hist _ _ _ Hl) as Hh.
  destruct (floor_insert c c' p rf' Hlt eq_refl) as (Hne & Hfp & Hp' & Hnodes).
  rewrite Hb in Hfp. simpl in Hfp. rewrite <- HT in Hfp.
  pose proof (floor_le _ _ _ _ Hi Hp) as Hfl. pose proof (co_floor _ _ _ _ _ Hc) as Hf0.
  pose proof (start_votes c p term _ _ _ Hg) as Hvt.
  assert (Hnew : ∀ z T, votes c z T z → ¬ (z = p ∧ T = term)).
  { intros z T Hv [-> ->]. apply (hk_floor _ _ _ _ Hh) in Hv. lia. }
  assert (Hext : hist_ext h (ghost_ask p term h)).
  { split; [|done]. intros T l Hlg. split; [done|]. by exists l. }
  split; [|done]. apply (linv_step n c c' h _ p); try done.
  - apply (hist_ask n (floor c) _ (votes c)); try done; [|lia|lia].
    intros v. case_decide as E; [by subst|by apply Hne].
  - constructor; try done; [intros q T l _ Hlg _; by exists l|].
    intros z T Hv. simpl. rewrite decide_False; [done|]. by apply Hnew.
  - intros rf2 E2. rewrite Hp' in E2. injection E2 as <-. exists rf. split; [done|].
    split; [|intros; right; lia].
    apply node_step_same; try done; [lia|]. unfold role_ok. rewrite Hst.
    constructor; [|congruence| |lia].
    + simpl. rewrite decide_True; [done|]. by split.
    + intros l Hlg Hld. simpl in Hlg, Hld. rewrite <- HT in Hlg, Hld.
      destruct (hk_quorum _ _ _ _ Hh _ _ Hlg) as (Q & HQ & HV).
      destruct (majority_inhabited n Q HQ) as (q & Hq).
      pose proof (hk_self_vote _ _ _ _ Hh _ _ _ (HV q Hq)) as Hv. rewrite Hld in Hv.
      by apply (Hnew p term Hv).
  - congruence.
  - intros t [Ht'|Ht']%respawn_elem; [|by right]. left.
    apply elem_of_app in Ht' as [->%Hloop|Ht']; [done|].
    apply list_elem_of_fmap in Ht' as ([peer args] & -> & Hin). simpl.
    pose proof (proj1 (Forall_forall _ _) Hall _ Hin) as [Ha1 Ha2]. simpl in Ha1, Ha2.
    destruct (Hargs _ _ Hin) as [Ha3 Ha4].
    exists p. rewrite Ha1. split_and!; [done|apply Hvt; right; by split_and!|].
    simpl. rewrite decide_True by done. split.
    + rewrite Ha3, (co_len _ _ _ _ _ Hc). lia.
    + by rewrite <- Ha4, (core_last_term n _ _ _ _ Hc).
  - by left.
  - by left; split.
  - by left.
Qed.

Lemma linv_runElection c h k now d c' :
  inv n c → linv n c h → runElection c k now d = Some c' → grows c c' →
  ∃ h', hist_ext h h' ∧ linv n c' h'.
Proof using Type.
  intros Hi Hl. unfold runElection. destruct (threads c !! k) as [[p| | | | | | | |]|] eqn:Ek; try done.
  destruct (nodes c !! p) as [rf|] eqn:Ep; [|done]. cbn [mbind option_bind]. unfold electionTimeout.
  assert (Hloop : ∀ rf' (t : thread Command),
    t ∈ (if killed rf' : bool then [] else [TElectionLoop p]) → t = TElectionLoop p).
  { intros rf' t. destruct (killed rf'); [by intros ?%not_elem_of_nil|].
    by intros ?%list_elem_of_singleton. }
  destruct (_ && _).
  - destruct (startElection rf) as [[[rf' term] calls]|] eqn:Es; [|done]. cbn [mbind option_bind].
    intros E Hg. injection E as <-. exists (ghost_ask p term h).
    edestruct (linv_startElection c h k p rf rf' term calls); [done..|apply Hloop|done|by split].
  - cbn [mbind option_bind]. intros E Hg. injection E as <-. exists h. split; [apply hist_ext_refl|].
    rewrite list_insert_id by done. apply linv_local_0; [done..|].
    intros t Ht. by rewrite (Hloop _ _ Ht).
Qed.

(** ** Counting votes *)
Lemma handleVoteReply_log rf term votes reply rf' votes' won :
  handleVoteReply rf term votes reply = (rf', votes', won) → on_disk rf →
  same_log rf rf' ∧ on_disk rf' ∧
  (won = false → nextIndex rf' = nextIndex rf ∧ matchIndex rf' = matchIndex rf).
Proof using Type.
  intros E Hd. pose proof (handleVoteReply_persisted rf term votes reply) as Hp. rewrite E in Hp.
  split; [|split; [by eapply on_disk_step|]];
    unfold handleVoteReply in E; repeat case_match; by simplify_eq.
Qed.

Lemma elect_frame c h p T : h_log h T = None → frame c p h (ghost_elect p T h).
Proof using Type.
  intros HN. constructor; simpl; try done; [by apply elect_ext|..].
  - intros q T' l _ Hlg _. rewrite decide_False by congruence. done.
  - intros q T' l Hq. case_decide; [by intros _ ->|]. intros Hlg _. by exists l.
Qed.

(** A candidate that has the votes of a majority is the first leader of its term. *)
Lemma win_fresh c h p T Q :
  inv n c → linv n c h → majority_of n Q → (∀ v, v ∈ Q → votes c v T p) →
  (∀ l, h_log h T = Some l → h_leader h T ≠ p) → h_log h T = None.
Proof using Type.
  intros Hi Hl HQ HV Ho. destruct (h_log h T) as [l|] eqn:E; [|done].
  destruct (hk_quorum _ _ _ _ (li_hist _ _ _ Hl) _ _ E) as (Q' & HQ' & HV').
  destruct (majorities_meet n Q Q' HQ HQ') as (v & H1 & H2).
  pose proof (hk_uniq _ _ _ _ (li_hist _ _ _ Hl) _ _ _ _ (HV v H1) (HV' v H2)) as Hp.
  by destruct (Ho l).
Qed.

Lemma becomeLeader_role h rf p :
  length (peers rf) = n → core n h (currentTerm rf) (h_full h p) rf →
  h_asked h p (currentTerm rf) = h_full h p →
  leader_role n (ghost_elect p (currentTerm rf) h) (currentTerm rf) p (h_full h p) (becomeLeader rf).
Proof using Type.
  intros Hn Hc Ha. pose proof (core_last _ _ _ _ _ Hc) as Hlast. pose proof (co_lii _ _ _ _ _ Hc).
  constructor; cbn; rewrite ?decide_True by done; try done.
  - by rewrite Ha.
  - by rewrite length_replicate.
  - by rewrite length_replicate.
  - intros q x [-> _]%lookup_replicate. unfold lastLogIndex in *. simpl. lia.
  - intros q x [-> _]%lookup_replicate. split; [|by left]. unfold lastLogIndex in *. simpl. lia.
Qed.

Lemma linv_voteReply c h k p cell reply rf e rf' vs won :
  inv n c → linv n c h → nodes c !! p = Some rf → elections c !! cell = Some e →
  handleVoteReply rf (el_term e) (el_votes e) reply = (rf', vs, won) →
  let c' := mkCluster (<[p := rf']> (nodes c))
           (<[cell := mkElection (el_cand e) (el_term e) vs]> (elections c))
           (respawn k (if won then [THeartbeatLoop p] else []) (threads c))
           (net c) (replies c) (applied c) in
  inv n c' → grows c c' → ∃ h', hist_ext h h' ∧ linv n c' h'.
Proof using Type.
  intros Hi Hl Hp He E c' Hi' Hg. pose proof (lookup_lt_Some _ _ _ Hp) as Hlt.
  pose proof (li_core _ _ _ Hl _ _ Hp) as Hc. pose proof (li_hist _ _ _ Hl) as Hh.
  destruct (handleVoteReply_log _ _ _ _ _ _ _ E (co_disk _ _ _ _ _ Hc)) as (Hs & Hd & Hsame).
  destruct (handleVoteReply_nmove _ _ _ _ _ _ _ E) as (Hvm & _).
  destruct (count_vote c c' cell e vs He eq_refl eq_refl eq_refl) as [_ Hask].
  pose proof (votes_same n c c' Hi Hg Hask (λ _ _ _ H, H)) as Hvt.
  assert (Hth : ∀ h' t, t ∈ threads c' → lthread_ok n h' c' t ∨ t ∈ threads c).
  { intros h' t [Ht|Ht]%respawn_elem; [left|by right].
    destruct won; [by apply list_elem_of_singleton in Ht as ->|by apply not_elem_of_nil in Ht]. }
  pose proof (handleVoteReply_vote rf (el_term e) (el_votes e) reply) as H. rewrite E in H.
  destruct won; cycle 1.
  { destruct (Hsame eq_refl) as [Hni Hmi]. destruct H as [((_ & _ & Hv) & Hst) _].
    exists h. split; [apply hist_ext_refl|]. eapply linv_op_same; try done; [|apply (Hth h)|intros; by left].
    destruct Hv as [[_ Ht]|[(_ & ? & _)|(_ & ? & _)]]; [|lia|lia].
    unfold tv in Ht. injection Ht as -> _. lia. }
  destruct H as (-> & _ & _ & _ & Hst & _).
  pose proof (li_role _ _ _ Hl _ _ Hp) as Hr. unfold role_ok in Hr. rewrite Hst in Hr.
  set (T := currentTerm rf) in *.
  destruct (floor_insert c c' p _ Hlt eq_refl) as (Hne & Hfp & Hp' & Hnodes).
  assert (Hfl : ∀ q, floor c' q = floor c q).
  { intros q. destruct (decide (q = p)) as [->|]; [|by apply Hne].
    rewrite Hfp. unfold floor. by rewrite Hp. }
  destruct (elected_quorum n c' p T) as (Q & HQ & HV).
  { apply (inv_leader n c' Hi'). by exists (becomeLeader rf). }
  assert (HN : h_log h T = None).
  { apply (win_fresh c h p T Q Hi Hl HQ); [|apply (cr_other _ _ _ _ _ Hr)]. intros v Hv. by apply Hvt, HV. }
  exists (ghost_elect p T h). split; [by apply elect_ext|].
  apply (linv_step n c c' h _ p); try done.
  - apply (hist_floor n (floor c)); [intros v; rewrite Hfl; lia|]. eapply hist_elect; [|done| |done|done].
    + eapply hist_votes; [done|]. done.
    + apply (cr_pos _ _ _ _ _ Hr).
  - by apply elect_frame.
  - intros rf2 E2. rewrite Hp' in E2. injection E2 as <-. exists rf. split; [done|].
    split; [|intros; by right].
    apply node_step_same; try done; [by apply elect_ext|rewrite Hfl; lia|].
    rewrite Hfl, (cr_term _ _ _ _ _ Hr). apply becomeLeader_role.
    + by destruct (inv_node n c Hi _ _ Hp) as (_ & ? & _).
    + unfold T. by rewrite <- (cr_term _ _ _ _ _ Hr).
    + apply (cr_asked _ _ _ _ _ Hr).
  - congruence.
  - apply Hth.
  - by left.
  - by left; split.
  - by left.
Qed.

End Votes.
