(* ===== verification/ClusterAppend.v ===== *)
(** * The invariant of the logs: replication to followers

    AppendEntries, served by a follower whose log is anything: the full log it
    has afterwards ([ae_full]), what of the old one stays, and that the invariant
    is preserved when the request is a piece of the log of a leader. *)
From stdpp Require Import base tactics list strings numbers option sets.
From Stdlib Require Import ZArith Lia.
From S2P Require Import Prelude.
From S2P Require Import Gob.
From S2P Require Import Persister.
From S2P Require Import RaftNode.
From S2P Require Import RaftLog.
From S2P Require Import RaftOps.
From S2P Require Import RaftTheorems.
From S2P Require Import History.
From S2P Require Import HistorySteps.
From S2P Require Import Cluster.
From S2P Require Import ClusterVotes.
From S2P Require Import ClusterSafety.
From S2P Require Import ClusterInv.
From S2P Require Import ClusterSteps.
From S2P Require Import ClusterElections.

Local Open Scope Z_scope.

Section Append.
Context {Command : Type}.
Context {gobZ : Gob Z} {gobLog : Gob (list (LogEntry Command))}.
Implicit Types (rf : Raft Command) (c : cluster Command) (h : history Command).
Implicit Types (w s l : list (LogEntry Command)).

Lemma agree_stop l es a e :
  l !! agree l es = Some a → es !! agree l es = Some e → le_Term a ≠ le_Term e.
Proof using Type.
  revert es. induction l as [|b l IH]; intros [|f es]; simpl; try done.
  destruct (Z.eqb_spec (le_Term b) (le_Term f)) as [|Hne]; simpl; [by apply IH|].
  by intros [= <-] [= <-].
Qed.

Section Invariant.
Context (n : nat).

(** ** The entries of a leader against the log of a peer *)
Section Merge.
Context (h : history Command) (t : Z) (w l : list (LogEntry Command)) (rf : Raft Command).
Context (args : AppendEntriesArgs Command).
Context (Hc : core n h t w rf) (Hw : wf_log h w) (Hl : wf_log h l) (Hacc : ae_accepts rf args).

Local Abbreviation prev := (aea_PrevLogIndex args).
Local Abbreviation es := (aea_Entries args).
Local Abbreviation m := (aea_PrevLogIndex args + zlen (aea_Entries args)).

Context (Hlen : aea_PrevLogIndex args + zlen (aea_Entries args) < zlen l).
Context (Hpt : term_at l (aea_PrevLogIndex args) = Some (aea_PrevLogTerm args)).
Context (Hes : ∀ k, 0 <= k < zlen (aea_Entries args) →
          idx (aea_Entries args) k = idx l (aea_PrevLogIndex args + 1 + k)).

Definition ae_base_pos : nat := Z.to_nat (aea_PrevLogIndex args + 1 - lastIncludedIndex rf).
Definition ae_agree : nat := agree (drop ae_base_pos (log rf)) (aea_Entries args).

(** The full log afterwards. *)
Definition ae_full : list (LogEntry Command) :=
  if decide (ae_agree = length (aea_Entries args)) then w
  else take (Z.to_nat (aea_PrevLogIndex args + zlen (aea_Entries args) + 1)) l.

(** The log has the entry before the new ones, and not just a snapshot of it. *)
Definition ae_anchored : Prop :=
  lastIncludedIndex rf < aea_PrevLogIndex args ∨
  term_at w (lastIncludedIndex rf) = Some (lastIncludedTerm rf).

Lemma ae_bounds :
  0 <= lastIncludedIndex rf <= prev ∧ prev <= lastLogIndex rf ∧
  Z.of_nat ae_base_pos = prev + 1 - lastIncludedIndex rf ∧
  Z.of_nat ae_agree <= zlen es ∧ 0 <= zlen es ∧
  prev + Z.of_nat ae_agree <= lastLogIndex rf.
Proof using All.
  destruct Hacc as [Hb _]. pose proof (co_lii _ _ _ _ _ Hc).
  destruct (agree_le (drop ae_base_pos (log rf)) es) as [H1 H2]. fold ae_agree in H1, H2.
  rewrite length_drop in H1. unfold ae_base_pos in *. unfold lastLogIndex, zlen in *.
  split_and!; lia.
Qed.

Lemma ae_term_w (i : Z) :
  lastIncludedIndex rf < i → term_at w i = le_Term <$> log rf !! Z.to_nat (i - lastIncludedIndex rf).
Proof using All.
  intros Hi. unfold term_at. rewrite (co_win _ _ _ _ _ Hc) by done.
  unfold logIndex. by rewrite idx_lookup by lia.
Qed.

Lemma ae_term_l (j : nat) :
  Z.of_nat j < zlen es → term_at l (prev + 1 + Z.of_nat j) = le_Term <$> es !! j.
Proof using All.
  intros Hj. unfold term_at. rewrite <- Hes by lia. by rewrite idx_lookup, Nat2Z.id by lia.
Qed.

(** The two logs are the same as far as the entries agree. *)
Lemma ae_match : ae_anchored ∨ (0 < ae_agree)%nat → same w l (prev + Z.of_nat ae_agree).
Proof using All.
  destruct ae_bounds as (Hb1 & Hb2 & Hb3 & Hb4 & _ & Hb6). intros Ha.
  destruct (decide (ae_agree = O)) as [E|Hne].
  - destruct Ha as [Ha|?]; [|lia]. rewrite E, Z.add_0_r. apply (wf_match h w l _ (aea_PrevLogTerm args) Hw Hl); [|done].
    destruct Hacc as [_ <-]. destruct (decide (lastIncludedIndex rf < prev)).
    + symmetry. by eapply core_logTerm.
    + destruct Ha as [?|Ha]; [lia|]. symmetry. eapply core_logTerm_all; [done|lia|done].
  - set (j := pred ae_agree). destruct (lookup_lt_is_Some_2 es j) as [e He]; [unfold zlen in *; lia|].
    apply (wf_match h w l _ (le_Term e) Hw Hl).
    + rewrite ae_term_w by lia.
      replace (Z.to_nat (prev + Z.of_nat ae_agree - lastIncludedIndex rf)) with (ae_base_pos + j)%nat by lia.
      rewrite <- lookup_drop, (agree_terms _ es) by (fold ae_agree; lia). by rewrite He.
    + replace (prev + Z.of_nat ae_agree) with (prev + 1 + Z.of_nat j) by lia.
      rewrite ae_term_l by (unfold zlen in *; lia). by rewrite He.
Qed.

(** ... and no further. *)
Lemma ae_differ (i : Z) : Z.of_nat ae_agree < zlen es → same w l i → i <= prev + Z.of_nat ae_agree.
Proof using All.
  intros Hlt Hs. destruct (decide (i <= prev + Z.of_nat ae_agree)) as [|Hgt]; [done|]. exfalso.
  destruct ae_bounds as (Hb1 & Hb2 & Hb3 & Hb4 & _ & Hb6).
  destruct (lookup_lt_is_Some_2 es ae_agree) as [e He]; [unfold zlen in *; lia|].
  pose proof (same_term _ _ _ (prev + 1 + Z.of_nat ae_agree) Hs ltac:(lia)) as Ht.
  rewrite ae_term_l, He, ae_term_w in Ht by lia.
  replace (Z.to_nat (prev + 1 + Z.of_nat ae_agree - lastIncludedIndex rf)) with (ae_base_pos + ae_agree)%nat in Ht by lia.
  rewrite <- lookup_drop in Ht. apply fmap_Some in Ht as (a & Ha & Hte).
  by apply (agree_stop (drop ae_base_pos (log rf)) es a e).
Qed.

Lemma ae_full_same : ae_full = w ∨ same ae_full l m ∧ Z.of_nat ae_agree < zlen es.
Proof using All.
  destruct ae_bounds as (Hb1 & Hb2 & Hb3 & Hb4 & Hb5 & Hb6).
  unfold ae_full. case_decide as E; [by left|right]. split; [|unfold zlen in *; lia].
  unfold same. rewrite zlen_take by lia. split_and!; [lia|lia|]. intros j Hj.
  by rewrite idx_take by lia.
Qed.

(** What the old log had in common with the leader's stays. *)
Lemma ae_full_keeps (i : Z) : same w l i → same w ae_full i.
Proof using All.
  intros Hs. destruct ae_full_same as [->|[Hf Hlt]]; [apply same_refl; apply Hs|].
  pose proof (ae_differ i Hlt Hs). eapply same_trans; [done|]. apply same_sym.
  eapply same_le; [done|lia].
Qed.

(** It ends up with the leader's log up to the last new entry, unless it only has
    a snapshot there that it has diverged from. *)
Lemma ae_full_new : same ae_full l m ∨ m = lastIncludedIndex rf ∧ ae_full = w.
Proof using All.
  destruct ae_full_same as [Hw'|[? _]]; [|by left].
  destruct ae_bounds as (Hb1 & Hb2 & Hb3 & Hb4 & Hb5 & Hb6).
  destruct (decide (ae_agree = length es)) as [E|E].
  - destruct (decide (lastIncludedIndex rf < prev ∨ (0 < ae_agree)%nat)) as [Ha|Hn].
    + left. rewrite Hw'. unfold zlen. rewrite <- E. apply ae_match.
      destruct Ha as [?|?]; [left; by left|by right].
    + right. split; [unfold zlen in *; lia|done].
  - left. unfold ae_full in *. rewrite decide_False in * by done.
    unfold same. rewrite zlen_take by lia. split_and!; [lia|lia|]. intros j Hj.
    by rewrite idx_take by lia.
Qed.

(** The log in memory is a window on it. *)
Lemma ae_full_window :
  zlen ae_full = lastIncludedIndex rf + zlen (ae_log rf args) ∧
  ∀ i, lastIncludedIndex rf < i → idx ae_full i = idx (ae_log rf args) (i - lastIncludedIndex rf).
Proof using All.
  destruct ae_bounds as (Hb1 & Hb2 & Hb3 & Hb4 & Hb5 & Hb6).
  unfold ae_full, ae_log, mergeLog. fold ae_base_pos. fold ae_agree. case_decide as E.
  - split; [rewrite (co_len _ _ _ _ _ Hc); unfold lastLogIndex; lia|]. intros i Hi.
    by apply (co_win _ _ _ _ _ Hc).
  - assert (Hlast : zlen (take (ae_base_pos + ae_agree) (log rf)) = Z.of_nat (ae_base_pos + ae_agree)).
    { unfold lastLogIndex, zlen in *. rewrite length_take. lia. }
    assert (Hrest : zlen (drop ae_agree es) = zlen es - Z.of_nat ae_agree)
      by (unfold zlen; rewrite length_drop; unfold zlen in *; lia).
    split; [rewrite zlen_app, zlen_take by lia; lia|]. intros i Hi.
    destruct (decide (i <= m)) as [Him|Him];
      [|rewrite !idx_ge; [done|rewrite zlen_app; lia|rewrite zlen_take by lia; lia]].
    rewrite idx_take by lia. destruct (decide (i <= prev + Z.of_nat ae_agree)) as [Hik|Hik].
    + rewrite idx_app_l by lia.
      replace (ae_base_pos + ae_agree)%nat with (Z.to_nat (Z.of_nat (ae_base_pos + ae_agree))) by lia.
      rewrite idx_take by lia. fold (logIndex rf i). rewrite <- (co_win _ _ _ _ _ Hc i) by lia. symmetry.
      assert (Hs : same w l (prev + Z.of_nat ae_agree)).
      { apply ae_match. destruct (decide (lastIncludedIndex rf < prev)); [left; by left|right; lia]. }
      by apply Hs.
    + rewrite idx_app_r by lia. rewrite Hlast.
      rewrite <- (Nat2Z.id ae_agree) at 1.
      rewrite idx_drop by lia. rewrite Hes by lia. f_equal. lia.
Qed.

End Merge.

(** ** The peer that accepts *)
Section Accept.
Context (fl : nat → Z) (vt : nat → Z → nat → Prop) (h : history Command).
Context (t T : Z) (w l : list (LogEntry Command)) (rf : Raft Command).
Context (args : AppendEntriesArgs Command).
Context (Hh : hist_ok n fl vt h) (Hc : core n h t w rf) (Hw : wf_log h w).
Context (Hl : h_log h T = Some l) (Hacc : ae_accepts rf args).
Context (Ht : t <= aea_Term args) (HT : aea_Term args <= T).
Context (Hlen : aea_PrevLogIndex args + zlen (aea_Entries args) < zlen l).
Context (Hpt : term_at l (aea_PrevLogIndex args) = Some (aea_PrevLogTerm args)).
Context (Hes : ∀ k, 0 <= k < zlen (aea_Entries args) →
          idx (aea_Entries args) k = idx l (aea_PrevLogIndex args + 1 + k)).
Context (HLC : aea_LeaderCommit args <= aea_PrevLogIndex args + zlen (aea_Entries args)).
Context (Hcm : ∃ s, stable n h (aea_Term args) s (aea_LeaderCommit args)).

Local Abbreviation w' := (ae_full w l rf args).
Local Abbreviation m := (aea_PrevLogIndex args + zlen (aea_Entries args)).

Lemma ae_wf_leader : wf_log h l.
Proof using All. by destruct (hk_log _ _ _ _ Hh _ _ Hl) as (_ & ? & _). Qed.

Lemma ae_keeps_stable t' i : stable n h t' w i → t' <= T → stable n h t' w' i.
Proof using All.
  intros Hs Ht'. eapply stable_same; [done|].
  apply (ae_full_keeps h t w l rf args Hc Hw ae_wf_leader Hacc Hlen Hpt Hes).
  by eapply (stable_leader n fl vt h Hh).
Qed.

Lemma ae_full_wf : wf_log h w'.
Proof using All.
  destruct (ae_full_same h t w l rf args Hc Hw ae_wf_leader Hacc Hlen Hpt Hes) as [->|[Hs _]]; [done|].
  destruct ae_wf_leader as [H0 Hwl]. pose proof (co_lii _ _ _ _ _ Hc). destruct Hacc as [Hb _].
  pose proof (zlen_nonneg (aea_Entries args)). pose proof Hs as (_ & _ & Heq).
  unfold ae_full in *. case_decide; [done|]. split; [by rewrite Heq by lia|].
  intros i e Hi He. pose proof (idx_Some_bounds _ _ _ He) as Hib. rewrite zlen_take in Hib by lia.
  rewrite Heq in He by lia. destruct (Hwl i e Hi He) as (l1 & Hl1 & Hs1). exists l1.
  split; [done|]. eapply same_trans; [|done]. eapply same_le; [done|lia].
Qed.

(** Acknowledged entries stay or are lost. *)
Lemma ae_keeps_acked p T1 m1 i l1 :
  fl p <= aea_Term args → h_ack h p T1 m1 → h_log h T1 = Some l1 → term_at l1 i = Some T1 →
  same w l1 i → same w' l1 i ∨ blocked n fl h T1 i.
Proof using All.
  intros Hfl Ha Hl1 Ht1 Hs. destruct (hk_ack _ _ _ _ Hh _ _ _ Ha) as (HT1 & _).
  assert (Hll : same l l1 i ∨ blocked n fl h T1 i).
  { destruct (decide (T1 = T)) as [->|].
    - left. rewrite Hl1 in Hl. injection Hl as ->. apply same_refl, Hs.
    - eapply (hk_block _ _ _ _ Hh); [done|done|lia|done]. }
  destruct Hll as [Hll|]; [left|by right]. eapply same_trans; [|exact Hs]. apply same_sym.
  apply (ae_full_keeps h t w l rf args Hc Hw ae_wf_leader Hacc Hlen Hpt Hes).
  eapply same_trans; [done|by apply same_sym].
Qed.

Lemma append_core h' rf' :
  hist_ext h h' → log rf' = ae_log rf args → lastIncludedIndex rf' = lastIncludedIndex rf →
  lastIncludedTerm rf' = lastIncludedTerm rf → commitIndex rf' = ae_commit rf args →
  lastApplied rf' = lastApplied rf → pendingSnapshot rf' = pendingSnapshot rf → on_disk rf' →
  core n h' (aea_Term args) w' rf' ∧
  ∀ i, known n h t w rf i → known n h' (aea_Term args) w' rf' i.
Proof using All.
  intros He Hlog Hlii Hlit Hci Hla Hps Hd. pose proof ae_wf_leader as Hwl.
  destruct (ae_log_terms rf args rf' (co_log _ _ _ _ _ Hc) Hacc Hlog Hlii Hlit) as (_ & _ & _ & Hok).
  destruct (ae_full_window h t w l rf args Hc Hw Hwl Hacc Hlen Hpt Hes) as (Hz & Hwin).
  destruct (ae_bounds h t w l rf args Hc Hw Hwl Hacc Hlen Hpt Hes) as (Hb1 & _ & _ & _ & Hb5 & _).
  assert (Hk : ∀ i, known n h t w rf i → known n h' (aea_Term args) w' rf' i).
  { intros i [H0 Hi]. split; [done|]. rewrite Hlii. destruct Hi as [?|Hs]; [by left|right].
    eapply stable_ext; [done|]. pose proof Hs as (_ & ? & _).
    eapply stable_le; [apply ae_keeps_stable; [done|lia]|done|lia]. }
  split; [|done]. constructor.
  - eapply wf_log_ext; [done|]. apply ae_full_wf.
  - done.
  - rewrite Hlii; lia.
  - rewrite Hz. unfold lastLogIndex. rewrite Hlog, Hlii. lia.
  - intros i Hi. rewrite Hlii in Hi. rewrite Hwin by done. unfold logIndex. by rewrite Hlog, Hlii.
  - done.
  - destruct (co_snap _ _ _ _ _ Hc) as (s & Hs & Hst & Hcase). exists s. rewrite Hlii, Hlit.
    split_and!; [|done|].
    + eapply stable_le; [by eapply stable_ext|done|lia].
    + destruct (ae_full_same h t w l rf args Hc Hw Hwl Hacc Hlen Hpt Hes) as [E|[E Hlt]].
      * rewrite E in Hz |- *. destruct Hcase as [?|Hlt]; [by left|right].
        rewrite (co_len _ _ _ _ _ Hc) in Hz. unfold lastLogIndex in *. rewrite Hlog, Hlii. lia.
      * right. destruct E as (Hm & _). unfold lastLogIndex. rewrite Hlog, Hlii. lia.
  - rewrite Hci. unfold ae_commit.
    destruct (Z.ltb_spec (commitIndex rf) (aea_LeaderCommit args)) as [Hlt|];
      [|apply Hk, (co_commit _ _ _ _ _ Hc)].
    destruct Hcm as (s & Hs). destruct (co_commit _ _ _ _ _ Hc) as [Hc0 _].
    split; [lia|]. rewrite Hlii.
    destruct (ae_full_new h t w l rf args Hc Hw Hwl Hacc Hlen Hpt Hes) as [Hn|[Hn _]]; [right|left; lia].
    eapply stable_ext; [done|]. eapply (stable_same _ _ _ s).
    + eapply stable_le; [done|done|lia].
    + pose proof (stable_leader n fl vt h Hh _ _ _ _ _ Hs Hl HT) as Hsl.
      eapply same_trans; [eapply same_le; [done|lia]|]. apply same_sym. eapply same_le; [done|lia].
  - rewrite Hla. apply Hk, (co_applied _ _ _ _ _ Hc).
  - rewrite Hps. apply (co_pending _ _ _ _ _ Hc).
  - pose proof (co_floor _ _ _ _ _ Hc). lia.
  - pose proof (co_order _ _ _ _ _ Hc). rewrite Hlii, Hla, Hci. unfold ae_commit.
    destruct (Z.ltb_spec (commitIndex rf) (aea_LeaderCommit args)); lia.
Qed.

End Accept.

(** ** A request is served *)

(** The log of peer [p] may change, the votes do not. *)
Lemma linv_served c h h' i p call r rf rf' :
  inv n c → linv n c h → net c !! i = Some (p, call) → nodes c !! p = Some rf →
  (∀ t, r ≠ ReplyVote (mkRVReply t true)) → currentTerm rf <= currentTerm rf' →
  let c' := mkCluster (<[p := rf']> (nodes c)) (elections c) (threads c) (net c)
              (replies c ++ [(i, r)]) (applied c) in
  hist_ok n (floor c') (votes c) h' → frame c p h h' → node_step n c c' h h' p rf rf' →
  reply_ok n h' p call r → linv n c' h'.
Proof using Type.
  intros Hi Hl Hn Hp Hr Hterm c' Hh Hf Hns Hrep. pose proof (lookup_lt_Some _ _ _ Hp) as Hlt.
  destruct (floor_insert c c' p rf' Hlt eq_refl) as (_ & _ & Hp' & Hnodes).
  assert (Hg : grows c c') by (apply grows_same; [done|done|by eexists]).
  apply (linv_step n c c' h h' p); try done.
  - eapply hist_votes; [|done]. apply (votes_same n); try done.
    intros j i' t Hj. simpl in Hj. apply lookup_snoc_Some in Hj as [[_ ?]|[_ [= _ Hx]]]; [done|].
    by destruct (Hr t).
  - intros rf2 E2. rewrite Hp' in E2. injection E2 as <-. exists rf. split; [done|].
    split; [done|by intros; right].
  - congruence.
  - by right.
  - by left.
  - intros j i0 r0 q call0 Hj Hn0. simpl in Hj, Hn0.
    apply lookup_snoc_Some in Hj as [[_ ?]|[_ [= <- <-]]]; [by left|right].
    rewrite Hn in Hn0. by injection Hn0 as <- <-.
  - by left.
Qed.

(** The same, when the log does not change either. *)
Lemma linv_served_same c h i p call r rf rf' :
  inv n c → linv n c h → net c !! i = Some (p, call) → nodes c !! p = Some rf →
  (∀ t, r ≠ ReplyVote (mkRVReply t true)) → vmove rf rf' → currentTerm rf <= currentTerm rf' →
  state rf' = Follower ∨ rf' = rf → same_log rf rf' → on_disk rf' → reply_ok n h p call r →
  linv n (mkCluster (<[p := rf']> (nodes c)) (elections c) (threads c) (net c)
            (replies c ++ [(i, r)]) (applied c)) h.
Proof using Type.
  intros Hi Hl Hn Hp Hr Hv Hterm Hst Hs Hd Hrep. set (c' := mkCluster _ _ _ _ _ _).
  destruct (vmove_floor n c c' p rf rf' Hi Hp eq_refl Hv) as (Hf1 & Hf2 & Hfl).
  eapply linv_served; try done.
  - eapply hist_floor; [done|]. by apply Hl.
  - apply frame_refl.
  - apply node_step_same; try done; [apply hist_ext_refl|]. fold c'.
    destruct Hst as [Hst| ->]; [unfold role_ok; by rewrite Hst|].
    eapply role_step; [by right|done|done|done| |by apply Hl]. done.
Qed.

(** ** AppendEntries *)
Lemma append_reject_ok c h q args T ci ct tm :
  append_from n h T args →
  (aea_Term args = T → ∀ l, h_log h T = Some l → ci <= zlen l) →
  reply_ok n h q (CallAppend args) (ReplyAppend (mkAEReply tm false ct ci)).
Proof using Type.
  intros (HT & l & Hl & Hld & _) Hci. simpl.
  destruct (decide (aea_Term args = T)) as [E|Hne].
  - right. exists l. rewrite E. split; [done|]. by apply Hci.
  - left. exists T, l. split_and!; [lia|done|done].
Qed.

Lemma hint_bound c h t w rf args T l ct ci fl vt :
  hist_ok n fl vt h → core n h t w rf → t <= T → append_from n h T args → h_log h T = Some l →
  ae_hint rf args ct ci → ci <= zlen l.
Proof using Type.
  intros Hh Hc Ht (_ & l0 & Hl0 & _ & Hp0 & Hlen & _) Hl Hhint. rewrite Hl in Hl0.
  injection Hl0 as <-. pose proof (zlen_nonneg (aea_Entries args)).
  destruct Hhint as [(_ & _ & ->)|[(? & _ & ->)|(_ & _ & [_ ?] & _)]]; [|lia|lia].
  destruct (co_snap _ _ _ _ _ Hc) as (s & Hs & _).
  destruct (stable_leader n fl vt h Hh _ _ _ _ _ Hs Hl Ht) as (_ & ? & _). lia.
Qed.

Lemma linv_append_reject c h i p args now rf rf' r :
  inv n c → linv n c h → net c !! i = Some (p, CallAppend args) → nodes c !! p = Some rf →
  AppendEntries rf args now = Some (rf', r) →
  aea_Term args < currentTerm rf ∨ ¬ ae_accepts rf args →
  linv n (mkCluster (<[p := rf']> (nodes c)) (elections c) (threads c) (net c)
            (replies c ++ [(i, ReplyAppend r)]) (applied c)) h.
Proof using Type.
  intros Hi Hl Hn Hp E Hcase. destruct (li_net _ _ _ Hl _ _ _ Hn) as (_ & T & Hfrom).
  pose proof (li_core _ _ _ Hl _ _ Hp) as Hc.
  pose proof (vstep_nstep _ _ (AppendEntries_vstep _ _ _ _ _ E)) as [Hv _].
  assert (Hd : on_disk rf').
  { eapply on_disk_step, (co_disk _ _ _ _ _ Hc). apply (op_step_persisted rf); [apply Hc|].
    by eapply op_append. }
  destruct (decide (aea_Term args < currentTerm rf)) as [Hs|Hge].
  - rewrite AppendEntries_stale in E by done. injection E as <- <-.
    eapply linv_served_same; try done; [by right|].
    eapply append_reject_ok; [done|done|]. intros _ l _. simpl. apply zlen_nonneg.
  - destruct Hcase as [?|Hrej]; [lia|].
    destruct (AppendEntries_reject rf args now (co_log _ _ _ _ _ Hc) ltac:(lia) Hrej)
      as (ct & ci & E' & Hhint). rewrite E in E'. injection E' as -> ->.
    eapply linv_served_same; try done; [simpl; lia|by left|].
    eapply append_reject_ok; [done|done|]. intros HT l Hlg.
    eapply (hint_bound c); [by apply Hl|done| |done|done|done].
    pose proof (floor_le n c p rf Hi Hp). lia.
Qed.

Lemma full_frame c h p w : frame c p h (ghost_full p w h).
Proof using Type.
  constructor; try done; [apply full_ext|..].
  - intros q Hq. simpl. by rewrite decide_False.
  - intros q T l _ Hlg _. by exists l.
Qed.

Lemma ack_frame c h h1 p T m : frame c p h h1 → frame c p h (ghost_ack p T m h1).
Proof using Type.
  intros []. constructor; try done. eapply hist_ext_trans; [done|apply ack_ext].
Qed.

(** A peer that accepted: its history, before it is known to have acknowledged. *)
Section Accepted.
Context c h (i p : nat) (args : AppendEntriesArgs Command) (now : Z) rf rf' (T : Z)
  (l : list (LogEntry Command)) (r : rpc_reply).
Context (Hi : inv n c) (Hl : linv n c h) (Hp : nodes c !! p = Some rf)
  (Hge : currentTerm rf <= aea_Term args) (Hacc : ae_accepts rf args)
  (E : set_commitIndex (ae_commit rf args) (persist (set_log (ae_log rf args) (ae_base rf args now))) = rf')
  (Hv : vmove rf rf') (Hd : on_disk rf')
  (HT : aea_Term args <= T) (Hlg : h_log h T = Some l)
  (Hlen : aea_PrevLogIndex args + zlen (aea_Entries args) < zlen l)
  (Hpt : term_at l (aea_PrevLogIndex args) = Some (aea_PrevLogTerm args))
  (Hes : ∀ k, 0 <= k < zlen (aea_Entries args) →
     idx (aea_Entries args) k = idx l (aea_PrevLogIndex args + 1 + k))
  (HLC : aea_LeaderCommit args <= aea_PrevLogIndex args + zlen (aea_Entries args))
  (Hcm : ∃ s, stable n h (aea_Term args) s (aea_LeaderCommit args)).

Local Abbreviation c' := (mkCluster (<[p := rf']> (nodes c)) (elections c) (threads c) (net c)
              (replies c ++ [(i, r)]) (applied c)).
Local Abbreviation wp := (ae_full (h_full h p) l rf args).

Lemma accepted_floor :
  floor c p <= aea_Term args ∧ floor c' p = aea_Term args ∧ (∀ q, floor c q <= floor c' q) ∧
  ∀ q, q ≠ p → floor c' q = floor c q.
Proof using All.
  pose proof (lookup_lt_Some _ _ _ Hp) as Hlt.
  destruct (vmove_floor n c c' p rf rf' Hi Hp eq_refl Hv) as (Hf1 & _ & Hfl).
  destruct (floor_insert c c' p rf' Hlt eq_refl) as (Hne & Hfp & _ & _).
  assert (Hfa : floor c' p = aea_Term args).
  { rewrite Hfp, <- E. change (boot _) with (boot (persist (set_log (ae_log rf args) (ae_base rf args now)))).
    by rewrite boot_persist. }
  split_and!; [lia|done|done|done].
Qed.

Lemma accepted_hist : hist_ok n (floor c') (votes c) (ghost_full p wp h).
Proof using All.
  destruct accepted_floor as (Hf1 & Hfa & Hfl & Hne). pose proof (li_core _ _ _ Hl _ _ Hp) as Hc.
  pose proof (li_hist _ _ _ Hl) as Hh. pose proof (hk_full _ _ _ _ Hh p) as Hw.
  eapply (hist_floor _ (floor c)); [done|]. apply hist_full; [done| |].
  - by eapply (ae_full_wf (floor c) (votes c) h (floor c p) T); try done; lia.
  - intros T1 m1 i1 l1 Ha _ Hl1 Ht1 Hs.
    eapply (ae_keeps_acked (floor c) (votes c) h (floor c p) T); try done; lia.
Qed.

Lemma accepted_step h' :
  hist_ext (ghost_full p wp h) h' → h_full h' p = wp → node_step n c c' h h' p rf rf'.
Proof using All.
  intros He Hfull. destruct accepted_floor as (Hf1 & Hfa & _). pose proof (li_core _ _ _ Hl _ _ Hp) as Hc.
  pose proof (li_hist _ _ _ Hl) as Hh. pose proof (hk_full _ _ _ _ Hh p) as Hw.
  destruct (append_core (floor c) (votes c) h (floor c p) T (h_full h p) l rf args Hh Hc Hw Hlg Hacc
              ltac:(lia) HT Hlen Hpt Hes HLC Hcm h' rf') as [Hc' Hk].
  { eapply hist_ext_trans; [apply full_ext|done]. }
  all: try done; try (by rewrite <- E).
  constructor; rewrite ?Hfull, ?Hfa; [lia|done| |done]. unfold role_ok. by rewrite <- E.
Qed.

(** All of it, and what the log now shares with the leader's. *)
Lemma accepted :
  floor c p <= aea_Term args ∧ floor c' p = aea_Term args ∧
  hist_ok n (floor c') (votes c) (ghost_full p wp h) ∧
  (∀ h', hist_ext (ghost_full p wp h) h' → h_full h' p = wp → node_step n c c' h h' p rf rf') ∧
  (same wp l (aea_PrevLogIndex args + zlen (aea_Entries args)) ∨
   aea_PrevLogIndex args + zlen (aea_Entries args) = lastIncludedIndex rf ∧ wp = h_full h p).
Proof using All.
  destruct accepted_floor as (Hf1 & Hfa & _). split_and!; [done|done|apply accepted_hist|apply accepted_step|].
  pose proof (li_core _ _ _ Hl _ _ Hp) as Hc. pose proof (li_hist _ _ _ Hl) as Hh.
  eapply (ae_full_new h (floor c p) (h_full h p) l rf args); try done; [apply (hk_full _ _ _ _ Hh p)|].
  by destruct (hk_log _ _ _ _ Hh _ _ Hlg) as (_ & ? & _).
Qed.

End Accepted.

Lemma linv_append_accept c h i p args now rf rf' r :
  inv n c → linv n c h → net c !! i = Some (p, CallAppend args) → nodes c !! p = Some rf →
  AppendEntries rf args now = Some (rf', r) →
  currentTerm rf <= aea_Term args → ae_accepts rf args →
  ∃ h', hist_ext h h' ∧
    linv n (mkCluster (<[p := rf']> (nodes c)) (elections c) (threads c) (net c)
              (replies c ++ [(i, ReplyAppend r)]) (applied c)) h'.
Proof using Type.
  intros Hi Hl Hn Hp E Hge Hacc. set (c' := mkCluster _ _ _ _ _ _).
  destruct (li_net _ _ _ Hl _ _ _ Hn) as (_ & T & HT & l & Hlg & Hld & Hp0 & Hlen & Hpt & Hes & HLC & Hcm).
  pose proof (li_core _ _ _ Hl _ _ Hp) as Hc. pose proof (li_hist _ _ _ Hl) as Hh.
  pose proof (vstep_nstep _ _ (AppendEntries_vstep _ _ _ _ _ E)) as [Hv _].
  assert (Hd : on_disk rf').
  { eapply on_disk_step, (co_disk _ _ _ _ _ Hc). apply (op_step_persisted rf); [apply Hc|].
    by eapply op_append. }
  rewrite (AppendEntries_accept _ _ _ (co_log _ _ _ _ _ Hc) Hge Hacc) in E. injection E as E <-.
  destruct (accepted c h i p args now rf rf' T l (ReplyAppend (mkAEReply (aea_Term args) true (-1) 0))
    Hi Hl Hp Hge Hacc E Hv Hd HT Hlg Hlen Hpt Hes HLC Hcm) as (Hf1 & Hfa & Hh1 & Hstep & Hcase).
  fold c' in Hh1, Hstep, Hfa. set (w := h_full h p) in *. set (w' := ae_full w l rf args) in *.
  set (m := aea_PrevLogIndex args + zlen (aea_Entries args)) in *.
  assert (Hfull1 : h_full (ghost_full p w' h) p = w') by (simpl; by rewrite decide_True).
  assert (Hterm : currentTerm rf <= currentTerm rf') by (by rewrite <- E).
  destruct (decide (aea_Term args = T)) as [Ha|Ha]; cycle 1.
  { exists (ghost_full p w' h). split; [apply full_ext|].
    eapply linv_served; try done; [apply full_frame|apply Hstep; [apply hist_ext_refl|done]|].
    left. exists T, l. split_and!; [lia|done|done]. }
  rewrite <- Ha in Hlg. pose proof (zlen_nonneg (aea_Entries args)). destruct Hcase as [Hs|[Hm Hs]].
  - exists (ghost_ack p (aea_Term args) m (ghost_full p w' h)).
    split; [eapply hist_ext_trans; [apply full_ext|apply ack_ext]|].
    eapply linv_served; try done.
    + eapply hist_acked; [done|done|exact Hlg|]. by rewrite Hfull1.
    + apply ack_frame, full_frame.
    + apply Hstep; [apply ack_ext|done].
    + right. simpl. split; [done|]. split; [exists l; split; [done|lia]|].
      left. exists m. split; [lia|]. apply ack_cons. by right.
  - exists (ghost_full p w' h). split; [apply full_ext|].
    eapply linv_served; try done; [apply full_frame|apply Hstep; [apply hist_ext_refl|done]|].
    right. simpl. split; [done|]. split; [exists l; split; [done|lia]|]. right.
    destruct (co_snap _ _ _ _ _ Hc) as (s & Hst & _). exists s. rewrite <- Hm in Hst.
    eapply stable_le; [eapply stable_ext; [apply full_ext|done]|lia|unfold m in *; lia].
Qed.

End Invariant.
End Append.
