(* ===== verification/ClusterSnapshots.v ===== *)
(** * The invariant of the logs: snapshots, restarts, commands

    InstallSnapshot, the operations of the service on a peer ([Start], [Snapshot],
    [Kill]) and the restart of a peer. *)
From stdpp Require Import base tactics list strings numbers option sets.
From Stdlib Require Import ZArith Lia.
From S2P Require Import Prelude.
From S2P Require Import Gob.
From S2P Require Import Persister.
From S2P Require Import RaftNode.
From S2P Require Import RaftLog.
From S2P Require Import RaftOps.
From S2P Require Import RaftTheorems.
From S2P Require Import History.
From S2P Require Import HistorySteps.
From S2P Require Import Cluster.
From S2P Require Import ClusterVotes.
From S2P Require Import ClusterSafety.
From S2P Require Import ClusterInv.
From S2P Require Import ClusterSteps.
From S2P Require Import ClusterElections.
From S2P Require Import ClusterAppend.

Local Open Scope Z_scope.

Section Snapshots.
Context {Command : Type}.
Context {gobZ : Gob Z} {gobLog : Gob (list (LogEntry Command))}.
Implicit Types (rf : Raft Command) (c : cluster Command) (h : history Command).
Implicit Types (w s l : list (LogEntry Command)).

Section Invariant.
Context (n : nat).

(** ** InstallSnapshot *)
Lemma same_take l i : 0 <= i < zlen l → same (take (Z.to_nat (i + 1)) l) l i.
Proof using Type.
  intros Hi. unfold same. rewrite zlen_take by lia. split_and!; [lia|lia|]. intros j Hj.
  by rewrite idx_take by lia.
Qed.

Lemma wf_log_take h l i : wf_log h l → 0 <= i < zlen l → wf_log h (take (Z.to_nat (i + 1)) l).
Proof using Type.
  intros [H0 Hw] Hi. destruct (same_take l i Hi) as (_ & _ & Heq). split; [by rewrite Heq by lia|].
  intros j e Hj He. pose proof (idx_Some_bounds _ _ _ He) as Hb. rewrite zlen_take in Hb by lia.
  rewrite Heq in He by lia. destruct (Hw j e Hj He) as (l1 & Hl1 & Hs). exists l1. split; [done|].
  eapply same_trans; [|done]. eapply same_le; [by apply same_take|lia].
Qed.

Section Install.
Context (fl : nat → Z) (vt : nat → Z → nat → Prop) (h : history Command).
Context (t : Z) (w s l : list (LogEntry Command)) (rf : Raft Command) (args : InstallSnapshotArgs).
Context (Hh : hist_ok n fl vt h) (Hc : core n h t w rf) (Hw : wf_log h w).
Context (Hl : h_log h (isa_Term args) = Some l) (Ht : t <= isa_Term args).
Context (Hs : stable n h (isa_Term args) s (isa_LastIncludedIndex args)).
Context (Hst : term_at s (isa_LastIncludedIndex args) = Some (isa_LastIncludedTerm args)).
Context (Hnew : lastIncludedIndex rf < isa_LastIncludedIndex args).

(** The full log afterwards: that of the leader up to the snapshot, unless there
    are entries after it. *)
Definition is_full : list (LogEntry Command) :=
  if decide (isa_LastIncludedIndex args < lastLogIndex rf) then w
  else take (Z.to_nat (isa_LastIncludedIndex args + 1)) l.

Lemma is_leader_same : same s l (isa_LastIncludedIndex args).
Proof using All. eapply (stable_leader n fl vt h Hh); [done|done|lia]. Qed.

Lemma is_full_same : is_full = w ∧ isa_LastIncludedIndex args < lastLogIndex rf ∨
  lastLogIndex rf <= isa_LastIncludedIndex args ∧
  zlen is_full = isa_LastIncludedIndex args + 1 ∧ same is_full l (isa_LastIncludedIndex args).
Proof using All.
  pose proof is_leader_same as (_ & Hb & _). destruct Hs as (_ & Hi & _).
  unfold is_full. case_decide; [by left|right]. split_and!; [lia| |apply same_take; lia].
  by rewrite zlen_take by lia.
Qed.

Lemma is_full_wf : wf_log h is_full.
Proof using All.
  pose proof is_leader_same as (_ & Hb & _). destruct Hs as (_ & Hi & _).
  unfold is_full. case_decide; [done|]. apply wf_log_take; [|lia].
  by destruct (hk_log _ _ _ _ Hh _ _ Hl) as (_ & ? & _).
Qed.

Lemma is_keeps_acked p T1 m1 i l1 :
  fl p <= isa_Term args → h_ack h p T1 m1 → h_log h T1 = Some l1 → term_at l1 i = Some T1 →
  same w l1 i → same is_full l1 i ∨ blocked n fl h T1 i.
Proof using All.
  intros Hfl Ha Hl1 Ht1 Hs1. destruct (hk_ack _ _ _ _ Hh _ _ _ Ha) as (HT1 & _).
  destruct is_full_same as [[-> _]|(Hlast & _ & Hf)]; [by left|].
  assert (Hi : i <= isa_LastIncludedIndex args).
  { destruct Hs1 as (Hb & _). rewrite (co_len _ _ _ _ _ Hc) in Hb. lia. }
  assert (Hll : same l l1 i ∨ blocked n fl h T1 i).
  { destruct (decide (T1 = isa_Term args)) as [->|].
    - left. rewrite Hl1 in Hl. injection Hl as ->. apply same_refl, Hs1.
    - eapply (hk_block _ _ _ _ Hh); [done|done|lia|done]. }
  destruct Hll as [Hll|]; [left|by right]. eapply same_trans; [|exact Hll].
  by eapply same_le.
Qed.

Lemma is_log_window i :
  isa_LastIncludedIndex args < i →
  idx (is_log rf args) (i - isa_LastIncludedIndex args) =
  idx is_full i ∧ zlen is_full = isa_LastIncludedIndex args + zlen (is_log rf args).
Proof using All.
  intros Hi. pose proof (co_len _ _ _ _ _ Hc) as Hlen. pose proof (co_lii _ _ _ _ _ Hc).
  unfold is_log.
  destruct (Z.leb_spec (isa_LastIncludedIndex args) (lastLogIndex rf)) as [Hle|Hgt].
  - assert (Hz : zlen (drop (Z.to_nat (logIndex rf (isa_LastIncludedIndex args))) (log rf)) =
                 lastLogIndex rf + 1 - isa_LastIncludedIndex args).
    { unfold logIndex, lastLogIndex in *. rewrite zlen_drop by lia. lia. }
    rewrite idx_drop by (unfold logIndex; lia).
    destruct is_full_same as [[-> Hlt]|(Hlast & Hzf & _)].
    + split; [|lia]. rewrite (co_win _ _ _ _ _ Hc) by lia. f_equal. unfold logIndex. lia.
    + split; [|lia]. rewrite !idx_ge; [done|lia|unfold logIndex, lastLogIndex in *; lia].
  - destruct is_full_same as [[_ ?]|(_ & Hzf & _)]; [lia|].
    split; [|rewrite Hzf; unfold zlen; simpl; lia]. rewrite !idx_ge; [done|lia|].
    unfold zlen. simpl. lia.
Qed.

Lemma install_core h' rf' :
  hist_ext h h' → log rf' = is_log rf args → lastIncludedIndex rf' = isa_LastIncludedIndex args →
  lastIncludedTerm rf' = isa_LastIncludedTerm args →
  commitIndex rf' = Z.max (commitIndex rf) (isa_LastIncludedIndex args) →
  lastApplied rf' = Z.max (lastApplied rf) (isa_LastIncludedIndex args) →
  pendingSnapshot rf' = Some (snapshotMsg args) → on_disk rf' →
  core n h' (isa_Term args) is_full rf' ∧
  ∀ i, known n h t w rf i → known n h' (isa_Term args) is_full rf' i.
Proof using All.
  intros He Hlog Hlii Hlit Hci Hla Hps Hd. pose proof (co_lii _ _ _ _ _ Hc).
  destruct (is_log_window (isa_LastIncludedIndex args + 1) ltac:(lia)) as [_ Hz].
  assert (Hk : ∀ i, known n h t w rf i → known n h' (isa_Term args) is_full rf' i).
  { intros i [H0 Hi]. split; [done|]. rewrite Hlii. destruct Hi as [?|Hsi]; [left; lia|].
    destruct is_full_same as [[-> _]|(Hlast & _)].
    - right. eapply stable_le; [by eapply stable_ext|done|lia].
    - left. destruct Hsi as (_ & ? & _). rewrite (co_len _ _ _ _ _ Hc) in *. lia. }
  assert (Hmax : ∀ i, known n h t w rf i →
            known n h' (isa_Term args) is_full rf' (Z.max i (isa_LastIncludedIndex args))).
  { intros i Hi. destruct (Z.max_spec i (isa_LastIncludedIndex args)) as [[_ ->]|[_ ->]]; [|by apply Hk].
    split; [lia|]. left. lia. }
  split; [|done]. constructor.
  - eapply wf_log_ext; [done|]. apply is_full_wf.
  - rewrite Hlog. by apply is_log_nonempty.
  - lia.
  - rewrite Hz. unfold lastLogIndex. rewrite Hlog, Hlii. lia.
  - intros i Hi. rewrite Hlii in Hi. unfold logIndex. rewrite Hlog, Hlii.
    by destruct (is_log_window i Hi).
  - done.
  - exists s. rewrite Hlii, Hlit. split_and!; [by eapply stable_ext|done|].
    destruct is_full_same as [[E Hlt]|(_ & _ & Hsf)].
    + right. rewrite E, (co_len _ _ _ _ _ Hc) in Hz. unfold lastLogIndex at 1. rewrite Hlog, Hlii. lia.
    + left. eapply same_trans; [done|]. apply same_sym, is_leader_same.
  - rewrite Hci. apply Hmax, (co_commit _ _ _ _ _ Hc).
  - rewrite Hla. apply Hmax, (co_applied _ _ _ _ _ Hc).
  - rewrite Hps. by intros msg [= <-].
  - pose proof (co_floor _ _ _ _ _ Hc). lia.
  - pose proof (co_order _ _ _ _ _ Hc). lia.
Qed.

End Install.

Lemma install_outdated rf args now rf' r :
  InstallSnapshot rf args now = Some (rf', r) →
  isa_Term args < currentTerm rf ∨ isa_LastIncludedIndex args <= lastIncludedIndex rf →
  (state rf' = Follower ∨ rf' = rf) ∧ currentTerm rf <= currentTerm rf' ∧ same_log rf rf' ∧
  persister rf' = persister rf.
Proof using Type.
  intros E Hcase. unfold InstallSnapshot in E.
  destruct (Z.ltb_spec (isa_Term args) (currentTerm rf)).
  { injection E as <- <-. split_and!; [by right|lia|done..]. }
  destruct (Z.gtb_spec (isa_Term args) (currentTerm rf)); simpl in E;
    (destruct (Z.leb_spec (isa_LastIncludedIndex args) (lastIncludedIndex rf)); [|lia]);
    injection E as <- <-; split_and!; try done; simpl; by left || lia.
Qed.

Lemma linv_serve_snapshot c h i p args now rf rf' r :
  inv n c → linv n c h → net c !! i = Some (p, CallSnapshot args) → nodes c !! p = Some rf →
  InstallSnapshot rf args now = Some (rf', r) →
  ∃ h', hist_ext h h' ∧
    linv n (mkCluster (<[p := rf']> (nodes c)) (elections c) (threads c) (net c)
              (replies c ++ [(i, ReplySnapshot r)]) (applied c)) h'.
Proof using Type.
  intros Hi Hl Hn Hp E. set (c' := mkCluster _ _ _ _ _ _).
  pose proof (lookup_lt_Some _ _ _ Hp) as Hlt.
  destruct (li_net _ _ _ Hl _ _ _ Hn) as (_ & l & s & Hlg & Hld & Hs & Hst).
  pose proof (li_core _ _ _ Hl _ _ Hp) as Hc. pose proof (li_hist _ _ _ Hl) as Hh.
  pose proof (vstep_nstep _ _ (InstallSnapshot_vstep _ _ _ _ _ E)) as [Hv _].
  destruct (decide (isa_Term args < currentTerm rf ∨ isa_LastIncludedIndex args <= lastIncludedIndex rf))
    as [Ho|Hnew].
  { destruct (install_outdated _ _ _ _ _ E Ho) as (Hf & Hterm & Hsl & Hps).
    exists h. split; [apply hist_ext_refl|]. eapply linv_served_same; try done.
    apply (on_disk_same rf); [done|apply Hsl|apply (co_disk _ _ _ _ _ Hc)]. }
  destruct (InstallSnapshot_install rf args now) as (rf2 & E2 & Hct & Hstt & _ & Hlog & Hlii & Hlit &
    Hci & Hla & Hps & _ & _ & _ & Hdur); [lia|lia|]. rewrite E in E2. injection E2 as <- _.
  destruct (vmove_floor n c c' p rf rf' Hi Hp eq_refl Hv) as (Hf1 & _ & Hfl).
  destruct (floor_insert c c' p rf' Hlt eq_refl) as (Hne & Hfp & _ & _).
  pose proof (floor_le n c p rf Hi Hp) as Hfc.
  rewrite (boot_durable _ Hdur) in Hfp. simpl in Hfp. rewrite Hct in Hfp.
  set (w := h_full h p) in *. pose proof (hk_full _ _ _ _ Hh p) as Hw. fold w in Hw.
  set (w' := is_full w l rf args).
  assert (Hfull1 : h_full (ghost_full p w' h) p = w') by (simpl; by rewrite decide_True).
  exists (ghost_full p w' h). split; [apply full_ext|]. eapply linv_served; try done; [lia|..].
  - apply (hist_floor n (floor c)); [done|]. apply hist_full; [done| |].
    + by eapply (is_full_wf (floor c) (votes c) h (floor c p) w s l rf args); try done; lia.
    + intros T1 m1 i1 l1 Ha _ Hl1 Ht1 Hs1.
      eapply (is_keeps_acked (floor c) (votes c) h (floor c p) w s l rf args); try done; lia.
  - apply full_frame.
  - destruct (install_core (floor c) (votes c) h (floor c p) w s l rf args Hh Hc Hw Hlg
      ltac:(lia) Hs Hst ltac:(lia) (ghost_full p w' h) rf') as [Hc' Hk]; try done;
      [apply full_ext|apply on_disk_recoverable; by left|].
    fold c'. constructor; rewrite ?Hfull1, ?Hfp; [lia|done| |done]. unfold role_ok. by rewrite Hstt.
Qed.

(** ** The service *)

(** An operation on peer [p] that starts no vote goroutine and sends nothing. *)
Lemma linv_service c h h' p rf rf' ts :
  inv n c → linv n c h → nodes c !! p = Some rf → currentTerm rf <= currentTerm rf' →
  let c' := mkCluster (<[p := rf']> (nodes c)) (elections c) (threads c ++ ts) (net c)
              (replies c) (applied c) in
  hist_ok n (floor c') (votes c) h' → frame c p h h' → node_step n c c' h h' p rf rf' →
  (∀ t, t ∈ ts → t = TSendHeartbeats p false) → linv n c' h'.
Proof using Type.
  intros Hi Hl Hp Hterm c' Hh Hf Hns Hts. pose proof (lookup_lt_Some _ _ _ Hp) as Hlt.
  destruct (floor_insert c c' p rf' Hlt eq_refl) as (_ & _ & Hp' & Hnodes).
  assert (Hg : grows c c') by by apply grows_same.
  apply (linv_step n c c' h h' p); try done.
  - intros rf2 E2. rewrite Hp' in E2. injection E2 as <-. exists rf. split; [done|].
    split; [done|by intros; right].
  - congruence.
  - intros t [?|Ht%Hts]%elem_of_app; [by right|left]. by subst.
  - by left.
  - by left; split.
  - by left.
Qed.

Lemma linv_service_same c h p rf rf' :
  inv n c → linv n c h → nodes c !! p = Some rf → vmove rf rf' → rf' = rf ∨ rf' = Kill rf →
  linv n (mkCluster (<[p := rf']> (nodes c)) (elections c) (threads c) (net c)
            (replies c) (applied c)) h.
Proof using Type.
  intros Hi Hl Hp Hv Hcase. set (c' := mkCluster _ _ _ _ _ _).
  assert (Hs : same_log rf rf') by by destruct Hcase as [->| ->].
  destruct (vmove_floor n c c' p rf rf' Hi Hp eq_refl Hv) as (Hf1 & Hf2 & Hfl).
  pose proof (linv_service c h h p rf rf' [] Hi Hl Hp) as H. rewrite app_nil_r in H.
  apply H; [destruct Hcase as [->| ->]; simpl; lia| | | |by intros t ?%not_elem_of_nil].
  - eapply hist_floor; [done|]. by apply Hl.
  - apply frame_refl.
  - apply node_step_same; try done; [apply hist_ext_refl|..].
    + destruct Hcase as [->| ->]; apply (li_core _ _ _ Hl _ _ Hp).
    + destruct Hcase as [->| ->]; eapply role_step; try (by apply (li_role _ _ _ Hl _ _ Hp));
        try done; by right.
Qed.

(** *** [Start] *)
Lemma append_frame c h p T e l :
  h_log h T = Some l → h_leader h T = p → h_full h p = l → frame c p h (ghost_append p T e h).
Proof using Type.
  intros Hl Hld Hf. constructor; try done; [by eapply append_ext|..]; simpl.
  - intros q Hq. by rewrite decide_False.
  - intros q T' l' Hq Hl' Hq'. rewrite decide_False; [done|]. intros ->. congruence.
  - intros q T' l' Hq. case_decide as E; [|intros Hl' _; by exists l'].
    intros _ Hq'. subst T'. congruence.
Qed.

Lemma start_core h h' t w rf command :
  core n h t w rf → hist_ext h h' → wf_log h' (w ++ [mkEntry (currentTerm rf) command]) →
  let rf' := persist (set_log (log rf ++ [mkEntry (currentTerm rf) command]) rf) in
  core n h' t (w ++ [mkEntry (currentTerm rf) command]) rf' ∧
  ∀ i, known n h t w rf i → known n h' t (w ++ [mkEntry (currentTerm rf) command]) rf' i.
Proof using Type.
  intros Hc He Hwf rf'. set (e := mkEntry _ _) in *.
  assert (Hlast : lastLogIndex rf' = lastLogIndex rf + 1)
    by (unfold lastLogIndex; simpl; autorewrite with go; lia).
  pose proof (core_last _ _ _ _ _ Hc) as Hll. pose proof (co_len _ _ _ _ _ Hc) as Hlen.
  assert (Hk : ∀ i, known n h t w rf i → known n h' t (w ++ [e]) rf' i).
  { intros i [H0 [?|Hs]]; (split; [done|]); [by left|right]. pose proof Hs as (_ & ? & _).
    eapply stable_same; [by eapply stable_ext|]. apply same_app. lia. }
  split; [|done]. constructor.
  - done.
  - simpl. by destruct (log rf).
  - apply (co_lii _ _ _ _ _ Hc).
  - rewrite Hlast, zlen_app, Hlen. done.
  - intros i Hi. change (lastIncludedIndex rf') with (lastIncludedIndex rf) in Hi.
    change (log rf') with (log rf ++ [e]). change (logIndex rf' i) with (logIndex rf i).
    rewrite !idx_snoc, Hlen, (co_win _ _ _ _ _ Hc i Hi).
    destruct (decide (i = lastLogIndex rf + 1)) as [->|Hne].
    + by rewrite decide_True by (unfold logIndex, lastLogIndex; lia).
    + by rewrite decide_False by (unfold logIndex, lastLogIndex in *; lia).
  - apply on_disk_persist.
  - destruct (co_snap _ _ _ _ _ Hc) as (s & Hs & Hst & _). exists s.
    split_and!; [by eapply stable_ext|done|right]. rewrite Hlast.
    change (lastIncludedIndex rf') with (lastIncludedIndex rf). lia.
  - apply Hk, (co_commit _ _ _ _ _ Hc).
  - apply Hk, (co_applied _ _ _ _ _ Hc).
  - apply (co_pending _ _ _ _ _ Hc).
  - apply (co_floor _ _ _ _ _ Hc).
  - apply (co_order _ _ _ _ _ Hc).
Qed.

Lemma linv_start c h p rf command :
  inv n c → linv n c h → nodes c !! p = Some rf → state rf = Leader →
  let rf' := persist (set_log (log rf ++ [mkEntry (currentTerm rf) command]) rf) in
  ∃ h', hist_ext h h' ∧
    linv n (mkCluster (<[p := rf']> (nodes c)) (elections c)
              (threads c ++ [TSendHeartbeats p false]) (net c) (replies c) (applied c)) h'.
Proof using Type.
  intros Hi Hl Hp Hst rf'. set (c' := mkCluster _ _ _ _ _ _). set (T := currentTerm rf) in *.
  pose proof (lookup_lt_Some _ _ _ Hp) as Hlt.
  pose proof (li_core _ _ _ Hl _ _ Hp) as Hc. pose proof (li_hist _ _ _ Hl) as Hh.
  pose proof (li_role _ _ _ Hl _ _ Hp) as Hr. unfold role_ok in Hr. rewrite Hst in Hr.
  pose proof (lr_log _ _ _ _ _ _ Hr) as Hlg. pose proof (lr_self _ _ _ _ _ _ Hr) as Hld.
  pose proof (lr_term _ _ _ _ _ _ Hr) as Hft. fold T in Hlg, Hld, Hft.
  destruct (floor_insert c c' p rf' Hlt eq_refl) as (Hne & Hfp & _ & _).
  unfold rf' in Hfp. rewrite boot_persist in Hfp. change (fst _) with T in Hfp. fold rf' in Hfp.
  set (e := mkEntry T command) in *.
  assert (Hh' : hist_ok n (floor c') (votes c) (ghost_append p T e h)).
  { apply (hist_floor n (floor c)).
    - intros v. destruct (decide (v = p)) as [->|Hv]; [lia|]. rewrite Hne by done. lia.
    - eapply hist_append; done. }
  pose proof (append_ext h p T e _ Hlg eq_refl) as He.
  assert (Hfull : h_full (ghost_append p T e h) p = h_full h p ++ [e])
    by (simpl; by rewrite decide_True).
  destruct (start_core h (ghost_append p T e h) (floor c p) (h_full h p) rf command Hc He) as [Hc' Hk].
  { fold T. fold e. rewrite <- Hfull. apply (hk_full _ _ _ _ Hh'). }
  exists (ghost_append p T e h). split; [done|].
  eapply linv_service; try done.
  - by eapply append_frame.
  - rewrite Hft in Hc', Hk. fold c'. constructor; rewrite ?Hfull, ?Hfp, ?Hft; [lia|done|..].
    + unfold role_ok. change (state rf') with (state rf). rewrite Hst.
      assert (Hlast : lastLogIndex rf' = lastLogIndex rf + 1)
        by (unfold lastLogIndex; simpl; autorewrite with go; lia).
      destruct Hr. constructor; try done.
      * change (currentTerm rf') with T. simpl. by rewrite decide_True.
      * intros q x Hx. rewrite Hlast. apply lr_next in Hx. lia.
      * intros q x Hx. destruct (matched_ext n h _ _ _ _ _ He (lr_match q x Hx)) as [Hb Hm].
        split; [rewrite Hlast; lia|done].
    + done.
  - by intros t ?%list_elem_of_singleton.
Qed.

(** *** [Snapshot] *)

(** The snapshot of an index that has been applied. *)
(** What [Snapshot] leaves alone. *)
Lemma Snapshot_keeps rf index snap rf' :
  lastIncludedIndex rf < index → Snapshot rf index snap = Some rf' →
  nextIndex rf' = nextIndex rf ∧ matchIndex rf' = matchIndex rf ∧
  pendingSnapshot rf' = pendingSnapshot rf ∧ logTerm rf index = Some (lastIncludedTerm rf').
Proof using Type.
  intros Hi E. unfold Snapshot in E. destruct (Z.leb_spec index (lastIncludedIndex rf)); [lia|].
  destruct (logTerm rf index); [|done]. cbn [mbind option_bind] in E.
  destruct (slice_from _ _) as [[|e r]|]; try done. cbn [mbind option_bind] in E. by injection E as <-.
Qed.

(** A peer that compacts what it applied. *)
Lemma snapshot_core h t t' w rf index snap rf' :
  core n h t w rf → lastIncludedIndex rf < index <= lastApplied rf → t <= t' →
  Snapshot rf index snap = Some rf' →
  core n h t' w rf' ∧ ∀ i, known n h t w rf i → known n h t' w rf' i.
Proof using Type.
  intros Hc Hi Ht E. pose proof (co_lii _ _ _ _ _ Hc) as Hl0. pose proof (co_order _ _ _ _ _ Hc) as Hord.
  pose proof (known_le _ _ _ _ _ _ index (co_applied _ _ _ _ _ Hc) ltac:(lia)) as Hk.
  pose proof (known_bound _ _ _ _ _ _ Hc Hk) as Hb.
  destruct (Snapshot_spec rf index snap) as (rf2 & E2 & Hlii & Hlast & Hok & _ & Hidx & _ & Hdur &
    Hct & _ & Hst & Hci & Hla); [lia|]. rewrite E in E2. injection E2 as <-.
  destruct (Snapshot_keeps rf index snap rf') as (Hni & Hmi & Hps & Hlit); [lia|done|].
  destruct Hk as [H0 [?|Hs]]; [lia|]. pose proof Hs as (_ & Hlen & _).
  assert (Hk' : ∀ i, known n h t w rf i → known n h t' w rf' i).
  { intros i [Hi0 [?|Hsi]]; (split; [done|]); [left; lia|right]. eapply stable_le; [done|done|lia]. }
  split; [|done]. constructor; try done; try (by apply Hc).
  - lia.
  - rewrite Hlast. apply (co_len _ _ _ _ _ Hc).
  - intros i Hli. rewrite Hidx by lia. apply (co_win _ _ _ _ _ Hc). lia.
  - apply on_disk_recoverable. by left.
  - exists w. rewrite Hlii. split_and!.
    + eapply stable_le; [done|done|lia].
    + rewrite <- (core_logTerm n h t _ rf) by (done || lia). done.
    + left. apply same_refl; lia.
  - rewrite Hci. apply Hk', (co_commit _ _ _ _ _ Hc).
  - rewrite Hla. apply Hk', (co_applied _ _ _ _ _ Hc).
  - rewrite Hps. apply (co_pending _ _ _ _ _ Hc).
  - pose proof (co_floor _ _ _ _ _ Hc). lia.
  - lia.
Qed.

Lemma linv_snapshot c h p index snap rf rf' :
  inv n c → linv n c h → nodes c !! p = Some rf → Snapshot rf index snap = Some rf' →
  index <= lastApplied rf →
  linv n (mkCluster (<[p := rf']> (nodes c)) (elections c) (threads c) (net c)
            (replies c) (applied c)) h.
Proof using Type.
  intros Hi Hl Hp E Happ. set (c' := mkCluster _ _ _ _ _ _).
  pose proof (li_core _ _ _ Hl _ _ Hp) as Hc.
  pose proof (vstep_nstep _ _ (Snapshot_vstep _ _ _ _ E)) as [Hv _].
  destruct (decide (index <= lastIncludedIndex rf)) as [Ho|Hnew].
  { apply (linv_service_same c h p rf rf'); try done. left. unfold Snapshot in E.
    destruct (Z.leb_spec index (lastIncludedIndex rf)); [|lia]. by injection E as <-. }
  destruct (vmove_floor n c c' p rf rf' Hi Hp eq_refl Hv) as (Hf1 & Hf2 & Hfl).
  destruct (snapshot_core h (floor c p) (floor c' p) (h_full h p) rf index snap rf') as [Hc' Hk']; [done|lia|done|done|].
  destruct (Snapshot_keeps rf index snap rf') as (Hni & Hmi & _); [lia|done|].
  pose proof (known_bound _ _ _ _ _ _ Hc (co_applied _ _ _ _ _ Hc)) as Hb.
  destruct (Snapshot_spec rf index snap) as (rf2 & E2 & _ & Hlast & _ & _ & _ & _ & _ & Hct & _ & Hst & _); [lia|].
  rewrite E in E2. injection E2 as <-.
  pose proof (linv_service c h h p rf rf' [] Hi Hl Hp) as H. rewrite app_nil_r in H.
  apply H; [lia| |apply frame_refl| |by intros t ?%not_elem_of_nil].
  - eapply hist_floor; [done|]. by apply Hl.
  - constructor; [done|done| |done]. pose proof (li_role _ _ _ Hl _ _ Hp) as Hr. fold c'.
    assert (Hr' : role_ok n h (floor c p) p (h_full h p) rf') by by eapply role_last.
    unfold role_ok in *. destruct (state rf'); [done| |].
    + assert (floor c' p = floor c p) as -> by (pose proof (cr_term _ _ _ _ _ Hr'); lia). done.
    + assert (floor c' p = floor c p) as -> by (pose proof (lr_term _ _ _ _ _ _ Hr'); lia). done.
Qed.

(** ** Restarts *)
Lemma Make_volatile ps me p now :
  let rf := Make ps me p now : Raft Command in
  commitIndex rf = lastIncludedIndex rf ∧ lastApplied rf = lastIncludedIndex rf ∧
  pendingSnapshot rf = None.
Proof using Type.
  unfold Make, readPersist. destruct (zlen (ReadRaftState p) <? 1); [done|].
  by destruct (decodeState (ReadRaftState p)) as [[[[[ct vf] lg] lii] lit]|].
Qed.

Lemma restart_core h t w rf ps p now :
  core n h t w rf →
  let rf' := Make ps p (persister rf) now in
  core n h t w rf' ∧ ∀ i, known n h t w rf i → known n h t w rf' i.
Proof using Type.
  intros Hc rf'. destruct (Make_volatile ps p (persister rf) now) as (Hci & Hla & Hps).
  destruct (Make_fixed ps p (persister rf) now) as (_ & _ & Hpe & _). fold rf' in Hci, Hla, Hps, Hpe.
  assert (Hm : mem_log rf' = mem_log rf).
  { unfold rf'. rewrite Make_mem. apply (co_disk _ _ _ _ _ Hc). }
  assert (Hd : on_disk rf') by (by apply (on_disk_same rf), Hc).
  clearbody rf'.
  unfold mem_log in Hm. injection Hm as Hlog Hlii Hlit.
  assert (Hlast : lastLogIndex rf' = lastLogIndex rf) by (unfold lastLogIndex; congruence).
  pose proof (co_lii _ _ _ _ _ Hc).
  split; [|intros i; unfold known; by rewrite Hlii].
  destruct Hc. constructor; unfold logIndex in *; rewrite ?Hlast, ?Hlii, ?Hlog, ?Hlit; try done.
  - rewrite Hci. split; [lia|left; lia].
  - rewrite Hla. split; [lia|left; lia].
  - by rewrite Hps.
  - rewrite Hci, Hla. lia.
Qed.

Lemma linv_restart c h p now c' :
  inv n c → linv n c h → restart c p now = Some c' → linv n c' h.
Proof using Type.
  intros Hi Hl. unfold restart. destruct (nodes c !! p) as [rf|] eqn:Hp; [|done].
  cbn [mbind option_bind]. intros E. injection E as E. set (rf' := Make _ _ _ _) in E.
  pose proof (lookup_lt_Some _ _ _ Hp) as Hlt.
  destruct (inv_node n c Hi _ _ Hp) as (Hme & _).
  assert (Hv : vmove rf rf') by (unfold rf'; rewrite <- Hme; apply Make_nstep).
  assert (Hn : nodes c' = <[p := rf']> (nodes c)) by by rewrite <- E.
  destruct (floor_insert c c' p rf' Hlt Hn) as (Hne & Hfp & Hp' & Hnodes).
  destruct (Make_fixed (peers rf) p (persister rf) now) as (_ & _ & Hpe & Hst).
  fold rf' in Hpe, Hst.
  assert (Hfl : ∀ q, floor c' q = floor c q).
  { intros q. destruct (decide (q = p)) as [->|]; [|by apply Hne].
    rewrite Hfp. unfold floor. rewrite Hp. unfold boot. by rewrite Hpe. }
  assert (Hg : grows c c') by (rewrite <- E; by apply grows_same).
  destruct (restart_core h (floor c p) (h_full h p) rf (peers rf) p now (li_core _ _ _ Hl _ _ Hp))
    as [Hc' Hk]. fold rf' in Hc', Hk.
  assert (Hth : ∀ t, t ∈ threads c' → t ∈ loops p ∨ t ∈ threads c ∧ t_node t ≠ p).
  { intros t Ht. rewrite <- E in Ht. simpl in Ht. apply elem_of_app in Ht as [Ht|Ht]; [right|by left].
    apply list_elem_of_In, List.filter_In in Ht as [Ht Hx]. apply negb_true_iff, Nat.eqb_neq in Hx.
    split; [by apply list_elem_of_In|done]. }
  assert (Hloops : ∀ t, t ∈ loops p → lthread_ok n h c' t).
  { intros t Ht. repeat (apply elem_of_cons in Ht as [->|Ht]; [done|]). by apply not_elem_of_nil in Ht. }
  apply (linv_step n c c' h h p); try done.
  - eapply hist_votes; [apply (votes_same n); try done; by rewrite <- E|].
    eapply hist_floor; [|by apply Hl]. intros v. rewrite Hfl. lia.
  - apply frame_refl.
  - intros rf2 E2. rewrite Hp' in E2. injection E2 as <-. exists rf. split; [done|]. split.
    + constructor; rewrite ?Hfl; [lia|done| |done]. unfold role_ok. by rewrite Hst.
    + intros t Ht _ Hx. left. destruct (Hth t Ht) as [?|[_ ?]]; [by apply Hloops|done].
  - congruence.
  - intros t Ht. destruct (Hth t Ht) as [?|[? _]]; [left; by apply Hloops|by right].
  - rewrite <- E. by left.
  - rewrite <- E. by left; split.
  - rewrite <- E. by left.
Qed.

End Invariant.
End Snapshots.
