(* ===== verification/ClusterReplies.v ===== *)
(** * The invariant of the logs: the leader

    The leader's side of replication: the replies to AppendEntries and
    InstallSnapshot, and the commit index. *)
From stdpp Require Import base tactics list strings numbers option sets.
From Stdlib Require Import ZArith Lia.
From S2P Require Import Prelude.
From S2P Require Import Gob.
From S2P Require Import Persister.
From S2P Require Import RaftNode.
From S2P Require Import RaftLog.
From S2P Require Import RaftOps.
From S2P Require Import RaftTheorems.
From S2P Require Import History.
From S2P Require Import HistorySteps.
From S2P Require Import Cluster.
From S2P Require Import ClusterVotes.
From S2P Require Import ClusterSafety.
From S2P Require Import ClusterInv.
From S2P Require Import ClusterSteps.
From S2P Require Import ClusterElections.
From S2P Require Import ClusterAppend.

Local Open Scope Z_scope.

Section Replies.
Context {Command : Type}.
Context {gobZ : Gob Z} {gobLog : Gob (list (LogEntry Command))}.
Implicit Types (rf : Raft Command) (c : cluster Command) (h : history Command).
Implicit Types (w s l : list (LogEntry Command)).

Section Invariant.
Context (n : nat).

(** Nobody leads a term it has not reached. *)
Lemma not_overtaken c h p rf args :
  linv n c h → nodes c !! p = Some rf → state rf = Leader → currentTerm rf = aea_Term args →
  aea_LeaderId args = Z.of_nat p → ¬ overtaken h args.
Proof using Type.
  intros Hl Hp Hst Ht Hid (T & l & HT & Hlg & Hld).
  pose proof (li_role _ _ _ Hl _ _ Hp) as Hr. unfold role_ok in Hr. rewrite Hst in Hr.
  pose proof (lr_term _ _ _ _ _ _ Hr) as Hft. pose proof (li_hist _ _ _ Hl) as Hh.
  destruct (hk_quorum _ _ _ _ Hh _ _ Hlg) as (Q & HQ & HV).
  destruct (majority_inhabited n Q HQ) as (q & Hq).
  pose proof (hk_floor _ _ _ _ Hh _ _ _ (hk_self_vote _ _ _ _ Hh _ _ _ (HV q Hq))) as Hf.
  assert (h_leader h T = p) as Hlp by lia. rewrite Hlp in Hf. lia.
Qed.

(** Replication state of one peer is replaced. *)
Lemma leader_role_next h t p w rf q x :
  leader_role n h t p w rf → 1 <= x <= lastLogIndex rf + 1 →
  leader_role n h t p w (set_nextIndex (<[q := x]> (nextIndex rf)) rf).
Proof using Type.
  intros [] Hx. constructor; try done; [cbn; by rewrite length_insert|].
  intros q' x'. cbn. intros [(_ & <- & _)|(_ & Hq)]%list_lookup_insert_Some; [done|].
  by apply lr_next in Hq.
Qed.

Lemma leader_role_match h t p w rf q x :
  leader_role n h t p w rf → matched n h (currentTerm rf) rf q x →
  leader_role n h t p w (set_matchIndex (<[q := x]> (matchIndex rf)) rf).
Proof using Type.
  intros [] Hx. constructor; try done; [cbn; by rewrite length_insert|].
  intros q' x'. cbn. intros [(<- & <- & _)|(_ & Hq)]%list_lookup_insert_Some; [done|].
  by apply lr_match in Hq.
Qed.

(** ** The commit index *)

(** What the leader counts on a majority is committed. *)
Lemma committable_stable fl vt h t p w rf i :
  hist_ok n fl vt h → core n h t w rf → leader_role n h t p w rf →
  me rf = p → length (peers rf) = n → (p < n)%nat →
  lastIncludedIndex rf < i → committable rf i → stable n h (currentTerm rf) w i.
Proof using Type.
  intros Hh Hc Hr Hme Hlen Hp Hi [Ht Hmaj]. pose proof (co_lii _ _ _ _ _ Hc).
  rewrite (core_logTerm n _ _ _ _ _ Hc Hi) in Ht.
  apply (stable_new n fl vt h Hh (currentTerm rf) w i (p :: replicas rf i)).
  - apply (lr_log _ _ _ _ _ _ Hr).
  - done.
  - assert (Hin : ∀ q, q ∈ replicas rf i → q ∈ otherPeers rf).
    { intros q. unfold replicas. rewrite !list_elem_of_In, List.filter_In. by intros [? _]. }
    split_and!.
    + constructor; [|apply NoDup_ListNoDup, List.NoDup_filter, NoDup_ListNoDup, otherPeers_NoDup].
      intros Hx%Hin%otherPeers_lt. lia.
    + unfold majority, zlen in *. rewrite Hlen in Hmaj. simpl. lia.
    + intros q [->|Hx%Hin%otherPeers_lt]%elem_of_cons; [done|lia].
  - intros q [->|Hx]%elem_of_cons.
    + left. exists i. split; [lia|]. rewrite <- (lr_self _ _ _ _ _ _ Hr).
      by eapply hk_self; [done|apply (lr_log _ _ _ _ _ _ Hr)|].
    + unfold replicas in Hx. apply list_elem_of_In, List.filter_In in Hx as [_ Hx].
      destruct (matchIndex rf !! q) as [m|] eqn:Em; [|done]. apply Z.leb_le in Hx.
      destruct (lr_match _ _ _ _ _ _ Hr _ _ Em) as (Hb & [->|[(m' & Hm' & Ha)|(s & Hs)]]); [lia| |].
      * left. exists m'. split; [lia|done].
      * right. exists s. eapply stable_le; [done|lia|lia].
Qed.

Lemma core_set_commit h t w rf i :
  core n h t w rf → known n h t w rf i → commitIndex rf <= i → core n h t w (set_commitIndex i rf).
Proof using Type. intros [] Hk Hi. constructor; try done. simpl. lia. Qed.

Lemma advance_core fl vt h t p w rf rf' :
  hist_ok n fl vt h → core n h t w rf → leader_role n h t p w rf →
  me rf = p → length (peers rf) = n → (p < n)%nat →
  maybeAdvanceCommitIndex rf = Some rf' →
  ∃ i, rf' = set_commitIndex i rf ∧ core n h t w rf'.
Proof using Type.
  intros Hh Hc Hr Hme Hlen Hp E. pose proof (co_order _ _ _ _ _ Hc).
  pose proof (known_bound _ _ _ _ _ _ Hc (co_commit _ _ _ _ _ Hc)) as Hb.
  destruct (maybeAdvance_spec rf) as (i & E2 & Hi & _);
    [apply (co_log _ _ _ _ _ Hc)|by rewrite (lr_match_len _ _ _ _ _ _ Hr)|lia|].
  rewrite E in E2. injection E2 as ->. exists i. split; [done|].
  destruct Hi as [->|[Hi Hcm]]; [by apply core_set_commit; [| apply Hc|]|].
  apply core_set_commit; [done| |lia]. split; [lia|right].
  rewrite (lr_term _ _ _ _ _ _ Hr). by eapply committable_stable; [..|lia|].
Qed.

(** ** Replies *)

(** A reply makes peer [p] change, but not its log or the history. *)
Lemma linv_reply c h k p rf rf' :
  inv n c → linv n c h → nodes c !! p = Some rf → vmove rf rf' → currentTerm rf <= currentTerm rf' →
  let c' := mkCluster (<[p := rf']> (nodes c)) (elections c) (respawn k [] (threads c))
              (net c) (replies c) (applied c) in
  core n h (floor c' p) (h_full h p) rf' → mem_log rf' = mem_log rf →
  role_ok n h (floor c' p) p (h_full h p) rf' → linv n c' h.
Proof using Type.
  intros Hi Hl Hp Hv Hterm c' Hc Hm Hr. pose proof (lookup_lt_Some _ _ _ Hp) as Hlt.
  destruct (floor_insert c c' p rf' Hlt eq_refl) as (Hne & Hfp & Hp' & Hnodes).
  destruct (vmove_floor n c c' p rf rf' Hi Hp eq_refl Hv) as (Hf1 & Hf2 & Hfl).
  assert (Hg : grows c c') by by apply grows_same.
  apply (linv_step n c c' h h p); try done.
  - apply (hist_floor n (floor c)); [done|]. eapply hist_votes; [by apply (votes_same n)|]. apply Hl.
  - apply frame_refl.
  - intros rf2 E2. rewrite Hp' in E2. injection E2 as <-. exists rf. split; [done|].
    split; [|by intros; right]. constructor; try done.
    intros i Hk. unfold mem_log in Hm. injection Hm as _ Hlii _. unfold known. rewrite Hlii.
    eapply known_mono; [apply hist_ext_refl|done|done].
  - congruence.
  - intros t [Ht|Ht]%respawn_elem; [by apply not_elem_of_nil in Ht|by right].
  - by left.
  - by left; split.
  - by left.
Qed.

(** The same, when only the role, the timers or the replication state change. *)
Lemma linv_reply_same c h k p rf rf' :
  inv n c → linv n c h → nodes c !! p = Some rf → vmove rf rf' → currentTerm rf <= currentTerm rf' →
  same_log rf rf' → on_disk rf' →
  state rf' = Follower ∨
  currentTerm rf' = currentTerm rf ∧ state rf' = Leader ∧
    leader_role n h (currentTerm rf) p (h_full h p) rf' ∧ floor c p = currentTerm rf →
  linv n (mkCluster (<[p := rf']> (nodes c)) (elections c) (respawn k [] (threads c))
              (net c) (replies c) (applied c)) h.
Proof using Type.
  intros Hi Hl Hp Hv Hterm Hs Hd Hrole. set (c' := mkCluster _ _ _ _ _ _).
  destruct (vmove_floor n c c' p rf rf' Hi Hp eq_refl Hv) as (Hf1 & Hf2 & Hfl).
  eapply linv_reply; try done; fold c'.
  - eapply core_same; [done|done|]. eapply core_mono; [apply hist_ext_refl|done|]. by apply Hl.
  - apply Hs.
  - unfold role_ok. destruct Hrole as [->|(Ht & -> & Hr & Hfc)]; [done|].
    assert (floor c' p = currentTerm rf) as -> by lia. done.
Qed.

Lemma stepDown_reply c h k p rf term :
  inv n c → linv n c h → nodes c !! p = Some rf → currentTerm rf < term →
  ∀ ni, linv n (mkCluster (<[p := set_nextIndex ni (persist (set_votedFor (-1) (set_state Follower
                 (set_currentTerm term rf))))]> (nodes c)) (elections c)
              (respawn k [] (threads c)) (net c) (replies c) (applied c)) h.
Proof using Type.
  intros Hi Hl Hp Hterm ni. pose proof (stepDown_vstep rf term Hterm) as Hv.
  eapply linv_reply_same; try done.
  - apply vstep_nstep. by eapply vstep_after_same.
  - simpl. lia.
  - eapply on_disk_same; [..|apply (on_disk_persist (set_votedFor (-1) (set_state Follower
      (set_currentTerm term rf))))]; done.
  - by left.
Qed.

Lemma backUp_bound rf reply ni :
  log_ok rf → lastIncludedIndex rf <= lastLogIndex rf → 0 <= lastIncludedIndex rf →
  aer_ConflictIndex reply <= lastLogIndex rf + 1 → backUp rf reply = Some ni →
  1 <= ni <= lastLogIndex rf + 1.
Proof using Type.
  intros Hok Hle H0 Hci. unfold backUp.
  destruct (aer_ConflictTerm reply =? -1).
  { cbn [mbind option_bind]. intros [= <-]. destruct (Z.ltb_spec (aer_ConflictIndex reply) 1); lia. }
  destruct (searchTerm_spec rf (aer_ConflictTerm reply)
              (Z.to_nat (lastLogIndex rf - lastIncludedIndex rf)) Hok) as (r & -> & Hr); [lia|].
  cbn [mbind option_bind]. intros [= <-].
  assert (Hy : (if r =? -1 then aer_ConflictIndex reply else r) <= lastLogIndex rf + 1).
  { destruct (Z.eqb_spec r (-1)); [done|]. destruct Hr as [[? _]|[? _]]; lia. }
  match goal with |- context [?y <? 1] => destruct (Z.ltb_spec y 1); lia end.
Qed.

(** The leader learns that a peer has its log up to [x]. *)
Lemma matched_max h T rf q x y :
  matched n h T rf q x → matched n h T rf q y → matched n h T rf q (if y >? x then y else x).
Proof using Type. by destruct (y >? x). Qed.

(** A follower has all up to [x]. *)
Lemma linv_append_success c h k t p peer rf x rf' :
  inv n c → linv n c h → threads c !! k = Some t → nodes c !! p = Some rf → state rf = Leader →
  vmove rf rf' → matched n h (currentTerm rf) rf peer x →
  maybeAdvanceCommitIndex
    (set_nextIndex (<[peer := x + 1]> (nextIndex rf)) (set_matchIndex (<[peer := x]> (matchIndex rf)) rf)) = Some rf' →
  linv n (mkCluster (<[p := rf']> (nodes c)) (elections c) (respawn k [] (threads c))
              (net c) (replies c) (applied c)) h.
Proof using Type.
  intros Hi Hl Hk Hp Hst Hv Hx E. pose proof (li_core _ _ _ Hl _ _ Hp) as Hc. pose proof (li_hist _ _ _ Hl) as Hh.
  pose proof (core_last _ _ _ _ _ Hc) as Hlast. pose proof (co_lii _ _ _ _ _ Hc) as H0.
  pose proof (lookup_lt_Some _ _ _ Hp) as Hpn. rewrite (inv_len n c Hi) in Hpn.
  destruct (inv_node n c Hi _ _ Hp) as (Hme & Hlen & _).
  pose proof (li_role _ _ _ Hl _ _ Hp) as Hr. unfold role_ok in Hr. rewrite Hst in Hr.
  pose proof (lr_term _ _ _ _ _ _ Hr) as Hfc.
  assert (Hr2 : leader_role n h (currentTerm rf) p (h_full h p)
    (set_nextIndex (<[peer := x + 1]> (nextIndex rf)) (set_matchIndex (<[peer := x]> (matchIndex rf)) rf))).
  { apply (leader_role_next h (currentTerm rf) p (h_full h p)
      (set_matchIndex (<[peer := x]> (matchIndex rf)) rf) peer (x + 1));
      [|destruct Hx as [? _]; change (1 <= x + 1 <= lastLogIndex rf + 1); lia].
    rewrite <- Hfc. by apply leader_role_match; [|]. }
  set (rf2 := set_nextIndex _ _) in *.
  assert (Hc2 : core n h (floor c p) (h_full h p) rf2).
  { apply (core_same n h _ _ rf); [done| |done]. apply (co_disk _ _ _ _ _ Hc). }
  destruct (advance_core (floor c) (votes c) h (floor c p) p (h_full h p) rf2 rf')
    as (i & -> & Hc'); try done; [by rewrite Hfc|].
  destruct (vmove_floor n c (mkCluster (<[p := set_commitIndex i rf2]> (nodes c)) (elections c)
    (respawn k [] (threads c)) (net c) (replies c) (applied c)) p rf _ Hi Hp eq_refl Hv)
    as (Hf1 & Hf2 & _).
  change (currentTerm _) with (currentTerm rf) in Hf2.
  eapply linv_reply; try done.
  - by match goal with |- core n h ?t _ _ => assert (t = floor c p) as -> by lia end.
  - match goal with |- role_ok n h ?t _ _ _ => assert (t = currentTerm rf) as -> by lia end.
    unfold role_ok. cbn [state set_commitIndex rf2 set_nextIndex set_matchIndex]. rewrite Hst.
    eapply leader_role_last; [..|exact Hr2]; done.
Qed.

Lemma linv_appendReply c h k j p peer req args reply rf rf' :
  inv n c → linv n c h → threads c !! k = Some (TAppendCall p peer req args) →
  replies c !! j = Some (req, ReplyAppend reply) → nodes c !! p = Some rf →
  handleAppendReply rf peer args reply = Some rf' →
  linv n (mkCluster (<[p := rf']> (nodes c)) (elections c) (respawn k [] (threads c))
              (net c) (replies c) (applied c)) h.
Proof using Type.
  intros Hi Hl Hk Hj Hp E. pose proof (vstep_nstep _ _ (handleAppendReply_vstep _ _ _ _ _ E)) as [Hv _].
  pose proof (lookup_lt_Some _ _ _ Hp) as Hpn. rewrite (inv_len n c Hi) in Hpn.
  destruct (inv_node n c Hi _ _ Hp) as (Hme & Hlen & _).
  pose proof (li_core _ _ _ Hl _ _ Hp) as Hc. pose proof (li_hist _ _ _ Hl) as Hh.
  pose proof (core_last _ _ _ _ _ Hc) as Hlast. pose proof (co_lii _ _ _ _ _ Hc) as H0.
  destruct (li_thread _ _ _ Hl _ (list_elem_of_lookup_2 _ _ _ Hk)) as (Hpeer & Hid & Hreq).
  pose proof (li_reply _ _ _ Hl _ _ _ _ _ Hj Hreq) as Hrep. unfold handleAppendReply in E.
  destruct (decide (state rf = Leader)) as [Hst|Hst]; cycle 1.
  { rewrite bool_decide_true in E by done. injection E as <-. rewrite list_insert_id by done.
    apply linv_local_0; [done..|]. by intros t ?%not_elem_of_nil. }
  rewrite bool_decide_false in E by naive_solver. cbn [orb] in E.
  destruct (Z.eqb_spec (currentTerm rf) (aea_Term args)) as [Ht|Ht]; cbn [negb] in E; cycle 1.
  { injection E as <-. rewrite list_insert_id by done.
    apply linv_local_0; [done..|]. by intros t ?%not_elem_of_nil. }
  destruct Hrep as [Hov|Hrep]; [by destruct (not_overtaken c h p rf args Hl Hp Hst Ht Hid)|].
  pose proof (li_role _ _ _ Hl _ _ Hp) as Hr. unfold role_ok in Hr. rewrite Hst in Hr.
  pose proof (lr_log _ _ _ _ _ _ Hr) as Hlg. pose proof (lr_term _ _ _ _ _ _ Hr) as Hfc.
  pose proof (co_len _ _ _ _ _ Hc) as Hz. rewrite <- Ht in Hrep.
  destruct (aer_Success reply).
  - destruct Hrep as (Htm & (l & Hl0 & Hb) & Hack). rewrite Hlg in Hl0. injection Hl0 as <-.
    destruct (Z.gtb_spec (aer_Term reply) (currentTerm rf)); [lia|].
    destruct (matchIndex rf !! peer) as [m|] eqn:Em; [|done]. cbn [mbind option_bind] in E.
    set (nm := aea_PrevLogIndex args + zlen (aea_Entries args)) in *.
    assert (Hx : matched n h (currentTerm rf) rf peer (if nm >? m then nm else m)).
    { apply matched_max; [by apply (lr_match _ _ _ _ _ _ Hr)|]. split; [lia|by right]. }
    set (x := if nm >? m then nm else m) in *. clearbody x.
    destruct (idx_set (nextIndex rf) (Z.of_nat peer) (x + 1)) as [ni|] eqn:En; [|done].
    cbn [mbind option_bind] in E. apply idx_set_Some in En as [_ ->]. rewrite Nat2Z.id in E.
    by eapply linv_append_success.
  - destruct Hrep as (l & Hl0 & Hb). rewrite Hlg in Hl0. injection Hl0 as <-.
    destruct (Z.gtb_spec (aer_Term reply) (currentTerm rf)).
    + destruct (backUp _ _) as [x|]; [|done]. cbn [mbind option_bind] in E.
      destruct (idx_set _ _ _) as [ni|]; [|done]. cbn [mbind option_bind] in E.
      injection E as <-. by apply stepDown_reply; [..|lia].
    + destruct (backUp rf reply) as [x|] eqn:Eb; [|done]. cbn [mbind option_bind] in E.
      destruct (idx_set _ _ _) as [ni|] eqn:En; [|done]. cbn [mbind option_bind] in E.
      injection E as <-. apply idx_set_Some in En as [_ ->]. rewrite Nat2Z.id in *.
      eapply linv_reply_same; try done; [apply (co_disk _ _ _ _ _ Hc)|].
      right. split_and!; try done. apply leader_role_next; [by rewrite <- Hfc|].
      apply (backUp_bound rf reply); [apply (co_log _ _ _ _ _ Hc)|done|done|lia|done].
Qed.

Lemma linv_snapshotReply c h k p peer req args reply rf rf' :
  inv n c → linv n c h → threads c !! k = Some (TSnapshotCall p peer req args) →
  nodes c !! p = Some rf → handleSnapshotReply rf peer args reply = Some rf' →
  linv n (mkCluster (<[p := rf']> (nodes c)) (elections c) (respawn k [] (threads c))
              (net c) (replies c) (applied c)) h.
Proof using Type.
  intros Hi Hl Hk Hp E. pose proof (vstep_nstep _ _ (handleSnapshotReply_vstep _ _ _ _ _ E)) as [Hv _].
  pose proof (li_core _ _ _ Hl _ _ Hp) as Hc. pose proof (li_hist _ _ _ Hl) as Hh.
  pose proof (core_last _ _ _ _ _ Hc) as Hlast. pose proof (co_lii _ _ _ _ _ Hc) as H0.
  destruct (li_thread _ _ _ Hl _ (list_elem_of_lookup_2 _ _ _ Hk)) as (Hpeer & Hid & Hreq).
  destruct (li_net _ _ _ Hl _ _ _ Hreq) as (_ & l & s & Hl0 & _ & Hs & _).
  unfold handleSnapshotReply in E.
  destruct (decide (state rf = Leader)) as [Hst|Hst]; cycle 1.
  { rewrite bool_decide_true in E by done. injection E as <-. rewrite list_insert_id by done.
    apply linv_local_0; [done..|]. by intros t ?%not_elem_of_nil. }
  rewrite bool_decide_false in E by naive_solver. cbn [orb] in E.
  destruct (Z.eqb_spec (currentTerm rf) (isa_Term args)) as [Ht|Ht]; cbn [negb] in E; cycle 1.
  { injection E as <-. rewrite list_insert_id by done.
    apply linv_local_0; [done..|]. by intros t ?%not_elem_of_nil. }
  destruct (Z.gtb_spec (isr_Term reply) (currentTerm rf)).
  { injection E as <-. by apply (stepDown_reply c h k p rf (isr_Term reply) Hi Hl Hp ltac:(lia) (nextIndex rf)). }
  pose proof (li_role _ _ _ Hl _ _ Hp) as Hr. unfold role_ok in Hr. rewrite Hst in Hr.
  pose proof (lr_log _ _ _ _ _ _ Hr) as Hlg. pose proof (lr_term _ _ _ _ _ _ Hr) as Hfc.
  rewrite <- Ht in *. rewrite Hlg in Hl0. injection Hl0 as <-.
  destruct (matchIndex rf !! peer) as [m|] eqn:Em; [|done]. cbn [mbind option_bind] in E.
  set (nm := isa_LastIncludedIndex args) in *.
  assert (Hx : matched n h (currentTerm rf) rf peer (if nm >? m then nm else m)).
  { apply matched_max; [by apply (lr_match _ _ _ _ _ _ Hr)|]. split; [|right; right; by exists s].
    pose proof (stable_leader n _ _ h Hh _ _ _ _ _ Hs Hlg ltac:(lia)) as (_ & Hb & _).
    destruct Hs as (_ & ? & _). rewrite (co_len _ _ _ _ _ Hc) in Hb. lia. }
  set (x := if nm >? m then nm else m) in *. clearbody x.
  destruct (idx_set (nextIndex rf) (Z.of_nat peer) (x + 1)) as [ni|] eqn:En; [|done].
  cbn [mbind option_bind] in E. apply idx_set_Some in En as [_ ->]. rewrite Nat2Z.id in E.
  injection E as <-. eapply linv_reply_same; try done; [apply (co_disk _ _ _ _ _ Hc)|].
  right. split_and!; try done.
  apply (leader_role_next h (currentTerm rf) p (h_full h p)
        (set_matchIndex (<[peer := x]> (matchIndex rf)) rf) peer (x + 1));
        [|destruct Hx as [? _]; change (1 <= x + 1 <= lastLogIndex rf + 1); lia].
  rewrite <- Hfc. by apply leader_role_match.
Qed.

End Invariant.
End Replies.
