(* ===== verification/ClusterLog.v ===== *)
(** * Log safety of the cluster

    The invariant of the logs holds in every state that a run reaches, whatever the
    order of the events, the losses and duplications of messages and the restarts,
    as long as the service takes snapshots of what it was given ([service_ok]).
    Hence: the peers' state machines are handed the same commands, a leader has all
    of them, logs that share an entry share what is before it, committed entries
    are the same everywhere, and a leader only appends to its log. *)
From stdpp Require Import base tactics list strings numbers option sets relations.
From Stdlib Require Import ZArith Lia.
From S2P Require Import Prelude.
From S2P Require Import Gob.
From S2P Require Import Persister.
From S2P Require Import RaftNode.
From S2P Require Import RaftLog.
From S2P Require Import RaftOps.
From S2P Require Import RaftTheorems.
From S2P Require Import History.
From S2P Require Import HistorySteps.
From S2P Require Import Cluster.
From S2P Require Import ClusterVotes.
From S2P Require Import ClusterSafety.
From S2P Require Import ClusterInv.
From S2P Require Import ClusterSteps.
From S2P Require Import ClusterElections.
From S2P Require Import ClusterAppend.
From S2P Require Import ClusterSnapshots.
From S2P Require Import ClusterReplies.

Local Open Scope Z_scope.

Section Log.
Context {Command : Type}.
Context {gobZ : Gob Z} {gobLog : Gob (list (LogEntry Command))}.
Implicit Types (rf : Raft Command) (c : cluster Command) (h : history Command).

(** ** Runs *)

(** The service calls [Snapshot] with the index of a command it was handed
    (store.go: [go s.rf.Snapshot(index, data)] after applying it). *)
Definition service_ok c (ev : event Command) : Prop :=
  match ev with
  | EvSnapshot p index _ =>
      match nodes c !! p with Some rf => index <= lastApplied rf | None => True end
  | _ => True
  end.

#[export] Instance service_ok_dec c ev : Decision (service_ok c ev).
Proof. destruct ev; simpl; try apply _. destruct (nodes c !! p); apply _. Defined.

(** Events of a cluster whose peers are used by such services. *)
Definition service_step c (ev : event Command) : option (cluster Command) :=
  if decide (service_ok c ev) then cluster_step c ev else None.

Fixpoint service_run c (evs : list (event Command)) : option (cluster Command) :=
  match evs with
  | [] => Some c
  | ev :: evs' => c' ← service_step c ev; service_run c' evs'
  end.

Definition started (ps : list Peer) (now : Z) c : Prop :=
  ∃ evs, service_run (cluster_init ps now) evs = Some c.

Section Invariant.
Context (n : nat).

Lemma linv_serve c h i now c' :
  inv n c → linv n c h → serve c i now = Some c' → ∃ h', hist_ext h h' ∧ linv n c' h'.
Proof using Type.
  intros Hi Hl. unfold serve. destruct (net c !! i) as [[p call]|] eqn:En; [|done].
  cbn [mbind option_bind]. destruct (nodes c !! p) as [rf|] eqn:Ep; [|done].
  cbn [mbind option_bind]. intros E. destruct call as [args|args|args].
  - destruct (RequestVote rf args now) as [[rf' r]|] eqn:Eh; [|done].
    cbn [mbind option_bind] in E. injection E as <-. exists h. split; [apply hist_ext_refl|].
    by eapply linv_serve_vote.
  - destruct (AppendEntries rf args now) as [[rf' r]|] eqn:Eh; [|done].
    cbn [mbind option_bind] in E. injection E as <-.
    destruct (decide (aea_Term args < currentTerm rf ∨ ¬ ae_accepts rf args)) as [Hr|Ha].
    + exists h. split; [apply hist_ext_refl|]. by eapply linv_append_reject.
    + eapply linv_append_accept; try done; [lia|]. destruct (decide (ae_accepts rf args)); naive_solver.
  - destruct (InstallSnapshot rf args now) as [[rf' r]|] eqn:Eh; [|done].
    cbn [mbind option_bind] in E. injection E as <-. by eapply linv_serve_snapshot.
Qed.

Lemma linv_receive c h k j c' :
  inv n c → linv n c h → receive c k j = Some c' → ∃ h', hist_ext h h' ∧ linv n c' h'.
Proof using Type.
  intros Hi Hl E0. pose proof (inv_receive n c k j c' Hi E0) as Hi'.
  pose proof (receive_grows c k j c' E0) as Hg. revert E0. unfold receive.
  destruct (replies c !! j) as [[i r]|] eqn:Ej; [|done]. cbn [mbind option_bind].
  destruct (threads c !! k) as [t|] eqn:Ek; [|done]. cbn [mbind option_bind].
  destruct t as [| | |p cell peer req| | | |p peer req args|p peer req args], r as [reply|reply|reply];
    try done; (case_decide as Hr; [|done]); subst i;
    (destruct (nodes c !! p) as [rf|] eqn:Ep; [|done]); cbn [mbind option_bind].
  - destruct (elections c !! cell) as [e|] eqn:Ee; [|done]. cbn [mbind option_bind].
    destruct (handleVoteReply _ _ _ _) as [[rf' vs] won] eqn:Eh. intros [= <-].
    by eapply linv_voteReply.
  - destruct (handleAppendReply rf peer args reply) as [rf'|] eqn:Eh; [|done]. cbn [mbind option_bind].
    intros [= <-]. exists h. split; [apply hist_ext_refl|]. by eapply linv_appendReply.
  - destruct (handleSnapshotReply rf peer args reply) as [rf'|] eqn:Eh; [|done]. cbn [mbind option_bind].
    intros [= <-]. exists h. split; [apply hist_ext_refl|]. by eapply linv_snapshotReply.
Qed.

Lemma linv_calls c h ev c' :
  match ev with EvStart _ _ | EvSnapshot _ _ _ | EvKill _ => True | _ => False end →
  inv n c → linv n c h → service_ok c ev → cluster_step c ev = Some c' →
  ∃ h', hist_ext h h' ∧ linv n c' h'.
Proof using Type.
  intros Hev Hi Hl Hok. destruct ev; try done; simpl;
    unfold callStart, callSnapshot, callKill; destruct (nodes c !! p) as [rf|] eqn:Ep; try done;
    cbn [mbind option_bind].
  - unfold Start. case_decide as Hst; cbn.
    + intros [= <-]. by eapply linv_start.
    + intros [= <-]. exists h. split; [apply hist_ext_refl|]. rewrite app_nil_r.
      eapply linv_service_same; try done; [apply vmove_refl|by left].
  - destruct (Snapshot rf index snap) as [rf'|] eqn:Es; [|done]. cbn [mbind option_bind].
    intros [= <-]. exists h. split; [apply hist_ext_refl|]. eapply linv_snapshot; try done.
    simpl in Hok. by rewrite Ep in Hok.
  - intros [= <-]. exists h. split; [apply hist_ext_refl|].
    eapply linv_service_same; try done; [|by right].
    by apply vstep_nstep, vstep_same.
Qed.

Lemma linv_cluster_step c h ev c' :
  inv n c → linv n c h → service_ok c ev → cluster_step c ev = Some c' →
  ∃ h', hist_ext h h' ∧ linv n c' h'.
Proof using Type.
  intros Hi Hl Hok E. pose proof (cluster_step_grows _ _ _ E) as Hg.
  assert (Hq : linv n c' h → ∃ h', hist_ext h h' ∧ linv n c' h').
  { intros H. exists h. split; [apply hist_ext_refl|done]. }
  pose proof (linv_calls c h ev c') as Hcalls.
  destruct ev; try (by apply Hcalls); clear Hcalls; simpl in E.
  - by eapply (linv_runElection n c h).
  - apply Hq; by eapply linv_runThread.
  - by eapply linv_serve.
  - by eapply linv_receive.
  - apply Hq; by eapply linv_callFails.
  - apply Hq. exact (linv_restart n c h p now c' Hi Hl E).
Qed.

Definition good c h : Prop := inv n c ∧ linv n c h.

Lemma good_step c ev c' h :
  good c h → service_step c ev = Some c' → ∃ h', hist_ext h h' ∧ good c' h'.
Proof using Type.
  intros [Hi Hl] E. unfold service_step in E. case_decide as Hok; [|done].
  destruct (linv_cluster_step c h ev c' Hi Hl Hok E) as (h' & He & Hl').
  exists h'. split; [done|]. split; [by eapply inv_cluster_step|done].
Qed.

Lemma good_run c evs c' h :
  good c h → service_run c evs = Some c' → ∃ h', hist_ext h h' ∧ good c' h'.
Proof using Type.
  revert c h. induction evs as [|ev evs IH]; intros c h Hg; simpl.
  - intros [= <-]. exists h. split; [apply hist_ext_refl|done].
  - destruct (service_step c ev) as [c1|] eqn:E; [|done]. cbn [mbind option_bind]. intros Hr.
    destruct (good_step _ _ _ _ Hg E) as (h1 & He1 & Hg1). destruct (IH c1 h1 Hg1 Hr) as (h' & He & Hg').
    exists h'. split; [by eapply hist_ext_trans|done].
Qed.

End Invariant.

(** ** The beginning *)
Lemma init_core ps p now :
  core (length ps) hist_init 0 [sentinel] (Make ps p MakePersister now : Raft Command).
Proof using Type.
  assert (Hz : zlen [sentinel (Command := Command)] = 1) by done.
  assert (Hk : ∀ rf, known (length ps) hist_init 0 [sentinel] rf 0).
  { intros rf. split; [done|]. right. apply stable_zero, wf_sentinel. }
  constructor; try done.
  - apply wf_sentinel.
  - intros i Hi. change (lastIncludedIndex _) with 0 in Hi.
    change (idx [sentinel (Command := Command)] i = idx [sentinel] (i - 0)). by rewrite Z.sub_0_r.
  - exists [sentinel]. split_and!; [apply stable_zero, wf_sentinel|done|left; by apply same_refl].
Qed.

Lemma good_init ps now : good (length ps) (cluster_init ps now : cluster Command) hist_init.
Proof using Type.
  split; [apply inv_init|].
  assert (Hnode : ∀ p rf, nodes (cluster_init ps now : cluster Command) !! p = Some rf →
                    rf = Make ps p MakePersister now).
  { intros p rf Hp. simpl in Hp. apply list_lookup_fmap_Some in Hp as (q & -> & Hq).
    apply lookup_seq in Hq as [-> _]. done. }
  assert (Hfl : ∀ p, floor (cluster_init ps now : cluster Command) p = 0).
  { intros p. unfold floor. destruct (nodes _ !! p) as [rf|] eqn:E; [|done].
    by rewrite (Hnode p rf E), boot_initial. }
  constructor.
  - apply hist_init_ok. by intros v T z [(j & i & args & t & [=] & _)|[(k & e & [=] & _) _]].
  - intros p rf Hp. rewrite (Hnode p rf Hp), Hfl. apply init_core.
  - intros p rf Hp. by rewrite (Hnode p rf Hp).
  - intros t Ht. apply list_elem_of_bind in Ht as (p & Ht & _).
    repeat (apply elem_of_cons in Ht as [->|Ht]; [done|]). by apply not_elem_of_nil in Ht.
  - done.
  - done.
  - by intros p msg ?%not_elem_of_nil.
Qed.

Lemma good_started ps now c : started ps now c → ∃ h, good (length ps) c h.
Proof using Type.
  intros [evs Hs]. destruct (good_run _ _ _ _ _ (good_init ps now) Hs) as (h & _ & Hg). by exists h.
Qed.

(** Two states of a run, with their histories. *)
Lemma good_two ps now c evs c' :
  started ps now c → service_run c evs = Some c' →
  ∃ h h', good (length ps) c h ∧ good (length ps) c' h' ∧ hist_ext h h'.
Proof using Type.
  intros (h & Hg)%good_started Hr. destruct (good_run _ _ _ _ _ Hg Hr) as (h' & He & Hg').
  by exists h, h'.
Qed.

(** A command handed to a state machine, seen from any later state. *)
Lemma delivered_stable n c h h' p msg :
  good n c h → hist_ext h h' → (p, msg) ∈ applied c → am_CommandValid msg = true →
  ∃ s e, stable n h' (floor c p) s (am_CommandIndex msg) ∧ idx s (am_CommandIndex msg) = Some e ∧
         le_Command e = am_Command msg ∧ 0 < am_CommandIndex msg.
Proof using Type.
  intros [_ Hl] He Hin Hv. destruct (li_applied _ _ _ Hl _ _ Hin Hv)
    as (rf & s & e & _ & Hpos & Hs & Hie & Hc & _).
  exists s, e. split_and!; [by eapply stable_ext|done..].
Qed.

(** ** The theorems *)

(** C8. State machine safety: the state machines are handed the same command at the
    same index, by whichever peers and however often they restart in between. *)
Theorem state_machine_safety ps now c evs c' p q msg msg' :
  started ps now c → service_run c evs = Some c' →
  (p, msg) ∈ applied c → (q, msg') ∈ applied c' →
  am_CommandValid msg = true → am_CommandValid msg' = true →
  am_CommandIndex msg = am_CommandIndex msg' → am_Command msg = am_Command msg'.
Proof using Type.
  intros Hs Hr Hp Hq Hv Hv' Hidx. destruct (good_two _ _ _ _ _ Hs Hr) as (h & h' & Hg & Hg' & He).
  destruct (delivered_stable _ _ _ _ _ _ Hg He Hp Hv) as (s & e & Hst & Hie & <- & _).
  destruct (delivered_stable _ _ _ _ _ _ Hg' (hist_ext_refl h') Hq Hv') as (s' & e' & Hst' & Hie' & <- & _).
  rewrite <- Hidx in *. destruct Hg' as [_ Hl'].
  destruct (stable_agree _ _ _ h' (li_hist _ _ _ Hl') _ _ _ _ _ _ (am_CommandIndex msg) Hst Hst')
    as (_ & _ & Heq); [lia|lia|]. rewrite Heq in Hie by lia. congruence.
Qed.

(** C9. Leader completeness: a command that peer [q] handed to its state machine is in
    the log of every leader of [q]'s term or a later one, at its index, unless the
    leader has compacted it. *)
Theorem leader_completeness ps now c evs c' q rq msg p rf T :
  started ps now c → service_run c evs = Some c' →
  nodes c !! q = Some rq → (q, msg) ∈ applied c → am_CommandValid msg = true →
  is_leader c' p T → nodes c' !! p = Some rf → currentTerm rq <= T →
  am_CommandIndex msg <= lastLogIndex rf ∧
  (lastIncludedIndex rf < am_CommandIndex msg →
   ∃ e, idx (log rf) (logIndex rf (am_CommandIndex msg)) = Some e ∧ le_Command e = am_Command msg).
Proof using Type.
  intros Hs Hr Hq Hin Hv (rf0 & Hp0 & Hst & Ht) Hp HT. rewrite Hp in Hp0. injection Hp0 as <-.
  destruct (good_two _ _ _ _ _ Hs Hr) as (h & h' & Hg & [Hi' Hl'] & He).
  destruct (delivered_stable _ _ _ _ _ _ Hg He Hin Hv) as (s & e & Hs0 & Hie & <- & _).
  pose proof (floor_le _ _ _ _ (proj1 Hg) Hq) as Hfl.
  pose proof (li_core _ _ _ Hl' _ _ Hp) as Hc. pose proof (li_role _ _ _ Hl' _ _ Hp) as Hrole.
  unfold role_ok in Hrole. rewrite Hst in Hrole.
  pose proof (stable_leader _ _ _ _ (li_hist _ _ _ Hl') _ _ _ _ _ Hs0 (lr_log _ _ _ _ _ _ Hrole))
    as (_ & Hb & Heq); [lia|]. rewrite (co_len _ _ _ _ _ Hc) in Hb.
  split; [lia|]. intros Hlii. exists e. split; [|done].
  rewrite <- (co_win _ _ _ _ _ Hc) by done. by rewrite <- Heq by lia.
Qed.

(** C11. Log matching: if the logs of two peers, at any two moments, have an entry of
    the same term at the same index, they are the same up to there, as far as both
    still have the entries. *)
Theorem log_matching ps now c evs c' p q rp rq i t :
  started ps now c → service_run c evs = Some c' →
  nodes c !! p = Some rp → nodes c' !! q = Some rq →
  lastIncludedIndex rp < i → lastIncludedIndex rq < i →
  logTerm rp i = Some t → logTerm rq i = Some t →
  ∀ j, lastIncludedIndex rp < j → lastIncludedIndex rq < j → j <= i →
       idx (log rp) (logIndex rp j) = idx (log rq) (logIndex rq j).
Proof using Type.
  intros Hs Hr Hp Hq Hip Hiq Htp Htq j Hjp Hjq Hj.
  destruct (good_two _ _ _ _ _ Hs Hr) as (h & h' & [_ Hl] & [_ Hl'] & He).
  pose proof (li_core _ _ _ Hl _ _ Hp) as Hc. pose proof (li_core _ _ _ Hl' _ _ Hq) as Hc'.
  rewrite (core_logTerm _ _ _ _ _ _ Hc Hip) in Htp. rewrite (core_logTerm _ _ _ _ _ _ Hc' Hiq) in Htq.
  rewrite <- (co_win _ _ _ _ _ Hc), <- (co_win _ _ _ _ _ Hc') by done.
  destruct (wf_match h' _ _ i t (wf_log_ext _ _ _ He (co_wf _ _ _ _ _ Hc)) (co_wf _ _ _ _ _ Hc'))
    as (_ & _ & Heq); [done|done|]. by apply Heq.
Qed.

(** Committed entries are the same everywhere: up to the commit indices of two
    peers, at any two moments, their logs agree, as far as both still have the
    entries. *)
Theorem committed_entries_agree ps now c evs c' p q rp rq i :
  started ps now c → service_run c evs = Some c' →
  nodes c !! p = Some rp → nodes c' !! q = Some rq →
  lastIncludedIndex rp < i <= commitIndex rp → lastIncludedIndex rq < i <= commitIndex rq →
  ∃ e, idx (log rp) (logIndex rp i) = Some e ∧ idx (log rq) (logIndex rq i) = Some e.
Proof using Type.
  intros Hs Hr Hp Hq Hip Hiq.
  destruct (good_two _ _ _ _ _ Hs Hr) as (h & h' & [_ Hl] & [_ Hl'] & He).
  pose proof (li_core _ _ _ Hl _ _ Hp) as Hc. pose proof (li_core _ _ _ Hl' _ _ Hq) as Hc'.
  pose proof (co_lii _ _ _ _ _ Hc) as H0.
  pose proof (known_le _ _ _ _ _ _ i (co_commit _ _ _ _ _ Hc) ltac:(lia)) as [_ [?|Hk]]; [lia|].
  pose proof (known_le _ _ _ _ _ _ i (co_commit _ _ _ _ _ Hc') ltac:(lia)) as [_ [?|Hk']]; [lia|].
  destruct (stable_agree _ _ _ h' (li_hist _ _ _ Hl') _ _ _ _ _ _ i
              (stable_ext _ _ _ _ _ _ He Hk) Hk') as (_ & _ & Heq); [lia|lia|].
  rewrite <- (co_win _ _ _ _ _ Hc), <- (co_win _ _ _ _ _ Hc') by lia.
  rewrite Heq by lia. destruct Hk' as (_ & Hb & _).
  destruct (proj2 (idx_is_Some (h_full h' q) i)) as [e Hie]; [lia|]. by exists e.
Qed.

(** C29. A leader only appends: as long as it leads in a term, its log keeps the
    entries it had and loses none but to its own snapshots. *)
Theorem leader_append_only ps now c evs c' p T rf rf' :
  started ps now c → service_run c evs = Some c' →
  is_leader c p T → is_leader c' p T → nodes c !! p = Some rf → nodes c' !! p = Some rf' →
  lastLogIndex rf <= lastLogIndex rf' ∧
  ∀ i, lastIncludedIndex rf < i <= lastLogIndex rf → lastIncludedIndex rf' < i →
       idx (log rf') (logIndex rf' i) = idx (log rf) (logIndex rf i).
Proof using Type.
  intros Hs Hr (r1 & Hp1 & Hst & Ht) (r2 & Hp2 & Hst' & Ht') Hp Hp'.
  rewrite Hp in Hp1. injection Hp1 as <-. rewrite Hp' in Hp2. injection Hp2 as <-.
  destruct (good_two _ _ _ _ _ Hs Hr) as (h & h' & [_ Hl] & [_ Hl'] & He).
  pose proof (li_core _ _ _ Hl _ _ Hp) as Hc. pose proof (li_core _ _ _ Hl' _ _ Hp') as Hc'.
  pose proof (li_role _ _ _ Hl _ _ Hp) as Hro. pose proof (li_role _ _ _ Hl' _ _ Hp') as Hro'.
  unfold role_ok in Hro, Hro'. rewrite Hst in Hro. rewrite Hst' in Hro'.
  destruct (proj1 He _ _ (lr_log _ _ _ _ _ _ Hro)) as (_ & l & Hl1 & Hpre).
  pose proof (lr_log _ _ _ _ _ _ Hro') as Hl2. rewrite Ht' in Hl2. rewrite Ht, Hl2 in Hl1.
  injection Hl1 as <-. pose proof (co_len _ _ _ _ _ Hc) as Hz. pose proof (co_len _ _ _ _ _ Hc') as Hz'.
  split; [apply prefix_length in Hpre; unfold zlen in *; lia|]. intros i Hi Hi'.
  rewrite <- (co_win _ _ _ _ _ Hc), <- (co_win _ _ _ _ _ Hc') by lia.
  destruct (same_prefix _ _ i Hpre) as (_ & _ & Heq); [lia|]. symmetry. apply Heq. lia.
Qed.

(** C30. The indices of a peer are in order, and a leader's replication state is within
    its log. *)
Theorem peer_indices_ordered ps now c p rf :
  started ps now c → nodes c !! p = Some rf →
  log_ok rf ∧ 0 <= lastIncludedIndex rf <= lastApplied rf ∧ lastApplied rf <= commitIndex rf ∧
  commitIndex rf <= lastLogIndex rf ∧ leader_ok rf.
Proof using Type.
  intros (h & Hi & Hl)%good_started Hp. pose proof (li_core _ _ _ Hl _ _ Hp) as Hc.
  pose proof (co_order _ _ _ _ _ Hc) as Ho. pose proof (co_lii _ _ _ _ _ Hc) as H0.
  pose proof (known_bound _ _ _ _ _ _ Hc (co_commit _ _ _ _ _ Hc)) as Hb.
  destruct (inv_node _ _ Hi _ _ Hp) as (_ & Hlen & _).
  split_and!; [apply Hc|lia|lia|lia|lia|]. intros Hst.
  pose proof (li_role _ _ _ Hl _ _ Hp) as Hr. unfold role_ok in Hr. rewrite Hst in Hr.
  rewrite (lr_next_len _ _ _ _ _ _ Hr), (lr_match_len _ _ _ _ _ _ Hr), Hlen. split_and!; [done|done|..].
  - apply Forall_lookup. intros q x Hx. by apply (lr_next _ _ _ _ _ _ Hr) in Hx.
  - apply Forall_lookup. intros q x Hx. by apply (lr_match _ _ _ _ _ _ Hr) in Hx as [? _].
Qed.

End Log.

(** ** A run of three peers *)
Module LogRuns.
Import Runs.

(** Peer 0 leads in term 1, replicates a command on peer 1, commits and delivers
    it, and takes a snapshot. *)
Definition first : list (event Z) :=
  elect0 ++ [EvStart 0 (Some 42); EvRun 8; EvRun 8; EvServe 1 310; EvReply 9 1; EvRun 0;
             EvSnapshot 0 1 []].
Definition d1 : cluster Z := default c0 (service_run c0 first).

(** It crashes; peer 1 is elected in term 2 by peer 2, which has nothing. *)
Definition second : list (event Z) :=
  [EvRestart 0 302; EvElection 0 700 260; EvRun 7; EvServe 2 701; EvReply 7 2].
Definition d2 : cluster Z := default c0 (service_run d1 second).

(** Peer 2 rejects the new command, then gets both; peers 1 and 2 deliver. *)
Definition third : list (event Z) :=
  [EvStart 1 (Some 43); EvRun 8; EvRun 9; EvServe 3 710; EvReply 9 3;
   EvRun 7; EvRun 8; EvRun 9; EvServe 4 720; EvReply 10 4; EvRun 0;
   EvRun 8; EvRun 9; EvRun 10; EvServe 5 720; EvRun 1].
Definition d3 : cluster Z := default c0 (service_run d2 third).

Definition delivers (i : Z) (cmd : Z) : ApplyMsg Z :=
  mkApplyMsg true (Some cmd) i false [] 0 0.

Lemma d1_started : started ps3 0 d1.
Proof. exists first. vm_compute. reflexivity. Qed.

Lemma d1_d2 : service_run d1 second = Some d2.
Proof. vm_compute. reflexivity. Qed.

Lemma d1_d3 : service_run d1 (second ++ third) = Some d3.
Proof. vm_compute. reflexivity. Qed.

Lemma d3_delivered : applied d3 = [(0%nat, delivers 1 42); (1%nat, delivers 1 42); (2%nat, delivers 1 42)].
Proof. vm_compute. reflexivity. Qed.

Lemma d2_d3 : service_run d2 third = Some d3.
Proof. vm_compute. reflexivity. Qed.

Lemma d2_started : started ps3 0 d2.
Proof. exists (first ++ second). vm_compute. reflexivity. Qed.

Lemma d3_started : started ps3 0 d3.
Proof. exists (first ++ second ++ third). vm_compute. reflexivity. Qed.

(** Peer [p] of [c], computed. *)
Definition node (c : cluster Z) (p : nat) : Raft Z :=
  default (Make [] 0 MakePersister 0) (nodes c !! p).

Lemma state_machine_safety_witness :
  (2%nat, delivers 1 42) ∈ applied d3 ∧
  ∀ msg, (2%nat, msg) ∈ applied d3 → am_CommandValid msg = true → am_CommandIndex msg = 1 →
         am_Command msg = Some 42.
Proof.
  split; [rewrite d3_delivered; by do 2 right; left|]. intros msg Hin Hv Hi. symmetry.
  apply (state_machine_safety ps3 0 d1 (second ++ third) d3 0%nat 2%nat (delivers 1 42) msg);
    [apply d1_started|apply d1_d3| |done|done|done|done].
  vm_compute. left.
Defined.

Lemma leader_completeness_witness :
  is_leader d2 1 2 ∧
  ∃ e, idx (log (node d2 1)) (logIndex (node d2 1) 1) = Some e ∧ le_Command e = Some 42.
Proof.
  assert (Hl : is_leader d2 1 2) by (eexists; split_and!; [vm_compute; reflexivity|done|done]).
  split; [done|].
  destruct (leader_completeness ps3 0 d1 second d2 0%nat (node d1 0) (delivers 1 42) 1%nat (node d2 1) 2)
    as [_ H]; [apply d1_started|apply d1_d2|vm_compute; reflexivity| |done|done
              |vm_compute; reflexivity|by vm_compute|].
  - vm_compute. left.
  - apply H. by vm_compute.
Defined.

Lemma log_matching_witness :
  logTerm (node d3 2) 2 = Some 2 ∧
  idx (log (node d3 1)) (logIndex (node d3 1) 1) = idx (log (node d3 2)) (logIndex (node d3 2) 1).
Proof.
  split; [by vm_compute|].
  apply (log_matching ps3 0 d3 [] d3 1%nat 2%nat (node d3 1) (node d3 2) 2 2);
    [apply d3_started|..]; by vm_compute.
Defined.

Lemma committed_entries_agree_witness :
  commitIndex (node d3 2) = 2 ∧
  ∃ e, idx (log (node d3 1)) (logIndex (node d3 1) 2) = Some e ∧
       idx (log (node d3 2)) (logIndex (node d3 2) 2) = Some e.
Proof.
  split; [by vm_compute|].
  apply (committed_entries_agree ps3 0 d3 [] d3 1%nat 2%nat (node d3 1) (node d3 2) 2);
    [apply d3_started|done|vm_compute; reflexivity|vm_compute; reflexivity|by vm_compute|by vm_compute].
Defined.

Lemma leader_append_only_witness :
  idx (log (node d3 1)) (logIndex (node d3 1) 1) = idx (log (node d2 1)) (logIndex (node d2 1) 1).
Proof.
  apply (leader_append_only ps3 0 d2 third d3 1%nat 2 (node d2 1) (node d3 1));
    [apply d2_started|apply d2_d3| | |vm_compute; reflexivity|vm_compute; reflexivity
    |by vm_compute|by vm_compute].
  - eexists. split_and!; [vm_compute; reflexivity|done|done].
  - eexists. split_and!; [vm_compute; reflexivity|done|done].
Defined.

Lemma peer_indices_ordered_witness : leader_ok (node d2 1) ∧ state (node d2 1) = Leader.
Proof.
  split; [|by vm_compute].
  apply (peer_indices_ordered ps3 0 d2 1%nat (node d2 1)); [apply d2_started|vm_compute; reflexivity].
Defined.

End LogRuns.
