(* ===== verification/ClusterValidity.v ===== *)
(** * Validity of the logs

    Nothing gets into a log, a request, a persister or a state machine that no service
    has submitted: the commands of a run are those handed to [Start]. *)
From stdpp Require Import base tactics list strings numbers option.
From Stdlib Require Import ZArith Lia.
From S2P Require Import Prelude.
From S2P Require Import Gob.
From S2P Require Import Persister.
From S2P Require Import RaftNode.
From S2P Require Import RaftLog.
From S2P Require Import RaftOps.
From S2P Require Import RaftFrame.
From S2P Require Import RaftTheorems.
From S2P Require Import History.
From S2P Require Import Cluster.
From S2P Require Import ClusterVotes.
From S2P Require Import ClusterSafety.
From S2P Require Import ClusterInv.
From S2P Require Import ClusterSteps.
From S2P Require Import ClusterEffects.
From S2P Require Import ClusterLog.

Local Open Scope Z_scope.

Section Validity.
Context {Command : Type} {gobZ : Gob Z} {gobLog : Gob (list (LogEntry Command))}.
Context (submitted : Command → Prop).
Implicit Types (rf : Raft Command) (c : cluster Command) (l : list (LogEntry Command)).

Definition said (cmd : option Command) : Prop := ∀ x, cmd = Some x → submitted x.
Definition logged l : Prop := ∀ e, e ∈ l → said (le_Command e).

Record valid c : Prop := {
  va_log : ∀ p rf, nodes c !! p = Some rf → logged (log rf);
  va_net : ∀ i q args, net c !! i = Some (q, CallAppend args) → logged (aea_Entries args);
  va_applied : ∀ p msg, (p, msg) ∈ applied c → am_CommandValid msg = true → said (am_Command msg)
}.

(** ** Lists of entries *)
Lemma logged_nil : logged [].
Proof using Type. by intros e ?%not_elem_of_nil. Qed.

Lemma logged_cons e l : said (le_Command e) → logged l → logged (e :: l).
Proof using Type. intros He Hl e' [->|Hin]%elem_of_cons; [done|by apply Hl]. Qed.

Lemma logged_app l l' : logged l → logged l' → logged (l ++ l').
Proof using Type. intros H H' e [?|?]%elem_of_app; [by apply H|by apply H']. Qed.

Lemma logged_drop k l : logged l → logged (drop k l).
Proof using Type.
  intros H e Hin. apply H. rewrite <- (take_drop k l). apply elem_of_app. by right.
Qed.

Lemma logged_take k l : logged l → logged (take k l).
Proof using Type.
  intros H e Hin. apply H. rewrite <- (take_drop k l). apply elem_of_app. by left.
Qed.

Lemma said_none : said None.
Proof using Type. done. Qed.

(** ** The logs that the operations leave *)
Lemma logged_merge k l es : logged l → logged es → logged (mergeLog k l es).
Proof using Type.
  intros Hl Hes. unfold mergeLog. case_decide; [done|].
  apply logged_app; [by apply logged_take|by apply logged_drop].
Qed.

Lemma AppendEntries_logged rf args now rf' r :
  log_ok rf → AppendEntries rf args now = Some (rf', r) → logged (log rf) → logged (aea_Entries args) →
  logged (log rf').
Proof using Type.
  intros Hok E Hl Hes. destruct (decide (aea_Term args < currentTerm rf)) as [Hs|Hs].
  { rewrite AppendEntries_stale in E by done. by injection E as <- _. }
  destruct (decide (ae_accepts rf args)) as [Ha|Ha].
  - rewrite AppendEntries_accept in E by (done || lia). injection E as <- _. by apply logged_merge.
  - destruct (AppendEntries_reject rf args now Hok ltac:(lia) Ha) as (ct & ci & E2 & _).
    rewrite E in E2. by injection E2 as -> _.
Qed.

Lemma InstallSnapshot_logged rf args now rf' r :
  InstallSnapshot rf args now = Some (rf', r) → logged (log rf) → logged (log rf').
Proof using Type.
  intros E Hl.
  destruct (decide (isa_Term args < currentTerm rf ∨ isa_LastIncludedIndex args <= lastIncludedIndex rf))
    as [Ho|Hn]; [by rewrite (kept_log _ _ (InstallSnapshot_kept _ _ _ _ _ E Ho))|].
  destruct (InstallSnapshot_install rf args now) as (rf2 & E2 & _ & _ & _ & Hlog & _); [lia|lia|].
  rewrite E in E2. injection E2 as <- _. rewrite Hlog. unfold is_log.
  destruct (_ <=? _); [by apply logged_drop|]. apply logged_cons; [done|apply logged_nil].
Qed.

Lemma Snapshot_logged rf index snap rf' :
  Snapshot rf index snap = Some rf' → logged (log rf) → logged (log rf').
Proof using Type.
  unfold Snapshot. intros E Hl. destruct (index <=? lastIncludedIndex rf); [by injection E as <-|].
  destruct (logTerm rf index); [|done]. cbn [mbind option_bind] in E.
  unfold slice_from in E. case_decide; [|done]. cbn [mbind option_bind] in E.
  pose proof (logged_drop (Z.to_nat (logIndex rf index)) _ Hl) as Hd.
  destruct (drop _ _) as [|e l]; [done|]. injection E as <-.
  apply logged_cons; [done|]. intros e' Hin. apply Hd. by right.
Qed.

Lemma Start_logged rf command : said command → logged (log rf) → logged (log (Start rf command).2).
Proof using Type.
  intros Hc Hl. unfold Start. case_decide; [|done].
  apply logged_app; [done|]. apply logged_cons; [done|apply logged_nil].
Qed.

Lemma heartbeatBegin_logged rf peer term lid commit args :
  heartbeatBegin rf peer term lid commit = Some (HBAppend args) → logged (log rf) →
  logged (aea_Entries args).
Proof using Type.
  unfold heartbeatBegin. case_decide; [|done]. destruct (nextIndex rf !! peer) as [ni|]; [|done].
  cbn [mbind option_bind]. destruct (ni <=? lastIncludedIndex rf); [done|].
  destruct (logTerm rf (ni - 1)); [|done]. cbn [mbind option_bind].
  unfold slice_from. case_decide; [|done]. cbn [mbind option_bind]. intros [= <-] Hl.
  by apply logged_drop.
Qed.

(** ** The events *)
Lemma valid_node c c' p rf' :
  valid c → nodes c' = <[p := rf']> (nodes c) → logged (log rf') → net c' = net c →
  applied c' = applied c → valid c'.
Proof using Type.
  intros [Hlog Hnet Happ] Hn Hl Hnet' Ha. constructor; rewrite ?Hn, ?Hnet', ?Ha; [|done|done].
  intros q rf [(<- & <- & _)|(_ & Hq)]%list_lookup_insert_Some; [done|by eapply Hlog].
Qed.

Lemma valid_send c c' peer call :
  valid c → nodes c' = nodes c → net c' = net c ++ [(peer, call)] → applied c' = applied c →
  match call with CallAppend args => logged (aea_Entries args) | _ => True end → valid c'.
Proof using Type.
  intros [Hlog Hnet Happ] Hn Hnet' Ha Hc. constructor; rewrite ?Hn, ?Hnet', ?Ha; [done| |done].
  intros i q args [[_ Hi]|[_ [= _ ->]]]%lookup_snoc_Some; [by eapply Hnet|done].
Qed.

Lemma valid_internal n c h ev c' :
  good n c h → valid c → internal ev = true → cluster_step c ev = Some c' → valid c'.
Proof using Type.
  intros [_ Hl] Hv Hint E. destruct (internal_effect _ _ _ Hint E) as
    [Hn Hnet [Ha _]|p rf rf' Hp Hn Hk Hnet [Ha _]|peer args Hn Hnet [Ha _]|p rf peer call Hp Hs Hn Hnet [Ha _]
    |p rf pc m rf' pc' k ts Hk Hp Ea Hts ->|i p rf args now rf' r Hi Hp Eh Hn Hnet Ha Ht
    |i p rf args now rf' r -> Hi Hp Eh Hn Hnet Ha Ht].
  - destruct Hv. constructor; by rewrite ?Hn, ?Hnet, ?Ha.
  - eapply valid_node; try done. rewrite (kept_log _ _ Hk). by eapply va_log.
  - by eapply valid_send.
  - eapply valid_send; try done. destruct call as [|args|]; try done. destruct Hs as (t & lid & cm & Hs).
    eapply heartbeatBegin_logged; [done|by eapply va_log].
  - pose proof (li_core _ _ _ Hl _ _ Hp) as Hc.
    destruct (applyLoop_core n _ _ _ _ _ _ _ _ Hc Ea) as (_ & _ & _ & _ & _ & Hm & Hmsg).
    unfold mem_log in Hm. injection Hm as Hlog _ _.
    destruct Hv as [Hvl Hvn Hva]. constructor; cbn; [|done|].
    + intros q rf2 [(<- & <- & _)|(_ & Hq)]%list_lookup_insert_Some; [rewrite Hlog|]; by eapply Hvl.
    + intros q msg [Hin|Hin]%elem_of_app Hcv; [by eapply Hva|].
      destruct m as [m|]; [|by apply not_elem_of_nil in Hin]. apply list_elem_of_singleton in Hin.
      injection Hin as -> ->. destruct (Hmsg m eq_refl Hcv) as (Hi & _ & e & He & <-).
      rewrite (co_win _ _ _ _ _ Hc) in He by done. apply (Hvl _ _ Hp e).
      unfold idx in He. case_decide; [|done]. by eapply list_elem_of_lookup_2.
  - eapply valid_node; try done. eapply AppendEntries_logged; [|done|by eapply va_log|by eapply va_net].
    apply (li_core _ _ _ Hl _ _ Hp).
  - eapply valid_node; try done. eapply InstallSnapshot_logged; [done|by eapply va_log].
Qed.

Lemma valid_step n c h ev c' :
  good n c h → valid c → (∀ q cmd, ev = EvStart q (Some cmd) → submitted cmd) →
  cluster_step c ev = Some c' → valid c'.
Proof using Type.
  intros Hg Hv Hev E. destruct (internal ev) eqn:Hint; [by eapply valid_internal|].
  destruct ev as [| | | | |p command|p index snap| |p now]; try done; simpl in E;
    [unfold callStart in E|unfold callSnapshot in E|unfold restart in E];
    (destruct (nodes c !! p) as [rf|] eqn:Hp; [|done]); cbn [mbind option_bind] in E.
  - assert (Hs : logged (log (Start rf command).2)).
    { apply Start_logged; [|by eapply va_log]. intros x ->. by eapply Hev. }
    destruct (Start rf command) as [[[i t] ok] rf']. injection E as <-. by eapply valid_node.
  - destruct (Snapshot rf index snap) as [rf'|] eqn:Es; [|done]. cbn [mbind option_bind] in E.
    injection E as <-. eapply valid_node; try done. eapply Snapshot_logged; [done|by eapply va_log].
  - injection E as <-. eapply valid_node; try done. destruct Hg as [_ Hl].
    pose proof (Make_mem (peers rf) p (persister rf) now) as Hm.
    rewrite (co_disk _ _ _ _ _ (li_core _ _ _ Hl _ _ Hp)) in Hm.
    apply (f_equal (λ x, x.1.1)) in Hm. cbn [mem_log fst] in Hm.
    change (logged (log (Make (peers rf) p (persister rf) now))).
    rewrite Hm. by eapply va_log.
Qed.

Lemma valid_run n c h evs c' :
  good n c h → valid c → (∀ q cmd, EvStart q (Some cmd) ∈ evs → submitted cmd) →
  service_run c evs = Some c' → valid c'.
Proof using Type.
  revert c h. induction evs as [|ev evs IH]; intros c h Hg Hv Hevs; simpl; [by intros [= <-]|].
  destruct (service_step c ev) as [c1|] eqn:E; [|done]. cbn [mbind option_bind].
  destruct (good_step n c ev c1 h Hg E) as (h1 & _ & Hg1). eapply (IH c1 h1); [done| |].
  - unfold service_step in E. case_decide; [|done]. apply (valid_step n c h ev); [done|done| |done].
    intros q cmd ->. eapply (Hevs q). by left.
  - intros q cmd Hin. eapply (Hevs q). by right.
Qed.

Lemma valid_init ps now : valid (cluster_init ps now).
Proof using Type.
  constructor; [|done|by intros ? ? ?%not_elem_of_nil].
  intros p rf Hp. apply list_lookup_fmap_Some in Hp as (q & -> & _).
  apply logged_cons; [done|apply logged_nil].
Qed.

End Validity.

(** ** The theorem *)
Section Origin.
Context {Command : Type} {gobZ : Gob Z} {gobLog : Gob (list (LogEntry Command))}.

(** C13. Validity: every command in the log of a peer, and every command that a peer has
    handed to its state machine, was passed to [Start] of some peer. *)
Theorem commands_were_started ps now evs (c : cluster Command) cmd :
  service_run (cluster_init ps now) evs = Some c →
  (∃ p rf e, nodes c !! p = Some rf ∧ e ∈ log rf ∧ le_Command e = Some cmd) ∨
  (∃ p msg, (p, msg) ∈ applied c ∧ am_CommandValid msg = true ∧ am_Command msg = Some cmd) →
  ∃ q, EvStart q (Some cmd) ∈ evs.
Proof using Type.
  intros Hr Hin.
  destruct (valid_run (λ x, ∃ q, EvStart q (Some x) ∈ evs) _ _ _ evs c (good_init ps now)
    (valid_init _ ps now)) as [Hl _ Ha]; [by eauto|done|].
  destruct Hin as [(p & rf & e & Hp & He & Hc)|(p & msg & Hm & Hv & Hc)].
  - by eapply (Hl p rf Hp e).
  - by eapply (Ha p msg).
Qed.

End Origin.

Lemma commands_were_started_witness :
  ∃ q, EvStart q (Some 42) ∈ (LogRuns.first : list (event Z)).
Proof.
  apply (commands_were_started Runs.ps3 0 LogRuns.first LogRuns.d1); [vm_compute; reflexivity|].
  right. exists 0%nat, (LogRuns.delivers 1 42). split_and!; [vm_compute; left|done|done].
Defined.
