(* ===== verification/ClusterTotal.v ===== *)
(** * No goroutine of the cluster gets stuck

    In every state that a run reaches each goroutine can take its next step: no
    handler, loop or reply makes a peer panic (an index out of range, [None] in
    RaftNode.v), and every reply has the type its caller waits for. *)
From stdpp Require Import base tactics list strings numbers option sets.
From Stdlib Require Import ZArith Lia.
From S2P Require Import Prelude.
From S2P Require Import Gob.
From S2P Require Import Persister.
From S2P Require Import RaftNode.
From S2P Require Import RaftLog.
From S2P Require Import RaftOps.
From S2P Require Import RaftTheorems.
From S2P Require Import History.
From S2P Require Import HistorySteps.
From S2P Require Import Cluster.
From S2P Require Import ClusterVotes.
From S2P Require Import ClusterSafety.
From S2P Require Import ClusterInv.
From S2P Require Import ClusterSteps.
From S2P Require Import ClusterReplies.
From S2P Require Import ClusterLog.

Local Open Scope Z_scope.

Section Total.
Context {Command : Type}.
Context {gobZ : Gob Z} {gobLog : Gob (list (LogEntry Command))}.
Implicit Types (rf : Raft Command) (c : cluster Command) (h : history Command).

(** ** One peer *)
Lemma electionTimeout_total rf now d : log_ok rf → is_Some (electionTimeout rf now d).
Proof using Type.
  intros Hok. unfold electionTimeout. destruct (_ && _); [|by eexists].
  destruct (logTerm_is_Some rf (lastLogIndex rf)) as [t Ht];
    [pose proof (lastLogIndex_ge rf Hok); lia|].
  unfold startElection. match goal with |- context [mapM ?f ?l] => assert (is_Some (mapM f l)) as [cs ->] end.
  { apply mapM_is_Some, Forall_true. intros i. change (logTerm _ _) with (logTerm rf (lastLogIndex rf)).
    rewrite Ht. by eexists. }
  by eexists.
Qed.

Lemma RequestVote_total rf args now : log_ok rf → is_Some (RequestVote rf args now).
Proof using Type.
  intros Hok. destruct (RequestVote_spec rf args now Hok) as (rf' & g & -> & _). by eexists.
Qed.

Lemma AppendEntries_total rf args now : log_ok rf → is_Some (AppendEntries rf args now).
Proof using Type.
  intros Hok. destruct (decide (aea_Term args < currentTerm rf)) as [Hs|Hs].
  { rewrite AppendEntries_stale by done. by eexists. }
  destruct (decide (ae_accepts rf args)) as [Ha|Ha].
  - rewrite AppendEntries_accept by (done || lia). by eexists.
  - destruct (AppendEntries_reject rf args now Hok ltac:(lia) Ha) as (ct & ci & -> & _). by eexists.
Qed.

Lemma InstallSnapshot_total rf args now : is_Some (InstallSnapshot rf args now).
Proof using Type.
  unfold InstallSnapshot. destruct (Z.ltb_spec (isa_Term args) (currentTerm rf)); [by eexists|].
  destruct (decide (lastIncludedIndex rf < isa_LastIncludedIndex args)) as [Hn|Ho].
  - destruct (InstallSnapshot_install rf args now ltac:(lia) Hn) as (rf' & E & _).
    unfold InstallSnapshot in E. destruct (Z.ltb_spec (isa_Term args) (currentTerm rf)); [lia|].
    rewrite E. by eexists.
  - destruct (isa_Term args >? currentTerm rf); simpl;
      (destruct (Z.leb_spec (isa_LastIncludedIndex args) (lastIncludedIndex rf)); [by eexists|lia]).
Qed.

Lemma applyInner_total rf f : apply_ok rf → is_Some (applyInner rf f).
Proof using Type.
  intros Hok. destruct f as [|f]; [by eexists|].
  destruct (decide (lastApplied rf < commitIndex rf)).
  - destruct (applyInner_next rf f Hok) as (m & _ & ->); [done|]. by eexists.
  - rewrite applyInner_done by lia. by eexists.
Qed.

Lemma applyLoop_total rf pc : apply_ok rf → is_Some (applyLoop_step rf pc).
Proof using Type.
  intros Hok. unfold applyLoop_step. destruct (applyInner_total rf (applyFuel rf) Hok) as [[m rf'] ->].
  destruct pc, (pendingSnapshot rf); by eexists.
Qed.

Section Invariant.
Context (n : nat).

Lemma core_apply_ok h t w rf : core n h t w rf → apply_ok rf.
Proof using Type.
  intros Hc. pose proof (co_order _ _ _ _ _ Hc).
  pose proof (known_bound _ _ _ _ _ _ Hc (co_commit _ _ _ _ _ Hc)).
  split_and!; [apply Hc|lia..].
Qed.

Lemma leader_next h t p w rf q :
  leader_role n h t p w rf → (q < n)%nat →
  ∃ x m, nextIndex rf !! q = Some x ∧ 1 <= x <= lastLogIndex rf + 1 ∧ matchIndex rf !! q = Some m.
Proof using Type.
  intros Hr Hq. destruct (lookup_lt_is_Some_2 (nextIndex rf) q) as [x Hx];
    [by rewrite (lr_next_len _ _ _ _ _ _ Hr)|].
  destruct (lookup_lt_is_Some_2 (matchIndex rf) q) as [m Hm];
    [by rewrite (lr_match_len _ _ _ _ _ _ Hr)|].
  pose proof (lr_next _ _ _ _ _ _ Hr _ _ Hx). exists x, m. split_and!; [done|lia|lia|done].
Qed.

Lemma heartbeatBegin_total h t p w rf peer term lid commit :
  core n h t w rf → role_ok n h t p w rf → (peer < n)%nat →
  is_Some (heartbeatBegin rf peer term lid commit).
Proof using Type.
  intros Hc Hr Hp. unfold heartbeatBegin. case_decide as Hst; [|by eexists].
  unfold role_ok in Hr. rewrite Hst in Hr.
  destruct (leader_next h t p w rf peer Hr Hp) as (x & m & -> & Hx & _). cbn [mbind option_bind].
  destruct (Z.leb_spec x (lastIncludedIndex rf)); [by eexists|].
  destruct (logTerm_is_Some rf (x - 1)) as [pt ->]; [lia|]. cbn [mbind option_bind].
  rewrite slice_from_ok; [by eexists|]. unfold logIndex, lastLogIndex in *. lia.
Qed.

Lemma idx_set_peer h t p w rf q x :
  leader_role n h t p w rf → (q < n)%nat → is_Some (idx_set (nextIndex rf) (Z.of_nat q) x).
Proof using Type.
  intros Hr Hq. rewrite idx_set_ok; [by eexists|]. unfold zlen.
  rewrite (lr_next_len _ _ _ _ _ _ Hr). lia.
Qed.

Lemma backUp_total rf reply : log_ok rf → is_Some (backUp rf reply).
Proof using Type.
  intros Hok. unfold backUp. destruct (aer_ConflictTerm reply =? -1); [by eexists|].
  pose proof (lastLogIndex_ge rf Hok).
  destruct (searchTerm_spec rf (aer_ConflictTerm reply)
              (Z.to_nat (lastLogIndex rf - lastIncludedIndex rf)) Hok) as (r & -> & _); [lia|].
  by eexists.
Qed.

(** Raising the term of a leader leaves what [backUp] reads. *)
Lemma handleAppendReply_total h t p w rf peer args reply :
  core n h t w rf → role_ok n h t p w rf → (peer < n)%nat → length (peers rf) = n →
  is_Some (handleAppendReply rf peer args reply).
Proof using Type.
  intros Hc Hr Hp Hlen. unfold handleAppendReply.
  destruct (decide (state rf = Leader)) as [Hst|Hst]; [|rewrite bool_decide_true by done; by eexists].
  rewrite bool_decide_false by naive_solver. cbn [orb].
  destruct (negb (currentTerm rf =? aea_Term args)); [by eexists|].
  unfold role_ok in Hr. rewrite Hst in Hr.
  destruct (leader_next h t p w rf peer Hr Hp) as (x & m & Hx & _ & Hm).
  set (rf1 := if aer_Term reply >? currentTerm rf then _ else rf).
  assert (H1 : log_ok rf1 ∧ nextIndex rf1 = nextIndex rf ∧ matchIndex rf1 = matchIndex rf ∧
    peers rf1 = peers rf ∧ commitIndex rf1 = commitIndex rf ∧
    lastIncludedIndex rf1 = lastIncludedIndex rf ∧ lastLogIndex rf1 = lastLogIndex rf).
  { pose proof (co_log _ _ _ _ _ Hc). unfold rf1. destruct (_ >? _); by split_and!. }
  clearbody rf1. destruct H1 as (Hok & Hni & Hmi & Hpe & Hci & Hlii & Hla).
  pose proof (co_order _ _ _ _ _ Hc).
  pose proof (known_bound _ _ _ _ _ _ Hc (co_commit _ _ _ _ _ Hc)) as Hb.
  destruct (aer_Success reply).
  - rewrite Hmi, Hm. cbn [mbind option_bind]. rewrite Hni.
    match goal with |- context [idx_set (nextIndex rf) (Z.of_nat peer) ?y] =>
      destruct (idx_set_peer h t p w rf peer y Hr Hp) as [ni ->] end. cbn [mbind option_bind].
    match goal with |- is_Some (maybeAdvanceCommitIndex ?r) =>
      destruct (maybeAdvance_spec r) as (i & -> & _) end; [exact Hok| |cbn|by eexists].
    + cbn. by rewrite length_insert, (lr_match_len _ _ _ _ _ _ Hr), Hpe.
    + rewrite Hlii, Hci. change (lastIncludedIndex rf <= commitIndex rf <= lastLogIndex rf1). lia.
  - destruct (backUp_total rf1 reply Hok) as [y ->]. cbn [mbind option_bind]. rewrite Hni.
    destruct (idx_set_peer h t p w rf peer y Hr Hp) as [ni ->]. by eexists.
Qed.

Lemma handleSnapshotReply_total h t p w rf peer args reply :
  role_ok n h t p w rf → (peer < n)%nat → is_Some (handleSnapshotReply rf peer args reply).
Proof using Type.
  intros Hr Hp. unfold handleSnapshotReply.
  destruct (decide (state rf = Leader)) as [Hst|Hst]; [|rewrite bool_decide_true by done; by eexists].
  rewrite bool_decide_false by naive_solver. cbn [orb].
  destruct (negb (currentTerm rf =? isa_Term args)); [by eexists|].
  destruct (isr_Term reply >? currentTerm rf); [by eexists|].
  unfold role_ok in Hr. rewrite Hst in Hr.
  destruct (leader_next h t p w rf peer Hr Hp) as (x & m & Hx & _ & ->). cbn [mbind option_bind].
  match goal with |- context [idx_set (nextIndex rf) (Z.of_nat peer) ?y] =>
    destruct (idx_set_peer h t p w rf peer y Hr Hp) as [ni ->] end. by eexists.
Qed.

(** ** Goroutines and messages belong to peers *)
Definition placed c : Prop :=
  (∀ t, t ∈ threads c → (t_node t < length (nodes c))%nat) ∧
  ∀ i q call, net c !! i = Some (q, call) → (q < length (nodes c))%nat.

Lemma placed_step c c' p :
  placed c → length (nodes c') = length (nodes c) → (p < length (nodes c))%nat →
  (∀ t, t ∈ threads c' → t_node t = p ∨ t ∈ threads c) →
  (∀ i q call, net c' !! i = Some (q, call) → (q < length (nodes c))%nat ∨ net c !! i = Some (q, call)) →
  placed c'.
Proof using Type.
  intros [Ht Hn] Hl Hp Hth Hnet. split; rewrite Hl.
  - intros t Hin. destruct (Hth t Hin) as [->|?]; [done|by apply Ht].
  - intros i q call Hi. destruct (Hnet i q call Hi) as [?|?]; [done|by eapply Hn].
Qed.

(** Thread [k] of peer [p] goes on as [ts], sending [new]. *)
Lemma placed_local c p k ts new nodes' elections' replies' applied' :
  placed c → length nodes' = length (nodes c) → (p < length (nodes c))%nat →
  (∀ t, t ∈ ts → t_node t = p) → (∀ q call, (q, call) ∈ new → (q < length (nodes c))%nat) →
  placed (mkCluster nodes' elections' (respawn k ts (threads c)) (net c ++ new) replies' applied').
Proof using Type.
  intros Hpl Hl Hp Hts Hnew. apply (placed_step c _ p); try done.
  - intros t [?|?]%respawn_elem; [left; by apply Hts|by right].
  - intros i q call Hi. simpl in Hi. apply lookup_app_Some in Hi as [?|[_ Hi]]; [by right|left].
    eapply Hnew, list_elem_of_lookup_2. done.
Qed.

Lemma placed_local_0 c p k ts nodes' elections' replies' applied' :
  placed c → length nodes' = length (nodes c) → (p < length (nodes c))%nat →
  (∀ t, t ∈ ts → t_node t = p) →
  placed (mkCluster nodes' elections' (respawn k ts (threads c)) (net c) replies' applied').
Proof using Type.
  intros. rewrite <- (app_nil_r (net c)). eapply placed_local; try done.
  by intros q call ?%not_elem_of_nil.
Qed.

(** Closes the goals of [placed_local] about lists of threads of one peer. *)
Ltac thread_owner :=
  let t := fresh in let H := fresh in
  intros t H; repeat case_match; repeat (apply elem_of_app in H as [H|H]);
  repeat (apply elem_of_cons in H as [->|H]; [done|]); try (by apply not_elem_of_nil in H).

Lemma placed_runThread c h k c' :
  inv n c → linv n c h → placed c → runThread c k = Some c' → placed c'.
Proof using Type.
  intros Hi Hl Hpl. unfold runThread. destruct (threads c !! k) as [t|] eqn:Ek; [|done].
  pose proof (list_elem_of_lookup_2 _ _ _ Ek) as Hin. pose proof (proj1 Hpl t Hin) as Hp.
  pose proof (inv_thread _ _ Hi t Hin) as Hok. pose proof (li_thread _ _ _ Hl t Hin) as Hlok.
  pose proof (inv_len _ _ Hi) as Hn.
  destruct t as [p|p pc|p cell peer args|p cell peer req|p|p loop|p peer term lid commit|p peer req args
    |p peer req args]; try done; simpl in Hp.
  - destruct (nodes c !! p) as [rf|] eqn:Ep; [|done]. cbn [mbind option_bind].
    destruct (applyLoop_step rf pc) as [[[m rf'] pc']|]; [|done]. cbn [mbind option_bind].
    intros [= <-]. eapply placed_local_0; [done|by rewrite length_insert|done|]. thread_owner.
  - intros [= <-]. destruct Hok as (Hpeer & _). eapply placed_local; [done|done|done|thread_owner|].
    intros q call [= -> _]%list_elem_of_singleton. lia.
  - destruct (nodes c !! p) as [rf|] eqn:Ep; [|done]. cbn [mbind option_bind]. intros [= <-].
    eapply placed_local_0; [done|done|done|]. thread_owner.
  - destruct (nodes c !! p) as [rf|] eqn:Ep; [|done]. cbn [mbind option_bind]. intros [= <-].
    eapply placed_local_0; [done|done|done|]. intros t [Ht|Ht]%elem_of_app.
    + unfold beats, sendHeartbeats in Ht. by apply list_elem_of_fmap in Ht as (peer & -> & _).
    + destruct loop; [by apply list_elem_of_singleton in Ht as ->|by apply not_elem_of_nil in Ht].
  - destruct (nodes c !! p) as [rf|] eqn:Ep; [|done]. cbn [mbind option_bind].
    destruct Hlok as (_ & Hpeer & _).
    destruct (heartbeatBegin rf peer term lid commit) as [[|args|args]|]; [| | |done];
      cbn [mbind option_bind]; intros [= <-].
    + eapply placed_local_0; [done|done|done|]. thread_owner.
    + eapply placed_local; [done|done|done|thread_owner|].
      intros q call [= -> _]%list_elem_of_singleton. lia.
    + eapply placed_local; [done|done|done|thread_owner|].
      intros q call [= -> _]%list_elem_of_singleton. lia.
Qed.

Lemma placed_receive c k j c' : placed c → receive c k j = Some c' → placed c'.
Proof using Type.
  intros Hpl. unfold receive. destruct (replies c !! j) as [[i r]|]; [|done]. cbn [mbind option_bind].
  destruct (threads c !! k) as [t|] eqn:Ek; [|done]. cbn [mbind option_bind].
  pose proof (proj1 Hpl t (list_elem_of_lookup_2 _ _ _ Ek)) as Hp.
  destruct t as [| | |p cell peer req| | | |p peer req args|p peer req args], r as [reply|reply|reply];
    try done; (case_decide; [|done]); (destruct (nodes c !! p) as [rf|] eqn:Ep; [|done]);
    cbn [mbind option_bind]; simpl in Hp.
  - destruct (elections c !! cell) as [e|]; [|done]. cbn [mbind option_bind].
    destruct (handleVoteReply _ _ _ _) as [[rf' vs] won]. intros [= <-].
    eapply placed_local_0; [done|by rewrite length_insert|done|]. thread_owner.
  - destruct (handleAppendReply rf peer args reply); [|done]. cbn [mbind option_bind]. intros [= <-].
    eapply placed_local_0; [done|by rewrite length_insert|done|]. thread_owner.
  - destruct (handleSnapshotReply rf peer args reply); [|done]. cbn [mbind option_bind]. intros [= <-].
    eapply placed_local_0; [done|by rewrite length_insert|done|]. thread_owner.
Qed.

Lemma placed_runElection c k now d c' : placed c → runElection c k now d = Some c' → placed c'.
Proof using Type.
  intros Hpl. unfold runElection. destruct (threads c !! k) as [t|] eqn:Ek; [|done].
  pose proof (proj1 Hpl t (list_elem_of_lookup_2 _ _ _ Ek)) as Hp. destruct t as [p| | | | | | | |]; try done.
  simpl in Hp. destruct (nodes c !! p) as [rf|] eqn:Ep; [|done]. cbn [mbind option_bind].
  destruct (electionTimeout rf now d) as [[rf' [[term calls]|]]|]; [| |done]; cbn [mbind option_bind];
    intros [= <-].
  - eapply placed_local_0; [done|by rewrite length_insert|done|]. intros t [Ht|Ht]%elem_of_app.
    + destruct (killed rf'); [by apply not_elem_of_nil in Ht|by apply list_elem_of_singleton in Ht as ->].
    + by apply list_elem_of_fmap in Ht as ([peer args] & -> & _).
  - eapply placed_local_0; [done|by rewrite length_insert|done|]. thread_owner.
Qed.

Lemma placed_serve c i now c' : placed c → serve c i now = Some c' → placed c'.
Proof using Type.
  intros Hpl. unfold serve. destruct (net c !! i) as [[p call]|] eqn:En; [|done]. cbn [mbind option_bind].
  destruct (nodes c !! p) as [rf|] eqn:Ep; [|done]. cbn [mbind option_bind].
  match goal with |- context [mbind _ ?x] => destruct x as [[rf' r]|]; [|done] end.
  cbn [mbind option_bind]. intros [= <-].
  apply (placed_step c _ p); [done|simpl; by rewrite length_insert|by eapply lookup_lt_Some|by right|by right].
Qed.

Lemma placed_calls c ev c' :
  match ev with EvStart _ _ | EvSnapshot _ _ _ | EvKill _ | EvRestart _ _ => True | _ => False end →
  placed c → cluster_step c ev = Some c' → placed c'.
Proof using Type.
  intros Hev Hpl. destruct ev as [| | | | |p command|p index snap|p|p now]; try done; simpl;
    unfold callStart, callSnapshot, callKill, restart; destruct (nodes c !! p) as [rf|] eqn:Ep; try done;
    cbn [mbind option_bind]; pose proof (lookup_lt_Some _ _ _ Ep) as Hp.
  - destruct (Start rf command) as [[[i t] ok] rf']. intros [= <-].
    apply (placed_step c _ p); [done|simpl; by rewrite length_insert|done| |by right].
    intros t' [?|Ht]%elem_of_app; [by right|left].
    destruct ok; [by apply list_elem_of_singleton in Ht as ->|by apply not_elem_of_nil in Ht].
  - destruct (Snapshot rf index snap) as [rf'|]; [|done]. cbn [mbind option_bind]. intros [= <-].
    apply (placed_step c _ p); [done|simpl; by rewrite length_insert|done|by right|by right].
  - intros [= <-]. apply (placed_step c _ p); [done|simpl; by rewrite length_insert|done|by right|by right].
  - intros [= <-]. apply (placed_step c _ p); [done|simpl; by rewrite length_insert|done| |by right].
    intros t [Ht|Ht]%elem_of_app.
    + right. apply list_elem_of_In, List.filter_In in Ht as [Ht _]. by apply list_elem_of_In.
    + left. repeat (apply elem_of_cons in Ht as [->|Ht]; [done|]). by apply not_elem_of_nil in Ht.
Qed.

Lemma placed_cluster_step c h ev c' :
  good n c h → placed c → cluster_step c ev = Some c' → placed c'.
Proof using Type.
  intros [Hi Hl] Hpl E. pose proof (placed_calls c ev c') as Hcalls.
  destruct ev; try (by apply Hcalls); clear Hcalls; simpl in E.
  - by eapply placed_runElection.
  - by eapply placed_runThread.
  - by eapply placed_serve.
  - by eapply placed_receive.
  - unfold callFails in E. destruct (threads c !! k) as [t|] eqn:Ek; [|done].
    pose proof (proj1 Hpl t (list_elem_of_lookup_2 _ _ _ Ek)) as Hp.
    destruct t; try done; injection E as <-; (eapply placed_local_0; [done..|thread_owner]).
Qed.

Lemma placed_run c h evs c' :
  good n c h → placed c → service_run c evs = Some c' → placed c'.
Proof using Type.
  revert c h. induction evs as [|ev evs IH]; intros c h Hg Hpl; simpl; [by intros [= <-]|].
  destruct (service_step c ev) as [c1|] eqn:E; [|done]. cbn [mbind option_bind]. intros Hr.
  destruct (good_step _ _ _ _ _ Hg E) as (h1 & _ & Hg1). apply (IH c1 h1 Hg1); [|done].
  unfold service_step in E. case_decide; [|done]. exact (placed_cluster_step _ _ _ _ Hg Hpl E).
Qed.

End Invariant.

Lemma placed_init ps now : placed (cluster_init ps now : cluster Command).
Proof using Type.
  split; [|done]. intros t Ht. simpl. rewrite length_fmap, length_seq.
  apply list_elem_of_bind in Ht as (p & Ht & Hp). apply elem_of_seq in Hp.
  repeat (apply elem_of_cons in Ht as [->|Ht]; [simpl; lia|]). by apply not_elem_of_nil in Ht.
Qed.

Lemma started_placed ps now c :
  started ps now c → placed c ∧ ∃ h, good (length ps) c h.
Proof using Type.
  intros Hs. split; [|by eapply good_started]. destruct Hs as [evs Hr].
  eapply (placed_run (length ps)); [apply good_init|apply placed_init|done].
Qed.

(** ** The theorem *)

(** The event by which thread [t], number [k], goes on. *)
Definition can_go_on c (k : nat) (t : thread Command) : Prop :=
  match t with
  | TElectionLoop _ => ∀ now d, is_Some (service_step c (EvElection k now d))
  | TVoteCall _ _ _ req | TAppendCall _ _ req _ | TSnapshotCall _ _ req _ =>
      is_Some (service_step c (EvCallFail k)) ∧
      ∀ j r, replies c !! j = Some (req, r) → is_Some (service_step c (EvReply k j))
  | _ => is_Some (service_step c (EvRun k))
  end.

Lemma service_step_is_Some c ev :
  service_ok c ev → is_Some (cluster_step c ev) → is_Some (service_step c ev).
Proof using Type. intros Hok [c' E]. exists c'. unfold service_step. by rewrite decide_True. Qed.

Lemma placed_node n c p :
  inv n c → (p < length (nodes c))%nat → ∃ rf, nodes c !! p = Some rf ∧ length (peers rf) = n.
Proof using Type.
  intros Hi Hp. destruct (lookup_lt_is_Some_2 _ _ Hp) as [rf Hrf]. exists rf.
  split; [done|]. by destruct (inv_node _ _ Hi _ _ Hrf) as (_ & ? & _).
Qed.

Lemma thread_goes_on n c h k t :
  good n c h → placed c → threads c !! k = Some t → can_go_on c k t.
Proof using Type.
  intros [Hi Hl] Hpl Hk. pose proof (list_elem_of_lookup_2 _ _ _ Hk) as Hin.
  destruct (placed_node n c (t_node t) Hi (proj1 Hpl t Hin)) as (rf & Hp & Hlen).
  pose proof (li_core _ _ _ Hl _ _ Hp) as Hc. pose proof (li_role _ _ _ Hl _ _ Hp) as Hr.
  pose proof (inv_thread _ _ Hi t Hin) as Hok. pose proof (li_thread _ _ _ Hl t Hin) as Hlok.
  destruct t as [p|p pc|p cell peer args|p cell peer req|p|p loop|p peer term lid commit|p peer req args
    |p peer req args]; simpl in Hp |- *.
  1: intros now d.
  all: try (split; [apply service_step_is_Some; [done|]; simpl; unfold callFails; rewrite Hk; by eexists|];
            intros j r Hj).
  all: apply service_step_is_Some; [done|]; simpl.
  - unfold runElection. rewrite Hk, Hp. cbn [mbind option_bind].
    destruct (electionTimeout_total rf now d) as [[rf' [[term calls]|]] ->];
      [apply (co_log _ _ _ _ _ Hc)|by eexists..].
  - unfold runThread. rewrite Hk, Hp. cbn [mbind option_bind].
    destruct (applyLoop_total rf pc) as [[[m rf'] pc'] ->]; [by eapply core_apply_ok|by eexists].
  - unfold runThread. rewrite Hk. by eexists.
  - destruct Hok as (args & (_ & _ & _ & e & He & _) & Hreq).
    pose proof (li_reply _ _ _ Hl _ _ _ _ _ Hj Hreq) as Hrep.
    unfold receive. rewrite Hj, Hk. cbn [mbind option_bind]. destruct r as [reply| |]; try done.
    rewrite decide_True by done. rewrite Hp, He. cbn [mbind option_bind].
    destruct (handleVoteReply _ _ _ _) as [[rf' vs] won]. by eexists.
  - unfold runThread. rewrite Hk, Hp. by eexists.
  - unfold runThread. rewrite Hk, Hp. by eexists.
  - unfold runThread. rewrite Hk, Hp. cbn [mbind option_bind]. destruct Hlok as (_ & Hpeer & _).
    destruct (heartbeatBegin_total n h (floor c p) p (h_full h p) rf peer term lid commit Hc Hr Hpeer)
      as [[|args|args] ->]; by eexists.
  - destruct Hlok as (Hpeer & _ & Hreq). pose proof (li_reply _ _ _ Hl _ _ _ _ _ Hj Hreq) as Hrep.
    unfold receive. rewrite Hj, Hk. cbn [mbind option_bind]. destruct r as [|reply|]; try done.
    rewrite decide_True by done. rewrite Hp. cbn [mbind option_bind].
    destruct (handleAppendReply_total n h (floor c p) p (h_full h p) rf peer args reply Hc Hr Hpeer Hlen)
      as [rf' ->]. by eexists.
  - destruct Hlok as (Hpeer & _ & Hreq). pose proof (li_reply _ _ _ Hl _ _ _ _ _ Hj Hreq) as Hrep.
    unfold receive. rewrite Hj, Hk. cbn [mbind option_bind]. destruct r as [| |reply]; try done.
    rewrite decide_True by done. rewrite Hp. cbn [mbind option_bind].
    destruct (handleSnapshotReply_total n h (floor c p) p (h_full h p) rf peer args reply Hr Hpeer)
      as [rf' ->]. by eexists.
Qed.

Lemma serve_goes_on n c h i now :
  good n c h → placed c → (i < length (net c))%nat → is_Some (service_step c (EvServe i now)).
Proof using Type.
  intros [Hi Hl] Hpl Hlt. apply service_step_is_Some; [done|]. simpl. unfold serve.
  destruct (lookup_lt_is_Some_2 _ _ Hlt) as [[p call] Hn]. rewrite Hn. cbn [mbind option_bind].
  destruct (placed_node n c p Hi (proj2 Hpl _ _ _ Hn)) as (rf & Hp & _). rewrite Hp. cbn [mbind option_bind].
  pose proof (co_log _ _ _ _ _ (li_core _ _ _ Hl _ _ Hp)) as Hok. destruct call as [args|args|args].
  - destruct (RequestVote_total rf args now Hok) as [[rf' r] ->]. by eexists.
  - destruct (AppendEntries_total rf args now Hok) as [[rf' r] ->]. by eexists.
  - destruct (InstallSnapshot_total rf args now) as [[rf' r] ->]. by eexists.
Qed.

(** C21. Progress: nothing in a cluster gets stuck.  Every goroutine of every peer can
    take its next step, without a panic and with a reply of the type it waits for,
    every request can be served by its destination, and every call of the service
    returns, a call of [Snapshot] if its index has been applied. *)
Theorem cluster_never_stuck ps now c :
  started ps now c →
  (∀ k t, threads c !! k = Some t → can_go_on c k t) ∧
  (∀ i now', (i < length (net c))%nat → is_Some (service_step c (EvServe i now'))) ∧
  ∀ p, (p < length ps)%nat →
    (∀ command, is_Some (service_step c (EvStart p command))) ∧
    (∀ index snap, service_ok c (EvSnapshot p index snap) →
                   is_Some (service_step c (EvSnapshot p index snap))) ∧
    is_Some (service_step c (EvKill p)) ∧ ∀ now', is_Some (service_step c (EvRestart p now')).
Proof using Type.
  intros (Hpl & h & Hg)%started_placed. split_and!.
  - intros k t. by eapply thread_goes_on.
  - intros i now'. by eapply serve_goes_on.
  - intros p Hp. destruct Hg as [Hi Hl]. rewrite <- (inv_len _ _ Hi) in Hp.
    destruct (lookup_lt_is_Some_2 _ _ Hp) as [rf Hrf]. pose proof (li_core _ _ _ Hl _ _ Hrf) as Hc.
    split_and!; intros; (apply service_step_is_Some; [done|]); simpl;
      unfold callStart, callSnapshot, callKill, restart; rewrite Hrf; cbn [mbind option_bind].
    + destruct (Start rf command) as [[[i t] ok] rf']. by eexists.
    + destruct (decide (index <= lastIncludedIndex rf)) as [Ho|Hnew].
      { unfold Snapshot. destruct (Z.leb_spec index (lastIncludedIndex rf)); [by eexists|lia]. }
      pose proof (co_order _ _ _ _ _ Hc).
      pose proof (known_bound _ _ _ _ _ _ Hc (co_commit _ _ _ _ _ Hc)).
      destruct (Snapshot_spec rf index snap) as (rf' & -> & _); [|by eexists].
      match goal with H : service_ok _ _ |- _ => simpl in H; rewrite Hrf in H end. lia.
    + by eexists.
    + by eexists.
Qed.

End Total.

Lemma cluster_never_stuck_witness :
  ∃ t, threads LogRuns.d2 !! 7%nat = Some t ∧ can_go_on LogRuns.d2 7%nat t ∧
       is_Some (service_step LogRuns.d2 (EvStart 1 (Some 7))).
Proof.
  destruct (cluster_never_stuck Runs.ps3 0 LogRuns.d2 LogRuns.d2_started) as (Ht & _ & Hp).
  destruct (threads LogRuns.d2 !! 7%nat) as [t|] eqn:E; [|vm_compute in E; discriminate].
  exists t. split; [reflexivity|]. split; [exact (Ht 7%nat t E)|].
  refine (proj1 (Hp 1%nat _) (Some 7)). simpl. lia.
Defined.
