(* ===== verification/ClusterHanded.v ===== *)
(** * No gaps in what is handed over

    Whatever a peer has applied, by entries or by a snapshot, was handed to the service
    of some peer as a command first: a snapshot is taken of what was handed over, and
    what [InstallSnapshot] brings was.  With state machine safety, what was handed over is
    one list of commands, [service_log]; it is unique, and a stable log of the cluster. *)
From stdpp Require Import base tactics list strings numbers option.
From Stdlib Require Import ZArith Lia.
From S2P Require Import Prelude.
From S2P Require Import Gob.
From S2P Require Import Persister.
From S2P Require Import RaftNode.
From S2P Require Import RaftLog.
From S2P Require Import RaftOps.
From S2P Require Import RaftFrame.
From S2P Require Import History.
From S2P Require Import HistorySteps.
From S2P Require Import Cluster.
From S2P Require Import ClusterVotes.
From S2P Require Import ClusterSafety.
From S2P Require Import ClusterInv.
From S2P Require Import ClusterSteps.
From S2P Require Import ClusterEffects.
From S2P Require Import ClusterSnapshots.
From S2P Require Import ClusterLog.
From S2P Require Import ClusterTotal.

Local Open Scope Z_scope.

Section Handed.
Context {Command : Type} {gobZ : Gob Z} {gobLog : Gob (list (LogEntry Command))}.
Implicit Types (rf : Raft Command) (c : cluster Command).

(** Every index up to [i] was handed to the service of some peer, as a command. *)
Definition handed c (i : Z) : Prop :=
  ∀ k, 0 < k <= i → ∃ q m, (q, m) ∈ applied c ∧ am_CommandValid m = true ∧ am_CommandIndex m = k.

Record gapless c : Prop := {
  ga_applied : ∀ p rf, nodes c !! p = Some rf → handed c (lastApplied rf);
  ga_net : ∀ i q args, net c !! i = Some (q, CallSnapshot args) → handed c (isa_LastIncludedIndex args);
  ga_below : ∀ q m, (q, m) ∈ applied c → am_CommandValid m = true → handed c (am_CommandIndex m)
}.

Lemma handed_le c i j : handed c i → j <= i → handed c j.
Proof using Type. intros H Hj k Hk. apply H. lia. Qed.

Lemma handed_app c c' ms i : applied c' = applied c ++ ms → handed c i → handed c' i.
Proof using Type.
  intros Ha H k Hk. destruct (H k Hk) as (q & m & Hin & ?). exists q, m. split; [|done].
  rewrite Ha. apply elem_of_app. by left.
Qed.

Lemma handed_same c c' i : applied c' = applied c → handed c i → handed c' i.
Proof using Type. intros Ha. apply (handed_app _ _ []). by rewrite app_nil_r. Qed.

(** The next index is handed over. *)
Lemma handed_next c c' p m i :
  applied c' = applied c ++ [(p, m)] → am_CommandValid m = true → am_CommandIndex m = i + 1 →
  handed c i → handed c' (i + 1).
Proof using Type.
  intros Ha Hv Hi H k Hk. destruct (decide (k = i + 1)) as [->|Hne].
  - exists p, m. split; [|done]. rewrite Ha. apply elem_of_app. right. by apply list_elem_of_singleton.
  - apply (handed_app _ _ _ _ Ha H). lia.
Qed.

(** What was handed over stays. *)
Lemma step_applied c ev c' : cluster_step c ev = Some c' → ∃ ms, applied c' = applied c ++ ms.
Proof using Type.
  intros E. assert (Hsame : applied c' = applied c → ∃ ms, applied c' = applied c ++ ms).
  { intros ->. exists []. by rewrite app_nil_r. }
  destruct (internal ev) eqn:Hint.
  - destruct (internal_effect _ _ _ Hint E) as
      [? ? [Ha _]|? ? ? ? ? ? ? [Ha _]|? ? ? ? [Ha _]|? ? ? ? ? ? ? ? [Ha _]|? ? ? m ? ? ? ? ? ? ? ? ->|
       ? ? ? ? ? ? ? ? ? ? ? ? Ha ?|? ? ? ? ? ? ? ? ? ? ? ? ? Ha ?]; try by apply Hsame. by eexists.
  - destruct ev as [| | | | |p command|p index snap| |p now]; try done; simpl in E;
      [unfold callStart in E|unfold callSnapshot in E|unfold restart in E];
      (destruct (nodes c !! p) as [rf|]; [|done]); cbn [mbind option_bind] in E.
    + destruct (Start rf command) as [[[i t] ok] rf']. injection E as <-. by apply Hsame.
    + destruct (Snapshot rf index snap); [|done]. cbn [mbind option_bind] in E. injection E as <-. by apply Hsame.
    + injection E as <-. by apply Hsame.
Qed.

(** ** The events *)

(** A peer moves, what it has applied was handed over. *)
Lemma gapless_node c c' p rf' ms :
  gapless c → nodes c' = <[p := rf']> (nodes c) → net c' = net c → applied c' = applied c ++ ms →
  handed c' (lastApplied rf') →
  (∀ q m, (q, m) ∈ ms → am_CommandValid m = true → am_CommandIndex m <= lastApplied rf') → gapless c'.
Proof using Type.
  intros [Hn Hs Hb] E Hnet Ha Hp Hm. constructor; rewrite ?E, ?Hnet.
  - intros q rf [(<- & <- & _)|(_ & Hq)]%list_lookup_insert_Some; [done|].
    by eapply handed_app, Hn.
  - intros i q args Hi. by eapply handed_app, Hs.
  - rewrite Ha. intros q m [Hin|Hin]%elem_of_app Hv; [by eapply handed_app; [|eapply (Hb q)]|].
    eapply handed_le; [done|by eapply Hm].
Qed.

Lemma below_same c c' :
  gapless c → applied c' = applied c →
  ∀ q m, (q, m) ∈ applied c' → am_CommandValid m = true → handed c' (am_CommandIndex m).
Proof using Type. intros Hg Ha q m. rewrite Ha. intros Hin Hv. eapply handed_same; [done|]. by eapply (ga_below _ Hg q). Qed.

Lemma gapless_same c c' p rf rf' :
  gapless c → nodes c !! p = Some rf → nodes c' = <[p := rf']> (nodes c) → net c' = net c →
  applied c' = applied c → lastApplied rf' <= lastApplied rf → gapless c'.
Proof using Type.
  intros Hg Hp Hn Hnet Ha Hle. eapply (gapless_node _ _ _ _ []); [done|done|done|by rewrite app_nil_r| |].
  - eapply handed_le; [|done]. eapply handed_same; [done|]. by eapply ga_applied.
  - by intros q m ?%not_elem_of_nil.
Qed.

Lemma gapless_send c c' peer call :
  gapless c → nodes c' = nodes c → net c' = net c ++ [(peer, call)] → applied c' = applied c →
  (∀ args, call = CallSnapshot args → handed c (isa_LastIncludedIndex args)) → gapless c'.
Proof using Type.
  intros Hg E Hnet Ha Hc. pose proof Hg as [Hn Hs _]. constructor; rewrite ?E, ?Hnet.
  - intros p rf Hp. by eapply handed_same, Hn.
  - intros i q args [[_ Hi]|[_ [= _ ->]]]%lookup_snoc_Some; eapply handed_same; [done|by eapply Hs|done|by apply Hc].
  - exact (below_same _ _ Hg Ha).
Qed.

Lemma applied_qview rf rf' : qview rf' = qview rf → lastApplied rf' = lastApplied rf.
Proof using Type. intros E. by apply (f_equal (λ x, x.1.2)) in E. Qed.

(** The apply loop goes on by one entry, or stays. *)
Lemma applyLoop_applied n h t w rf pc m rf' pc' :
  core n h t w rf → applyLoop_step rf pc = Some (m, rf', pc') →
  (lastApplied rf' = lastApplied rf ∧ ∀ msg, m = Some msg → am_CommandValid msg = false) ∨
  lastApplied rf' = lastApplied rf + 1 ∧ ∃ msg, m = Some msg ∧ am_CommandValid msg = true ∧
    am_CommandIndex msg = lastApplied rf + 1.
Proof using Type.
  intros Hc E. pose proof (core_apply_ok n _ _ _ _ Hc) as Hok. unfold applyLoop_step in E.
  assert (Hin : applyInner rf (applyFuel rf) = Some (m, rf') →
    (lastApplied rf' = lastApplied rf ∧ ∀ msg, m = Some msg → am_CommandValid msg = false) ∨
    lastApplied rf' = lastApplied rf + 1 ∧ ∃ msg, m = Some msg ∧ am_CommandValid msg = true ∧
      am_CommandIndex msg = lastApplied rf + 1).
  { unfold applyFuel. intros Ein. destruct (decide (lastApplied rf < commitIndex rf)) as [Hlt|Hge].
    - destruct (applyInner_next rf (Z.to_nat (commitIndex rf - lastApplied rf)) Hok Hlt) as (msg & He & E2).
      rewrite Ein in E2. injection E2 as -> ->. right. split; [done|]. exists msg. split; [done|].
      unfold entryMsg in He. destruct (idx _ _); [|done]. by injection He as <-.
    - rewrite applyInner_done in Ein by lia. injection Ein as <- <-. by left. }
  destruct pc, (pendingSnapshot rf) as [msg|] eqn:Ep;
    [injection E as <- <- _; left; split; [done|]; intros m' [= <-]; by apply (co_pending _ _ _ _ _ Hc)|..];
    (destruct (applyInner rf (applyFuel rf)) as [[m2 rf2]|]; [|done]); cbn [mbind option_bind] in E;
    injection E as -> -> _; by apply Hin.
Qed.

Lemma gapless_apply n c h p pc rf m rf' pc' k ts :
  good n c h → gapless c → nodes c !! p = Some rf → applyLoop_step rf pc = Some (m, rf', pc') →
  gapless (mkCluster (<[p := rf']> (nodes c)) (elections c) (respawn k ts (threads c)) (net c)
    (replies c) (applied c ++ match m with Some m => [(p, m)] | None => [] end)).
Proof using Type.
  intros [_ Hl] Hg Hp E. eapply gapless_node; [done|done|done|done| |].
  - pose proof (ga_applied _ Hg _ _ Hp) as Hh.
    destruct (applyLoop_applied n _ _ _ _ _ _ _ _ (li_core _ _ _ Hl _ _ Hp) E)
      as [[-> _]|(-> & msg & -> & Hv & Hi)]; [by eapply handed_app|by eapply handed_next].
  - destruct (applyLoop_applied n _ _ _ _ _ _ _ _ (li_core _ _ _ Hl _ _ Hp) E)
      as [[_ Hm]|(-> & msg & -> & _ & Hi)]; intros q x Hx Hv.
    + destruct m as [m|]; [|by apply not_elem_of_nil in Hx].
      apply list_elem_of_singleton in Hx as [= -> ->]. by rewrite (Hm m) in Hv.
    + apply list_elem_of_singleton in Hx as [= -> ->]. lia.
Qed.

Lemma gapless_install c c' i p rf args now rf' r :
  gapless c → net c !! i = Some (p, CallSnapshot args) → nodes c !! p = Some rf →
  InstallSnapshot rf args now = Some (rf', r) → nodes c' = <[p := rf']> (nodes c) → net c' = net c →
  applied c' = applied c → gapless c'.
Proof using Type.
  intros Hg Hi Hp E Hn Hnet Ha.
  destruct (decide (isa_Term args < currentTerm rf ∨ isa_LastIncludedIndex args <= lastIncludedIndex rf))
    as [Ho|Hnew].
  { eapply gapless_same; try done. rewrite (applied_qview rf rf'); [done|].
    by eapply kept_qview, InstallSnapshot_kept. }
  destruct (InstallSnapshot_install rf args now) as (rf2 & E2 & _ & _ & _ & _ & _ & _ & _ & Hla & _); [lia|lia|].
  rewrite E in E2. injection E2 as <- _.
  eapply (gapless_node _ _ _ _ []); [done|done|done|by rewrite app_nil_r| |by intros q m ?%not_elem_of_nil].
  eapply handed_same; [done|]. intros k Hk. rewrite Hla in Hk. destruct (decide (k <= lastApplied rf)).
  - by apply (ga_applied _ Hg _ _ Hp); lia.
  - apply (ga_net _ Hg _ _ _ Hi). lia.
Qed.

Lemma gapless_internal n c h ev c' :
  good n c h → gapless c → internal ev = true → cluster_step c ev = Some c' → gapless c'.
Proof using Type.
  intros Hgd Hg Hint E. destruct (internal_effect _ _ _ Hint E) as
    [Hn Hnet [Ha _]|p rf rf' Hp Hn Hk Hnet [Ha _]|peer args Hn Hnet [Ha _]|p rf peer call Hp Hs Hn Hnet [Ha _]
    |p rf pc m rf' pc' k ts Hk Hp Ea Hts ->|i p rf args now rf' r Hi Hp Eh Hn Hnet Ha Ht
    |i p rf args now rf' r -> Hi Hp Eh Hn Hnet Ha Ht].
  - pose proof Hg as [H1 H2 _]. constructor; rewrite ?Hn, ?Hnet.
    + intros p rf Hp. by eapply handed_same, H1.
    + intros i q args Hi. by eapply handed_same, H2.
    + exact (below_same _ _ Hg Ha).
  - eapply gapless_same; try done. by rewrite (applied_qview rf rf') by by apply kept_qview.
  - by eapply gapless_send.
  - eapply gapless_send; try done. intros args ->. simpl in Hs. subst args.
    eapply handed_le; [by eapply ga_applied|]. apply (co_order _ _ _ _ _ (li_core _ _ _ (proj2 Hgd) _ _ Hp)).
  - by eapply gapless_apply.
  - eapply gapless_same; try done. rewrite (applied_qview rf rf'); [done|].
    eapply AppendEntries_qview; [|done]. apply (li_core _ _ _ (proj2 Hgd) _ _ Hp).
  - by eapply gapless_install.
Qed.

Lemma gapless_step n c h ev c' :
  good n c h → gapless c → cluster_step c ev = Some c' → gapless c'.
Proof using Type.
  intros Hgd Hg E. destruct (internal ev) eqn:Hint; [by eapply gapless_internal|].
  destruct ev as [| | | | |p command|p index snap| |p now]; try done; simpl in E;
    [unfold callStart in E|unfold callSnapshot in E|unfold restart in E];
    (destruct (nodes c !! p) as [rf|] eqn:Hp; [|done]); cbn [mbind option_bind] in E.
  - assert (Hla : lastApplied (Start rf command).2 = lastApplied rf) by (unfold Start; by case_decide).
    destruct (Start rf command) as [[[i t] ok] rf']. injection E as <-.
    eapply gapless_same; try done. cbn in Hla. lia.
  - destruct (Snapshot rf index snap) as [rf'|] eqn:Es; [|done]. cbn [mbind option_bind] in E.
    injection E as <-. eapply gapless_same; try done. unfold Snapshot in Es.
    destruct (index <=? lastIncludedIndex rf); [by injection Es as <-|].
    destruct (logTerm rf index); [|done]. cbn [mbind option_bind] in Es.
    destruct (slice_from _ _) as [[|e l]|]; [done| |done]. by injection Es as <-.
  - injection E as <-. eapply gapless_same; try done. pose proof (li_core _ _ _ (proj2 Hgd) _ _ Hp) as Hc.
    destruct (Make_volatile (peers rf) p (persister rf) now) as (_ & -> & _).
    pose proof (Make_mem (peers rf) p (persister rf) now) as Hm. rewrite (co_disk _ _ _ _ _ Hc) in Hm.
    apply (f_equal (λ x, x.1.2)) in Hm. cbn [mem_log fst snd] in Hm.
    pose proof (co_order _ _ _ _ _ Hc). lia.
Qed.

Lemma gapless_init ps now : gapless (cluster_init ps now).
Proof using Type.
  constructor; [|done|by intros q m ?%not_elem_of_nil]. intros p rf Hp. apply list_lookup_fmap_Some in Hp as (q & -> & _).
  intros k Hk. change (lastApplied _) with 0 in Hk. lia.
Qed.

(** ** The log that the services see *)

(** [L] is what the peers have handed to their services: the command at every index, and
    nothing that was not handed to one of them. *)
Record service_log c (L : list (option Command)) : Prop := {
  sl_entry : ∀ q m, (q, m) ∈ applied c → am_CommandValid m = true →
    0 < am_CommandIndex m ∧ L !! Z.to_nat (am_CommandIndex m - 1) = Some (am_Command m);
  sl_only : handed c (zlen L)
}.

Lemma service_log_at c L i oc :
  service_log c L → L !! i = Some oc →
  ∃ q m, (q, m) ∈ applied c ∧ am_CommandValid m = true ∧ am_CommandIndex m = Z.of_nat i + 1 ∧ am_Command m = oc.
Proof using Type.
  intros [He Ho] Hi. pose proof (lookup_lt_Some _ _ _ Hi) as Hlt.
  destruct (Ho (Z.of_nat i + 1)) as (q & m & Hin & Hv & Hm); [unfold zlen; lia|].
  exists q, m. split_and!; [done..|]. destruct (He q m Hin Hv) as [_ Hl]. rewrite Hm in Hl.
  replace (Z.to_nat (Z.of_nat i + 1 - 1)) with i in Hl by lia. congruence.
Qed.

(** It only grows. *)
Lemma service_log_grows c c' ms L L' :
  applied c' = applied c ++ ms → service_log c L → service_log c' L' → L `prefix_of` L'.
Proof using Type.
  intros Ha H H'.
  apply prefix_by_lookup.
  intros i oc Hi. destruct (service_log_at _ _ _ _ H Hi) as (q & m & Hin & Hv & Hm & <-).
  destruct (sl_entry _ _ H' q m) as [_ Hl]; [rewrite Ha; apply elem_of_app; by left|done|]. rewrite Hm in Hl.
  by replace (Z.to_nat (Z.of_nat i + 1 - 1)) with i in Hl by lia.
Qed.

(** There is only one. *)
Lemma service_log_unique c L L' : service_log c L → service_log c L' → L = L'.
Proof using Type.
  intros H H'. pose proof (eq_sym (app_nil_r (applied c))) as Ha.
  destruct (service_log_grows c c [] L L' Ha H H') as [l1 E1], (service_log_grows c c [] L' L Ha H' H) as [l2 E2].
  rewrite E1 in E2. apply (f_equal length) in E2. rewrite !length_app in E2.
  destruct l1; [by rewrite app_nil_r in E1|simpl in E2; lia].
Qed.

Lemma handed_bound c L i : service_log c L → handed c i → 0 <= i → i <= zlen L.
Proof using Type.
  intros [He _] Hh Hi. destruct (decide (i = 0)) as [->|Hne]; [unfold zlen; lia|].
  destruct (Hh i) as (q & m & Hin & Hv & Hm); [lia|]. destruct (He q m Hin Hv) as [_ Hl].
  apply lookup_lt_Some in Hl. unfold zlen. lia.
Qed.

(** The last index that was handed over. *)
Lemma handed_last n c h (l : list (nat * ApplyMsg Command)) :
  good n c h → gapless c → (∀ x, x ∈ l → x ∈ applied c) →
  ∃ M t s, 0 <= M ∧ handed c M ∧ stable n h t s M ∧
    ∀ q m, (q, m) ∈ l → am_CommandValid m = true → am_CommandIndex m <= M.
Proof using Type.
  intros Hgd Hg. induction l as [|[q m] l IH]; intros Hl.
  - exists 0, 0, [sentinel]. split_and!; [done| |apply stable_zero, wf_sentinel|by intros q m ?%not_elem_of_nil].
    intros k Hk. lia.
  - destruct IH as (M & t & s & HM & Hh & Hs & Hb); [intros x Hx; apply Hl; by right|].
    assert (Hold : am_CommandValid m = true → am_CommandIndex m <= M →
      ∀ q' m', (q', m') ∈ (q, m) :: l → am_CommandValid m' = true → am_CommandIndex m' <= M).
    { intros _ Hle q' m' [[= -> ->]|Hin]%elem_of_cons Hv; [done|by eapply Hb]. }
    destruct (am_CommandValid m) eqn:Hv; [destruct (decide (am_CommandIndex m <= M)) as [Hle|Hgt]|].
    + exists M, t, s. split_and!; [done..|]. by apply Hold.
    + assert (Hin : (q, m) ∈ applied c) by (apply Hl; left).
      destruct (delivered_stable _ _ _ _ _ _ Hgd (hist_ext_refl h) Hin Hv) as (s' & e & Hs' & _ & _ & Hpos).
      exists (am_CommandIndex m), (floor c q), s'. split_and!; [lia|by eapply ga_below|done|].
      intros q' m' [[= -> ->]|Hin']%elem_of_cons Hv'; [lia|]. specialize (Hb _ _ Hin' Hv'). lia.
    + exists M, t, s. split_and!; [done..|].
      intros q' m' [[= -> ->]|Hin']%elem_of_cons Hv'; [congruence|by eapply Hb].
Qed.

Lemma service_log_stable n c h :
  good n c h → gapless c →
  ∃ L t s, service_log c L ∧ stable n h t s (zlen L) ∧ L = take (length L) (le_Command <$> tail s).
Proof using Type.
  intros Hgd Hg. destruct (handed_last n c h (applied c) Hgd Hg) as (M & t & s & HM & Hh & Hs & Hb); [done|].
  set (L := take (Z.to_nat M) (le_Command <$> tail s)).
  assert (HL : zlen L = M).
  { destruct Hs as (_ & Hi & _). unfold L, zlen in *. rewrite length_take, length_fmap.
    destruct s; simpl in *; lia. }
  assert (Hlen : length L = Z.to_nat M) by (unfold zlen in HL; lia).
  exists L, t, s. split_and!; [|by rewrite HL|by rewrite Hlen].
  constructor; [|by rewrite HL]. intros q m Hin Hv.
  destruct (delivered_stable _ _ _ _ _ _ Hgd (hist_ext_refl h) Hin Hv) as (s' & e & Hs' & He & Hc & Hpos).
  split; [done|]. specialize (Hb q m Hin Hv).
  destruct (stable_agree _ _ _ _ (li_hist _ _ _ (proj2 Hgd)) _ _ _ _ _ _ (am_CommandIndex m) Hs Hs')
    as (_ & _ & Heq); [lia|lia|]. rewrite <- Heq, idx_lookup in He by lia.
  unfold L. rewrite lookup_take_lt by lia. rewrite list_lookup_fmap, lookup_tail.
  replace (Datatypes.S (Z.to_nat (am_CommandIndex m - 1))) with (Z.to_nat (am_CommandIndex m)) by lia.
  rewrite He. simpl. by rewrite Hc.
Qed.

End Handed.
