(* ===== verification/ClusterLoops.v ===== *)
(** * Progress: the goroutines of a peer keep running

    The loops that raft.go starts for a peer end only when the peer is killed: in every
    reachable state a peer that is alive has its election loop and its apply loop, and a
    leader has its heartbeat loop ([loops_run]).  With that, a peer can finish what its
    apply loop has begun ([settles]).  ClusterProgress.v goes on from here. *)
From Stdlib Require Import ZArith Lia.
From stdpp Require Import base tactics list strings numbers option.
From S2P Require Import Prelude.
From S2P Require Import Gob.
From S2P Require Import Persister.
From S2P Require Import RaftNode.
From S2P Require Import RaftLog.
From S2P Require Import RaftOps.
From S2P Require Import RaftTheorems.
From S2P Require Import History.
From S2P Require Import Cluster.
From S2P Require Import ClusterVotes.
From S2P Require Import ClusterSafety.
From S2P Require Import ClusterInv.
From S2P Require Import ClusterSteps.
From S2P Require Import ClusterEffects.
From S2P Require Import ClusterLog.
From S2P Require Import ClusterTotal.

Local Open Scope Z_scope.

Section Loops.
Context {Command : Type} {gobZ : Gob Z} {gobLog : Gob (list (LogEntry Command))}.
Implicit Types (rf : Raft Command) (c : cluster Command) (t : thread Command).

(** ** Runs in which nothing fails *)

(** Timers, messages and goroutines: no peer is killed or restarted, no call fails. *)
Definition driven (ev : event Command) : bool :=
  match ev with EvElection _ _ _ | EvRun _ | EvServe _ _ | EvReply _ _ => true | _ => false end.

Lemma driven_internal ev : driven ev = true → internal ev = true.
Proof using Type. by destruct ev. Qed.

(** They take [c] to [c']. *)
Definition leads_to c c' : Prop := ∃ evs, service_run c evs = Some c' ∧ forallb driven evs = true.

Lemma service_run_app c evs evs' c1 c2 :
  service_run c evs = Some c1 → service_run c1 evs' = Some c2 → service_run c (evs ++ evs') = Some c2.
Proof using Type.
  revert c. induction evs as [|ev evs IH]; intros c; simpl; [by intros [= ->]|].
  destruct (service_step c ev) as [c3|]; [|done]. cbn [mbind option_bind]. apply IH.
Qed.

Lemma leads_refl c : leads_to c c.
Proof using Type. by exists []. Qed.

Lemma leads_trans c1 c2 c3 : leads_to c1 c2 → leads_to c2 c3 → leads_to c1 c3.
Proof using Type.
  intros (e1 & H1 & N1) (e2 & H2 & N2). exists (e1 ++ e2). split; [by eapply service_run_app|].
  by rewrite forallb_app, N1, N2.
Qed.

Lemma service_run_one c ev c' : service_ok c ev → cluster_step c ev = Some c' → service_run c [ev] = Some c'.
Proof using Type. intros Hok E. simpl. unfold service_step. rewrite decide_True by done. by rewrite E. Qed.

Lemma leads_step c ev c' : driven ev = true → cluster_step c ev = Some c' → leads_to c c'.
Proof using Type.
  intros Hn E. exists [ev]. split; [|simpl; by rewrite Hn]. apply service_run_one; [by destruct ev|done].
Qed.

Lemma started_app ps now c evs c' : started ps now c → service_run c evs = Some c' → started ps now c'.
Proof using Type. intros [e1 H1] H2. exists (e1 ++ evs). by eapply service_run_app. Qed.

Lemma leads_started ps now c c' : started ps now c → leads_to c c' → started ps now c'.
Proof using Type. intros Hs (evs & Hr & _). by eapply started_app. Qed.

Lemma respawn_keeps k ts (l : list (thread Command)) t t0 :
  l !! k = Some t0 → t ∈ l → t ≠ t0 → t ∈ respawn k ts l.
Proof using Type.
  intros Hk [j Hj]%list_elem_of_lookup Hne. unfold respawn. apply elem_of_app. left.
  apply list_elem_of_lookup. destruct (decide (j < k)%nat).
  - exists j. by rewrite list_lookup_delete_lt.
  - exists (j - 1)%nat. assert (j ≠ k) by congruence.
    rewrite list_lookup_delete_ge by lia. by replace (S (j - 1)) with j by lia.
Qed.

Lemma respawn_new k ts (l : list (thread Command)) t : t ∈ ts → t ∈ respawn k ts l.
Proof using Type. intros H. unfold respawn. apply elem_of_app. by right. Qed.

(** ** The loops of a peer *)

(** The loop a goroutine is: 0 the election loop, 1 the apply loop, 2 the heartbeat loop. *)
Definition slot t : option (nat * nat) :=
  match t with
  | TElectionLoop p => Some (p, 0%nat)
  | TApplyLoop p _ => Some (p, 1%nat)
  | THeartbeatLoop p | TSendHeartbeats p true => Some (p, 2%nat)
  | _ => None
  end.

Definition has (l : list (thread Command)) (x : nat * nat) : Prop := ∃ t, t ∈ l ∧ slot t = Some x.

Definition loops_run c : Prop := ∀ p rf, nodes c !! p = Some rf → dead rf = false →
  has (threads c) (p, 0%nat) ∧ has (threads c) (p, 1%nat) ∧
  (state rf = Leader → has (threads c) (p, 2%nat)).

Lemma has_app_l l l' x : has l x → has (l ++ l') x.
Proof using Type. intros (t & Ht & Hs). exists t. split; [apply elem_of_app; by left|done]. Qed.

Lemma has_app_r l l' x : has l' x → has (l ++ l') x.
Proof using Type. intros (t & Ht & Hs). exists t. split; [apply elem_of_app; by right|done]. Qed.

Lemma has_one t l x : slot t = Some x → has (t :: l) x.
Proof using Type. intros Hs. exists t. split; [by left|done]. Qed.

Lemma has_respawn k ts l t0 x :
  l !! k = Some t0 → has l x → (slot t0 = Some x → has ts x) → has (respawn k ts l) x.
Proof using Type.
  intros Hk (t & Ht & Hs) Hts. destruct (decide (slot t0 = Some x)) as [H0|H0].
  - apply has_app_r. by apply Hts.
  - exists t. split; [|done]. eapply respawn_keeps; [done|done|]. by intros ->.
Qed.

(** Goroutine [t0] is replaced by [ts], with the same loop in it unless its peer ends. *)
Lemma loops_respawn c c' k t0 ts :
  loops_run c → threads c !! k = Some t0 → threads c' = respawn k ts (threads c) →
  (∀ q rq', nodes c' !! q = Some rq' → dead rq' = false →
     ∃ rq, nodes c !! q = Some rq ∧ dead rq = false ∧
       (state rq' = Leader → state rq = Leader ∨ has ts (q, 2%nat)) ∧
       (slot t0 = Some (q, 0%nat) → has ts (q, 0%nat)) ∧ (slot t0 = Some (q, 1%nat) → has ts (q, 1%nat)) ∧
       (slot t0 = Some (q, 2%nat) → state rq' = Leader → has ts (q, 2%nat))) →
  loops_run c'.
Proof using Type.
  intros Hl Hk Ht H q rq' Hq Hd. destruct (H q rq' Hq Hd) as (rq & Hrq & Hdq & H2 & T0 & T1 & T2).
  destruct (Hl q rq Hrq Hdq) as (L0 & L1 & L2). rewrite Ht. split_and!; [by eapply has_respawn..|].
  intros Hs. destruct (H2 Hs) as [Hs0|?]; [|by apply has_app_r]. eapply has_respawn; [done|by apply L2|auto].
Qed.

(** A step of peer [p] that ends none of its loops. *)
Definition calms rf rf' : Prop := dead rf' = dead rf ∧ (state rf' = Leader → state rf = Leader).

Lemma calms_refl rf : calms rf rf.
Proof using Type. by split. Qed.

Lemma loops_insert c c' p rf rf' :
  loops_run c → nodes c !! p = Some rf → nodes c' = <[p := rf']> (nodes c) →
  calms rf rf' → (∀ x, has (threads c) x → has (threads c') x) → loops_run c'.
Proof using Type.
  intros Hl Hp Hn [Hd Hs] Ht q rq Hq Hdq. rewrite Hn in Hq.
  apply list_lookup_insert_Some in Hq as [(<- & <- & _)|(_ & Hq)].
  - rewrite Hd in Hdq. destruct (Hl _ _ Hp Hdq) as (L0 & L1 & L2). split_and!; auto.
  - destruct (Hl _ _ Hq Hdq) as (L0 & L1 & L2). split_and!; auto.
Qed.

Lemma loops_free c c' p rf rf' k t0 ts :
  loops_run c → threads c !! k = Some t0 → slot t0 = None → nodes c !! p = Some rf →
  nodes c' = <[p := rf']> (nodes c) → threads c' = respawn k ts (threads c) → calms rf rf' → loops_run c'.
Proof using Type.
  intros Hl Hk H0 Hp Hn Ht Hc. eapply loops_insert; try done. rewrite Ht. intros x Hx.
  eapply has_respawn; [done|done|]. by rewrite H0.
Qed.

(** ** The operations *)
Lemma electionTimeout_calms rf now d rf' r : electionTimeout rf now d = Some (rf', r) → calms rf rf'.
Proof using Type.
  unfold electionTimeout, startElection. intros E. destruct (_ && _); [|injection E as <- _; apply calms_refl].
  destruct (mapM _ _); [|done]. cbn [mbind option_bind] in E. by injection E as <- _.
Qed.

Lemma RequestVote_calms rf args now rf' r : RequestVote rf args now = Some (rf', r) → calms rf rf'.
Proof using Type.
  unfold RequestVote. intros E. destruct (_ <? _); [injection E as <- _; apply calms_refl|].
  set (rf1 := if _ >? _ then _ else rf) in E.
  assert (H1 : calms rf rf1) by (unfold rf1; destruct (_ >? _); [by split|apply calms_refl]).
  clearbody rf1. destruct (negb _ && negb _); [by injection E as <- _|].
  destruct (logTerm rf1 _); [|done]. cbn [mbind option_bind] in E.
  match type of E with (if ?b then _ else _) = _ => destruct b end; by injection E as <- _.
Qed.

Lemma AppendEntries_calms rf args now rf' r : AppendEntries rf args now = Some (rf', r) → calms rf rf'.
Proof using Type.
  unfold AppendEntries. intros E. destruct (_ <? _); [injection E as <- _; apply calms_refl|].
  set (rf1 := persist _) in E. assert (H1 : dead rf1 = dead rf ∧ state rf1 = Follower) by done. clearbody rf1.
  assert (Hc : ∀ rf2, dead rf2 = dead rf1 → state rf2 = state rf1 → calms rf rf2).
  { intros rf2 Hd Hs. split; [by rewrite Hd; apply H1|]. rewrite Hs, (proj2 H1). done. }
  destruct (_ <? _); [injection E as <- _; by apply Hc|].
  destruct (_ >? _); [injection E as <- _; by apply Hc|]. destruct (logTerm rf1 _); [|done].
  cbn [mbind option_bind] in E. destruct (negb _).
  - destruct (walkBack _ _ _ _); [|done]. injection E as <- _. by apply Hc.
  - destruct (appendEntriesLoop _ _ _) as [lg|]; [|done]. cbn [mbind option_bind] in E.
    injection E as <- _. destruct (_ >? _); [destruct (_ <? _)|]; by apply Hc.
Qed.

Lemma InstallSnapshot_calms rf args now rf' r : InstallSnapshot rf args now = Some (rf', r) → calms rf rf'.
Proof using Type.
  unfold InstallSnapshot. intros E. destruct (_ <? _); [injection E as <- _; apply calms_refl|].
  set (rf1 := set_lastHeartbeat _ _) in E.
  assert (H1 : dead rf1 = dead rf ∧ state rf1 = Follower) by (unfold rf1; by destruct (_ >? _)). clearbody rf1.
  assert (Hc : ∀ rf2, dead rf2 = dead rf1 → state rf2 = state rf1 → calms rf rf2).
  { intros rf2 Hd Hs. split; [by rewrite Hd; apply H1|]. rewrite Hs, (proj2 H1). done. }
  destruct (_ <=? _); [injection E as <- _; by apply Hc|].
  match type of E with mbind _ ?x = _ => destruct x as [lg|] end; [|done]. cbn [mbind option_bind] in E.
  injection E as <- _. match goal with |- context [if ?b then set_lastApplied _ _ else _] => destruct b end;
    match goal with |- context [if ?b then set_commitIndex _ _ else _] => destruct b end; by apply Hc.
Qed.

Lemma advanceLoop_calms rf i k rf' : advanceLoop rf i k = Some rf' → calms rf rf'.
Proof using Type.
  revert rf i. induction k as [|k IH]; intros rf i; simpl; [intros [= <-]; apply calms_refl|].
  destruct (logTerm rf i) as [t|]; [|done]. cbn [mbind option_bind].
  destruct (negb _); [apply IH|]. destruct (countMatches _ _ _ _); [|done]. cbn [mbind option_bind].
  intros E. apply IH in E. by destruct (_ >=? _).
Qed.

Lemma handleAppendReply_calms rf peer args reply rf' :
  handleAppendReply rf peer args reply = Some rf' → calms rf rf'.
Proof using Type.
  unfold handleAppendReply. destruct (_ || _); [intros [= <-]; apply calms_refl|].
  set (rf1 := if _ >? _ then _ else rf).
  assert (H1 : calms rf rf1) by (unfold rf1; destruct (_ >? _); [by split|apply calms_refl]).
  clearbody rf1. destruct (aer_Success reply).
  - destruct (matchIndex rf1 !! peer); [|done]. cbn [mbind option_bind].
    destruct (idx_set _ _ _); [|done]. cbn [mbind option_bind]. intros [Hd Hs]%advanceLoop_calms.
    destruct H1 as [Hd1 Hs1]. split; [by rewrite Hd|]. intros H%Hs. by apply Hs1.
  - destruct (backUp _ _); [|done]. cbn [mbind option_bind].
    destruct (idx_set _ _ _); [|done]. cbn [mbind option_bind]. by intros [= <-].
Qed.

Lemma handleSnapshotReply_calms rf peer args reply rf' :
  handleSnapshotReply rf peer args reply = Some rf' → calms rf rf'.
Proof using Type.
  unfold handleSnapshotReply. destruct (_ || _); [intros [= <-]; apply calms_refl|].
  destruct (_ >? _); [by intros [= <-]|].
  destruct (matchIndex rf !! peer); [|done]. cbn [mbind option_bind].
  destruct (idx_set _ _ _); [|done]. cbn [mbind option_bind]. by intros [= <-].
Qed.

Lemma applyInner_calms rf fuel m rf' : applyInner rf fuel = Some (m, rf') → calms rf rf'.
Proof using Type.
  revert rf. induction fuel as [|f IH]; intros rf; simpl; [intros [= _ <-]; apply calms_refl|].
  destruct (_ <? _); [|intros [= _ <-]; apply calms_refl]. destruct (_ <=? _); [by intros E%IH|].
  destruct (idx _ _); [|done]. cbn [mbind option_bind]. by intros [= _ <-].
Qed.

Lemma applyLoop_calms rf pc m rf' pc' : applyLoop_step rf pc = Some (m, rf', pc') → calms rf rf'.
Proof using Type.
  unfold applyLoop_step. intros E.
  destruct pc, (pendingSnapshot rf); [by injection E as _ <- _|..];
    (destruct (applyInner rf _) as [[m2 rf2]|] eqn:Ei; [|done]); cbn [mbind option_bind] in E;
    injection E as _ <- _; by eapply applyInner_calms.
Qed.

Lemma Snapshot_calms rf index snap rf' : Snapshot rf index snap = Some rf' → calms rf rf'.
Proof using Type.
  unfold Snapshot. intros E. destruct (_ <=? _); [injection E as <-; apply calms_refl|].
  destruct (logTerm rf index); [|done]. cbn [mbind option_bind] in E.
  destruct (slice_from _ _) as [[|e r]|]; [done| |done]. cbn [mbind option_bind] in E. by injection E as <-.
Qed.

Lemma handleVoteReply_calms rf term votes reply rf' vs won :
  handleVoteReply rf term votes reply = (rf', vs, won) →
  dead rf' = dead rf ∧ (state rf' = Leader → state rf = Leader ∨ won = true).
Proof using Type.
  unfold handleVoteReply. intros E. repeat case_match; injection E as <- _ <-;
    (split; [done|]); intros Hs; first [done|by left|by right].
Qed.

(** ** The steps *)
Lemma runElection_loops c k now d c' : loops_run c → runElection c k now d = Some c' → loops_run c'.
Proof using Type.
  intros Hl E. unfold runElection in E. destruct (threads c !! k) as [[p| | | | | | | |]|] eqn:Hk; try done.
  destruct (nodes c !! p) as [rf|] eqn:Hp; [|done]. cbn [mbind option_bind] in E.
  destruct (electionTimeout rf now d) as [[rf' st]|] eqn:Ee; [|done]. cbn [mbind option_bind] in E.
  pose proof (electionTimeout_calms _ _ _ _ _ Ee) as [Hd Hs].
  assert (H : ∃ more, nodes c' = <[p := rf']> (nodes c) ∧
    threads c' = respawn k ((if killed rf' then [] else [TElectionLoop p]) ++ more) (threads c)).
  { destruct st as [[term calls]|]; injection E as <-; cbn; eexists; (split; [done|]); [done|].
    by rewrite app_nil_r. }
  destruct H as (more & Hn & Ht). eapply loops_respawn; [done|exact Hk|exact Ht|].
  intros q rq' Hq Hdq. rewrite Hn in Hq. apply list_lookup_insert_Some in Hq as [(<- & <- & _)|(Hne & Hq)].
  - exists rf. split_and!; [done|congruence|by left; apply Hs| |done|done]. intros _.
    unfold killed. rewrite Hdq. by apply has_one.
  - exists rq'. split_and!; [done|done|by left| |done|done]. by intros [= ->].
Qed.

Lemma runThread_loops c k c' : loops_run c → runThread c k = Some c' → loops_run c'.
Proof using Type.
  intros Hl E. unfold runThread in E.
  assert (Hfree : ∀ t0 ts, threads c !! k = Some t0 → slot t0 = None → nodes c' = nodes c →
    threads c' = respawn k ts (threads c) → loops_run c').
  { intros t0 ts Hk H0 Hn Ht. eapply loops_respawn; [done|exact Hk|exact Ht|]. rewrite Hn, H0.
    intros q rq Hq Hd. exists rq. split_and!; by (done || left). }
  destruct (threads c !! k) as [[|p pc|p cell peer args| |p|p loop|p peer term lid cm| |]|] eqn:Hk; try done.
  - destruct (nodes c !! p) as [rf|] eqn:Hp; [|done]. cbn [mbind option_bind] in E.
    destruct (applyLoop_step rf pc) as [[[m rf'] pc']|] eqn:Ea; [|done]. cbn [mbind option_bind] in E.
    injection E as <-. destruct (applyLoop_calms _ _ _ _ _ Ea) as [Hd Hs].
    eapply loops_respawn; [done|exact Hk|reflexivity|]. cbn. intros q rq' Hq Hdq.
    apply list_lookup_insert_Some in Hq as [(<- & <- & _)|(Hne & Hq)].
    + exists rf. split_and!; [done|congruence|by left; apply Hs|done| |done]. intros _.
      unfold killed. rewrite Hdq. destruct pc'; by apply has_one.
    + exists rq'. split_and!; [done|done|by left|done| |done]. by intros [= ->].
  - injection E as <-. by eapply Hfree.
  - destruct (nodes c !! p) as [rf|] eqn:Hp; [|done]. cbn [mbind option_bind] in E. injection E as <-.
    eapply loops_respawn; [done|exact Hk|reflexivity|]. cbn. intros q rq Hq Hdq.
    exists rq. split_and!; [done|done|by left|done|done|]. intros [= ->] Hst. rewrite Hp in Hq. injection Hq as ->.
    unfold killed. rewrite Hdq, decide_True by done. by apply has_one.
  - destruct (nodes c !! p) as [rf|] eqn:Hp; [|done]. cbn [mbind option_bind] in E. injection E as <-.
    eapply loops_respawn; [done|exact Hk|reflexivity|]. cbn. intros q rq Hq Hdq.
    exists rq. split_and!; [done|done|by left|by destruct loop|by destruct loop|]. destruct loop; [|done].
    intros [= ->] _. apply has_app_r. by apply has_one.
  - destruct (nodes c !! p) as [rf|] eqn:Hp; [|done]. cbn [mbind option_bind] in E.
    destruct (heartbeatBegin _ _ _ _ _) as [[|args|args]|]; [..|done]; injection E as <-; by eapply Hfree.
Qed.

Lemma serve_loops c i now c' : loops_run c → serve c i now = Some c' → loops_run c'.
Proof using Type.
  intros Hl E. unfold serve in E. destruct (net c !! i) as [[p call]|]; [|done]. cbn [mbind option_bind] in E.
  destruct (nodes c !! p) as [rf|] eqn:Hp; [|done]. cbn [mbind option_bind] in E.
  match type of E with mbind _ ?x = _ => destruct x as [[rf' r]|] eqn:Eh end; [|done].
  cbn [mbind option_bind] in E. injection E as <-. eapply (loops_insert c _ p rf rf'); try done.
  destruct call as [args|args|args].
  - destruct (RequestVote rf args now) as [[rf2 r2]|] eqn:E2; [|done]. injection Eh as <- _.
    by eapply RequestVote_calms.
  - destruct (AppendEntries rf args now) as [[rf2 r2]|] eqn:E2; [|done]. injection Eh as <- _.
    by eapply AppendEntries_calms.
  - destruct (InstallSnapshot rf args now) as [[rf2 r2]|] eqn:E2; [|done]. injection Eh as <- _.
    by eapply InstallSnapshot_calms.
Qed.

Lemma receive_loops c k j c' : loops_run c → receive c k j = Some c' → loops_run c'.
Proof using Type.
  intros Hl E. unfold receive in E. destruct (replies c !! j) as [[i r]|]; [|done]. cbn [mbind option_bind] in E.
  destruct (threads c !! k) as [t|] eqn:Hk; [|done]. cbn [mbind option_bind] in E.
  destruct t as [| | |p cell peer req| | | |p peer req args|p peer req args], r as [reply|reply|reply]; try done;
    destruct (decide (i = req)); try done; (destruct (nodes c !! p) as [rf|] eqn:Hp; [|done]);
    cbn [mbind option_bind] in E.
  - destruct (elections c !! cell) as [el|]; [|done]. cbn [mbind option_bind] in E.
    destruct (handleVoteReply _ _ _ _) as [[rf' vs] won] eqn:Eh. injection E as <-.
    destruct (handleVoteReply_calms _ _ _ _ _ _ _ Eh) as [Hd Hs].
    eapply loops_respawn; [done|exact Hk|reflexivity|]. cbn. intros q rq' Hq Hdq.
    apply list_lookup_insert_Some in Hq as [(<- & <- & _)|(Hne & Hq)].
    + exists rf. split_and!; [done|congruence| |done|done|done]. intros [?| ->]%Hs; [by left|right].
      by apply has_one.
    + exists rq'. split_and!; by (done || left).
  - destruct (handleAppendReply _ _ _ _) as [rf'|] eqn:Eh; [|done]. injection E as <-.
    eapply (loops_free c _ p rf rf'); try done. by eapply handleAppendReply_calms.
  - destruct (handleSnapshotReply _ _ _ _) as [rf'|] eqn:Eh; [|done]. injection E as <-.
    eapply (loops_free c _ p rf rf'); try done. by eapply handleSnapshotReply_calms.
Qed.

Lemma Make_alive ps p d now : dead (Make ps p d now : Raft Command) = false.
Proof using Type.
  unfold Make, readPersist. destruct (zlen (ReadRaftState d) <? 1); [done|].
  by destruct (decodeState (ReadRaftState d)) as [[[[[ct vf] lg] lii] lit]|].
Qed.

Lemma restart_loops c p now c' : loops_run c → restart c p now = Some c' → loops_run c'.
Proof using Type.
  intros Hl E. unfold restart in E. destruct (nodes c !! p) as [rf|] eqn:Hp; [|done]. cbn [mbind option_bind] in E.
  injection E as <-. intros q rq Hq Hdq. cbn in Hq |- *.
  apply list_lookup_insert_Some in Hq as [(<- & <- & _)|(Hne & Hq)].
  - split_and!; [by apply has_app_r, has_one|apply has_app_r; exists (TApplyLoop p ApplyTop); by split; [right; left|]|].
    destruct (Make_fixed (peers rf) p (persister rf) now) as (_ & _ & _ & Hs). by rewrite Hs.
  - destruct (Hl _ _ Hq Hdq) as (L0 & L1 & L2).
    assert (Hk : ∀ n, has (threads c) (q, n) → has (List.filter (λ t, negb (t_node t =? p)%nat) (threads c) ++ loops p) (q, n)).
    { intros n (t & Ht & Hs). apply has_app_l. exists t. split; [|done].
      apply list_elem_of_In, List.filter_In. rewrite <- list_elem_of_In. split; [done|].
      apply negb_true_iff, Nat.eqb_neq. destruct t as [| | | | |? []| | |]; try done; injection Hs as -> _; cbn; congruence. }
    split_and!; [by apply Hk..|]. intros Hs. by apply Hk, L2.
Qed.

Lemma loops_step c ev c' : loops_run c → cluster_step c ev = Some c' → loops_run c'.
Proof using Type.
  intros Hl E. destruct ev as [k now d|k|i now|k j|k|p cmd|p i s|p|p now]; simpl in E.
  - by eapply runElection_loops.
  - by eapply runThread_loops.
  - by eapply serve_loops.
  - by eapply receive_loops.
  - assert (H : ∃ t0, threads c !! k = Some t0 ∧ slot t0 = None ∧ nodes c' = nodes c ∧
      threads c' = respawn k [] (threads c)).
    { unfold callFails in E. destruct (threads c !! k) as [[]|]; try done; injection E as <-; by eexists. }
    destruct H as (t0 & Hk & H0 & Hn & Ht). eapply loops_respawn; [done|exact Hk|exact Ht|].
    rewrite Hn, H0. intros q rq Hq Hd. exists rq. split_and!; by (done || left).
  - unfold callStart in E. destruct (nodes c !! p) as [rf|] eqn:Hp; [|done]. cbn [mbind option_bind] in E.
    destruct (Start rf cmd) as [[[? ?] ok] rf'] eqn:Es. injection E as <-.
    eapply (loops_insert c _ p rf rf'); try done; [|intros x; apply has_app_l].
    unfold Start in Es. destruct (decide _); injection Es as _ _ _ <-; by split.
  - unfold callSnapshot in E. destruct (nodes c !! p) as [rf|] eqn:Hp; [|done]. cbn [mbind option_bind] in E.
    destruct (Snapshot rf i s) as [rf'|] eqn:Es; [|done]. injection E as <-.
    eapply (loops_insert c _ p rf rf'); try done. by eapply Snapshot_calms.
  - unfold callKill in E. destruct (nodes c !! p) as [rf|] eqn:Hp; [|done]. injection E as <-.
    intros q rq Hq Hd. cbn in Hq |- *. apply list_lookup_insert_Some in Hq as [(<- & <- & _)|(_ & Hq)]; [done|].
    by apply (Hl q rq).
  - by eapply restart_loops.
Qed.

Lemma loops_run_service c evs c' : loops_run c → service_run c evs = Some c' → loops_run c'.
Proof using Type.
  revert c. induction evs as [|ev evs IH]; intros c Hl; simpl; [by intros [= <-]|].
  unfold service_step. case_decide; [|done]. destruct (cluster_step c ev) as [c1|] eqn:E; [|done].
  cbn [mbind option_bind]. apply IH. by eapply loops_step.
Qed.

Lemma loops_init ps now : loops_run (cluster_init ps now).
Proof using Type.
  intros p rf Hp _. cbn in Hp |- *. apply list_lookup_fmap_Some in Hp as (q & -> & Hq).
  apply lookup_seq in Hq as [-> Hlt].
  assert (Hin : ∀ t, t ∈ loops p → t ∈ seq 0 (length ps) ≫= loops).
  { intros t Ht. apply list_elem_of_bind. exists p. split; [done|]. apply elem_of_seq. lia. }
  split_and!.
  - exists (TElectionLoop p). split; [apply Hin; by left|done].
  - exists (TApplyLoop p ApplyTop). split; [apply Hin; right; by left|done].
  - destruct (Make_fixed ps (0 + p) MakePersister now) as (_ & _ & _ & Hs). by rewrite Hs.
Qed.

(** The loops of the peers that are alive run in every reachable state. *)
Lemma started_loops ps now c : started ps now c → loops_run c.
Proof using Type. intros [evs Hr]. eapply loops_run_service; [apply loops_init|exact Hr]. Qed.

(** ** The apply loop *)

(** Peer [p] hands over entries below [L]. *)
Definition entries_below (p : nat) (L : Z) (ms : list (nat * ApplyMsg Command)) : Prop :=
  ∀ q x, (q, x) ∈ ms → q = p ∧ am_SnapshotValid x = false ∧ am_CommandIndex x < L.

(** The next turn of the loop does not begin with a pending snapshot. *)
Definition delivers_entries rf (pc : apply_pc) : Prop := pc = ApplyInner ∨ pendingSnapshot rf = None.

Lemma delivers_step rf pc : delivers_entries rf pc →
  applyLoop_step rf pc = ('(msg, rf) ← applyInner rf (applyFuel rf);
    Some (msg, rf, match msg with Some _ => ApplyInner | None => ApplyTop end)).
Proof using Type. unfold applyLoop_step. intros [->| ->]; [done|by destruct pc]. Qed.

Lemma entryMsg_index rf i m : entryMsg rf i = Some m → am_SnapshotValid m = false ∧ am_CommandIndex m = i.
Proof using Type. unfold entryMsg. destruct (idx _ _); [|done]. by intros [= <-]. Qed.

Lemma apply_until (p : nat) c rf pc L :
  nodes c !! p = Some rf → TApplyLoop p pc ∈ threads c → delivers_entries rf pc → apply_ok rf →
  lastApplied rf < L <= commitIndex rf →
  ∃ c' ms m, leads_to c c' ∧ applied c' = applied c ++ ms ++ [(p, m)] ∧ entryMsg rf L = Some m ∧
    entries_below p L ms ∧ nodes c' = <[p := set_lastApplied L rf]> (nodes c) ∧ TApplyLoop p ApplyInner ∈ threads c' ∧
    ∀ t, t ∈ threads c → (∀ pc, t ≠ TApplyLoop p pc) → t ∈ threads c'.
Proof using Type.
  remember (Z.to_nat (L - lastApplied rf)) as k eqn:Ek. revert c rf pc Ek.
  induction k as [|k IH]; intros c rf pc Ek Hp Hth Hpd Hok HL; [lia|].
  apply list_elem_of_lookup in Hth as [j Hj].
  destruct (applyInner_next rf (Z.to_nat (commitIndex rf - lastApplied rf)) Hok) as (m & Hm & E); [lia|].
  set (rf1 := set_lastApplied (lastApplied rf + 1) rf) in E.
  set (c1 := mkCluster (<[p := rf1]> (nodes c)) (elections c) (respawn j [TApplyLoop p ApplyInner] (threads c))
    (net c) (replies c) (applied c ++ [(p, m)])).
  assert (E1 : cluster_step c (EvRun j) = Some c1).
  { simpl. unfold runThread. rewrite Hj, Hp. cbn [mbind option_bind]. rewrite (delivers_step _ _ Hpd).
    unfold applyFuel. by rewrite E. }
  pose proof (leads_step c (EvRun j) c1 eq_refl E1) as H1.
  assert (Hmsg : ∀ i, entryMsg rf1 i = entryMsg rf i) by done.
  assert (Hnew : TApplyLoop p ApplyInner ∈ threads c1) by (apply respawn_new; by left).
  assert (Hkeep : ∀ t, t ∈ threads c → (∀ pc, t ≠ TApplyLoop p pc) → t ∈ threads c1).
  { intros t Ht Hne. by eapply respawn_keeps. }
  destruct (decide (L = lastApplied rf + 1)) as [->|Hne].
  - exists c1, [], m. split_and!; try done. by intros q x ?%not_elem_of_nil.
  - destruct (IH c1 rf1 ApplyInner) as (c2 & ms & m2 & H2 & Ha2 & Hm2 & Hms & Hn2 & Ht2 & Hk2); cbn; try done.
    + lia.
    + apply list_lookup_insert_eq. by eapply lookup_lt_Some.
    + by left.
    + destruct Hok as (Hok & Hi & Hci). split_and!; [done|cbn; lia|cbn; lia|exact Hci].
    + lia.
    + exists c2, ((p, m) :: ms), m2. split_and!; [by eapply leads_trans| |done| | |done|].
      * rewrite Ha2. cbn. by rewrite <- app_assoc.
      * destruct (entryMsg_index _ _ _ Hm) as [Hv Hi]. intros q x [[= -> ->]|Hin]%elem_of_cons; [|by apply Hms].
        split_and!; [done|done|lia].
      * rewrite Hn2. cbn. by rewrite list_insert_insert_eq.
      * intros t Ht Hne'. by apply Hk2; [apply Hkeep|].
Qed.

(** With nothing left to apply the loop goes back to its start. *)
Lemma apply_idle (p : nat) c rf pc :
  nodes c !! p = Some rf → TApplyLoop p pc ∈ threads c → delivers_entries rf pc → dead rf = false →
  commitIndex rf <= lastApplied rf →
  ∃ c', leads_to c c' ∧ applied c' = applied c ∧ nodes c' = nodes c ∧ TApplyLoop p ApplyTop ∈ threads c' ∧
    ∀ t, t ∈ threads c → (∀ pc, t ≠ TApplyLoop p pc) → t ∈ threads c'.
Proof using Type.
  intros Hp Hth Hpd Hd Hle. apply list_elem_of_lookup in Hth as [j Hj].
  set (c1 := mkCluster (<[p := rf]> (nodes c)) (elections c) (respawn j [TApplyLoop p ApplyTop] (threads c))
    (net c) (replies c) (applied c ++ [])).
  assert (E1 : cluster_step c (EvRun j) = Some c1).
  { simpl. unfold runThread. rewrite Hj, Hp. cbn [mbind option_bind]. rewrite (delivers_step _ _ Hpd).
    unfold applyFuel. rewrite applyInner_done by done. unfold killed. cbn [mbind option_bind]. by rewrite Hd. }
  exists c1. split_and!; [by eapply (leads_step c (EvRun j))|apply app_nil_r|by apply list_insert_id| |].
  - apply respawn_new. by left.
  - intros t Ht Hne. by eapply respawn_keeps.
Qed.

(** The loop finishes the entries it is delivering. *)
Lemma apply_finishes (p : nat) c rf pc :
  nodes c !! p = Some rf → TApplyLoop p pc ∈ threads c → apply_ok rf → dead rf = false →
  ∃ c' x, leads_to c c' ∧ nodes c' = <[p := set_lastApplied x rf]> (nodes c) ∧ TApplyLoop p ApplyTop ∈ threads c' ∧
    ∀ t, t ∈ threads c → (∀ pc, t ≠ TApplyLoop p pc) → t ∈ threads c'.
Proof using Type.
  intros Hp Hth Hok Hd. destruct pc.
  { exists c, (lastApplied rf). split_and!; [apply leads_refl| |done|done].
    symmetry. apply list_insert_id. rewrite Hp. by destruct rf. }
  destruct (decide (lastApplied rf < commitIndex rf)) as [Hlt|Hge].
  - destruct (apply_until p c rf ApplyInner (commitIndex rf)) as (c1 & ms & m & H1 & _ & _ & _ & Hn1 & Ht1 & Hk1);
      [done|done|by left|done|lia|].
    set (rf1 := set_lastApplied (commitIndex rf) rf) in *.
    destruct (apply_idle p c1 rf1 ApplyInner) as (c2 & H2 & _ & Hn2 & Ht2 & Hk2); [|done|by left|done|cbn; lia|].
    { rewrite Hn1. apply list_lookup_insert_eq. by eapply lookup_lt_Some. }
    exists c2, (commitIndex rf). split_and!; [by eapply leads_trans|by rewrite Hn2|done|].
    intros t Ht Hne. by apply Hk2; [apply Hk1|].
  - destruct (apply_idle p c rf ApplyInner) as (c2 & H2 & _ & Hn2 & Ht2 & Hk2); [done|done|by left|done|lia|].
    exists c2, (lastApplied rf). split_and!; [done| |done|done].
    rewrite Hn2. symmetry. apply list_insert_id. rewrite Hp. by destruct rf.
Qed.

(** Then it delivers the pending snapshot: [rf] but for its progress. *)
Definition settled rf rf' : Prop := ∃ x, rf' = set_pendingSnapshot None (set_lastApplied x rf).

Lemma settles ps now (p : nat) c rf :
  started ps now c → nodes c !! p = Some rf → dead rf = false →
  ∃ c' rf', leads_to c c' ∧ settled rf rf' ∧ nodes c' = <[p := rf']> (nodes c) ∧ TApplyLoop p ApplyTop ∈ threads c' ∧
    ∀ t, t ∈ threads c → (∀ pc, t ≠ TApplyLoop p pc) → t ∈ threads c'.
Proof using Type.
  intros Hs Hp Hd. destruct (good_started _ _ _ Hs) as (h & Hi & Hl).
  destruct (started_loops _ _ _ Hs _ _ Hp Hd) as (_ & (t0 & Ht0 & Hs0) & _).
  assert (Ht : ∃ pc, t0 = TApplyLoop p pc).
  { destruct t0 as [|? pc| | | |? []| | |]; try done. injection Hs0 as ->. by exists pc. }
  destruct Ht as [pc ->].
  destruct (apply_finishes p c rf pc Hp Ht0) as (c1 & x & H1 & Hn1 & Ht1 & Hk1);
    [by eapply core_apply_ok, (li_core _ _ _ Hl)|done|].
  set (rf1 := set_lastApplied x rf) in *.
  assert (Hp1 : nodes c1 !! p = Some rf1) by (rewrite Hn1; apply list_lookup_insert_eq; by eapply lookup_lt_Some).
  destruct (pendingSnapshot rf1) as [msg|] eqn:Epd.
  - apply list_elem_of_lookup in Ht1 as [j Hj]. set (rf2 := set_pendingSnapshot None rf1).
    set (c2 := mkCluster (<[p := rf2]> (nodes c1)) (elections c1) (respawn j [TApplyLoop p ApplyTop] (threads c1))
      (net c1) (replies c1) (applied c1 ++ [(p, msg)])).
    assert (E2 : cluster_step c1 (EvRun j) = Some c2).
    { simpl. unfold runThread. rewrite Hj, Hp1. cbn [mbind option_bind]. unfold applyLoop_step. rewrite Epd.
      cbn [mbind option_bind]. unfold killed. change (dead (set_pendingSnapshot None rf1)) with (dead rf). by rewrite Hd. }
    exists c2, rf2. split_and!.
    + eapply leads_trans; [done|]. by eapply (leads_step c1 (EvRun j)).
    + by exists x.
    + unfold c2. cbn. by rewrite Hn1, list_insert_insert_eq.
    + apply respawn_new. by left.
    + intros t Ht Hne. eapply respawn_keeps; [done|by apply Hk1|done].
  - exists c1, rf1. split_and!; [done| |done|done|done]. exists x. fold rf1.
    clearbody rf1. destruct rf1. cbn in *. by rewrite Epd.
Qed.

(** ** The heartbeat loop *)

(** A leader's heartbeat loop is at its start, or gets there. *)
Lemma beat_loop ps now (p : nat) c rf :
  started ps now c → nodes c !! p = Some rf → dead rf = false → state rf = Leader →
  ∃ c', leads_to c c' ∧ nodes c' = nodes c ∧ THeartbeatLoop p ∈ threads c' ∧
    ∀ t, t ∈ threads c → t ≠ TSendHeartbeats p true → t ∈ threads c'.
Proof using Type.
  intros Hs Hp Hd Hst. destruct (started_loops _ _ _ Hs _ _ Hp Hd) as (_ & _ & Hb).
  destruct (Hb Hst) as (t0 & Ht0 & Hs0).
  destruct t0 as [| | | |q|q []| | |]; try done; injection Hs0 as ->.
  - exists c. split_and!; [apply leads_refl|done|done|done].
  - apply list_elem_of_lookup in Ht0 as [k Hk].
    set (c1 := mkCluster (nodes c) (elections c) (respawn k (beats p rf ++ [THeartbeatLoop p]) (threads c))
      (net c) (replies c) (applied c)).
    assert (E1 : cluster_step c (EvRun k) = Some c1).
    { simpl. unfold runThread. by rewrite Hk, Hp. }
    exists c1. split_and!; [by eapply (leads_step c (EvRun k))|done| |].
    + apply respawn_new, elem_of_app. right. by left.
    + intros t Ht Hne. by eapply respawn_keeps.
Qed.

(** It starts a goroutine for every other peer. *)
Lemma beat_spawn (p : nat) c rf q :
  nodes c !! p = Some rf → state rf = Leader → dead rf = false → THeartbeatLoop p ∈ threads c → q ∈ otherPeers rf →
  ∃ c' k, leads_to c c' ∧ nodes c' = nodes c ∧ applied c' = applied c ∧
    threads c' !! k = Some (TBeat p q (currentTerm rf) (Z.of_nat (me rf)) (commitIndex rf)) ∧
    ∀ t, t ∈ threads c → t ≠ TSendHeartbeats p true → t ∈ threads c'.
Proof using Type.
  intros Hp Hst Hd Hb Hq. apply list_elem_of_lookup in Hb as [k Hk].
  set (c1 := mkCluster (nodes c) (elections c) (respawn k [TSendHeartbeats p true] (threads c)) (net c)
              (replies c) (applied c)).
  assert (E1 : cluster_step c (EvRun k) = Some c1).
  { simpl. unfold runThread. rewrite Hk, Hp. cbn [mbind option_bind]. unfold killed.
    by rewrite Hd, decide_True by done. }
  destruct (list_elem_of_lookup_1 (threads c1) (TSendHeartbeats p true)) as [k1 Hk1];
    [apply respawn_new; by left|].
  set (c2 := mkCluster (nodes c) (elections c) (respawn k1 (beats p rf ++ [THeartbeatLoop p]) (threads c1))
              (net c) (replies c) (applied c)).
  assert (E2 : cluster_step c1 (EvRun k1) = Some c2).
  { simpl. unfold runThread. rewrite Hk1. change (nodes c1) with (nodes c). by rewrite Hp. }
  destruct (list_elem_of_lookup_1 (threads c2) (TBeat p q (currentTerm rf) (Z.of_nat (me rf)) (commitIndex rf))) as [k2 Hk2].
  { apply respawn_new, elem_of_app. left. unfold beats, sendHeartbeats. apply list_elem_of_fmap. by exists q. }
  exists c2, k2. split_and!; [|done|done|done|].
  - eapply leads_trans; [apply (leads_step c (EvRun k) c1 eq_refl E1)|apply (leads_step c1 (EvRun k1) c2 eq_refl E2)].
  - intros t Ht Hne. assert (Hdec : t = THeartbeatLoop p ∨ t ≠ THeartbeatLoop p).
    { destruct t as [| | | |q2| | | |]; try by right. destruct (decide (q2 = p)) as [->|]; [by left|right; congruence]. }
    destruct Hdec as [->|Hne2]; [apply respawn_new, elem_of_app; right; by left|].
    eapply respawn_keeps; [done| |done]. by eapply respawn_keeps.
Qed.

(** ** A call and its reply *)

(** Goroutine [t0] of [p] sends [call] to [q] and waits as [wait]; [q] serves it and becomes
    [rq']; the reply arrives and [p] becomes [rf']. *)
Lemma round_trip (p : nat) c rf q rq rf' rq' k t0 (wait : nat → thread Command) call reply :
  nodes c !! p = Some rf → q ≠ p → nodes c !! q = Some rq → threads c !! k = Some t0 →
  cluster_step c (EvRun k) = Some (mkCluster (nodes c) (elections c)
    (respawn k [wait (length (net c))] (threads c)) (net c ++ [(q, call)]) (replies c) (applied c)) →
  (∀ c1 i, net c1 !! i = Some (q, call) → nodes c1 !! q = Some rq →
     cluster_step c1 (EvServe i 0) = Some (mkCluster (<[q := rq']> (nodes c1)) (elections c1) (threads c1)
       (net c1) (replies c1 ++ [(i, reply)]) (applied c1))) →
  (∀ c2 i k2 j, threads c2 !! k2 = Some (wait i) → replies c2 !! j = Some (i, reply) → nodes c2 !! p = Some rf →
     cluster_step c2 (EvReply k2 j) = Some (mkCluster (<[p := rf']> (nodes c2)) (elections c2)
       (respawn k2 [] (threads c2)) (net c2) (replies c2) (applied c2))) →
  ∃ c', leads_to c c' ∧ nodes c' = <[p := rf']> (<[q := rq']> (nodes c)) ∧ applied c' = applied c ∧
    ∀ t, t ∈ threads c → t ≠ t0 → (∀ i, t ≠ wait i) → t ∈ threads c'.
Proof using Type.
  intros Hp Hqp Hq Hk E1 Hserve Hrecv. set (i := length (net c)) in *.
  set (c1 := mkCluster _ _ _ _ _ _) in E1.
  assert (E2 := Hserve c1 i ltac:(cbn; unfold i; by rewrite lookup_app_r, Nat.sub_diag by lia) Hq).
  set (c2 := mkCluster _ _ _ _ _ _) in E2.
  destruct (list_elem_of_lookup_1 (threads c2) (wait i)) as [k2 Hk2]; [apply respawn_new; by left|].
  assert (Hp2 : nodes c2 !! p = Some rf) by (cbn; by rewrite list_lookup_insert_ne by done).
  assert (E3 := Hrecv c2 i k2 (length (replies c)) Hk2
    ltac:(cbn; by rewrite lookup_app_r, Nat.sub_diag by lia) Hp2).
  set (c3 := mkCluster _ _ _ _ _ _) in E3. exists c3. split_and!; [|done|done|].
  - eapply leads_trans; [apply (leads_step c (EvRun k) c1 eq_refl E1)|].
    eapply leads_trans; [apply (leads_step c1 (EvServe i 0) c2 eq_refl E2)|].
    apply (leads_step c2 (EvReply k2 (length (replies c))) c3 eq_refl E3).
  - intros t Ht Hne Hw. eapply respawn_keeps; [done| |apply Hw]. by eapply respawn_keeps.
Qed.

Lemma append_round_trip (p : nat) c rf q rq rf' rq' args r k T lid commit :
  nodes c !! p = Some rf → q ≠ p → nodes c !! q = Some rq → threads c !! k = Some (TBeat p q T lid commit) →
  heartbeatBegin rf q T lid commit = Some (HBAppend args) → AppendEntries rq args 0 = Some (rq', r) →
  handleAppendReply rf q args r = Some rf' →
  ∃ c', leads_to c c' ∧ nodes c' = <[p := rf']> (<[q := rq']> (nodes c)) ∧ applied c' = applied c ∧
    ∀ t, is_Some (slot t) → t ∈ threads c → t ∈ threads c'.
Proof using Type.
  intros Hp Hqp Hq Hk Hb Ha Hh.
  destruct (round_trip p c rf q rq rf' rq' k (TBeat p q T lid commit) (λ i, TAppendCall p q i args)
           (CallAppend args) (ReplyAppend r)) as (c' & H & Hn & Hap & Hkeep); try done.
  - simpl. unfold runThread. rewrite Hk, Hp. cbn [mbind option_bind]. by rewrite Hb.
  - intros c1 i Hi Hq1. simpl. unfold serve. rewrite Hi. cbn [mbind option_bind]. rewrite Hq1.
    cbn [mbind option_bind]. by rewrite Ha.
  - intros c2 i k2 j Hk2 Hj Hp2. simpl. unfold receive. rewrite Hj. cbn [mbind option_bind]. rewrite Hk2.
    cbn [mbind option_bind]. rewrite decide_True by done. rewrite Hp2. cbn [mbind option_bind]. by rewrite Hh.
  - exists c'. split_and!; [done..|]. intros t [s Hs] Ht. apply Hkeep; [done|by intros ->|by intros i ->].
Qed.

Lemma snapshot_round_trip (p : nat) c rf q rq rf' rq' args r k T lid commit :
  nodes c !! p = Some rf → q ≠ p → nodes c !! q = Some rq → threads c !! k = Some (TBeat p q T lid commit) →
  heartbeatBegin rf q T lid commit = Some (HBSnapshot args) → InstallSnapshot rq args 0 = Some (rq', r) →
  handleSnapshotReply rf q args r = Some rf' →
  ∃ c', leads_to c c' ∧ nodes c' = <[p := rf']> (<[q := rq']> (nodes c)) ∧ applied c' = applied c ∧
    ∀ t, is_Some (slot t) → t ∈ threads c → t ∈ threads c'.
Proof using Type.
  intros Hp Hqp Hq Hk Hb Ha Hh.
  destruct (round_trip p c rf q rq rf' rq' k (TBeat p q T lid commit) (λ i, TSnapshotCall p q i args)
           (CallSnapshot args) (ReplySnapshot r)) as (c' & H & Hn & Hap & Hkeep); try done.
  - simpl. unfold runThread. rewrite Hk, Hp. cbn [mbind option_bind]. by rewrite Hb.
  - intros c1 i Hi Hq1. simpl. unfold serve. rewrite Hi. cbn [mbind option_bind]. rewrite Hq1.
    cbn [mbind option_bind]. by rewrite Ha.
  - intros c2 i k2 j Hk2 Hj Hp2. simpl. unfold receive. rewrite Hj. cbn [mbind option_bind]. rewrite Hk2.
    cbn [mbind option_bind]. rewrite decide_True by done. rewrite Hp2. cbn [mbind option_bind]. by rewrite Hh.
  - exists c'. split_and!; [done..|]. intros t [s Hs] Ht. apply Hkeep; [done|by intros ->|by intros i ->].
Qed.

End Loops.
