(* ===== verification/ClusterProgress.v ===== *)
(** * Progress: a leader can always be elected

    Whatever a run of two or more peers has come to - restarts, lost messages, any terms
    and logs - if all peers are alive, it can go on to a state with a leader whose term
    nobody is ahead of, and no peer has to be restarted for it.  The argument has three
    phases: the peer with the best log delivers what its apply loop has begun, and, if it
    leads with an old term, is told so by a reply; it stands for election until its term is
    new; and it collects votes of the others one by one. *)
From Stdlib Require Import ZArith Lia.
From stdpp Require Import base tactics list strings numbers option.
From S2P Require Import Prelude.
From S2P Require Import Gob.
From S2P Require Import Persister.
From S2P Require Import RaftNode.
From S2P Require Import RaftLog.
From S2P Require Import RaftOps.
From S2P Require Import RaftTheorems.
From S2P Require Import History.
From S2P Require Import Cluster.
From S2P Require Import ClusterVotes.
From S2P Require Import ClusterSafety.
From S2P Require Import ClusterInv.
From S2P Require Import ClusterSteps.
From S2P Require Import ClusterEffects.
From S2P Require Import ClusterSnapshots.
From S2P Require Import ClusterLog.
From S2P Require Import ClusterTotal.
From S2P Require Import ClusterLoops.

Local Open Scope Z_scope.

Section Progress.
Context {Command : Type} {gobZ : Gob Z} {gobLog : Gob (list (LogEntry Command))}.
Implicit Types (rf : Raft Command) (c : cluster Command).

(** Peer [p] leads in term [T], which nobody is ahead of, and its goroutines run. *)
Record leading (p : nat) (T : Z) c rf : Prop := {
  ld_node : nodes c !! p = Some rf;
  ld_state : state rf = Leader;
  ld_term : currentTerm rf = T;
  ld_alive : dead rf = false;
  ld_pending : pendingSnapshot rf = None;
  ld_beat : THeartbeatLoop p ∈ threads c;
  ld_apply : TApplyLoop p ApplyTop ∈ threads c;
  ld_terms : ∀ q rq, nodes c !! q = Some rq → currentTerm rq <= T
}.

(** ** Phase 3: collecting votes *)

(** Peer [p] stands for term [T] with [v] votes, and has yet to ask [todo]; all of them
    would grant [args]. *)
Record campaign (p : nat) (T : Z) (args : RequestVoteArgs) (maj v : Z) (todo : list nat) c (cell : nat) : Prop := {
  ca_node : ∃ rf, nodes c !! p = Some rf ∧ state rf = Candidate ∧ currentTerm rf = T ∧ majority rf = maj ∧
    dead rf = false ∧ pendingSnapshot rf = None;
  ca_cell : elections c !! cell = Some (mkElection p T v);
  ca_nodup : NoDup todo;
  ca_todo : ∀ q, q ∈ todo → q ≠ p ∧ TVote p cell q args ∈ threads c ∧
    ∃ rq, nodes c !! q = Some rq ∧ log_ok rq ∧ currentTerm rq <= T ∧ rv_grants rq args;
  ca_votes : v < maj <= v + zlen todo;
  ca_apply : TApplyLoop p ApplyTop ∈ threads c;
  ca_terms : ∀ q rq, nodes c !! q = Some rq → currentTerm rq <= T;
  ca_args : rva_Term args = T
}.

(** [q] is asked for its vote and the reply arrives. *)
Lemma vote_exchange (p q cell : nat) T v args c rf rq rf' rq' v' won r :
  nodes c !! p = Some rf → nodes c !! q = Some rq → q ≠ p →
  elections c !! cell = Some (mkElection p T v) → TVote p cell q args ∈ threads c →
  RequestVote rq args 0 = Some (rq', r) → handleVoteReply rf T v r = (rf', v', won) →
  ∃ c', leads_to c c' ∧ nodes c' = <[p := rf']> (<[q := rq']> (nodes c)) ∧
    elections c' = <[cell := mkElection p T v']> (elections c) ∧
    (won = true → THeartbeatLoop p ∈ threads c') ∧
    ∀ t, t ∈ threads c → t ≠ TVote p cell q args → (∀ i, t ≠ TVoteCall p cell q i) → t ∈ threads c'.
Proof using Type.
  intros Hp Hrq Hqp Hcell [k Hk]%list_elem_of_lookup Hrv Eh. set (req := length (net c)).
  set (c1 := mkCluster (nodes c) (elections c) (respawn k [TVoteCall p cell q req] (threads c))
              (net c ++ [(q, CallVote args)]) (replies c) (applied c)).
  set (c2 := mkCluster (<[q := rq']> (nodes c)) (elections c) (threads c1) (net c1)
              (replies c ++ [(req, ReplyVote r)]) (applied c)).
  assert (E1 : cluster_step c (EvRun k) = Some c1) by (simpl; unfold runThread; by rewrite Hk).
  assert (E2 : cluster_step c1 (EvServe req 0) = Some c2).
  { simpl. unfold serve. cbn [net c1 nodes]. unfold req at 1. rewrite lookup_app_r, Nat.sub_diag by lia.
    cbn [mbind option_bind lookup list_lookup]. rewrite Hrq. cbn [mbind option_bind]. by rewrite Hrv. }
  destruct (list_elem_of_lookup_1 (threads c2) (TVoteCall p cell q req)) as [k2 Hk2];
    [apply respawn_new; by left|].
  set (c3 := mkCluster (<[p := rf']> (nodes c2)) (<[cell := mkElection p T v']> (elections c2))
              (respawn k2 (if won then [THeartbeatLoop p] else []) (threads c2)) (net c2) (replies c2) (applied c2)).
  assert (E3 : cluster_step c2 (EvReply k2 (length (replies c))) = Some c3).
  { simpl. unfold receive. cbn [replies c2]. rewrite lookup_app_r, Nat.sub_diag by lia.
    cbn [mbind option_bind lookup list_lookup]. rewrite Hk2. cbn [mbind option_bind].
    rewrite decide_True by done. cbn [nodes c2]. rewrite list_lookup_insert_ne by done. rewrite Hp.
    cbn [mbind option_bind]. change (elections c2) with (elections c). rewrite Hcell.
    cbn [mbind option_bind el_term el_votes el_cand]. by rewrite Eh. }
  exists c3. split_and!; [|done|done|intros ->; apply respawn_new; by left|].
  - eapply leads_trans; [apply (leads_step c (EvRun k) c1 eq_refl E1)|].
    eapply leads_trans; [apply (leads_step c1 (EvServe req 0) c2 eq_refl E2)|].
    apply (leads_step c2 (EvReply k2 (length (replies c))) c3 eq_refl E3).
  - intros t Hin Hne Hcall. eapply respawn_keeps; [done| |apply Hcall]. by eapply respawn_keeps.
Qed.

(** One peer is asked and grants its vote. *)
Lemma ask_one p T args maj v q todo c cell :
  campaign p T args maj v (q :: todo) c cell →
  ∃ c', leads_to c c' ∧ ((∃ rf, leading p T c' rf) ∨
                         campaign p T args maj (v + 1) todo c' cell).
Proof using Type.
  intros [(rf & Hp & Hst & HT & Hmaj & Hd & Hpd) Hcell Hnd Htodo Hv Hap Hterms Hargs].
  pose proof (NoDup_cons_1_1 _ _ Hnd) as Hq. apply NoDup_cons_1_2 in Hnd.
  destruct (Htodo q ltac:(by left)) as (Hqp & Hth & rq & Hrq & Hok & Hle & Hgr).
  destruct (RequestVote_spec rq args 0 Hok) as (rq' & g & Hrv & Hg & Htq & _).
  assert (g = true) as -> by by apply Hg.
  destruct (handleVoteReply rf T v (mkRVReply (currentTerm rq) true)) as [[rf' v'] won] eqn:Eh.
  destruct (vote_exchange p q cell T v args c rf rq rf' rq' v' won _ Hp Hrq Hqp Hcell Hth Hrv Eh)
    as (c3 & H3 & Hn3 & Hel3 & Hbeat & Hkeep).
  exists c3. split; [done|].
  assert (Hp3 : nodes c3 !! p = Some rf').
  { rewrite Hn3. apply list_lookup_insert_eq. rewrite length_insert. by eapply lookup_lt_Some. }
  assert (Hap3 : TApplyLoop p ApplyTop ∈ threads c3) by by apply Hkeep.
  assert (Hterms3 : currentTerm rf' <= T → ∀ q2 rq2, nodes c3 !! q2 = Some rq2 → currentTerm rq2 <= T).
  { rewrite Hn3. intros Hrf' q2 rq2 [(<- & <- & _)|(_ & H2)]%list_lookup_insert_Some; [done|].
    apply list_lookup_insert_Some in H2 as [(<- & <- & _)|(_ & H2)]; [lia|by eapply Hterms]. }
  unfold handleVoteReply in Eh. rewrite HT, Z.eqb_refl in Eh. rewrite bool_decide_false in Eh by (rewrite Hst; auto).
  simpl in Eh. destruct (Z.gtb_spec (currentTerm rq) T); [lia|]. rewrite Hmaj in Eh.
  destruct (Z.geb_spec (v + 1) maj); injection Eh as <- <- <-.
  - left. exists (becomeLeader rf). constructor; try done; [by apply Hbeat|]. apply Hterms3. simpl. lia.
  - right. constructor; [by exists rf| |done| | |done|by apply Hterms3; lia|done].
    + rewrite Hel3. apply list_lookup_insert_eq. by eapply lookup_lt_Some.
    + intros q2 Hq2. destruct (Htodo q2 ltac:(by right)) as (Hne & Hth2 & rq2 & Hrq2 & H2).
      assert (q2 ≠ q) by (intros ->; done).
      split_and!; [done|apply Hkeep; [done|congruence|done]|].
      exists rq2. split; [|done]. by rewrite Hn3, !list_lookup_insert_ne by done.
    + unfold zlen in *. simpl in Hv. lia.
Qed.

Lemma campaign_wins p T args maj v todo c cell :
  campaign p T args maj v todo c cell → ∃ c' rf, leads_to c c' ∧ leading p T c' rf.
Proof using Type.
  revert v c. induction todo as [|q todo IH]; intros v c Hc.
  { pose proof (ca_votes _ _ _ _ _ _ _ _ Hc) as Hv. unfold zlen in Hv. simpl in Hv. lia. }
  destruct (ask_one _ _ _ _ _ _ _ _ _ Hc) as (c1 & H1 & [[rf Hl]|Hc1]); [by exists c1, rf|].
  destruct (IH _ _ Hc1) as (c2 & rf & H2 & Hl). exists c2, rf. split; [by eapply leads_trans|done].
Qed.

(** ** Phase 2: standing for election *)
Lemma mapM_always {A B} (f : A → B) (g : A → option B) l :
  (∀ x, g x = Some (f x)) → mapM g l = Some (f <$> l).
Proof using Type. intros H. induction l as [|x l IH]; [done|]. simpl. by rewrite H, IH. Qed.

Lemma electionTimeout_starts rf t :
  state rf ≠ Leader → logTerm rf (lastLogIndex rf) = Some t →
  let rf' := persist (set_votedFor (Z.of_nat (me rf)) (set_currentTerm (currentTerm rf + 1) (set_state Candidate rf))) in
  electionTimeout rf (lastHeartbeat rf + 250) 250 = Some (rf', Some (currentTerm rf + 1,
    (λ q, (q, mkRVArgs (currentTerm rf + 1) (Z.of_nat (me rf)) (lastLogIndex rf) t)) <$> otherPeers rf)).
Proof using Type.
  intros Hs Ht rf'. unfold electionTimeout. rewrite bool_decide_true by done.
  destruct (Z.geb_spec (lastHeartbeat rf + 250 - lastHeartbeat rf) 250); [|lia]. simpl andb. cbn iota.
  unfold startElection. cbn zeta. change (otherPeers (persist _)) with (otherPeers rf).
  rewrite (mapM_always (λ q, (q, mkRVArgs (currentTerm rf + 1) (Z.of_nat (me rf)) (lastLogIndex rf) t))).
  - done.
  - intros q. change (logTerm _ _) with (logTerm rf (lastLogIndex rf)). by rewrite Ht.
Qed.

(** Peer [p] of [c] is [rf], alive and not leading, with the log of [rf0]; the other
    peers are those of [c0]. *)
Record standing (p : nat) rf0 (c0 c : cluster Command) rf : Prop := {
  sd_node : nodes c !! p = Some rf;
  sd_state : state rf ≠ Leader;
  sd_alive : dead rf = false;
  sd_pending : pendingSnapshot rf = None;
  sd_log : log rf = log rf0 ∧ lastIncludedIndex rf = lastIncludedIndex rf0 ∧
           lastIncludedTerm rf = lastIncludedTerm rf0 ∧ me rf = p ∧ length (peers rf) = length (nodes c0);
  sd_loop : TElectionLoop p ∈ threads c;
  sd_apply : TApplyLoop p ApplyTop ∈ threads c;
  sd_others : ∀ q, q ≠ p → nodes c !! q = nodes c0 !! q
}.

Lemma stand_once p rf0 c0 c rf t :
  standing p rf0 c0 c rf → logTerm rf (lastLogIndex rf) = Some t →
  ∃ c' rf', leads_to c c' ∧ standing p rf0 c0 c' rf' ∧ state rf' = Candidate ∧
    currentTerm rf' = currentTerm rf + 1 ∧
    elections c' !! length (elections c) = Some (mkElection p (currentTerm rf') 1) ∧
    ∀ q, q ∈ otherPeers rf' →
      TVote p (length (elections c)) q (mkRVArgs (currentTerm rf') (Z.of_nat p) (lastLogIndex rf') t) ∈ threads c'.
Proof using Type.
  intros [Hp Hs Hd Hpd (Hl & Hlii & Hlit & Hme & Hn) Hth Hap Ho] Ht. apply list_elem_of_lookup in Hth as [k Hk].
  pose proof (electionTimeout_starts rf t Hs Ht) as E. cbn zeta in E.
  set (rf' := persist _) in E. set (calls := _ <$> _) in E.
  set (c' := mkCluster (<[p := rf']> (nodes c)) (elections c ++ [mkElection p (currentTerm rf + 1) 1])
    (respawn k ((if killed rf' then [] else [TElectionLoop p]) ++
       ((λ '(peer, args), TVote p (length (elections c)) peer args) <$> calls)) (threads c))
    (net c) (replies c) (applied c)).
  assert (Es : cluster_step c (EvElection k (lastHeartbeat rf + 250) 250) = Some c').
  { simpl. unfold runElection. rewrite Hk, Hp. cbn [mbind option_bind]. by rewrite E. }
  assert (Hk' : killed rf' = false) by exact Hd.
  exists c', rf'. split; [apply (leads_step c (EvElection k (lastHeartbeat rf + 250) 250) c' eq_refl Es)|]. split_and!; try done.
  - constructor; try done.
    + cbn. apply list_lookup_insert_eq. by eapply lookup_lt_Some.
    + apply respawn_new. rewrite Hk'. by left.
    + by eapply respawn_keeps.
    + intros q Hq. cbn. rewrite list_lookup_insert_ne by done. by apply Ho.
  - cbn. by rewrite lookup_app_r, Nat.sub_diag by lia.
  - intros q Hq. apply respawn_new, elem_of_app. right. unfold calls.
    rewrite <- list_fmap_compose. apply list_elem_of_fmap. exists q. split; [|done].
    cbn. by rewrite <- Hme.
Qed.

Lemma raise_term p rf0 c0 c rf t K :
  standing p rf0 c0 c rf → logTerm rf0 (lastLogIndex rf0) = Some t →
  ∃ c' rf', leads_to c c' ∧ standing p rf0 c0 c' rf' ∧ K <= currentTerm rf'.
Proof using Type.
  intros Hst Ht. remember (Z.to_nat (K - currentTerm rf)) as k eqn:Ek.
  revert c rf Hst Ek. induction k as [|k IH]; intros c rf Hst Ek.
  { exists c, rf. split_and!; [apply leads_refl|done|lia]. }
  assert (Ht' : logTerm rf (lastLogIndex rf) = Some t).
  { rewrite <- Ht. destruct (sd_log _ _ _ _ _ Hst) as (Hl & Hlii & Hlit & _).
    unfold logTerm, lastLogIndex, logIndex. by rewrite Hl, Hlii, Hlit. }
  destruct (stand_once _ _ _ _ _ _ Hst Ht') as (c1 & rf1 & H1 & Hst1 & _ & Hterm & _).
  destruct (IH c1 rf1 Hst1) as (c2 & rf2 & H2 & Hst2 & HK); [lia|].
  exists c2, rf2. split_and!; [by eapply leads_trans|done|done].
Qed.

(** ** Phase 1: the best log *)
Definition last_entry rf (t i : Z) : Prop := logTerm rf (lastLogIndex rf) = Some t ∧ i = lastLogIndex rf.

(** Every peer of [l] would accept a candidate whose log ends at [i] in term [t]. *)
Definition best (l : list (Raft Command)) (t i : Z) : Prop :=
  ∀ rf t' i', rf ∈ l → last_entry rf t' i' → t' < t ∨ t' = t ∧ i' <= i.

Lemma best_exists (l : list (Raft Command)) :
  l ≠ [] → (∀ rf, rf ∈ l → log_ok rf) → ∃ rf t i, rf ∈ l ∧ last_entry rf t i ∧ best l t i.
Proof using Type.
  intros Hne Hok. induction l as [|rf l IH]; [done|].
  destruct (logTerm_is_Some rf (lastLogIndex rf)) as [t Ht].
  { pose proof (lastLogIndex_ge rf (Hok rf ltac:(by left))). lia. }
  destruct (decide (l = [])) as [->|Hl].
  { exists rf, t, (lastLogIndex rf). split_and!; [by left|done|]. intros rf2 t' i' [->|Hin]%elem_of_cons [Ht' ->];
      [|by apply not_elem_of_nil in Hin]. right. split; [congruence|lia]. }
  destruct IH as (rf2 & t2 & i2 & Hin & He & Hb); [done|intros; apply Hok; by right|].
  destruct (decide (t < t2 ∨ t = t2 ∧ lastLogIndex rf <= i2)) as [Hle|Hgt].
  - exists rf2, t2, i2. split_and!; [by right|done|]. intros rf3 t' i' [->|Hin3]%elem_of_cons He3.
    + destruct He3 as [Ht' ->]. rewrite Ht in Ht'. injection Ht' as <-. done.
    + by eapply Hb.
  - exists rf, t, (lastLogIndex rf). split_and!; [by left|done|]. intros rf3 t' i' [->|Hin3]%elem_of_cons He3.
    + destruct He3 as [Ht' ->]. right. split; [congruence|lia].
    + destruct (Hb rf3 t' i' Hin3 He3); lia.
Qed.

Lemma terms_bounded (l : list (Raft Command)) : ∃ K, ∀ rf, rf ∈ l → currentTerm rf < K.
Proof using Type.
  induction l as [|rf l [K HK]]; [exists 0; by intros rf ?%not_elem_of_nil|].
  exists (Z.max K (currentTerm rf + 1)). intros rf2 [->|Hin]%elem_of_cons; [lia|].
  specialize (HK rf2 Hin). lia.
Qed.

Lemma last_entry_same rf rf' :
  log rf' = log rf → lastIncludedIndex rf' = lastIncludedIndex rf →
  lastIncludedTerm rf' = lastIncludedTerm rf →
  lastLogIndex rf' = lastLogIndex rf ∧ logTerm rf' (lastLogIndex rf') = logTerm rf (lastLogIndex rf).
Proof using Type. unfold lastLogIndex, logTerm, logIndex, zlen. intros Hl Hi Ht. by rewrite Hl, Hi, Ht. Qed.

Lemma otherPeers_length rf : (me rf < length (peers rf))%nat → zlen (otherPeers rf) = zlen (peers rf) - 1.
Proof using Type.
  intros Hme. unfold zlen.
  assert (Hp : me rf :: otherPeers rf ≡ₚ seq 0 (length (peers rf))).
  { apply NoDup_Permutation.
    - constructor; [|apply otherPeers_NoDup]. intros [_ H]%otherPeers_lt. done.
    - apply NoDup_seq.
    - intros x. rewrite elem_of_cons, elem_of_seq. split.
      + intros [->|[? _]%otherPeers_lt]; lia.
      + intros [_ Hx]. destruct (decide (x = me rf)) as [->|Hne]; [by left|right].
        unfold otherPeers. rewrite list_elem_of_In, List.filter_In, List.in_seq.
        split; [lia|]. by apply negb_true_iff, Nat.eqb_neq. }
  apply Permutation_length in Hp. rewrite length_seq in Hp. simpl in Hp. lia.
Qed.

Lemma otherPeers_elem rf q : (q < length (peers rf))%nat → q ≠ me rf → q ∈ otherPeers rf.
Proof using Type.
  intros Hq Hne. unfold otherPeers. rewrite list_elem_of_In, List.filter_In, List.in_seq.
  split; [lia|]. by apply negb_true_iff, Nat.eqb_neq.
Qed.

(** A leader with an old term learns of the new one from the reply to a heartbeat. *)
Lemma stale_reply n h t (p q : nat) w rf args T :
  leader_role n h t p w rf → state rf = Leader → (q < n)%nat → aea_Term args = currentTerm rf → currentTerm rf < T →
  ∃ rf', handleAppendReply rf q args (mkAEReply T false (-1) 0) = Some rf' ∧ state rf' = Follower ∧
    log rf' = log rf ∧ lastIncludedIndex rf' = lastIncludedIndex rf ∧ lastIncludedTerm rf' = lastIncludedTerm rf ∧
    me rf' = me rf ∧ peers rf' = peers rf ∧ dead rf' = dead rf ∧ pendingSnapshot rf' = pendingSnapshot rf.
Proof using Type.
  intros Hr Hst Hq Ht Hlt. unfold handleAppendReply.
  rewrite bool_decide_false by (rewrite Hst; auto). rewrite Ht, Z.eqb_refl. cbn [orb negb aer_Term aer_Success].
  destruct (Z.gtb_spec T (currentTerm rf)); [|lia]. unfold backUp. cbn [aer_ConflictTerm aer_ConflictIndex].
  rewrite Z.eqb_refl. cbn [mbind option_bind]. change (0 <? 1) with true. cbn iota.
  pose proof (lr_next_len _ _ _ _ _ _ Hr) as Hl.
  rewrite idx_set_ok by (cbn; unfold zlen; lia). cbn [mbind option_bind]. eexists. by split_and!.
Qed.

Lemma stale_snapshot_reply rf q args T :
  state rf = Leader → isa_Term args = currentTerm rf → currentTerm rf < T →
  ∃ rf', handleSnapshotReply rf q args (mkISReply T) = Some rf' ∧ state rf' = Follower ∧
    log rf' = log rf ∧ lastIncludedIndex rf' = lastIncludedIndex rf ∧ lastIncludedTerm rf' = lastIncludedTerm rf ∧
    me rf' = me rf ∧ peers rf' = peers rf ∧ dead rf' = dead rf ∧ pendingSnapshot rf' = pendingSnapshot rf.
Proof using Type.
  intros Hst Ht Hlt. unfold handleSnapshotReply.
  rewrite bool_decide_false by (rewrite Hst; auto). rewrite Ht, Z.eqb_refl. cbn [orb negb isr_Term].
  destruct (Z.gtb_spec T (currentTerm rf)); [|lia]. eexists. by split_and!.
Qed.

(** Peer [p], alive and settled, and its goroutines. *)
Record steady (p : nat) c rf : Prop := {
  sy_node : nodes c !! p = Some rf;
  sy_alive : dead rf = false;
  sy_pending : pendingSnapshot rf = None;
  sy_me : me rf = p;
  sy_peers : length (peers rf) = length (nodes c);
  sy_loop : TElectionLoop p ∈ threads c;
  sy_apply : TApplyLoop p ApplyTop ∈ threads c;
  sy_beat : state rf = Leader → THeartbeatLoop p ∈ threads c
}.

Lemma steady_standing (p : nat) c rf : steady p c rf → state rf ≠ Leader → standing p rf c c rf.
Proof using Type. intros [] Hst. by constructor. Qed.

Lemma steps_down ps now (p q : nat) c rf rq :
  started ps now c → steady p c rf → state rf = Leader →
  nodes c !! q = Some rq → currentTerm rf < currentTerm rq →
  ∃ c' rf', leads_to c c' ∧ standing p rf c c' rf'.
Proof using Type.
  intros Hs [Hp Hd Hpd Hme Hpe Hloop Hap Hb] Hst Hq Hlt. destruct (good_started _ _ _ Hs) as (h & Hi & Hl).
  assert (Hqp : q ≠ p) by (intros ->; rewrite Hp in Hq; injection Hq as ->; lia).
  assert (Hqn : (q < length ps)%nat) by (rewrite <- (inv_len _ _ Hi); by eapply lookup_lt_Some).
  assert (Hqo : q ∈ otherPeers rf).
  { apply otherPeers_elem; [|by rewrite Hme]. rewrite Hpe. by eapply lookup_lt_Some. }
  pose proof (li_core _ _ _ Hl _ _ Hp) as Hc. pose proof (li_role _ _ _ Hl _ _ Hp) as Hr.
  destruct (beat_spawn p c rf q Hp Hst Hd (Hb Hst) Hqo) as (c1 & k & H1 & Hn1 & _ & Hk & Hk1).
  rewrite <- Hn1 in Hp, Hq.
  destruct (heartbeatBegin_total _ h _ p _ rf q (currentTerm rf) (Z.of_nat (me rf)) (commitIndex rf) Hc Hr Hqn)
    as [action Eb].
  unfold role_ok in Hr. rewrite Hst in Hr.
  assert (Hend : ∀ c2 rf2, leads_to c1 c2 → nodes c2 = <[p := rf2]> (<[q := rq]> (nodes c1)) →
    state rf2 = Follower ∧ log rf2 = log rf ∧ lastIncludedIndex rf2 = lastIncludedIndex rf ∧
    lastIncludedTerm rf2 = lastIncludedTerm rf ∧ me rf2 = me rf ∧ peers rf2 = peers rf ∧ dead rf2 = dead rf ∧
    pendingSnapshot rf2 = pendingSnapshot rf →
    (∀ t, is_Some (slot t) → t ∈ threads c1 → t ∈ threads c2) → ∃ c' rf', leads_to c c' ∧ standing p rf c c' rf').
  { intros c2 rf2 H2 Hn2 (Hst2 & Hlog & Hlii & Hlit & Hme2 & Hpe2 & Hd2 & Hpd2) Hk2. exists c2, rf2.
    split; [by eapply leads_trans|]. constructor.
    - rewrite Hn2. apply list_lookup_insert_eq. rewrite length_insert. by eapply lookup_lt_Some.
    - by rewrite Hst2.
    - by rewrite Hd2.
    - by rewrite Hpd2.
    - split_and!; [done..|by rewrite Hme2|by rewrite Hpe2].
    - apply Hk2; [by eexists|by apply Hk1].
    - apply Hk2; [by eexists|by apply Hk1].
    - intros x Hx. rewrite Hn2, list_lookup_insert_ne, <- Hn1 by done.
      destruct (decide (x = q)) as [->|Hxq]; [|by rewrite list_lookup_insert_ne].
      rewrite list_lookup_insert_eq by (by eapply lookup_lt_Some). done. }
  destruct action as [|args|args].
  - unfold heartbeatBegin in Eb. rewrite decide_True in Eb by done.
    destruct (nextIndex rf !! q) as [ni|]; [|done]. cbn [mbind option_bind] in Eb.
    destruct (ni <=? _); [done|]. destruct (logTerm rf _); [|done]. cbn [mbind option_bind] in Eb.
    by destruct (slice_from _ _).
  - assert (Hat : isa_Term args = currentTerm rf).
    { clear - Eb Hst. unfold heartbeatBegin in Eb. rewrite decide_True in Eb by done.
      destruct (nextIndex rf !! q) as [ni|]; [|done]. cbn [mbind option_bind] in Eb.
      destruct (ni <=? _); [by injection Eb as <-|]. destruct (logTerm rf _); [|done]. cbn [mbind option_bind] in Eb.
      by destruct (slice_from _ _). }
    destruct (stale_snapshot_reply rf q args (currentTerm rq) Hst Hat Hlt) as (rf2 & Eh & Hrf2).
    assert (Ei : InstallSnapshot rq args 0 = Some (rq, mkISReply (currentTerm rq))).
    { unfold InstallSnapshot. destruct (Z.ltb_spec (isa_Term args) (currentTerm rq)); [done|lia]. }
    destruct (snapshot_round_trip p c1 rf q rq rf2 rq args _ k _ _ _ Hp Hqp Hq Hk Eb Ei Eh)
      as (c2 & H2 & Hn2 & _ & Hk2). by eapply Hend.
  - assert (Hat : aea_Term args = currentTerm rf).
    { destruct (heartbeatBegin_append _ _ _ _ _ _ (co_log _ _ _ _ _ Hc) Eb) as (_ & ni2 & _ & _ & Hat & _). done. }
    destruct (stale_reply _ h _ p q _ rf args (currentTerm rq) Hr Hst Hqn Hat Hlt) as (rf2 & Eh & Hrf2).
    assert (Ei : AppendEntries rq args 0 = Some (rq, mkAEReply (currentTerm rq) false (-1) 0)).
    { apply AppendEntries_stale. lia. }
    destruct (append_round_trip p c1 rf q rq rf2 rq args _ k _ _ _ Hp Hqp Hq Hk Eb Ei Eh)
      as (c2 & H2 & Hn2 & _ & Hk2). by eapply Hend.
Qed.

(** Peer [p] gets to a steady state with the log it has. *)
Lemma gets_steady ps now (p : nat) c rf :
  started ps now c → nodes c !! p = Some rf → dead rf = false →
  ∃ c' rf', leads_to c c' ∧ settled rf rf' ∧ nodes c' = <[p := rf']> (nodes c) ∧ steady p c' rf'.
Proof using Type.
  intros Hs Hp Hd. destruct (good_started _ _ _ Hs) as (h & Hi & Hl).
  destruct (started_loops _ _ _ Hs _ _ Hp Hd) as ((t0 & Ht0 & Hs0) & _).
  assert (t0 = TElectionLoop p) as ->.
  { destruct t0 as [| | | | |? []| | |]; try done. by injection Hs0 as ->. }
  destruct (settles _ _ _ _ _ Hs Hp Hd) as (c1 & rf1 & H1 & [x ->] & Hn1 & Ht1 & Hk1).
  set (rf1 := set_pendingSnapshot None _) in *.
  pose proof (leads_started _ _ _ _ Hs H1) as Hs1.
  assert (Hp1 : nodes c1 !! p = Some rf1) by (rewrite Hn1; apply list_lookup_insert_eq; by eapply lookup_lt_Some).
  destruct (inv_node _ _ Hi _ _ Hp) as (Hme & Hpe & _).
  assert (Hln : length (nodes c1) = length ps) by (rewrite Hn1, length_insert; apply (inv_len _ _ Hi)).
  assert (Hend : ∀ c2, leads_to c1 c2 → nodes c2 = nodes c1 → TElectionLoop p ∈ threads c2 →
    TApplyLoop p ApplyTop ∈ threads c2 → (state rf1 = Leader → THeartbeatLoop p ∈ threads c2) →
    ∃ c' rf', leads_to c c' ∧ settled rf rf' ∧ nodes c' = <[p := rf']> (nodes c) ∧ steady p c' rf').
  { intros c2 H2 Hn2 Hloop Hap Hb. exists c2, rf1. split_and!; [by eapply leads_trans|by exists x|by rewrite Hn2|].
    constructor; [by rewrite Hn2|done|done|exact Hme|by rewrite Hn2, Hln|done|done|done]. }
  destruct (decide (state rf1 = Leader)) as [Hst|Hst].
  - destruct (beat_loop _ _ _ _ _ Hs1 Hp1 Hd Hst) as (c2 & H2 & Hn2 & Hb & Hk2).
    apply (Hend c2); [done|done|apply Hk2; [by apply Hk1|done]|by apply Hk2|done].
  - apply (Hend c1); [apply leads_refl|done|by apply Hk1|done|done].
Qed.

(** A standing peer with the best log wins an election. *)
Lemma standing_wins ps now (p : nat) c c1 rf rf1 t :
  started ps now c → (2 <= length ps)%nat → nodes c !! p = Some rf → logTerm rf (lastLogIndex rf) = Some t →
  best (nodes c) t (lastLogIndex rf) → standing p rf c c1 rf1 →
  ∃ c' T rf', leads_to c1 c' ∧ leading p T c' rf' ∧ ∀ q rq, nodes c !! q = Some rq → currentTerm rq < T.
Proof using Type.
  intros Hs Hn Hp Ht Hb Hs1. destruct (good_started _ _ _ Hs) as (h & Hi & Hl).
  assert (Hlen : length (nodes c) = length ps) by apply (inv_len _ _ Hi).
  assert (Hok : ∀ rf, rf ∈ nodes c → log_ok rf).
  { intros rx [q Hq]%list_elem_of_lookup. apply (li_core _ _ _ Hl _ _ Hq). }
  destruct (terms_bounded (nodes c)) as [K HK].
  destruct (raise_term _ _ _ _ _ _ K Hs1 Ht) as (c2 & rf2 & H2 & Hs2 & HK2).
  destruct (sd_log _ _ _ _ _ Hs2) as (Hlog & Hlii & Hlit & Hme & Hpeers).
  destruct (last_entry_same _ _ Hlog Hlii Hlit) as [Hll2 Ht2]. rewrite Ht in Ht2.
  destruct (stand_once _ _ _ _ _ _ Hs2 Ht2) as (c3 & rf3 & H3 & Hs3 & Hst3 & HT & Hcell & Hvotes).
  destruct (sd_log _ _ _ _ _ Hs3) as (Hlog3 & Hlii3 & Hlit3 & Hme3 & Hpeers3).
  destruct (last_entry_same _ _ Hlog3 Hlii3 Hlit3) as [Hll3 _].
  assert (Hpn : (p < length ps)%nat) by (rewrite <- Hlen; by eapply lookup_lt_Some).
  assert (Hold : ∀ q rq, nodes c !! q = Some rq → currentTerm rq < currentTerm rf3).
  { intros q rq Hq. specialize (HK rq (list_elem_of_lookup_2 _ _ _ Hq)). lia. }
  assert (Hc : campaign p (currentTerm rf3) (mkRVArgs (currentTerm rf3) (Z.of_nat p) (lastLogIndex rf3) t)
                 (majority rf3) 1 (otherPeers rf3) c3 (length (elections c2))).
  { constructor; [|done|apply otherPeers_NoDup| | |by apply Hs3| |done].
    - exists rf3. split_and!; try done; apply Hs3.
    - intros q Hq. pose proof (otherPeers_lt _ _ Hq) as [Hlt Hne]. rewrite Hme3 in Hne.
      split_and!; [done|by apply Hvotes|].
      destruct (lookup_lt_is_Some_2 (nodes c) q) as [rq Hrq]; [lia|].
      specialize (Hold q rq Hrq). pose proof (Hok rq (list_elem_of_lookup_2 _ _ _ Hrq)) as Hokq.
      exists rq. split_and!; [by rewrite (sd_others _ _ _ _ _ Hs3)|done|lia|].
      unfold rv_grants. simpl. split_and!; [lia|by left|].
      destruct (logTerm_is_Some rq (lastLogIndex rq)) as [tq Htq].
      { pose proof (lastLogIndex_ge rq Hokq). lia. }
      exists tq. split; [done|]. simpl. rewrite Hll3.
      destruct (Hb rq tq _ (list_elem_of_lookup_2 _ _ _ Hrq) (conj Htq eq_refl)); lia.
    - rewrite otherPeers_length by (rewrite Hme3; lia). unfold majority, zlen.
      rewrite Hpeers3, Hlen. pose proof (Z.div_le_lower_bound (Z.of_nat (length ps)) 2 1).
      pose proof (Z.mul_div_le (Z.of_nat (length ps)) 2). lia.
    - intros q rq Hq. destruct (decide (q = p)) as [->|Hne].
      + rewrite (sd_node _ _ _ _ _ Hs3) in Hq. injection Hq as <-. lia.
      + rewrite (sd_others _ _ _ _ _ Hs3) in Hq by done. specialize (Hold q rq Hq). lia. }
  destruct (campaign_wins _ _ _ _ _ _ _ _ Hc) as (c4 & rf4 & H4 & Hlead).
  exists c4, (currentTerm rf3), rf4. split_and!; [|done|done]. exact (leads_trans _ _ _ H2 (leads_trans _ _ _ H3 H4)).
Qed.

Definition all_alive c : Prop := ∀ q rq, nodes c !! q = Some rq → dead rq = false.

Lemma all_alive_check c : forallb (λ rf, negb (dead rf)) (nodes c) = true → all_alive c.
Proof using Type.
  intros Hall q rq Hq. rewrite List.forallb_forall in Hall. specialize (Hall rq).
  rewrite <- list_elem_of_In in Hall. specialize (Hall (list_elem_of_lookup_2 _ _ _ Hq)). by destruct (dead rq).
Qed.

(** A peer with the best log gets to lead. *)
Lemma election_succeeds ps now c :
  started ps now c → (2 <= length ps)%nat → all_alive c →
  ∃ c' p T rf, leads_to c c' ∧ leading p T c' rf ∧ ∀ q rq, nodes c !! q = Some rq → currentTerm rq <= T.
Proof using Type.
  intros Hs Hn Halive. destruct (good_started _ _ _ Hs) as (h & Hi & Hl).
  assert (Hlen : length (nodes c) = length ps) by apply (inv_len _ _ Hi).
  destruct (best_exists (nodes c)) as (rf & t & i & Hin & [Ht ->] & Hb).
  { intros E. rewrite E in Hlen. simpl in Hlen. lia. }
  { intros rx [q Hq]%list_elem_of_lookup. apply (li_core _ _ _ Hl _ _ Hq). }
  apply list_elem_of_lookup in Hin as [p Hp].
  destruct (gets_steady ps now p c rf Hs Hp (Halive _ _ Hp)) as (c1 & rf1 & H1 & [x ->] & Hn1 & Hsy).
  set (rf1 := set_pendingSnapshot None _) in *. pose proof (leads_started _ _ _ _ Hs H1) as Hs1.
  assert (Hterms : ∀ q rq, nodes c !! q = Some rq → ∃ rq1, nodes c1 !! q = Some rq1 ∧ currentTerm rq1 = currentTerm rq).
  { intros q rq Hq. rewrite Hn1. destruct (decide (q = p)) as [->|Hne].
    - rewrite Hp in Hq. injection Hq as <-. exists rf1. split; [|done]. apply list_lookup_insert_eq. by eapply lookup_lt_Some.
    - exists rq. by rewrite list_lookup_insert_ne. }
  assert (Hb1 : best (nodes c1) t (lastLogIndex rf1)).
  { intros rx t' i' [q Hq]%list_elem_of_lookup He. rewrite Hn1 in Hq.
    apply list_lookup_insert_Some in Hq as [(<- & <- & _)|(_ & Hq)].
    - apply (Hb rf); [by eapply list_elem_of_lookup_2|exact He].
    - apply (Hb rx); [by eapply list_elem_of_lookup_2|done]. }
  assert (Hwin : ∀ c2 rf2, leads_to c1 c2 → standing p rf1 c1 c2 rf2 →
    ∃ c' p T rf, leads_to c c' ∧ leading p T c' rf ∧ ∀ q rq, nodes c !! q = Some rq → currentTerm rq <= T).
  { intros c2 rf2 H2 Hst. destruct (standing_wins ps now p c1 c2 rf1 rf2 t Hs1 Hn (sy_node _ _ _ Hsy) Ht Hb1 Hst)
      as (c3 & T & rf3 & H3 & Hl3 & HT). exists c3, p, T, rf3. split_and!; [|done|].
    - exact (leads_trans _ _ _ H1 (leads_trans _ _ _ H2 H3)).
    - intros q rq (rq1 & Hq1 & Hq)%Hterms. specialize (HT _ _ Hq1). lia. }
  destruct (decide (state rf1 = Leader)) as [Hst|Hst];
    [|apply (Hwin c1 rf1); [apply leads_refl|by apply steady_standing]].
  destruct (decide (Exists (λ rq, currentTerm rf1 < currentTerm rq) (nodes c1))) as [Hex|Hno].
  - apply List.Exists_exists in Hex as (rq & [q Hq]%list_elem_of_In%list_elem_of_lookup & Hlt).
    destruct (steps_down ps now p q c1 rf1 rq Hs1 Hsy Hst Hq Hlt) as (c2 & rf2 & H2 & Hst2). by eapply Hwin.
  - assert (Hmax : ∀ q rq, nodes c1 !! q = Some rq → currentTerm rq <= currentTerm rf1).
    { intros q rq Hq. destruct (decide (currentTerm rf1 < currentTerm rq)) as [Hlt|]; [|lia]. exfalso. apply Hno.
      apply List.Exists_exists. exists rq. split; [by eapply list_elem_of_In, list_elem_of_lookup_2|done]. }
    exists c1, p, (currentTerm rf1), rf1. split_and!; [done| |].
    + destruct Hsy. constructor; try done. by auto.
    + intros q rq (rq1 & Hq1 & <-)%Hterms. by apply (Hmax q).
Qed.

(** A leader can always be elected: from every state that a run of two or more peers
    reaches and in which all of them are alive, whatever was lost or restarted on the way,
    there is a way on, with no more than timers, messages and goroutines, to a state with a
    leader, of a term that no peer was beyond. *)
Theorem leader_electable ps now c :
  started ps now c → (2 <= length ps)%nat → all_alive c →
  ∃ evs c' p T, service_run c evs = Some c' ∧ forallb driven evs = true ∧ is_leader c' p T ∧
    ∀ q rq, nodes c !! q = Some rq → currentTerm rq <= T.
Proof using Type.
  intros Hs Hn Ha. destruct (election_succeeds ps now c Hs Hn Ha) as (c' & p & T & rf & (evs & Hr & Hd) & Hl & HT).
  exists evs, c', p, T. split_and!; [done|done| |done]. exists rf. split_and!; apply Hl.
Qed.

End Progress.

(** In the state d3 of LogRuns peer 0 was restarted and peer 1 leads term 2; all are alive. *)
Lemma d3_alive : all_alive LogRuns.d3.
Proof. apply all_alive_check. vm_compute. reflexivity. Qed.

Lemma leader_electable_witness :
  ∃ (c' : cluster Z) p T evs, service_run LogRuns.d3 evs = Some c' ∧ is_leader c' p T ∧ 2 <= T.
Proof.
  destruct (leader_electable Runs.ps3 0 LogRuns.d3 LogRuns.d3_started) as (evs & c' & p & T & Hr & _ & Hl & HT);
    [simpl; lia|exact d3_alive|].
  exists c', p, T, evs. split_and!; [exact Hr|exact Hl|].
  apply (HT 1%nat (LogRuns.node LogRuns.d3 1)). vm_compute. reflexivity.
Defined.
