(* ===== verification/ClusterCatchUp.v ===== *)
(** * Progress: followers catch up

    However far a follower's log is from the leader's, rounds of heartbeats move
    [nextIndex] to where the logs agree, with a snapshot in between if the leader has
    compacted that part, and the follower takes the rest ([catch_up]). *)
From Stdlib Require Import ZArith Lia.
From stdpp Require Import base tactics list strings numbers option.
From S2P Require Import Prelude.
From S2P Require Import Gob.
From S2P Require Import Persister.
From S2P Require Import RaftNode.
From S2P Require Import RaftLog.
From S2P Require Import RaftOps.
From S2P Require Import RaftFrame.
From S2P Require Import RaftTheorems.
From S2P Require Import History.
From S2P Require Import HistorySteps.
From S2P Require Import Cluster.
From S2P Require Import ClusterVotes.
From S2P Require Import ClusterSafety.
From S2P Require Import ClusterInv.
From S2P Require Import ClusterSteps.
From S2P Require Import ClusterEffects.
From S2P Require Import ClusterAppend.
From S2P Require Import ClusterLog.
From S2P Require Import ClusterTotal.
From S2P Require Import ClusterLoops.
From S2P Require Import ClusterProgress.

Local Open Scope Z_scope.

Section CatchUp.
Context {Command : Type} {gobZ : Gob Z} {gobLog : Gob (list (LogEntry Command))}.
Implicit Types (rf rq : Raft Command) (c : cluster Command).

(** ** The leader reads a reply *)

(** [rf'] is [rf] with another replication state. *)
Definition same_leader rf rf' : Prop :=
  kept rf' = kept rf ∧ lastIncludedTerm rf' = lastIncludedTerm rf ∧ me rf' = me rf ∧ peers rf' = peers rf ∧
  state rf' = state rf ∧ currentTerm rf' = currentTerm rf ∧ dead rf' = dead rf.

Lemma same_leader_refl rf : same_leader rf rf.
Proof using Type. by split_and!. Qed.

Lemma same_leader_trans rf1 rf2 rf3 : same_leader rf1 rf2 → same_leader rf2 rf3 → same_leader rf1 rf3.
Proof using Type.
  intros (A1 & A2 & A3 & A4 & A5 & A6 & A7) (B1 & B2 & B3 & B4 & B5 & B6 & B7).
  split_and!; congruence.
Qed.

Lemma same_leader_log rf rf' : same_leader rf rf' →
  lastIncludedIndex rf' = lastIncludedIndex rf ∧ lastLogIndex rf' = lastLogIndex rf ∧
  lastApplied rf' = lastApplied rf ∧ pendingSnapshot rf' = pendingSnapshot rf ∧
  (∀ i, logTerm rf' i = logTerm rf i) ∧ ∀ i, entryMsg rf' i = entryMsg rf i.
Proof using Type.
  intros (Hk & Ht & _). unfold kept, qview in Hk. injection Hk as Hl _ Hi Ha Hp.
  unfold lastLogIndex, logTerm, entryMsg, logIndex. rewrite Hl, Hi, Ht. by split_and!.
Qed.

Lemma ack_success n h t p w rf q args :
  core n h t w rf → leader_role n h t p w rf → state rf = Leader → length (peers rf) = n → (q < n)%nat →
  aea_Term args = currentTerm rf → aea_PrevLogIndex args + zlen (aea_Entries args) = lastLogIndex rf →
  ∃ rf', handleAppendReply rf q args (mkAEReply (currentTerm rf) true (-1) 0) = Some rf' ∧
    same_leader rf rf' ∧ matchIndex rf' = <[q := lastLogIndex rf]> (matchIndex rf) ∧
    (committable rf' (lastLogIndex rf) → lastLogIndex rf <= commitIndex rf').
Proof using Type.
  intros Hc Hr Hst Hn Hq Ht Hlast. unfold handleAppendReply.
  rewrite bool_decide_false by (rewrite Hst; auto). rewrite Ht, Z.eqb_refl. cbn [orb negb aer_Term aer_Success].
  destruct (Z.gtb_spec (currentTerm rf) (currentTerm rf)); [lia|].
  destruct (lookup_lt_is_Some_2 (matchIndex rf) q) as [m Hm]; [by rewrite (lr_match_len _ _ _ _ _ _ Hr)|].
  rewrite Hm, Hlast. cbn [mbind option_bind].
  destruct (lr_match _ _ _ _ _ _ Hr _ _ Hm) as [Hmb _].
  assert ((if lastLogIndex rf >? m then lastLogIndex rf else m) = lastLogIndex rf) as ->.
  { destruct (Z.gtb_spec (lastLogIndex rf) m); lia. }
  rewrite idx_set_ok by (unfold zlen; rewrite (lr_next_len _ _ _ _ _ _ Hr); lia). cbn [mbind option_bind].
  pose proof (co_order _ _ _ _ _ Hc). pose proof (known_bound _ _ _ _ _ _ Hc (co_commit _ _ _ _ _ Hc)).
  match goal with |- context [maybeAdvanceCommitIndex ?r] => set (rf1 := r) end.
  destruct (maybeAdvance_spec rf1) as (ci & -> & Hci & Hmax).
  - apply Hc.
  - cbn. by rewrite length_insert, (lr_match_len _ _ _ _ _ _ Hr), Hn.
  - cbn. change (lastLogIndex rf1) with (lastLogIndex rf). lia.
  - exists (set_commitIndex ci rf1). split_and!; try done. intros Hcm. cbn.
    destruct (decide (lastLogIndex rf <= commitIndex rf)) as [Hle|Hgt].
    + destruct Hci as [->|[? _]]; [done|]. change (commitIndex rf1) with (commitIndex rf) in *. lia.
    + apply Hmax; [|exact Hcm]. change (commitIndex rf1) with (commitIndex rf).
      change (lastLogIndex rf1) with (lastLogIndex rf). lia.
Qed.

Lemma ack_reject n h t p w rf q args ct ci ni' :
  leader_role n h t p w rf → state rf = Leader → (q < n)%nat → aea_Term args = currentTerm rf →
  backUp rf (mkAEReply (currentTerm rf) false ct ci) = Some ni' →
  ∃ rf', handleAppendReply rf q args (mkAEReply (currentTerm rf) false ct ci) = Some rf' ∧
    same_leader rf rf' ∧ matchIndex rf' = matchIndex rf ∧ nextIndex rf' !! q = Some ni'.
Proof using Type.
  intros Hr Hst Hq Ht Hb. unfold handleAppendReply.
  rewrite bool_decide_false by (rewrite Hst; auto). rewrite Ht, Z.eqb_refl. cbn [orb negb aer_Term aer_Success].
  destruct (Z.gtb_spec (currentTerm rf) (currentTerm rf)); [lia|]. rewrite Hb. cbn [mbind option_bind].
  pose proof (lr_next_len _ _ _ _ _ _ Hr) as Hl.
  rewrite idx_set_ok by (unfold zlen; lia). cbn [mbind option_bind].
  eexists. split; [done|]. split_and!; try done. cbn. rewrite Nat2Z.id. apply list_lookup_insert_eq. lia.
Qed.

Lemma ack_snapshot n h t p w rf q args reply :
  leader_role n h t p w rf → state rf = Leader → (q < n)%nat → isa_Term args = currentTerm rf →
  isr_Term reply <= currentTerm rf →
  ∃ rf' m, handleSnapshotReply rf q args reply = Some rf' ∧ same_leader rf rf' ∧
    matchIndex rf' = <[q := m]> (matchIndex rf) ∧ nextIndex rf' !! q = Some (m + 1) ∧
    isa_LastIncludedIndex args <= m.
Proof using Type.
  intros Hr Hst Hq Ht Hrep. unfold handleSnapshotReply.
  rewrite bool_decide_false by (rewrite Hst; auto). rewrite Ht, Z.eqb_refl. cbn [orb negb].
  destruct (Z.gtb_spec (isr_Term reply) (currentTerm rf)); [lia|].
  destruct (lookup_lt_is_Some_2 (matchIndex rf) q) as [m Hm]; [by rewrite (lr_match_len _ _ _ _ _ _ Hr)|].
  rewrite Hm. cbn [mbind option_bind]. set (m' := if _ >? m then _ else m).
  pose proof (lr_next_len _ _ _ _ _ _ Hr) as Hl.
  rewrite idx_set_ok by (unfold zlen; lia). cbn [mbind option_bind].
  eexists _, m'. split; [done|]. split_and!; try done.
  - cbn. rewrite Nat2Z.id. apply list_lookup_insert_eq. lia.
  - unfold m'. destruct (Z.gtb_spec (isa_LastIncludedIndex args) m); lia.
Qed.

(** The hint of a follower whose snapshot ends below [PrevLogIndex] moves [nextIndex]
    down, but not into what the follower has compacted. *)
Lemma backUp_above rf rq args ct ci T :
  log_ok rf → log_ok rq → 0 <= lastIncludedIndex rq < aea_PrevLogIndex args →
  0 <= lastIncludedIndex rf <= aea_PrevLogIndex args →
  ae_hint rq args ct ci → logTerm rf (aea_PrevLogIndex args) = Some (aea_PrevLogTerm args) →
  (logTerm rq (aea_PrevLogIndex args) = Some ct →
   0 <= ct ∧ ∀ j, aea_PrevLogIndex args <= j → logTerm rf j = Some ct →
                  logTerm rf (aea_PrevLogIndex args) = Some ct) →
  ∃ ni', backUp rf (mkAEReply T false ct ci) = Some ni' ∧ 1 <= ni' <= aea_PrevLogIndex args ∧
    (lastIncludedIndex rf <= lastIncludedIndex rq → lastIncludedIndex rf < ni').
Proof using Type.
  intros Hok Hokq Ha Hb Hhint Hpt Hun. unfold backUp. cbn [aer_ConflictTerm aer_ConflictIndex].
  assert (Hfin : ∀ v, lastIncludedIndex rq < v <= aea_PrevLogIndex args →
    ∃ ni', Some (if v <? 1 then 1 else v) = Some ni' ∧ 1 <= ni' <= aea_PrevLogIndex args ∧
      (lastIncludedIndex rf <= lastIncludedIndex rq → lastIncludedIndex rf < ni')).
  { intros v Hv. eexists. split; [done|]. destruct (Z.ltb_spec v 1); lia. }
  destruct Hhint as [(Hlt & _)|[(Hlt & -> & ->)|(Hr & Hne & Hci & Hrun & _)]]; [lia| |].
  { rewrite Z.eqb_refl. cbn [mbind option_bind]. apply Hfin.
    pose proof (lastLogIndex_ge rq Hokq). lia. }
  assert (Hct : logTerm rq (aea_PrevLogIndex args) = Some ct) by (apply Hrun; lia).
  destruct (Hun Hct) as [Hpos Hsame]. destruct (Z.eqb_spec ct (-1)); [lia|].
  pose proof (lastLogIndex_ge rf Hok).
  destruct (searchTerm_spec rf ct (Z.to_nat (lastLogIndex rf - lastIncludedIndex rf)) Hok)
    as (v & -> & Hv); [lia|]. cbn [mbind option_bind].
  destruct Hv as [[-> _]|(Hvb & Hvt & _)]; [rewrite Z.eqb_refl; apply Hfin; lia|].
  destruct (Z.eqb_spec v (-1)); [lia|]. eexists. split; [done|].
  assert (v <= aea_PrevLogIndex args).
  { destruct (decide (v <= aea_PrevLogIndex args)); [done|]. exfalso.
    pose proof (Hsame (v - 1) ltac:(lia) Hvt). congruence. }
  destruct (Z.ltb_spec v 1); lia.
Qed.

(** ** One exchange between the leader and a peer *)
Lemma leading_same (p : nat) T c c' rf rf' q rq' :
  leading p T c rf → q ≠ p → same_leader rf rf' → currentTerm rq' <= T →
  nodes c' = <[p := rf']> (<[q := rq']> (nodes c)) →
  (∀ t, t = THeartbeatLoop p ∨ t = TApplyLoop p ApplyTop → t ∈ threads c → t ∈ threads c') →
  leading p T c' rf'.
Proof using Type.
  intros [Hp Hst HT Hd Hpd Hb Ha Hterms] Hqp Hs Hq Hn Hth.
  destruct (same_leader_log _ _ Hs) as (_ & _ & _ & Hpd' & _). destruct Hs as (_ & _ & _ & _ & Hst' & HT' & Hd').
  constructor; rewrite ?Hst', ?HT', ?Hd', ?Hpd'; try done.
  - rewrite Hn. apply list_lookup_insert_eq. rewrite length_insert. by eapply lookup_lt_Some.
  - apply Hth; [by left|done].
  - apply Hth; [by right|done].
  - rewrite Hn. intros q2 rq2 [(<- & <- & _)|(_ & H2)]%list_lookup_insert_Some; [by rewrite HT', HT|].
    apply list_lookup_insert_Some in H2 as [(<- & <- & _)|(_ & H2)]; [done|by eapply Hterms].
Qed.

(** The heartbeat goroutine of the leader starts one for every other peer. *)
Lemma beat_ready (p : nat) T c rf q :
  leading p T c rf → q ∈ otherPeers rf →
  ∃ c' k, leads_to c c' ∧ leading p T c' rf ∧ nodes c' = nodes c ∧ applied c' = applied c ∧
    threads c' !! k = Some (TBeat p q T (Z.of_nat (me rf)) (commitIndex rf)).
Proof using Type.
  intros [Hp Hst HT Hd Hpd Hb Ha Hterms] Hq.
  destruct (beat_spawn p c rf q Hp Hst Hd Hb Hq) as (c1 & k & H1 & Hn1 & Ha1 & Hk & Hk1). rewrite HT in Hk.
  exists c1, k. split_and!; [done| |done..]. constructor; rewrite ?Hn1; try done; by apply Hk1.
Qed.

Lemma exchange_append (p : nat) T c rf q rq rf' rq' args r k lid commit :
  leading p T c rf → q ≠ p → nodes c !! q = Some rq → threads c !! k = Some (TBeat p q T lid commit) →
  same_leader rf rf' → currentTerm rq' <= T →
  heartbeatBegin rf q T lid commit = Some (HBAppend args) → AppendEntries rq args 0 = Some (rq', r) →
  handleAppendReply rf q args r = Some rf' →
  ∃ c', leads_to c c' ∧ leading p T c' rf' ∧ nodes c' = <[p := rf']> (<[q := rq']> (nodes c)) ∧
    applied c' = applied c.
Proof using Type.
  intros Hl Hqp Hq Hk Hs Hterm Hb Ha Hh.
  destruct (append_round_trip p c rf q rq rf' rq' args r k T lid commit (ld_node _ _ _ _ Hl) Hqp Hq Hk Hb Ha Hh)
    as (c' & H & Hn & Hap & Hkeep).
  exists c'. split_and!; [done| |done|done]. eapply (leading_same p T c); try done.
  intros t [->| ->]; apply Hkeep; by eexists.
Qed.

Lemma exchange_snapshot (p : nat) T c rf q rq rf' rq' args r k lid commit :
  leading p T c rf → q ≠ p → nodes c !! q = Some rq → threads c !! k = Some (TBeat p q T lid commit) →
  same_leader rf rf' → currentTerm rq' <= T →
  heartbeatBegin rf q T lid commit = Some (HBSnapshot args) → InstallSnapshot rq args 0 = Some (rq', r) →
  handleSnapshotReply rf q args r = Some rf' →
  ∃ c', leads_to c c' ∧ leading p T c' rf' ∧ nodes c' = <[p := rf']> (<[q := rq']> (nodes c)) ∧
    applied c' = applied c.
Proof using Type.
  intros Hl Hqp Hq Hk Hs Hterm Hb Ha Hh.
  destruct (snapshot_round_trip p c rf q rq rf' rq' args r k T lid commit (ld_node _ _ _ _ Hl) Hqp Hq Hk Hb Ha Hh)
    as (c' & H & Hn & Hap & Hkeep).
  exists c'. split_and!; [done| |done|done]. eapply (leading_same p T c); try done.
  intros t [->| ->]; apply Hkeep; by eexists.
Qed.

(** ** The logs of leader and follower *)
Lemma leading_role n h (p : nat) T c rf :
  good n c h → leading p T c rf →
  core n h (floor c p) (h_full h p) rf ∧ leader_role n h (floor c p) p (h_full h p) rf ∧
  me rf = p ∧ length (peers rf) = n ∧ (∀ i, lastIncludedIndex rf <= i → logTerm rf i = term_at (h_full h p) i).
Proof using Type.
  intros [Hi Hl] Hld. pose proof (ld_node _ _ _ _ Hld) as Hp.
  pose proof (li_core _ _ _ Hl _ _ Hp) as Hc. pose proof (li_role _ _ _ Hl _ _ Hp) as Hr.
  unfold role_ok in Hr. rewrite (ld_state _ _ _ _ Hld) in Hr.
  destruct (inv_node _ _ Hi _ _ Hp) as (Hme & Hn & _). split_and!; try done.
  intros i Hb. eapply core_logTerm_all; [done|done|].
  destruct (co_snap _ _ _ _ _ Hc) as (s & Hs & Ht & _).
  pose proof (stable_leader _ _ _ _ (li_hist _ _ _ Hl) _ _ _ _ _ Hs (lr_log _ _ _ _ _ _ Hr)) as Hsame.
  rewrite <- Ht. symmetry. eapply same_term; [apply Hsame|done].
  rewrite (lr_term _ _ _ _ _ _ Hr). lia.
Qed.

(** The leader has the last entry that a follower has compacted. *)
Lemma leader_has_snapshot n h (p : nat) T c rf q rq :
  good n c h → leading p T c rf → nodes c !! q = Some rq →
  lastIncludedIndex rf <= lastIncludedIndex rq →
  lastIncludedIndex rq <= lastLogIndex rf ∧ logTerm rf (lastIncludedIndex rq) = Some (lastIncludedTerm rq).
Proof using Type.
  intros Hg Hld Hq Hle. destruct (leading_role _ _ _ _ _ _ Hg Hld) as (Hc & Hr & _ & _ & Hlt).
  destruct Hg as [Hi Hl]. destruct (co_snap _ _ _ _ _ (li_core _ _ _ Hl _ _ Hq)) as (s & Hs & Ht & _).
  pose proof (floor_le _ _ _ _ Hi Hq) as Hfl. pose proof (ld_terms _ _ _ _ Hld _ _ Hq) as HT.
  pose proof (stable_leader _ _ _ _ (li_hist _ _ _ Hl) _ _ _ _ _ Hs (lr_log _ _ _ _ _ _ Hr)) as Hsame.
  rewrite (ld_term _ _ _ _ Hld) in Hsame. specialize (Hsame ltac:(lia)). split.
  - destruct Hsame as (_ & Hb & _). rewrite (co_len _ _ _ _ _ Hc) in Hb. lia.
  - rewrite Hlt by done. rewrite <- Ht. symmetry. by eapply same_term.
Qed.

(** Entries of one term come from one leader. *)
Lemma same_term_below n h (p : nat) T c rf q rq i j t :
  good n c h → leading p T c rf → nodes c !! q = Some rq →
  lastIncludedIndex rf <= i → 0 < i → lastIncludedIndex rq < i → i <= j →
  logTerm rq i = Some t → 0 <= t ∧ (logTerm rf j = Some t → logTerm rf i = Some t).
Proof using Type.
  intros Hg Hld Hq Hb Hi0 Ha Hij Ht. destruct (leading_role _ _ _ _ _ _ Hg Hld) as (Hc & Hr & _ & _ & Hlt).
  destruct Hg as [Hi Hl]. pose proof (li_core _ _ _ Hl _ _ Hq) as Hcq.
  rewrite (core_logTerm _ _ _ _ _ _ Hcq Ha) in Ht.
  destruct (co_wf _ _ _ _ _ Hcq) as [H0q Hwq]. destruct (co_wf _ _ _ _ _ Hc) as [_ Hw]. split.
  - pose proof (wf_sorted _ _ _ _ (li_hist _ _ _ Hl) _ (co_wf _ _ _ _ _ Hcq) 0 i 0 t) as Hs.
    apply Hs; [lia| |done]. unfold term_at. by rewrite H0q.
  - rewrite !Hlt by lia. intros Htj. apply fmap_Some in Ht as (e & He & ->).
    apply fmap_Some in Htj as (e' & He' & Hee).
    destruct (Hwq i e Hi0 He) as (l & Hl1 & Hs1). destruct (Hw j e' ltac:(lia) He') as (l' & Hl2 & Hs2).
    rewrite <- Hee, Hl1 in Hl2. injection Hl2 as <-.
    rewrite (same_term _ _ _ i Hs2 Hij), <- (same_term _ _ _ i Hs1) by lia.
    unfold term_at. by rewrite He.
Qed.

(** ** Rounds *)

(** From [c] the run comes to [c'] where the leader knows that [q] has its whole log. *)
Record caught_up (p : nat) T q c rf c' rf' : Prop := {
  cu_leads : leads_to c c';
  cu_leading : leading p T c' rf';
  cu_same : same_leader rf rf';
  cu_applied : applied c' = applied c;
  cu_match : matchIndex rf' = <[q := lastLogIndex rf]> (matchIndex rf);
  cu_commit : committable rf' (lastLogIndex rf) → lastLogIndex rf <= commitIndex rf'
}.

(** A round after which [q] is still to catch up, with [nextIndex] at [ni]. *)
Record goes_on (p : nat) T q c rf c' rf' rq' (ni : Z) : Prop := {
  go_leads : leads_to c c';
  go_leading : leading p T c' rf';
  go_same : same_leader rf rf';
  go_applied : applied c' = applied c;
  go_match : ∃ m, <[q := m]> (matchIndex rf') = <[q := m]> (matchIndex rf);
  go_node : nodes c' !! q = Some rq';
  go_next : nextIndex rf' !! q = Some ni
}.

Lemma caught_up_after (p : nat) T q c rf c1 rf1 rq1 ni c' rf' :
  goes_on p T q c rf c1 rf1 rq1 ni → caught_up p T q c1 rf1 c' rf' → caught_up p T q c rf c' rf'.
Proof using Type.
  intros [H1 _ Hs1 Ha1 (m & Hm) _ _] [H2 Hl2 Hs2 Ha2 Hm2 Hc2].
  destruct (same_leader_log _ _ Hs1) as (_ & Hlast & _). constructor; try done.
  - by eapply leads_trans.
  - by eapply same_leader_trans.
  - congruence.
  - rewrite Hm2, Hlast. rewrite <- (list_insert_insert_eq (matchIndex rf1) q _ m), Hm. apply list_insert_insert_eq.
  - by rewrite <- Hlast.
Qed.

Lemma same_leader_others rf rf' : same_leader rf rf' → otherPeers rf' = otherPeers rf.
Proof using Type. intros (_ & _ & Hme & Hp & _). unfold otherPeers. by rewrite Hme, Hp. Qed.

Lemma heartbeat_appends rf q T lid commit ni :
  is_Some (heartbeatBegin rf q T lid commit) → state rf = Leader → nextIndex rf !! q = Some ni →
  lastIncludedIndex rf < ni → ∃ args, heartbeatBegin rf q T lid commit = Some (HBAppend args).
Proof using Type.
  unfold heartbeatBegin. intros [x Hx] Hst Hni Hlt. rewrite decide_True, Hni in Hx |- * by done.
  cbn [mbind option_bind] in *. destruct (Z.leb_spec ni (lastIncludedIndex rf)); [lia|].
  destruct (logTerm rf (ni - 1)); [|done]. cbn [mbind option_bind] in *.
  destruct (slice_from _ _); [|done]. by eexists.
Qed.

(** Where a rejection puts [nextIndex]: just past the snapshot of [q] if it was below,
    else further down. *)
Lemma reject_next n h (p : nat) T c rf q rq args ct ci ni :
  good n c h → leading p T c rf → nodes c !! q = Some rq → lastIncludedIndex rf < ni →
  aea_PrevLogIndex args = ni - 1 → logTerm rf (ni - 1) = Some (aea_PrevLogTerm args) →
  ¬ ae_accepts rq args → ae_hint rq args ct ci →
  ∃ ni', backUp rf (mkAEReply (currentTerm rf) false ct ci) = Some ni' ∧
    (ni - 1 < lastIncludedIndex rq ∧ ni' = lastIncludedIndex rq + 1 ∨
     lastIncludedIndex rq < ni - 1 ∧ 1 <= ni' <= ni - 1 ∧
     (lastIncludedIndex rf <= lastIncludedIndex rq → lastIncludedIndex rf < ni')).
Proof using Type.
  intros Hg Hl Hq Hlt Hprev Hpt Hrej Hhint. destruct (leading_role _ _ _ _ _ _ Hg Hl) as (Hc & _).
  pose proof (li_core _ _ _ (proj2 Hg) _ _ Hq) as Hcq. pose proof (co_log _ _ _ _ _ Hcq) as Hokq.
  pose proof (co_lii _ _ _ _ _ Hc) as Hb0. pose proof (co_lii _ _ _ _ _ Hcq) as Ha0.
  destruct (Z.lt_trichotomy (ni - 1) (lastIncludedIndex rq)) as [Hcmp|[Hcmp|Hcmp]].
  - destruct Hhint as [(_ & -> & ->)|[(Hx & _)|(Hx & _)]]; [|pose proof (lastLogIndex_ge rq Hokq); lia|lia].
    unfold backUp. cbn [aer_ConflictTerm aer_ConflictIndex]. rewrite Z.eqb_refl. cbn [mbind option_bind].
    eexists. split; [done|]. left. destruct (Z.ltb_spec (lastIncludedIndex rq + 1) 1); lia.
  - exfalso. apply Hrej. destruct (leader_has_snapshot _ _ _ _ _ _ _ _ Hg Hl Hq ltac:(lia)) as [_ Hag].
    pose proof (lastLogIndex_ge rq Hokq). split; [lia|]. rewrite Hprev, Hcmp, logTerm_sentinel.
    rewrite <- Hag, <- Hcmp. done.
  - destruct (backUp_above rf rq args ct ci (currentTerm rf) (co_log _ _ _ _ _ Hc) Hokq) as (ni' & Eb & Hni' & Hx);
      [lia|lia|done|by rewrite Hprev| |].
    + intros Ht. rewrite Hprev in *.
      assert (Hbelow : ∀ j, ni - 1 <= j → 0 <= ct ∧ (logTerm rf j = Some ct → logTerm rf (ni - 1) = Some ct)).
      { intros j Hj. eapply (same_term_below n h p T c rf q rq (ni - 1) j ct); try done; lia. }
      split; [by apply (Hbelow (ni - 1))|]. intros j Hj. by apply Hbelow.
    + exists ni'. split; [done|]. right. split_and!; [lia|lia|lia|done].
Qed.

Lemma append_round n h (p : nat) T c rf q rq ni :
  good n c h → leading p T c rf → q ∈ otherPeers rf → nodes c !! q = Some rq →
  nextIndex rf !! q = Some ni → lastIncludedIndex rf < ni →
  (∃ c' rf', caught_up p T q c rf c' rf') ∨
  ∃ c' rf' rq' ni', goes_on p T q c rf c' rf' rq' ni' ∧ lastIncludedIndex rq' = lastIncludedIndex rq ∧
    (ni - 1 < lastIncludedIndex rq ∧ ni' = lastIncludedIndex rq + 1 ∨
     lastIncludedIndex rq < ni - 1 ∧ 1 <= ni' <= ni - 1 ∧
     (lastIncludedIndex rf <= lastIncludedIndex rq → lastIncludedIndex rf < ni')).
Proof using Type.
  intros Hg Hl Hqo Hq Hni Hlt. destruct (leading_role _ _ _ _ _ _ Hg Hl) as (Hc & Hr & Hme & Hn & Hterm).
  destruct (otherPeers_lt _ _ Hqo) as [Hqn Hqp]. rewrite Hme in Hqp. rewrite Hn in Hqn.
  pose proof (ld_state _ _ _ _ Hl) as Hst. pose proof (ld_term _ _ _ _ Hl) as HT.
  pose proof (li_core _ _ _ (proj2 Hg) _ _ Hq) as Hcq. pose proof (ld_terms _ _ _ _ Hl _ _ Hq) as Htq.
  destruct (beat_ready _ _ _ _ _ Hl Hqo) as (c1 & k & H1 & Hl1 & Hn1 & Ha1 & Hk).
  rewrite <- Hn1 in Hq. pose proof (co_log _ _ _ _ _ Hc) as Hok. pose proof (co_log _ _ _ _ _ Hcq) as Hokq.
  pose proof (co_lii _ _ _ _ _ Hc) as Hb0. pose proof (co_lii _ _ _ _ _ Hcq) as Ha0.
  assert (Hrole : role_ok n h (floor c p) p (h_full h p) rf) by (unfold role_ok; by rewrite Hst).
  destruct (heartbeat_appends rf q T (Z.of_nat (me rf)) (commitIndex rf) ni) as [args Hb];
    [by eapply heartbeatBegin_total|done|done|done|].
  destruct (heartbeatBegin_append _ _ _ _ _ _ Hok Hb) as (_ & ni2 & Hni2 & Hnb & Hat & _ & Hprev & Hpt & Hlen & _).
  rewrite Hni in Hni2. injection Hni2 as <-. rewrite <- Hat in Htq.
  destruct (decide (ae_accepts rq args)) as [Hacc|Hrej].
  - left. pose proof (AppendEntries_accept rq args 0 Hokq Htq Hacc) as Ea. rewrite Hat, <- HT in Ea.
    set (rq' := set_commitIndex _ _) in Ea. assert (Hq' : currentTerm rq' <= T) by (cbn; lia).
    destruct (ack_success n h _ p _ rf q args Hc Hr Hst Hn Hqn ltac:(congruence) Hlen) as (rf' & Eh & Hs & Hm & Hcm).
    destruct (exchange_append p T c1 rf q rq rf' rq' args _ k _ _ Hl1 Hqp Hq Hk Hs Hq' Hb Ea Eh)
      as (c2 & H2 & Hl2 & _ & Ha2).
    exists c2, rf'. constructor; try done; [by eapply leads_trans|congruence].
  - right. destruct (AppendEntries_reject rq args 0 Hokq Htq Hrej) as (ct & ci & Ea & Hhint).
    rewrite Hat, <- HT in Ea.
    destruct (reject_next n h p T c rf q rq args ct ci ni Hg Hl ltac:(by rewrite <- Hn1) Hlt Hprev Hpt Hrej Hhint)
      as (ni' & Eb & Hni').
    destruct (ack_reject n h _ p _ rf q args ct ci ni' Hr Hst Hqn ltac:(congruence) Eb) as (rf' & Eh & Hs & Hm & Hnx).
    destruct (exchange_append p T c1 rf q rq rf' (ae_base rq args 0) args _ k _ _ Hl1 Hqp Hq Hk Hs
      ltac:(cbn; lia) Hb Ea Eh) as (c2 & H2 & Hl2 & Hn2 & Ha2).
    exists c2, rf', (ae_base rq args 0), ni'. split_and!; [|done|exact Hni']. constructor; try done.
    + by eapply leads_trans.
    + congruence.
    + exists 0. by rewrite Hm.
    + rewrite Hn2, list_lookup_insert_ne by done. apply list_lookup_insert_eq. by eapply lookup_lt_Some.
Qed.

Lemma InstallSnapshot_follows rf args now :
  currentTerm rf <= isa_Term args → ∃ rf', InstallSnapshot rf args now = Some (rf', mkISReply (currentTerm rf)) ∧
    currentTerm rf' = isa_Term args ∧ isa_LastIncludedIndex args <= lastIncludedIndex rf'.
Proof using Type.
  intros Hle. destruct (decide (isa_LastIncludedIndex args <= lastIncludedIndex rf)) as [Hold|Hnew].
  - unfold InstallSnapshot. destruct (Z.ltb_spec (isa_Term args) (currentTerm rf)); [lia|].
    destruct (Z.gtb_spec (isa_Term args) (currentTerm rf)); cbn;
      (destruct (Z.leb_spec (isa_LastIncludedIndex args) (lastIncludedIndex rf)); [|lia]);
      (eexists; split; [done|]; cbn; lia).
  - destruct (InstallSnapshot_install rf args now Hle) as (rf' & E & Ht & _ & _ & _ & Hi & _); [lia|].
    exists rf'. split_and!; [done|done|lia].
Qed.

Lemma snapshot_round n h (p : nat) T c rf q rq ni :
  good n c h → leading p T c rf → q ∈ otherPeers rf → nodes c !! q = Some rq →
  nextIndex rf !! q = Some ni → ni <= lastIncludedIndex rf →
  ∃ c' rf' rq' ni', goes_on p T q c rf c' rf' rq' ni' ∧
    lastIncludedIndex rf <= lastIncludedIndex rq' ∧ lastIncludedIndex rf < ni'.
Proof using Type.
  intros Hg Hl Hqo Hq Hni Hle. destruct (leading_role _ _ _ _ _ _ Hg Hl) as (Hc & Hr & Hme & Hn & _).
  destruct (otherPeers_lt _ _ Hqo) as [Hqn Hqp]. rewrite Hme in Hqp. rewrite Hn in Hqn.
  pose proof (ld_state _ _ _ _ Hl) as Hst. pose proof (ld_term _ _ _ _ Hl) as HT.
  pose proof (ld_terms _ _ _ _ Hl _ _ Hq) as Htq.
  destruct (beat_ready _ _ _ _ _ Hl Hqo) as (c1 & k & H1 & Hl1 & Hn1 & Ha1 & Hk).
  rewrite <- Hn1 in Hq.
  assert (Hb : heartbeatBegin rf q T (Z.of_nat (me rf)) (commitIndex rf) = Some (HBSnapshot (sendSnapshotArgs rf))).
  { unfold heartbeatBegin. rewrite decide_True, Hni by done. cbn [mbind option_bind].
    by destruct (Z.leb_spec ni (lastIncludedIndex rf)); [|lia]. }
  destruct (InstallSnapshot_follows rq (sendSnapshotArgs rf) 0) as (rq' & Ei & Hterm & Hi); [cbn; lia|].
  cbn in Hterm, Hi.
  destruct (ack_snapshot n h _ p _ rf q (sendSnapshotArgs rf) (mkISReply (currentTerm rq)) Hr Hst Hqn eq_refl)
    as (rf' & m & Eh & Hs & Hm & Hnx & Hge); [cbn; lia|]. cbn in Hge.
  destruct (exchange_snapshot p T c1 rf q rq rf' rq' _ _ k _ _ Hl1 Hqp Hq Hk Hs ltac:(lia) Hb Ei Eh)
    as (c2 & H2 & Hl2 & Hn2 & Ha2).
  exists c2, rf', rq', (m + 1). split_and!; [|done|lia]. constructor; try done.
  - by eapply leads_trans.
  - congruence.
  - exists m. rewrite Hm. apply list_insert_insert_eq.
  - rewrite Hn2, list_lookup_insert_ne by done. apply list_lookup_insert_eq. by eapply lookup_lt_Some.
Qed.

Section Run.
Context (ps : list Peer) (now : Z).

(** [nextIndex] at or below the end of the snapshot of [q], which covers that of the
    leader: one round or two. *)
Lemma catch_up_low (p : nat) T c rf q rq ni :
  started ps now c → leading p T c rf → q ∈ otherPeers rf → nodes c !! q = Some rq →
  nextIndex rf !! q = Some ni → lastIncludedIndex rf < ni → ni - 1 <= lastIncludedIndex rq →
  ∃ c' rf', caught_up p T q c rf c' rf'.
Proof using Type.
  intros Hs Hl Hqo Hq Hni Hlt Hle. destruct (good_started _ _ _ Hs) as [h Hg].
  destruct (append_round _ _ _ _ _ _ _ _ _ Hg Hl Hqo Hq Hni Hlt)
    as [?|(c1 & rf1 & rq1 & ni1 & Hgo & Hi & [[_ ->]|(? & _)])]; [done| |lia].
  pose proof Hgo as [H1 Hl1 Hs1 _ _ Hq1 Hni1]. destruct (same_leader_log _ _ Hs1) as (Hi1 & _).
  destruct (good_started _ _ _ (leads_started _ _ _ _ Hs H1)) as [h1 Hg1].
  destruct (append_round _ _ _ _ _ rf1 q rq1 (lastIncludedIndex rq + 1) Hg1 Hl1) as [(c2 & rf2 & Hcu)|(c2 & rf2 & rq2 & ni2 & _ & _ & [[? _]|(? & _)])];
    [by rewrite (same_leader_others _ _ Hs1)|done|done|lia| |lia|lia].
  exists c2, rf2. by eapply caught_up_after.
Qed.

(** The snapshot of [q] covers that of the leader. *)
Lemma catch_up_covered (p : nat) T c rf q rq ni :
  started ps now c → leading p T c rf → q ∈ otherPeers rf → nodes c !! q = Some rq →
  nextIndex rf !! q = Some ni → lastIncludedIndex rf < ni → lastIncludedIndex rf <= lastIncludedIndex rq →
  ∃ c' rf', caught_up p T q c rf c' rf'.
Proof using Type.
  remember (Z.to_nat (ni - 1 - lastIncludedIndex rq)) as k eqn:Ek. revert c rf rq ni Ek.
  induction (lt_wf k) as [k _ IH]. intros c rf rq ni -> Hs Hl Hqo Hq Hni Hlt Hcov.
  destruct (decide (ni - 1 <= lastIncludedIndex rq)) as [Hle|Hgt]; [by eapply catch_up_low|].
  destruct (good_started _ _ _ Hs) as [h Hg].
  destruct (append_round _ _ _ _ _ _ _ _ _ Hg Hl Hqo Hq Hni Hlt)
    as [?|(c1 & rf1 & rq1 & ni1 & Hgo & Hi & [[? _]|(_ & Hb & Hup)])]; [done|lia|].
  pose proof Hgo as [H1 Hl1 Hs1 _ _ Hq1 Hni1]. destruct (same_leader_log _ _ Hs1) as (Hi1 & _).
  specialize (Hup Hcov).
  destruct (IH (Z.to_nat (ni1 - 1 - lastIncludedIndex rq1)) ltac:(lia) c1 rf1 rq1 ni1) as (c2 & rf2 & Hcu);
    [done|by eapply leads_started|done|by rewrite (same_leader_others _ _ Hs1)|done|done|lia|lia|].
  exists c2, rf2. by eapply caught_up_after.
Qed.

Lemma catch_up (p : nat) T c rf q rq ni :
  started ps now c → leading p T c rf → q ∈ otherPeers rf → nodes c !! q = Some rq →
  nextIndex rf !! q = Some ni → ∃ c' rf', caught_up p T q c rf c' rf'.
Proof using Type.
  remember (Z.to_nat ni) as k eqn:Ek. revert c rf rq ni Ek.
  induction (lt_wf k) as [k _ IH]. intros c rf rq ni -> Hs Hl Hqo Hq Hni.
  destruct (good_started _ _ _ Hs) as [h Hg].
  destruct (decide (ni <= lastIncludedIndex rf)) as [Hle|Hgt].
  - destruct (snapshot_round _ _ _ _ _ _ _ _ _ Hg Hl Hqo Hq Hni Hle)
      as (c1 & rf1 & rq1 & ni1 & Hgo & Hcov & Hlt).
    pose proof Hgo as [H1 Hl1 Hs1 _ _ Hq1 Hni1]. destruct (same_leader_log _ _ Hs1) as (Hi1 & _).
    destruct (catch_up_covered p T c1 rf1 q rq1 ni1) as (c2 & rf2 & Hcu);
      [by eapply leads_started|done|by rewrite (same_leader_others _ _ Hs1)|done|done|lia|lia|].
    exists c2, rf2. by eapply caught_up_after.
  - destruct (append_round _ _ _ _ _ _ _ _ _ Hg Hl Hqo Hq Hni ltac:(lia))
      as [?|(c1 & rf1 & rq1 & ni1 & Hgo & Hi & [[Hlow ->]|(_ & Hb & _)])]; [done|..];
      pose proof Hgo as [H1 Hl1 Hs1 _ _ Hq1 Hni1]; destruct (same_leader_log _ _ Hs1) as (Hi1 & _).
    + destruct (catch_up_low p T c1 rf1 q rq1 (lastIncludedIndex rq + 1)) as (c2 & rf2 & Hcu);
        [by eapply leads_started|done|by rewrite (same_leader_others _ _ Hs1)|done|done|lia|lia|].
      exists c2, rf2. by eapply caught_up_after.
    + destruct (IH (Z.to_nat ni1) ltac:(lia) c1 rf1 rq1 ni1) as (c2 & rf2 & Hcu);
        [done|by eapply leads_started|done|by rewrite (same_leader_others _ _ Hs1)|done|done|].
      exists c2, rf2. by eapply caught_up_after.
Qed.

End Run.
End CatchUp.
