(* ===== verification/ClusterCommit.v ===== *)
(** * Progress: a command can always be committed

    After an election as in ClusterProgress.v a new command reaches every peer
    (ClusterCatchUp.v), is committed, and the apply loop of the leader hands it over. *)
From Stdlib Require Import ZArith Lia.
From stdpp Require Import base tactics list strings numbers option.
From S2P Require Import Prelude.
From S2P Require Import Gob.
From S2P Require Import Persister.
From S2P Require Import RaftNode.
From S2P Require Import RaftLog.
From S2P Require Import RaftOps.
From S2P Require Import RaftFrame.
From S2P Require Import RaftTheorems.
From S2P Require Import History.
From S2P Require Import HistorySteps.
From S2P Require Import Cluster.
From S2P Require Import ClusterVotes.
From S2P Require Import ClusterSafety.
From S2P Require Import ClusterInv.
From S2P Require Import ClusterSteps.
From S2P Require Import ClusterEffects.
From S2P Require Import ClusterAppend.
From S2P Require Import ClusterLog.
From S2P Require Import ClusterTotal.
From S2P Require Import ClusterHanded.
From S2P Require Import ClusterLoops.
From S2P Require Import ClusterProgress.
From S2P Require Import ClusterCatchUp.

Local Open Scope Z_scope.

Section Commit.
Context {Command : Type} {gobZ : Gob Z} {gobLog : Gob (list (LogEntry Command))}.
Implicit Types (rf : Raft Command) (c : cluster Command).

(** ** Every other peer catches up, and the last entry is committed *)
Lemma all_match_committable rf T :
  (me rf < length (peers rf))%nat → (2 <= length (peers rf))%nat → currentTerm rf = T →
  logTerm rf (lastLogIndex rf) = Some T →
  (∀ q, q ∈ otherPeers rf → matchIndex rf !! q = Some (lastLogIndex rf)) →
  committable rf (lastLogIndex rf).
Proof using Type.
  intros Hme Hn HT Ht Hall. split; [by rewrite Ht, HT|]. unfold replicas.
  rewrite List.forallb_filter_id.
  - rewrite otherPeers_length by done. unfold majority, zlen.
    pose proof (Z.mul_div_le (Z.of_nat (length (peers rf))) 2). lia.
  - apply List.forallb_forall. intros q Hq%list_elem_of_In. rewrite (Hall q Hq). apply Z.leb_refl.
Qed.

Lemma replicate_all ps now (p : nat) T todo c rf :
  started ps now c → leading p T c rf → (2 <= length ps)%nat → todo ≠ [] →
  (∀ q, q ∈ todo → q ∈ otherPeers rf) →
  (∀ q, q ∈ otherPeers rf → q ∉ todo → matchIndex rf !! q = Some (lastLogIndex rf)) →
  logTerm rf (lastLogIndex rf) = Some T →
  ∃ c' rf', leads_to c c' ∧ leading p T c' rf' ∧ same_leader rf rf' ∧ applied c' = applied c ∧
    lastLogIndex rf <= commitIndex rf'.
Proof using Type.
  revert c rf. induction todo as [|q todo IH]; intros c rf Hs Hl Hn Hne Htodo Hdone Ht; [done|].
  destruct (good_started _ _ _ Hs) as [h Hg].
  destruct (leading_role _ _ _ _ _ _ Hg Hl) as (Hc & Hr & Hme & Hlen & _).
  destruct (otherPeers_lt _ _ (Htodo q ltac:(by left))) as [Hqn _]. rewrite Hlen in Hqn.
  destruct (lookup_lt_is_Some_2 (nodes c) q) as [rq Hq]; [by rewrite (inv_len _ _ (proj1 Hg))|].
  destruct (leader_next _ _ _ _ _ _ q Hr Hqn) as (ni & m & Hni & _ & Hm).
  destruct (catch_up ps now p T c rf q rq ni Hs Hl (Htodo q ltac:(by left)) Hq Hni)
    as (c1 & rf1 & [H1 Hl1 Hs1 Ha1 Hm1 Hc1]).
  destruct (same_leader_log _ _ Hs1) as (_ & Hlast & _ & _ & Hlt & _).
  pose proof (same_leader_others _ _ Hs1) as Hoth.
  assert (Hdone1 : ∀ x, x ∈ otherPeers rf1 → x ∉ todo → matchIndex rf1 !! x = Some (lastLogIndex rf1)).
  { intros x Hx Hnx. rewrite Hm1, Hlast. destruct (decide (x = q)) as [->|Hxq].
    - apply list_lookup_insert_eq. by eapply lookup_lt_Some.
    - rewrite list_lookup_insert_ne by done. apply Hdone; [by rewrite <- Hoth|].
      by intros [->|?]%elem_of_cons. }
  assert (Ht1 : logTerm rf1 (lastLogIndex rf1) = Some T) by by rewrite Hlt, Hlast.
  destruct todo as [|q2 todo].
  - exists c1, rf1. split_and!; try done. apply Hc1. rewrite <- Hlast.
    destruct Hs1 as (_ & _ & Hme1 & Hpe1 & _).
    assert (Hpn : (p < length ps)%nat).
    { rewrite <- (inv_len _ _ (proj1 Hg)). eapply lookup_lt_Some, Hl. }
    apply (all_match_committable rf1 T); [rewrite Hme1, Hpe1, Hme, Hlen; done|by rewrite Hpe1, Hlen|apply Hl1|done|].
    intros x Hx. apply Hdone1; [done|by apply not_elem_of_nil].
  - destruct (IH c1 rf1) as (c2 & rf2 & H2 & Hl2 & Hs2 & Ha2 & Hc2);
      [by eapply leads_started|done|done|done| |done|done|].
    { intros x Hx. rewrite Hoth. apply Htodo. by right. }
    exists c2, rf2. split_and!; [by eapply leads_trans|done|by eapply same_leader_trans|congruence|lia].
Qed.

(** ** The apply loop reaches a committed entry *)

(** A leader hands over what it has committed, and goes on leading. *)
Lemma leader_applies ps now (p : nat) T c rf :
  started ps now c → leading p T c rf → lastApplied rf < lastLogIndex rf → lastLogIndex rf <= commitIndex rf →
  ∃ c' ms m rf', leads_to c c' ∧ applied c' = applied c ++ ms ++ [(p, m)] ∧ entryMsg rf (lastLogIndex rf) = Some m ∧
    entries_below p (lastLogIndex rf) ms ∧ leading p T c' rf'.
Proof using Type.
  intros Hs Hl Hla Hci. destruct (good_started _ _ _ Hs) as [h Hg].
  destruct (leading_role _ _ _ _ _ _ Hg Hl) as (Hc & _).
  pose proof (known_bound _ _ _ _ _ _ Hc (co_commit _ _ _ _ _ Hc)).
  pose proof Hl as [Hp Hst HT Hd Hpd Hb Ha Hterms].
  destruct (apply_until p c rf ApplyTop (lastLogIndex rf)) as (c1 & ms & m & H1 & Ha1 & Hm & Hms & Hn1 & Ht1 & Hk1);
    [done|done|by right|by eapply core_apply_ok|lia|].
  set (rf' := set_lastApplied (lastLogIndex rf) rf) in *.
  assert (Hp1 : nodes c1 !! p = Some rf') by (rewrite Hn1; apply list_lookup_insert_eq; by eapply lookup_lt_Some).
  destruct (apply_idle p c1 rf' ApplyInner) as (c2 & H2 & Ha2 & Hn2 & Ht2 & Hk2); [done|done|by left|done|cbn; lia|].
  exists c2, ms, m, rf'. split_and!; [by eapply leads_trans|by rewrite Ha2|done|done|].
  constructor; try done; [by rewrite Hn2|by apply Hk2; [apply Hk1|]|].
  rewrite Hn2, Hn1. intros q rq [(<- & <- & _)|(_ & Hq)]%list_lookup_insert_Some; [cbn; lia|by eapply Hterms].
Qed.

(** The leader takes a command. *)
Lemma start_leading (p : nat) T c rf cmd :
  leading p T c rf → log_ok rf →
  ∃ c' rf', cluster_step c (EvStart p (Some cmd)) = Some c' ∧ leading p T c' rf' ∧
    applied c' = applied c ∧ lastLogIndex rf' = lastLogIndex rf + 1 ∧ lastApplied rf' = lastApplied rf ∧
    logTerm rf' (lastLogIndex rf') = Some T ∧
    entryMsg rf' (lastLogIndex rf') = Some (mkApplyMsg true (Some cmd) (lastLogIndex rf') false [] 0 0).
Proof using Type.
  intros [Hp Hst HT Hd Hpd Hb Ha Hterms] Hok.
  set (rf' := persist (set_log (log rf ++ [mkEntry (currentTerm rf) (Some cmd)]) rf)).
  set (c' := mkCluster (<[p := rf']> (nodes c)) (elections c) (threads c ++ [TSendHeartbeats p false]) (net c)
    (replies c) (applied c)).
  assert (E : cluster_step c (EvStart p (Some cmd)) = Some c').
  { simpl. unfold callStart. rewrite Hp. cbn [mbind option_bind]. unfold Start. by rewrite decide_True. }
  assert (Hlast : lastLogIndex rf' = lastLogIndex rf + 1).
  { unfold lastLogIndex, rf'. cbn. unfold zlen. rewrite length_app. simpl. lia. }
  assert (Hidx : idx (log rf') (logIndex rf' (lastLogIndex rf')) = Some (mkEntry T (Some cmd))).
  { pose proof (zlen_log_pos rf Hok). rewrite Hlast. unfold logIndex, lastLogIndex.
    change (lastIncludedIndex rf') with (lastIncludedIndex rf). cbn [log rf' persist].
    change (log rf') with (log rf ++ [mkEntry (currentTerm rf) (Some cmd)]). unfold zlen in *.
    rewrite idx_lookup by lia.
    replace (Z.to_nat _) with (length (log rf)) by lia. rewrite lookup_app_r, Nat.sub_diag by lia.
    by rewrite HT. }
  exists c', rf'. split_and!; try done.
  - constructor; try done.
    + cbn. apply list_lookup_insert_eq. by eapply lookup_lt_Some.
    + apply elem_of_app. by left.
    + apply elem_of_app. by left.
    + intros q rq [(<- & <- & _)|(_ & Hq)]%list_lookup_insert_Some; [simpl; lia|by eapply Hterms].
  - rewrite logTerm_idx; [by rewrite Hidx|]. pose proof (lastLogIndex_ge rf Hok).
    change (lastIncludedIndex rf') with (lastIncludedIndex rf). lia.
  - unfold entryMsg. by rewrite Hidx.
Qed.

(** What was handed to the state machines stays. *)
Lemma run_applied c evs c' : service_run c evs = Some c' → ∃ ms, applied c' = applied c ++ ms.
Proof using Type.
  revert c. induction evs as [|ev evs IH]; intros c; simpl.
  - intros [= <-]. exists []. by rewrite app_nil_r.
  - unfold service_step. case_decide; [|done]. destruct (cluster_step c ev) as [c1|] eqn:E; [|done].
    cbn [mbind option_bind]. intros Hr. destruct (step_applied _ _ _ E) as [ms1 H1].
    destruct (IH _ Hr) as [ms2 H2]. exists (ms1 ++ ms2). by rewrite H2, H1, app_assoc.
Qed.

(** A leader whose term nobody was beyond has all that was handed to the state machines. *)
Lemma delivered_below ps now c evs c' (p : nat) T rf q m :
  started ps now c → service_run c evs = Some c' → leading p T c' rf →
  (∀ v rv, nodes c !! v = Some rv → currentTerm rv <= T) →
  (q, m) ∈ applied c → am_CommandValid m = true → am_CommandIndex m <= lastLogIndex rf.
Proof using Type.
  intros Hs Hr Hld Hold Hin Hv. destruct (good_two _ _ _ _ _ Hs Hr) as (h & h' & Hg & Hg' & He).
  destruct (delivered_stable _ _ _ _ _ _ Hg He Hin Hv) as (s & e & Hst & _ & _ & _).
  destruct (leading_role _ _ _ _ _ _ Hg' Hld) as (Hc & Hr' & _).
  destruct (li_applied _ _ _ (proj2 Hg) _ _ Hin Hv) as (rq & _ & _ & Hq & _).
  pose proof (floor_le _ _ _ _ (proj1 Hg) Hq) as Hfl. specialize (Hold _ _ Hq).
  destruct (stable_leader _ _ _ _ (li_hist _ _ _ (proj2 Hg')) _ _ _ _ _ Hst (lr_log _ _ _ _ _ _ Hr'))
    as (_ & Hb & _); [rewrite (ld_term _ _ _ _ Hld); lia|].
  rewrite (co_len _ _ _ _ _ Hc) in Hb. lia.
Qed.

(** ** A leader commits a command *)

(** The message that hands [cmd] over at [i]. *)
Definition hand_over (cmd : Command) (i : Z) : ApplyMsg Command := mkApplyMsg true (Some cmd) i false [] 0 0.

Lemma leader_commits ps now (p : nat) T c rf cmd :
  started ps now c → (2 <= length ps)%nat → leading p T c rf →
  ∃ c2 c3 ms rf', cluster_step c (EvStart p (Some cmd)) = Some c2 ∧ leads_to c2 c3 ∧
    applied c3 = applied c2 ++ ms ++ [(p, hand_over cmd (lastLogIndex rf + 1))] ∧ applied c2 = applied c ∧
    entries_below p (lastLogIndex rf + 1) ms ∧ leading p T c3 rf'.
Proof using Type.
  intros Hs1 Hn Hl1. destruct (good_started _ _ _ Hs1) as [h Hg].
  destruct (leading_role _ _ _ _ _ _ Hg Hl1) as (Hc & _).
  destruct (start_leading p T c rf cmd Hl1 (co_log _ _ _ _ _ Hc))
    as (c2 & rf2 & E2 & Hl2 & Ha2 & Hlast & Hla & Ht2 & Hm2).
  pose proof (started_app _ _ _ _ _ Hs1 (service_run_one _ (EvStart p (Some cmd)) _ I E2)) as Hs2.
  destruct (good_started _ _ _ Hs2) as [h2 Hg2].
  destruct (leading_role _ _ _ _ _ _ Hg2 Hl2) as (_ & _ & Hme2 & Hn2 & _).
  destruct (replicate_all ps now p T (otherPeers rf2) c2 rf2 Hs2 Hl2 Hn)
    as (c3 & rf3 & H3 & Hl3 & Hsame & Ha3 & Hci); [|done|done|done|].
  { intros E. assert (Hpn : (p < length ps)%nat).
    { rewrite <- (inv_len _ _ (proj1 Hg2)). eapply lookup_lt_Some, Hl2. }
    pose proof (otherPeers_length rf2 ltac:(rewrite Hme2, Hn2; done)) as Hz.
    rewrite E in Hz. unfold zlen in Hz. rewrite Hn2 in Hz. simpl in Hz. lia. }
  destruct (same_leader_log _ _ Hsame) as (_ & Hll & Hla3 & _ & _ & Hmsg).
  pose proof (co_order _ _ _ _ _ Hc). pose proof (known_bound _ _ _ _ _ _ Hc (co_commit _ _ _ _ _ Hc)).
  destruct (leader_applies ps now p T c3 rf3) as (c4 & ms & m & rf4 & H4 & Ha4 & Hm & Hms & Hl4);
    [by eapply leads_started|done|lia|lia|].
  rewrite Hmsg, Hll, Hm2 in Hm. injection Hm as <-. rewrite Hll, Hlast in Hms. rewrite Hlast in Ha4. exists c2, c4, ms, rf4.
  split_and!; [done|by eapply leads_trans|by rewrite Ha4, Ha3|done|done|done].
Qed.

(** C14. Any command can be committed: from every state that a run of two or more peers
    reaches (failed calls, crashes and restarts from the persister included; the service
    takes snapshots only of what it was given) and in which none of them is killed, there is
    a way on in which no peer stops or restarts and no call fails - timers, messages and goroutines only, and one call of
    [Start].  On it some peer comes to lead in a term that no peer is beyond, [Start] is
    called there with the command, and at the end, still the leader of that term, it has
    handed the command to its state machine, at an index beyond all that any state machine
    was handed before. *)
Theorem command_can_commit ps now c cmd :
  started ps now c → (2 <= length ps)%nat → all_alive c →
  ∃ evs1 c1 p T c2 evs2 c' ms msg,
    service_run c evs1 = Some c1 ∧ forallb driven evs1 = true ∧
    is_leader c1 p T ∧ (∀ q rq, nodes c1 !! q = Some rq → currentTerm rq <= T) ∧
    cluster_step c1 (EvStart p (Some cmd)) = Some c2 ∧
    service_run c2 evs2 = Some c' ∧ forallb driven evs2 = true ∧ is_leader c' p T ∧
    applied c' = applied c ++ ms ∧ (p, msg) ∈ ms ∧
    am_CommandValid msg = true ∧ am_Command msg = Some cmd ∧
    ∀ q m, (q, m) ∈ applied c → am_CommandValid m = true → am_CommandIndex m < am_CommandIndex msg.
Proof using Type.
  intros Hs Hn Halive.
  destruct (election_succeeds ps now c Hs Hn Halive) as (c1 & p & T & rf & (e1 & Hr1 & Hd1) & Hl1 & Hold).
  destruct (leader_commits ps now p T c1 rf cmd (started_app _ _ _ _ _ Hs Hr1) Hn Hl1)
    as (c2 & c3 & ms & rf3 & E2 & (e3 & Hr3 & Hd3) & Ha3 & Ha2 & _ & Hl3).
  destruct (run_applied _ _ _ Hr1) as [ms1 Hms1].
  exists e1, c1, p, T, c2, e3, c3, (ms1 ++ ms ++ [(p, hand_over cmd (lastLogIndex rf + 1))]),
    (hand_over cmd (lastLogIndex rf + 1)). split_and!; try done.
  - exists rf. split_and!; apply Hl1.
  - apply Hl1.
  - exists rf3. split_and!; apply Hl3.
  - by rewrite Ha3, Ha2, Hms1, <- app_assoc.
  - apply elem_of_app. right. apply elem_of_app. right. by left.
  - intros q m Hq Hv. cbn. pose proof (delivered_below _ _ _ _ _ _ _ _ _ _ Hs Hr1 Hl1 Hold Hq Hv). lia.
Qed.

End Commit.

(** In d3 peer 0 was restarted, peer 1 leads and has handed over the command at index 1. *)
Lemma command_can_commit_witness :
  all_alive LogRuns.d3 ∧ ∃ c' p (msg : ApplyMsg Z), (p, msg) ∈ applied c' ∧ am_Command msg = Some 7 ∧ 1 < am_CommandIndex msg.
Proof.
  split; [exact d3_alive|].
  destruct (command_can_commit Runs.ps3 0 LogRuns.d3 7 LogRuns.d3_started)
    as (evs1 & c1 & p & T & c2 & evs2 & c' & ms & msg & _ & _ & _ & _ & _ & _ & _ & _ & Ha & Hin & _ & Hc & Hi);
    [simpl; lia|exact d3_alive|].
  exists c', p, msg. split_and!; [|exact Hc|].
  - rewrite Ha. apply elem_of_app. by right.
  - apply (Hi 0%nat (LogRuns.delivers 1 42)); [vm_compute; left|done].
Defined.
