(* ===== verification/Transport.v ===== *)
(** * internal/raft/rpc.go: the RPCs over TCP, down to bytes

    [Peer.Call] dials the address of a peer, names a method, sends the gob encoding of
    its arguments and decodes the reply; on the other side net/rpc finds the method by
    its name in what main.go registered.  [wire_step] runs the goroutines of Cluster.v
    with nothing but strings and bytes between them, and the theorem is that its runs
    are runs of [cluster_step]: every call reaches the handler it is meant for, with the
    arguments it was made with, and its reply comes back as it was. *)
From Stdlib Require Import ZArith Lia String Ascii.
From stdpp Require Import base tactics list strings numbers option gmap.
From S2P Require Import Prelude.
From S2P Require Import GoStrings.
From S2P Require Import Gob.
From S2P Require Import Persister.
From S2P Require Import RaftNode.
From S2P Require Import RaftLog.
From S2P Require Import RaftOps.
From S2P Require Import Cluster.
From S2P Require Import ClusterVotes.
From S2P Require Import ClusterSafety.
From S2P Require Import ClusterInv.
From S2P Require Import ClusterSteps.
From S2P Require Import ClusterLog.
From S2P Require Import ClusterTotal.
From S2P Require Import ClusterLoops.
From S2P Require Import ClusterProgress.

Local Open Scope string_scope.
Local Open Scope list_scope.
Local Open Scope Z_scope.

Section Transport.
Context {Command : Type}.
Context {gobZ : Gob Z} {gobLog : Gob (list (LogEntry Command))}.
Context {gobRVA : Gob RequestVoteArgs} {gobRVR : Gob RequestVoteReply}.
Context {gobAEA : Gob (AppendEntriesArgs Command)} {gobAER : Gob AppendEntriesReply}.
Context {gobISA : Gob InstallSnapshotArgs} {gobISR : Gob InstallSnapshotReply}.
Implicit Types (rf : Raft Command) (c : cluster Command).

(** ** net/rpc *)

(** The request on a connection to [rq_addr]; a connection carries one request. *)
Record request := mkRequest { rq_addr : string; rq_method : string; rq_args : bytes }.

(** The text of an error is not used. *)
Inductive response := RespError | RespBody (reply : bytes).

(** A method of a registered service: it is run on the [Raft] of the service with the
    encoded arguments; [None] is a panic. *)
Abbreviation method := (Raft Command → bytes → Z → option (Raft Command * response)).
Abbreviation service := (gmap string method).
Abbreviation server := (gmap string service).

Definition NewServer : server := ∅.

(** [RegisterName] fails when the name is taken. *)
Definition RegisterName (srv : server) (name : string) (rcvr : service) : option server :=
  match srv !! name with Some _ => None | None => Some (<[name := rcvr]> srv) end.

(** "service.method" is split at its last dot. *)
Definition service_method (s : string) : option (string * string) :=
  match rev (Split s ".") with
  | m :: ((_ :: _) as rest) => Some (str_join "." (rev rest), m)
  | _ => None
  end.

(** One request on the server: an ill-formed name, an unknown service or method or
    arguments that do not decode are answered with an error. *)
Definition ServeRequest (srv : server) rf (rq : request) (now : Z) : option (Raft Command * response) :=
  match ('(name, m) ← service_method (rq_method rq); svc ← srv !! name; svc !! m) with
  | Some f => f rf (rq_args rq) now
  | None => Some (rf, RespError)
  end.

(** A method of Go type [func (args *A, reply *R) error] that returns [nil]. *)
Definition rpcMethod {A R} {GA : Gob A} {GR : Gob R}
    (handler : Raft Command → A → Z → option (Raft Command * R)) : method :=
  λ rf body now,
    match gob_decode body with
    | None => Some (rf, RespError)
    | Some (args, _) => '(rf', reply) ← handler rf args now; Some (rf', RespBody (gob_encode reply))
    end.

(** ** rpc.go and main.go *)
Definition RPCAdapter : service :=
  {[ "RequestVote" := rpcMethod RequestVote;
     "AppendEntries" := rpcMethod AppendEntries;
     "InstallSnapshot" := rpcMethod InstallSnapshot ]}.

(** The server of a node; [None] is the [log.Fatalf] of main.go. *)
Definition nodeServer : option server := RegisterName NewServer "Raft" RPCAdapter.

(** What becomes of a call: the dial fails, the connection is lost, or a response. *)
Inductive outcome := DialError | ConnLost | Responded (resp : response).

(** [None] is [false]; after [true] the reply is filled in. *)
Definition Call {R} {GR : Gob R} (o : outcome) : option R :=
  match o with
  | DialError | ConnLost | Responded RespError => None
  | Responded (RespBody body) => '(reply, _) ← gob_decode body; Some reply
  end.

(** ** The calls of raft.go *)
Definition call_method (call : rpc Command) : string :=
  match call with
  | CallVote _ => "Raft.RequestVote"
  | CallAppend _ => "Raft.AppendEntries"
  | CallSnapshot _ => "Raft.InstallSnapshot"
  end.
Definition call_args (call : rpc Command) : bytes :=
  match call with
  | CallVote args => gob_encode args
  | CallAppend args => gob_encode args
  | CallSnapshot args => gob_encode args
  end.

(** [rf.peers[peer].Call(method, args, reply)] up to the send. *)
Definition dialled (ps : list Peer) (call : nat * rpc Command) : option request :=
  p ← ps !! fst call;
  Some (mkRequest (addr p) (call_method (snd call)) (call_args (snd call))).

(** What [Call] returns to the goroutine [t] that waits for it, with the type of its [reply]. *)
Definition returned (t : thread Command) (o : outcome) : option rpc_reply :=
  match t with
  | TVoteCall _ _ _ _ => ReplyVote <$> Call o
  | TAppendCall _ _ _ _ => ReplyAppend <$> Call o
  | TSnapshotCall _ _ _ _ => ReplySnapshot <$> Call o
  | _ => None
  end.

(** The request a goroutine waits for, and its method. *)
Definition waits_for (t : thread Command) : option (nat * string) :=
  match t with
  | TVoteCall _ _ _ req => Some (req, "Raft.RequestVote")
  | TAppendCall _ _ req _ => Some (req, "Raft.AppendEntries")
  | TSnapshotCall _ _ req _ => Some (req, "Raft.InstallSnapshot")
  | _ => None
  end.

(** ** The nodes and the wires between them *)

(** [w_local] has the peers and their goroutines, and no messages; [w_responses] are
    the responses in the order they were sent, each with the number of its request. *)
Record wired := mkWired {
  w_local : cluster Command; w_requests : list request; w_responses : list (nat * response)
}.

Definition remsg (ns : list (nat * rpc Command)) (rs : list (nat * rpc_reply)) c : cluster Command :=
  mkCluster (nodes c) (elections c) (threads c) ns rs (applied c).

(** The goroutines see of the messages only how many requests there were, which
    numbers the next one, and the reply [rs] they are woken with. *)
Definition blank_call : nat * rpc Command := (0%nat, CallVote (mkRVArgs 0 0 0 0)).
Definition local (w : wired) (rs : list (nat * rpc_reply)) : cluster Command :=
  remsg (replicate (length (w_requests w)) blank_call) rs (w_local w).

(** Its own peer list gives a goroutine the addresses it dials. *)
Definition book c (k : nat) : option (list Peer) :=
  t ← threads c !! k; rf ← nodes c !! t_node t; Some (peers rf).

Inductive wire_event :=
| WLocal (ev : event Command)     (* the service, the clock, a crash *)
| WRun (k : nat)                  (* goroutine [k], up to its call *)
| WServe (i : nat) (now : Z)      (* request [i] arrives *)
| WReturn (k j : nat)             (* the call of [k] returns, with response [j] *)
| WFail (k : nat) (dialed : bool). (* it returns without *)

Definition is_local (ev : event Command) : bool :=
  match ev with
  | EvElection _ _ _ | EvStart _ _ | EvSnapshot _ _ _ | EvKill _ | EvRestart _ _ => true
  | _ => false
  end.

(** The call of goroutine [k] ends with [o]: it goes on with the reply, or gives up. *)
Definition call_returns (w : wired) (k i : nat) (o : outcome) : option (cluster Command) :=
  t ← threads (w_local w) !! k;
  '(req, _) ← waits_for t;
  if decide (i = req) then
    match returned t o with
    | Some r => receive (local w [(i, r)]) k 0
    | None => callFails (local w []) k
    end
  else None.

(** [dial a] is the node that listens at [a]. *)
Definition wire_step (dial : string → option nat) (w : wired) (ev : wire_event) : option wired :=
  let back c' := remsg [] [] c' in
  match ev with
  | WLocal ev =>
      if is_local ev then
        c' ← cluster_step (local w []) ev;
        Some (mkWired (back c') (w_requests w) (w_responses w))
      else None
  | WRun k =>
      ps ← book (w_local w) k;
      c' ← runThread (local w []) k;
      rqs ← mapM (dialled ps) (drop (length (w_requests w)) (net c'));
      Some (mkWired (back c') (w_requests w ++ rqs) (w_responses w))
  | WServe i now =>
      rq ← w_requests w !! i;
      if decide (i ∈ (w_responses w).*1) then None else
      p ← dial (rq_addr rq);
      rf ← nodes (w_local w) !! p;
      srv ← nodeServer;
      '(rf', resp) ← ServeRequest srv rf rq now;
      Some (mkWired
              (mkCluster (<[p := rf']> (nodes (w_local w))) (elections (w_local w))
                 (threads (w_local w)) [] [] (applied (w_local w)))
              (w_requests w) (w_responses w ++ [(i, resp)]))
  | WReturn k j =>
      '(i, resp) ← w_responses w !! j;
      c' ← call_returns w k i (Responded resp);
      Some (mkWired (back c') (w_requests w) (w_responses w))
  | WFail k dialed =>
      t ← threads (w_local w) !! k;
      '(req, _) ← waits_for t;
      c' ← call_returns w k req (if dialed : bool then ConnLost else DialError);
      Some (mkWired (back c') (w_requests w) (w_responses w))
  end.

Fixpoint wire_run (dial : string → option nat) (w : wired) (evs : list wire_event) : option wired :=
  match evs with
  | [] => Some w
  | ev :: evs' => w' ← wire_step dial w ev; wire_run dial w' evs'
  end.

Definition wire_init (ps : list Peer) (now : Z) : wired := mkWired (cluster_init ps now) [] [].

(** The event of Cluster.v for an event on the wires. *)
Definition event_of (ev : wire_event) : event Command :=
  match ev with
  | WLocal ev => ev
  | WRun k => EvRun k
  | WServe i now => EvServe i now
  | WReturn k j => EvReply k j
  | WFail k _ => EvCallFail k
  end.

(** ** What the wires carry *)
Definition reply_body (r : rpc_reply) : bytes :=
  match r with
  | ReplyVote reply => gob_encode reply
  | ReplyAppend reply => gob_encode reply
  | ReplySnapshot reply => gob_encode reply
  end.
Definition reply_method (r : rpc_reply) : string :=
  match r with
  | ReplyVote _ => "Raft.RequestVote"
  | ReplyAppend _ => "Raft.AppendEntries"
  | ReplySnapshot _ => "Raft.InstallSnapshot"
  end.
Definition sent_reply (x : nat * rpc_reply) : nat * response := (fst x, RespBody (reply_body (snd x))).

(** Request [i] of [c] calls the method [m]. *)
Definition calls_method c (i : nat) (m : string) : Prop :=
  ∃ call, net c !! i = Some call ∧ call_method (snd call) = m.

(** Goroutines wait for, and replies answer, calls of their method. *)
Definition calls_typed c : Prop :=
  (∀ t i m, t ∈ threads c → waits_for t = Some (i, m) → calls_method c i m) ∧
  ∀ i r, (i, r) ∈ replies c → calls_method c i (reply_method r).

(** The wires of [w] carry the messages of [c]: the requests, each to the address of
    its destination, and the replies, none of them an error. *)
Record carries (ps : list Peer) (w : wired) c : Prop := {
  ca_local : w_local w = remsg [] [] c;
  ca_requests : mapM (dialled ps) (net c) = Some (w_requests w);
  ca_responses : w_responses w = sent_reply <$> replies c;
  ca_peers : ∀ p rf, nodes c !! p = Some rf → peers rf = ps;
  ca_typed : calls_typed c
}.

(** ** One call *)
Lemma returned_reply t i r :
  waits_for t = Some (i, reply_method r) → returned t (Responded (RespBody (reply_body r))) = Some r.
Proof using Type.
  destruct t, r; intros [=]; cbn [returned Call reply_body];
    rewrite <- (app_nil_r (gob_encode reply)), gob_decode_encode; done.
Qed.

Lemma rpcMethod_encoded {A R} {GA : Gob A} {GR : Gob R}
    (handler : Raft Command → A → Z → option (Raft Command * R)) rf args now :
  rpcMethod handler rf (gob_encode args) now =
    '(rf', reply) ← handler rf args now; Some (rf', RespBody (gob_encode reply)).
Proof using Type.
  unfold rpcMethod. rewrite <- (app_nil_r (gob_encode args)), gob_decode_encode. done.
Qed.

(** The handler of raft.go that a call is for. *)
Definition handle rf (call : rpc Command) (now : Z) : option (Raft Command * rpc_reply) :=
  match call with
  | CallVote args => '(rf', r) ← RequestVote rf args now; Some (rf', ReplyVote r)
  | CallAppend args => '(rf', r) ← AppendEntries rf args now; Some (rf', ReplyAppend r)
  | CallSnapshot args => '(rf', r) ← InstallSnapshot rf args now; Some (rf', ReplySnapshot r)
  end.

Lemma handle_method rf call now rf' r : handle rf call now = Some (rf', r) → reply_method r = call_method call.
Proof using Type.
  destruct call as [args|args|args]; simpl;
    [destruct (RequestVote rf args now) as [[? ?]|]|destruct (AppendEntries rf args now) as [[? ?]|]
    |destruct (InstallSnapshot rf args now) as [[? ?]|]]; try done; by intros [= <- <-].
Qed.

Lemma nodeServer_methods rf a call now :
  ∃ srv, nodeServer = Some srv ∧
    ServeRequest srv rf (mkRequest a (call_method call) (call_args call)) now =
      '(rf', r) ← handle rf call now; Some (rf', RespBody (reply_body r)).
Proof using Type.
  eexists. split; [reflexivity|]. unfold ServeRequest. cbn [rq_method rq_args].
  destruct call as [args|args|args]; cbn [call_method call_args handle].
  - change (service_method "Raft.RequestVote") with (Some ("Raft", "RequestVote")).
    cbn [mbind option_bind]. rewrite lookup_insert_eq. cbn [mbind option_bind]. unfold RPCAdapter.
    simplify_map_eq. rewrite rpcMethod_encoded. by destruct (RequestVote rf args now) as [[? ?]|].
  - change (service_method "Raft.AppendEntries") with (Some ("Raft", "AppendEntries")).
    cbn [mbind option_bind]. rewrite lookup_insert_eq. cbn [mbind option_bind]. unfold RPCAdapter.
    simplify_map_eq. rewrite rpcMethod_encoded. by destruct (AppendEntries rf args now) as [[? ?]|].
  - change (service_method "Raft.InstallSnapshot") with (Some ("Raft", "InstallSnapshot")).
    cbn [mbind option_bind]. rewrite lookup_insert_eq. cbn [mbind option_bind]. unfold RPCAdapter.
    simplify_map_eq. rewrite rpcMethod_encoded. by destruct (InstallSnapshot rf args now) as [[? ?]|].
Qed.

Lemma serve_handle c i now p call rf :
  net c !! i = Some (p, call) → nodes c !! p = Some rf →
  serve c i now = '(rf', r) ← handle rf call now;
    Some (mkCluster (<[p := rf']> (nodes c)) (elections c) (threads c) (net c)
            (replies c ++ [(i, r)]) (applied c)).
Proof using Type.
  intros Hi Hp. unfold serve. rewrite Hi. cbn [mbind option_bind]. rewrite Hp. by destruct call.
Qed.

(** ** Methods of the calls *)
Lemma calls_method_grows c c' i m : net c `prefix_of` net c' → calls_method c i m → calls_method c' i m.
Proof using Type. intros H (call & Hi & Hm). exists call. split; [by eapply prefix_lookup_Some|done]. Qed.

Lemma calls_typed_grows c c' :
  calls_typed c → net c `prefix_of` net c' →
  (∀ t, t ∈ threads c' → t ∈ threads c ∨ ∀ i m, waits_for t = Some (i, m) → calls_method c' i m) →
  (∀ i r, (i, r) ∈ replies c' → (i, r) ∈ replies c ∨ calls_method c i (reply_method r)) →
  calls_typed c'.
Proof using Type.
  intros [Ht Hr] Hn Ht' Hr'. split.
  - intros t i m Hin Hw. destruct (Ht' t Hin) as [Hold|Hnew]; [|by apply Hnew].
    by eapply calls_method_grows; [|eapply Ht].
  - intros i r Hin. destruct (Hr' i r Hin) as [Hold|Hnew]; (eapply calls_method_grows; [done|auto]).
Qed.

(** Goroutine [k] goes on as [ts], which wait for nothing. *)
Lemma calls_typed_respawn c k ts nodes' elections' applied' :
  calls_typed c → (∀ t, t ∈ ts → waits_for t = None) →
  calls_typed (mkCluster nodes' elections' (respawn k ts (threads c)) (net c) (replies c) applied').
Proof using Type.
  intros Hc Hts. apply (calls_typed_grows c); [done|done| |by left].
  intros t [Hin|Hin]%respawn_elem; [|by left]. right. intros i m Hw. by rewrite Hts in Hw.
Qed.

(** Goroutine [k] sends [call] and waits for the reply. *)
Lemma calls_typed_send c k t call nodes' elections' applied' :
  calls_typed c → waits_for t = Some (length (net c), call_method (snd call)) →
  calls_typed (mkCluster nodes' elections' (respawn k [t] (threads c)) (net c ++ [call]) (replies c) applied').
Proof using Type.
  intros Hc Ht. apply (calls_typed_grows c); [done|by eexists| |by left].
  intros t' [->%list_elem_of_singleton|Hin]%respawn_elem; [|by left]. right. intros i m. rewrite Ht.
  intros [= <- <-]. exists call. split; [|done]. simpl. by rewrite lookup_app_r, Nat.sub_diag.
Qed.

(** ** Every event keeps the methods of the calls and the peer lists *)
Definition kept c c' : Prop :=
  (calls_typed c → calls_typed c') ∧
  ∀ p rf', nodes c' !! p = Some rf' → ∃ rf, nodes c !! p = Some rf ∧ peers rf' = peers rf.

Lemma peers_insert c p rf rf' :
  nodes c !! p = Some rf → peers rf' = peers rf →
  ∀ q rf2, <[p := rf']> (nodes c) !! q = Some rf2 → ∃ rf, nodes c !! q = Some rf ∧ peers rf2 = peers rf.
Proof using Type.
  intros Hp He q rf2 [(<- & <- & _)|[_ Hq]]%list_lookup_insert_Some; [by exists rf|by exists rf2].
Qed.

(** A goroutine goes on as goroutines that wait for nothing. *)
Ltac not_waiting :=
  let t := fresh in let H := fresh in
  intros t H; repeat case_match; repeat (apply elem_of_app in H as [H|H]);
  repeat (apply elem_of_cons in H as [->|H]; [done|]); try (by apply not_elem_of_nil in H).

Lemma kept_runElection c k now d c' : runElection c k now d = Some c' → kept c c'.
Proof using gobZ gobLog.
  unfold runElection. destruct (threads c !! k) as [[]|]; try done.
  destruct (nodes c !! p) as [rf|] eqn:Ep; [|done]. cbn [mbind option_bind]. unfold electionTimeout.
  destruct (_ && _).
  - destruct (startElection rf) as [[[rf' term] calls]|] eqn:Es; [|done]. cbn [mbind option_bind].
    intros [= <-]. destruct (startElection_vote _ _ _ _ Es) as (Hpe & _). split.
    + intros Hc. apply calls_typed_respawn; [done|]. intros t [Ht|Ht]%elem_of_app.
      * destruct (killed rf'); [by apply not_elem_of_nil in Ht|by apply list_elem_of_singleton in Ht as ->].
      * by apply list_elem_of_fmap in Ht as ([peer args] & -> & _).
    + by eapply peers_insert.
  - cbn [mbind option_bind]. intros [= <-]. split; [|by eapply peers_insert].
    intros Hc. apply calls_typed_respawn; [done|]. not_waiting.
Qed.

Lemma kept_runThread c k c' : runThread c k = Some c' → kept c c'.
Proof using gobZ gobLog.
  unfold runThread. destruct (threads c !! k) as [[]|]; try done.
  - destruct (nodes c !! p) as [rf|] eqn:Ep; [|done]. cbn [mbind option_bind].
    destruct (applyLoop_step rf pc) as [[[m rf'] pc']|] eqn:Ea; [|done]. cbn [mbind option_bind].
    intros [= <-]. split.
    + intros Hc. apply calls_typed_respawn; [done|]. not_waiting.
    + eapply peers_insert; [done|apply (applyLoop_vstep _ _ _ _ _ Ea)].
  - intros [= <-]. split; [|by eauto]. intros Hc. by apply calls_typed_send.
  - destruct (nodes c !! p) as [rf|]; [|done]. cbn [mbind option_bind]. intros [= <-].
    split; [|by eauto]. intros Hc. apply calls_typed_respawn; [done|]. not_waiting.
  - destruct (nodes c !! p) as [rf|]; [|done]. cbn [mbind option_bind]. intros [= <-].
    split; [|by eauto]. intros Hc. apply calls_typed_respawn; [done|]. intros t [Ht|Ht]%elem_of_app.
    + unfold beats, sendHeartbeats in Ht. by apply list_elem_of_fmap in Ht as (peer' & -> & _).
    + destruct loop; [by apply list_elem_of_singleton in Ht as ->|by apply not_elem_of_nil in Ht].
  - destruct (nodes c !! p) as [rf|]; [|done]. cbn [mbind option_bind].
    destruct (heartbeatBegin rf peer term leaderId commit) as [[|args|args]|]; [| | |done];
      cbn [mbind option_bind]; intros [= <-]; (split; [|by eauto]); intros Hc.
    + apply calls_typed_respawn; [done|]. not_waiting.
    + by apply calls_typed_send.
    + by apply calls_typed_send.
Qed.

Lemma handle_peers rf call now rf' r : handle rf call now = Some (rf', r) → peers rf' = peers rf.
Proof using gobZ gobLog.
  destruct call as [args|args|args]; simpl;
    [destruct (RequestVote rf args now) as [[? ?]|] eqn:E|destruct (AppendEntries rf args now) as [[? ?]|] eqn:E
    |destruct (InstallSnapshot rf args now) as [[? ?]|] eqn:E]; try done; intros [= <- <-].
  - apply (RequestVote_vstep _ _ _ _ _ E).
  - apply (AppendEntries_vstep _ _ _ _ _ E).
  - apply (InstallSnapshot_vstep _ _ _ _ _ E).
Qed.

Lemma kept_serve c i now c' : serve c i now = Some c' → kept c c'.
Proof using gobZ gobLog.
  intros E. destruct (net c !! i) as [[p call]|] eqn:Ei; [|unfold serve in E; by rewrite Ei in E].
  destruct (nodes c !! p) as [rf|] eqn:Ep;
    [|unfold serve in E; rewrite Ei in E; cbn [mbind option_bind] in E; by rewrite Ep in E].
  rewrite (serve_handle _ _ _ _ _ _ Ei Ep) in E.
  destruct (handle rf call now) as [[rf' r]|] eqn:Eh; [|done]. cbn [mbind option_bind] in E.
  injection E as <-. split.
  - intros Hc. apply (calls_typed_grows c); [done|done|by left|].
    intros i' r' [?|[= -> ->]%list_elem_of_singleton]%elem_of_app; [by left|right].
    exists (p, call). split; [done|]. simpl. symmetry. by eapply handle_method.
  - eapply peers_insert; [done|by eapply handle_peers].
Qed.

Lemma kept_receive c k j c' : receive c k j = Some c' → kept c c'.
Proof using gobZ gobLog.
  unfold receive. destruct (replies c !! j) as [[i r]|]; [|done]. cbn [mbind option_bind].
  destruct (threads c !! k) as [t|]; [|done]. cbn [mbind option_bind].
  destruct t, r; try done; (case_decide; [|done]); (destruct (nodes c !! p) as [rf|] eqn:Ep; [|done]);
    cbn [mbind option_bind].
  - destruct (elections c !! cell) as [e|]; [|done]. cbn [mbind option_bind].
    pose proof (handleVoteReply_vote rf (el_term e) (el_votes e) reply) as Hv.
    destruct (handleVoteReply _ _ _ _) as [[rf' vs] won]. intros [= <-]. split.
    + intros Hc. apply calls_typed_respawn; [done|]. not_waiting.
    + eapply peers_insert; [done|]. destruct won; [by destruct Hv as (-> & _)|apply Hv].
  - destruct (handleAppendReply rf peer args reply) as [rf'|] eqn:Eh; [|done]. cbn [mbind option_bind].
    intros [= <-]. split.
    + intros Hc. apply calls_typed_respawn; [done|]. not_waiting.
    + eapply peers_insert; [done|apply (handleAppendReply_vstep _ _ _ _ _ Eh)].
  - destruct (handleSnapshotReply rf peer args reply) as [rf'|] eqn:Eh; [|done]. cbn [mbind option_bind].
    intros [= <-]. split.
    + intros Hc. apply calls_typed_respawn; [done|]. not_waiting.
    + eapply peers_insert; [done|apply (handleSnapshotReply_vstep _ _ _ _ _ Eh)].
Qed.

Lemma kept_callFails c k c' : callFails c k = Some c' → kept c c'.
Proof using gobZ gobLog.
  unfold callFails. destruct (threads c !! k) as [[]|]; try done; intros [= <-]; (split; [|by eauto]);
    intros Hc; (apply calls_typed_respawn; [done|]); not_waiting.
Qed.

Lemma kept_service c ev c' : is_local ev = true → cluster_step c ev = Some c' → kept c c'.
Proof using gobZ gobLog.
  destruct ev as [k now d| | | | |p command|p index snap|p|p now]; try done; intros _; cbn [cluster_step];
    [apply kept_runElection|unfold callStart|unfold callSnapshot|unfold callKill|unfold restart];
    (destruct (nodes c !! p) as [rf|] eqn:Ep; [|done]); cbn [mbind option_bind].
  - pose proof (Start_vstep rf command) as Hs. destruct (Start rf command) as [[[? ?] ok] rf'].
    intros [= <-]. split; [|eapply peers_insert; [done|apply Hs]].
    intros Hc. apply (calls_typed_grows c); [done|done| |by left].
    intros t [?|Ht]%elem_of_app; [by left|right]. destruct ok; [|by apply not_elem_of_nil in Ht].
    by apply list_elem_of_singleton in Ht as ->.
  - destruct (Snapshot rf index snap) as [rf'|] eqn:Es; [|done]. cbn [mbind option_bind]. intros [= <-].
    split; [|eapply peers_insert; [done|apply (Snapshot_vstep _ _ _ _ Es)]].
    intros Hc. apply (calls_typed_grows c); [done|done|by left|by left].
  - intros [= <-]. split; [|by eapply peers_insert].
    intros Hc. apply (calls_typed_grows c); [done|done|by left|by left].
  - intros [= <-]. split; [|eapply peers_insert; [done|apply (Make_fixed (peers rf) p (persister rf) now)]].
    intros Hc. apply (calls_typed_grows c); [done|done| |by left].
    intros t [Ht|Ht]%elem_of_app.
    + left. apply list_elem_of_In, List.filter_In in Ht as [Ht _]. by apply list_elem_of_In.
    + right. by repeat (apply elem_of_cons in Ht as [->|Ht]; [done|]); apply not_elem_of_nil in Ht.
Qed.

(** ** What the goroutines see of the messages *)
Lemma remsg_self c : c = remsg (net c) (replies c) c.
Proof using Type. by destruct c. Qed.

Lemma local_frame c ev n r n' r' :
  is_local ev = true → cluster_step (remsg n r c) ev = remsg n r <$> cluster_step (remsg n' r' c) ev.
Proof using Type.
  destruct ev as [k now d| | | | |p command|p index snap|p|p now]; try done; intros _; cbn [cluster_step].
  - unfold runElection. cbn [remsg threads nodes]. destruct (threads c !! k) as [[]|]; try done.
    destruct (nodes c !! p) as [rf|]; [|done]. cbn [mbind option_bind].
    by destruct (electionTimeout rf now d) as [[rf' [[term calls]|]]|].
  - unfold callStart. cbn [remsg nodes]. destruct (nodes c !! p) as [rf|]; [|done]. cbn [mbind option_bind].
    by destruct (Start rf command) as [[[? ?] ok] rf'].
  - unfold callSnapshot. cbn [remsg nodes]. destruct (nodes c !! p) as [rf|]; [|done]. cbn [mbind option_bind].
    by destruct (Snapshot rf index snap) as [rf'|].
  - unfold callKill. cbn [remsg nodes]. by destruct (nodes c !! p) as [rf|].
  - unfold restart. cbn [remsg nodes]. by destruct (nodes c !! p) as [rf|].
Qed.

Lemma callFails_frame c k n r n' r' :
  callFails (remsg n r c) k = remsg n r <$> callFails (remsg n' r' c) k.
Proof using Type. unfold callFails. cbn [remsg threads]. by destruct (threads c !! k) as [[]|]. Qed.

(** A goroutine is woken with one reply, wherever it comes from. *)
Lemma receive_frame c k j n r n' x :
  r !! j = Some x → receive (remsg n r c) k j = remsg n r <$> receive (remsg n' [x] c) k 0.
Proof using Type.
  intros Hj. unfold receive. cbn [remsg threads replies]. rewrite Hj. cbn [mbind option_bind lookup list_lookup].
  destruct x as [i reply]. destruct (threads c !! k) as [t|]; [|done]. cbn [mbind option_bind].
  destruct t, reply; try done; (case_decide; [|done]); cbn [remsg nodes elections];
    (destruct (nodes c !! p) as [rf|]; [|done]); cbn [mbind option_bind].
  - destruct (elections c !! cell) as [e|]; [|done]. cbn [mbind option_bind].
    by destruct (handleVoteReply _ _ _ _) as [[rf' vs] won].
  - by destruct (handleAppendReply rf peer args reply).
  - by destruct (handleSnapshotReply rf peer args reply).
Qed.

(** A goroutine sends the same calls after any requests, if they are as many. *)
Lemma runThread_frame c k n r c1 :
  runThread (remsg n r c) k = Some c1 →
  ∃ new, net c1 = n ++ new ∧ ∀ n' r', length n' = length n →
    runThread (remsg n' r' c) k = Some (remsg (n' ++ new) r' c1).
Proof using Type.
  unfold runThread. cbn [remsg threads nodes net].
  destruct (threads c !! k) as [[]|]; try done.
  - destruct (nodes c !! p) as [rf|]; [|done]. cbn [mbind option_bind].
    destruct (applyLoop_step rf pc) as [[[m rf'] pc']|]; [|done]. cbn [mbind option_bind].
    intros [= <-]. exists []. rewrite app_nil_r. split; [done|]. intros n' r' _. by rewrite app_nil_r.
  - intros [= <-]. exists [(peer, CallVote args)]. split; [done|]. by intros n' r' ->.
  - destruct (nodes c !! p) as [rf|]; [|done]. cbn [mbind option_bind].
    intros [= <-]. exists []. rewrite app_nil_r. split; [done|]. intros n' r' _. by rewrite app_nil_r.
  - destruct (nodes c !! p) as [rf|]; [|done]. cbn [mbind option_bind].
    intros [= <-]. exists []. rewrite app_nil_r. split; [done|]. intros n' r' _. by rewrite app_nil_r.
  - destruct (nodes c !! p) as [rf|]; [|done]. cbn [mbind option_bind].
    destruct (heartbeatBegin rf peer term leaderId commit) as [[|args|args]|]; [| | |done];
      cbn [mbind option_bind]; intros [= <-].
    + exists []. rewrite app_nil_r. split; [done|]. intros n' r' _. by rewrite app_nil_r.
    + exists [(peer, CallSnapshot args)]. split; [done|]. by intros n' r' ->.
    + exists [(peer, CallAppend args)]. split; [done|]. by intros n' r' ->.
Qed.

(** ** The simulation *)
Section Simulation.
Context (ps : list Peer) (dial : string → option nat).
Context (Hdial : ∀ i p, ps !! i = Some p → dial (addr p) = Some i).

Lemma carries_kept w c w' c' :
  carries ps w c → kept c c' → w_local w' = remsg [] [] c' →
  mapM (dialled ps) (net c') = Some (w_requests w') → w_responses w' = sent_reply <$> replies c' →
  carries ps w' c'.
Proof using Type.
  intros Hc [Ht Hp] Hl Hq Hr. constructor; [done..| |apply Ht, Hc].
  intros p rf' (rf & Hrf & ->)%Hp. by eapply ca_peers.
Qed.

Lemma local_carried w c rs :
  carries ps w c → local w rs = remsg (replicate (length (w_requests w)) blank_call) rs c.
Proof using Type. intros Hc. unfold local. by rewrite (ca_local _ _ _ Hc). Qed.

Lemma wire_local w c ev w' :
  carries ps w c → wire_step dial w (WLocal ev) = Some w' →
  ∃ c', cluster_step c ev = Some c' ∧ carries ps w' c'.
Proof using gobZ gobLog.
  intros Hc. cbn [wire_step]. destruct (is_local ev) eqn:Hev; [|done].
  destruct (cluster_step (local w []) ev) as [c1|] eqn:E; [|done]. cbn [mbind option_bind]. intros [= <-].
  rewrite (local_carried _ _ _ Hc) in E.
  pose proof (local_frame c ev (net c) (replies c) (replicate (length (w_requests w)) blank_call) [] Hev) as Hs. rewrite E, <- remsg_self in Hs.
  exists (remsg (net c) (replies c) c1). split; [done|].
  eapply carries_kept; [done|by eapply kept_service|done|apply Hc|apply Hc].
Qed.

Lemma book_peers w c k ps' : carries ps w c → book (w_local w) k = Some ps' → ps' = ps.
Proof using Type.
  intros Hc. rewrite (ca_local _ _ _ Hc). unfold book. cbn [remsg threads nodes].
  destruct (threads c !! k) as [t|]; [|done]. cbn [mbind option_bind].
  destruct (nodes c !! t_node t) as [rf|] eqn:Hn; [|done]. intros [= <-]. by eapply ca_peers.
Qed.

Lemma wire_runs w c k w' :
  carries ps w c → wire_step dial w (WRun k) = Some w' → ∃ c', runThread c k = Some c' ∧ carries ps w' c'.
Proof using gobZ gobLog.
  intros Hc. cbn [wire_step]. destruct (book (w_local w) k) as [ps'|] eqn:Hb; [|done]. cbn [mbind option_bind].
  rewrite (book_peers _ _ _ _ Hc Hb). destruct (runThread (local w []) k) as [c1|] eqn:E; [|done].
  cbn [mbind option_bind]. rewrite (local_carried _ _ _ Hc) in E.
  destruct (runThread_frame _ _ _ _ _ E) as (new & -> & Hf).
  rewrite drop_app_length' by (by rewrite length_replicate).
  destruct (mapM (dialled ps) new) as [rqs|] eqn:Hm; [|done]. cbn [mbind option_bind]. intros [= <-].
  pose proof (ca_requests _ _ _ Hc) as Hq.
  assert (Hs : runThread c k = Some (remsg (net c ++ new) (replies c) c1)).
  { rewrite (remsg_self c) at 1. apply Hf. rewrite length_replicate. apply mapM_Some in Hq. by apply Forall2_length in Hq. }
  exists (remsg (net c ++ new) (replies c) c1). split; [done|].
  eapply carries_kept; [done|by eapply kept_runThread|done| |apply Hc].
  apply mapM_Some in Hq, Hm. apply mapM_Some. by apply Forall2_app.
Qed.

(** Request [i] on the wire is that call, to the node it is for. *)
Lemma carried_request w c i rq :
  carries ps w c → w_requests w !! i = Some rq →
  ∃ p call, net c !! i = Some (p, call) ∧ dial (rq_addr rq) = Some p ∧
    rq = mkRequest (rq_addr rq) (call_method call) (call_args call).
Proof using Hdial.
  intros Hc Hi. pose proof (ca_requests _ _ _ Hc) as Hq. apply mapM_Some in Hq.
  destruct (Forall2_lookup_r _ _ _ _ _ Hq Hi) as ([p call] & Hn & Hd). unfold dialled in Hd. cbn [fst snd] in Hd.
  destruct (ps !! p) as [a|] eqn:Ha; [|done]. injection Hd as <-. exists p, call. cbn [rq_addr].
  split_and!; [done|by apply Hdial|done].
Qed.

Lemma wire_serve w c i now w' :
  carries ps w c → wire_step dial w (WServe i now) = Some w' →
  ∃ c', serve c i now = Some c' ∧ carries ps w' c'.
Proof using Hdial.
  intros Hc. cbn [wire_step]. destruct (w_requests w !! i) as [rq|] eqn:Hi; [|done]. cbn [mbind option_bind].
  case_decide; [done|]. destruct (carried_request _ _ _ _ Hc Hi) as (p & call & Hn & -> & Hrq).
  rewrite (ca_local _ _ _ Hc). cbn [mbind option_bind remsg nodes elections threads applied].
  destruct (nodes c !! p) as [rf|] eqn:Hp; [|done]. cbn [mbind option_bind].
  destruct (nodeServer_methods rf (rq_addr rq) call now) as (srv & -> & Hsrv). rewrite <- Hrq in Hsrv.
  cbn [mbind option_bind]. rewrite Hsrv. destruct (handle rf call now) as [[rf' r]|] eqn:Eh; [|done].
  cbn [mbind option_bind]. intros [= <-].
  assert (Hs : serve c i now = Some (mkCluster (<[p := rf']> (nodes c)) (elections c) (threads c) (net c)
                                       (replies c ++ [(i, r)]) (applied c))).
  { by rewrite (serve_handle _ _ _ _ _ _ Hn Hp), Eh. }
  eexists. split; [exact Hs|].
  eapply carries_kept; [done|by eapply kept_serve|done|apply Hc|].
  cbn [w_responses replies]. by rewrite (ca_responses _ _ _ Hc), fmap_app.
Qed.

Lemma wire_return w c k j w' :
  carries ps w c → wire_step dial w (WReturn k j) = Some w' →
  ∃ c', receive c k j = Some c' ∧ carries ps w' c'.
Proof using gobZ gobLog.
  intros Hc. cbn [wire_step]. rewrite (ca_responses _ _ _ Hc), list_lookup_fmap.
  destruct (replies c !! j) as [[i r]|] eqn:Hj; [|done]. cbn [fmap option_fmap option_map mbind option_bind sent_reply fst snd].
  unfold call_returns. rewrite !(local_carried _ _ _ Hc), (ca_local _ _ _ Hc). cbn [remsg threads].
  destruct (threads c !! k) as [t|] eqn:Hk; [|done]. cbn [mbind option_bind].
  destruct (waits_for t) as [[req m]|] eqn:Hw; [|done]. cbn [mbind option_bind]. case_decide; [|done]. subst req.
  destruct (ca_typed _ _ _ Hc) as [Ht Hr].
  destruct (Ht t i m (list_elem_of_lookup_2 _ _ _ Hk) Hw) as (call & Hi & Hm).
  destruct (Hr i r (list_elem_of_lookup_2 _ _ _ Hj)) as (call' & Hi' & Hm'). rewrite Hi in Hi'. injection Hi' as <-.
  rewrite (returned_reply t i r) by congruence. rewrite (local_carried _ _ _ Hc).
  destruct (receive _ k 0) as [c1|] eqn:E; [|done]. cbn [mbind option_bind]. intros [= <-].
  pose proof (receive_frame c k j (net c) (replies c) (replicate (length (w_requests w)) blank_call) _ Hj) as Hs.
  rewrite E, <- remsg_self in Hs.
  exists (remsg (net c) (replies c) c1). split; [done|].
  eapply carries_kept; [done|by eapply kept_receive|done|apply Hc|done].
Qed.

Lemma wire_fail w c k b w' :
  carries ps w c → wire_step dial w (WFail k b) = Some w' →
  ∃ c', callFails c k = Some c' ∧ carries ps w' c'.
Proof using gobZ gobLog.
  intros Hc. cbn [wire_step]. unfold call_returns. rewrite !(local_carried _ _ _ Hc), (ca_local _ _ _ Hc). cbn [remsg threads].
  destruct (threads c !! k) as [t|] eqn:Hk; [|done]. cbn [mbind option_bind].
  destruct (waits_for t) as [[req m]|] eqn:Hw; [|done]. cbn [mbind option_bind]. rewrite decide_True by done.
  assert (returned t (if b then ConnLost else DialError) = None) as -> by (by destruct t, b).
  destruct (callFails _ k) as [c1|] eqn:E; [|done]. cbn [mbind option_bind]. intros [= <-].
  pose proof (callFails_frame c k (net c) (replies c) (replicate (length (w_requests w)) blank_call) []) as Hs.
  rewrite E, <- remsg_self in Hs.
  exists (remsg (net c) (replies c) c1). split; [done|].
  eapply carries_kept; [done|by eapply kept_callFails|done|apply Hc|apply Hc].
Qed.

Lemma wire_step_simulated w c ev w' :
  carries ps w c → wire_step dial w ev = Some w' →
  ∃ c', cluster_step c (event_of ev) = Some c' ∧ carries ps w' c'.
Proof using Hdial.
  destruct ev; [apply wire_local|apply wire_runs|apply wire_serve|apply wire_return|apply wire_fail].
Qed.

Lemma wire_run_simulated w c evs w' :
  carries ps w c → wire_run dial w evs = Some w' →
  ∃ c', cluster_run c (event_of <$> evs) = Some c' ∧ carries ps w' c'.
Proof using Hdial.
  revert w c. induction evs as [|ev evs IH]; intros w c Hc; simpl; [intros [= <-]; by exists c|].
  destruct (wire_step dial w ev) as [w1|] eqn:E; [|done]. cbn [mbind option_bind]. intros Hr.
  destruct (wire_step_simulated _ _ _ _ Hc E) as (c1 & -> & Hc1). by apply (IH w1).
Qed.

Lemma carries_init now : carries ps (wire_init ps now) (cluster_init ps now).
Proof using Type.
  constructor; [done..| |].
  - intros p rf. cbn [cluster_init nodes]. rewrite list_lookup_fmap.
    destruct (seq 0 (length ps) !! p) as [q|]; [|done]. intros [= <-].
    apply (Make_fixed ps q MakePersister now).
  - split; [|by intros i r ?%not_elem_of_nil].
    intros t i m Ht. simpl in Ht. apply list_elem_of_bind in Ht as (p & Ht & _).
    by repeat (apply elem_of_cons in Ht as [->|Ht]; [done|]); apply not_elem_of_nil in Ht.
Qed.

(** ** The wires let everything happen *)
Lemma can_be_local w c ev :
  carries ps w c → is_local ev = true → is_Some (cluster_step c ev) → is_Some (wire_step dial w (WLocal ev)).
Proof using gobZ gobLog.
  intros Hc Hev [c' E]. cbn [wire_step]. rewrite Hev, (local_carried _ _ _ Hc).
  rewrite (local_frame c ev _ [] (net c) (replies c) Hev), <- remsg_self, E. by eexists.
Qed.

Lemma dialled_all n (new : list (nat * rpc Command)) :
  length ps = n → (∀ q call, (q, call) ∈ new → (q < n)%nat) → is_Some (mapM (dialled ps) new).
Proof using Type.
  intros Hl Hnew. apply mapM_is_Some, Forall_forall. intros [q call] Hin.
  destruct (lookup_lt_is_Some_2 ps q) as [a Ha]; [rewrite Hl; by eapply Hnew|].
  unfold compose, dialled. cbn [fst]. rewrite Ha. by eexists.
Qed.

Lemma can_run w c k c' :
  carries ps w c → placed c → placed c' → length (nodes c) = length ps → length (nodes c') = length ps →
  runThread c k = Some c' → is_Some (wire_step dial w (WRun k)).
Proof using gobZ gobLog.
  intros Hc Hpl Hpl' Hlen Hlen' E. cbn [wire_step].
  destruct (threads c !! k) as [t|] eqn:Hk; [|unfold runThread in E; by rewrite Hk in E].
  destruct (lookup_lt_is_Some_2 (nodes c) (t_node t)) as [rf Hrf];
    [apply (proj1 Hpl), (list_elem_of_lookup_2 _ _ _ Hk)|].
  assert (book (w_local w) k = Some ps) as ->.
  { rewrite (ca_local _ _ _ Hc). unfold book. cbn [remsg threads nodes]. rewrite Hk. cbn [mbind option_bind].
    rewrite Hrf. cbn [mbind option_bind]. f_equal. by eapply ca_peers. }
  cbn [mbind option_bind]. rewrite (local_carried _ _ _ Hc). rewrite (remsg_self c) in E.
  destruct (runThread_frame _ _ _ _ _ E) as (new & Hnew & Hf).
  rewrite Hf by (rewrite length_replicate; pose proof (ca_requests _ _ _ Hc) as Hq;
    apply mapM_Some, Forall2_length in Hq; done). cbn [mbind option_bind remsg net].
  rewrite drop_app_length' by (by rewrite length_replicate).
  destruct (dialled_all (length ps) new eq_refl) as [rqs ->]; [|by eexists].
  intros q call [i Hi]%list_elem_of_lookup. rewrite <- Hlen'.
  eapply (proj2 Hpl' (length (net c) + i)%nat). rewrite Hnew, lookup_app_r by lia.
  by replace (length (net c) + i - length (net c))%nat with i by lia.
Qed.

Lemma can_serve w c i now :
  carries ps w c → i ∉ (w_responses w).*1 → is_Some (serve c i now) → is_Some (wire_step dial w (WServe i now)).
Proof using Hdial.
  intros Hc Hnot [c' E]. cbn [wire_step].
  destruct (net c !! i) as [[p call]|] eqn:Hn; [|unfold serve in E; by rewrite Hn in E].
  pose proof (ca_requests _ _ _ Hc) as Hq. apply mapM_Some in Hq.
  destruct (Forall2_lookup_l _ _ _ _ _ Hq Hn) as (rq & Hi & _). rewrite Hi. cbn [mbind option_bind].
  rewrite decide_False by done. destruct (carried_request _ _ _ _ Hc Hi) as (p' & call' & Hn' & -> & Hrq).
  rewrite Hn in Hn'. injection Hn' as <- <-. rewrite (ca_local _ _ _ Hc).
  cbn [mbind option_bind remsg nodes elections threads applied].
  destruct (nodes c !! p) as [rf|] eqn:Hp;
    [|unfold serve in E; rewrite Hn in E; cbn [mbind option_bind] in E; by rewrite Hp in E].
  rewrite (serve_handle _ _ _ _ _ _ Hn Hp) in E.
  destruct (nodeServer_methods rf (rq_addr rq) call now) as (srv & -> & Hsrv). rewrite <- Hrq in Hsrv.
  cbn [mbind option_bind]. rewrite Hsrv. destruct (handle rf call now) as [[rf' r]|]; [by eexists|done].
Qed.

Lemma can_return w c k j :
  carries ps w c → is_Some (receive c k j) → is_Some (wire_step dial w (WReturn k j)).
Proof using gobZ gobLog.
  intros Hc [c' E]. cbn [wire_step]. rewrite (ca_responses _ _ _ Hc), list_lookup_fmap.
  destruct (replies c !! j) as [[i r]|] eqn:Hj; [|unfold receive in E; by rewrite Hj in E].
  cbn [fmap option_fmap option_map mbind option_bind sent_reply fst snd].
  unfold call_returns. rewrite (local_carried _ _ [] Hc), (ca_local _ _ _ Hc). cbn [remsg threads].
  pose proof E as E'. unfold receive in E'. rewrite Hj in E'. cbn [mbind option_bind] in E'.
  destruct (threads c !! k) as [t|] eqn:Hk; [|done]. cbn [mbind option_bind] in E' |- *.
  assert (waits_for t = Some (i, reply_method r)) as Hw.
  { destruct t, r; try done; (case_decide; [|done]); by subst. }
  rewrite Hw. cbn [mbind option_bind]. rewrite decide_True by done.
  rewrite (returned_reply t i r Hw), (local_carried _ _ _ Hc).
  pose proof (receive_frame c k j (net c) (replies c) (replicate (length (w_requests w)) blank_call) _ Hj) as Hs.
  rewrite <- remsg_self, E in Hs. destruct (receive _ k 0) as [c1|]; [by eexists|done].
Qed.

Lemma can_fail w c k b :
  carries ps w c → is_Some (callFails c k) → is_Some (wire_step dial w (WFail k b)).
Proof using gobZ gobLog.
  intros Hc [c' E]. cbn [wire_step]. unfold call_returns. rewrite !(local_carried _ _ _ Hc), (ca_local _ _ _ Hc).
  cbn [remsg threads]. pose proof E as E'. unfold callFails in E'.
  destruct (threads c !! k) as [t|] eqn:Hk; [|done]. cbn [mbind option_bind].
  destruct (waits_for t) as [[req m]|] eqn:Hw; [|by destruct t]. cbn [mbind option_bind]. rewrite decide_True by done.
  assert (returned t (if b then ConnLost else DialError) = None) as -> by (by destruct t, b).
  pose proof (callFails_frame c k (net c) (replies c) (replicate (length (w_requests w)) blank_call) []) as Hs.
  rewrite <- remsg_self, E in Hs. destruct (callFails (remsg (replicate (length (w_requests w)) blank_call) [] c) k) as [c1|]; [by eexists|done].
Qed.

Lemma can_step w c ev c' :
  carries ps w c → placed c → placed c' → length (nodes c) = length ps → length (nodes c') = length ps →
  (∀ i now, ev = EvServe i now → i ∉ (w_responses w).*1) → cluster_step c ev = Some c' →
  ∃ wev, event_of wev = ev ∧ is_Some (wire_step dial w wev).
Proof using Hdial.
  intros Hc Hpl Hpl' Hl Hl' Hnew E. pose proof (can_be_local w c ev Hc) as Hloc.
  destruct ev as [k t d|k|i t|k j|k|p command|p index snap|p|p t].
  all: try (eexists (WLocal _); split; [reflexivity|]; apply Hloc; [done|by eexists]).
  - exists (WRun k). split; [done|]. exact (can_run _ _ _ _ Hc Hpl Hpl' Hl Hl' E).
  - exists (WServe i t). split; [done|]. apply (can_serve _ c); [done|by apply (Hnew i t)|by eexists].
  - exists (WReturn k j). split; [done|]. apply (can_return _ c); [done|by eexists].
  - exists (WFail k true). split; [done|]. apply (can_fail _ c); [done|by eexists].
Qed.

End Simulation.

(** ** The theorem *)

(** C12. The RPCs over TCP implement those of Cluster.v.  When every node listens where the
    peer list says, a run of the nodes that exchange only method names and gob bytes is a
    run of the cluster with the same events: each request reaches the handler it is for
    with the arguments it was made with, no response is an error, and each reply comes
    back to its caller as the handler gave it.  And the wires lose nothing: whatever the
    cluster can do next, the nodes on the wires can, but for serving a request twice. *)
Theorem wires_implement_cluster ps dial now evs w :
  (∀ i p, ps !! i = Some p → dial (addr p) = Some i) →
  wire_run dial (wire_init ps now) evs = Some w →
  ∃ c, cluster_run (cluster_init ps now) (event_of <$> evs) = Some c ∧ carries ps w c ∧
    (started ps now c → ∀ ev c', service_step c ev = Some c' →
       (∀ i t, ev = EvServe i t → i ∉ (w_responses w).*1) →
       ∃ wev, event_of wev = ev ∧ is_Some (wire_step dial w wev)).
Proof using Type.
  intros Hdial Hr. destruct (wire_run_simulated ps dial Hdial _ _ _ _ (carries_init ps now) Hr) as (c & Hc & Hw).
  exists c. split_and!; [done|done|]. intros Hs ev c' E Hnew.
  assert (Hs' : started ps now c').
  { destruct Hs as [es Hes]. exists (es ++ [ev]). eapply service_run_app; [done|]. simpl. by rewrite E. }
  destruct (started_placed _ _ _ Hs) as [Hpl (h & Hi & _)].
  destruct (started_placed _ _ _ Hs') as [Hpl' (h' & Hi' & _)].
  unfold service_step in E. case_decide; [|done].
  by apply (can_step ps dial Hdial w c ev c' Hw Hpl Hpl'); [apply Hi|apply Hi'| |].
Qed.

End Transport.
Arguments wired Command : clear implicits.
Arguments wire_event Command : clear implicits.

(** ** Codecs of the messages *)
#[export] Instance Gob_bool : Gob bool.
Proof.
  refine (Gob_via (λ b : bool, if b then 1 else 0) (λ z, z =? 1) _). by intros [].
Defined.
#[export] Instance Gob_RequestVoteArgs : Gob RequestVoteArgs.
Proof.
  refine (Gob_via (λ a, (rva_Term a, rva_CandidateId a, rva_LastLogIndex a, rva_LastLogTerm a))
            (λ '(t, i, l, lt), mkRVArgs t i l lt) _). by intros [].
Defined.
#[export] Instance Gob_RequestVoteReply : Gob RequestVoteReply.
Proof.
  refine (Gob_via (λ r, (rvr_Term r, rvr_VoteGranted r)) (λ '(t, g), mkRVReply t g) _). by intros [].
Defined.
#[export] Instance Gob_AppendEntriesArgs {Command} `{Gob Command} : Gob (AppendEntriesArgs Command).
Proof.
  refine (Gob_via (λ a, (aea_Term a, aea_LeaderId a, aea_PrevLogIndex a, aea_PrevLogTerm a, aea_Entries a,
                         aea_LeaderCommit a))
            (λ '(t, l, p, pt, es, lc), mkAEArgs t l p pt es lc) _). by intros [].
Defined.
#[export] Instance Gob_AppendEntriesReply : Gob AppendEntriesReply.
Proof.
  refine (Gob_via (λ r, (aer_Term r, aer_Success r, aer_ConflictTerm r, aer_ConflictIndex r))
            (λ '(t, s, ct, ci), mkAEReply t s ct ci) _). by intros [].
Defined.
#[export] Instance Gob_InstallSnapshotArgs : Gob InstallSnapshotArgs.
Proof.
  refine (Gob_via (λ a, (isa_Term a, isa_LeaderId a, isa_LastIncludedIndex a, isa_LastIncludedTerm a, isa_Data a))
            (λ '(t, l, i, it, d), mkISArgs t l i it d) _). by intros [].
Defined.
#[export] Instance Gob_InstallSnapshotReply : Gob InstallSnapshotReply.
Proof. refine (Gob_via isr_Term mkISReply _). by intros []. Defined.

(** ** Three nodes on the wires *)
Module WireRuns.

Definition dial3 (a : string) : option nat := fst <$> list_find (λ p, addr p = a) Runs.ps3.

Lemma dial3_ok i p : Runs.ps3 !! i = Some p → dial3 (addr p) = Some i.
Proof. destruct i as [|[|[|i]]]; [by intros [= <-]..|done]. Qed.

(** Node 0 is elected and sends a heartbeat to node 2; a call to node 1 fails. *)
Definition elect0 : list (wire_event Z) :=
  [WLocal (EvElection 0 300 260); WRun 6; WServe 0 301; WReturn 7 0; WRun 7; WRun 7; WRun 8;
   WServe 1 302; WReturn 9 1; WRun 7; WFail 8 true].

Definition w1 : wired Z :=
  match wire_run dial3 (wire_init Runs.ps3 0) elect0 with Some w => w | None => wire_init Runs.ps3 0 end.

Lemma w1_run : wire_run dial3 (wire_init Runs.ps3 0) elect0 = Some w1.
Proof. vm_compute. reflexivity. Qed.

Lemma w1_responses : length (w_responses w1) = 2%nat.
Proof. vm_compute. reflexivity. Qed.

(** The cluster that these wires implement has two requests answered. *)
Lemma wires_implement_cluster_witness :
  ∃ c, cluster_run (cluster_init Runs.ps3 0) (event_of <$> elect0) = Some c ∧ carries Runs.ps3 w1 c ∧
    length (replies c) = 2%nat.
Proof.
  destruct (wires_implement_cluster Runs.ps3 dial3 0 elect0 w1 dial3_ok w1_run) as (c & Hr & Hc & _).
  exists c. split; [exact Hr|]. split; [exact Hc|].
  rewrite <- w1_responses, (ca_responses _ _ _ Hc), length_fmap. reflexivity.
Defined.

End WireRuns.
