(* ===== verification/Store.v ===== *)
(** * internal/store: the replicated state machine

    The data of store.go and the operations of [Store] as functions on its
    state.  Each function is what one goroutine does while it holds [s.mu]:

    - a channel is its number; what is sent on channels is a result;
    - [s.rf.Start] and [s.rf.Snapshot] are calls to the Raft peer: [Submit]
      takes the index and leadership [Start] returned, and a snapshot to take is
      a result of [apply] ([go s.rf.Snapshot(index, data)]);
    - [Submit] is split where it releases the lock to wait;
    - pointers in [s.jobs] are never shared, so a map of [*Job] is a map of jobs;
    - Go visits a map in any order: [ListJobs] takes the order as an argument.

    [world] puts a store, its [Submit] calls and the messages of its [applyCh]
    together. *)
From Stdlib Require Import ZArith Lia String.
From stdpp Require Import base tactics list strings numbers option gmap.
From S2P Require Import Prelude.
From S2P Require Import GoTime.
From S2P Require Import Gob.
From S2P Require Import Persister.
From S2P Require Import RaftNode.

Local Open Scope string_scope.
Local Open Scope Z_scope.

(** ** Data *)
Inductive error := ErrNotLeader | ErrTimeout.

Inductive CmdType := CmdUpsert | CmdDelete | CmdRecord.

Record Job := mkJob {
  j_ID : string;
  j_Name : string;
  j_CronExpr : string;
  j_Executor : string;
  j_Payload : string;
  j_CatchupPolicy : string;
  j_NextRun : Time;
  j_LastRun : Time;
  j_LastStatus : string;
  j_CreatedAt : Time
}.

Record RunRecord := mkRun {
  r_JobID : string;
  r_StartedAt : Time;
  r_FinishedAt : Time;
  r_ExitCode : Z;
  r_Output : string;
  r_Status : string
}.

Definition zeroJob : Job :=
  mkJob EmptyString EmptyString EmptyString EmptyString EmptyString EmptyString
    zeroTime zeroTime EmptyString zeroTime.
Definition zeroRun : RunRecord := mkRun EmptyString zeroTime zeroTime 0 EmptyString EmptyString.

Record Cmd := mkCmd {
  c_Type : CmdType;
  c_ReqID : string;
  c_Job : Job;
  c_ID : string;
  c_Run : RunRecord
}.

#[export] Instance CmdType_eq_dec : EqDecision CmdType.
Proof. solve_decision. Defined.
#[export] Instance error_eq_dec : EqDecision error.
Proof. solve_decision. Defined.
#[export] Instance Job_eq_dec : EqDecision Job.
Proof. solve_decision. Defined.
#[export] Instance RunRecord_eq_dec : EqDecision RunRecord.
Proof. solve_decision. Defined.
#[export] Instance Cmd_eq_dec : EqDecision Cmd.
Proof. solve_decision. Defined.

Definition maxRunsPerJob : Z := 10.

Record pendingEntry := mkPending { ch : nat; reqID : string }.

(** [rf] tells whether the store has a Raft peer ([s.rf != nil]). *)
Record Store := mkStore {
  rf : bool;
  jobs : gmap string Job;
  runs : gmap string (list RunRecord);
  pending : gmap Z pendingEntry;
  applyCount : Z;
  snapThreshold : Z
}.

Record storeState := mkState { Jobs : gmap string Job; Runs : gmap string (list RunRecord) }.

(** ** Codecs *)
#[export] Instance Gob_Time : Gob Time.
Proof. refine (Gob_via (λ t, (abs t, loc t)) (λ p, mkTime p.1 p.2) _). by intros []. Defined.

#[export] Instance Gob_Job : Gob Job.
Proof.
  refine (Gob_via (λ j, ((j_ID j, j_Name j, j_CronExpr j, j_Executor j, j_Payload j),
                         (j_CatchupPolicy j, j_NextRun j, j_LastRun j, j_LastStatus j, j_CreatedAt j)))
            (λ '((a, b, c, d, e), (f, g, h, i, k)), mkJob a b c d e f g h i k) _).
  by intros [].
Defined.

#[export] Instance Gob_RunRecord : Gob RunRecord.
Proof.
  refine (Gob_via (λ r, (r_JobID r, r_StartedAt r, r_FinishedAt r, r_ExitCode r, r_Output r, r_Status r))
            (λ '(a, b, c, d, e, f), mkRun a b c d e f) _).
  by intros [].
Defined.

#[export] Instance Gob_CmdType : Gob CmdType.
Proof.
  refine (Gob_via (λ t, match t with CmdUpsert => 0 | CmdDelete => 1 | CmdRecord => 2 end)
            (λ z, if z =? 0 then CmdUpsert else if z =? 1 then CmdDelete else CmdRecord) _).
  by intros [].
Defined.

#[export] Instance Gob_Cmd : Gob Cmd.
Proof.
  refine (Gob_via (λ c, (c_Type c, c_ReqID c, c_Job c, c_ID c, c_Run c))
            (λ '(t, q, j, i, r), mkCmd t q j i r) _).
  by intros [].
Defined.

#[export] Instance Gob_gmap {A} `{Gob A} : Gob (gmap string A).
Proof.
  refine (Gob_via (map_to_list : gmap string A → list (string * A))
            (list_to_map : list (string * A) → gmap string A) _).
  intros m. apply list_to_map_to_list.
Defined.

#[export] Instance Gob_storeState : Gob storeState.
Proof. refine (Gob_via (λ s, (Jobs s, Runs s)) (λ p, mkState p.1 p.2) _). by intros []. Defined.

Section Operations.
Context {gobState : Gob storeState}.
Implicit Types (s : Store) (cmd : Cmd).

(** ** Setters *)
Definition set_jobs (x : gmap string Job) s : Store :=
  mkStore (rf s) x (runs s) (pending s) (applyCount s) (snapThreshold s).
Definition set_runs (x : gmap string (list RunRecord)) s : Store :=
  mkStore (rf s) (jobs s) x (pending s) (applyCount s) (snapThreshold s).
Definition set_pending (x : gmap Z pendingEntry) s : Store :=
  mkStore (rf s) (jobs s) (runs s) x (applyCount s) (snapThreshold s).
Definition set_applyCount (x : Z) s : Store :=
  mkStore (rf s) (jobs s) (runs s) (pending s) x (snapThreshold s).

(** ** Snapshots *)
Definition encodeSnapshot s : bytes := gob_encode (mkState (jobs s) (runs s)).

Definition installSnapshot s (data : bytes) : Store :=
  if zlen data =? 0 then s else
  match gob_decode data with
  | None => s
  | Some (state, _) => set_runs (Runs state) (set_jobs (Jobs state) s)
  end.

(** [persister] is nil in the tests. *)
Definition Make (rf : bool) (persister : option Persister) : Store :=
  let s := mkStore rf ∅ ∅ ∅ 0 100 in
  match persister with
  | Some p =>
      let snap := ReadSnapshot p in
      if 0 <? zlen snap then installSnapshot s snap else s
  | None => s
  end.

(** ** Reads *)
Definition GetJob s (id : string) : Job * bool :=
  match jobs s !! id with
  | None => (zeroJob, false)
  | Some j => (j, true)
  end.

(** [order] holds the keys of the map in the order Go visits them. *)
Definition ListJobs s (order : list string) : list Job := omap (λ id, jobs s !! id) order.

Definition GetRuns s (jobID : string) : list RunRecord := default [] (runs s !! jobID).

(** ** Submit *)
Inductive submit_state :=
| SubmitDone (err : option error)
| SubmitWait (index : Z).

(** Up to the wait; [ch] is a new channel, [index] and [isLeader] what
    [s.rf.Start(cmd)] returned. *)
Definition Submit s cmd (ch : nat) (index : Z) (isLeader : bool) : Store * submit_state :=
  if negb (rf s) then (s, SubmitDone (Some ErrNotLeader)) else
  if negb isLeader then (s, SubmitDone (Some ErrNotLeader)) else
  (set_pending (<[index := mkPending ch (c_ReqID cmd)]> (pending s)) s, SubmitWait index).

(** After five seconds without a notification. *)
Definition submitTimeout s (index : Z) : Store * option error :=
  (set_pending (delete index (pending s)) s, Some ErrTimeout).

(** ** Apply *)

(** The newest [maxRunsPerJob] of a history. *)
Definition capRuns (rs : list RunRecord) : list RunRecord :=
  if zlen rs >? maxRunsPerJob then drop (Z.to_nat (zlen rs - maxRunsPerJob)) rs else rs.

(** The switch of [apply]. *)
Definition applyCmd s cmd : Store :=
  match c_Type cmd with
  | CmdUpsert =>
      let j := c_Job cmd in
      set_jobs (<[j_ID j := j]> (jobs s)) s
  | CmdDelete =>
      let s := set_jobs (delete (c_ID cmd) (jobs s)) s in
      set_runs (delete (c_ID cmd) (runs s)) s
  | CmdRecord =>
      let r := c_Run cmd in
      let s :=
        match jobs s !! r_JobID r with
        | Some j =>
            set_jobs (<[r_JobID r :=
              mkJob (j_ID j) (j_Name j) (j_CronExpr j) (j_Executor j) (j_Payload j)
                (j_CatchupPolicy j) (j_NextRun j) (r_StartedAt r) (r_Status r) (j_CreatedAt j)]>
              (jobs s)) s
        | None => s
        end in
      set_runs (<[r_JobID r := capRuns (default [] (runs s !! r_JobID r) ++ [r])]> (runs s)) s
  end.

(** The new state, what is sent on channels, and the snapshot handed to Raft. *)
Definition apply s cmd (index : Z)
  : Store * list (nat * option error) * option (Z * bytes) :=
  let s := applyCmd s cmd in
  let '(s, sent) :=
    match pending s !! index with
    | Some entry =>
        (set_pending (delete index (pending s)) s,
         [(ch entry, if String.eqb (c_ReqID cmd) (reqID entry) then None else Some ErrNotLeader)])
    | None => (s, [])
    end in
  let s := set_applyCount (applyCount s + 1) s in
  if rf s && (applyCount s >=? snapThreshold s) then
    let data := encodeSnapshot s in
    (set_applyCount 0 s, sent, Some (index, data))
  else (s, sent, None).

(** One turn of [applyLoop]. *)
Definition applyLoop_turn s (msg : ApplyMsg Cmd)
  : Store * list (nat * option error) * option (Z * bytes) :=
  if am_SnapshotValid msg then
    let s := installSnapshot s (am_Snapshot msg) in
    (set_pending ∅ s, (λ '(_, entry), (ch entry, Some ErrNotLeader)) <$> map_to_list (pending s), None)
  else
    match am_Command msg with
    | None => (s, [], None)
    | Some cmd => apply s cmd (am_CommandIndex msg)
    end.

(** Turns on a list of messages. *)
Definition applyMsgs s (msgs : list (ApplyMsg Cmd)) : Store :=
  foldl (λ s m, (applyLoop_turn s m).1.1) s msgs.

(** ** A store with its callers *)
Record waiter := mkWaiter { w_cmd : Cmd; w_index : Z }.

(** The waiting [Submit] calls by channel, every call that was ever started with
    its command and index, what was sent on the channels, the messages handled,
    the calls that returned, and the snapshots handed to Raft. *)
Record world := mkWorld {
  store : Store;
  waiting : gmap nat waiter;
  started : list waiter;
  sent : list (nat * option error);
  handled : list (ApplyMsg Cmd);
  returned : list (nat * option error);
  taken : list (Z * bytes)
}.

Inductive world_event :=
| WSubmit (cmd : Cmd) (index : Z) (isLeader : bool)
| WMsg (msg : ApplyMsg Cmd)
| WReceive (ch : nat)
| WTimeout (ch : nat).

(** The channel of a call is its position among the calls. *)
Definition world_step (w : world) (ev : world_event) : option world :=
  match ev with
  | WSubmit cmd index isLeader =>
      let ch := length (started w) in
      match Submit (store w) cmd ch index isLeader with
      | (s, SubmitDone err) =>
          Some (mkWorld s (waiting w) (started w ++ [mkWaiter cmd (-1)]) (sent w) (handled w)
                  (returned w ++ [(ch, err)]) (taken w))
      | (s, SubmitWait i) =>
          let wt := mkWaiter cmd i in
          Some (mkWorld s (<[ch := wt]> (waiting w)) (started w ++ [wt]) (sent w) (handled w)
                  (returned w) (taken w))
      end
  | WMsg msg =>
      let '(s, out, snap) := applyLoop_turn (store w) msg in
      Some (mkWorld s (waiting w) (started w) (sent w ++ out) (handled w ++ [msg]) (returned w)
              (taken w ++ option_list snap))
  | WReceive ch =>
      _ ← waiting w !! ch;
      e ← list_find (λ x, x.1 = ch) (sent w);
      Some (mkWorld (store w) (delete ch (waiting w)) (started w) (sent w) (handled w)
              (returned w ++ [(ch, e.2.2)]) (taken w))
  | WTimeout ch =>
      wt ← waiting w !! ch;
      let '(s, err) := submitTimeout (store w) (w_index wt) in
      Some (mkWorld s (delete ch (waiting w)) (started w) (sent w) (handled w)
              (returned w ++ [(ch, err)]) (taken w))
  end.

Fixpoint world_run (w : world) (evs : list world_event) : option world :=
  match evs with
  | [] => Some w
  | ev :: evs' => w' ← world_step w ev; world_run w' evs'
  end.

Definition world_init (s : Store) : world := mkWorld s ∅ [] [] [] [] [].

End Operations.
