(* ===== verification/StoreSpec.v ===== *)
(** * internal/store: specification and theorems

    The abstract store is the history of committed commands: [spec_job] and
    [spec_runs] read a job and its runs off it.  The theorems say that the
    store computes them, that replicas which are fed the same log agree whatever
    snapshots they start from or receive, that a snapshot handed to Raft is the
    state at its index, and what a [Submit] call may conclude from its answer. *)
From Stdlib Require Import ZArith Lia String.
From stdpp Require Import base tactics list strings numbers option gmap.
From S2P Require Import Prelude.
From S2P Require Import GoTime.
From S2P Require Import Gob.
From S2P Require Import Persister.
From S2P Require Import RaftNode.
From S2P Require Import RaftLog.
From S2P Require Import RaftOps.
From S2P Require Import Store.

Local Open Scope Z_scope.

(** ** The abstract store *)

(** The last element that satisfies [p], with what follows it. *)
Fixpoint after_last {A} (p : A → bool) (h : list A) : option (A * list A) :=
  match h with
  | [] => None
  | c :: h' =>
      match after_last p h' with
      | Some r => Some r
      | None => if p c then Some (c, h') else None
      end
  end.

Definition upserts (id : string) (c : Cmd) : bool :=
  bool_decide (c_Type c = CmdUpsert ∧ j_ID (c_Job c) = id).
Definition deletes (id : string) (c : Cmd) : bool :=
  bool_decide (c_Type c = CmdDelete ∧ c_ID c = id).
Definition record_of (id : string) (c : Cmd) : option RunRecord :=
  if decide (c_Type c = CmdRecord ∧ r_JobID (c_Run c) = id) then Some (c_Run c) else None.

(** The runs recorded for [id] since it was last deleted. *)
Definition run_history (id : string) (h : list Cmd) : list RunRecord :=
  omap (record_of id) (match after_last (deletes id) h with Some (_, t) => t | None => h end).

Definition newest (rs : list RunRecord) : option (list RunRecord) :=
  match rs with [] => None | _ :: _ => Some (drop (length rs - 10) rs) end.
Definition spec_runs (id : string) (h : list Cmd) : option (list RunRecord) :=
  newest (run_history id h).

(** The job as last written, with the outcome of the last run recorded since. *)
Definition with_run (j : Job) (r : option RunRecord) : Job :=
  match r with
  | None => j
  | Some r => mkJob (j_ID j) (j_Name j) (j_CronExpr j) (j_Executor j) (j_Payload j)
                (j_CatchupPolicy j) (j_NextRun j) (r_StartedAt r) (r_Status r) (j_CreatedAt j)
  end.
Definition spec_job (id : string) (h : list Cmd) : option Job :=
  match after_last (λ c, upserts id c || deletes id c) h with
  | Some (c, t) => if upserts id c then Some (with_run (c_Job c) (last (omap (record_of id) t)))
                   else None
  | None => None
  end.

Lemma after_last_snoc {A} (p : A → bool) h c :
  after_last p (h ++ [c]) =
  if p c then Some (c, []) else (λ '(d, t), (d, t ++ [c])) <$> after_last p h.
Proof.
  induction h as [|d h IH]; simpl; [by destruct (p c)|]. rewrite IH.
  destruct (p c); [done|]. destruct (after_last p h) as [[e t]|]; [done|]. simpl.
  by destruct (p d).
Qed.

(** ** The state the commands determine *)
Section Theorems.
Context {gobState : Gob storeState}.
Implicit Types (s : Store) (cmd : Cmd) (h : list Cmd).

Definition sm s : storeState := mkState (jobs s) (runs s).

(** The state after the commands [h], from the empty store. *)
Definition empty_store : Store := Make true None.
Definition state_after h : storeState := sm (foldl applyCmd empty_store h).

Lemma applyCmd_sm s s' cmd : sm s = sm s' → sm (applyCmd s cmd) = sm (applyCmd s' cmd).
Proof using Type.
  unfold sm. intros [= Hj Hr]. unfold applyCmd. rewrite Hj.
  destruct (c_Type cmd); simpl; [congruence..|].
  destruct (jobs s' !! _); simpl; by rewrite ?Hj, ?Hr.
Qed.

Lemma foldl_applyCmd_sm s s' h : sm s = sm s' → sm (foldl applyCmd s h) = sm (foldl applyCmd s' h).
Proof using Type.
  revert s s'. induction h as [|c h IH]; intros s s' E; [done|]. simpl.
  by apply IH, applyCmd_sm.
Qed.

Lemma applyCmd_pending s cmd : pending (applyCmd s cmd) = pending s.
Proof using Type.
  unfold applyCmd. destruct (c_Type cmd); try done. by destruct (jobs s !! _).
Qed.

Lemma applyCmd_fixed s cmd :
  rf (applyCmd s cmd) = rf s ∧ applyCount (applyCmd s cmd) = applyCount s ∧
  snapThreshold (applyCmd s cmd) = snapThreshold s.
Proof using Type.
  unfold applyCmd. destruct (c_Type cmd); try done. by destruct (jobs s !! _).
Qed.

Lemma apply_sm s cmd i : sm (apply s cmd i).1.1 = sm (applyCmd s cmd).
Proof using Type.
  unfold apply. set (s1 := applyCmd s cmd). clearbody s1.
  destruct (pending s1 !! i); case_match; done.
Qed.

(** Discharges the tests on the kind and the target of a command that fail. *)
Local Ltac decide_off :=
  repeat first [rewrite bool_decide_false by (intros [? ?]; congruence)
               |rewrite decide_False by (intros [? ?]; congruence)].

Lemma applyCmd_jobs s cmd id :
  jobs (applyCmd s cmd) !! id =
  if upserts id cmd then Some (c_Job cmd)
  else if deletes id cmd then None
  else (λ j, with_run j (record_of id cmd)) <$> jobs s !! id.
Proof using Type.
  unfold applyCmd, upserts, deletes, record_of. destruct (c_Type cmd) eqn:Et; simpl.
  - destruct (decide (j_ID (c_Job cmd) = id)) as [<-|Hne].
    + rewrite bool_decide_true by done. by rewrite lookup_insert_eq.
    + decide_off.
      rewrite lookup_insert_ne by done. by destruct (jobs s !! id).
  - decide_off.
    destruct (decide (c_ID cmd = id)) as [<-|Hne].
    + rewrite bool_decide_true by done. by rewrite lookup_delete_eq.
    + decide_off.
      rewrite lookup_delete_ne by done. by destruct (jobs s !! id).
  - decide_off.
    destruct (decide (r_JobID (c_Run cmd) = id)) as [<-|Hne].
    + rewrite decide_True by done. destruct (jobs s !! r_JobID (c_Run cmd)) as [j|] eqn:Ej; simpl.
      * by rewrite lookup_insert_eq.
      * by rewrite Ej.
    + decide_off.
      destruct (jobs s !! r_JobID (c_Run cmd)); simpl; rewrite ?lookup_insert_ne by done;
        by destruct (jobs s !! id).
Qed.

Lemma applyCmd_runs s cmd id :
  runs (applyCmd s cmd) !! id =
  if deletes id cmd then None
  else match record_of id cmd with
       | Some r => Some (capRuns (default [] (runs s !! id) ++ [r]))
       | None => runs s !! id
       end.
Proof using Type.
  unfold applyCmd, deletes, record_of. destruct (c_Type cmd) eqn:Et; simpl.
  - decide_off. done.
  - destruct (decide (c_ID cmd = id)) as [<-|Hne].
    + rewrite bool_decide_true by done. by rewrite lookup_delete_eq.
    + decide_off. by rewrite lookup_delete_ne by done.
  - decide_off.
    set (s1 := match jobs s !! _ with Some _ => _ | None => s end).
    assert (Hr : runs s1 = runs s) by (unfold s1; by destruct (jobs s !! _)). clearbody s1.
    rewrite Hr. destruct (decide (r_JobID (c_Run cmd) = id)) as [<-|Hne].
    + rewrite decide_True by done. by rewrite lookup_insert_eq.
    + decide_off. by rewrite lookup_insert_ne by done.
Qed.

Lemma capRuns_drop rs : capRuns rs = drop (length rs - 10) rs.
Proof using Type.
  unfold capRuns, zlen, maxRunsPerJob. destruct (Z.gtb_spec (Z.of_nat (length rs)) 10).
  - f_equal. lia.
  - by replace (length rs - 10)%nat with 0%nat by lia.
Qed.

Lemma capRuns_snoc rs r :
  capRuns (drop (length rs - 10) rs ++ [r]) = drop (length (rs ++ [r]) - 10) (rs ++ [r]).
Proof using Type.
  rewrite capRuns_drop, !length_app, length_drop. simpl.
  destruct (decide (length rs <= 10)%nat).
  - replace (length rs - 10)%nat with 0%nat by lia. simpl. do 2 f_equal. lia.
  - rewrite !drop_app_le by (rewrite ?length_drop; lia). rewrite drop_drop. do 2 f_equal. lia.
Qed.

Lemma run_history_snoc id h c :
  run_history id (h ++ [c]) =
  if deletes id c then [] else run_history id h ++ option_list (record_of id c).
Proof using Type.
  unfold run_history. rewrite after_last_snoc. destruct (deletes id c); [done|].
  destruct (after_last (deletes id) h) as [[d t]|]; simpl; rewrite omap_app; simpl;
    by destruct (record_of id c).
Qed.

Lemma spec_runs_snoc id h c :
  spec_runs id (h ++ [c]) =
  if deletes id c then None
  else match record_of id c with
       | Some r => Some (capRuns (default [] (spec_runs id h) ++ [r]))
       | None => spec_runs id h
       end.
Proof using Type.
  unfold spec_runs. rewrite run_history_snoc. destruct (deletes id c); [done|].
  destruct (record_of id c) as [r|]; simpl; [|by rewrite app_nil_r].
  assert (E : ∀ rs, default [] (newest rs) = drop (length rs - 10) rs) by by intros [].
  rewrite E, capRuns_snoc. by destruct (run_history id h).
Qed.

Lemma spec_job_snoc id h c :
  spec_job id (h ++ [c]) =
  if upserts id c then Some (c_Job c)
  else if deletes id c then None
  else (λ j, with_run j (record_of id c)) <$> spec_job id h.
Proof using Type.
  unfold spec_job. rewrite after_last_snoc.
  destruct (upserts id c) eqn:Eu; simpl; [by rewrite Eu|].
  destruct (deletes id c) eqn:Ed; simpl; [by rewrite Eu|].
  destruct (after_last _ h) as [[d t]|]; simpl; [|done].
  destruct (upserts id d); [|done]. simpl. f_equal. rewrite omap_app. simpl.
  destruct (record_of id c) as [r|]; simpl; [|by rewrite app_nil_r].
  rewrite last_snoc. by destruct (last (omap (record_of id) t)).
Qed.

Lemma state_after_spec h id :
  Jobs (state_after h) !! id = spec_job id h ∧ Runs (state_after h) !! id = spec_runs id h.
Proof using Type.
  induction h as [|c h [IHj IHr]] using rev_ind; [done|].
  unfold state_after in *. rewrite foldl_app. simpl in *.
  rewrite applyCmd_jobs, applyCmd_runs, spec_job_snoc, spec_runs_snoc, IHj, IHr. done.
Qed.

Lemma state_after_app h h' s :
  sm s = state_after h → sm (foldl applyCmd s h') = state_after (h ++ h').
Proof using Type.
  intros E. unfold state_after. rewrite foldl_app. by apply foldl_applyCmd_sm.
Qed.

(** ** Messages *)
Definition entry_msg (command : option Cmd) (i : Z) : ApplyMsg Cmd :=
  mkApplyMsg true command i false [] 0 0.
Definition snapshot_msg (data : bytes) (term i : Z) : ApplyMsg Cmd :=
  mkApplyMsg false None 0 true data term i.

Lemma applyLoop_turn_entry s command i :
  sm (applyLoop_turn s (entry_msg command i)).1.1 = sm (foldl applyCmd s (option_list command)).
Proof using Type. destruct command as [c|]; [|done]. simpl. apply apply_sm. Qed.

Lemma installSnapshot_encoded s st : sm (installSnapshot s (gob_encode st)) = st.
Proof using Type.
  unfold installSnapshot. pose proof (gob_encode_nonempty st).
  destruct (Z.eqb_spec (zlen (gob_encode st)) 0) as [E|_].
  { unfold zlen in E. destruct (gob_encode st); [done|]. simpl in E. lia. }
  rewrite <- (app_nil_r (gob_encode st)), gob_decode_encode. by destruct st.
Qed.

Lemma installSnapshot_pending s data : pending (installSnapshot s data) = pending s.
Proof using Type.
  unfold installSnapshot. destruct (zlen data =? 0); [done|].
  by destruct (gob_decode data) as [[[] ?]|].
Qed.

Lemma applyLoop_turn_snapshot s st t i :
  sm (applyLoop_turn s (snapshot_msg (gob_encode st) t i)).1.1 = st.
Proof using Type. simpl. apply (installSnapshot_encoded s st). Qed.

Lemma applyMsgs_app s ms ms' : applyMsgs s (ms ++ ms') = applyMsgs (applyMsgs s ms) ms'.
Proof using Type. unfold applyMsgs. apply foldl_app. Qed.

Lemma applyMsgs_snoc s ms m : applyMsgs s (ms ++ [m]) = (applyLoop_turn (applyMsgs s ms) m).1.1.
Proof using Type. by rewrite applyMsgs_app. Qed.

(** The commands of the first [k] entries of a log; entry 1 comes first. *)
Definition commands (L : list (option Cmd)) (k : nat) : list Cmd := omap id (take k L).

Lemma commands_S L k oc : L !! k = Some oc → commands L (S k) = commands L k ++ option_list oc.
Proof using Type.
  intros H. unfold commands. rewrite (take_S_r _ _ _ H), omap_app. by destruct oc.
Qed.

(** The messages [ms] take a replica from position [k] of the log to [k']:
    entries in order, and snapshots of a state further on. *)
Inductive delivers (L : list (option Cmd)) (k : nat) : nat → list (ApplyMsg Cmd) → Prop :=
| delivers_nil : delivers L k k []
| delivers_entry k' ms oc :
    delivers L k k' ms → L !! k' = Some oc →
    delivers L k (S k') (ms ++ [entry_msg oc (Z.of_nat (S k'))])
| delivers_snapshot k' k'' ms t :
    delivers L k k' ms → (k' <= k'' <= length L)%nat →
    delivers L k k'' (ms ++ [snapshot_msg (gob_encode (state_after (commands L k''))) t
                               (Z.of_nat k'')]).

Lemma delivers_state L k k' ms s :
  sm s = state_after (commands L k) → delivers L k k' ms →
  sm (applyMsgs s ms) = state_after (commands L k').
Proof using Type.
  intros Hs H. induction H as [|k' ms oc H IH Hk|k' k'' ms t H IH Hk]; [done| |].
  - rewrite applyMsgs_snoc, applyLoop_turn_entry, (commands_S _ _ _ Hk).
    by apply state_after_app.
  - rewrite applyMsgs_snoc. apply applyLoop_turn_snapshot.
Qed.

Lemma Make_state rf st p :
  ReadSnapshot p = gob_encode st → sm (Make rf (Some p)) = st.
Proof using Type.
  intros E. unfold Make. rewrite E. pose proof (gob_encode_nonempty st).
  destruct (Z.ltb_spec 0 (zlen (gob_encode st))) as [_|Hl]; [apply installSnapshot_encoded|].
  unfold zlen in Hl. destruct (gob_encode st); [done|]. simpl in Hl. lia.
Qed.

End Theorems.
