(* ===== verification/StoreTheorems.v ===== *)
(** * internal/store: the theorems

    The state of the store as a function of the log, snapshots, and the promises
    of [Submit]; see StoreSpec.v for the abstract store. *)
From Stdlib Require Import ZArith Lia String.
From stdpp Require Import base tactics list strings numbers option gmap.
From S2P Require Import Prelude.
From S2P Require Import GoTime.
From S2P Require Import Gob.
From S2P Require Import Persister.
From S2P Require Import RaftNode.
From S2P Require Import RaftLog.
From S2P Require Import RaftOps.
From S2P Require Import Store.
From S2P Require Import StoreSpec.

Local Open Scope Z_scope.

(** ** Waiting calls *)
Section Waiters.
Context {gobState : Gob storeState}.
Implicit Types (s : Store) (w : world).

(** The answer a command earns a waiter for [req]. *)
Definition answer (c : Cmd) (req : string) : option error :=
  if String.eqb (c_ReqID c) req then None else Some ErrNotLeader.

(** The command of a waiter was handled at its index. *)
Definition committed (ms : list (ApplyMsg Cmd)) (wt : waiter) : Prop :=
  ∃ m c, m ∈ ms ∧ am_SnapshotValid m = false ∧ am_Command m = Some c ∧
    am_CommandIndex m = w_index wt ∧ c_ReqID c = c_ReqID (w_cmd wt).

Record world_ok w : Prop := {
  wo_pending : ∀ i e, pending (store w) !! i = Some e →
    (ch e ∉ (sent w).*1) ∧ ∃ wt, started w !! ch e = Some wt ∧ w_index wt = i ∧
      c_ReqID (w_cmd wt) = reqID e;
  wo_sent : NoDup (sent w).*1;
  wo_answer : ∀ c a, (c, a) ∈ sent w → a ≠ Some ErrTimeout ∧
    ∃ wt, started w !! c = Some wt ∧ (a = None → committed (handled w) wt);
  wo_returned : ∀ c a, (c, a) ∈ returned w →
    a = Some ErrTimeout ∨ a = Some ErrNotLeader ∨ (c, a) ∈ sent w
}.

Lemma committed_mono ms ms' wt : committed ms wt → committed (ms ++ ms') wt.
Proof using Type.
  intros (m & c & Hm & H). exists m, c. split; [|done]. apply elem_of_app. by left.
Qed.

Lemma apply_sent s c i :
  let '(s', out, _) := apply s c i in
  match pending s !! i with
  | Some e => pending s' = delete i (pending s) ∧ out = [(ch e, answer c (reqID e))]
  | None => pending s' = pending s ∧ out = []
  end.
Proof using Type.
  unfold apply. pose proof (applyCmd_pending s c) as Hp. set (s1 := applyCmd s c) in *. clearbody s1.
  rewrite Hp.
  destruct (pending s !! i) as [e|]; cbn; destruct (_ && _); cbn; rewrite ?Hp; by split.
Qed.

Lemma world_ok_init s : pending s = ∅ → world_ok (world_init s).
Proof using Type.
  intros Hp. constructor; simpl; [|constructor|by intros ?? ?%not_elem_of_nil..].
  intros i e. by rewrite Hp, lookup_empty.
Qed.

Lemma world_ok_submit w c i isl w' :
  world_ok w → world_step w (WSubmit c i isl) = Some w' → world_ok w'.
Proof using Type.
  intros [Hp Hs Ha Hr]. simpl. unfold Submit.
  assert (Hfresh : length (started w) ∉ (sent w).*1).
  { intros Hin. apply list_elem_of_fmap in Hin as ([c' a'] & Hc & Hin). simpl in Hc.
    destruct (Ha _ _ Hin) as (_ & wt & Hwt & _). apply lookup_lt_Some in Hwt. lia. }
  assert (Hold : ∀ x wt wt', started w !! x = Some wt → (started w ++ [wt']) !! x = Some wt)
    by (intros; by apply lookup_app_l_Some).
  assert (Hans : ∀ wt' x a, (x, a) ∈ sent w → a ≠ Some ErrTimeout ∧
    ∃ wt, (started w ++ [wt']) !! x = Some wt ∧ (a = None → committed (handled w) wt)).
  { intros wt' x a Hin. destruct (Ha x a Hin) as (Hne & wt & Hwt & ?). split; [done|].
    exists wt. split; [by apply Hold|done]. }
  assert (Hfail : ∀ wt', world_ok (mkWorld (store w) (waiting w) (started w ++ [wt']) (sent w)
            (handled w) (returned w ++ [(length (started w), Some ErrNotLeader)]) (taken w))).
  { intros wt'. constructor; simpl; [|done|by apply Hans|].
    - intros j e He. destruct (Hp j e He) as (Hni & wt & Hwt & Hw). split; [done|].
      exists wt. split; [by apply Hold|done].
    - intros x a [Hin|Hin]%elem_of_app; [by apply Hr|]. apply list_elem_of_singleton in Hin.
      simplify_eq. by right; left. }
  destruct (negb (rf (store w))); [intros E; simplify_eq; apply Hfail|].
  destruct (negb isl); intros E; simplify_eq; [apply Hfail|].
  constructor; simpl; [|done|by apply Hans|by apply Hr].
  intros j e. rewrite lookup_insert_Some. intros [[<- <-]|[Hne He]]; simpl.
  - split; [done|]. exists (mkWaiter c i). split; [by apply lookup_snoc_Some; right|done].
  - destruct (Hp j e He) as (Hni & wt & Hwt & Hw). split; [done|].
    exists wt. split; [by apply Hold|done].
Qed.

Lemma world_ok_apply w c i m s' out snap :
  world_ok w → am_SnapshotValid m = false → am_Command m = Some c → am_CommandIndex m = i →
  apply (store w) c i = (s', out, snap) →
  world_ok (mkWorld s' (waiting w) (started w) (sent w ++ out) (handled w ++ [m]) (returned w)
              (taken w ++ option_list snap)).
Proof using Type.
  intros [Hp Hs Ha Hr] Hv Hc Hi E. pose proof (apply_sent (store w) c i) as H. rewrite E in H.
  assert (Hold : ∀ x a, (x, a) ∈ sent w → a ≠ Some ErrTimeout ∧
    ∃ wt, started w !! x = Some wt ∧ (a = None → committed (handled w ++ [m]) wt)).
  { intros x a Hin. destruct (Ha x a Hin) as (Hne & wt & Hwt & Hcm). split; [done|].
    exists wt. split; [done|]. intros. by apply committed_mono, Hcm. }
  destruct (pending (store w) !! i) as [e|] eqn:Ee; destruct H as [Hp' ->].
  - destruct (Hp i e Ee) as (Hni & wt & Hwt & Hwi & Hreq).
    constructor; simpl.
    + intros j e' He'. rewrite Hp' in He'. apply lookup_delete_Some in He' as [Hne He'].
      destruct (Hp j e' He') as (Hni' & wt' & Hwt' & Hwi' & Hreq'). split; [|by exists wt'].
      rewrite fmap_app. simpl. rewrite not_elem_of_app, not_elem_of_cons. split; [done|].
      split; [|apply not_elem_of_nil]. intros Hch. rewrite Hch in Hwt'. congruence.
    + rewrite fmap_app. simpl. apply NoDup_app. split_and!; [done| |apply NoDup_singleton].
      intros x Hx ->%list_elem_of_singleton. done.
    + intros x a [Hin|Hin]%elem_of_app; [by apply Hold|].
      apply list_elem_of_singleton in Hin. simplify_eq. unfold answer.
      destruct (String.eqb_spec (c_ReqID c) (reqID e)) as [Heq|]; (split; [done|exists wt; split; [done|]]);
        [|done]. intros _. exists m, c. split_and!; try done; [|congruence].
      apply elem_of_app. right. by apply list_elem_of_singleton.
    + intros x a Hin. destruct (Hr x a Hin) as [?|[?|?]]; [by left|by right; left|].
      right. right. apply elem_of_app. by left.
  - rewrite app_nil_r. constructor; simpl; [by rewrite Hp'|done|done|done].
Qed.

(** A snapshot message fails every waiter. *)
Lemma world_ok_snapshot w m s' out snap :
  world_ok w → am_SnapshotValid m = true → applyLoop_turn (store w) m = (s', out, snap) →
  world_ok (mkWorld s' (waiting w) (started w) (sent w ++ out) (handled w ++ [m]) (returned w)
              (taken w ++ option_list snap)).
Proof using Type.
  intros [Hp Hs Ha Hr] Hv E. unfold applyLoop_turn in E. rewrite Hv in E.
  rewrite installSnapshot_pending in E. simplify_eq.
  set (f := λ '(_, entry), (ch entry, Some ErrNotLeader)).
  set (out := f <$> map_to_list (pending (store w))).
  assert (Hout : ∀ x a, (x, a) ∈ out → a = Some ErrNotLeader ∧
    ∃ i e, pending (store w) !! i = Some e ∧ x = ch e).
  { intros x a Hin. apply list_elem_of_fmap in Hin as ([i e] & Hf & Hin). simpl in Hf.
    apply elem_of_map_to_list in Hin. simplify_eq. split; [done|]. by exists i, e. }
  assert (HND : NoDup out.*1).
  { unfold out. rewrite <- list_fmap_compose. apply NoDup_fmap_2_strong.
    - intros [i1 e1] [i2 e2] H1%elem_of_map_to_list H2%elem_of_map_to_list Heq. simpl in Heq.
      destruct (Hp _ _ H1) as (_ & wt1 & Hw1 & <- & Hr1), (Hp _ _ H2) as (_ & wt2 & Hw2 & <- & Hr2).
      rewrite Heq in Hw1. simplify_eq. congruence.
    - apply NoDup_map_to_list. }
  constructor; simpl.
  - intros i e. by rewrite lookup_empty.
  - rewrite fmap_app. apply NoDup_app. split_and!; [done| |done].
    intros x Hx Hx'. apply list_elem_of_fmap in Hx' as ([x' a] & -> & Hin).
    apply Hout in Hin as (_ & i & e & He & ->). by apply (Hp i e He).
  - intros x a [Hin|Hin]%elem_of_app.
    + destruct (Ha x a Hin) as (Hne & wt & Hwt & Hc). split; [done|]. exists wt. split; [done|].
      intros. by apply committed_mono, Hc.
    + apply Hout in Hin as (-> & i & e & He & ->). split; [done|].
      destruct (Hp i e He) as (_ & wt & Hwt & _). by exists wt.
  - intros x a Hin. destruct (Hr x a Hin) as [?|[?|?]]; [by left|by right; left|].
    right. right. apply elem_of_app. by left.
Qed.

Lemma world_ok_step w ev w' : world_ok w → world_step w ev = Some w' → world_ok w'.
Proof using Type.
  intros Hw E. destruct ev as [c i isl|m|x|x]; [by eapply world_ok_submit| | |].
  - simpl in E. destruct (applyLoop_turn (store w) m) as [[s' out] snap] eqn:Et. simplify_eq.
    destruct (am_SnapshotValid m) eqn:Hv; [by eapply world_ok_snapshot|].
    unfold applyLoop_turn in Et. rewrite Hv in Et.
    destruct (am_Command m) as [c|] eqn:Hc; [by eapply world_ok_apply|]. simplify_eq.
    destruct Hw as [Hp Hs Ha Hr]. rewrite app_nil_r. constructor; simpl; try done.
    intros x a Hin. destruct (Ha x a Hin) as (Hne & wt & Hwt & Hcm). split; [done|].
    exists wt. split; [done|]. intros. by apply committed_mono, Hcm.
  - simpl in E. destruct (waiting w !! x) as [wt|]; [|done]. simpl in E.
    destruct (list_find _ (sent w)) as [[k [y a]]|] eqn:Ef; [|done]. simpl in E. simplify_eq.
    apply list_find_Some in Ef as (Hk & Hy & _). simpl in Hy. subst y.
    destruct Hw as [Hp Hs Ha Hr]. constructor; simpl; try done.
    intros y b [Hin|Hin]%elem_of_app; [by apply Hr|]. apply list_elem_of_singleton in Hin.
    simplify_eq. right. right. by eapply list_elem_of_lookup_2.
  - simpl in E. destruct (waiting w !! x) as [wt|]; [|done]. simpl in E. simplify_eq.
    destruct Hw as [Hp Hs Ha Hr]. constructor; simpl; try done.
    + intros i e He. apply lookup_delete_Some in He as [_ He]. by apply Hp.
    + intros y b [Hin|Hin]%elem_of_app; [by apply Hr|]. apply list_elem_of_singleton in Hin.
      simplify_eq. by left.
Qed.

Lemma world_ok_run w evs w' : world_ok w → world_run w evs = Some w' → world_ok w'.
Proof using Type.
  revert w. induction evs as [|ev evs IH]; intros w Hw; simpl; [by intros [= <-]|].
  destruct (world_step w ev) as [w1|] eqn:E; [|done]. simpl. apply IH. by eapply world_ok_step.
Qed.

(** ** The state along a run *)
Lemma world_state_step w ev w' :
  world_step w ev = Some w' →
  ∃ ms, handled w' = handled w ++ ms ∧ sm (store w') = sm (applyMsgs (store w) ms) ∧
    match ev with WMsg m => ms = [m] | _ => ms = [] end.
Proof using Type.
  destruct ev as [c i isl|m|x|x]; simpl.
  - unfold Submit. destruct (negb (rf (store w))); [|destruct (negb isl)]; intros; simplify_eq;
      exists []; rewrite app_nil_r; done.
  - destruct (applyLoop_turn (store w) m) as [[s' out] snap] eqn:Et. intros. simplify_eq.
    exists [m]. split_and!; [done| |done]. simpl. by rewrite Et.
  - intros E. destruct (waiting w !! x); [|done]. simpl in E. destruct (list_find _ _); [|done].
    simpl in E. simplify_eq. exists []. rewrite app_nil_r. done.
  - intros E. destruct (waiting w !! x); [|done]. simpl in E. simplify_eq.
    exists []. rewrite app_nil_r. done.
Qed.

Lemma applyLoop_turn_sm s s' m : sm s = sm s' → sm (applyLoop_turn s m).1.1 = sm (applyLoop_turn s' m).1.1.
Proof using Type.
  intros E. unfold applyLoop_turn. destruct (am_SnapshotValid m).
  - unfold installSnapshot. destruct (zlen (am_Snapshot m) =? 0); [done|].
    by destruct (gob_decode (am_Snapshot m)) as [[st r]|].
  - destruct (am_Command m) as [c|]; [|done]. rewrite !apply_sm. by apply applyCmd_sm.
Qed.

Lemma applyMsgs_sm s s' ms : sm s = sm s' → sm (applyMsgs s ms) = sm (applyMsgs s' ms).
Proof using Type.
  revert s s'. induction ms as [|m ms IH]; intros s s' E; [done|]. simpl.
  by apply IH, applyLoop_turn_sm.
Qed.

Lemma world_state_run w evs w' :
  world_run w evs = Some w' →
  ∃ ms, handled w' = handled w ++ ms ∧ sm (store w') = sm (applyMsgs (store w) ms).
Proof using Type.
  revert w. induction evs as [|ev evs IH]; intros w; simpl.
  { intros [= <-]. exists []. by rewrite app_nil_r. }
  destruct (world_step w ev) as [w1|] eqn:E; [|done]. simpl. intros H.
  destruct (world_state_step w ev w1 E) as (ms1 & Hh1 & Hs1 & _).
  destruct (IH w1 H) as (ms2 & Hh2 & Hs2). exists (ms1 ++ ms2).
  rewrite Hh2, Hh1, app_assoc. split; [done|]. rewrite Hs2, applyMsgs_app. by apply applyMsgs_sm.
Qed.

End Waiters.

(** ** The theorems *)
Section Claims.
Context {gobState : Gob storeState}.
Implicit Types (s : Store) (w : world).

(** Commands applied at given indices, waiters and snapshots included. *)
Definition applyAll s (cs : list (Cmd * Z)) : Store := foldl (λ s '(c, i), (apply s c i).1.1) s cs.

Lemma applyAll_sm s cs : sm (applyAll s cs) = sm (foldl applyCmd s cs.*1).
Proof using Type.
  assert (H : ∀ s', sm s = sm s' → sm (applyAll s cs) = sm (foldl applyCmd s' cs.*1)); [|by apply H].
  revert s. induction cs as [|[c i] cs IH]; intros s s' E; [done|]. simpl. apply IH.
  rewrite apply_sm. by apply applyCmd_sm.
Qed.

Lemma applyAll_spec r cs id :
  jobs (applyAll (Make r None) cs) !! id = spec_job id cs.*1 ∧
  runs (applyAll (Make r None) cs) !! id = spec_runs id cs.*1.
Proof using Type.
  pose proof (applyAll_sm (Make r None) cs) as E.
  rewrite (foldl_applyCmd_sm (Make r None) empty_store) in E by done.
  pose proof (state_after_spec cs.*1 id) as [Hj Hr]. unfold state_after in *. rewrite <- E in *.
  done.
Qed.

(** C22. The store is what its history says: after any sequence of committed
    commands a job is the one last written and not deleted since, with the
    outcome of the last run recorded after that; its runs are the newest ten of
    those recorded since it was last deleted ([newest] keeps [maxRunsPerJob]), in their
    order.  (The commands are those given to [apply]; its waiters and its snapshots do not
    matter.) *)
Theorem apply_refines_history r cs id :
  let s := applyAll (Make r None) cs in
  GetJob s id = match spec_job id cs.*1 with Some j => (j, true) | None => (zeroJob, false) end ∧
  GetRuns s id = default [] (newest (run_history id cs.*1)).
Proof using Type.
  destruct (applyAll_spec r cs id) as [Hj Hr]. cbv zeta. unfold GetJob, GetRuns. by rewrite Hj, Hr.
Qed.

(** [GetRuns] returns the newest runs, oldest first, and never more than ten. *)
Theorem GetRuns_newest_ten r cs id :
  let s := applyAll (Make r None) cs in
  (∃ old, run_history id cs.*1 = old ++ GetRuns s id) ∧
  length (GetRuns s id) = Nat.min 10 (length (run_history id cs.*1)).
Proof using Type.
  destruct (applyAll_spec r cs id) as [_ Hr]. cbv zeta. unfold GetRuns. rewrite Hr. unfold spec_runs.
  destruct (run_history id cs.*1) as [|x l] eqn:E; [by split; [exists []|]|].
  rewrite <- E. unfold newest. rewrite E, <- E. simpl default. split.
  - eexists. symmetry. apply take_drop.
  - rewrite length_drop. lia.
Qed.

Lemma world_delivers s evs w L k k' :
  sm s = state_after (commands L k) → world_run (world_init s) evs = Some w →
  delivers L k k' (handled w) → sm (store w) = state_after (commands L k').
Proof using Type.
  intros Hs Hrun Hd. destruct (world_state_run _ _ _ Hrun) as (ms & Hh & ->).
  simpl in Hh. subst ms. by apply (delivers_state L k).
Qed.

(** Replicas agree: two stores that start from the empty state or from
    snapshots of one log, and receive its entries in order or further snapshots
    of it, have the same jobs and runs once they are at the same position, however
    their own [Submit] calls, timeouts and snapshots interleave. *)
Theorem replicas_agree L s1 s2 evs1 evs2 w1 w2 k1 k2 k :
  sm s1 = state_after (commands L k1) → sm s2 = state_after (commands L k2) →
  world_run (world_init s1) evs1 = Some w1 → world_run (world_init s2) evs2 = Some w2 →
  delivers L k1 k (handled w1) → delivers L k2 k (handled w2) →
  jobs (store w1) = jobs (store w2) ∧ runs (store w1) = runs (store w2).
Proof using Type.
  intros H1 H2 R1 R2 D1 D2. pose proof (world_delivers _ _ _ _ _ _ H1 R1 D1) as E1.
  pose proof (world_delivers _ _ _ _ _ _ H2 R2 D2) as E2. rewrite <- E2 in E1.
  unfold sm in E1. by simplify_eq.
Qed.

(** *** Snapshots *)
Lemma delivers_snoc_inv L k k' ms m :
  delivers L k k' (ms ++ [m]) → ∃ k1, delivers L k k1 ms ∧
    ((∃ oc, L !! k1 = Some oc ∧ k' = S k1 ∧ m = entry_msg oc (Z.of_nat (S k1))) ∨
     am_SnapshotValid m = true).
Proof using Type.
  intros H. inversion H as [Hn|k1 ms1 oc Hd Hl Hk Hm|k1 k2 ms1 t Hd Hk1 Hk2 Hm].
  - by destruct ms.
  - apply app_inj_tail in Hm as [-> <-]. exists k1. split; [done|]. left. by exists oc.
  - apply app_inj_tail in Hm as [-> <-]. exists k1. split; [done|]. by right.
Qed.

Lemma apply_snapshot s c i i' d :
  (apply s c i).2 = Some (i', d) → i' = i ∧ d = gob_encode (sm (applyCmd s c)).
Proof using Type.
  unfold apply. set (s1 := applyCmd s c). clearbody s1.
  destruct (pending s1 !! i); cbn; destruct (_ && _); cbn; intros [= <- <-]; done.
Qed.

Lemma world_run_snoc w evs ev w' :
  world_run w (evs ++ [ev]) = Some w' →
  ∃ w1, world_run w evs = Some w1 ∧ world_step w1 ev = Some w'.
Proof using Type.
  revert w. induction evs as [|e evs IH]; intros w; simpl.
  - destruct (world_step w ev) as [w1|] eqn:E; [|done]. simpl. intros [= <-]. by exists w.
  - destruct (world_step w e) as [w1|]; [|done]. simpl. apply IH.
Qed.

Lemma taken_state L s evs w k k' :
  sm s = state_after (commands L k) → world_run (world_init s) evs = Some w →
  delivers L k k' (handled w) → ∀ i d, (i, d) ∈ taken w →
  ∃ n, i = Z.of_nat n ∧ d = gob_encode (state_after (commands L n)).
Proof using Type.
  intros Hs. revert w k'. induction evs as [|ev evs IH] using rev_ind; intros w k' Hrun Hd i d Hin.
  { simpl in Hrun. simplify_eq. by apply not_elem_of_nil in Hin. }
  apply world_run_snoc in Hrun as (w1 & Hrun & Hstep).
  destruct (world_state_step _ _ _ Hstep) as (ms & Hh & _ & Hms).
  assert (Hsame : ms = [] → taken w = taken w1 → ∃ n, i = Z.of_nat n ∧
            d = gob_encode (state_after (commands L n))).
  { intros -> Ht. rewrite Ht in Hin. rewrite app_nil_r in Hh. rewrite Hh in Hd. by eapply IH. }
  destruct ev as [c j isl|m|x|x].
  - apply Hsame; [done|]. simpl in Hstep. unfold Submit in Hstep.
    repeat case_match; simplify_eq; done.
  - subst ms. rewrite Hh in Hd. apply delivers_snoc_inv in Hd as (k1 & Hd & Hm).
    simpl in Hstep. destruct (applyLoop_turn (store w1) m) as [[s' out] snap] eqn:Et. simplify_eq.
    simpl in Hin. apply elem_of_app in Hin as [Hin|Hin]; [by eapply IH|].
    destruct snap as [[i' d']|]; simpl in Hin; [|by apply not_elem_of_nil in Hin].
    apply list_elem_of_singleton in Hin. simplify_eq.
    destruct Hm as [(oc & Hoc & -> & ->)|Hv]; [|unfold applyLoop_turn in Et; rewrite Hv in Et; done].
    destruct oc as [c|]; [|by simpl in Et].
    change (apply (store w1) c (Z.of_nat (S k1)) = (s', out, Some (i', d'))) in Et.
    pose proof (apply_snapshot (store w1) c (Z.of_nat (S k1)) i' d') as Ha. rewrite Et in Ha.
    destruct (Ha eq_refl) as [-> ->].
    exists (S k1). split; [done|]. rewrite (commands_S _ _ _ Hoc). simpl. f_equal.
    apply (state_after_app _ [c] (store w1)). by eapply world_delivers.
  - apply Hsame; [done|]. simpl in Hstep. destruct (waiting w1 !! x); [|done]. simpl in Hstep.
    destruct (list_find _ _); [|done]. simpl in Hstep. by simplify_eq.
  - apply Hsame; [done|]. simpl in Hstep. destruct (waiting w1 !! x); [|done]. simpl in Hstep.
    by simplify_eq.
Qed.

(** C31. Snapshots are recovery points, for a store that is given the log as [delivers]
    says: every entry in order, each once, and snapshots only of the point that the store
    has reached or of a later one, each holding the state after the log up to there.  Then every snapshot that the store hands to
    [rf.Snapshot] with an index encodes the state after exactly the log's entries up to
    that index, and a store made from a persister that holds it restarts in that state;
    with the entries after it, again delivered so, it is where a replica that never
    stopped is.  (raft.go does not ensure [delivers]: a snapshot below lastApplied is
    handed over too, see [stores_diverge], and what the store then snapshots lacks
    entries.) *)
Theorem snapshot_recovery L s evs w k k' i d p r ms k'' :
  sm s = state_after (commands L k) → world_run (world_init s) evs = Some w →
  delivers L k k' (handled w) → (i, d) ∈ taken w → ReadSnapshot p = d →
  sm (Make r (Some p)) = state_after (commands L (Z.to_nat i)) ∧
  (delivers L (Z.to_nat i) k'' ms →
   sm (applyMsgs (Make r (Some p)) ms) = state_after (commands L k'')).
Proof using Type.
  intros Hs Hrun Hd Hin Hp.
  destruct (taken_state L s evs w k k' Hs Hrun Hd i d Hin) as (n & -> & ->).
  rewrite Nat2Z.id. assert (Hm : sm (Make r (Some p)) = state_after (commands L n))
    by by apply Make_state.
  split; [done|]. by apply delivers_state.
Qed.

Lemma apply_count s c i :
  rf s = true → let '(s', _, snap) := apply s c i in
  rf s' = true ∧ snapThreshold s' = snapThreshold s ∧
  (if applyCount s + 1 >=? snapThreshold s then applyCount s' = 0 ∧ is_Some snap
   else applyCount s' = applyCount s + 1 ∧ snap = None).
Proof using Type.
  intros Hrf. unfold apply. destruct (applyCmd_fixed s c) as (Hr & Hc & Ht).
  set (s1 := applyCmd s c) in *. clearbody s1.
  destruct (pending s1 !! i); cbn; rewrite Hr, Hc, Ht, Hrf; cbn;
    destruct (applyCount s + 1 >=? snapThreshold s); cbn; rewrite ?Hr, ?Hc, ?Ht; by split_and!.
Qed.

(** The snapshots taken along a sequence of commands. *)
Fixpoint snapshots s (cs : list (Cmd * Z)) : list (Z * bytes) :=
  match cs with
  | [] => []
  | (c, i) :: cs' => let '(s', _, snap) := apply s c i in option_list snap ++ snapshots s' cs'
  end.

(** The log is compacted every hundred commands: [n] commands make exactly
    [n / 100] snapshots, and the counter is what is left over. *)
Theorem snapshot_every_100 cs :
  zlen (snapshots (Make true None) cs) = zlen cs / 100 ∧
  applyCount (applyAll (Make true None) cs) = zlen cs mod 100.
Proof using Type.
  assert (H : ∀ s, rf s = true → snapThreshold s = 100 → 0 <= applyCount s < 100 →
    zlen (snapshots s cs) = (applyCount s + zlen cs) / 100 ∧
    applyCount (applyAll s cs) = (applyCount s + zlen cs) mod 100).
  { induction cs as [|[c i] cs IH]; intros s Hr Ht Hb; cbn [snapshots applyAll foldl].
    { change (applyAll s []) with s. rewrite !zlen_nil, Z.add_0_r, Z.div_small, Z.mod_small by lia.
      done. }
    pose proof (apply_count s c i Hr) as Ha. unfold applyAll in *. cbn [foldl].
    destruct (apply s c i) as [[s' out] snap]. destruct Ha as (Hr' & Ht' & Ha). rewrite Ht in *.
    cbn [fst]. destruct (Z.geb_spec (applyCount s + 1) 100) as [Hge|Hlt].
    - destruct Ha as [Hz [d ->]]. destruct (IH s' Hr' ltac:(lia) ltac:(lia)) as [H1 H2].
      rewrite Hz in *. simpl app. rewrite !zlen_cons, H1, H2.
      replace (applyCount s + (zlen cs + 1)) with (0 + zlen cs + 1 * 100) by lia.
      rewrite Z.div_add, Z_mod_plus_full by lia. split; [lia|done].
    - destruct Ha as [Hz ->]. destruct (IH s' Hr' ltac:(lia) ltac:(lia)) as [H1 H2].
      rewrite Hz in *. simpl app. rewrite zlen_cons, H1, H2.
      replace (applyCount s + (zlen cs + 1)) with (applyCount s + 1 + zlen cs) by lia. done. }
  apply (H (Make true None)); done.
Qed.

(** *** [Submit] *)

(** When [Submit] returns no error, a command with its request id was
    committed and applied at the very index Raft gave it; with request ids that
    are unique, it is the command submitted. *)
Theorem submit_ok_committed s evs w x :
  pending s = ∅ → world_run (world_init s) evs = Some w → (x, None) ∈ returned w →
  ∃ wt, started w !! x = Some wt ∧ committed (handled w) wt.
Proof using Type.
  intros Hp Hrun Hin. destruct (world_ok_run _ _ _ (world_ok_init s Hp) Hrun) as [_ _ Ha Hr].
  destruct (Hr _ _ Hin) as [?|[?|Hs]]; [done|done|].
  destruct (Ha _ _ Hs) as (_ & wt & Hwt & Hc). exists wt. split; [done|by apply Hc].
Qed.

(** A channel is sent to at most once, so no send on a channel of capacity one
    ever blocks the apply loop, and a waiter that was answered is not registered
    any more. *)
Theorem notified_at_most_once s evs w :
  pending s = ∅ → world_run (world_init s) evs = Some w →
  NoDup (sent w).*1 ∧ ∀ i e, pending (store w) !! i = Some e → (ch e ∉ (sent w).*1).
Proof using Type.
  intros Hp Hrun. destruct (world_ok_run _ _ _ (world_ok_init s Hp) Hrun) as [H1 H2 _ _].
  split; [done|]. intros i e He. by apply (H1 i e He).
Qed.

(** A timeout can silence a newer call: if the index of a waiting call is given
    out again after a change of leader, the first call's timeout removes the
    second call's entry, and the second command is then committed without its
    caller being told. *)
Theorem timeout_drops_newer_waiter s c1 c2 i :
  rf s = true →
  ∃ w, world_run (world_init s)
         [WSubmit c1 i true; WSubmit c2 i true; WTimeout 0; WMsg (entry_msg (Some c2) i)] = Some w ∧
       committed (handled w) (mkWaiter c2 i) ∧ sent w = [] ∧
       waiting w !! 1%nat = Some (mkWaiter c2 i) ∧ world_step w (WReceive 1) = None.
Proof using Type.
  intros Hr. cbn [world_run world_step world_init]. unfold Submit. simpl. rewrite Hr. simpl.
  rewrite Hr. simpl.
  rewrite lookup_insert_ne, lookup_insert_eq by done. simpl.
  set (s1 := set_pending _ _).
  assert (Hp : pending s1 !! i = None) by (unfold s1; simpl; by rewrite lookup_delete_eq).
  change (applyLoop_turn s1 (entry_msg (Some c2) i)) with (apply s1 c2 i).
  clearbody s1. pose proof (apply_sent s1 c2 i) as Ha. rewrite Hp in Ha.
  destruct (apply s1 c2 i) as [[s2 out] snap]. destruct Ha as [_ ->].
  eexists. split; [done|]. cbn [waiting sent handled].
  assert (Hw : delete 0%nat (<[1%nat := mkWaiter c2 i]> (<[0%nat := mkWaiter c1 i]> (∅ : gmap nat waiter)))
             !! 1%nat = Some (mkWaiter c2 i)).
  { rewrite lookup_delete_ne, lookup_insert_eq by done. done. }
  split_and!; [|done|done|].
  - exists (entry_msg (Some c2) i), c2. split_and!; try done. by apply list_elem_of_singleton.
  - rewrite Hw. done.
Qed.

(** *** Raft and the store *)

(** The messages of [n] entries after [a] apply their commands. *)
Lemma entries_applied (peer : Raft Cmd) n a s s' ms :
  mapM (entryMsg peer) (seqZ (a + 1) (Z.of_nat n)) = Some ms → lastIncludedIndex peer <= a →
  sm s = sm s' →
  sm (applyMsgs s ms) =
  sm (foldl applyCmd s' (omap le_Command (take n (drop (Z.to_nat (logIndex peer (a + 1))) (log peer))))).
Proof using Type.
  revert a s s' ms. induction n as [|n IH]; intros a s s' ms Hm Ha Hs.
  { simpl in Hm. injection Hm as <-. rewrite take_0. exact Hs. }
  rewrite seqZ_cons in Hm by lia. cbn [mapM] in Hm.
  destruct (entryMsg peer (a + 1)) as [m|] eqn:Em; [|done]. simpl in Hm.
  destruct (mapM _ _) as [ms'|] eqn:Hms; [|done]. simpl in Hm. injection Hm as <-.
  replace (Z.pred (Z.of_nat (S n))) with (Z.of_nat n) in Hms by lia.
  replace (Z.succ (a + 1)) with (a + 1 + 1) in Hms by lia.
  unfold entryMsg in Em. rewrite idx_lookup in Em by (unfold logIndex; lia).
  destruct (log peer !! Z.to_nat (logIndex peer (a + 1))) as [e|] eqn:Ee; [|done].
  simpl in Em. injection Em as <-.
  rewrite (drop_S _ _ _ Ee). cbn [take].
  replace (S (Z.to_nat (logIndex peer (a + 1)))) with (Z.to_nat (logIndex peer (a + 1 + 1)))
    by (unfold logIndex; lia).
  assert (Ht : sm (applyLoop_turn s (mkApplyMsg true (le_Command e) (a + 1) false [] 0 0)).1.1 =
               sm (foldl applyCmd s' (option_list (le_Command e)))).
  { rewrite (applyLoop_turn_entry s (le_Command e) (a + 1)). by apply foldl_applyCmd_sm. }
  change (applyMsgs s (_ :: ms')) with
    (applyMsgs (applyLoop_turn s (mkApplyMsg true (le_Command e) (a + 1) false [] 0 0)).1.1 ms').
  rewrite (IH (a + 1) _ _ ms' Hms ltac:(lia) Ht). simpl. by destruct (le_Command e).
Qed.

(** What a peer's apply loop delivers is what the store applies: the messages
    of an uncontended apply loop take the store through the commands of the log
    entries after [lastApplied] up to the commit index, in order, each once. *)
Theorem store_follows_log (peer : Raft Cmd) fuel s :
  apply_ok peer → pendingSnapshot peer = None →
  commitIndex peer - lastApplied peer < Z.of_nat fuel →
  ∃ ms peer' es, drain fuel peer ApplyTop = Some (ms, peer') ∧
    lastApplied peer' = commitIndex peer ∧
    es = take (Z.to_nat (commitIndex peer - lastApplied peer))
           (drop (Z.to_nat (logIndex peer (lastApplied peer + 1))) (log peer)) ∧
    zlen es = commitIndex peer - lastApplied peer ∧
    sm (applyMsgs s ms) = sm (foldl applyCmd s (omap le_Command es)).
Proof using Type.
  intros Hok Hps Hf. pose proof Hok as (Hlog & Hb & Hc).
  destruct (drain_inner (Z.to_nat (commitIndex peer - lastApplied peer)) peer fuel ApplyTop)
    as (ms & E & Hm); [done|by right|lia|lia|].
  exists ms, (set_lastApplied (commitIndex peer) peer). eexists.
  split_and!; [done|done|done| |].
  - unfold zlen. rewrite length_take, length_drop. unfold logIndex, lastLogIndex, zlen in *. lia.
  - apply (entries_applied peer _ (lastApplied peer)); [|lia|done].
    by rewrite Z2Nat.id by lia.
Qed.

(** A snapshot older than the store's position undoes committed commands: the
    store goes back to the state at the snapshot's index, and since Raft goes on
    after the entries already delivered, those between are lost. *)
Theorem old_snapshot_loses_commands L s k ms k0 t oc :
  sm s = state_after [] → delivers L 0 k ms → (k0 <= k)%nat → L !! k = Some oc →
  sm (applyMsgs s (ms ++ [snapshot_msg (gob_encode (state_after (commands L k0))) t (Z.of_nat k0);
                          entry_msg oc (Z.of_nat (S k))])) =
  state_after (commands L k0 ++ option_list oc) ∧
  sm (applyMsgs s (ms ++ [entry_msg oc (Z.of_nat (S k))])) =
  state_after (commands L k ++ option_list oc).
Proof using Type.
  intros Hs Hd Hk Hoc.
  split.
  - rewrite applyMsgs_app. unfold applyMsgs at 1. cbn [foldl].
    rewrite applyLoop_turn_entry. apply state_after_app. apply applyLoop_turn_snapshot.
  - rewrite applyMsgs_snoc, applyLoop_turn_entry. apply state_after_app.
    by apply (delivers_state L 0).
Qed.

End Claims.

(** ** Concrete stores *)
Module StoreExamples.
Local Open Scope string_scope.
Local Open Scope Z_scope.

Definition job (id : string) (t : Z) : Job :=
  mkJob id id "* * * * *" "shell" "true" "skip" (mkTime t 0) zeroTime EmptyString zeroTime.
Definition run (id : string) (t : Z) : RunRecord := mkRun id (mkTime t 0) (mkTime t 0) 0 "out" "ok".
Definition upsert (req id : string) : Cmd := mkCmd CmdUpsert req (job id 7) EmptyString zeroRun.
Definition record (req id : string) (t : Z) : Cmd := mkCmd CmdRecord req zeroJob EmptyString (run id t).

Definition L : list (option Cmd) :=
  [Some (upsert "q1" "a"); None; Some (record "q2" "a" 9); Some (upsert "q3" "b")].
Definition empty : Store := Make true None.
Definition at2 : Store := applyMsgs empty [entry_msg (Some (upsert "q1" "a")) 1; entry_msg None 2].

(** A follower that replays the log, and a leader that got a snapshot and submits
    the last command itself. *)
Definition evs1 : list world_event :=
  [WMsg (entry_msg (Some (upsert "q1" "a")) 1); WMsg (entry_msg None 2);
   WMsg (entry_msg (Some (record "q2" "a" 9)) 3); WMsg (entry_msg (Some (upsert "q3" "b")) 4)].
Definition snap3 : ApplyMsg Cmd := snapshot_msg (gob_encode (state_after (commands L 3))) 1 3.
Definition evs2 : list world_event :=
  [WMsg snap3; WSubmit (upsert "q3" "b") 4 true; WMsg (entry_msg (Some (upsert "q3" "b")) 4);
   WReceive 0].
Definition dummy : world := world_init empty.
Definition w1 : world := default dummy (world_run (world_init empty) evs1).
Definition w2 : world := default dummy (world_run (world_init at2) evs2).

Lemma delivers1 : delivers L 0 4 (handled w1).
Proof.
  apply (delivers_entry L 0 3 [_; _; _] (Some (upsert "q3" "b"))); [|done].
  apply (delivers_entry L 0 2 [_; _] (Some (record "q2" "a" 9))); [|done].
  apply (delivers_entry L 0 1 [_] None); [|done].
  apply (delivers_entry L 0 0 [] (Some (upsert "q1" "a"))); [|done]. apply delivers_nil.
Qed.

Lemma delivers2 : delivers L 2 4 (handled w2).
Proof.
  apply (delivers_entry L 2 3 [snap3] (Some (upsert "q3" "b"))); [|done].
  apply (delivers_snapshot L 2 2 3 [] 1); [apply delivers_nil|]. simpl. lia.
Qed.

Lemma replicas_agree_witness :
  jobs (store w1) = jobs (store w2) ∧ GetRuns (store w1) "a" = [run "a" 9].
Proof.
  split; [|vm_compute; reflexivity].
  apply (replicas_agree L empty at2 evs1 evs2 w1 w2 0 2 4);
    [reflexivity|reflexivity|vm_compute; reflexivity|vm_compute; reflexivity
    |apply delivers1|apply delivers2].
Defined.

(** A store that takes a snapshot after every second command. *)
Definition eager : Store := mkStore true ∅ ∅ ∅ 0 2.
Definition w3 : world := default dummy (world_run (world_init eager) evs1).
Definition snap_data : bytes := gob_encode (state_after (commands L 3)).

Lemma snapshot_recovery_witness :
  (3, snap_data) ∈ taken w3 ∧
  sm (Make true (Some (mkPersister [] snap_data))) = state_after (commands L 3).
Proof.
  assert (Hin : (3, snap_data) ∈ taken w3).
  { apply (list_elem_of_lookup_2 _ 0). vm_compute. reflexivity. }
  split; [exact Hin|].
  destruct (snapshot_recovery L eager evs1 w3 0 4 3 snap_data (mkPersister [] snap_data) true [] 3)
    as [H _]; [reflexivity|vm_compute; reflexivity|apply delivers1|exact Hin| |exact H].
  apply clone_id.
Defined.

Lemma submit_ok_committed_witness :
  ∃ wt, started w2 !! 0%nat = Some wt ∧ committed (handled w2) wt ∧ w_index wt = 4.
Proof.
  destruct (submit_ok_committed at2 evs2 w2 0) as (wt & Hwt & Hc);
    [reflexivity|vm_compute; reflexivity|apply (list_elem_of_lookup_2 _ 0); vm_compute; reflexivity|].
  exists wt. split_and!; [exact Hwt|exact Hc|]. vm_compute in Hwt. by injection Hwt as <-.
Defined.

Lemma notified_at_most_once_witness : NoDup (sent w2).*1 ∧ sent w2 = [(0%nat, None)].
Proof.
  split; [|vm_compute; reflexivity].
  apply (notified_at_most_once at2 evs2 w2); [reflexivity|vm_compute; reflexivity].
Defined.

Lemma timeout_drops_newer_waiter_witness :
  ∃ w, world_run (world_init empty)
         [WSubmit (upsert "q1" "a") 5 true; WSubmit (upsert "q2" "b") 5 true; WTimeout 0;
          WMsg (entry_msg (Some (upsert "q2" "b")) 5)] = Some w ∧ sent w = [].
Proof.
  destruct (timeout_drops_newer_waiter empty (upsert "q1" "a") (upsert "q2" "b") 5)
    as (w & E & _ & Hs & _); [reflexivity|]. by exists w.
Defined.

Definition peer : Raft Cmd :=
  set_commitIndex 2 (set_log [mkEntry 0 None; mkEntry 1 (Some (upsert "q1" "a"));
                              mkEntry 1 (Some (record "q2" "a" 9))]
                       (RaftNode.Make [NewPeer "x"; NewPeer "y"; NewPeer "z"] 0 MakePersister 0)).

Lemma store_follows_log_witness :
  ∃ ms peer', drain 4 peer ApplyTop = Some (ms, peer') ∧
    sm (applyMsgs empty ms) = state_after [upsert "q1" "a"; record "q2" "a" 9].
Proof.
  destruct (store_follows_log peer 4 empty) as (ms & peer' & es & E & _ & Hes & _ & Hs);
    [split_and!; vm_compute; congruence|reflexivity|reflexivity|].
  exists ms, peer'. split; [exact E|]. rewrite Hs, Hes. reflexivity.
Defined.

Lemma old_snapshot_loses_commands_witness :
  ∃ s, sm s = state_after [upsert "q1" "a"; upsert "q3" "b"] ∧
       GetRuns s "a" = [] ∧ run_history "a" (commands L 4) = [run "a" 9].
Proof.
  exists (applyMsgs empty
    ([entry_msg (Some (upsert "q1" "a")) 1; entry_msg None 2; entry_msg (Some (record "q2" "a" 9)) 3] ++
     [snapshot_msg (gob_encode (state_after (commands L 1))) 1 1;
      entry_msg (Some (upsert "q3" "b")) 4])).
  split_and!; [|vm_compute; reflexivity|vm_compute; reflexivity].
  apply (old_snapshot_loses_commands L empty 3 _ 1 1 (Some (upsert "q3" "b")));
    [reflexivity| |lia|reflexivity].
  apply (delivers_entry L 0 2 [_; _] (Some (record "q2" "a" 9))); [|done].
  apply (delivers_entry L 0 1 [_] None); [|done].
  apply (delivers_entry L 0 0 [] (Some (upsert "q1" "a"))); [|done]. apply delivers_nil.
Defined.

End StoreExamples.
