(* ===== verification/System.v ===== *)
(** * Nodes: Raft peers with their stores

    What main.go wires together: every node has a Raft peer and a store that share
    [applyCh] and the persister.  A system is the cluster of Cluster.v, with the
    store of every node, the messages its peer has sent on [applyCh] and the store
    has not received, and the index the store has reached.  The store calls [Start]
    in [Submit] and [Snapshot] in a goroutine after [apply].  A node that went down comes
    back with the persister it had ([SysRestart], what raft.Make is written for) or
    with an empty one ([SysStartOver], what main.go does).

    The state machines of the nodes are the commands of one log ([replicated_store])
    in runs in which no node comes back empty ([disks_survive]) and no snapshot is
    installed behind the back of the apply loop ([snapshots_in_step]).  The code
    ensures neither, see [stores_diverge], [snapshot_overtaken] and
    [start_over_two_leaders] of SystemDivergence.v. *)
From Stdlib Require Import ZArith Lia String.
From stdpp Require Import base tactics list strings numbers option gmap.
From S2P Require Import Prelude.
From S2P Require Import Gob.
From S2P Require Import Persister.
From S2P Require Import RaftNode.
From S2P Require Import RaftLog.
From S2P Require Import RaftOps.
From S2P Require Import RaftFrame.
From S2P Require Import RaftTheorems.
From S2P Require Import History.
From S2P Require Import HistorySteps.
From S2P Require Import Cluster.
From S2P Require Import ClusterVotes.
From S2P Require Import ClusterSafety.
From S2P Require Import ClusterInv.
From S2P Require Import ClusterSteps.
From S2P Require Import ClusterEffects.
From S2P Require Import ClusterLog.
From S2P Require Import ClusterTotal.
From S2P Require Import Store.
From S2P Require Import StoreSpec.
From S2P Require Import StoreTheorems.

Local Open Scope Z_scope.

Section System.
Context {gobZ : Gob Z} {gobLog : Gob (list (LogEntry Cmd))} {gobState : Gob storeState}.
Implicit Types (c : cluster Cmd).

(** ** State and steps *)

(** The store of a node with its callers, the messages on their way to it, and the
    index of the last one it handled. *)
Record process := mkProcess {
  pr_world : world;
  pr_queue : list (ApplyMsg Cmd);
  pr_index : Z
}.

Record system := mkSystem { sy_cluster : cluster Cmd; sy_procs : list process }.

Inductive sys_event :=
| SysCluster (ev : event Cmd)
| SysHandle (p : nat)
| SysSnapshot (p k : nat)
| SysSubmit (p : nat) (cmd : Cmd)
| SysReceive (p ch : nat)
| SysTimeout (p ch : nat)
| SysRestart (p : nat) (now : Z)
| SysStartOver (p : nat) (now : Z).

Definition msg_index (msg : ApplyMsg Cmd) : Z :=
  if am_SnapshotValid msg then am_SnapshotIndex msg else am_CommandIndex msg.

(** The messages in [ms] that peer [p] sent. *)
Definition sent_by (p : nat) (ms : list (nat * ApplyMsg Cmd)) : list (ApplyMsg Cmd) :=
  omap (λ '(q, m), if decide (q = p) then Some m else None) ms.

(** The peers send the messages [ms]. *)
Definition enqueue (ms : list (nat * ApplyMsg Cmd)) (prs : list process) : list process :=
  imap (λ p pr, mkProcess (pr_world pr) (pr_queue pr ++ sent_by p ms) (pr_index pr)) prs.

Definition new_process (rf : Raft Cmd) : process :=
  mkProcess (world_init (Store.Make true (Some (persister rf)))) [] (lastIncludedIndex rf).

(** The process of [p] goes down and main.go is run again: raft.Make gets the empty
    persister that [MakePersister] returns. *)
Definition start_over {Command} {gobLog : Gob (list (LogEntry Command))} (c : cluster Command) (p : nat)
  (now : Z) : option (cluster Command) :=
  rf ← nodes c !! p;
  restart (mkCluster (<[p := RaftNode.Make (peers rf) p MakePersister now]> (nodes c)) (elections c) (threads c)
             (net c) (replies c) (applied c)) p now.

(** [applyCh] has no buffer: the apply loop of a peer goes on when its last message was
    received, so that one message is being handled and one waits to be received. *)
Definition applyCh_free (S : system) (ev : event Cmd) : bool :=
  match ev with
  | EvRun k =>
      match threads (sy_cluster S) !! k with
      | Some (TApplyLoop p _) =>
          match sy_procs S !! p with Some pr => (length (pr_queue pr) <=? 1)%nat | None => false end
      | _ => true
      end
  | _ => true
  end.

Definition sys_step (S : system) (ev : sys_event) : option system :=
  let c := sy_cluster S in let prs := sy_procs S in
  match ev with
  | SysCluster ev =>
      if internal ev && applyCh_free S ev then
        c' ← cluster_step c ev;
        Some (mkSystem c' (enqueue (drop (length (applied c)) (applied c')) prs))
      else None
  | SysHandle p =>
      pr ← prs !! p;
      match pr_queue pr with
      | [] => None
      | msg :: q =>
          w ← world_step (pr_world pr) (WMsg msg);
          Some (mkSystem c (<[p := mkProcess w q (msg_index msg)]> prs))
      end
  | SysSnapshot p k =>
      pr ← prs !! p;
      '(index, data) ← taken (pr_world pr) !! k;
      c' ← cluster_step c (EvSnapshot p index data);
      Some (mkSystem c' prs)
  | SysSubmit p cmd =>
      pr ← prs !! p;
      rf ← nodes c !! p;
      let '(index, _, isLeader, _) := Start rf (Some cmd) in
      c' ← cluster_step c (EvStart p (Some cmd));
      w ← world_step (pr_world pr) (WSubmit cmd index isLeader);
      Some (mkSystem c' (<[p := mkProcess w (pr_queue pr) (pr_index pr)]> prs))
  | SysReceive p ch =>
      pr ← prs !! p;
      w ← world_step (pr_world pr) (WReceive ch);
      Some (mkSystem c (<[p := mkProcess w (pr_queue pr) (pr_index pr)]> prs))
  | SysTimeout p ch =>
      pr ← prs !! p;
      w ← world_step (pr_world pr) (WTimeout ch);
      Some (mkSystem c (<[p := mkProcess w (pr_queue pr) (pr_index pr)]> prs))
  | SysRestart p now =>
      c' ← cluster_step c (EvRestart p now);
      rf ← nodes c' !! p;
      Some (mkSystem c' (<[p := new_process rf]> prs))
  | SysStartOver p now =>
      c' ← start_over c p now;
      rf ← nodes c' !! p;
      Some (mkSystem c' (<[p := new_process rf]> prs))
  end.

(** A run: any order of the events that are possible. *)
Fixpoint sys_exec (S : system) (evs : list sys_event) : option system :=
  match evs with
  | [] => Some S
  | ev :: evs' => S' ← sys_step S ev; sys_exec S' evs'
  end.

Definition sys_init (ps : list Peer) (now : Z) : system :=
  let c := cluster_init ps now in mkSystem c (new_process <$> nodes c).

(** ** What the code leaves open *)

(** The event does not install a snapshot on a peer that has applied more, or that is in
    the middle of delivering entries. *)
Definition snapshot_in_step (S : system) (ev : sys_event) : Prop :=
  let c := sy_cluster S in
  match ev with
  | SysCluster (EvServe i _) =>
      match net c !! i with
      | Some (p, CallSnapshot args) =>
          match nodes c !! p with
          | Some rf =>
              currentTerm rf <= isa_Term args → lastIncludedIndex rf < isa_LastIncludedIndex args →
              lastApplied rf <= isa_LastIncludedIndex args ∧
              forallb (λ t, negb (delivering p t)) (threads c) = true
          | None => True
          end
      | _ => True
      end
  | _ => True
  end.

(** All along the run [evs] of [S]. *)
Fixpoint snapshots_in_step (S : system) (evs : list sys_event) : Prop :=
  match evs with
  | [] => True
  | ev :: evs' =>
      snapshot_in_step S ev ∧
      match sys_step S ev with Some S' => snapshots_in_step S' evs' | None => True end
  end.

(** A node that comes back has the persister it had, or it does not come back. *)
Definition starts_over (ev : sys_event) : bool :=
  match ev with SysStartOver _ _ => true | _ => false end.

Definition disks_survive (evs : list sys_event) : Prop := Forall (λ ev, starts_over ev = false) evs.

(** The runs in which both are so, as a function: see [sys_run_exec]. *)
Definition in_step (S : system) (ev : sys_event) : Prop :=
  match ev with SysStartOver _ _ => False | _ => snapshot_in_step S ev end.

#[export] Instance in_step_dec S ev : Decision (in_step S ev).
Proof.
  unfold in_step, snapshot_in_step. destruct ev as [[| |i now| | | | | |]| | | | | | |]; try apply _.
  destruct (net (sy_cluster S) !! i) as [[p [| |args]]|]; try apply _.
  destruct (nodes (sy_cluster S) !! p); apply _.
Defined.

Fixpoint sys_run (S : system) (evs : list sys_event) : option system :=
  match evs with
  | [] => Some S
  | ev :: evs' =>
      if decide (in_step S ev) then S' ← sys_step S ev; sys_run S' evs' else None
  end.

Definition sys_reachable (ps : list Peer) (now : Z) (S : system) : Prop :=
  ∃ evs, sys_run (sys_init ps now) evs = Some S.

Lemma in_step_spec S ev : in_step S ev ↔ snapshot_in_step S ev ∧ starts_over ev = false.
Proof using Type. unfold in_step. destruct ev; cbn [starts_over]; split; try tauto; by intros [_ ?]. Qed.

Lemma sys_run_exec S evs S' :
  sys_run S evs = Some S' ↔ sys_exec S evs = Some S' ∧ snapshots_in_step S evs ∧ disks_survive evs.
Proof using Type.
  revert S. induction evs as [|ev evs IH]; intros S;
    [simpl; unfold disks_survive; rewrite Forall_nil; tauto|].
  cbn [sys_run sys_exec snapshots_in_step]. unfold disks_survive. rewrite Forall_cons.
  destruct (decide (in_step S ev)) as [Hi|Hi]; rewrite in_step_spec in Hi.
  - destruct (sys_step S ev) as [S1|]; cbn [mbind option_bind]; [rewrite IH; unfold disks_survive; tauto|].
    split; [done|]. by intros [? _].
  - split; [done|]. tauto.
Qed.

Lemma sys_exec_app S evs evs' : sys_exec S (evs ++ evs') = (S' ← sys_exec S evs; sys_exec S' evs').
Proof using Type.
  revert S. induction evs as [|ev evs IH]; intros S; [done|].
  cbn [app sys_exec]. destruct (sys_step S ev) as [S1|]; [exact (IH S1)|done].
Qed.

Lemma snapshots_in_step_app S evs evs' S' :
  sys_exec S evs = Some S' →
  snapshots_in_step S (evs ++ evs') ↔ snapshots_in_step S evs ∧ snapshots_in_step S' evs'.
Proof using Type.
  revert S. induction evs as [|ev evs IH]; intros S E; simpl in *; [injection E as ->; tauto|].
  destruct (sys_step S ev) as [S1|]; [|done]. rewrite (IH S1 E). tauto.
Qed.

(** A run in two parts. *)
Lemma sys_run_parts S evs S1 evs' S2 :
  sys_exec S evs = Some S1 → sys_exec S1 evs' = Some S2 →
  snapshots_in_step S (evs ++ evs') → disks_survive (evs ++ evs') →
  sys_run S evs = Some S1 ∧ sys_run S1 evs' = Some S2.
Proof using Type.
  intros E E' Hs Hd. rewrite (snapshots_in_step_app _ _ _ _ E) in Hs. unfold disks_survive in Hd.
  rewrite Forall_app in Hd. rewrite !sys_run_exec. tauto.
Qed.

(** A step of the cluster, taken apart. *)
Lemma sys_step_internal S ev S' :
  sys_step S (SysCluster ev) = Some S' →
  internal ev = true ∧ applyCh_free S ev = true ∧ ∃ c', cluster_step (sy_cluster S) ev = Some c' ∧
    S' = mkSystem c' (enqueue (drop (length (applied (sy_cluster S))) (applied c')) (sy_procs S)).
Proof using Type.
  unfold sys_step. intros E. destruct (internal ev); [|done]. destruct (applyCh_free S ev); [|done].
  simpl in E. destruct (cluster_step (sy_cluster S) ev) as [c'|] eqn:Ec; [|done].
  injection E as <-. split_and!; [done..|]. by exists c'.
Qed.

(** ** The invariant *)

(** The state after the first [i] entries of a full log. *)
Definition state_at (w : list (LogEntry Cmd)) (i : Z) : storeState :=
  state_after (commands (le_Command <$> tail w) (Z.to_nat i)).

Section Invariant.
Context (n : nat).
Implicit Types (h : history Cmd).

(** [st] is the state at index [i] of the committed log. *)
Definition at_state h (st : storeState) (i : Z) : Prop :=
  ∃ t s, stable n h t s i ∧ st = state_at s i.

Definition entry_at h (i : Z) (cmd : option Cmd) : Prop :=
  ∃ t s e, stable n h t s i ∧ idx s i = Some e ∧ le_Command e = cmd.

(** The messages [q] take a store from index [k] to [k']. *)
Inductive feeds h : Z → Z → list (ApplyMsg Cmd) → Prop :=
| feeds_nil k : feeds h k k []
| feeds_entry k k' q cmd :
    0 <= k → entry_at h (k + 1) cmd → feeds h (k + 1) k' q → feeds h k k' (entry_msg cmd (k + 1) :: q)
| feeds_snap k i k' q st t :
    k <= i → at_state h st i → feeds h i k' q → feeds h k k' (snapshot_msg (gob_encode st) t i :: q).

(** [data] is the state at index [i]; nothing stands for the state at 0. *)
Definition snap_ok h (data : bytes) (i : Z) : Prop :=
  (i = 0 ∧ data = []) ∨ ∃ st, data = gob_encode st ∧ at_state h st i.

(** The part of a peer that its store depends on. *)
Record peer_ok h (ts : list (thread Cmd)) (p : nat) (rf : Raft Cmd) (k : Z) (q : list (ApplyMsg Cmd)) : Prop := {
  po_disk : snap_ok h (ReadSnapshot (persister rf)) (lastIncludedIndex rf);
  po_feed : ∃ a, feeds h k a q ∧
    match pendingSnapshot rf with
    | None => a = lastApplied rf
    | Some msg => a <= lastApplied rf ∧ ∃ st t, at_state h st (lastApplied rf) ∧
        msg = snapshot_msg (gob_encode st) t (lastApplied rf)
    end;
  po_idle : is_Some (pendingSnapshot rf) → ∀ t, t ∈ ts → delivering p t = false
}.

Record proc_ok h (rf : Raft Cmd) (pr : process) : Prop := {
  pk_index : 0 <= pr_index pr;
  pk_store : at_state h (sm (store (pr_world pr))) (pr_index pr);
  pk_taken : ∀ i d, (i, d) ∈ taken (pr_world pr) →
    i <= lastApplied rf ∧ ∃ st, d = gob_encode st ∧ at_state h st i;
  pk_handled : ∀ m, m ∈ handled (pr_world pr) → am_SnapshotValid m = false →
    0 < am_CommandIndex m <= pr_index pr ∧ entry_at h (am_CommandIndex m) (am_Command m);
  pk_world : world_ok (pr_world pr)
}.

Record sys_ok (S : system) h : Prop := {
  so_good : good n (sy_cluster S) h;
  so_len : length (sy_procs S) = n;
  so_peer : ∀ p rf pr, nodes (sy_cluster S) !! p = Some rf → sy_procs S !! p = Some pr →
    peer_ok h (threads (sy_cluster S)) p rf (pr_index pr) (pr_queue pr) ∧ proc_ok h rf pr;
  so_net : ∀ i q args, net (sy_cluster S) !! i = Some (q, CallSnapshot args) →
    snap_ok h (isa_Data args) (isa_LastIncludedIndex args)
}.

(** ** The state at an index *)
Lemma state_at_same w w' i : same w w' i → state_at w i = state_at w' i.
Proof using Type.
  intros (Hi & Hi' & Heq). unfold state_at, commands. do 2 f_equal.
  apply list_eq. intros j. destruct (decide (j < Z.to_nat i)%nat) as [Hj|Hj];
    [|rewrite !lookup_ge_None_2; [done|rewrite length_take; lia..]].
  rewrite !lookup_take_lt, !list_lookup_fmap, !lookup_tail by done. f_equal.
  specialize (Heq (Z.of_nat (S j)) ltac:(lia)). rewrite !idx_lookup, Nat2Z.id in Heq by lia. done.
Qed.

Lemma state_at_next w i e :
  0 <= i → idx w (i + 1) = Some e →
  ∀ s : Store, sm s = state_at w i → sm (foldl applyCmd s (option_list (le_Command e))) = state_at w (i + 1).
Proof using Type.
  intros Hi He s Hs. unfold state_at. replace (Z.to_nat (i + 1)) with (S (Z.to_nat i)) by lia.
  rewrite (commands_S _ _ (le_Command e)).
  - by apply state_after_app.
  - rewrite list_lookup_fmap, lookup_tail. rewrite idx_lookup in He by lia.
    replace (Z.to_nat (i + 1)) with (S (Z.to_nat i)) in He by lia. by rewrite He.
Qed.

Lemma state_at_zero w : state_at w 0 = state_after [].
Proof using Type. done. Qed.

Lemma at_state_unique fl vt h st st' i :
  hist_ok n fl vt h → at_state h st i → at_state h st' i → st = st'.
Proof using Type.
  intros Hh (t & s & Hs & ->) (t' & s' & Hs' & ->). apply state_at_same.
  by eapply (stable_agree n fl vt h Hh).
Qed.

Lemma at_state_next fl vt h st i cmd :
  hist_ok n fl vt h → 0 <= i → at_state h st i → entry_at h (i + 1) cmd →
  ∀ s : Store, sm s = st → at_state h (sm (foldl applyCmd s (option_list cmd))) (i + 1).
Proof using Type.
  intros Hh Hi (t & w & Hs & ->) (t' & w' & e & Hs' & He & <-) s Hst. exists t', w'. split; [done|].
  apply state_at_next; [done..|]. rewrite Hst. apply state_at_same.
  eapply (stable_agree n fl vt h Hh); [done|done|lia|lia].
Qed.

Lemma at_state_zero h : at_state h (state_after []) 0.
Proof using Type. exists 0, [sentinel]. split; [apply stable_zero, wf_sentinel|done]. Qed.

(** ** What stays true *)
Lemma at_state_ext h h' st i : hist_ext h h' → at_state h st i → at_state h' st i.
Proof using Type. intros He (t & s & Hs & ->). exists t, s. split; [by eapply stable_ext|done]. Qed.

Lemma entry_at_ext h h' i cmd : hist_ext h h' → entry_at h i cmd → entry_at h' i cmd.
Proof using Type.
  intros He (t & s & e & Hs & ?). exists t, s, e. split; [by eapply stable_ext|done].
Qed.

Lemma snap_ok_ext h h' d i : hist_ext h h' → snap_ok h d i → snap_ok h' d i.
Proof using Type.
  intros He [?|(st & -> & Hs)]; [by left|right]. exists st. split; [done|by eapply at_state_ext].
Qed.

Lemma feeds_ext h h' k k' q : hist_ext h h' → feeds h k k' q → feeds h' k k' q.
Proof using Type.
  intros He. induction 1; econstructor; eauto using at_state_ext, entry_at_ext.
Qed.

Lemma feeds_le h k k' q : feeds h k k' q → k <= k'.
Proof using Type. induction 1; lia. Qed.

Lemma feeds_app h k1 k2 k3 q q' : feeds h k1 k2 q → feeds h k2 k3 q' → feeds h k1 k3 (q ++ q').
Proof using Type. induction 1; simpl; [done|..]; intros; econstructor; eauto. Qed.

(** ** The store handles a message *)
Lemma turn_snapshot s msg s' out i d :
  applyLoop_turn s msg = (s', out, Some (i, d)) →
  i = am_CommandIndex msg ∧ am_SnapshotValid msg = false ∧ d = gob_encode (sm s').
Proof using Type.
  unfold applyLoop_turn. destruct (am_SnapshotValid msg); [done|].
  destruct (am_Command msg) as [cmd|]; [|done]. unfold apply.
  set (s1 := applyCmd s cmd). clearbody s1.
  destruct (pending s1 !! am_CommandIndex msg); case_match; intros [= <- _ <- <-]; done.
Qed.

Lemma handle_ok fl vt h s msg k a q s' out snap :
  hist_ok n fl vt h → 0 <= k → at_state h (sm s) k → feeds h k a (msg :: q) →
  applyLoop_turn s msg = (s', out, snap) →
  k <= msg_index msg ∧ at_state h (sm s') (msg_index msg) ∧ feeds h (msg_index msg) a q ∧
  (am_SnapshotValid msg = false → 0 < am_CommandIndex msg ∧ entry_at h (am_CommandIndex msg) (am_Command msg)) ∧
  ∀ i d, snap = Some (i, d) → i = msg_index msg ∧ d = gob_encode (sm s').
Proof using Type.
  intros Hh Hk Hs Hf E.
  assert (Hsnap : ∀ i d, snap = Some (i, d) → i = msg_index msg ∧ d = gob_encode (sm s')).
  { intros i d ->. destruct (turn_snapshot _ _ _ _ _ _ E) as (-> & Hv & ->).
    unfold msg_index. by rewrite Hv. }
  assert (Hs' : sm s' = sm (applyLoop_turn s msg).1.1) by by rewrite E.
  inversion Hf as [|? ? ? cmd _ Hen Hq|? i ? ? st t Hki Hst Hq]; subst.
  - change (msg_index _) with (k + 1) in *. split_and!; [lia| |done|simpl; split; [lia|done]|done].
    rewrite Hs', applyLoop_turn_entry. by eapply at_state_next.
  - change (msg_index _) with i in *. split_and!; [done| |done|done|done].
    by rewrite Hs', applyLoop_turn_snapshot.
Qed.

(** ** One peer moves *)

Lemma peer_quiet h h' ts ts' p rf rf' k q :
  hist_ext h h' → qview rf' = qview rf →
  (∀ t, t ∈ ts' → t ∈ ts ∨ delivering p t = false) →
  peer_ok h ts p rf k q → peer_ok h' ts' p rf' k q.
Proof using Type.
  intros He Hv Hts [Hd (a & Hf & Hp) Hi]. unfold qview in Hv. injection Hv as Hr Hl Ha Hps.
  constructor; rewrite ?Hr, ?Hl, ?Ha, ?Hps.
  - by eapply snap_ok_ext.
  - exists a. split; [by eapply feeds_ext|]. destruct (pendingSnapshot rf); [|done].
    destruct Hp as (? & st & t & ? & ?). split; [done|]. exists st, t. split; [by eapply at_state_ext|done].
  - intros Hs t Ht. destruct (Hts t Ht) as [?|?]; [by apply Hi|done].
Qed.

(** A snapshot is installed on an idle peer that has applied no more. *)
Lemma peer_install h h' ts ts' p rf rf' args k q :
  hist_ext h h' → peer_ok h ts p rf k q → snap_ok h (isa_Data args) (isa_LastIncludedIndex args) →
  0 <= lastIncludedIndex rf < isa_LastIncludedIndex args → lastApplied rf <= isa_LastIncludedIndex args →
  ReadSnapshot (persister rf') = isa_Data args → lastIncludedIndex rf' = isa_LastIncludedIndex args →
  lastApplied rf' = Z.max (lastApplied rf) (isa_LastIncludedIndex args) →
  pendingSnapshot rf' = Some (snapshotMsg args) →
  (∀ t, t ∈ ts' → delivering p t = false) → peer_ok h' ts' p rf' k q.
Proof using Type.
  intros He [Hd (a & Hf & Hp) Hi] Hsn Hl Ha Hr Hlii Hla Hps Hts.
  rewrite Z.max_r in Hla by done.
  assert (Hsn' : snap_ok h' (isa_Data args) (isa_LastIncludedIndex args)) by by eapply snap_ok_ext.
  constructor.
  - by rewrite Hr, Hlii.
  - exists a. split; [by eapply feeds_ext|]. rewrite Hps, Hla. split.
    + destruct (pendingSnapshot rf); [destruct Hp as [? _]; lia|lia].
    + destruct Hsn' as [[? _]|(st & Hdata & Hst)]; [lia|]. exists st, (isa_LastIncludedTerm args).
      split; [done|]. unfold snapshotMsg, snapshot_msg. by rewrite Hdata.
  - intros _. done.
Qed.

(** The apply loop sends the pending snapshot or the next entry. *)
Lemma peer_apply h t w ts ts' p rf pc m rf' pc' k q :
  core n h t w rf → peer_ok h ts p rf k q → 0 <= k →
  TApplyLoop p pc ∈ ts → applyLoop_step rf pc = Some (m, rf', pc') →
  (∀ x, x ∈ ts' → x ∈ ts ∨ x = TApplyLoop p pc') →
  lastApplied rf <= lastApplied rf' ∧ peer_ok h ts' p rf' k (q ++ option_list m).
Proof using Type.
  intros Hc [Hd (a & Hf & Hp) Hi] Hk Hin E Hts. pose proof (feeds_le _ _ _ _ Hf) as Hka.
  assert (Hinner : pendingSnapshot rf = None →
    applyInner rf (applyFuel rf) = Some (m, rf') →
    lastApplied rf <= lastApplied rf' ∧ peer_ok h ts' p rf' k (q ++ option_list m)).
  { intros Hps Ein. rewrite Hps in Hp. subst a. pose proof (core_apply_ok n _ _ _ _ Hc) as Hok.
    destruct (decide (lastApplied rf < commitIndex rf)) as [Hlt|Hge].
    - destruct (applyInner_next rf (Z.to_nat (commitIndex rf - lastApplied rf)) Hok Hlt) as (msg & Hmsg & E2).
      unfold applyFuel in Ein. rewrite Ein in E2. injection E2 as -> ->. split; [simpl; lia|].
      unfold entryMsg in Hmsg. pose proof (co_order _ _ _ _ _ Hc).
      rewrite <- (co_win _ _ _ _ _ Hc) in Hmsg by lia.
      destruct (idx w (lastApplied rf + 1)) as [e|] eqn:Ee; [|done]. cbn [mbind option_bind] in Hmsg.
      injection Hmsg as <-. constructor; [done| |simpl; rewrite Hps; by intros [? [=]]].
      exists (lastApplied rf + 1). simpl. rewrite Hps. split; [|done].
      eapply feeds_app; [done|]. apply feeds_entry; [lia| |constructor].
      pose proof (known_le _ _ _ _ _ _ (lastApplied rf + 1) (co_commit _ _ _ _ _ Hc) ltac:(lia)) as [_ [?|Hs]];
        [lia|]. by exists t, w, e.
    - unfold applyFuel in Ein. rewrite applyInner_done in Ein by lia. injection Ein as <- <-.
      split; [lia|]. simpl. rewrite app_nil_r.
      constructor; [done|exists (lastApplied rf); by rewrite Hps|rewrite Hps; by intros [? [=]]]. }
  unfold applyLoop_step in E. destruct pc, (pendingSnapshot rf) as [msg|] eqn:Eps.
  - injection E as <- <- <-. split; [simpl; lia|]. destruct Hp as (Ha & st & tm & Hst & ->).
    constructor; [done| |by intros [? [=]]]. simpl. exists (lastApplied rf). split; [|done].
    eapply feeds_app; [done|]. apply feeds_snap; [lia|done|constructor].
  - destruct (applyInner rf (applyFuel rf)) as [[m2 rf2]|] eqn:Ein; [|done]. cbn [mbind option_bind] in E.
    injection E as -> -> _. by apply Hinner.
  - specialize (Hi ltac:(by eexists) _ Hin). simpl in Hi. by rewrite Nat.eqb_refl in Hi.
  - destruct (applyInner rf (applyFuel rf)) as [[m2 rf2]|] eqn:Ein; [|done]. cbn [mbind option_bind] in E.
    injection E as -> -> _. by apply Hinner.
Qed.

(** ** Events of the cluster *)

(** Each peer of [c'] serves its store as that of [c] did, with the messages sent. *)
Definition moved h h' c c' : Prop := ∀ p rf', nodes c' !! p = Some rf' →
  ∃ rf, nodes c !! p = Some rf ∧ lastApplied rf <= lastApplied rf' ∧
    ∀ k q, 0 <= k → peer_ok h (threads c) p rf k q →
      peer_ok h' (threads c') p rf' k (q ++ sent_by p (drop (length (applied c)) (applied c'))).

Lemma moved_same h h' c c' p rf rf' :
  hist_ext h h' → nodes c !! p = Some rf → nodes c' = <[p := rf']> (nodes c) →
  qview rf' = qview rf → applied c' = applied c →
  calm c c' → moved h h' c c'.
Proof using Type.
  intros He Hp Hn Hv Ha Hts p2 rf2 Hp2. rewrite Ha, drop_all. cbn. rewrite Hn in Hp2.
  apply list_lookup_insert_Some in Hp2 as [(<- & <- & _)|(Hne & Hp2)].
  - exists rf. split; [done|]. split; [unfold qview in Hv; injection Hv as _ _ -> _; lia|].
    intros k q _ Hk. rewrite app_nil_r. eapply peer_quiet; try done.
    intros t Ht. destruct (Hts t Ht); [by left|by right].
  - exists rf2. split; [done|]. split; [lia|]. intros k q _ Hk. rewrite app_nil_r.
    eapply peer_quiet; try done. intros t Ht. destruct (Hts t Ht); [by left|by right].
Qed.

Lemma moved_nodes h h' c c' :
  hist_ext h h' → nodes c' = nodes c → applied c' = applied c →
  calm c c' → moved h h' c c'.
Proof using Type.
  intros He Hn Ha Hts p rf Hp. rewrite Hn in Hp. exists rf. split; [done|]. split; [lia|].
  intros k q _ Hk. rewrite Ha, drop_all. cbn. rewrite app_nil_r. eapply peer_quiet; try done.
  intros t Ht. destruct (Hts t Ht); [by left|by right].
Qed.

Lemma moved_apply h h' c p pc rf m rf' pc' k ts :
  good n c h → hist_ext h h' → threads c !! k = Some (TApplyLoop p pc) → nodes c !! p = Some rf →
  applyLoop_step rf pc = Some (m, rf', pc') → (∀ t, t ∈ ts → t = TApplyLoop p pc') →
  moved h h' c (mkCluster (<[p := rf']> (nodes c)) (elections c) (respawn k ts (threads c)) (net c)
    (replies c) (applied c ++ match m with Some m => [(p, m)] | None => [] end)).
Proof using Type.
  intros [Hi Hl] He Hk Hp E Hts p2 rf2 Hp2. cbn in Hp2 |- *. rewrite drop_app_length.
  pose proof (list_elem_of_lookup_2 _ _ _ Hk) as Hin. pose proof (li_core _ _ _ Hl _ _ Hp) as Hc.
  assert (Hth : ∀ x, x ∈ respawn k ts (threads c) → x ∈ threads c ∨ x = TApplyLoop p pc').
  { intros x [Hx|Hx]%respawn_elem; [right; by apply Hts|by left]. }
  apply list_lookup_insert_Some in Hp2 as [(<- & <- & _)|(Hne & Hp2)].
  - exists rf. split; [done|].
    assert (Hsent : sent_by p match m with Some m => [(p, m)] | None => [] end = option_list m).
    { destruct m; [|done]. cbn. by rewrite decide_True. }
    rewrite Hsent. split.
    + destruct (applyLoop_core n _ _ _ _ _ _ _ _ Hc E) as (Hc' & _). clear - Hc E.
      unfold applyLoop_step in E.
      assert (Hin : applyInner rf (applyFuel rf) = Some (m, rf') → lastApplied rf <= lastApplied rf').
      { unfold applyFuel. intros Ein. pose proof (core_apply_ok n _ _ _ _ Hc) as Hok.
        destruct (decide (lastApplied rf < commitIndex rf)) as [Hlt|Hge].
        - destruct (applyInner_next rf (Z.to_nat (commitIndex rf - lastApplied rf)) Hok Hlt)
            as (msg & _ & E2). rewrite Ein in E2. injection E2 as -> ->. simpl. lia.
        - rewrite applyInner_done in Ein by lia. injection Ein as _ <-. lia. }
      destruct pc, (pendingSnapshot rf) as [msg|]; [by injection E as _ <- _; simpl|..];
        (destruct (applyInner rf (applyFuel rf)) as [[m2 rf2]|]; [|done]); cbn [mbind option_bind] in E;
        injection E as -> -> _; by apply Hin.
    + intros k0 q Hk0 Hok.
      destruct (peer_apply h (floor c p) (h_full h p) (threads c) (respawn k ts (threads c)) p rf pc m rf' pc'
        k0 q Hc Hok Hk0 Hin E Hth) as [_ Hok']. eapply peer_quiet; [done|done| |exact Hok']. by left.
  - exists rf2. split; [done|]. split; [lia|]. intros k0 q _ Hok.
    assert (Hsent : sent_by p2 match m with Some m => [(p, m)] | None => [] end = []).
    { destruct m; [|done]. cbn. by rewrite decide_False. }
    rewrite Hsent, app_nil_r. eapply peer_quiet; try done. intros t Ht.
    destruct (Hth t Ht) as [?| ->]; [by left|right]. simpl. destruct pc'; [done|].
    by apply Nat.eqb_neq.
Qed.

(** A snapshot arrives, in step or outdated. *)
Lemma moved_install S h h' i p now rf args rf' r c' :
  good n (sy_cluster S) h → hist_ext h h' → in_step S (SysCluster (EvServe i now)) →
  net (sy_cluster S) !! i = Some (p, CallSnapshot args) →
  snap_ok h (isa_Data args) (isa_LastIncludedIndex args) →
  nodes (sy_cluster S) !! p = Some rf → InstallSnapshot rf args now = Some (rf', r) →
  nodes c' = <[p := rf']> (nodes (sy_cluster S)) → applied c' = applied (sy_cluster S) →
  threads c' = threads (sy_cluster S) → moved h h' (sy_cluster S) c'.
Proof using Type.
  destruct S as [c prs]. cbn [sy_cluster]. intros [Hi Hl] He Hst En Hsn Ep Eh Hn Ha Ht.
  pose proof (li_core _ _ _ Hl _ _ Ep) as Hc.
  destruct (decide (isa_Term args < currentTerm rf ∨ isa_LastIncludedIndex args <= lastIncludedIndex rf))
    as [Ho|Hnew].
  { eapply moved_same; try done; [by eapply kept_qview, InstallSnapshot_kept|]. intros t. rewrite Ht. by left. }
  simpl in Hst. rewrite En, Ep in Hst. destruct Hst as [Hla Hidle]; [lia|lia|].
  destruct (InstallSnapshot_install rf args now) as (rf2 & E2 & _ & _ & _ & _ & Hlii & _ & _ & Hla' &
    Hps & Hr & _); [lia|lia|]. rewrite Eh in E2. injection E2 as <- _.
  assert (Hth : ∀ t, t ∈ threads c → delivering p t = false).
  { intros t Hin. rewrite List.forallb_forall in Hidle. specialize (Hidle t).
    rewrite list_elem_of_In in Hin. specialize (Hidle Hin). by apply negb_true_iff in Hidle. }
  intros p2 rf2 Hp2. rewrite Ha, Ht, drop_all. cbn. rewrite Hn in Hp2.
  apply list_lookup_insert_Some in Hp2 as [(<- & <- & _)|(Hne & Hp2)].
  - exists rf. split; [done|]. split; [lia|]. intros k q Hk Hok. rewrite app_nil_r.
    pose proof (co_lii _ _ _ _ _ Hc). eapply peer_install; try done. lia.
  - exists rf2. split; [done|]. split; [lia|]. intros k q Hk Hok. rewrite app_nil_r.
    eapply peer_quiet; try done. by left.
Qed.

Lemma moved_internal S h h' ev c' :
  good n (sy_cluster S) h → hist_ext h h' → in_step S (SysCluster ev) → internal ev = true →
  (∀ i q args, net (sy_cluster S) !! i = Some (q, CallSnapshot args) →
    snap_ok h (isa_Data args) (isa_LastIncludedIndex args)) →
  cluster_step (sy_cluster S) ev = Some c' → moved h h' (sy_cluster S) c'.
Proof using Type.
  intros Hg He Hst Hint Hnet E. destruct (internal_effect _ _ _ Hint E) as
    [Hn _ [Ha Hc]|p rf rf' Hp Hn Hk _ [Ha Hc]|peer args Hn _ [Ha Hc]|p rf peer call _ _ Hn _ [Ha Hc]
    |p rf pc m rf' pc' k ts Hk Hp Ea Hts ->|i p rf args now rf' r _ Hp Eh Hn _ Ha Ht
    |i p rf args now rf' r -> Hi Hp Eh Hn _ Ha Ht].
  - by apply moved_nodes.
  - eapply moved_same; try done. by apply kept_qview.
  - by apply moved_nodes.
  - by apply moved_nodes.
  - by eapply moved_apply.
  - eapply moved_same; try done.
    + eapply AppendEntries_qview; [|done]. destruct Hg as [_ Hl]. apply (li_core _ _ _ Hl _ _ Hp).
    + intros t. rewrite Ht. by left.
  - eapply moved_install; try done. by eapply Hnet.
Qed.

(** A request to install a snapshot carries the one of its sender. *)
Lemma net_internal c ev c' i q args :
  internal ev = true → cluster_step c ev = Some c' → net c' !! i = Some (q, CallSnapshot args) →
  net c !! i = Some (q, CallSnapshot args) ∨
  ∃ p rf, nodes c !! p = Some rf ∧ args = sendSnapshotArgs rf.
Proof using Type.
  intros Hint E Hn. destruct (effect_net _ _ _ _ _ _ (internal_effect _ _ _ Hint E) Hn) as [?|[[? [=]]|?]];
    [by left|by right].
Qed.

End Invariant.
End System.
