(* ===== verification/SystemSafety.v ===== *)
(** * Nodes: the replicas of the job store agree

    The invariant of System.v holds in every state a system reaches, so that the
    stores of all nodes, at all times, hold the states of one log of commands. *)
From Stdlib Require Import ZArith Lia String.
From stdpp Require Import base tactics list strings numbers option gmap.
From S2P Require Import Prelude.
From S2P Require Import Gob.
From S2P Require Import Persister.
From S2P Require Import RaftNode.
From S2P Require Import RaftLog.
From S2P Require Import RaftOps.
From S2P Require Import RaftFrame.
From S2P Require Import RaftTheorems.
From S2P Require Import History.
From S2P Require Import HistorySteps.
From S2P Require Import Cluster.
From S2P Require Import ClusterVotes.
From S2P Require Import ClusterSafety.
From S2P Require Import ClusterInv.
From S2P Require Import ClusterSteps.
From S2P Require Import ClusterEffects.
From S2P Require Import ClusterSnapshots.
From S2P Require Import ClusterLog.
From S2P Require Import ClusterHanded.
From S2P Require Import Store.
From S2P Require Import StoreSpec.
From S2P Require Import StoreTheorems.
From S2P Require Import System.

Local Open Scope Z_scope.

Section Safety.
Context {gobZ : Gob Z} {gobLog : Gob (list (LogEntry Cmd))} {gobState : Gob storeState}.
Context (n : nat).
Implicit Types (c : cluster Cmd) (h : history Cmd) (S : system).

(** ** Processes *)
Lemma enqueue_lookup ms prs p pr' :
  enqueue ms prs !! p = Some pr' → ∃ pr, prs !! p = Some pr ∧
    pr' = mkProcess (pr_world pr) (pr_queue pr ++ sent_by p ms) (pr_index pr).
Proof using Type.
  unfold enqueue. rewrite list_lookup_imap. destruct (prs !! p) as [pr|]; [|done].
  intros [= <-]. by exists pr.
Qed.

(** [pr'] is [pr] with the messages [ms] on their way, and other callers. *)
Definition same_store (pr pr' : process) (ms : list (ApplyMsg Cmd)) : Prop :=
  pr_queue pr' = pr_queue pr ++ ms ∧ pr_index pr' = pr_index pr ∧
  sm (store (pr_world pr')) = sm (store (pr_world pr)) ∧ taken (pr_world pr') = taken (pr_world pr) ∧
  handled (pr_world pr') = handled (pr_world pr) ∧ (world_ok (pr_world pr) → world_ok (pr_world pr')).

Lemma same_store_refl pr : same_store pr pr [].
Proof using Type. unfold same_store. by rewrite app_nil_r. Qed.

Lemma proc_ok_same h h' rf rf' pr pr' ms :
  hist_ext h h' → lastApplied rf <= lastApplied rf' → same_store pr pr' ms →
  proc_ok n h rf pr → proc_ok n h' rf' pr'.
Proof using Type.
  intros He Hla (_ & Hi & Hs & Ht & Hh & Hw) [H0 Hst Htk Hhd Hwd].
  constructor; rewrite ?Hi, ?Hs, ?Ht, ?Hh; [done|..|by apply Hw].
  - by eapply at_state_ext.
  - intros i d Hin. destruct (Htk i d Hin) as (Hle & st & -> & Hd). split; [lia|].
    exists st. split; [done|by eapply at_state_ext].
  - intros m Hm Hv. destruct (Hhd m Hm Hv) as [? ?]. split; [done|by eapply entry_at_ext].
Qed.

(** The peers of a system move, the stores do not. *)
Lemma sys_move S h h' c' prs' :
  sys_ok n S h → good n c' h' → hist_ext h h' → moved n h h' (sy_cluster S) c' →
  length prs' = length (sy_procs S) →
  (∀ p pr', prs' !! p = Some pr' → ∃ pr, sy_procs S !! p = Some pr ∧
     same_store pr pr' (sent_by p (drop (length (applied (sy_cluster S))) (applied c')))) →
  (∀ i q args, net c' !! i = Some (q, CallSnapshot args) →
     net (sy_cluster S) !! i = Some (q, CallSnapshot args) ∨
     ∃ p rf, nodes (sy_cluster S) !! p = Some rf ∧ args = sendSnapshotArgs rf) →
  sys_ok n (mkSystem c' prs') h'.
Proof using Type.
  intros [Hg Hlen Hpeer Hnet] Hg' He Hm Hl Hprs Hn. constructor; [done|by rewrite <- Hlen|..]; cbn.
  - intros p rf' pr' Hp' Hpr'. destruct (Hprs p pr' Hpr') as (pr & Hpr & Hs).
    destruct (Hm p rf' Hp') as (rf & Hp & Hla & Hok). destruct (Hpeer p rf pr Hp Hpr) as [Hpo Hpk].
    split; [|by eapply proc_ok_same]. destruct Hs as (-> & -> & _). apply Hok; [apply Hpk|done].
  - intros i q args Hi. destruct (Hn i q args Hi) as [?|(p & rf & Hp & ->)];
      [by eapply snap_ok_ext; [|eapply Hnet]|].
    assert (Hlt : (p < length (sy_procs S))%nat).
    { rewrite Hlen, <- (inv_len _ _ (proj1 Hg)). by eapply lookup_lt_Some. }
    destruct (lookup_lt_is_Some_2 _ _ Hlt) as [pr Hpr].
    destruct (Hpeer p rf pr Hp Hpr) as [Hpo _]. eapply snap_ok_ext; [done|]. apply Hpo.
Qed.

(** ** The events *)
Lemma good_event c ev c' h :
  good n c h → service_ok c ev → cluster_step c ev = Some c' → ∃ h', hist_ext h h' ∧ good n c' h'.
Proof using Type.
  intros Hg Hok E. eapply good_step; [done|]. unfold service_step. by rewrite decide_True.
Qed.

Lemma internal_service c ev : internal ev = true → service_ok c ev.
Proof using Type. by destruct ev. Qed.

Lemma sys_cluster S h ev S' :
  sys_ok n S h → in_step S (SysCluster ev) → sys_step S (SysCluster ev) = Some S' →
  ∃ h', hist_ext h h' ∧ sys_ok n S' h'.
Proof using Type.
  intros Hok Hst E. destruct (sys_step_internal _ _ _ E) as (Hint & _ & c' & Ec & ->). pose proof (so_good _ _ _ Hok) as Hg.
  destruct (good_event _ _ _ _ Hg (internal_service _ _ Hint) Ec) as (h' & He & Hg').
  exists h'. split; [done|]. eapply sys_move; try done.
  - eapply moved_internal; try done. apply Hok.
  - unfold enqueue. apply length_imap.
  - intros p pr' (pr & Hpr & ->)%enqueue_lookup. by exists pr.
  - intros i q args. by eapply net_internal.
Qed.

(** The world of a process changes, its peer does not. *)
Lemma sys_world S h p pr w :
  sys_ok n S h → sy_procs S !! p = Some pr →
  same_store pr (mkProcess w (pr_queue pr) (pr_index pr)) [] →
  sys_ok n (mkSystem (sy_cluster S) (<[p := mkProcess w (pr_queue pr) (pr_index pr)]> (sy_procs S))) h.
Proof using Type.
  intros Hok Hp Hs. eapply (sys_move S h h); try done.
  - apply Hok.
  - apply hist_ext_refl.
  - apply moved_nodes; try done; [apply hist_ext_refl|by left].
  - apply length_insert.
  - rewrite drop_all. intros p2 pr' [(<- & <- & _)|(_ & Hp2)]%list_lookup_insert_Some.
    + by exists pr.
    + exists pr'. split; [done|apply same_store_refl].
  - by left.
Qed.

(** A step of the callers of a store. *)
Lemma world_same pr ev w :
  match ev with WMsg _ => False | _ => True end → world_step (pr_world pr) ev = Some w →
  same_store pr (mkProcess w (pr_queue pr) (pr_index pr)) [].
Proof using Type.
  intros Hev E. destruct (world_state_step _ _ _ E) as (ms & Hh & Hs & Hms).
  assert (ms = []) as -> by by destruct ev. unfold same_store. cbn. rewrite app_nil_r in *.
  split_and!; try done; [|intros Hw; by eapply world_ok_step]. clear - Hev E.
  destruct ev as [cmd i ok| |x|x]; [..|]; simpl in E; [|done|..].
  - unfold Submit in E. destruct (negb _); [by injection E as <-|]. destruct (negb _); by injection E as <-.
  - destruct (waiting (pr_world pr) !! x); [|done]. cbn [mbind option_bind] in E.
    destruct (list_find _ _); [|done]. cbn [mbind option_bind] in E. by injection E as <-.
  - destruct (waiting (pr_world pr) !! x); [|done]. cbn [mbind option_bind] in E. by injection E as <-.
Qed.

Lemma sys_receive S h p ch S' :
  sys_ok n S h → sys_step S (SysReceive p ch) = Some S' → sys_ok n S' h.
Proof using Type.
  intros Hok E. unfold sys_step in E. destruct (sy_procs S !! p) as [pr|] eqn:Hp; [|done].
  cbn [mbind option_bind] in E. destruct (world_step (pr_world pr) (WReceive ch)) as [w|] eqn:Ew; [|done].
  cbn [mbind option_bind] in E. injection E as <-. apply sys_world; [done..|]. by eapply world_same; [|done].
Qed.

Lemma sys_timeout S h p ch S' :
  sys_ok n S h → sys_step S (SysTimeout p ch) = Some S' → sys_ok n S' h.
Proof using Type.
  intros Hok E. unfold sys_step in E. destruct (sy_procs S !! p) as [pr|] eqn:Hp; [|done].
  cbn [mbind option_bind] in E. destruct (world_step (pr_world pr) (WTimeout ch)) as [w|] eqn:Ew; [|done].
  cbn [mbind option_bind] in E. injection E as <-. apply sys_world; [done..|]. by eapply world_same; [|done].
Qed.

Lemma sys_submit S h p cmd S' :
  sys_ok n S h → sys_step S (SysSubmit p cmd) = Some S' → ∃ h', hist_ext h h' ∧ sys_ok n S' h'.
Proof using Type.
  intros Hok E. unfold sys_step in E.
  destruct (sy_procs S !! p) as [pr|] eqn:Hpr; [|done]. cbn [mbind option_bind] in E.
  destruct (nodes (sy_cluster S) !! p) as [rf|] eqn:Hp; [|done]. cbn [mbind option_bind] in E.
  destruct (Start rf (Some cmd)) as [[[index term] ok] rf'] eqn:Es.
  destruct (cluster_step (sy_cluster S) (EvStart p (Some cmd))) as [c'|] eqn:Ec; [|done].
  cbn [mbind option_bind] in E. destruct (world_step (pr_world pr) _) as [w|] eqn:Ew; [|done].
  cbn [mbind option_bind] in E. injection E as <-. pose proof (world_same pr (WSubmit cmd index ok) w I Ew) as Hsame.
  destruct (good_event (sy_cluster S) (EvStart p (Some cmd)) c' h (so_good _ _ _ Hok) I Ec)
    as (h' & He & Hg'). exists h'. split; [done|].
  assert (Hv : qview rf' = qview rf) by (pose proof (Start_qview rf (Some cmd)) as H; by rewrite Es in H).
  simpl in Ec. unfold callStart in Ec. rewrite Hp in Ec. cbn [mbind option_bind] in Ec. rewrite Es in Ec.
  injection Ec as Ec. assert (Ha : applied c' = applied (sy_cluster S)) by by rewrite <- Ec.
  eapply (sys_move S h h'); try done.
  - eapply moved_same; try done; [by rewrite <- Ec|]. intros t Ht2. rewrite <- Ec in Ht2. simpl in Ht2.
    apply elem_of_app in Ht2 as [?|Ht2]; [by left|right].
    destruct ok; [by apply list_elem_of_singleton in Ht2 as ->|by apply not_elem_of_nil in Ht2].
  - apply length_insert.
  - rewrite Ha, drop_all. intros p2 pr' [(<- & <- & _)|(_ & Hp2)]%list_lookup_insert_Some.
    + by exists pr.
    + exists pr'. split; [done|apply same_store_refl].
  - rewrite <- Ec. by left.
Qed.

Lemma moved_snapshot h h' c p rf index data rf' c' st :
  hist_ext h h' → core n h (floor c p) (h_full h p) rf → nodes c !! p = Some rf →
  index <= lastApplied rf → data = gob_encode st → at_state n h st index →
  Snapshot rf index data = Some rf' →
  nodes c' = <[p := rf']> (nodes c) → applied c' = applied c → threads c' = threads c → moved n h h' c c'.
Proof using Type.
  intros He Hc Hp Hi -> Hst E Hn Ha Ht.
  destruct (decide (index <= lastIncludedIndex rf)) as [Hle|Hgt].
  { unfold Snapshot in E. destruct (Z.leb_spec index (lastIncludedIndex rf)); [|lia]. injection E as <-.
    eapply moved_same; try done. intros t. rewrite Ht. by left. }
  pose proof (known_bound _ _ _ _ _ _ Hc (co_applied _ _ _ _ _ Hc)) as Hb.
  destruct (Snapshot_spec rf index (gob_encode st)) as (rf2 & E2 & Hlii & _ & _ & _ & _ & Hr & _ & _ & _ & _ & _ & Hla);
    [lia|]. rewrite E in E2. injection E2 as <-.
  assert (Hps : pendingSnapshot rf' = pendingSnapshot rf).
  { clear - E. unfold Snapshot in E. destruct (index <=? lastIncludedIndex rf); [by injection E as <-|].
    destruct (logTerm rf index); [|done]. cbn [mbind option_bind] in E.
    destruct (slice_from _ _) as [[|e r]|]; [done| |done]. cbn [mbind option_bind] in E. by injection E as <-. }
  intros p2 rf2 Hp2. rewrite Ha, drop_all. cbn. rewrite Hn in Hp2.
  apply list_lookup_insert_Some in Hp2 as [(<- & <- & _)|(Hne & Hp2)].
  - exists rf. split; [done|]. split; [lia|]. intros k q Hk [Hd (a & Hf & Hpend) Hidle].
    rewrite app_nil_r, Ht. constructor; rewrite ?Hlii, ?Hr, ?Hps, ?Hla; [| |done].
    + right. exists st. split; [done|by eapply at_state_ext].
    + exists a. split; [by eapply feeds_ext|]. destruct (pendingSnapshot rf); [|done].
      destruct Hpend as (? & st2 & t & ? & ?). split; [done|]. exists st2, t.
      split; [by eapply at_state_ext|done].
  - exists rf2. split; [done|]. split; [lia|]. intros k q _ Hk. rewrite app_nil_r, Ht.
    eapply peer_quiet; try done. by left.
Qed.

Lemma sys_snapshot S h p k S' :
  sys_ok n S h → sys_step S (SysSnapshot p k) = Some S' → ∃ h', hist_ext h h' ∧ sys_ok n S' h'.
Proof using Type.
  intros Hok E. unfold sys_step in E.
  destruct (sy_procs S !! p) as [pr|] eqn:Hpr; [|done]. cbn [mbind option_bind] in E.
  destruct (taken (pr_world pr) !! k) as [[index data]|] eqn:Hk; [|done]. cbn [mbind option_bind] in E.
  destruct (cluster_step (sy_cluster S) (EvSnapshot p index data)) as [c'|] eqn:Ec; [|done].
  cbn [mbind option_bind] in E. injection E as <-.
  pose proof Ec as Ec'. simpl in Ec. unfold callSnapshot in Ec.
  destruct (nodes (sy_cluster S) !! p) as [rf|] eqn:Hp; [|done]. cbn [mbind option_bind] in Ec.
  destruct (Snapshot rf index data) as [rf'|] eqn:Es; [|done]. cbn [mbind option_bind] in Ec.
  destruct (so_peer _ _ _ Hok _ _ _ Hp Hpr) as [_ Hpk].
  destruct (pk_taken _ _ _ _ Hpk _ _ (list_elem_of_lookup_2 _ _ _ Hk)) as (Hi & st & Hd & Hst).
  destruct (good_event (sy_cluster S) (EvSnapshot p index data) c' h (so_good _ _ _ Hok))
    as (h' & He & Hg'); [simpl; by rewrite Hp|done|]. exists h'. split; [done|].
  injection Ec as Ec. assert (Ha : applied c' = applied (sy_cluster S)) by by rewrite <- Ec.
  eapply (sys_move S h h'); try done.
  - destruct (so_good _ _ _ Hok) as [_ Hl]. eapply moved_snapshot; try done;
      [by apply (li_core _ _ _ Hl)|by rewrite <- Ec..].
  - rewrite Ha, drop_all. intros p2 pr' Hp2. exists pr'. split; [done|apply same_store_refl].
  - rewrite <- Ec. by left.
Qed.

Lemma sys_handle S h p S' :
  sys_ok n S h → sys_step S (SysHandle p) = Some S' → sys_ok n S' h.
Proof using Type.
  intros Hok E. unfold sys_step in E.
  destruct (sy_procs S !! p) as [pr|] eqn:Hpr; [|done]. cbn [mbind option_bind] in E.
  destruct (pr_queue pr) as [|msg q] eqn:Hq; [done|]. cbn [world_step] in E.
  destruct (applyLoop_turn (store (pr_world pr)) msg) as [[s' out] snap] eqn:Et.
  cbn [mbind option_bind] in E. injection E as <-. destruct Hok as [Hg Hlen Hpeer Hnet].
  constructor; [done|cbn; by rewrite length_insert| |done]. cbn.
  intros p2 rf pr2 Hp [(<- & <- & _)|(_ & Hp2)]%list_lookup_insert_Some; [|by apply Hpeer].
  destruct (Hpeer _ _ _ Hp Hpr) as [[Hd (a & Hf & Hpend) Hidle] [H0 Hst Htk Hhd Hwd]]. rewrite Hq in Hf.
  destruct (handle_ok n _ _ h _ _ _ _ _ _ _ _ (li_hist _ _ _ (proj2 Hg)) H0 Hst Hf Et)
    as (Hk & Hst' & Hf' & Hent & Hsnap). split.
  - constructor; [done| |done]. by exists a.
  - constructor; cbn; [lia|done|..].
    + intros i d [Hin|Hin]%elem_of_app; [by apply Htk|].
      destruct snap as [[i2 d2]|]; [|by apply not_elem_of_nil in Hin].
      apply list_elem_of_singleton in Hin. injection Hin as -> ->.
      destruct (Hsnap _ _ eq_refl) as [-> ->]. split; [|by eexists].
      apply feeds_le in Hf'. destruct (pendingSnapshot rf); [destruct Hpend|]; lia.
    + intros m [Hm|Hm]%elem_of_app Hv; [destruct (Hhd m Hm Hv); split; [lia|done]|].
      apply list_elem_of_singleton in Hm as ->. destruct (Hent Hv). split; [|done].
      unfold msg_index. rewrite Hv. lia.
    + eapply (world_ok_step _ (WMsg msg)); [exact Hwd|]. simpl. by rewrite Et.
Qed.

(** ** Restarts *)
Lemma Make_pending rf p : pending (Store.Make rf p) = ∅.
Proof using Type.
  unfold Store.Make. destruct p as [p|]; [|done]. destruct (0 <? _); [|done].
  by rewrite installSnapshot_pending.
Qed.

Lemma new_process_state h rf :
  snap_ok n h (ReadSnapshot (persister rf)) (lastIncludedIndex rf) →
  at_state n h (sm (store (pr_world (new_process rf)))) (lastIncludedIndex rf).
Proof using Type.
  intros [[-> Hd]|(st & Hd & Hst)]; cbn [new_process pr_world world_init store].
  - unfold Store.Make. rewrite Hd. apply at_state_zero.
  - by rewrite (Make_state true st _ Hd).
Qed.

Lemma new_process_ok h ts p rf :
  0 <= lastIncludedIndex rf → snap_ok n h (ReadSnapshot (persister rf)) (lastIncludedIndex rf) →
  lastApplied rf = lastIncludedIndex rf → pendingSnapshot rf = None →
  peer_ok n h ts p rf (pr_index (new_process rf)) (pr_queue (new_process rf)) ∧
  proc_ok n h rf (new_process rf).
Proof using Type.
  intros H0 Hd Hla Hps. split; constructor; try done.
  - exists (lastIncludedIndex rf). rewrite Hps, Hla. split; [constructor|done].
  - rewrite Hps. by intros [? [=]].
  - by apply new_process_state.
  - by intros i d ?%not_elem_of_nil.
  - by intros m ?%not_elem_of_nil.
  - apply world_ok_init, Make_pending.
Qed.

Lemma sys_restart S h p now S' :
  sys_ok n S h → sys_step S (SysRestart p now) = Some S' → ∃ h', hist_ext h h' ∧ sys_ok n S' h'.
Proof using Type.
  intros Hok E. unfold sys_step in E.
  destruct (cluster_step (sy_cluster S) (EvRestart p now)) as [c'|] eqn:Ec; [|done].
  cbn [mbind option_bind] in E. destruct (nodes c' !! p) as [rf'|] eqn:Hp'; [|done].
  cbn [mbind option_bind] in E. injection E as <-. destruct Hok as [Hg Hlen Hpeer Hnet].
  destruct (good_event (sy_cluster S) (EvRestart p now) c' h Hg I Ec) as (h' & He & Hg').
  exists h'. split; [done|]. simpl in Ec. unfold restart in Ec.
  destruct (nodes (sy_cluster S) !! p) as [rf|] eqn:Hp; [|done]. cbn [mbind option_bind] in Ec.
  injection Ec as Ec. assert (Hn : nodes c' = <[p := RaftNode.Make (peers rf) p (persister rf) now]> (nodes (sy_cluster S)))
    by by rewrite <- Ec.
  assert (Hnet' : net c' = net (sy_cluster S)) by by rewrite <- Ec.
  assert (Hth : ∀ t, t ∈ threads c' → t ∈ threads (sy_cluster S) ∨ ∀ q, delivering q t = false).
  { rewrite <- Ec. cbn. intros t [Ht|Ht]%elem_of_app.
    - left. apply list_elem_of_In, List.filter_In in Ht as [Ht _]. by apply list_elem_of_In.
    - right. intros q. repeat (apply elem_of_cons in Ht as [->|Ht]; [done|]). by apply not_elem_of_nil in Ht. }
  clear Ec. assert (Hlt : (p < length (nodes (sy_cluster S)))%nat) by by eapply lookup_lt_Some.
  constructor; [done|cbn; by rewrite length_insert| |]; cbn.
  - intros p2 rf2 pr2 Hp2. destruct (decide (p2 = p)) as [->|Hne].
    + rewrite Hp' in Hp2. injection Hp2 as <-. rewrite Hn, list_lookup_insert_eq in Hp' by done.
      injection Hp' as <-. intros Hpr2.
      rewrite list_lookup_insert_eq in Hpr2; [|by rewrite Hlen, <- (inv_len _ _ (proj1 Hg))].
      injection Hpr2 as <-. pose proof (li_core _ _ _ (proj2 Hg) _ _ Hp) as Hc.
      destruct (Make_volatile (peers rf) p (persister rf) now) as (_ & Hla & Hps).
      destruct (Make_fixed (peers rf) p (persister rf) now) as (_ & _ & Hpe & _).
      assert (Hlii : lastIncludedIndex (RaftNode.Make (peers rf) p (persister rf) now) = lastIncludedIndex rf).
      { pose proof (Make_mem (peers rf) p (persister rf) now) as Hm. rewrite (co_disk _ _ _ _ _ Hc) in Hm.
        unfold mem_log in Hm. by injection Hm. }
      assert (Hlt2 : (p < length (sy_procs S))%nat) by by rewrite Hlen, <- (inv_len _ _ (proj1 Hg)).
      destruct (lookup_lt_is_Some_2 _ _ Hlt2) as [pr Hpr]. destruct (Hpeer _ _ _ Hp Hpr) as [Hpo _].
      apply new_process_ok; [rewrite Hlii; apply Hc| |done|done].
      rewrite Hpe, Hlii. eapply snap_ok_ext; [done|apply Hpo].
    + rewrite Hn, list_lookup_insert_ne in Hp2 by done. rewrite list_lookup_insert_ne by done.
      intros Hpr2. destruct (Hpeer _ _ _ Hp2 Hpr2) as [Hpo Hpk]. split.
      * eapply peer_quiet; try done. intros t Ht. destruct (Hth t Ht); [by left|by right].
      * eapply proc_ok_same; [done|done|apply same_store_refl|done].
  - intros i q args Hi. rewrite Hnet' in Hi. eapply snap_ok_ext; [done|by eapply Hnet].
Qed.

Lemma sys_step_ok S h ev S' :
  sys_ok n S h → in_step S ev → sys_step S ev = Some S' → ∃ h', hist_ext h h' ∧ sys_ok n S' h'.
Proof using Type.
  intros Hok Hst E.
  assert (Hq : sys_ok n S' h → ∃ h', hist_ext h h' ∧ sys_ok n S' h') by
    (intros H; exists h; split; [apply hist_ext_refl|done]).
  destruct ev.
  - by eapply sys_cluster.
  - by eapply Hq, sys_handle.
  - by eapply sys_snapshot.
  - by eapply sys_submit.
  - by eapply Hq, sys_receive.
  - by eapply Hq, sys_timeout.
  - by eapply sys_restart.
  - done.
Qed.

Lemma sys_run_ok S h evs S' :
  sys_ok n S h → sys_run S evs = Some S' → ∃ h', hist_ext h h' ∧ sys_ok n S' h'.
Proof using Type.
  revert S h. induction evs as [|ev evs IH]; intros S h Hok; simpl.
  - intros [= <-]. exists h. split; [apply hist_ext_refl|done].
  - destruct (decide (in_step S ev)) as [Hst|]; [|done].
    destruct (sys_step S ev) as [S1|] eqn:E; [|done]. cbn [mbind option_bind]. intros Hr.
    destruct (sys_step_ok _ _ _ _ Hok Hst E) as (h1 & He1 & Hok1).
    destruct (IH S1 h1 Hok1 Hr) as (h' & He & Hok'). exists h'. split; [by eapply hist_ext_trans|done].
Qed.

(** ** What the peers have handed to the stores *)
Definition hands_more S S' : Prop := ∃ ms, applied (sy_cluster S') = applied (sy_cluster S) ++ ms.

Lemma hands_same S S' : sy_cluster S' = sy_cluster S → hands_more S S'.
Proof using Type. intros E. exists []. by rewrite E, app_nil_r. Qed.

Lemma hands_more_refl S : hands_more S S.
Proof using Type. by apply hands_same. Qed.

Lemma hands_more_trans S1 S2 S3 : hands_more S1 S2 → hands_more S2 S3 → hands_more S1 S3.
Proof using Type. intros [ms1 H1] [ms2 H2]. exists (ms1 ++ ms2). by rewrite H2, H1, app_assoc. Qed.

(** An event of a system is at most one of its cluster, unless a persister is lost. *)
Lemma sys_step_cluster S ev S' :
  starts_over ev = false → sys_step S ev = Some S' →
  sy_cluster S' = sy_cluster S ∨ ∃ cev, cluster_step (sy_cluster S) cev = Some (sy_cluster S').
Proof using Type.
  intros Hd E. destruct ev as [ev|p|p k|p cmd|p ch|p ch|p now|]; [..|done]; clear Hd;
    [destruct (sys_step_internal _ _ _ E) as (_ & _ & c' & Ec & ->); right; by exists ev|..]; unfold sys_step in E.
  - destruct (sy_procs S !! p) as [pr|]; [|done]. cbn [mbind option_bind] in E. destruct (pr_queue pr); [done|].
    destruct (world_step _ _); [|done]. injection E as <-. by left.
  - destruct (sy_procs S !! p) as [pr|]; [|done]. cbn [mbind option_bind] in E.
    destruct (taken (pr_world pr) !! k) as [[index data]|]; [|done]. cbn [mbind option_bind] in E.
    destruct (cluster_step _ _) as [c'|] eqn:Ec; [|done]. injection E as <-. right. by eexists.
  - destruct (sy_procs S !! p) as [pr|]; [|done]. cbn [mbind option_bind] in E.
    destruct (nodes (sy_cluster S) !! p) as [rf|]; [|done]. cbn [mbind option_bind] in E.
    destruct (Start rf (Some cmd)) as [[[index term] ok] rf']. destruct (cluster_step _ _) as [c'|] eqn:Ec; [|done].
    cbn [mbind option_bind] in E. destruct (world_step _ _); [|done]. injection E as <-. right. by eexists.
  - destruct (sy_procs S !! p) as [pr|]; [|done]. cbn [mbind option_bind] in E.
    destruct (world_step _ _); [|done]. injection E as <-. by left.
  - destruct (sy_procs S !! p) as [pr|]; [|done]. cbn [mbind option_bind] in E.
    destruct (world_step _ _); [|done]. injection E as <-. by left.
  - destruct (cluster_step _ _) as [c'|] eqn:Ec; [|done]. cbn [mbind option_bind] in E.
    destruct (nodes c' !! p); [|done]. injection E as <-. right. by eexists.
Qed.

Lemma sys_hands_more S ev S' : starts_over ev = false → sys_step S ev = Some S' → hands_more S S'.
Proof using Type.
  intros Hd [E|[cev E]]%(sys_step_cluster _ _ _ Hd); [by apply hands_same|by eapply step_applied].
Qed.

Lemma sys_gapless S h ev S' :
  sys_ok n S h → gapless (sy_cluster S) → starts_over ev = false → sys_step S ev = Some S' →
  gapless (sy_cluster S').
Proof using Type.
  intros Hok Hg Hd [->|[cev E]]%(sys_step_cluster _ _ _ Hd); [done|]. by eapply gapless_step; [apply Hok| |].
Qed.

Lemma sys_run_hands S h evs S' :
  sys_ok n S h → gapless (sy_cluster S) → sys_run S evs = Some S' →
  gapless (sy_cluster S') ∧ hands_more S S'.
Proof using Type.
  revert S h. induction evs as [|ev evs IH]; intros S h Hok Hg; simpl.
  - intros [= <-]. split; [done|apply hands_more_refl].
  - destruct (decide (in_step S ev)) as [Hst|]; [|done].
    destruct (sys_step S ev) as [S1|] eqn:E; [|done]. cbn [mbind option_bind]. intros Hr.
    destruct (sys_step_ok _ _ _ _ Hok Hst E) as (h1 & He1 & Hok1).
    apply in_step_spec in Hst as [_ Hd].
    destruct (IH S1 h1 Hok1 (sys_gapless _ _ _ _ Hok Hg Hd E) Hr) as [Hg' Hm].
    split; [done|]. eapply hands_more_trans; [by eapply sys_hands_more|done].
Qed.

Lemma process_peer S h p pr :
  sys_ok n S h → sy_procs S !! p = Some pr → ∃ rf, nodes (sy_cluster S) !! p = Some rf.
Proof using Type.
  intros Hok Hp. apply lookup_lt_is_Some_2.
  rewrite (inv_len _ _ (proj1 (so_good _ _ _ Hok))), <- (so_len _ _ _ Hok). by eapply lookup_lt_Some.
Qed.

(** A store is not ahead of its peer. *)
Lemma index_applied S h p pr :
  sys_ok n S h → sy_procs S !! p = Some pr →
  ∃ rf, nodes (sy_cluster S) !! p = Some rf ∧ pr_index pr <= lastApplied rf.
Proof using Type.
  intros Hok Hp. destruct (process_peer _ _ _ _ Hok Hp) as [rf Hrf]. exists rf. split; [done|].
  destruct (so_peer _ _ _ Hok _ _ _ Hrf Hp) as [[_ (a & Hf & Ha) _] _]. apply feeds_le in Hf.
  destruct (pendingSnapshot rf); [destruct Ha as [? _]|subst a]; lia.
Qed.

Lemma index_handed S h p pr :
  sys_ok n S h → gapless (sy_cluster S) → sy_procs S !! p = Some pr → handed (sy_cluster S) (pr_index pr).
Proof using Type.
  intros Hok Hg Hp. destruct (index_applied _ _ _ _ Hok Hp) as (rf & Hrf & Ha).
  eapply handed_le; [by eapply ga_applied|done].
Qed.

(** ** The log of the stores *)

(** [pr] holds the state after the first [pr_index pr] entries of [L]. *)
Definition replicates (L : list (option Cmd)) (pr : process) : Prop :=
  0 <= pr_index pr <= zlen L ∧
  sm (store (pr_world pr)) = state_after (commands L (Z.to_nat (pr_index pr))).

(** A store whose index was handed over follows the log of the services. *)
Lemma follows_log S h h' c L t s pr p :
  sys_ok n S h → hist_ext h h' → hist_ok n (floor c) (votes c) h' → service_log c L →
  stable n h' t s (zlen L) → L = take (length L) (le_Command <$> tail s) →
  sy_procs S !! p = Some pr → handed c (pr_index pr) → replicates L pr.
Proof using Type.
  intros Hok He Hh HL Hs Es Hp Hhd. destruct (process_peer _ _ _ _ Hok Hp) as [rf Hrf].
  destruct (so_peer _ _ _ Hok _ _ _ Hrf Hp) as [_ [Hk Hst _ _ _]].
  pose proof (handed_bound _ _ _ HL Hhd Hk) as Hle. split; [lia|].
  apply (at_state_ext _ _ _ _ _ He) in Hst as (t' & s' & Hs' & ->).
  rewrite (state_at_same _ s) by (eapply (stable_agree n _ _ h' Hh); [done|done|lia|lia]).
  unfold state_at, commands. rewrite Es at 1. do 2 f_equal. rewrite take_take. f_equal. unfold zlen in Hle. lia.
Qed.

(** The stores of two moments of a run follow one log, the one that the peers have handed
    to their services by then. *)
Lemma stores_one_log S h S' h' :
  sys_ok n S h → sys_ok n S' h' → hist_ext h h' →
  gapless (sy_cluster S) → gapless (sy_cluster S') → hands_more S S' →
  ∃ L, service_log (sy_cluster S') L ∧ (∀ pr, pr ∈ sy_procs S ∨ pr ∈ sy_procs S' → replicates L pr) ∧
    ∀ i cmd, 0 < i → handed (sy_cluster S') i → entry_at n h' i cmd → L !! Z.to_nat (i - 1) = Some cmd.
Proof using Type.
  intros Hok Hok' He Hg Hg' [ms Hms].
  destruct (service_log_stable n (sy_cluster S') h' (so_good _ _ _ Hok') Hg') as (L & t & s & HL & Hs & Es).
  pose proof (li_hist _ _ _ (proj2 (so_good _ _ _ Hok'))) as Hh. exists L. split; [done|]. split.
  - intros pr [[p Hp]%list_elem_of_lookup|[p Hp]%list_elem_of_lookup].
    + eapply (follows_log S h h'); try done. eapply handed_app; [exact Hms|]. by eapply index_handed.
    + eapply (follows_log S' h' h'); try done; [apply hist_ext_refl|]. by eapply index_handed.
  - intros i cmd Hi Hhd (t' & s' & e & Hs' & Hie & <-).
    pose proof (handed_bound _ _ _ HL Hhd ltac:(lia)) as Hle.
    destruct (stable_agree _ _ _ _ Hh _ _ _ _ _ _ i Hs' Hs) as (_ & _ & Heq); [lia|lia|].
    rewrite Heq, idx_lookup in Hie by lia. rewrite Es, lookup_take_lt by (unfold zlen in Hle; lia).
    rewrite list_lookup_fmap, lookup_tail.
    replace (Datatypes.S (Z.to_nat (i - 1))) with (Z.to_nat i) by lia. by rewrite Hie.
Qed.

End Safety.

(** ** The theorems *)
Section Theorems.
Context {gobZ : Gob Z} {gobLog : Gob (list (LogEntry Cmd))} {gobState : Gob storeState}.

Lemma sys_init_ok ps now : sys_ok (length ps) (sys_init ps now) hist_init.
Proof using Type.
  pose proof (good_init (Command := Cmd) ps now) as Hg. constructor; [done|..].
  - cbn. by rewrite !length_fmap, length_seq.
  - intros p rf pr Hp Hpr. cbn in Hpr. rewrite list_lookup_fmap in Hpr. cbn in Hp.
    rewrite Hp in Hpr. injection Hpr as <-.
    apply list_lookup_fmap_Some in Hp as (q & -> & _).
    destruct (Make_volatile ps q MakePersister now) as (_ & Hla & Hps).
    apply new_process_ok; [done| |done|done]. by left.
  - done.
Qed.

Lemma sys_reachable_ok ps now S : sys_reachable ps now S → ∃ h, sys_ok (length ps) S h.
Proof using Type.
  intros [evs Hr]. destruct (sys_run_ok _ _ _ _ _ (sys_init_ok ps now) Hr) as (h & _ & Hok). by exists h.
Qed.

Lemma sys_reachable_hands ps now S :
  sys_reachable ps now S → ∃ h, sys_ok (length ps) S h ∧ gapless (sy_cluster S).
Proof using Type.
  intros [evs Hr]. destruct (sys_run_ok _ _ _ _ _ (sys_init_ok ps now) Hr) as (h & _ & Hok). exists h.
  split; [done|]. by apply (sys_run_hands _ _ _ _ _ (sys_init_ok ps now) (gapless_init ps now) Hr).
Qed.

(** C1. The replicated job store.  In a run in which no snapshot is installed on a peer
    that has applied more or is delivering entries, and in which a node that comes back has
    the persister it had (crashed nodes may also stay down): at every moment, what the peers
    have handed to their stores is one log, with one command at every index and no gaps, and
    the log of a later moment only adds to it; the jobs and runs in the store of every node
    are the result of executing, from the empty store, a prefix of the log.  Elections,
    crashes, lost and repeated messages, log compactions and installed snapshots occur in
    the run in any order.  The code ensures neither condition: InstallSnapshot (raft.go:898)
    does not look at what was applied, see the theorem [stores_diverge], and main.go:60 makes
    an empty persister at every start, see [start_over_two_leaders]. *)
Theorem replicated_store ps now evs S evs' S' :
  sys_exec (sys_init ps now) evs = Some S → sys_exec S evs' = Some S' →
  snapshots_in_step (sys_init ps now) (evs ++ evs') → disks_survive (evs ++ evs') →
  ∃ L L', service_log (sy_cluster S) L ∧ service_log (sy_cluster S') L' ∧ L `prefix_of` L' ∧
    (∀ pr, pr ∈ sy_procs S → replicates L pr) ∧ (∀ pr, pr ∈ sy_procs S' → replicates L' pr).
Proof using Type.
  intros E E' Hs Hd. destruct (sys_run_parts _ _ _ _ _ E E' Hs Hd) as [H0 Hr].
  destruct (sys_reachable_hands ps now S) as (h & Hok & Hg); [by exists evs|].
  destruct (sys_run_ok _ _ _ _ _ Hok Hr) as (h' & He & Hok').
  destruct (sys_run_hands _ _ _ _ _ Hok Hg Hr) as [Hg' [ms Hm]].
  destruct (stores_one_log _ S h S h Hok Hok (hist_ext_refl h) Hg Hg (hands_more_refl S)) as (L & HL & H & _).
  destruct (stores_one_log _ S' h' S' h' Hok' Hok' (hist_ext_refl h') Hg' Hg' (hands_more_refl S'))
    as (L' & HL' & H' & _).
  exists L, L'. split_and!; [done|done|by eapply service_log_grows|auto|auto].
Qed.

(** C2. A [Submit] that returned no error is final, in a run in which no snapshot is
    installed on a peer that has applied more or is delivering entries and in which a node
    that comes back has the persister it had (the code ensures neither: [stores_diverge] is a
    run where this fails).  A command with its request id is in the one log of what was
    handed to the stores, at the index [Start] gave it, so that every node that has come that
    far, then or at any later moment, has executed it, and no other command in its place. *)
Theorem submit_durable ps now evs S evs' S' p pr ch :
  sys_exec (sys_init ps now) evs = Some S → sys_exec S evs' = Some S' →
  snapshots_in_step (sys_init ps now) (evs ++ evs') → disks_survive (evs ++ evs') →
  sy_procs S !! p = Some pr → (ch, None) ∈ returned (pr_world pr) →
  ∃ wt cmd L, started (pr_world pr) !! ch = Some wt ∧ c_ReqID cmd = c_ReqID (w_cmd wt) ∧
    0 < w_index wt ∧ service_log (sy_cluster S') L ∧
    L !! Z.to_nat (w_index wt - 1) = Some (Some cmd) ∧
    ∀ pr', pr' ∈ sy_procs S ∨ pr' ∈ sy_procs S' → replicates L pr'.
Proof using Type.
  intros E E' Hs0 Hd0 Hp Hin. destruct (sys_run_parts _ _ _ _ _ E E' Hs0 Hd0) as [H0 Hr].
  destruct (sys_reachable_hands ps now S) as (h & Hok & Hg); [by exists evs|].
  destruct (sys_run_ok _ _ _ _ _ Hok Hr) as (h' & He & Hok').
  destruct (sys_run_hands _ _ _ _ _ Hok Hg Hr) as [Hg' Hm]. destruct (process_peer _ _ _ _ _ Hok Hp) as [rf Hrf].
  destruct (so_peer _ _ _ Hok _ _ _ Hrf Hp) as [_ [_ _ _ Hhd [_ _ Ha Hret]]].
  destruct (Hret _ _ Hin) as [?|[?|Hs]]; [done|done|].
  destruct (Ha _ _ Hs) as (_ & wt & Hwt & Hc). destruct (Hc eq_refl) as (m & cmd & Hmm & Hv & Hcmd & Hi & Hreq).
  destruct (Hhd m Hmm Hv) as [[Hpos Hle] Hen]. rewrite Hi, Hcmd in *.
  destruct (stores_one_log _ S h S' h' Hok Hok' He Hg Hg' Hm) as (L & HL & Hrep & Hat).
  exists wt, cmd, L. split_and!; try done. apply Hat; [done| |by eapply entry_at_ext].
  destruct Hm as [ms Hms]. eapply handed_app; [exact Hms|]. eapply handed_le; [by eapply index_handed|done].
Qed.

End Theorems.

(** ** A run of three nodes *)
Module SystemRuns.
Import Runs StoreExamples.

(** Node 0 leads, a job is submitted to it, replicated on node 1, committed and
    applied, and the caller returns. *)
Definition first : list sys_event :=
  [SysCluster (EvElection 0 300 260); SysCluster (EvRun 6); SysCluster (EvServe 0 301);
   SysCluster (EvReply 7 0); SysSubmit 0 (upsert "q1" "a"); SysCluster (EvRun 8); SysCluster (EvRun 8);
   SysCluster (EvServe 1 310); SysCluster (EvReply 9 1); SysCluster (EvRun 0); SysHandle 0; SysReceive 0 0].
Definition s0 : system := sys_init ps3 0.
Definition s1 : system := default s0 (sys_run s0 first).

(** It crashes; node 1 is elected by node 2, which has nothing, runs the job, and
    both execute the job's first command. *)
Definition second : list sys_event :=
  [SysRestart 0 302; SysCluster (EvElection 0 700 260); SysCluster (EvRun 7); SysCluster (EvServe 2 701);
   SysCluster (EvReply 7 2); SysSubmit 1 (record "q2" "a" 9); SysCluster (EvRun 8); SysCluster (EvRun 9);
   SysCluster (EvServe 3 710); SysCluster (EvReply 9 3); SysCluster (EvRun 7); SysCluster (EvRun 8);
   SysCluster (EvRun 9); SysCluster (EvServe 4 720); SysCluster (EvReply 10 4); SysCluster (EvRun 0);
   SysCluster (EvRun 8); SysCluster (EvRun 9); SysCluster (EvRun 10); SysCluster (EvServe 5 720);
   SysCluster (EvRun 1); SysHandle 1; SysHandle 2].
Definition s2 : system := default s0 (sys_run s1 second).

Lemma first_run : sys_run (sys_init ps3 0) first = Some s1.
Proof. vm_compute. reflexivity. Qed.

Lemma second_run : sys_run s1 second = Some s2.
Proof. vm_compute. reflexivity. Qed.

Lemma both_run : sys_run (sys_init ps3 0) (first ++ second) = Some s2.
Proof. vm_compute. reflexivity. Qed.

Lemma s1_reachable : sys_reachable ps3 0 s1.
Proof. exists first. apply first_run. Qed.

(** The parts of a run in step. *)
Lemma sys_run_sys_exec S evs S' : sys_run S evs = Some S' → sys_exec S evs = Some S'.
Proof. intros H%sys_run_exec. apply H. Qed.

Lemma sys_run_snapshots S evs S' : sys_run S evs = Some S' → snapshots_in_step S evs.
Proof. intros H%sys_run_exec. apply H. Qed.

Lemma sys_run_disks S evs S' : sys_run S evs = Some S' → disks_survive evs.
Proof. intros H%sys_run_exec. apply H. Qed.

(** The process of node [p], computed. *)
Definition proc (s : system) (p : nat) : process := default (mkProcess dummy [] 0) (sy_procs s !! p).

Lemma proc_lookup s p : (p < length (sy_procs s))%nat → sy_procs s !! p = Some (proc s p).
Proof. intros [pr Hpr]%lookup_lt_is_Some_2. unfold proc. by rewrite Hpr. Qed.

Lemma proc_elem s p : (p < length (sy_procs s))%nat → proc s p ∈ sy_procs s.
Proof. intros H. eapply list_elem_of_lookup_2. by apply proc_lookup. Qed.

Lemma s1_length : length (sy_procs s1) = 3%nat.
Proof. vm_compute. reflexivity. Qed.

Lemma s2_length : length (sy_procs s2) = 3%nat.
Proof. vm_compute. reflexivity. Qed.

(** Node 0 before its crash and node 2, which learnt the command from node 1. *)
Lemma replicated_store_witness :
  pr_index (proc s1 0) = 1 ∧ pr_index (proc s2 2) = 1 ∧
  sm (store (pr_world (proc s1 0))) = sm (store (pr_world (proc s2 2))).
Proof.
  split_and!; [vm_compute; reflexivity..|].
  destruct (replicated_store ps3 0 first s1 second s2 (sys_run_sys_exec _ _ _ first_run)
    (sys_run_sys_exec _ _ _ second_run) (sys_run_snapshots _ _ _ both_run) (sys_run_disks _ _ _ both_run))
    as (L & L' & _ & HL' & [l ->] & H & H').
  destruct (H (proc s1 0)) as [[_ Hlt] ->]; [apply proc_elem; rewrite s1_length; lia|].
  destruct (H' (proc s2 2)) as [_ ->]; [apply proc_elem; rewrite s2_length; lia|].
  replace (pr_index (proc s1 0)) with 1 in Hlt |- * by (vm_compute; reflexivity).
  replace (pr_index (proc s2 2)) with 1 by (vm_compute; reflexivity).
  unfold commands. rewrite take_app_le; [done|unfold zlen in Hlt; lia].
Defined.

Lemma submit_durable_witness :
  returned (pr_world (proc s1 0)) = [(0%nat, None)] ∧
  ∃ cmd L, c_ReqID cmd = "q1"%string ∧ service_log (sy_cluster s2) L ∧ L !! 0%nat = Some (Some cmd) ∧
    replicates L (proc s2 1) ∧ replicates L (proc s2 2).
Proof.
  split; [vm_compute; reflexivity|].
  destruct (submit_durable ps3 0 first s1 second s2 0%nat (proc s1 0) 0%nat) as (wt & cmd & L & Hwt & Hreq & _ & Hsl & HL & H).
  - exact (sys_run_sys_exec _ _ _ first_run).
  - exact (sys_run_sys_exec _ _ _ second_run).
  - exact (sys_run_snapshots _ _ _ both_run).
  - exact (sys_run_disks _ _ _ both_run).
  - apply proc_lookup. rewrite s1_length. lia.
  - vm_compute. left.
  - vm_compute in Hwt. injection Hwt as <-. exists cmd, L. split_and!; [done|exact Hsl|done|..];
      (apply H; right; apply proc_elem; rewrite s2_length; lia).
Defined.

End SystemRuns.
