(* ===== verification/SystemValidity.v ===== *)
(** * Nodes: where the commands of the stores come from

    A store is only given commands that some store was asked to submit: the validity of
    the logs (ClusterValidity.v) carried through the channel to the stores.  Also what
    the steps of a system keep of the callers of a store. *)
From Stdlib Require Import ZArith Lia String.
From stdpp Require Import base tactics list strings numbers option gmap.
From S2P Require Import Prelude.
From S2P Require Import Gob.
From S2P Require Import Persister.
From S2P Require Import RaftNode.
From S2P Require Import RaftOps.
From S2P Require Import History.
From S2P Require Import Cluster.
From S2P Require Import ClusterVotes.
From S2P Require Import ClusterSafety.
From S2P Require Import ClusterInv.
From S2P Require Import ClusterSteps.
From S2P Require Import ClusterEffects.
From S2P Require Import ClusterLog.
From S2P Require Import ClusterValidity.
From S2P Require Import ClusterTotal.
From S2P Require Import ClusterHanded.
From S2P Require Import Store.
From S2P Require Import StoreSpec.
From S2P Require Import StoreTheorems.
From S2P Require Import System.
From S2P Require Import SystemSafety.

Local Open Scope Z_scope.

Section Validity.
Context {gobZ : Gob Z} {gobLog : Gob (list (LogEntry Cmd))} {gobState : Gob storeState}.
Implicit Types (c : cluster Cmd) (h : history Cmd) (S : system) (P : Cmd → Prop).

(** The messages a store has handled or will receive. *)
Definition heard (pr : process) : list (ApplyMsg Cmd) := handled (pr_world pr) ++ pr_queue pr.

(** Every command in the system satisfies [P], and none was left out. *)
Record sys_valid P S : Prop := {
  sv_cluster : valid P (sy_cluster S);
  sv_gapless : gapless (sy_cluster S);
  sv_heard : ∀ p pr m, sy_procs S !! p = Some pr → m ∈ heard pr → am_SnapshotValid m = false →
    said P (am_Command m)
}.

Lemma said_mono P P' cmd : (∀ x, P x → P' x) → said P cmd → said P' cmd.
Proof using Type. intros H Hs x Hx. by apply H, Hs. Qed.

Lemma sys_valid_mono P P' S : (∀ x, P x → P' x) → sys_valid P S → sys_valid P' S.
Proof using Type.
  intros H [[Hl Hn Ha] Hg Hh]. constructor; [constructor| |]; [..|done|].
  - intros p rf Hp e He. eapply said_mono; [done|by eapply Hl].
  - intros i q args Hi e He. eapply said_mono; [done|by eapply Hn].
  - intros p m Hm Hv. eapply said_mono; [done|by eapply Ha].
  - intros p pr m Hp Hm Hv. eapply said_mono; [done|by eapply Hh].
Qed.

(** The entries on their way to a store are flagged as such. *)
Lemma feeds_valid n h k k' q m :
  feeds n h k k' q → m ∈ q → am_SnapshotValid m = false → am_CommandValid m = true.
Proof using Type.
  induction 1 as [|k k' q cmd _ _ _ IH|k i k' q st t _ _ _ IH]; intros Hm Hv;
    [by apply not_elem_of_nil in Hm|..]; apply elem_of_cons in Hm as [->|Hm]; try done; by apply IH.
Qed.

Lemma sent_by_elem p ms (m : ApplyMsg Cmd) : m ∈ sent_by p ms → (p, m) ∈ ms.
Proof using Type.
  unfold sent_by. intros ([q x] & Hin & Hx)%list_elem_of_omap. simpl in Hx. case_decide; [|done].
  by simplify_eq.
Qed.

Lemma handled_step w ev w' m :
  world_step w ev = Some w' → m ∈ handled w' → m ∈ handled w ∨ ev = WMsg m.
Proof using Type.
  intros E Hm. destruct (world_state_step _ _ _ E) as (ms & Hh & _ & Hms). rewrite Hh in Hm.
  apply elem_of_app in Hm as [?|Hm]; [by left|right]. destruct ev; subst ms;
    try by apply not_elem_of_nil in Hm. by apply list_elem_of_singleton in Hm as ->.
Qed.

(** A store and its messages change, the cluster keeps its commands. *)
Lemma sys_valid_proc P S c' p pr pr' :
  sys_valid P S → valid P c' ∧ gapless c' → sy_procs S !! p = Some pr →
  (∀ m, m ∈ heard pr' → m ∈ heard pr) → sys_valid P (mkSystem c' (<[p := pr']> (sy_procs S))).
Proof using Type.
  intros [_ _ Hh] [Hv Hg] Hp Hm. constructor; [done|done|]. cbn.
  intros q x m [(<- & <- & _)|(_ & Hq)]%list_lookup_insert_Some Hin; [by eapply Hh, Hm|by eapply Hh].
Qed.

Lemma heard_world pr ev w :
  world_step (pr_world pr) ev = Some w → (∀ m, ev ≠ WMsg m) →
  ∀ m, m ∈ heard (mkProcess w (pr_queue pr) (pr_index pr)) → m ∈ heard pr.
Proof using Type.
  intros E Hev m [Hm|Hm]%elem_of_app; apply elem_of_app; [left|by right].
  destruct (handled_step _ _ _ _ E Hm) as [?|?]; [done|by destruct (Hev m)].
Qed.

Lemma valid_event P n S h ev c' :
  sys_ok n S h → sys_valid P S → (∀ q cmd, ev = EvStart q (Some cmd) → P cmd) →
  cluster_step (sy_cluster S) ev = Some c' → valid P c' ∧ gapless c'.
Proof using Type.
  intros Hok Hv Hev E. pose proof (so_good _ _ _ Hok) as Hg. split.
  - eapply valid_step; [exact Hg|apply Hv|done|done].
  - eapply gapless_step; [exact Hg|apply Hv|done].
Qed.

Lemma sys_valid_cluster P n S h ev S' h' :
  sys_ok n S h → sys_valid P S → sys_ok n S' h' → sys_step S (SysCluster ev) = Some S' → sys_valid P S'.
Proof using Type.
  intros Hok Hv Hok' E. destruct (sys_step_internal _ _ _ E) as (Hint & _ & c' & Ec & ->).
  destruct (valid_event P n S h ev c') as [Hc Hgap]; [exact Hok|exact Hv|by intros q cmd ->|exact Ec|].
  constructor; [done|done|]. cbn. intros p pr' m Hp Hm Hs.
  destruct (process_peer _ _ _ _ _ Hok' Hp) as [rf' Hrf'].
  destruct (so_peer _ _ _ Hok' _ _ _ Hrf' Hp) as [[_ (a & Hf & _) _] _].
  apply enqueue_lookup in Hp as (pr & Hpr & ->). cbn [pr_world pr_queue pr_index] in Hf.
  assert (Hin : m ∈ heard pr ∨ m ∈ sent_by p (drop (length (applied (sy_cluster S))) (applied c'))).
  { unfold heard in *. cbn [pr_world pr_queue pr_index] in Hm.
    apply elem_of_app in Hm as [Hm|[Hm|Hm]%elem_of_app]; [left|left|by right]; apply elem_of_app; tauto. }
  destruct Hin as [Hin|Hin]; [by eapply sv_heard|].
  assert (Hcv : am_CommandValid m = true).
  { eapply feeds_valid; [exact Hf| |done]. apply elem_of_app. by right. }
  apply sent_by_elem in Hin. eapply (va_applied _ _ Hc); [|done].
  rewrite <- (take_drop (length (applied (sy_cluster S))) (applied c')). apply elem_of_app. by right.
Qed.

Lemma sys_valid_step P n S h ev S' h' :
  sys_ok n S h → sys_ok n S' h' → sys_valid P S → (∀ p cmd, ev = SysSubmit p cmd → P cmd) →
  starts_over ev = false → sys_step S ev = Some S' → sys_valid P S'.
Proof using Type.
  intros Hok Hok' Hv Hev Hd E. destruct ev as [ev|p|p k|p cmd|p ch|p ch|p now|p now];
    [exact (sys_valid_cluster P n S h ev S' h' Hok Hv Hok' E)|..|done];
    unfold sys_step in E.
  - destruct (sy_procs S !! p) as [pr|] eqn:Hpr; [|done]. cbn [mbind option_bind] in E.
    destruct (pr_queue pr) as [|msg q] eqn:Hq; [done|].
    destruct (world_step (pr_world pr) (WMsg msg)) as [w|] eqn:Ew; [|done]. cbn [mbind option_bind] in E.
    injection E as <-. eapply sys_valid_proc; [done|split; apply Hv|done|]. unfold heard. cbn.
    intros m [Hm|Hm]%elem_of_app; apply elem_of_app; rewrite Hq, elem_of_cons; [|by right; right].
    destruct (handled_step _ _ _ _ Ew Hm) as [?|[= ->]]; [by left|by right; left].
  - destruct (sy_procs S !! p) as [pr|] eqn:Hpr; [|done]. cbn [mbind option_bind] in E.
    destruct (taken (pr_world pr) !! k) as [[index data]|]; [|done]. cbn [mbind option_bind] in E.
    destruct (cluster_step (sy_cluster S) (EvSnapshot p index data)) as [c'|] eqn:Ec; [|done].
    cbn [mbind option_bind] in E. injection E as <-.
    destruct (valid_event P n S h (EvSnapshot p index data) c'); [done|done|done|done|].
    constructor; [done|done|apply Hv].
  - destruct (sy_procs S !! p) as [pr|] eqn:Hpr; [|done]. cbn [mbind option_bind] in E.
    destruct (nodes (sy_cluster S) !! p) as [rf|]; [|done]. cbn [mbind option_bind] in E.
    destruct (Start rf (Some cmd)) as [[[index term] ok] rf'].
    destruct (cluster_step (sy_cluster S) (EvStart p (Some cmd))) as [c'|] eqn:Ec; [|done].
    cbn [mbind option_bind] in E. destruct (world_step (pr_world pr) _) as [w|] eqn:Ew; [|done].
    cbn [mbind option_bind] in E. injection E as <-. eapply sys_valid_proc; [done| |done|by eapply heard_world].
    eapply (valid_event P n S h); [exact Hok|exact Hv| |exact Ec]. intros q x [= -> ->]. by eapply Hev.
  - destruct (sy_procs S !! p) as [pr|] eqn:Hpr; [|done]. cbn [mbind option_bind] in E.
    destruct (world_step (pr_world pr) _) as [w|] eqn:Ew; [|done]. cbn [mbind option_bind] in E.
    injection E as <-. eapply sys_valid_proc; [done|split; apply Hv|done|by eapply heard_world].
  - destruct (sy_procs S !! p) as [pr|] eqn:Hpr; [|done]. cbn [mbind option_bind] in E.
    destruct (world_step (pr_world pr) _) as [w|] eqn:Ew; [|done]. cbn [mbind option_bind] in E.
    injection E as <-. eapply sys_valid_proc; [done|split; apply Hv|done|by eapply heard_world].
  - destruct (cluster_step (sy_cluster S) (EvRestart p now)) as [c'|] eqn:Ec; [|done].
    cbn [mbind option_bind] in E. destruct (nodes c' !! p) as [rf|]; [|done]. cbn [mbind option_bind] in E.
    injection E as <-. destruct (valid_event P n S h (EvRestart p now) c'); [done|done|done|done|].
    constructor; [done|done|]. cbn.
    intros q x m [(<- & <- & _)|(_ & Hq)]%list_lookup_insert_Some Hin; [by apply not_elem_of_nil in Hin|].
    by eapply sv_heard.
Qed.

Lemma sys_valid_init P ps now : sys_valid P (sys_init ps now).
Proof using Type.
  constructor; [apply valid_init|apply gapless_init|]. intros p pr m (rf & -> & _)%list_lookup_fmap_Some.
  by intros ?%not_elem_of_nil.
Qed.

(** ** The callers of a store *)
Lemma started_step w ev w' : world_step w ev = Some w' → ∃ l, started w' = started w ++ l.
Proof using Type.
  intros E. assert (Hn : started w' = started w → ∃ l, started w' = started w ++ l).
  { intros ->. exists []. by rewrite app_nil_r. }
  destruct ev as [cmd i isl|m|x|x]; simpl in E.
  - destruct (Submit _ _ _ _ _) as [s [e|j]]; injection E as <-; by eexists.
  - destruct (applyLoop_turn (store w) m) as [[s out] snap]. injection E as <-. by apply Hn.
  - destruct (waiting w !! x); [|done]. simpl in E. destruct (list_find _ _); [|done]. simpl in E.
    injection E as <-. by apply Hn.
  - destruct (waiting w !! x); [|done]. simpl in E. injection E as <-. by apply Hn.
Qed.

(** A process that is not restarted keeps its calls. *)
(** The next message is not behind the store. *)
Lemma head_index n S h p pr msg q :
  sys_ok n S h → sy_procs S !! p = Some pr → pr_queue pr = msg :: q → pr_index pr <= msg_index msg.
Proof using Type.
  intros Hok Hp Hq. destruct (process_peer _ _ _ _ _ Hok Hp) as [rf Hrf].
  destruct (so_peer _ _ _ Hok _ _ _ Hrf Hp) as [[_ (a & Hf & _) _] _]. rewrite Hq in Hf.
  inversion Hf; subst; cbn; lia.
Qed.

Lemma sys_started n S h ev S' p pr :
  sys_ok n S h → sys_step S ev = Some S' → starts_over ev = false → (∀ now, ev ≠ SysRestart p now) → sy_procs S !! p = Some pr →
  ∃ pr' l, sy_procs S' !! p = Some pr' ∧ started (pr_world pr') = started (pr_world pr) ++ l ∧ pr_index pr <= pr_index pr'.
Proof using Type.
  intros Hok E Hd Hev Hp. assert (Hsame : ∀ c', S' = mkSystem c' (sy_procs S) →
    ∃ pr' l, sy_procs S' !! p = Some pr' ∧ started (pr_world pr') = started (pr_world pr) ++ l ∧ pr_index pr <= pr_index pr').
  { intros c' ->. exists pr, []. by rewrite app_nil_r. }
  assert (Hins : ∀ c' q x ev w q' i, sy_procs S !! q = Some x → world_step (pr_world x) ev = Some w →
    pr_index x <= i → S' = mkSystem c' (<[q := mkProcess w q' i]> (sy_procs S)) →
    ∃ pr' l, sy_procs S' !! p = Some pr' ∧ started (pr_world pr') = started (pr_world pr) ++ l ∧ pr_index pr <= pr_index pr').
  { intros c' q x ev2 w q' i Hq Ew Hxi ->. cbn. destruct (decide (q = p)) as [->|Hne].
    - rewrite list_lookup_insert_eq by by eapply lookup_lt_Some. rewrite Hq in Hp. injection Hp as ->.
      destruct (started_step _ _ _ Ew) as [l Hl]. by eexists _, l.
    - rewrite list_lookup_insert_ne by done.
      exists pr, []. by rewrite app_nil_r. }
  destruct ev as [ev|q|q k|q cmd|q ch|q ch|q now|q now]; [|unfold sys_step in E..|done].
  - destruct (sys_step_internal _ _ _ E) as (_ & _ & c' & _ & ->). cbn. unfold enqueue. rewrite list_lookup_imap, Hp.
    eexists _, []. split; [done|]. by rewrite app_nil_r.
  - destruct (sy_procs S !! q) as [x|] eqn:Hq; [|done]. cbn [mbind option_bind] in E.
    destruct (pr_queue x) as [|msg q'] eqn:Hqu; [done|].
    destruct (world_step (pr_world x) _) as [w|] eqn:Ew; [|done].
    injection E as <-. eapply (Hins _ q x _ w); [done|done| |done]. by eapply head_index.
  - destruct (sy_procs S !! q) as [x|]; [|done]. cbn [mbind option_bind] in E.
    destruct (taken (pr_world x) !! k) as [[index data]|]; [|done]. cbn [mbind option_bind] in E.
    destruct (cluster_step _ _); [|done]. cbn [mbind option_bind] in E. injection E as <-. by eapply Hsame.
  - destruct (sy_procs S !! q) as [x|] eqn:Hq; [|done]. cbn [mbind option_bind] in E.
    destruct (nodes (sy_cluster S) !! q) as [rf|]; [|done]. cbn [mbind option_bind] in E.
    destruct (Start rf (Some cmd)) as [[[index term] ok] rf']. destruct (cluster_step _ _); [|done].
    cbn [mbind option_bind] in E. destruct (world_step (pr_world x) _) as [w|] eqn:Ew; [|done].
    injection E as <-. by eapply (Hins _ q x _ w).
  - destruct (sy_procs S !! q) as [x|] eqn:Hq; [|done]. cbn [mbind option_bind] in E.
    destruct (world_step (pr_world x) _) as [w|] eqn:Ew; [|done]. injection E as <-. by eapply (Hins _ q x _ w).
  - destruct (sy_procs S !! q) as [x|] eqn:Hq; [|done]. cbn [mbind option_bind] in E.
    destruct (world_step (pr_world x) _) as [w|] eqn:Ew; [|done]. injection E as <-. by eapply (Hins _ q x _ w).
  - destruct (cluster_step _ _) as [c'|]; [|done]. cbn [mbind option_bind] in E.
    destruct (nodes c' !! q) as [rf|]; [|done]. cbn [mbind option_bind] in E. injection E as <-. cbn.
    destruct (decide (q = p)) as [->|Hne]; [by destruct (Hev now)|]. rewrite list_lookup_insert_ne by done.
    exists pr, []. by rewrite app_nil_r.
Qed.

(** The new call of a [Submit] is the next one. *)
Lemma sys_submitted S p cmd S' pr :
  sys_step S (SysSubmit p cmd) = Some S' → sy_procs S !! p = Some pr →
  ∃ pr' wt, sy_procs S' !! p = Some pr' ∧ started (pr_world pr') !! length (started (pr_world pr)) = Some wt ∧
    w_cmd wt = cmd.
Proof using Type.
  intros E Hp. unfold sys_step in E. rewrite Hp in E. cbn [mbind option_bind] in E.
  destruct (nodes (sy_cluster S) !! p) as [rf|]; [|done]. cbn [mbind option_bind] in E.
  destruct (Start rf (Some cmd)) as [[[index term] ok] rf']. destruct (cluster_step _ _) as [c'|]; [|done].
  cbn [mbind option_bind] in E. destruct (world_step (pr_world pr) _) as [w|] eqn:Ew; [|done].
  cbn [mbind option_bind] in E. injection E as <-. simpl in Ew.
  assert (Hlt : (p < length (sy_procs S))%nat) by by eapply lookup_lt_Some.
  destruct (Submit _ _ _ _ _) as [s [e|i]]; injection Ew as <-; eexists _, _;
    (split; [by apply list_lookup_insert_eq|]); cbn; by rewrite lookup_app_r, Nat.sub_diag by lia.
Qed.

(** A call that returned no error: a command with its request id is in the log for
    good, and was submitted. *)
Lemma returned_final P n S h p pr ch :
  sys_ok n S h → sys_valid P S → sy_procs S !! p = Some pr → (ch, None) ∈ returned (pr_world pr) →
  ∃ wt cmd, started (pr_world pr) !! ch = Some wt ∧ c_ReqID cmd = c_ReqID (w_cmd wt) ∧ P cmd ∧
    0 < w_index wt <= pr_index pr ∧ entry_at n h (w_index wt) (Some cmd).
Proof using Type.
  intros Hok Hv Hp Hin. destruct (process_peer _ _ _ _ _ Hok Hp) as [rf Hrf].
  destruct (so_peer _ _ _ Hok _ _ _ Hrf Hp) as [_ [_ _ _ Hhd [_ _ Ha Hret]]].
  destruct (Hret _ _ Hin) as [?|[?|Hs]]; [done|done|].
  destruct (Ha _ _ Hs) as (_ & wt & Hwt & Hc). destruct (Hc eq_refl) as (m & cmd & Hm & Hsv & Hcmd & Hi & Hreq).
  destruct (Hhd m Hm Hsv) as ([Hpos Hle] & Hen). rewrite Hi, Hcmd in *. exists wt, cmd. split_and!; try done.
  eapply (sv_heard _ _ Hv p pr m); [done| |done|done]. apply elem_of_app. by left.
Qed.

End Validity.
