(* ===== verification/SystemOrigin.v ===== *)
(** * Nodes: where the contents of the stores come from

    SystemValidity.v is about the commands a store executes; a store also gets jobs and
    runs inside snapshots, its own or those of other nodes.  Here: every job in a store
    is the one of a submitted upsert, up to the fields that runs update, and every run
    record the one of a submitted record. *)
From Stdlib Require Import ZArith Lia String.
From stdpp Require Import base tactics list strings numbers option gmap.
From S2P Require Import Prelude.
From S2P Require Import GoTime.
From S2P Require Import Gob.
From S2P Require Import Persister.
From S2P Require Import RaftNode.
From S2P Require Import RaftLog.
From S2P Require Import RaftOps.
From S2P Require Import RaftFrame.
From S2P Require Import RaftTheorems.
From S2P Require Import History.
From S2P Require Import Cluster.
From S2P Require Import ClusterVotes.
From S2P Require Import ClusterSafety.
From S2P Require Import ClusterInv.
From S2P Require Import ClusterSteps.
From S2P Require Import ClusterEffects.
From S2P Require Import ClusterLog.
From S2P Require Import ClusterSnapshots.
From S2P Require Import ClusterTotal.
From S2P Require Import ClusterValidity.
From S2P Require Import Store.
From S2P Require Import StoreSpec.
From S2P Require Import StoreTheorems.
From S2P Require Import System.
From S2P Require Import SystemSafety.
From S2P Require Import SystemValidity.

Local Open Scope Z_scope.

(** [j'] is [j] with another last run and status. *)
Definition updated (j j' : Job) : Prop :=
  j' = mkJob (j_ID j) (j_Name j) (j_CronExpr j) (j_Executor j) (j_Payload j) (j_CatchupPolicy j)
         (j_NextRun j) (j_LastRun j') (j_LastStatus j') (j_CreatedAt j).

Lemma updated_refl j : updated j j.
Proof. by destruct j. Qed.

Lemma updated_with_run j j' r : updated j j' → updated j (with_run j' r).
Proof. unfold updated. destruct r; [|done]. intros ->. done. Qed.

Section Origin.
Context {gobZ : Gob Z} {gobLog : Gob (list (LogEntry Cmd))} {gobState : Gob storeState}.
Context (P : Cmd → Prop).
Implicit Types (c : cluster Cmd) (h : history Cmd) (S : system) (st : storeState).

(** ** States, snapshots, messages *)
Record state_from st : Prop := {
  sf_jobs : ∀ id j, Jobs st !! id = Some j →
    ∃ cmd, P cmd ∧ c_Type cmd = CmdUpsert ∧ j_ID (c_Job cmd) = id ∧ updated (c_Job cmd) j;
  sf_runs : ∀ id rs r, Runs st !! id = Some rs → r ∈ rs →
    ∃ cmd, P cmd ∧ c_Type cmd = CmdRecord ∧ r_JobID r = id ∧ c_Run cmd = r
}.

Definition data_from (d : bytes) : Prop := d = [] ∨ ∃ st, d = gob_encode st ∧ state_from st.

Definition snapshot_from (msg : ApplyMsg Cmd) : Prop :=
  am_SnapshotValid msg = true → data_from (am_Snapshot msg).

Record sys_from S : Prop := {
  fr_disk : ∀ p rf, nodes (sy_cluster S) !! p = Some rf → data_from (ReadSnapshot (persister rf));
  fr_pending : ∀ p rf m, nodes (sy_cluster S) !! p = Some rf → pendingSnapshot rf = Some m → snapshot_from m;
  fr_net : ∀ i q args, net (sy_cluster S) !! i = Some (q, CallSnapshot args) → data_from (isa_Data args);
  fr_store : ∀ p pr, sy_procs S !! p = Some pr → state_from (sm (store (pr_world pr)));
  fr_taken : ∀ p pr i d, sy_procs S !! p = Some pr → (i, d) ∈ taken (pr_world pr) → data_from d;
  fr_queue : ∀ p pr m, sy_procs S !! p = Some pr → m ∈ pr_queue pr → snapshot_from m
}.

Lemma capRuns_elem r rs : r ∈ capRuns rs → r ∈ rs.
Proof using Type.
  unfold capRuns. case_match; [|done]. intros Hr. rewrite <- (take_drop (Z.to_nat (zlen rs - maxRunsPerJob)) rs).
  apply elem_of_app. by right.
Qed.

Lemma applyCmd_from s cmd : P cmd → state_from (sm s) → state_from (sm (applyCmd s cmd)).
Proof using Type.
  intros Hc [Hj Hr]. constructor; simpl.
  - intros id j. rewrite applyCmd_jobs. destruct (upserts id cmd) eqn:Eu.
    { apply bool_decide_eq_true in Eu as [Ht Hid]. intros [= <-]. exists cmd.
      split_and!; [done|done|done|apply updated_refl]. }
    destruct (deletes id cmd); [done|]. intros (j0 & Hj0 & ->)%fmap_Some.
    destruct (Hj id j0 Hj0) as (cmd0 & ? & ? & ? & ?). exists cmd0. split_and!; try done.
    by apply updated_with_run.
  - intros id rs r. rewrite applyCmd_runs. destruct (deletes id cmd); [done|].
    destruct (record_of id cmd) as [r0|] eqn:Er; [|by apply Hr]. intros [= <-] Hin%capRuns_elem.
    apply elem_of_app in Hin as [Hin|Hin].
    + destruct (runs s !! id) as [rs|] eqn:Ers; [|by apply not_elem_of_nil in Hin]. by eapply Hr.
    + apply list_elem_of_singleton in Hin as ->. unfold record_of in Er. case_decide as Hd; [|done].
      injection Er as <-. destruct Hd as [Ht Hid]. by exists cmd.
Qed.

Lemma state_from_empty s : jobs s = ∅ → runs s = ∅ → state_from (sm s).
Proof using Type.
  intros Hj Hr. constructor; simpl; [rewrite Hj|rewrite Hr]; intros id ?; by rewrite lookup_empty.
Qed.

Lemma install_from s d : data_from d → state_from (sm s) → state_from (sm (Store.installSnapshot s d)).
Proof using Type.
  intros [->|(st & -> & Hst)] Hs; [done|]. unfold Store.installSnapshot. case_match; [done|].
  rewrite <- (app_nil_r (gob_encode st)), gob_decode_encode. destruct st. exact Hst.
Qed.

Lemma Make_from p : data_from (ReadSnapshot p) → state_from (sm (Store.Make true (Some p))).
Proof using Type.
  intros Hd. unfold Store.Make. case_match; [apply install_from; [done|]|]; by apply state_from_empty.
Qed.

Lemma turn_from s msg s' out snap :
  snapshot_from msg → (am_SnapshotValid msg = false → said P (am_Command msg)) → state_from (sm s) →
  applyLoop_turn s msg = (s', out, snap) →
  state_from (sm s') ∧ ∀ i d, snap = Some (i, d) → data_from d.
Proof using Type.
  intros Hm Hs Hst E. assert (Hs' : state_from (sm s')).
  { assert (E1 : s' = (applyLoop_turn s msg).1.1) by by rewrite E. rewrite E1. unfold applyLoop_turn.
    destruct (am_SnapshotValid msg) eqn:Hv; [by apply (install_from s), Hst; apply Hm|].
    destruct (am_Command msg) as [cmd|] eqn:Ec; [|done]. rewrite apply_sm. apply applyCmd_from; [|done].
    by apply Hs. }
  split; [done|]. intros i d ->. destruct (turn_snapshot _ _ _ _ _ _ E) as (_ & _ & ->). right. by eexists.
Qed.

(** ** The peers *)
Lemma qview_from (rf rf' : Raft Cmd) :
  qview rf' = qview rf →
  ReadSnapshot (persister rf') = ReadSnapshot (persister rf) ∧ pendingSnapshot rf' = pendingSnapshot rf.
Proof using Type. unfold qview. by intros [= ? _ _ ?]. Qed.

Definition peer_from (rf : Raft Cmd) : Prop :=
  data_from (ReadSnapshot (persister rf)) ∧ ∀ m, pendingSnapshot rf = Some m → snapshot_from m.

Lemma peer_from_same (rf rf' : Raft Cmd) : qview rf' = qview rf → peer_from rf → peer_from rf'.
Proof using Type. intros [Hd Hp]%qview_from. unfold peer_from. by rewrite Hd, Hp. Qed.

Lemma install_peer_from (rf : Raft Cmd) args now rf' r :
  InstallSnapshot rf args now = Some (rf', r) → data_from (isa_Data args) → peer_from rf → peer_from rf'.
Proof using Type.
  intros E Hd Hrf.
  destruct (decide (isa_Term args < currentTerm rf ∨ isa_LastIncludedIndex args <= lastIncludedIndex rf))
    as [Ho|Hn]; [by eapply peer_from_same; [eapply kept_qview, InstallSnapshot_kept|]|].
  destruct (InstallSnapshot_install rf args now) as (rf2 & E2 & _ & _ & _ & _ & _ & _ & _ & _ & Hps & Hr & _);
    [lia|lia|]. rewrite E in E2. injection E2 as <- _. split; [by rewrite Hr|].
  rewrite Hps. by intros m [= <-] _.
Qed.

Lemma apply_peer_from (rf : Raft Cmd) pc m rf' pc' :
  applyLoop_step rf pc = Some (m, rf', pc') → apply_ok rf → peer_from rf →
  peer_from rf' ∧ ∀ msg, m = Some msg → snapshot_from msg.
Proof using Type.
  intros E Hok [Hd Hp].
  assert (Hin : applyInner rf (applyFuel rf) = Some (m, rf') →
    peer_from rf' ∧ ∀ msg, m = Some msg → snapshot_from msg).
  { unfold applyFuel. intros Ein. destruct (decide (lastApplied rf < commitIndex rf)) as [Hlt|Hge].
    - destruct (applyInner_next rf (Z.to_nat (commitIndex rf - lastApplied rf)) Hok Hlt) as (msg & Hmsg & E2).
      rewrite Ein in E2. injection E2 as -> ->. split; [by split|]. intros msg' [= <-]. intros Hv.
      unfold entryMsg in Hmsg. destruct (idx _ _); [|done]. injection Hmsg as <-. done.
    - rewrite applyInner_done in Ein by lia. injection Ein as <- <-. by split. }
  unfold applyLoop_step in E. destruct pc, (pendingSnapshot rf) as [msg|] eqn:Eps;
    try (destruct (applyInner rf (applyFuel rf)) as [[m2 rf2]|]; [|done]; cbn [mbind option_bind] in E;
         injection E as -> -> _; by apply Hin).
  injection E as <- <- _. split; [by split|]. intros msg' [= <-]. by apply Hp.
Qed.

(** The messages [m] of peer [p] join its queue; other peers stay. *)
Lemma internal_from n S h ev c' :
  good n (sy_cluster S) h → sys_from S → internal ev = true → cluster_step (sy_cluster S) ev = Some c' →
  (∀ p rf, nodes c' !! p = Some rf → peer_from rf) ∧
  (∀ p m, (p, m) ∈ drop (length (applied (sy_cluster S))) (applied c') → snapshot_from m).
Proof using Type.
  intros Hg HS Hint E.
  assert (Hpeer : ∀ p rf, nodes (sy_cluster S) !! p = Some rf → peer_from rf).
  { intros p rf Hp. split; [by eapply fr_disk|]. intros m. by eapply fr_pending. }
  assert (Hins : ∀ p rf' q rf, peer_from rf' → <[p := rf']> (nodes (sy_cluster S)) !! q = Some rf → peer_from rf).
  { intros p rf' q rf Hrf' [(<- & <- & _)|(_ & Hq)]%list_lookup_insert_Some; [done|by eapply Hpeer]. }
  assert (Hnone : applied c' = applied (sy_cluster S) → ∀ p m,
    (p, m) ∈ drop (length (applied (sy_cluster S))) (applied c') → snapshot_from m).
  { intros ->. rewrite drop_all. by intros p m ?%not_elem_of_nil. }
  destruct (internal_effect _ _ _ Hint E) as
    [Hn _ [Ha _]|p rf rf' Hp Hn Hk _ [Ha _]|peer args Hn _ [Ha _]|p rf peer call _ _ Hn _ [Ha _]
    |p rf pc m rf' pc' k ts Hk Hp Ea Hts ->|i p rf args now rf' r _ Hp Eh Hn _ Ha Ht
    |i p rf args now rf' r -> Hi Hp Eh Hn _ Ha Ht]; try (split; [rewrite Hn|by apply Hnone]);
    try exact Hpeer.
  - intros q x. apply Hins. eapply peer_from_same; [by apply kept_qview|by eapply Hpeer].
  - pose proof (li_core _ _ _ (proj2 Hg) _ _ Hp) as Hc.
    destruct (apply_peer_from rf pc m rf' pc' Ea) as [Hrf' Hm]; [by eapply core_apply_ok|by eapply Hpeer|].
    cbn. rewrite drop_app_length. split; [intros q x; by apply Hins|]. intros q x Hx.
    destruct m as [msg|]; [|by apply not_elem_of_nil in Hx]. apply list_elem_of_singleton in Hx.
    injection Hx as -> ->. by apply Hm.
  - intros q x. apply Hins. eapply peer_from_same; [|by eapply Hpeer]. eapply AppendEntries_qview; [|done].
    apply (li_core _ _ _ (proj2 Hg) _ _ Hp).
  - intros q x. apply Hins. eapply install_peer_from; [done|by eapply fr_net|by eapply Hpeer].
Qed.

Lemma Start_peer_from (rf : Raft Cmd) command : peer_from rf → peer_from (Start rf command).2.
Proof using Type. apply peer_from_same, Start_qview. Qed.

Lemma Snapshot_peer_from (rf : Raft Cmd) index d rf' :
  Snapshot rf index d = Some rf' → data_from d → peer_from rf → peer_from rf'.
Proof using Type.
  unfold Snapshot. intros E Hd [Hrf Hp]. destruct (index <=? lastIncludedIndex rf); [injection E as <-; by split|].
  destruct (logTerm rf index); [|done]. cbn [mbind option_bind] in E.
  destruct (slice_from _ _) as [[|e l]|]; [done| |done]. cbn [mbind option_bind] in E. injection E as <-.
  split; [|exact Hp]. change (data_from (clone (clone d))). by rewrite !clone_id.
Qed.

Lemma Make_peer_from ps p (rf : Raft Cmd) now : peer_from rf → peer_from (RaftNode.Make ps p (persister rf) now).
Proof using Type.
  intros [Hd _]. destruct (Make_volatile ps p (persister rf) now) as (_ & _ & Hps).
  destruct (Make_fixed ps p (persister rf) now) as (_ & _ & Hpe & _). split; [by rewrite Hpe|by rewrite Hps].
Qed.

(** ** The steps *)

(** One peer changes by a call of its service. *)
Lemma sys_from_node S c' p rf' prs' :
  sys_from S → nodes c' = <[p := rf']> (nodes (sy_cluster S)) → peer_from rf' →
  net c' = net (sy_cluster S) →
  (∀ q pr, prs' !! q = Some pr → state_from (sm (store (pr_world pr))) ∧
     (∀ i d, (i, d) ∈ taken (pr_world pr) → data_from d) ∧ ∀ m, m ∈ pr_queue pr → snapshot_from m) →
  sys_from (mkSystem c' prs').
Proof using Type.
  intros HS Hn [Hd Hp] Hnet Hprs.
  assert (Hpeer : ∀ q rf, nodes c' !! q = Some rf → peer_from rf).
  { intros q rf. rewrite Hn. intros [(<- & <- & _)|(_ & Hq)]%list_lookup_insert_Some; [by split|].
    split; [by eapply fr_disk|]. intros m. by eapply fr_pending. }
  constructor; cbn; [..|intros; by eapply Hprs|intros q pr i d Hq; by apply (Hprs q pr Hq)
                    |intros q pr m Hq; by apply (Hprs q pr Hq)].
  - intros q rf Hq. apply (Hpeer q rf Hq).
  - intros q rf m Hq. apply (Hpeer q rf Hq).
  - rewrite Hnet. by apply fr_net.
Qed.

Definition proc_from (pr : process) : Prop :=
  state_from (sm (store (pr_world pr))) ∧ (∀ i d, (i, d) ∈ taken (pr_world pr) → data_from d) ∧
  ∀ m, m ∈ pr_queue pr → snapshot_from m.

Lemma procs_from S p pr : sys_from S → sy_procs S !! p = Some pr → proc_from pr.
Proof using Type.
  intros HS Hp. split_and!; [by eapply fr_store|intros i d; by eapply fr_taken|intros m; by eapply fr_queue].
Qed.

Lemma procs_from_insert S p pr' :
  sys_from S → proc_from pr' → ∀ q pr, <[p := pr']> (sy_procs S) !! q = Some pr → proc_from pr.
Proof using Type.
  intros HS Hp q pr [(<- & <- & _)|(_ & Hq)]%list_lookup_insert_Some; [done|by eapply procs_from].
Qed.

(** The callers of a store change, its contents do not. *)
Lemma proc_from_world pr ev w :
  match ev with WMsg _ => False | _ => True end → world_step (pr_world pr) ev = Some w → proc_from pr →
  proc_from (mkProcess w (pr_queue pr) (pr_index pr)).
Proof using Type.
  intros Hev Ew (Hs & Ht & Hq). destruct (world_same pr ev w Hev Ew) as (_ & _ & Hsm & Htk & _).
  cbn in Hsm, Htk. split_and!; cbn; [by rewrite Hsm|by rewrite Htk|done].
Qed.

Lemma sys_from_proc S p pr' : sys_from S → proc_from pr' → sys_from (mkSystem (sy_cluster S) (<[p := pr']> (sy_procs S))).
Proof using Type.
  intros HS Hp. pose proof (procs_from_insert S p pr' HS Hp) as Hprs. destruct HS. constructor; cbn; try done;
    intros q pr; intros; by eapply (Hprs q pr).
Qed.

Lemma sys_from_cluster n S h ev S' :
  sys_ok n S h → sys_valid P S → sys_from S → sys_step S (SysCluster ev) = Some S' → sys_from S'.
Proof using Type.
  intros Hok Hv HS E. destruct (sys_step_internal _ _ _ E) as (Hint & _ & c' & Ec & ->). destruct (internal_from _ _ _ _ _ (so_good _ _ _ Hok) HS Hint Ec) as [Hpeer Hsent].
  assert (Hprs : ∀ q pr, enqueue (drop (length (applied (sy_cluster S))) (applied c')) (sy_procs S) !! q = Some pr →
    proc_from pr).
  { intros q pr' (pr & Hpr & ->)%enqueue_lookup. destruct (procs_from _ _ _ HS Hpr) as (Hs & Ht & Hq).
    split_and!; [done|done|]. intros m [Hm|Hm%sent_by_elem]%elem_of_app; [by apply Hq|by eapply Hsent]. }
  constructor; cbn; try (intros q x; intros; by eapply (Hprs q x)).
  - intros q rf Hq. apply (Hpeer q rf Hq).
  - intros q rf m Hq. apply (Hpeer q rf Hq).
  - intros i q args Hi. destruct (net_internal _ _ _ _ _ _ Hint Ec Hi) as [?|(p & rf & Hp & ->)];
      [by eapply fr_net|]. by eapply fr_disk.
Qed.

Lemma sys_from_handle n S h p S' :
  sys_ok n S h → sys_valid P S → sys_from S → sys_step S (SysHandle p) = Some S' → sys_from S'.
Proof using Type.
  intros Hok Hv HS E. unfold sys_step in E.
  destruct (sy_procs S !! p) as [pr|] eqn:Hpr; [|done]. cbn [mbind option_bind] in E.
  destruct (pr_queue pr) as [|msg q] eqn:Hq; [done|]. cbn [world_step] in E.
  destruct (applyLoop_turn (store (pr_world pr)) msg) as [[s' out] snap] eqn:Et.
  cbn [mbind option_bind] in E. injection E as <-. destruct (procs_from _ _ _ HS Hpr) as (Hs & Ht & Hqu).
  destruct (turn_from (store (pr_world pr)) msg s' out snap) as [Hs' Hsn]; [apply Hqu; rewrite Hq; by left| |done|done|].
  { intros Hsv. eapply (sv_heard _ _ Hv p pr msg); [done| |done]. apply elem_of_app. right. rewrite Hq. by left. }
  apply sys_from_proc; [done|]. split_and!; cbn; [done| |].
  - intros i d [Hin|Hin]%elem_of_app; [by eapply Ht|]. destruct snap as [[i2 d2]|]; [|by apply not_elem_of_nil in Hin].
    apply list_elem_of_singleton in Hin. injection Hin as -> ->. by eapply Hsn.
  - intros m Hm. apply Hqu. rewrite Hq. by right.
Qed.

Lemma sys_from_snapshot n S h p k S' :
  sys_ok n S h → sys_valid P S → sys_from S → sys_step S (SysSnapshot p k) = Some S' → sys_from S'.
Proof using Type.
  intros Hok Hv HS E. unfold sys_step in E.
  destruct (sy_procs S !! p) as [pr|] eqn:Hpr; [|done]. cbn [mbind option_bind] in E.
  destruct (taken (pr_world pr) !! k) as [[index data]|] eqn:Hk; [|done]. cbn [mbind option_bind] in E.
  destruct (cluster_step (sy_cluster S) (EvSnapshot p index data)) as [c'|] eqn:Ec; [|done].
  cbn [mbind option_bind] in E. injection E as <-. simpl in Ec. unfold callSnapshot in Ec.
  destruct (nodes (sy_cluster S) !! p) as [rf|] eqn:Hp; [|done]. cbn [mbind option_bind] in Ec.
  destruct (Snapshot rf index data) as [rf'|] eqn:Es; [|done]. injection Ec as <-.
  eapply sys_from_node; [done|done| |done|intros q x; by apply procs_from].
  eapply Snapshot_peer_from; [done|by eapply fr_taken, list_elem_of_lookup_2|].
  split; [by eapply fr_disk|intros m; by eapply fr_pending].
Qed.

Lemma sys_from_submit n S h p cmd S' :
  sys_ok n S h → sys_valid P S → sys_from S → sys_step S (SysSubmit p cmd) = Some S' → sys_from S'.
Proof using Type.
  intros Hok Hv HS E. unfold sys_step in E.
  destruct (sy_procs S !! p) as [pr|] eqn:Hpr; [|done]. cbn [mbind option_bind] in E.
  destruct (nodes (sy_cluster S) !! p) as [rf|] eqn:Hp; [|done]. cbn [mbind option_bind] in E.
  pose proof (Start_peer_from rf (Some cmd)) as Hst. cbn [cluster_step] in E. unfold callStart in E.
  rewrite Hp in E. cbn [mbind option_bind] in E. destruct (Start rf (Some cmd)) as [[[index term] ok] rf'].
  destruct (world_step (pr_world pr) _) as [w|] eqn:Ew; [|done]. cbn [mbind option_bind] in E. injection E as <-.
  eapply sys_from_node; [done|done| |done|].
  - apply Hst. split; [by eapply fr_disk|intros m; by eapply fr_pending].
  - apply procs_from_insert; [done|]. eapply proc_from_world; [|done|by eapply procs_from]. done.
Qed.

Lemma sys_from_receive n S h p ch S' :
  sys_ok n S h → sys_valid P S → sys_from S → sys_step S (SysReceive p ch) = Some S' → sys_from S'.
Proof using Type.
  intros Hok Hv HS E. unfold sys_step in E.
  destruct (sy_procs S !! p) as [pr|] eqn:Hpr; [|done]. cbn [mbind option_bind] in E.
  destruct (world_step (pr_world pr) _) as [w|] eqn:Ew; [|done]. cbn [mbind option_bind] in E.
  injection E as <-. apply sys_from_proc; [done|]. eapply proc_from_world; [|done|by eapply procs_from]. done.
Qed.

Lemma sys_from_timeout n S h p ch S' :
  sys_ok n S h → sys_valid P S → sys_from S → sys_step S (SysTimeout p ch) = Some S' → sys_from S'.
Proof using Type.
  intros Hok Hv HS E. unfold sys_step in E.
  destruct (sy_procs S !! p) as [pr|] eqn:Hpr; [|done]. cbn [mbind option_bind] in E.
  destruct (world_step (pr_world pr) _) as [w|] eqn:Ew; [|done]. cbn [mbind option_bind] in E.
  injection E as <-. apply sys_from_proc; [done|]. eapply proc_from_world; [|done|by eapply procs_from]. done.
Qed.

Lemma sys_from_restart n S h p now S' :
  sys_ok n S h → sys_valid P S → sys_from S → sys_step S (SysRestart p now) = Some S' → sys_from S'.
Proof using Type.
  intros Hok Hv HS E. unfold sys_step in E.
  cbn [cluster_step] in E. unfold restart in E.
  destruct (nodes (sy_cluster S) !! p) as [rf|] eqn:Hp; [|done]. cbn [mbind option_bind nodes] in E.
  rewrite list_lookup_insert_eq in E by by eapply lookup_lt_Some. cbn [mbind option_bind] in E. injection E as <-.
  assert (Hrf : peer_from (RaftNode.Make (peers rf) p (persister rf) now)).
  { apply Make_peer_from. split; [by eapply fr_disk|intros m; by eapply fr_pending]. }
  eapply sys_from_node; [done|done|done|done|]. apply procs_from_insert; [done|].
  split_and!; [apply Make_from, Hrf|by intros i d ?%not_elem_of_nil|by intros m ?%not_elem_of_nil].
Qed.

Lemma sys_from_step n S h ev S' :
  sys_ok n S h → sys_valid P S → sys_from S → starts_over ev = false → sys_step S ev = Some S' → sys_from S'.
Proof using Type.
  intros Hok Hv HS Hd. revert Hok Hv HS. destruct ev; [..|done]; clear Hd; [apply sys_from_cluster|apply sys_from_handle|apply sys_from_snapshot|apply sys_from_submit|
    apply sys_from_receive|apply sys_from_timeout|apply sys_from_restart].
Qed.

Lemma sys_from_init ps now : sys_from (sys_init ps now).
Proof using Type.
  assert (Hn : ∀ p rf, nodes (sy_cluster (sys_init ps now)) !! p = Some rf →
    ReadSnapshot (persister rf) = [] ∧ pendingSnapshot rf = None).
  { intros p rf (q & -> & _)%list_lookup_fmap_Some.
    destruct (Make_volatile ps q MakePersister now) as (_ & _ & Hps).
    destruct (Make_fixed ps q MakePersister now) as (_ & _ & Hpe & _). split; [by rewrite Hpe|done]. }
  constructor.
  - intros p rf [-> _]%Hn. by left.
  - intros p rf m [_ ->]%Hn. done.
  - done.
  - intros p pr (rf & -> & Hp)%list_lookup_fmap_Some. apply Make_from. apply Hn in Hp as [-> _]. by left.
  - intros p pr i d (rf & -> & _)%list_lookup_fmap_Some. by intros ?%not_elem_of_nil.
  - intros p pr m (rf & -> & _)%list_lookup_fmap_Some. by intros ?%not_elem_of_nil.
Qed.

End Origin.

(** ** More commands *)
Section Mono.
Context {gobZ : Gob Z} {gobLog : Gob (list (LogEntry Cmd))} {gobState : Gob storeState}.
Context (P P' : Cmd → Prop) (HP : ∀ x, P x → P' x).

Lemma state_from_mono st : state_from P st → state_from P' st.
Proof using HP.
  intros [Hj Hr]. constructor.
  - intros id j (cmd & ? & ?)%Hj. exists cmd. split; [by apply HP|done].
  - intros id rs r Hrs Hin. destruct (Hr id rs r Hrs Hin) as (cmd & ? & ?). exists cmd. split; [by apply HP|done].
Qed.

Lemma data_from_mono d : data_from P d → data_from P' d.
Proof using HP. intros [?|(st & -> & ?)]; [by left|right]. exists st. split; [done|by apply state_from_mono]. Qed.

Lemma sys_from_mono S : sys_from P S → sys_from P' S.
Proof using HP.
  intros [H1 H2 H3 H4 H5 H6]. constructor.
  - intros. by eapply data_from_mono, H1.
  - intros p rf m Hp Hm Hv. by eapply data_from_mono, (H2 p rf m).
  - intros. by eapply data_from_mono, H3.
  - intros. by eapply state_from_mono, H4.
  - intros. by eapply data_from_mono, H5.
  - intros p pr m Hp Hm Hv. by eapply data_from_mono, (H6 p pr m).
Qed.

End Mono.

(** ** The commands and the contents *)
Section Explained.
Context {gobZ : Gob Z} {gobLog : Gob (list (LogEntry Cmd))} {gobState : Gob storeState}.

(** All that is in the system comes from commands of [P]. *)
Definition explained (P : Cmd → Prop) (S : system) : Prop := sys_valid P S ∧ sys_from P S.

Lemma explained_mono P P' S : (∀ x, P x → P' x) → explained P S → explained P' S.
Proof using Type. intros H [? ?]. split; [by apply (sys_valid_mono P)|by apply (sys_from_mono P)]. Qed.

Lemma explained_step P n S h ev S' h' :
  sys_ok n S h → sys_ok n S' h' → explained P S → (∀ p cmd, ev = SysSubmit p cmd → P cmd) →
  starts_over ev = false → sys_step S ev = Some S' → explained P S'.
Proof using Type.
  intros Hok Hok' [Hv Hf] Hev Hd E.
  split; [exact (sys_valid_step P n S h ev S' h' Hok Hok' Hv Hev Hd E)|exact (sys_from_step P n S h ev S' Hok Hv Hf Hd E)].
Qed.

Lemma explained_init P ps now : explained P (sys_init ps now).
Proof using Type. split; [apply sys_valid_init|apply sys_from_init]. Qed.

End Explained.
