(* ===== verification/SystemProgress.v ===== *)
(** * Progress of a system: messages reach the stores

    What the peers can do, a system can do: a run of the cluster's goroutines is a run of
    the system, if the stores handle the messages on their way to them after every step
    ([leads_lift]), and a [Submit] whose entry the leader commits is answered, whoever else
    waits ([answer_lift]).  The counterpart of ClusterProgress.v and ClusterCommit.v for
    System.v. *)
From Stdlib Require Import ZArith Lia.
From stdpp Require Import base tactics list strings numbers option gmap.
From S2P Require Import Prelude.
From S2P Require Import Gob.
From S2P Require Import Persister.
From S2P Require Import RaftNode.
From S2P Require Import History.
From S2P Require Import Cluster.
From S2P Require Import ClusterVotes.
From S2P Require Import ClusterSafety.
From S2P Require Import ClusterInv.
From S2P Require Import ClusterSteps.
From S2P Require Import ClusterEffects.
From S2P Require Import ClusterLog.
From S2P Require Import ClusterLoops.
From S2P Require Import ClusterProgress.
From S2P Require Import ClusterHanded.
From S2P Require Import ClusterCommit.
From S2P Require Import Store.
From S2P Require Import StoreSpec.
From S2P Require Import StoreTheorems.
From S2P Require Import System.
From S2P Require Import SystemSafety.
From S2P Require Import SystemValidity.

Local Open Scope Z_scope.

Section Progress.
Context {gobZ : Gob Z} {gobLog : Gob (list (LogEntry Cmd))} {gobState : Gob storeState}.
Context (n : nat).
Implicit Types (c : cluster Cmd) (S : system) (w : world).

(** ** Runs *)

(** The peers and the stores take [S] to [S'], their callers receive answers, nothing fails. *)
Definition quiet (ev : sys_event) : bool :=
  match ev with SysCluster ev => driven ev | SysHandle _ | SysReceive _ _ => true | _ => false end.

Definition flows S S' : Prop := ∃ evs, sys_exec S evs = Some S' ∧ forallb quiet evs = true.

Lemma flows_refl S : flows S S.
Proof using Type. by exists []. Qed.

Lemma flows_trans S1 S2 S3 : flows S1 S2 → flows S2 S3 → flows S1 S3.
Proof using Type.
  intros (e1 & H1 & N1) (e2 & H2 & N2). exists (e1 ++ e2). split; [by rewrite sys_exec_app, H1|].
  by rewrite forallb_app, N1, N2.
Qed.

Lemma flows_step S ev S' : quiet ev = true → sys_step S ev = Some S' → flows S S'.
Proof using Type.
  intros Hq E. exists [ev]. split; [|by cbn [forallb]; rewrite Hq]. cbn [sys_exec]. by rewrite E.
Qed.

(** ** The cluster of a system makes the runs of ClusterLog.v *)
Lemma sys_step_service S h ev S' :
  sys_ok n S h → starts_over ev = false → sys_step S ev = Some S' →
  ∃ evs, service_run (sy_cluster S) evs = Some (sy_cluster S').
Proof using Type.
  intros Hok Hd E.
  assert (Hone : ∀ e c', service_ok (sy_cluster S) e → cluster_step (sy_cluster S) e = Some c' →
    ∃ evs, service_run (sy_cluster S) evs = Some c').
  { intros e c' Hs Ec. exists [e]. by apply service_run_one. }
  destruct ev as [e|p|p k|p cmd|p x|p x|p now|]; [|unfold sys_step in E..|done].
  - destruct (sys_step_internal _ _ _ E) as (Hi & _ & c' & Ec & ->). apply (Hone e); [by apply internal_service|done].
  - destruct (sy_procs S !! p) as [pr|]; [|done]. cbn [mbind option_bind] in E.
    destruct (pr_queue pr); [done|]. destruct (world_step _ _); [|done]. injection E as <-. by exists [].
  - destruct (sy_procs S !! p) as [pr|] eqn:Hpr; [|done]. cbn [mbind option_bind] in E.
    destruct (taken (pr_world pr) !! k) as [[i d]|] eqn:Hk; [|done]. cbn [mbind option_bind] in E.
    destruct (cluster_step _ _) as [c'|] eqn:Ec; [|done]. injection E as <-.
    apply (Hone (EvSnapshot p i d)); [|done]. simpl.
    destruct (nodes (sy_cluster S) !! p) as [rf|] eqn:Hp; [|done].
    destruct (so_peer _ _ _ Hok _ _ _ Hp Hpr) as [_ Hpk].
    by destruct (pk_taken _ _ _ _ Hpk _ _ (list_elem_of_lookup_2 _ _ _ Hk)).
  - destruct (sy_procs S !! p) as [pr|]; [|done]. cbn [mbind option_bind] in E.
    destruct (nodes (sy_cluster S) !! p) as [rf|]; [|done]. cbn [mbind option_bind] in E.
    destruct (Start rf (Some cmd)) as [[[i t] ok] rf'].
    destruct (cluster_step _ _) as [c'|] eqn:Ec; [|done]. cbn [mbind option_bind] in E.
    destruct (world_step _ _); [|done]. injection E as <-. by apply (Hone (EvStart p (Some cmd))).
  - destruct (sy_procs S !! p) as [pr|]; [|done]. cbn [mbind option_bind] in E.
    destruct (world_step _ _); [|done]. injection E as <-. by exists [].
  - destruct (sy_procs S !! p) as [pr|]; [|done]. cbn [mbind option_bind] in E.
    destruct (world_step _ _); [|done]. injection E as <-. by exists [].
  - destruct (cluster_step _ _) as [c'|] eqn:Ec; [|done]. cbn [mbind option_bind] in E.
    destruct (nodes c' !! p); [|done]. injection E as <-. by apply (Hone (EvRestart p now)).
Qed.

(** ** Runs of the goroutines of the peers *)
Lemma sent_by_app p (ms ms' : list (nat * ApplyMsg Cmd)) : sent_by p (ms ++ ms') = sent_by p ms ++ sent_by p ms'.
Proof using Type. apply omap_app. Qed.

Lemma enqueue_nil prs : enqueue [] prs = prs.
Proof using Type.
  apply list_eq. intros p. unfold enqueue. rewrite list_lookup_imap. destruct (prs !! p) as [[w q i]|]; [|done].
  simpl. by rewrite app_nil_r.
Qed.

Lemma enqueue_app ms ms' prs : enqueue ms' (enqueue ms prs) = enqueue (ms ++ ms') prs.
Proof using Type.
  apply list_eq. intros p. unfold enqueue. rewrite !list_lookup_imap. destruct (prs !! p) as [[w q i]|]; [|done].
  simpl. by rewrite sent_by_app, app_assoc.
Qed.

Lemma enqueue_at ms prs p w q i :
  prs !! p = Some (mkProcess w q i) → enqueue ms prs !! p = Some (mkProcess w (q ++ sent_by p ms) i).
Proof using Type. intros Hp. unfold enqueue. by rewrite list_lookup_imap, Hp. Qed.

(** ** The store of [p] handles what is on its way *)
Definition with_proc S (p : nat) (pr : process) : system := mkSystem (sy_cluster S) (<[p := pr]> (sy_procs S)).

Lemma with_proc_twice S p pr pr' : with_proc (with_proc S p pr) p pr' = with_proc S p pr'.
Proof using Type. unfold with_proc. cbn. by rewrite list_insert_insert_eq. Qed.

Lemma with_proc_lookup S p pr pr' : sy_procs S !! p = Some pr → sy_procs (with_proc S p pr') !! p = Some pr'.
Proof using Type. intros H. apply list_lookup_insert_eq. by eapply lookup_lt_Some. Qed.

Lemma handle_one S p w m q i :
  sy_procs S !! p = Some (mkProcess w (m :: q) i) →
  ∃ w', world_step w (WMsg m) = Some w' ∧ flows S (with_proc S p (mkProcess w' q (msg_index m))).
Proof using Type.
  intros Hp. destruct (world_step w (WMsg m)) as [w'|] eqn:E.
  - exists w'. split; [done|]. apply (flows_step _ (SysHandle p)); [done|].
    cbn [sys_step]. rewrite Hp. cbn [mbind option_bind pr_queue pr_world]. by rewrite E.
  - simpl in E. by destruct (applyLoop_turn (store w) m) as [[? ?] ?].
Qed.

Lemma handle_all S p w q0 q i :
  sy_procs S !! p = Some (mkProcess w (q0 ++ q) i) →
  ∃ w' i', world_run w (WMsg <$> q0) = Some w' ∧ flows S (with_proc S p (mkProcess w' q i')).
Proof using Type.
  revert S w i. induction q0 as [|m q0 IH]; intros S w i Hp; cbn [app] in Hp.
  { exists w, i. split; [done|]. unfold with_proc. rewrite list_insert_id by done. destruct S. apply flows_refl. }
  destruct (handle_one _ _ _ _ _ _ Hp) as (w1 & E1 & H1).
  destruct (IH _ w1 (msg_index m) (with_proc_lookup _ _ _ _ Hp)) as (w2 & i2 & E2 & H2).
  rewrite with_proc_twice in H2. exists w2, i2. split; [|by eapply flows_trans].
  cbn [fmap list_fmap world_run]. by rewrite E1.
Qed.

(** Nothing is on its way to a store. *)
Definition drained S : Prop := ∀ p pr, sy_procs S !! p = Some pr → pr_queue pr = [].

(** Every store handles the messages on their way to it. *)
Definition handles S S' : Prop :=
  sy_cluster S' = sy_cluster S ∧ length (sy_procs S') = length (sy_procs S) ∧
  ∀ p pr, sy_procs S !! p = Some pr → ∃ w i, sy_procs S' !! p = Some (mkProcess w [] i) ∧
    world_run (pr_world pr) (WMsg <$> pr_queue pr) = Some w.

Lemma handles_drained S S' : handles S S' → drained S'.
Proof using Type.
  intros (_ & Hl & H) p pr' Hp. destruct (lookup_lt_is_Some_2 (sy_procs S) p) as [pr Hpr].
  { rewrite <- Hl. by eapply lookup_lt_Some. }
  destruct (H p pr Hpr) as (w & i & Hp' & _). rewrite Hp in Hp'. by injection Hp' as ->.
Qed.

Lemma drain_first S (k : nat) :
  ∃ S', flows S S' ∧ sy_cluster S' = sy_cluster S ∧ length (sy_procs S') = length (sy_procs S) ∧
    (∀ p pr, (k <= p)%nat → sy_procs S !! p = Some pr → sy_procs S' !! p = Some pr) ∧
    ∀ p pr, (p < k)%nat → sy_procs S !! p = Some pr → ∃ w i, sy_procs S' !! p = Some (mkProcess w [] i) ∧
      world_run (pr_world pr) (WMsg <$> pr_queue pr) = Some w.
Proof using Type.
  induction k as [|k (S1 & Hf & Hc & Hl & Hge & Hlt)].
  { exists S. split_and!; [apply flows_refl|done|done|done|lia]. }
  destruct (sy_procs S !! k) as [[w q i]|] eqn:Hk.
  - pose proof (Hge k _ ltac:(lia) Hk) as Hk1. rewrite <- (app_nil_r q) in Hk1.
    destruct (handle_all S1 k w q [] i Hk1) as (w2 & i2 & Hr & Hf2).
    exists (with_proc S1 k (mkProcess w2 [] i2)). split_and!; [by eapply flows_trans|done|by cbn; rewrite length_insert| |].
    + intros p pr Hp Hpr. cbn. rewrite list_lookup_insert_ne by lia. apply Hge; [lia|done].
    + intros p pr Hp Hpr. destruct (decide (p = k)) as [->|Hne].
      * rewrite Hk in Hpr. injection Hpr as <-. exists w2, i2. split; [by eapply with_proc_lookup|done].
      * cbn. rewrite list_lookup_insert_ne by done. apply Hlt; [lia|done].
  - exists S1. split_and!; [done|done|done| |].
    + intros p pr Hp Hpr. apply Hge; [lia|done].
    + intros p pr Hp Hpr. assert (p ≠ k) by congruence. apply Hlt; [lia|done].
Qed.

Lemma drain S : ∃ S', flows S S' ∧ handles S S'.
Proof using Type.
  destruct (drain_first S (length (sy_procs S))) as (S' & Hf & Hc & Hl & _ & H). exists S'. split; [done|].
  split_and!; [done|done|]. intros p pr Hp. apply H; [by eapply lookup_lt_Some|done].
Qed.

(** ** Runs of the goroutines of the peers *)

(** The stores of [S] handle what the peers sent them in [ms]. *)
Definition delivers S S' (ms : list (nat * ApplyMsg Cmd)) : Prop :=
  length (sy_procs S') = length (sy_procs S) ∧
  ∀ p pr, sy_procs S !! p = Some pr → ∃ w i, sy_procs S' !! p = Some (mkProcess w [] i) ∧
    world_run (pr_world pr) (WMsg <$> sent_by p ms) = Some w.

Lemma world_run_app w evs evs' w1 w2 :
  world_run w evs = Some w1 → world_run w1 evs' = Some w2 → world_run w (evs ++ evs') = Some w2.
Proof using Type.
  revert w. induction evs as [|ev evs IH]; intros w; simpl; [by intros [= ->]|].
  destruct (world_step w ev) as [w'|]; [|done]. cbn [mbind option_bind]. apply IH.
Qed.

Lemma drained_free S ev : drained S → length (sy_procs S) = length (nodes (sy_cluster S)) →
  is_Some (cluster_step (sy_cluster S) ev) → applyCh_free S ev = true.
Proof using Type.
  intros Hd Hl [c' E]. unfold applyCh_free. destruct ev as [|k| | | | | | |]; try done.
  simpl in E. unfold runThread in E. destruct (threads (sy_cluster S) !! k) as [[|p pc| | | | | | |]|]; try done.
  destruct (nodes (sy_cluster S) !! p) as [rf|] eqn:Hp; [|done].
  destruct (lookup_lt_is_Some_2 (sy_procs S) p) as [pr Hpr]; [rewrite Hl; by eapply lookup_lt_Some|].
  by rewrite Hpr, (Hd p pr Hpr).
Qed.

Lemma driven_nodes c ev c' : driven ev = true → cluster_step c ev = Some c' → length (nodes c') = length (nodes c).
Proof using Type.
  intros Hd E. destruct (internal_effect _ _ _ (driven_internal _ Hd) E) as
    [Hn _ _|? ? ? _ Hn _ _ _|? ? Hn _ _|? ? ? ? _ _ Hn _ _
    |? ? ? ? ? ? ? ? _ _ _ _ ->|? ? ? ? ? ? ? _ _ _ Hn _ _ _|? ? ? ? ? ? ? _ _ _ _ Hn _ _ _];
    rewrite ?Hn; cbn; by rewrite ?length_insert.
Qed.

Lemma leads_lift S c' :
  leads_to (sy_cluster S) c' → drained S → length (sy_procs S) = length (nodes (sy_cluster S)) →
  ∃ ms S', applied c' = applied (sy_cluster S) ++ ms ∧ flows S S' ∧ sy_cluster S' = c' ∧ drained S' ∧ delivers S S' ms.
Proof using Type.
  intros (evs & Hr & Hi). revert S Hr Hi. induction evs as [|ev evs IH]; intros S.
  - intros [= <-] _ Hd _. exists [], S. rewrite app_nil_r. split_and!; [done|apply flows_refl|done|done|split; [done|]].
    intros p [w q i] Hp. pose proof (Hd p _ Hp) as Hq. cbn in Hq. subst q. by exists w, i.
  - cbn [service_run forallb]. unfold service_step. case_decide; [|done].
    destruct (cluster_step (sy_cluster S) ev) as [c1|] eqn:E; [|done]. cbn [mbind option_bind].
    intros Hr [Hi His]%andb_prop Hd Hl. destruct (step_applied _ _ _ E) as [m1 H1].
    set (S1 := mkSystem c1 (enqueue m1 (sy_procs S))).
    assert (E1 : sys_step S (SysCluster ev) = Some S1).
    { cbn [sys_step]. rewrite (driven_internal _ Hi), (drained_free S ev Hd Hl) by by eexists. cbn [andb].
      rewrite E. cbn [mbind option_bind]. by rewrite H1, drop_app_length. }
    destruct (drain S1) as (S2 & Hf2 & Hh2). pose proof Hh2 as (Hc2 & Hl2 & H2).
    assert (Hl1 : length (sy_procs S1) = length (sy_procs S)) by apply length_imap.
    cbn [S1 sy_cluster] in Hc2. rewrite <- Hc2 in Hr.
    destruct (IH S2 Hr His) as (ms & S3 & Ha & Hf & Hc3 & Hd3 & Hl3 & H3).
    { by eapply handles_drained. }
    { rewrite Hl2, Hl1, Hc2, Hl. symmetry. by eapply driven_nodes. }
    exists (m1 ++ ms), S3. split_and!; [by rewrite Ha, Hc2, H1, app_assoc| |done|done|split; [by rewrite Hl3, Hl2|]].
    + eapply flows_trans; [by apply (flows_step _ (SysCluster ev))|]. by eapply flows_trans.
    + intros p [w q i] Hp. pose proof (Hd p _ Hp) as Hq. cbn in Hq. subst q.
      pose proof (enqueue_at m1 _ _ _ _ _ Hp) as Hp1. destruct (H2 p _ Hp1) as (w2 & i2 & Hp2 & Hw2).
      destruct (H3 p _ Hp2) as (w3 & i3 & Hp3 & Hw3). exists w3, i3. split; [done|].
      rewrite sent_by_app, fmap_app. by eapply world_run_app.
Qed.

(** ** The callers of a store *)
Definition channels {A} (k : nat) (l : list (nat * A)) : Prop := ∀ x, x ∈ l → (x.1 < k)%nat.

(** A store that takes calls, and the channels of the calls it has had. *)
Record open w : Prop := {
  op_rf : rf (store w) = true;
  op_waiting : ∀ k, is_Some (waiting w !! k) → (k < length (started w))%nat;
  op_returned : channels (length (started w)) (returned w)
}.

(** With the invariant of its channels. *)
Definition able w : Prop := world_ok w ∧ open w.

Lemma channels_mono {A} k k' (l : list (nat * A)) : (k <= k')%nat → channels k l → channels k' l.
Proof using Type. intros Hk H x Hx. specialize (H x Hx). lia. Qed.

Lemma channels_snoc {A} k (l : list (nat * A)) a : channels k l → channels (S k) (l ++ [(k, a)]).
Proof using Type.
  intros H x [Hx| ->%list_elem_of_singleton]%elem_of_app; [|cbn; lia]. specialize (H x Hx). lia.
Qed.

(** The answer on a new channel. *)
Lemma channels_find {A} k (l : list (nat * A)) a :
  channels k l → list_find (λ x, x.1 = k) (l ++ [(k, a)]) = Some (length l, (k, a)).
Proof using Type.
  intros H. rewrite list_find_app_r.
  - cbn [list_find fst]. rewrite decide_True by done. done.
  - apply list_find_None, Forall_forall. intros x Hx. specialize (H x Hx). cbn. lia.
Qed.

Lemma installSnapshot_rf s data : rf (installSnapshot s data) = rf s.
Proof using Type. unfold installSnapshot. destruct (_ =? _); [done|]. by destruct (gob_decode data) as [[]|]. Qed.

Lemma applyCmd_rf s cmd : rf (applyCmd s cmd) = rf s.
Proof using Type. unfold applyCmd. destruct (c_Type cmd); [done|done|]. by destruct (jobs s !! _). Qed.

Lemma turn_rf s m s' out snap : applyLoop_turn s m = (s', out, snap) → rf s' = rf s.
Proof using Type.
  unfold applyLoop_turn. destruct (am_SnapshotValid m).
  - intros [= <- _ _]. cbn. by rewrite installSnapshot_rf.
  - destruct (am_Command m) as [cmd|]; [|by intros [= <- _ _]]. unfold apply.
    destruct (pending (applyCmd s cmd) !! _); case_match; intros [= <- _ _]; cbn; by rewrite applyCmd_rf.
Qed.

Lemma open_step w ev w' : open w → world_step w ev = Some w' → open w'.
Proof using Type.
  intros [Hr Hw Hret] E. destruct ev as [cmd i isl|m|k|k]; simpl in E.
  - unfold Submit in E. rewrite Hr in E. cbn [negb] in E. destruct isl; cbn [negb] in E; injection E as <-;
      constructor; cbn; try done; rewrite length_app; cbn.
    + intros x. rewrite lookup_insert_is_Some. intros [<-|[_ Hx]]; [lia|]. specialize (Hw x Hx). lia.
    + eapply channels_mono; [|done]. lia.
    + intros x Hx. specialize (Hw x Hx). lia.
    + rewrite Nat.add_1_r. by apply channels_snoc.
  - destruct (applyLoop_turn (store w) m) as [[s out] snap] eqn:Et. injection E as <-.
    apply turn_rf in Et. constructor; cbn; [by rewrite Et|done|done].
  - destruct (waiting w !! k) as [wt|] eqn:Hk; [|done]. cbn [mbind option_bind] in E.
    destruct (list_find _ _) as [[j [c a]]|]; [|done]. injection E as <-. constructor; cbn; [done| |].
    + intros x [y Hx]. apply Hw. apply lookup_delete_Some in Hx as [_ Hx]. by exists y.
    + intros x [Hx| ->%list_elem_of_singleton]%elem_of_app; [by apply Hret|]. apply Hw. by eexists.
  - destruct (waiting w !! k) as [wt|] eqn:Hk; [|done]. injection E as <-. constructor; cbn; [done| |].
    + intros x [y Hx]. apply Hw. apply lookup_delete_Some in Hx as [_ Hx]. by exists y.
    + intros x [Hx| ->%list_elem_of_singleton]%elem_of_app; [by apply Hret|]. apply Hw. by eexists.
Qed.

Lemma able_step w ev w' : able w → world_step w ev = Some w' → able w'.
Proof using Type. intros [? ?] E. split; [by eapply world_ok_step|by eapply open_step]. Qed.

Lemma able_run w evs w' : able w → world_run w evs = Some w' → able w'.
Proof using Type.
  revert w. induction evs as [|ev evs IH]; intros w Hw; simpl; [by intros [= <-]|].
  destruct (world_step w ev) as [w1|] eqn:E; [|done]. cbn [mbind option_bind]. apply IH. by eapply able_step.
Qed.

Lemma open_new (rf0 : Raft Cmd) : open (pr_world (new_process rf0)).
Proof using Type.
  constructor; [|by intros k [? ?]|by intros x ?%not_elem_of_nil]. cbn [new_process pr_world world_init store].
  unfold Store.Make. case_match; [|done]. by rewrite installSnapshot_rf.
Qed.

(** In every state of a system. *)
Definition sys_open S : Prop := ∀ p pr, sy_procs S !! p = Some pr → open (pr_world pr).

Lemma sys_open_proc S c p pr : sys_open S → open (pr_world pr) → sys_open (mkSystem c (<[p := pr]> (sy_procs S))).
Proof using Type. intros HS Hp q x [(<- & <- & _)|(_ & Hq)]%list_lookup_insert_Some; [done|by eapply HS]. Qed.

Lemma sys_open_step S ev S' : sys_open S → sys_step S ev = Some S' → sys_open S'.
Proof using Type.
  intros HS E.
  assert (Hw : ∀ p pr ev w, sy_procs S !! p = Some pr → world_step (pr_world pr) ev = Some w → open w).
  { intros p pr ev0 w Hp Ew. eapply open_step; [by eapply HS|done]. }
  destruct ev as [e|p|p k|p cmd|p x|p x|p now|p now];
    [destruct (sys_step_internal _ _ _ E) as (_ & _ & c' & _ & ->); intros q pr' (pr & Hq & ->)%enqueue_lookup;
     exact (HS q pr Hq)|unfold sys_step in E..].
  - destruct (sy_procs S !! p) as [pr|] eqn:Hp; [|done]. cbn [mbind option_bind] in E.
    destruct (pr_queue pr) as [|m q]; [done|]. destruct (world_step _ _) as [w|] eqn:Ew; [|done].
    injection E as <-. apply sys_open_proc; [done|by eapply Hw].
  - destruct (sy_procs S !! p) as [pr|] eqn:Hp; [|done]. cbn [mbind option_bind] in E.
    destruct (taken _ !! k) as [[i d]|]; [|done]. cbn [mbind option_bind] in E.
    destruct (cluster_step _ _); [|done]. by injection E as <-.
  - destruct (sy_procs S !! p) as [pr|] eqn:Hp; [|done]. cbn [mbind option_bind] in E.
    destruct (nodes (sy_cluster S) !! p) as [rf|]; [|done]. cbn [mbind option_bind] in E.
    destruct (Start rf (Some cmd)) as [[[i t] ok] rf']. destruct (cluster_step _ _); [|done].
    cbn [mbind option_bind] in E. destruct (world_step _ _) as [w|] eqn:Ew; [|done].
    injection E as <-. apply sys_open_proc; [done|by eapply Hw].
  - destruct (sy_procs S !! p) as [pr|] eqn:Hp; [|done]. cbn [mbind option_bind] in E.
    destruct (world_step _ _) as [w|] eqn:Ew; [|done]. injection E as <-. apply sys_open_proc; [done|by eapply Hw].
  - destruct (sy_procs S !! p) as [pr|] eqn:Hp; [|done]. cbn [mbind option_bind] in E.
    destruct (world_step _ _) as [w|] eqn:Ew; [|done]. injection E as <-. apply sys_open_proc; [done|by eapply Hw].
  - destruct (cluster_step _ _) as [c'|]; [|done]. cbn [mbind option_bind] in E.
    destruct (nodes c' !! p); [|done]. injection E as <-. apply sys_open_proc; [done|apply open_new].
  - destruct (start_over _ _ _) as [c'|]; [|done]. cbn [mbind option_bind] in E.
    destruct (nodes c' !! p); [|done]. injection E as <-. apply sys_open_proc; [done|apply open_new].
Qed.

Lemma sys_open_init ps now : sys_open (sys_init ps now).
Proof using Type. intros p pr (rf & -> & _)%list_lookup_fmap_Some. apply open_new. Qed.

(** ** A call, on channel [k], that waits for the entry at [L] *)
Record expects w (cmd : Cmd) (L : Z) (k : nat) : Prop := {
  ex_able : able w;
  ex_pending : pending (store w) !! L = Some (mkPending k (c_ReqID cmd));
  ex_waiting : waiting w !! k = Some (mkWaiter cmd L);
  ex_returned : channels k (returned w)
}.

Lemma expects_submit w cmd L :
  able w → ∃ w', world_step w (WSubmit cmd L true) = Some w' ∧ expects w' cmd L (length (started w)).
Proof using Type.
  intros Hw. assert (∃ w', world_step w (WSubmit cmd L true) = Some w' ∧
    pending (store w') !! L = Some (mkPending (length (started w)) (c_ReqID cmd)) ∧
    waiting w' !! length (started w) = Some (mkWaiter cmd L) ∧ returned w' = returned w) as (w' & E & H1 & H2 & H3).
  { cbn [world_step]. unfold Submit. rewrite (op_rf _ (proj2 Hw)). cbn [negb]. eexists. split; [done|]. cbn.
    split_and!; [apply lookup_insert_eq..|done]. }
  exists w'. split; [done|]. constructor; [by eapply able_step|done|done|]. rewrite H3. apply Hw.
Qed.

(** An entry before [L]. *)
Lemma expects_handle w cmd L k m w' :
  expects w cmd L k → am_SnapshotValid m = false → am_CommandIndex m < L →
  world_step w (WMsg m) = Some w' → expects w' cmd L k.
Proof using Type.
  intros [Ha Hp Hw Hret] Hv Hi E. pose proof (able_step _ _ _ Ha E) as Ha'. simpl in E.
  unfold applyLoop_turn in E. rewrite Hv in E. destruct (am_Command m) as [cmd'|].
  - pose proof (apply_sent (store w) cmd' (am_CommandIndex m)) as Hs.
    destruct (apply (store w) cmd' (am_CommandIndex m)) as [[s' out] snap]. injection E as <-.
    constructor; [done| |done|done]. cbn. destruct (pending (store w) !! am_CommandIndex m).
    + destruct Hs as [-> _]. by rewrite lookup_delete_ne by lia.
    + by destruct Hs as [-> _].
  - injection E as <-. by constructor.
Qed.

Lemma expects_run w cmd L k q w' :
  expects w cmd L k → (∀ m, m ∈ q → am_SnapshotValid m = false ∧ am_CommandIndex m < L) →
  world_run w (WMsg <$> q) = Some w' → expects w' cmd L k.
Proof using Type.
  revert w. induction q as [|m q IH]; intros w Hw Hq; cbn [fmap list_fmap world_run]; [by intros [= <-]|].
  destruct (world_step w (WMsg m)) as [w1|] eqn:E; [|done]. cbn [mbind option_bind].
  destruct (Hq m ltac:(by left)) as [Hv Hi]. apply IH; [by eapply expects_handle|]. intros m' Hm'. apply Hq. by right.
Qed.

(** The caller on channel [k] was told that [cmd] is done. *)
Record told (w : world) (cmd : Cmd) (k : nat) : Prop := {
  td_able : able w;
  td_returned : ∃ i, list_find (λ x, x.1 = k) (returned w) = Some (i, (k, None));
  td_jobs : ∃ s, jobs (store w) = jobs (applyCmd s cmd)
}.

(** The entry at [L] is the command of the call: it is told so. *)
Lemma expects_answer w cmd L k w' :
  expects w cmd L k → world_step w (WMsg (hand_over cmd L)) = Some w' →
  ∃ w2, world_step w' (WReceive k) = Some w2 ∧ told w2 cmd k.
Proof using Type.
  intros [Ha Hp Hw Hret] E. pose proof (able_step _ _ _ Ha E) as Ha'.
  assert (Hf : k ∉ (sent w).*1) by apply (wo_pending _ (proj1 Ha) _ _ Hp).
  cbn [world_step] in E. unfold applyLoop_turn in E. cbn [am_SnapshotValid am_Command am_CommandIndex hand_over] in E.
  pose proof (apply_sent (store w) cmd L) as Hs.
  assert (Hj : jobs (apply (store w) cmd L).1.1 = jobs (applyCmd (store w) cmd)).
  { unfold apply. destruct (pending (applyCmd (store w) cmd) !! L); cbn; by destruct (_ && _). }
  destruct (apply (store w) cmd L) as [[s' out] snap]. rewrite Hp in Hs. destruct Hs as [_ ->]. injection E as <-.
  assert (Hfind : list_find (λ x, x.1 = k) (sent w ++ [(k, answer cmd (c_ReqID cmd))]) =
    Some (length (sent w), (k, answer cmd (c_ReqID cmd)))).
  { rewrite list_find_app_r; [cbn [list_find fst]; by rewrite decide_True by done|].
    apply list_find_None, List.Forall_forall. intros x Hx <-. apply Hf. apply list_elem_of_fmap.
    exists x. split; [done|]. by apply list_elem_of_In. }
  match type of Ha' with able ?x => set (w' := x) in * end.
  assert (∃ w2, world_step w' (WReceive k) = Some w2 ∧ store w2 = s' ∧ returned w2 = returned w ++ [(k, None)])
    as (w2 & E2 & Hs2 & Hr2).
  { cbn [world_step w' waiting sent ch reqID]. rewrite Hw. cbn [mbind option_bind]. rewrite Hfind.
    eexists. split; [reflexivity|]. cbn. unfold answer. by rewrite String.eqb_refl. }
  exists w2. split; [done|]. constructor; [exact (able_step _ _ _ Ha' E2)| |rewrite Hs2; by exists (store w)].
  exists (length (returned w)). rewrite Hr2. by apply channels_find.
Qed.

(** ** A leader that takes calls *)
Record ready (p : nat) (T : Z) S (rf : Raft Cmd) w : Prop := {
  rd_leading : leading p T (sy_cluster S) rf;
  rd_proc : ∃ i, sy_procs S !! p = Some (mkProcess w [] i);
  rd_able : able w;
  rd_drained : drained S;
  rd_procs : length (sy_procs S) = length (nodes (sy_cluster S))
}.

Lemma leader_ready ps now S h :
  sys_ok n S h → sys_open S → ClusterLog.started ps now (sy_cluster S) → (2 <= length ps)%nat →
  all_alive (sy_cluster S) →
  ∃ p S2 T rf w, flows S S2 ∧ ready p T S2 rf w ∧ ClusterLog.started ps now (sy_cluster S2).
Proof using Type.
  intros Hok Hop Hs Hn Ha. destruct (drain S) as (S1 & Hf1 & Hh). pose proof Hh as (Hc1 & Hl1 & H1).
  destruct (election_succeeds ps now _ Hs Hn Ha) as (c1 & p & T & rf & Hl & Hld & _). rewrite <- Hc1 in Hl.
  assert (Hlen : length (sy_procs S1) = length (nodes (sy_cluster S1))).
  { rewrite Hl1, Hc1, (so_len _ _ _ Hok), (inv_len _ _ (proj1 (so_good _ _ _ Hok))). done. }
  destruct (leads_lift S1 c1 Hl (handles_drained _ _ Hh) Hlen) as (ms & S2 & _ & Hf2 & Hc2 & Hd2 & Hl2 & H2).
  rewrite <- Hc2 in Hld. assert (Hs1 : ClusterLog.started ps now (sy_cluster S1)) by by rewrite Hc1.
  pose proof (leads_started _ _ _ _ Hs1 Hl) as Hs2. rewrite <- Hc2 in Hs2.
  assert (Hlen2 : length (nodes (sy_cluster S2)) = length (sy_procs S2)).
  { destruct (good_started _ _ _ Hs2) as [h2 Hg2]. rewrite (inv_len _ _ (proj1 Hg2)), Hl2, Hlen, Hc1.
    destruct (good_started _ _ _ Hs) as [h1 Hg1]. by rewrite (inv_len _ _ (proj1 Hg1)). }
  assert (Hp : (p < length (sy_procs S))%nat).
  { rewrite <- Hl1, <- Hl2, <- Hlen2. eapply lookup_lt_Some, Hld. }
  destruct (lookup_lt_is_Some_2 _ _ Hp) as [pr Hpr].
  destruct (H1 p pr Hpr) as (w1 & i1 & Hp1 & Hr1). destruct (H2 p _ Hp1) as (w2 & i2 & Hp2 & Hr2).
  exists p, S2, T, rf, w2. split_and!; [by eapply flows_trans| |done].
  constructor; [done|by exists i2| |done|done]. eapply able_run; [|exact Hr2]. eapply able_run; [|exact Hr1].
  split; [|by eapply Hop]. destruct (process_peer _ _ _ _ _ Hok Hpr) as [rf0 Hrf0].
  apply (so_peer _ _ _ Hok _ _ _ Hrf0 Hpr).
Qed.

(** [Submit] on a leader: the entry goes to the end of the log. *)
Lemma submit_step p T S rf w i c' w' cmd :
  leading p T (sy_cluster S) rf → sy_procs S !! p = Some (mkProcess w [] i) →
  cluster_step (sy_cluster S) (EvStart p (Some cmd)) = Some c' →
  world_step w (WSubmit cmd (lastLogIndex rf + 1) true) = Some w' →
  sys_step S (SysSubmit p cmd) = Some (mkSystem c' (<[p := mkProcess w' [] i]> (sy_procs S))).
Proof using Type.
  intros Hld Hp Ec Ew. cbn [sys_step]. rewrite Hp, (ld_node _ _ _ _ Hld). cbn [mbind option_bind].
  unfold Start. rewrite decide_True by apply Hld. rewrite Ec. cbn [mbind option_bind pr_world].
  unfold lastLogIndex at 1. cbn [log set_log lastIncludedIndex]. unfold zlen. rewrite length_app. cbn [length].
  unfold lastLogIndex, zlen in Ew.
  replace (_ + _ - 1) with (lastIncludedIndex rf + Z.of_nat (length (log rf)) - 1 + 1) by lia.
  by rewrite Ew.
Qed.

(** The store handles the entries up to that of the call, the caller receives the answer. *)
Lemma answer_lift S p w q i cmd L k :
  sy_procs S !! p = Some (mkProcess w [] i) → drained S →
  (∃ w1, expects w1 cmd L k ∧ world_run w1 (WMsg <$> (q ++ [hand_over cmd L])) = Some w) →
  (∀ m, m ∈ q → am_SnapshotValid m = false ∧ am_CommandIndex m < L) →
  ∃ S' w', flows S S' ∧ sy_cluster S' = sy_cluster S ∧ length (sy_procs S') = length (sy_procs S) ∧ drained S' ∧
    sy_procs S' !! p = Some (mkProcess w' [] i) ∧ told w' cmd k.
Proof using Type.
  intros Hp Hd (w1 & Hw1 & Hr) Hq. rewrite fmap_app in Hr.
  destruct (world_run w1 (WMsg <$> q)) as [w2|] eqn:E2.
  2: { exfalso. clear - Hr E2. revert w1 Hr E2. induction q as [|m q IH]; intros w1; [done|].
       cbn [fmap list_fmap app world_run]. destruct (world_step w1 (WMsg m)); [|done]. cbn [mbind option_bind]. apply IH. }
  assert (E3 : world_step w2 (WMsg (hand_over cmd L)) = Some w).
  { clear - Hr E2. revert w1 Hr E2. induction q as [|m q IH]; intros w1; cbn [fmap list_fmap app world_run].
    - intros Hr [= ->]. destruct (world_step w2 _); [|done]. by injection Hr as ->.
    - destruct (world_step w1 (WMsg m)); [|done]. cbn [mbind option_bind]. apply IH. }
  destruct (expects_answer w2 cmd L k w) as (w4 & E4 & Htold); [by eapply expects_run|done|].
  exists (with_proc S p (mkProcess w4 [] i)), w4.
  split_and!; [|done|by cbn; rewrite length_insert| |by eapply with_proc_lookup|done].
  - apply (flows_step _ (SysReceive p k)); [done|]. unfold sys_step. rewrite Hp. cbn [mbind option_bind pr_world].
    by rewrite E4.
  - intros x pr. cbn. intros [(<- & <- & _)|(_ & Hx)]%list_lookup_insert_Some; [done|by eapply Hd].
Qed.

(** Its [Submit] succeeds, and it can do it again. *)
Lemma ready_submits ps now p T S rf w cmd :
  ready p T S rf w → ClusterLog.started ps now (sy_cluster S) → (2 <= length ps)%nat →
  ∃ S1 S2 rf' w', sys_step S (SysSubmit p cmd) = Some S1 ∧ flows S1 S2 ∧
    ClusterLog.started ps now (sy_cluster S2) ∧ ready p T S2 rf' w' ∧ told w' cmd (length (started w)).
Proof using Type.
  intros [Hld [i Hp] Hfr Hdr Hlen] Hs Hn. set (L := lastLogIndex rf + 1).
  destruct (leader_commits ps now p T _ rf cmd Hs Hn Hld) as (c2 & c3 & ms & rf3 & E2 & Hl & Ha3 & Ha2 & Hms & Hl3).
  destruct (expects_submit w cmd L Hfr) as (w1 & Ew1 & Hw1).
  set (S1 := mkSystem c2 (<[p := mkProcess w1 [] i]> (sy_procs S))).
  assert (E1 : sys_step S (SysSubmit p cmd) = Some S1) by by eapply submit_step.
  assert (Hs2 : ClusterLog.started ps now c2).
  { eapply started_app; [done|]. by apply (service_run_one _ (EvStart p (Some cmd))). }
  assert (Hn2 : ∀ c, ClusterLog.started ps now c → length (nodes c) = length ps).
  { intros c (h2 & Hg2)%good_started. apply (inv_len _ _ (proj1 Hg2)). }
  assert (Hlen1 : length (sy_procs S1) = length (nodes (sy_cluster S1))).
  { cbn. by rewrite length_insert, Hlen, (Hn2 _ Hs), (Hn2 _ Hs2). }
  assert (Hp1 : sy_procs S1 !! p = Some (mkProcess w1 [] i)).
  { apply list_lookup_insert_eq. by eapply lookup_lt_Some. }
  assert (Hd1 : drained S1).
  { intros x pr. cbn. intros [(<- & <- & _)|(_ & Hx)]%list_lookup_insert_Some; [done|by eapply Hdr]. }
  destruct (leads_lift S1 c3 Hl Hd1 Hlen1) as (ms' & S2 & Ha & Hf & Hc2 & Hd2 & Hl2 & H2). cbn [S1 sy_cluster] in Ha.
  rewrite Ha3 in Ha. apply app_inv_head in Ha as <-.
  destruct (H2 p _ Hp1) as (w2 & i2 & Hp2 & Hr2). cbn [pr_world] in Hr2. rewrite sent_by_app in Hr2.
  assert (Hsb : sent_by p [(p, hand_over cmd L)] = [hand_over cmd L]) by (simpl; by rewrite decide_True).
  fold L in Hr2. rewrite Hsb in Hr2.
  destruct (answer_lift S2 p w2 _ i2 cmd L _ Hp2 Hd2 (ex_intro _ w1 (conj Hw1 Hr2)))
    as (S3 & w3 & Hf3 & Hc3 & Hl3' & Hd3 & Hp3 & Htold).
  { intros m Hm%sent_by_elem. by destruct (Hms p m Hm) as (_ & ? & ?). }
  assert (Hs3 : ClusterLog.started ps now (sy_cluster S3)) by (rewrite Hc3, Hc2; by eapply leads_started).
  exists S1, S3, rf3, w3. split; [done|]. split; [by eapply flows_trans|]. split_and!; [done| |done].
  constructor; [by rewrite Hc3, Hc2|by exists i2|apply Htold|done|].
  rewrite Hl3', Hl2, Hlen1, Hc3, Hc2. change (sy_cluster S1) with c2. rewrite (Hn2 c2 Hs2). symmetry.
  apply Hn2. exact (leads_started _ _ _ _ Hs2 Hl).
Qed.

End Progress.
