(* ===== verification/SystemDivergence.v ===== *)
(** * Nodes: why installed snapshots must be in step

    Without [snapshots_in_step] the replicas of the job store come apart:
    [stores_diverge] is a run of three nodes that ends with an acknowledged job which one
    of them has lost.  [snapshot_overtaken] is the other half of [snapshot_in_step]: an
    apply loop that is between two entries sends the next one before the pending snapshot.
    The last part is about [disks_survive]: the persister of main.go does not outlive its
    process. *)
From Stdlib Require Import ZArith Lia String.
From stdpp Require Import base tactics list strings numbers option gmap.
From S2P Require Import Prelude.
From S2P Require Import Gob.
From S2P Require Import Persister.
From S2P Require Import RaftNode.
From S2P Require Import RaftLog.
From S2P Require Import RaftOps.
From S2P Require Import Cluster.
From S2P Require Import ClusterSafety.
From S2P Require Import Store.
From S2P Require Import StoreSpec.
From S2P Require Import StoreTheorems.
From S2P Require Import System.
From S2P Require Import SystemSafety.

Local Open Scope Z_scope.

(** Nothing fails: no node stops, no call returns an error, no [Submit] times out. *)
Definition smooth (ev : sys_event) : bool :=
  match ev with
  | SysCluster (EvKill _) | SysCluster (EvCallFail _) | SysTimeout _ _ | SysRestart _ _ | SysStartOver _ _ => false
  | _ => true
  end.

(** The requests that are served, and the replies that are received. *)
Definition served (evs : list sys_event) : list nat :=
  omap (λ ev, match ev with SysCluster (EvServe i _) => Some i | _ => None end) evs.
Definition received (evs : list sys_event) : list nat :=
  omap (λ ev, match ev with SysCluster (EvReply _ j) => Some j | _ => None end) evs.

Module Divergence.
Import Runs StoreExamples SystemRuns.

Definition run (k : nat) : sys_event := SysCluster (EvRun k).
Definition deliver (i : nat) (now : Z) : sys_event := SysCluster (EvServe i now).
Definition req (i : nat) : string := String (Ascii.ascii_of_nat i) EmptyString.

(** Node 0 wins term 1 with the vote of node 1 and begins its heartbeats. *)
Definition elect : list sys_event :=
  [SysCluster (EvElection 0 300 260); run 6; deliver 0 301; SysCluster (EvReply 7 0); run 7; run 7].

(** It takes a hundred updates of job a and the new job z, and sends all of them to
    both peers; the reply of node 1 is lost, that of node 2 commits them. *)
Definition submits : list sys_event :=
  ((λ i, SysSubmit 0 (upsert (req i) "a")) <$> seq 1 100) ++
  [SysSubmit 0 (upsert (req 101) "z"); run 7; deliver 1 310; run 7; deliver 2 310; SysCluster (EvReply 110 2)].

(** Its store executes them and takes a snapshot at 100, the caller of the last
    [Submit] gets its answer, and the next heartbeat tells node 1 to
    commit; the reply of node 1 is lost again. *)
Definition commits : list sys_event :=
  [run 0; SysHandle 0] ++ mjoin (replicate 100 [run 109; SysHandle 0]) ++
  [SysReceive 0 100; run 7; run 109; deliver 3 320; SysSnapshot 0 0].

(** Node 1 executes all of them.  For node 0 it still has none and needs the snapshot,
    which it installs over its newer state. *)
Definition rollback : list sys_event :=
  [run 1; SysHandle 1] ++ mjoin (replicate 100 [run 110; SysHandle 1]) ++
  [run 110; run 6; run 110; deliver 4 330; SysCluster (EvReply 111 4); run 109].

(** Both execute one more command. *)
Definition goes_on : list sys_event :=
  [SysSubmit 0 (upsert (req 102) "a"); run 6; run 111; deliver 5 340; SysCluster (EvReply 112 5);
   run 6; run 111; deliver 6 350; run 108; SysHandle 1; run 104; SysHandle 0].

Definition before : list sys_event := elect ++ submits ++ commits ++ rollback.
Definition lossy : list sys_event := before ++ SysHandle 1 :: goes_on.
Definition early : system := default s0 (sys_exec s0 before).
Definition back : system := default s0 (sys_step early (SysHandle 1)).
Definition final : system := default s0 (sys_exec back goes_on).

Lemma before_run : sys_exec (sys_init ps3 0) before = Some early.
Proof. vm_compute. reflexivity. Qed.

Lemma back_step : sys_step early (SysHandle 1) = Some back.
Proof. vm_compute. reflexivity. Qed.

Lemma goes_on_run : sys_exec back goes_on = Some final.
Proof. vm_compute. reflexivity. Qed.

(** The snapshot at 100 waits to be handled by a store that has come to 101. *)
Lemma early_waits : pr_queue (proc early 1) = [default (mkApplyMsg false None 0 false [] 0 0) (head (pr_queue (proc early 1)))].
Proof. vm_compute. reflexivity. Qed.

End Divergence.

(** C20. Replicas of the job store can diverge: there is a run of three nodes in which no
    node stops, no call fails, no [Submit] times out and no request or reply is handled
    twice (some replies are late), with the following.  At some moment node 0 has told the
    caller of a [Submit] that job z is stored, the store of node 1 has come to index 101 and
    has job z, and the only message that waits for it is a snapshot of index 100; when it
    has handled it, it is at index 100, without the job.  At the end of the run both stores
    are at index 102 with no message waiting; node 0 has job z and node 1 does not. *)
Theorem stores_diverge :
  ∃ evs1 S1 S2 evs2 S3 leader wt pr1 msg pr2 leader' follower',
    sys_exec (sys_init Runs.ps3 0) evs1 = Some S1 ∧ sys_step S1 (SysHandle 1) = Some S2 ∧
    sys_exec S2 evs2 = Some S3 ∧ forallb smooth (evs1 ++ evs2) = true ∧
    NoDup (served (evs1 ++ evs2)) ∧ NoDup (received (evs1 ++ evs2)) ∧
    (sy_procs S1 !! 0%nat = Some leader ∧ (100%nat, None) ∈ returned (pr_world leader) ∧
     started (pr_world leader) !! 100%nat = Some wt ∧
     w_cmd wt = StoreExamples.upsert (Divergence.req 101) "z") ∧
    (sy_procs S1 !! 1%nat = Some pr1 ∧ pr_index pr1 = 101 ∧ pr_queue pr1 = [msg] ∧
     am_SnapshotValid msg = true ∧ am_SnapshotIndex msg = 100 ∧
     jobs (store (pr_world pr1)) !! "z"%string = Some (StoreExamples.job "z" 7)) ∧
    (sy_procs S2 !! 1%nat = Some pr2 ∧ pr_index pr2 = 100 ∧ jobs (store (pr_world pr2)) !! "z"%string = None) ∧
    sy_procs S3 !! 0%nat = Some leader' ∧ sy_procs S3 !! 1%nat = Some follower' ∧
    pr_index leader' = 102 ∧ pr_index follower' = 102 ∧ pr_queue leader' = [] ∧ pr_queue follower' = [] ∧
    jobs (store (pr_world leader')) !! "z"%string = Some (StoreExamples.job "z" 7) ∧
    jobs (store (pr_world follower')) !! "z"%string = None.
Proof.
  exists Divergence.before, Divergence.early, Divergence.back, Divergence.goes_on, Divergence.final,
    (SystemRuns.proc Divergence.early 0), (mkWaiter (StoreExamples.upsert (Divergence.req 101) "z") 101),
    (SystemRuns.proc Divergence.early 1),
    (default (mkApplyMsg false None 0 false [] 0 0) (head (pr_queue (SystemRuns.proc Divergence.early 1)))),
    (SystemRuns.proc Divergence.back 1), (SystemRuns.proc Divergence.final 0), (SystemRuns.proc Divergence.final 1).
  split; [exact Divergence.before_run|]. split; [exact Divergence.back_step|].
  split; [exact Divergence.goes_on_run|]. split; [vm_compute; reflexivity|].
  split; [apply (bool_decide_unpack _); vm_compute; exact I|].
  split; [apply (bool_decide_unpack _); vm_compute; exact I|].
  split_and!; try exact Divergence.early_waits; try (vm_compute; reflexivity). vm_compute. left.
Qed.

(** ** The apply loop between two entries *)
Section Overtaken.
Context {Command : Type}.
Implicit Types (rf : Raft Command).

(** A snapshot that arrives while the apply loop is delivering entries is overtaken:
    the loop goes on with the next committed entry and keeps the snapshot for later. *)
Lemma snapshot_overtaken rf msg :
  apply_ok rf → lastApplied rf < commitIndex rf → pendingSnapshot rf = Some msg →
  ∃ m rf', applyLoop_step rf ApplyInner = Some (Some m, rf', ApplyInner) ∧
    entryMsg rf (lastApplied rf + 1) = Some m ∧ pendingSnapshot rf' = Some msg.
Proof.
  intros Hok Hlt Hp.
  destruct (applyInner_next rf (Z.to_nat (commitIndex rf - lastApplied rf)) Hok Hlt) as (m & Hm & E).
  exists m, (set_lastApplied (lastApplied rf + 1) rf). unfold applyLoop_step, applyFuel.
  rewrite E. by split_and!.
Qed.

End Overtaken.

(** ** A persister in memory *)
Module Amnesia.
Import Runs.

(** Node 2 asks node 1 for its vote. *)
Definition elect2 : list (event Z) := [EvElection 1 700 260; EvRun 9; EvServe 1 702; EvReply 9 1].
Definition c2 : cluster Z := default c0 (start_over c1 1 302).
Definition c3 : cluster Z := default c0 (cluster_run c2 elect2).

Lemma c3_leader0 : is_leader c3 0 1.
Proof. eexists. split_and!; [vm_compute; reflexivity|done|done]. Qed.

Lemma c3_leader2 : is_leader c3 2 1.
Proof. eexists. split_and!; [vm_compute; reflexivity|done|done]. Qed.

End Amnesia.

(** Election safety needs a persister that survives the process: if the node that gave
    term 1 its majority is started again with an empty one, it votes a second time and
    two nodes lead in term 1. *)
Theorem start_over_two_leaders :
  ∃ c c' c'' : cluster Z, reachable Runs.ps3 0 c ∧ start_over c 1 302 = Some c' ∧
    cluster_run c' Amnesia.elect2 = Some c'' ∧ is_leader c'' 0 1 ∧ is_leader c'' 2 1.
Proof.
  exists Runs.c1, Amnesia.c2, Amnesia.c3. split_and!; [apply Runs.c1_reachable|vm_compute; reflexivity|vm_compute; reflexivity
    |apply Amnesia.c3_leader0|apply Amnesia.c3_leader2].
Qed.
