(* ===== verification/Effects.v ===== *)
(** * Programs that call the world, and the interfaces between the packages

    The scheduler, the executors and the REST handlers are sequences of calls:
    to the store and Raft peer of the node, to the clock, the random source, a
    shell, an HTTP server, and [go] statements.  A [prog] is such a sequence: a
    result, a call with what to do with its answer, or a computation that does
    not return ([Hang]).  [runs p tr a]: [p] returns [a] after the calls of [tr],
    for some answers; theorems quantify over all of them.

    The classes are the Go interfaces: [leaderChecker], [jobStore],
    [jobScheduler] and [Executor]. *)
From Stdlib Require Import ZArith Lia String Ascii.
From stdpp Require Import base tactics list strings numbers option.
From S2P Require Import Prelude.
From S2P Require Import GoTime.
From S2P Require Import Store.

Local Open Scope Z_scope.

(** What [exec.CommandContext(ctx, "/bin/sh", "-c", payload).CombinedOutput()]
    gives: the output, the error ([*exec.ExitError] with its code, or another),
    and whether the deadline of the context has passed. *)
Inductive exec_error := ExitError (code : Z) | OtherError.
Record shell_outcome := mkShell {
  sh_out : string; sh_err : option exec_error; sh_deadline : bool
}.

(** The JSON body of an HTTP job. *)
Record httpEnvelope := mkEnvelope { he_JobID : string; he_JobName : string; he_TriggeredAt : Time }.

(** An [http.Client] is its timeout. *)
Definition Client : Type := Z.

Inductive eff : Type → Type :=
| Now : eff Time
| RandRead (n : nat) : eff (list ascii)
| CallGetState : eff (Z * bool)
| CallSubmit (cmd : Cmd) : eff (option error)
| CallGetJob (id : string) : eff (Job * bool)
| CallListJobs : eff (list Job)
| CallGetRuns (id : string) : eff (list RunRecord)
| GoFireJob (j : Job) (now : Time) : eff unit
| Shell (timeout : Z) (payload : string) : eff shell_outcome
| Post (client : Client) (url : string) (body : httpEnvelope) : eff (string + Z)
| LogPrintf (msg : string) : eff unit.

Inductive prog (A : Type) : Type :=
| Ret (a : A)
| Do {X : Type} (e : eff X) (k : X → prog A)
| Hang.
Arguments Ret {A}. Arguments Do {A X}. Arguments Hang {A}.

Fixpoint prog_bind {A B} (p : prog A) (f : A → prog B) : prog B :=
  match p with
  | Ret a => f a
  | Do e k => Do e (λ x, prog_bind (k x) f)
  | Hang => Hang
  end.

#[export] Instance prog_ret : MRet prog := λ A a, Ret a.
#[export] Instance prog_mbind : MBind prog := λ A B f p, prog_bind p f.

Definition perform {X} (e : eff X) : prog X := Do e Ret.

(** A computation of the model that may not end ([None]). *)
Definition compute {A} (o : option A) : prog A :=
  match o with Some a => Ret a | None => Hang end.

(** A loop over a list. *)
Fixpoint for_each {A} (l : list A) (f : A → prog unit) : prog unit :=
  match l with
  | [] => Ret tt
  | x :: l' => f x ≫= λ _, for_each l' f
  end.

(** ** Traces *)
Inductive call : Type :=
| Call {X : Type} (e : eff X) (x : X).

Fixpoint runs {A} (p : prog A) (tr : list call) (b : A) : Prop :=
  match p with
  | Ret a => tr = [] ∧ b = a
  | Do e k => ∃ x tr', tr = Call e x :: tr' ∧ runs (k x) tr' b
  | Hang => False
  end.

Lemma runs_bind {A B} (p : prog A) (f : A → prog B) tr b :
  runs (p ≫= f) tr b ↔ ∃ a tr1 tr2, runs p tr1 a ∧ runs (f a) tr2 b ∧ tr = tr1 ++ tr2.
Proof.
  revert tr. induction p as [a|X e k IH|]; intros tr; simpl.
  - split; [intros H; by exists a, [], tr|]. by intros (? & ? & ? & [-> ->] & H & ->).
  - split.
    + intros (x & tr' & -> & H). apply IH in H as (a & tr1 & tr2 & H1 & H2 & ->).
      exists a, (Call e x :: tr1), tr2. split_and!; [by exists x, tr1|done|done].
    + intros (a & ? & tr2 & (x & tr1 & -> & H1) & H2 & ->). exists x, (tr1 ++ tr2).
      split; [done|]. apply IH. by exists a, tr1, tr2.
  - split; [done|]. by intros (? & ? & ? & ? & _).
Qed.

Lemma runs_perform {X} (e : eff X) tr x : runs (perform e) tr x ↔ tr = [Call e x].
Proof.
  simpl. split; [by intros (y & tr' & -> & -> & ->)|]. intros ->. by exists x, [].
Qed.

Lemma runs_compute {A} (o : option A) tr a : runs (compute o) tr a ↔ o = Some a ∧ tr = [].
Proof.
  destruct o; simpl; [|by split; [|intros [[=] _]]].
  split; [by intros [-> ->]|by intros [[= ->] ->]].
Qed.

Lemma runs_for_each {A} (l : list A) (f : A → prog unit) tr :
  runs (for_each l f) tr tt ↔ ∃ trs, Forall2 (λ x t, runs (f x) t tt) l trs ∧ tr = mjoin trs.
Proof.
  revert tr. induction l as [|x l IH]; intros tr; simpl.
  - split; [intros [-> _]; exists []; by split|]. intros (trs & H & ->). by inversion H.
  - rewrite runs_bind. split.
    + intros ([] & tr1 & tr2 & H1 & H2 & ->). apply IH in H2 as (trs & H2 & ->).
      exists (tr1 :: trs). split; [by constructor|done].
    + intros (trs & H & ->). apply Forall2_cons_inv_l in H as (t & trs' & H1 & H2 & ->).
      exists tt, t, (mjoin trs'). split_and!; [done| |done]. apply IH. by exists trs'.
Qed.

(** Splits [runs (p ≫= f) tr b], for any [p] or for a single call. *)
Tactic Notation "run_bind" hyp(H) "as" simple_intropattern(x) ident(tr1) ident(tr2) ident(Hx) :=
  rewrite runs_bind in H; destruct H as (x & tr1 & tr2 & Hx & H & ->).
Tactic Notation "run_call" hyp(H) "as" simple_intropattern(x) ident(tr2) :=
  let Hx := fresh in let tr1 := fresh in
  rewrite runs_bind in H; destruct H as (x & tr1 & tr2 & Hx & H & ->);
  apply runs_perform in Hx as ->; cbn [app].

(** The run in which every call is answered by [h]. *)
Fixpoint drive {A} (h : ∀ X, eff X → X) (p : prog A) : option (list call * A) :=
  match p with
  | Ret a => Some ([], a)
  | Do e k => '(tr, a) ← drive h (k (h _ e)); Some (Call e (h _ e) :: tr, a)
  | Hang => None
  end.

Lemma drive_runs {A} h (p : prog A) tr a : drive h p = Some (tr, a) → runs p tr a.
Proof.
  revert tr. induction p as [b|X e k IH|]; intros tr; simpl; [by intros [= <- <-]| |done].
  destruct (drive h (k (h X e))) as [[tr' a']|] eqn:E; [|done]. simpl. intros [= <- <-].
  exists (h X e), tr'. split; [done|]. by apply IH.
Qed.

(** ** Interfaces *)
Class leaderChecker (A : Type) := GetState : A → prog (Z * bool).

Class jobStore (A : Type) := {
  js_Submit : A → Cmd → prog (option error);
  js_GetJob : A → string → prog (Job * bool);
  js_ListJobs : A → prog (list Job);
  js_GetRuns : A → string → prog (list RunRecord)
}.

(** The error of [FireNow]; its text is [fmt.Errorf]'s. *)
Inductive fire_error := JobNotFound (jobID : string).
Class jobScheduler (A : Type) := FireNow : A → string → prog (option fire_error).

Class Executor (A : Type) := Run : A → Job → prog RunRecord.

(** The node's own Raft peer and store. *)
Inductive raftPeer := TheRaft.
#[export] Instance raft_leaderChecker : leaderChecker raftPeer := λ _, perform CallGetState.

Inductive storeRef := TheStore.
#[export] Instance store_jobStore : jobStore storeRef := {|
  js_Submit _ cmd := perform (CallSubmit cmd);
  js_GetJob _ id := perform (CallGetJob id);
  js_ListJobs _ := perform CallListJobs;
  js_GetRuns _ id := perform (CallGetRuns id)
|}.

(** ** Random identifiers *)
Definition hex_digit (n : nat) : ascii :=
  ascii_of_nat (if (n <? 10)%nat then 48 + n else 87 + n).

(** [hex.EncodeToString] *)
Fixpoint EncodeToString (b : list ascii) : string :=
  match b with
  | [] => EmptyString
  | c :: b' =>
      String (hex_digit (nat_of_ascii c / 16)) (String (hex_digit (nat_of_ascii c mod 16))
        (EncodeToString b'))
  end.

(** [newReqID] of scheduler.go and [generateID] of handlers.go. *)
Definition newReqID : prog string := b ← perform (RandRead 8); Ret (EncodeToString b).
Definition generateID : prog string := b ← perform (RandRead 8); Ret (EncodeToString b).

Definition hex_value (c : ascii) : nat :=
  let n := nat_of_ascii c in if (n <? 58)%nat then n - 48 else n - 87.

Lemma hex_value_digit n : (n < 16)%nat → hex_value (hex_digit n) = n.
Proof. do 16 (destruct n as [|n]; [done|]). lia. Qed.

Lemma byte_halves c : (nat_of_ascii c / 16 < 16)%nat ∧ (nat_of_ascii c mod 16 < 16)%nat.
Proof.
  pose proof (nat_ascii_bounded c). split; [|by apply Nat.mod_upper_bound].
  apply Nat.Div0.div_lt_upper_bound. lia.
Qed.

Lemma EncodeToString_inj b b' : EncodeToString b = EncodeToString b' → b = b'.
Proof.
  revert b'. induction b as [|c b IH]; intros [|c' b'] E; try done. cbn [EncodeToString] in E.
  injection E as E1 E2 E3. f_equal; [|by apply IH].
  apply (f_equal hex_value) in E1, E2.
  destruct (byte_halves c), (byte_halves c'). rewrite !hex_value_digit in E1, E2 by done.
  change (nat_of_ascii c / 16 = nat_of_ascii c' / 16)%nat in E1.
  change (nat_of_ascii c mod 16 = nat_of_ascii c' mod 16)%nat in E2.
  rewrite <- (ascii_nat_embedding c), <- (ascii_nat_embedding c').
  rewrite (Nat.div_mod_eq (nat_of_ascii c) 16), (Nat.div_mod_eq (nat_of_ascii c') 16). congruence.
Qed.

Lemma EncodeToString_length b : String.length (EncodeToString b) = (2 * length b)%nat.
Proof. induction b as [|c b IH]; simpl; [done|]. rewrite IH. lia. Qed.
