(* ===== verification/EffectsLogic.v ===== *)
(** * Assertions about the calls of a program

    A run may be interrupted by a crash, so what a program guarantees about its calls
    is said of every prefix of a run: [reaches p tr p'], the calls of [tr] take [p] to
    [p'].  [always I Q tr p]: after the calls [tr], each call that [p] makes satisfies
    the assertion [I] about the calls before it and the call, and its result satisfies
    [Q]; a weakest precondition with one rule per construct. *)
From Stdlib Require Import ZArith Lia String Ascii.
From stdpp Require Import base tactics list strings numbers option.
From S2P Require Import Prelude.
From S2P Require Import GoTime.
From S2P Require Import Store.
From S2P Require Import Effects.

(** ** Prefixes of runs *)
Fixpoint reaches {A} (p : prog A) (tr : list call) (p' : prog A) : Prop :=
  (tr = [] ∧ p' = p) ∨
  match p with
  | Do e k => ∃ x tr', tr = Call e x :: tr' ∧ reaches (k x) tr' p'
  | _ => False
  end.

Lemma reaches_refl {A} (p : prog A) : reaches p [] p.
Proof. destruct p; by left. Qed.

Lemma reaches_snoc {A X} (p : prog A) tr (e : eff X) k x :
  reaches p tr (Do e k) → reaches p (tr ++ [Call e x]) (k x).
Proof.
  revert tr. induction p as [a|Y e' k' IH|]; intros tr [[-> Heq]|H]; try done.
  - right. change (match Do e' k' with
      | Do e'' k'' => ∃ y tr', [] ++ [Call e x] = Call e'' y :: tr' ∧ reaches (k'' y) tr' (k x)
      | _ => False
      end). rewrite <- Heq. exists x, []. split; [done|apply reaches_refl].
  - destruct H as (y & tr' & -> & H). right. exists y, (tr' ++ [Call e x]). split; [done|by apply IH].
Qed.

Lemma runs_reaches {A} (p : prog A) tr a : reaches p tr (Ret a) → runs p tr a.
Proof.
  revert tr. induction p as [b|X e k IH|]; intros tr [[-> Heq]|H]; try done; simplify_eq/=; [done|].
  destruct H as (x & tr' & -> & H). exists x, tr'. split; [done|by apply IH].
Qed.

(** ** Assertions *)
Definition assertion : Type := list call → ∀ X, eff X → Prop.

Section Always.
Implicit Types I : assertion.

Fixpoint always {A} I (Q : list call → A → Prop) (tr : list call) (p : prog A) : Prop :=
  match p with
  | Ret a => Q tr a
  | Do e k => I tr _ e ∧ ∀ x, always I Q (tr ++ [Call e x]) (k x)
  | Hang => True
  end.

Lemma always_ret {A} I (Q : list call → A → Prop) tr a : Q tr a → always I Q tr (mret a).
Proof. done. Qed.

Lemma always_perform {X} I (Q : list call → X → Prop) tr (e : eff X) :
  I tr _ e → (∀ x, Q (tr ++ [Call e x]) x) → always I Q tr (perform e).
Proof. by split. Qed.

Lemma always_mono {A} I I' (Q Q' : list call → A → Prop) tr p :
  always I Q tr p → (∀ tr X e, I tr X e → I' tr X e) → (∀ tr a, Q tr a → Q' tr a) → always I' Q' tr p.
Proof.
  intros H HI HQ. revert tr H. induction p as [a|X e k IH|]; intros tr; simpl; [apply HQ| |done].
  intros [He Hk]. split; [by apply HI|]. intros x. by apply IH.
Qed.

Lemma always_bind {A B} I (Q : list call → B → Prop) tr (p : prog A) f :
  always I (λ tr' a, always I Q tr' (f a)) tr p → always I Q tr (p ≫= f).
Proof.
  revert tr. induction p as [a|X e k IH|]; intros tr; simpl; [done| |done].
  intros [He Hk]. split; [done|]. intros x. by apply IH.
Qed.

(** The result is that of a run. *)
Lemma always_runs {A} I (Q : list call → A → Prop) tr p :
  always I Q tr p → always I (λ tr' a, Q tr' a ∧ ∃ tr1, tr' = tr ++ tr1 ∧ runs p tr1 a) tr p.
Proof.
  revert tr. induction p as [a|X e k IH|]; intros tr; simpl; [|  |done].
  - intros H. split; [done|]. exists []. by rewrite app_nil_r.
  - intros [He Hk]. split; [done|]. intros x. eapply always_mono; [apply IH, Hk|done|].
    intros tr' a (HQ & tr1 & -> & Hr). split; [done|]. exists (Call e x :: tr1).
    rewrite <- app_assoc. split; [done|]. by exists x, tr1.
Qed.

Lemma always_compute {A} I (Q : list call → A → Prop) tr o :
  (∀ a, o = Some a → Q tr a) → always I Q tr (compute o).
Proof. destruct o; simpl; [by intros H; apply H|done]. Qed.

Lemma always_for_each {A} I (J : list call → Prop) (l : list A) f tr :
  J tr → (∀ x tr', x ∈ l → J tr' → always I (λ tr'' _, J tr'') tr' (f x)) →
  always I (λ tr' _, J tr') tr (for_each l f).
Proof.
  revert tr. induction l as [|x l IH]; intros tr HJ Hf; [done|]. apply (always_bind I _ _ (f x)).
  eapply always_mono; [apply Hf; [by left|done]|done|]. intros tr' ? HJ'. apply IH; [done|].
  intros y tr'' Hy. apply Hf. by right.
Qed.

(** What holds of all runs holds of the calls made so far and of the rest. *)
Lemma always_reaches {A} I (Q : list call → A → Prop) tr0 p tr p' :
  always I Q tr0 p → reaches p tr p' →
  always I Q (tr0 ++ tr) p' ∧
  ∀ tr1 X (e : eff X) x tr2, tr = tr1 ++ Call e x :: tr2 → I (tr0 ++ tr1) X e.
Proof.
  revert tr0 tr. induction p as [a|X e k IH|]; intros tr0 tr Hp [[-> ->]|H]; try done;
    try (split; [by rewrite app_nil_r|by intros tr1 ? ? ? ? ?%app_cons_not_nil]).
  destruct H as (x & tr' & -> & H). destruct Hp as [He Hk]. destruct (IH x _ _ (Hk x) H) as [H1 H2].
  rewrite <- app_assoc in H1. split; [done|]. intros [|c tr1] Y e' y tr2 Heq.
  - apply (f_equal head), (inj Some) in Heq. rewrite app_nil_r.
    exact (eq_ind (Call e x) (λ c, match c with @Call Z e'' _ => I tr0 Z e'' end) He _ Heq).
  - injection Heq as <- Heq. specialize (H2 tr1 Y e' y tr2 Heq). by rewrite <- app_assoc in H2.
Qed.

End Always.

(** ** What a call asks for *)
Definition submit_of {X} (e : eff X) : option Cmd :=
  match e with CallSubmit cmd => Some cmd | _ => None end.

(** The calls by which a job does its work. *)
Definition external {X} (e : eff X) : bool :=
  match e with Shell _ _ | Post _ _ _ => true | _ => false end.
Definition external_call (c : call) : bool := match c with @Call X e x => external e end.

(** The assertion that a call is neither a [Submit] nor a job's work. *)
Definition harmless : assertion := λ _ X e, submit_of e = None ∧ external e = false.
