(* ===== verification/Scheduler.v ===== *)
(** * internal/scheduler: the cron loop and the catch-up of missed jobs

    scheduler.go and recovery.go as programs of Effects.v.  [Scheduler] is
    parametric in the leader check and the executor, as the Go struct is in its
    interfaces; its [submit] is the store's.  [go sc.fireJob(j, now)] is the call
    [GoFireJob j now]; the goroutine it starts is the program [fireJob]. *)
From Stdlib Require Import ZArith Lia String.
From stdpp Require Import base tactics list strings numbers option gmap.
From S2P Require Import Prelude.
From S2P Require Import GoTime.
From S2P Require Import Cron.
From S2P Require Import Store.
From S2P Require Import Effects.

Local Open Scope string_scope.
Local Open Scope Z_scope.

(** ** The placeholder executor *)
Inductive NoopExecutor := mkNoop.
#[export] Instance Noop_Run : Executor NoopExecutor := λ _ j,
  started ← perform Now;
  finished ← perform Now;
  mret (mkRun (j_ID j) started finished 0 "(noop)" "ok").

Section Scheduler.
Context {LC E : Type} {lcC : leaderChecker LC} {execC : Executor E}.

Record Scheduler := mkScheduler { lc : LC; st : storeRef; exec : E }.
Implicit Types (sc : Scheduler) (j : Job) (now : Time).

Definition submit sc (c : Cmd) : prog (option error) := js_Submit (st sc) c.

Definition set_NextRun (t : Time) j : Job :=
  mkJob (j_ID j) (j_Name j) (j_CronExpr j) (j_Executor j) (j_Payload j) (j_CatchupPolicy j)
    t (j_LastRun j) (j_LastStatus j) (j_CreatedAt j).

(** The commands the scheduler submits: the other fields are zero. *)
Definition upsertCmd (req : string) j : Cmd := mkCmd CmdUpsert req j EmptyString zeroRun.
Definition recordCmd (req : string) (r : RunRecord) : Cmd := mkCmd CmdRecord req zeroJob EmptyString r.

(** [Next] may not return; the pair is the Go result. *)
Definition nextRun (expr : string) now : option (Time * bool) :=
  match Parse expr with
  | Err _ => Some (zeroTime, false)
  | Ok e => t ← Next e now; Some (if IsZero t then (zeroTime, false) else (t, true))
  end.

Definition fireJob sc j now : prog unit :=
  '(next, ok) ← compute (nextRun (j_CronExpr j) now);
  if negb ok then mret tt else
  let j := set_NextRun next j in
  req ← newReqID;
  err ← submit sc (upsertCmd req j);
  match err with
  | Some _ => mret tt
  | None =>
      run ← Run (exec sc) j;
      let run := mkRun (j_ID j) (r_StartedAt run) (r_FinishedAt run) (r_ExitCode run)
                   (r_Output run) (r_Status run) in
      let run := if IsZero (r_StartedAt run)
                 then mkRun (r_JobID run) now (r_FinishedAt run) (r_ExitCode run)
                        (r_Output run) (r_Status run)
                 else run in
      run ← (if IsZero (r_FinishedAt run) then
               t ← perform Now;
               mret (mkRun (r_JobID run) (r_StartedAt run) t (r_ExitCode run)
                       (r_Output run) (r_Status run))
             else mret run);
      req ← newReqID;
      _ ← submit sc (recordCmd req run);
      mret tt
  end.

Definition tick sc now : prog unit :=
  js ← js_ListJobs (st sc);
  for_each js (λ j,
    if IsZero (j_NextRun j) || After (j_NextRun j) now then mret tt
    else perform (GoFireJob j now)).

(** What the [select] of [tickLoop] receives: [sc.done] closed by [Kill], or the
    ticker's time. *)
Inductive tick_event := Done | Tick (now : Time).

(** One turn of [tickLoop]; the result says whether the loop goes on. *)
Definition tickLoop sc (ev : tick_event) : prog bool :=
  match ev with
  | Done => mret false
  | Tick now =>
      '(_, isLeader) ← GetState (lc sc);
      if negb isLeader then mret true else
      _ ← tick sc now;
      mret true
  end.

#[export] Instance Scheduler_FireNow : jobScheduler Scheduler := λ sc jobID,
  '(j, ok) ← js_GetJob (st sc) jobID;
  if negb ok then mret (Some (JobNotFound jobID)) else
  now ← perform Now;
  _ ← perform (GoFireJob j now);
  mret None.

Definition advanceNextRun sc j now : prog unit :=
  '(next, ok) ← compute (nextRun (j_CronExpr j) now);
  if negb ok then mret tt else
  let j := set_NextRun next j in
  req ← newReqID;
  _ ← submit sc (upsertCmd req j);
  mret tt.

Definition ReconcileMissedJobs sc : prog unit :=
  now ← perform Now;
  js ← js_ListJobs (st sc);
  for_each js (λ j,
    if IsZero (j_NextRun j) || negb (Before (j_NextRun j) now) then mret tt
    else if String.eqb (j_CatchupPolicy j) "skip" then advanceNextRun sc j now
    else if String.eqb (j_CatchupPolicy j) "run_once" then perform (GoFireJob j now)
    else mret tt).

End Scheduler.
Arguments Scheduler : clear implicits.
Arguments mkScheduler {LC E}.
