(* ===== verification/SchedulerTheorems.v ===== *)
(** * internal/scheduler: the theorems

    Which calls a tick, a fired job, a manual trigger and the catch-up make, for
    every answer of the store, the clock and the executor; and what the commands
    they submit do to the store. *)
From Stdlib Require Import ZArith Lia String Ascii.
From stdpp Require Import base tactics list strings numbers option gmap.
From S2P Require Import Prelude.
From S2P Require Import GoTime.
From S2P Require Import Cron.
From S2P Require Import CronNext.
From S2P Require Import Gob.
From S2P Require Import Persister.
From S2P Require Import RaftNode.
From S2P Require Import Store.
From S2P Require Import StoreSpec.
From S2P Require Import Effects.
From S2P Require Import Scheduler.

Local Open Scope Z_scope.

(** ** Programs that return *)

(** Whatever the answers, the program never hangs. *)
Fixpoint total {A} (p : prog A) : Prop :=
  match p with
  | Ret _ => True
  | Do _ k => ∀ x, total (k x)
  | Hang => False
  end.

Lemma total_bind {A B} (p : prog A) (f : A → prog B) :
  total p → (∀ a, total (f a)) → total (p ≫= f).
Proof. intros Hp Hf. induction p as [a|X e k IH|]; simpl in *; [apply Hf|auto|done]. Qed.

Lemma total_perform {X} (e : eff X) : total (perform e).
Proof. done. Qed.

Lemma total_for_each {A} (l : list A) f : (∀ x, total (f x)) → total (for_each l f).
Proof.
  intros Hf. induction l as [|x l IH]; [done|]. apply (total_bind (f x)); [apply Hf|done].
Qed.

(** ** The next run *)
Lemma nextRun_cases expr now :
  hour_zone now → 0 <= abs now →
  nextRun expr now = Some (zeroTime, false) ∨
  ∃ e next, Parse expr = Ok e ∧ nextRun expr now = Some (next, true) ∧
    same_loc now next ∧ aligned next ∧ abs now < abs next ∧ matches e next = true ∧
    ∀ u, same_loc now u → aligned u → abs now < abs u < abs next → matches e u = false.
Proof.
  intros Hz H0. unfold nextRun. destruct (Parse expr) as [e|err] eqn:Ep; [|by left].
  destruct (Next_result e now Hz) as (r & -> & Hr). simpl.
  destruct Hr as [[-> _]|(H1 & H2 & H3 & H4 & H5)]; [by left|right].
  exists e, r. unfold IsZero. destruct (Z.eqb_spec (abs r) 0); [lia|].
  split_and!; try done. lia.
Qed.

(** ** Reading a call back *)
Definition jobs_answer (c : call) : list Job :=
  match c with
  | @Call X e x => match e in eff Y return Y → list Job with CallListJobs => λ js, js | _ => λ _, [] end x
  end.
Definition time_answer (c : call) : Time :=
  match c with
  | @Call X e x => match e in eff Y return Y → Time with Now => λ t, t | _ => λ _, zeroTime end x
  end.
Definition is_now (c : call) : bool :=
  match c with @Call X e x => match e with Now => true | _ => false end end.
Definition submitted (c : call) : option Cmd :=
  match c with
  | @Call X e x => match e with CallSubmit cmd => Some cmd | _ => None end
  end.
Definition fired (c : call) : option (Job * Time) :=
  match c with
  | @Call X e x => match e with GoFireJob j now => Some (j, now) | _ => None end
  end.

Lemma call_cons_inv (c c' : call) l l' : c :: l = c' :: l' → c = c' ∧ l = l'.
Proof. intros H. by injection H. Qed.

Section Theorems.
Context {LC E : Type} {lcC : leaderChecker LC} {execC : Executor E}.
Implicit Types (sc : Scheduler LC E) (j : Job) (now : Time).

(** ** Due and missed jobs *)
Definition due now j : bool := negb (IsZero (j_NextRun j) || After (j_NextRun j) now).
Definition missed now j : bool := negb (IsZero (j_NextRun j) || negb (Before (j_NextRun j) now)).
Definition fire_calls now (js : list Job) : list call := (λ j, Call (GoFireJob j now) tt) <$> js.

Lemma runs_newReqID tr req :
  runs newReqID tr req ↔ ∃ b, req = EncodeToString b ∧ tr = [Call (RandRead 8) b].
Proof using Type.
  unfold newReqID. simpl. split.
  - intros (b & tr' & -> & -> & ->). by exists b.
  - intros (b & -> & ->). by exists b, [].
Qed.

Lemma fires_mjoin (P : Job → bool) now (js : list Job) trs :
  Forall2 (λ j t, t = if P j then fire_calls now [j] else []) js trs →
  mjoin trs = fire_calls now (List.filter P js).
Proof using Type.
  induction 1 as [|j t js trs Ht _ IH]; [done|]. simpl. rewrite IH, Ht. by destruct (P j).
Qed.

Lemma runs_tick sc now tr :
  runs (tick sc now) tr tt →
  ∃ js, tr = Call CallListJobs js :: fire_calls now (List.filter (due now) js).
Proof using Type.
  intros (js & tr' & -> & H). exists js. f_equal.
  apply runs_for_each in H as (trs & H & ->). apply (fires_mjoin (due now)).
  eapply Forall2_impl; [exact H|]. intros j t. unfold due.
  destruct (IsZero (j_NextRun j) || After (j_NextRun j) now); simpl; [by intros [-> _]|].
  by intros ([] & ? & -> & -> & _).
Qed.

(** A tick asks the store for its jobs once and starts a goroutine for exactly
    the due ones, each once, in the order of the list: due is a [NextRun] that is
    set and not after the tick. *)
Theorem tick_fires_due sc now tr :
  runs (tick sc now) tr tt →
  ∃ js, tr = Call CallListJobs js :: fire_calls now (List.filter (due now) js).
Proof using Type. apply runs_tick. Qed.

(** Only the leader fires: a turn of the loop on a follower makes no call after
    the leadership check, on a leader it is a tick; [Kill] ends the loop without
    a call. *)
Theorem tickLoop_leader_only sc now tr go :
  runs (tickLoop sc (Tick now)) tr go →
  go = true ∧ ∃ term isLeader tr1 tr2, runs (GetState (lc sc)) tr1 (term, isLeader) ∧
    tr = tr1 ++ tr2 ∧ (if isLeader then runs (tick sc now) tr2 tt else tr2 = []) ∧
    ∀ tr' go', runs (tickLoop sc Done) tr' go' → tr' = [] ∧ go' = false.
Proof using Type.
  unfold tickLoop. rewrite runs_bind.
  intros ([term isl] & tr1 & tr2 & H1 & H2 & ->).
  destruct isl; simpl negb in H2; cbn iota in H2.
  - apply runs_bind in H2 as ([] & tr3 & tr4 & H3 & [-> ->] & ->). split; [done|].
    exists term, true, tr1, tr3. rewrite app_nil_r. by split_and!.
  - destruct H2 as [-> ->]. split; [done|]. exists term, false, tr1, []. by split_and!.
Qed.

(** The record of a run as [fireJob] completes it. *)
Definition completed j now (run rec : RunRecord) : Prop :=
  r_JobID rec = j_ID j ∧ r_ExitCode rec = r_ExitCode run ∧ r_Output rec = r_Output run ∧
  r_Status rec = r_Status run ∧
  r_StartedAt rec = (if IsZero (r_StartedAt run) then now else r_StartedAt run) ∧
  (IsZero (r_FinishedAt run) = false → r_FinishedAt rec = r_FinishedAt run).

Lemma runs_fireJob sc j now tr :
  hour_zone now → 0 <= abs now → runs (fireJob sc j now) tr tt →
  (nextRun (j_CronExpr j) now = Some (zeroTime, false) ∧ tr = []) ∨
  ∃ next b err rest, nextRun (j_CronExpr j) now = Some (next, true) ∧ abs now < abs next ∧
    tr = Call (RandRead 8) b ::
         Call (CallSubmit (upsertCmd (EncodeToString b) (set_NextRun next j))) err :: rest ∧
    match err with
    | Some _ => rest = []
    | None => ∃ run tr_run tr_now rec b' err', runs (Run (exec sc) (set_NextRun next j)) tr_run run ∧
        completed j now run rec ∧ (tr_now = [] ∨ ∃ t, tr_now = [Call Now t]) ∧
        rest = tr_run ++ tr_now ++
               [Call (RandRead 8) b'; Call (CallSubmit (recordCmd (EncodeToString b') rec)) err']
    end.
Proof using Type.
  intros Hz H0. unfold fireJob. rewrite runs_bind.
  intros ([next ok] & tr1 & tr2 & H1 & H2 & ->). apply runs_compute in H1 as [Hn ->].
  simpl app. destruct (nextRun_cases (j_CronExpr j) now Hz H0) as [Hc|(e & r & _ & Hc & _ & _ & Hlt & _)];
    rewrite Hc in Hn; injection Hn as <- <-.
  { left. by destruct H2 as [-> _]. }
  right. simpl negb in H2. cbn iota zeta in H2. rewrite runs_bind in H2.
  destruct H2 as (req & tr3 & tr4 & H3 & H4 & ->). apply runs_newReqID in H3 as (b & -> & ->).
  rewrite runs_bind in H4. destruct H4 as (err & tr5 & tr6 & H5 & H6 & ->).
  apply runs_perform in H5 as ->. exists r, b, err, tr6. split_and!; [done|done|done|].
  destruct err as [err|]; [by destruct H6 as [-> _]|].
  rewrite runs_bind in H6. destruct H6 as (run & tr_run & tr7 & Hrun & H7 & ->).
  cbn zeta in H7. rewrite runs_bind in H7. destruct H7 as (rec & tr_now & tr8 & Hrec & H8 & ->).
  rewrite runs_bind in H8. destruct H8 as (req' & tr9 & tr10 & H9 & H10 & ->).
  apply runs_newReqID in H9 as (b' & -> & ->).
  rewrite runs_bind in H10. destruct H10 as (err' & tr11 & tr12 & H11 & [-> _] & ->).
  apply runs_perform in H11 as ->.
  exists run, tr_run, tr_now, rec, b', err'. split_and!; [done| | |done].
  - revert Hrec. clear. unfold completed. simpl.
    destruct (IsZero (r_StartedAt run)); simpl; destruct (IsZero (r_FinishedAt run)); simpl;
      try (intros [_ ->]; by split_and!); intros (t & tr' & -> & -> & ->); by split_and!.
  - revert Hrec. clear. simpl.
    destruct (IsZero (r_StartedAt run)); simpl; destruct (IsZero (r_FinishedAt run)); simpl;
      try (intros [-> _]; by left); intros (t & tr' & -> & -> & ->); right; by exists t.
Qed.

(** C25. A fired job advances first and runs once.  For a tick at an instant [now] in a
    location a whole number of hours from UTC ([hour_zone]), not before the year 1, every
    run of [fireJob] that ends does this: its first command stores the job with [NextRun]
    at the next activation, strictly after the tick; only when that was committed does the
    executor run, once, on that job; and then its outcome is submitted for that job.
    Without a next activation nothing is called.  (In zones half an hour off, [Next] may
    run for ever, and [fireJob] with it: [Next_half_hour_diverges].) *)
Theorem fireJob_advances_then_runs sc j now tr :
  hour_zone now → 0 <= abs now → runs (fireJob sc j now) tr tt →
  (nextRun (j_CronExpr j) now = Some (zeroTime, false) ∧ tr = []) ∨
  ∃ next b err rest, nextRun (j_CronExpr j) now = Some (next, true) ∧ abs now < abs next ∧
    tr = Call (RandRead 8) b ::
         Call (CallSubmit (upsertCmd (EncodeToString b) (set_NextRun next j))) err :: rest ∧
    match err with
    | Some _ => rest = []
    | None => ∃ run tr_run tr_now rec b' err', runs (Run (exec sc) (set_NextRun next j)) tr_run run ∧
        completed j now run rec ∧ (tr_now = [] ∨ ∃ t, tr_now = [Call Now t]) ∧
        rest = tr_run ++ tr_now ++
               [Call (RandRead 8) b'; Call (CallSubmit (recordCmd (EncodeToString b') rec)) err']
    end.
Proof using Type. apply runs_fireJob. Qed.

(** Firing a job always returns when its executor does, in locations a whole
    number of hours from UTC. *)
Theorem fireJob_total sc j now :
  hour_zone now → 0 <= abs now → (∀ j, total (Run (exec sc) j)) → total (fireJob sc j now).
Proof using Type.
  intros Hz H0 Hrun. unfold fireJob.
  destruct (nextRun_cases (j_CronExpr j) now Hz H0) as [->|(e & r & _ & -> & _)]; [done|].
  cbn [compute]. apply (total_bind (Ret (r, true))); [done|]. intros [next ok].
  destruct ok; [|done]. cbn iota zeta. apply total_bind; [done|]. intros req.
  apply total_bind; [done|]. intros [err|]; [done|].
  apply total_bind; [apply Hrun|]. intros run. cbn zeta. apply total_bind.
  - by repeat case_match.
  - intros rec. apply total_bind; [done|]. intros req'. by apply total_bind.
Qed.

(** [FireNow] fails exactly when the store does not know the job; otherwise it
    starts one goroutine for it and returns at once. *)
Theorem FireNow_effect sc id tr err :
  runs (FireNow sc id) tr err →
  ∃ j ok, (ok = false ∧ tr = [Call (CallGetJob id) (j, false)] ∧ err = Some (JobNotFound id)) ∨
    ∃ now, ok = true ∧ err = None ∧
      tr = [Call (CallGetJob id) (j, true); Call Now now; Call (GoFireJob j now) tt].
Proof using Type.
  unfold FireNow, Scheduler_FireNow. rewrite runs_bind.
  intros ([j ok] & tr1 & tr2 & H1 & H2 & ->). apply runs_perform in H1 as ->.
  exists j, ok. destruct ok; simpl in H2.
  - right. destruct H2 as (now & ? & -> & [] & ? & -> & -> & ->). by exists now.
  - left. by destruct H2 as [-> ->].
Qed.

(** *** Catching up *)

(** The calls for one missed job: nothing or an upsert with a later [NextRun] under
    "skip", one goroutine under "run_once", nothing under another policy. *)
Definition catchup_calls now j (t : list call) : Prop :=
  if String.eqb (j_CatchupPolicy j) "skip" then
    (nextRun (j_CronExpr j) now = Some (zeroTime, false) ∧ t = []) ∨
    ∃ next b err, nextRun (j_CronExpr j) now = Some (next, true) ∧ abs now < abs next ∧
      t = [Call (RandRead 8) b;
           Call (CallSubmit (upsertCmd (EncodeToString b) (set_NextRun next j))) err]
  else if String.eqb (j_CatchupPolicy j) "run_once" then t = [Call (GoFireJob j now) tt]
  else t = [].

Lemma runs_advanceNextRun sc j now t :
  hour_zone now → 0 <= abs now → runs (advanceNextRun sc j now) t tt →
  (nextRun (j_CronExpr j) now = Some (zeroTime, false) ∧ t = []) ∨
  ∃ next b err, nextRun (j_CronExpr j) now = Some (next, true) ∧ abs now < abs next ∧
    t = [Call (RandRead 8) b;
         Call (CallSubmit (upsertCmd (EncodeToString b) (set_NextRun next j))) err].
Proof using Type.
  intros Hz H0. unfold advanceNextRun. rewrite runs_bind.
  intros ([next ok] & tr1 & tr2 & H1 & H2 & ->). apply runs_compute in H1 as [Hn ->].
  destruct (nextRun_cases (j_CronExpr j) now Hz H0) as [Hc|(e & r & _ & Hc & _ & _ & Hlt & _)];
    rewrite Hc in Hn; injection Hn as <- <-.
  { left. by destruct H2 as [-> _]. }
  right. simpl negb in H2. cbn iota zeta in H2. rewrite runs_bind in H2.
  destruct H2 as (req & tr3 & tr4 & H3 & H4 & ->). apply runs_newReqID in H3 as (b & -> & ->).
  rewrite runs_bind in H4. destruct H4 as (err & tr5 & tr6 & H5 & [-> _] & ->).
  apply runs_perform in H5 as ->. by exists r, b, err.
Qed.

(** C37. Catching up reads the clock and the jobs once and then handles exactly the jobs
    whose [NextRun] is set and strictly in the past, in the order of the list: "skip"
    advances [NextRun] past now without running, "run_once" starts one run, and any other
    policy does nothing.  This is about a catch-up that ends, and what is done with the
    jobs is stated for a clock in a location a whole number of hours from UTC
    ([hour_zone now]) that is not before the year 1 ([0 <= abs now]): in zones half an
    hour off the "skip" branch may run for ever ([Next_half_hour_diverges]). *)
Theorem ReconcileMissedJobs_policy sc tr :
  runs (ReconcileMissedJobs sc) tr tt →
  ∃ now js tr', tr = Call Now now :: Call CallListJobs js :: tr' ∧
    (hour_zone now → 0 <= abs now →
     ∃ trs, Forall2 (catchup_calls now) (List.filter (missed now) js) trs ∧ tr' = mjoin trs).
Proof using Type.
  intros (now & tr1 & -> & js & tr2 & -> & H). exists now, js, tr2. split; [done|]. intros Hz H0.
  apply runs_for_each in H as (trs & H & ->).
  assert (Hg : ∃ trs', Forall2 (catchup_calls now) (List.filter (missed now) js) trs' ∧
                       mjoin trs = mjoin trs').
  { induction H as [|j t js trs Ht _ (trs' & IH1 & IH2)]; [by exists []|].
    simpl. unfold missed at 1. revert Ht.
    destruct (IsZero (j_NextRun j) || _); simpl negb; cbn iota; intros Ht.
    - destruct Ht as [-> _]. by exists trs'.
    - exists (t :: trs'). split; [|simpl; by rewrite IH2]. constructor; [|done].
      revert Ht. unfold catchup_calls. destruct (String.eqb (j_CatchupPolicy j) "skip").
      { intros Ht. by eapply runs_advanceNextRun. }
      destruct (String.eqb (j_CatchupPolicy j) "run_once"); [|by intros [-> _]].
      by intros ->%runs_perform. }
  destruct Hg as (trs' & ? & ->). by exists trs'.
Qed.

(** The tick loop and the catch-up do not know of each other: a job with policy
    "run_once" whose [NextRun] is past is started by both when both read the store
    before the first run's upsert is committed. *)
Theorem tick_and_catchup_both_fire sc sc' now now' js j :
  j ∈ js → IsZero (j_NextRun j) = false → j_CatchupPolicy j = "run_once"%string →
  abs (j_NextRun j) < abs now → abs (j_NextRun j) < abs now' →
  (∀ tr, runs (tick sc now) (Call CallListJobs js :: tr) tt → Call (GoFireJob j now) tt ∈ tr) ∧
  (∀ tr, runs (ReconcileMissedJobs sc') (Call Now now' :: Call CallListJobs js :: tr) tt →
         Call (GoFireJob j now') tt ∈ tr).
Proof using Type.
  intros Hj Hz Hp Hb Hb'. split.
  - intros tr (js' & Eq)%runs_tick. apply call_cons_inv in Eq as [Eq ->].
    apply (f_equal jobs_answer) in Eq. simpl in Eq. subst js'.
    apply list_elem_of_fmap. exists j. split; [done|]. apply list_elem_of_In, filter_In.
    split; [by apply list_elem_of_In|]. unfold due, After. rewrite Hz.
    destruct (Z.ltb_spec (abs now) (abs (j_NextRun j))); [lia|done].
  - intros tr (now2 & tr1 & Eq & js2 & tr2 & E2 & H). apply call_cons_inv in Eq as [Eq <-].
    apply (f_equal time_answer) in Eq. simpl in Eq. subst now2. apply call_cons_inv in E2 as [E2 <-].
    apply (f_equal jobs_answer) in E2. simpl in E2. subst js2.
    apply runs_for_each in H as (trs & H & ->).
    apply list_elem_of_lookup in Hj as [k Hk].
    destruct (Forall2_lookup_l _ _ _ _ _ H Hk) as (t & Ht & Hr).
    apply list_elem_of_join. exists t. split; [|by eapply list_elem_of_lookup_2].
    unfold Before in Hr. rewrite Hz, Hp in Hr.
    destruct (Z.ltb_spec (abs (j_NextRun j)) (abs now')); [|lia]. simpl in Hr.
    destruct Hr as ([] & tr' & -> & -> & _). by left.
Qed.

(** ** The store under the scheduler's commands *)
Context {gobState : Gob storeState}.

(** Every job is stored under its own id. *)
Definition ids_ok (s : Store) : Prop := ∀ id j, jobs s !! id = Some j → j_ID j = id.

Lemma applyCmd_ids s c : ids_ok s → ids_ok (applyCmd s c).
Proof using Type.
  intros Hs id j. rewrite applyCmd_jobs.
  destruct (upserts id c) eqn:Eu.
  { apply bool_decide_eq_true in Eu as [_ ?]. by intros [= <-]. }
  destruct (deletes id c); [done|]. destruct (jobs s !! id) as [j0|] eqn:Ej; [|done].
  simpl. intros [= <-]. destruct (record_of id c); simpl; by apply Hs.
Qed.

(** Once the upsert of a fired job is committed, no tick before its next
    activation fires the job again. *)
Theorem no_second_fire s j next req i sc now tr js :
  ids_ok s → js ≡ₚ (map_to_list (jobs (apply s (upsertCmd req (set_NextRun next j)) i).1.1)).*2 →
  abs now < abs next → runs (tick sc now) (Call CallListJobs js :: tr) tt →
  ∀ j' t, j_ID j' = j_ID j → Call (GoFireJob j' t) tt ∉ tr.
Proof using Type.
  intros Hids Hjs Hlt (js' & Eq)%runs_tick j' t Hid Hin. apply call_cons_inv in Eq as [Eq ->].
  apply (f_equal jobs_answer) in Eq. simpl in Eq. subst js'.
  apply list_elem_of_fmap in Hin as (j2 & Ej & Hin). apply (f_equal fired) in Ej. simpl in Ej.
  injection Ej as <- ->. apply list_elem_of_In, filter_In in Hin as [Hin Hdue].
  apply list_elem_of_In in Hin. rewrite Hjs in Hin.
  apply list_elem_of_fmap in Hin as ([id j3] & -> & Hin). apply elem_of_map_to_list in Hin.
  set (c := upsertCmd req (set_NextRun next j)) in *.
  assert (Hsm : jobs (apply s c i).1.1 = jobs (applyCmd s c)).
  { pose proof (apply_sm s c i) as H. unfold sm in H. by injection H. }
  rewrite Hsm in Hin. pose proof (applyCmd_ids s c Hids _ _ Hin) as Hid3. simpl in Hid, Hdue.
  rewrite applyCmd_jobs in Hin. unfold upserts in Hin.
  rewrite bool_decide_true in Hin by (split; [done|simpl; congruence]).
  injection Hin as <-. unfold due, After in Hdue. simpl in Hdue.
  destruct (Z.ltb_spec (abs now) (abs next)); [|lia]. by rewrite orb_true_r in Hdue.
Qed.

(** A run started from an old copy of a job brings the job back: after a delete
    committed in between, the upsert of [fireJob] stores it again. *)
Theorem stale_upsert_resurrects sc j now tr b err rest c s i i' req :
  hour_zone now → 0 <= abs now →
  runs (fireJob sc j now) tr tt → tr = Call (RandRead 8) b :: Call (CallSubmit c) err :: rest →
  let deleted := (apply s (mkCmd CmdDelete req zeroJob (j_ID j) zeroRun) i).1.1 in
  (GetJob deleted (j_ID j)).2 = false ∧
  ∃ next, GetJob (apply deleted c i').1.1 (j_ID j) = (set_NextRun next j, true).
Proof using Type.
  intros Hz H0 Hrun ->. cbv zeta.
  destruct (runs_fireJob sc j now _ Hz H0 Hrun)
    as [[_ Hn]|(next & b' & err' & rest' & _ & _ & Heq & _)]; [done|].
  apply call_cons_inv in Heq as [_ Heq]. apply call_cons_inv in Heq as [Heq _].
  apply (f_equal submitted) in Heq. simpl in Heq. injection Heq as ->.
  assert (Hjobs : ∀ s c i, jobs (apply s c i).1.1 = jobs (applyCmd s c)).
  { intros s0 c i0. pose proof (apply_sm s0 c i0) as H. unfold sm in H. by injection H. }
  unfold GetJob. rewrite !Hjobs, !applyCmd_jobs. unfold upserts, deletes. split.
  - by rewrite bool_decide_false, bool_decide_true by (done || by intros [[=] _]).
  - exists next. by rewrite bool_decide_true by done.
Qed.

End Theorems.

(** ** A scheduler at work *)
Module SchedulerExamples.
Local Open Scope string_scope.
Local Open Scope Z_scope.

Definition sc0 : Scheduler raftPeer NoopExecutor := mkScheduler TheRaft TheStore mkNoop.
(** Day 1000 at 10:30:07. *)
Definition t0 : Time := mkTime (1000 * DayNs + 10 * Hour + 30 * Minute + 7 * Second) 0.
Definition job (id policy : string) (next : Time) : Job :=
  mkJob id id "*/5 * * * *" "shell" "true" policy next zeroTime EmptyString zeroTime.
Definition past : Time := mkTime (1000 * DayNs + 10 * Hour) 0.
Definition j1 : Job := job "a" "run_once" past.
Definition j2 : Job := job "b" "skip" past.
Definition j3 : Job := job "c" "skip" (mkTime (1000 * DayNs + 11 * Hour) 0).

(** A leader whose store holds the three jobs and commits everything. *)
Definition answers (X : Type) (e : eff X) : X :=
  match e with
  | Now => t0
  | RandRead n => repeat "000"%char n
  | CallGetState => (4, true)
  | CallSubmit _ => None
  | CallGetJob _ => (j1, true)
  | CallListJobs => [j1; j2; j3]
  | CallGetRuns _ => []
  | GoFireJob _ _ => tt
  | Shell _ _ => mkShell EmptyString None false
  | Post _ _ _ => inr 200
  | LogPrintf _ => tt
  end.

Lemma tick_fires_due_witness :
  ∃ tr, runs (tick sc0 t0) tr tt ∧
        ∃ js, tr = Call CallListJobs js :: fire_calls t0 (List.filter (due t0) js).
Proof.
  destruct (drive answers (tick sc0 t0)) as [[tr []]|] eqn:E; [|vm_compute in E; discriminate].
  exists tr. split; [by apply drive_runs in E|]. apply (tick_fires_due sc0 t0 tr).
  by apply drive_runs in E.
Defined.

Lemma tickLoop_leader_only_witness :
  ∃ tr go, runs (tickLoop sc0 (Tick t0)) tr go ∧ go = true.
Proof.
  destruct (drive answers (tickLoop sc0 (Tick t0))) as [[tr go]|] eqn:E;
    [|vm_compute in E; discriminate].
  apply drive_runs in E. exists tr, go. split; [done|]. by apply (tickLoop_leader_only sc0 t0 tr go).
Defined.

Lemma fireJob_advances_then_runs_witness :
  ∃ next b err rest, abs t0 < abs next ∧
    runs (fireJob sc0 j1 t0)
      (Call (RandRead 8) b ::
       Call (CallSubmit (upsertCmd (EncodeToString b) (set_NextRun next j1))) err :: rest) tt.
Proof.
  destruct (drive answers (fireJob sc0 j1 t0)) as [[tr []]|] eqn:E; [|vm_compute in E; discriminate].
  destruct (fireJob_advances_then_runs sc0 j1 t0 tr) as [[Hn _]|(next & b & err & rest & _ & Hlt & -> & _)];
    [done|done|by apply drive_runs in E|vm_compute in Hn; discriminate|].
  exists next, b, err, rest. split; [done|by apply drive_runs in E].
Defined.

Lemma fireJob_total_witness : total (fireJob sc0 j1 t0).
Proof. apply (fireJob_total sc0 j1 t0); [done|done|]. by intros j ? ?. Defined.

Lemma FireNow_effect_witness :
  ∃ tr err, runs (FireNow sc0 "a") tr err ∧
    ∃ j ok, (ok = false ∧ tr = [Call (CallGetJob "a") (j, false)] ∧ err = Some (JobNotFound "a")) ∨
      ∃ now, ok = true ∧ err = None ∧
        tr = [Call (CallGetJob "a") (j, true); Call Now now; Call (GoFireJob j now) tt].
Proof.
  destruct (drive answers (FireNow sc0 "a")) as [[tr err]|] eqn:E; [|vm_compute in E; discriminate].
  apply drive_runs in E. exists tr, err. split; [done|]. by apply (FireNow_effect sc0 "a" tr err).
Defined.

Lemma ReconcileMissedJobs_policy_witness :
  ∃ tr now js tr', runs (ReconcileMissedJobs sc0) tr tt ∧
    tr = Call Now now :: Call CallListJobs js :: tr' ∧
    (hour_zone now → 0 <= abs now →
     ∃ trs, Forall2 (catchup_calls now) (List.filter (missed now) js) trs ∧ tr' = mjoin trs).
Proof.
  destruct (drive answers (ReconcileMissedJobs sc0)) as [[tr []]|] eqn:E;
    [|vm_compute in E; discriminate].
  apply drive_runs in E.
  destruct (ReconcileMissedJobs_policy sc0 tr) as (now & js & tr' & Htr & H); [done|].
  exists tr, now, js, tr'. by split.
Defined.

Lemma tick_and_catchup_both_fire_witness :
  j_CatchupPolicy j1 = "run_once" ∧
  ∀ tr, runs (tick sc0 t0) (Call CallListJobs [j1; j2; j3] :: tr) tt → Call (GoFireJob j1 t0) tt ∈ tr.
Proof.
  split; [reflexivity|].
  apply (tick_and_catchup_both_fire sc0 sc0 t0 t0 [j1; j2; j3] j1);
    [by left|done|done|vm_compute; reflexivity|vm_compute; reflexivity].
Defined.

Definition next1 : Time := mkTime (1000 * DayNs + 10 * Hour + 35 * Minute) 0.
Definition store1 : Store := (apply (Store.Make true None) (upsertCmd "q" (set_NextRun next1 j1)) 1).1.1.

Lemma no_second_fire_witness :
  jobs store1 !! "a" = Some (set_NextRun next1 j1) ∧
  ∀ tr, runs (tick sc0 t0) (Call CallListJobs [set_NextRun next1 j1] :: tr) tt →
        Call (GoFireJob j1 t0) tt ∉ tr.
Proof.
  split; [vm_compute; reflexivity|]. intros tr Htr.
  apply (no_second_fire (Store.Make true None) j1 next1 "q" 1 sc0 t0 tr [set_NextRun next1 j1]);
    [intros id j H; exfalso; by apply (lookup_empty_Some id j)|vm_compute; reflexivity|vm_compute; reflexivity
    |exact Htr|reflexivity].
Defined.

Lemma stale_upsert_resurrects_witness :
  ∃ c next,
    GetJob (apply (apply store1 (mkCmd CmdDelete "q2" zeroJob (j_ID j1) zeroRun) 2).1.1 c 3).1.1
      (j_ID j1) = (set_NextRun next j1, true).
Proof.
  destruct (drive answers (fireJob sc0 j1 t0)) as [[tr []]|] eqn:E; [|vm_compute in E; discriminate].
  apply drive_runs in E.
  destruct (runs_fireJob sc0 j1 t0 tr) as [[Hn _]|(next & b & err & rest & _ & Hlt & Htr & _)];
    [reflexivity|vm_compute; discriminate|exact E|vm_compute in Hn; discriminate|].
  destruct (stale_upsert_resurrects sc0 j1 t0 tr b err rest
              (upsertCmd (EncodeToString b) (set_NextRun next j1)) store1 2 3 "q2")
    as [_ (next' & H)]; [reflexivity|vm_compute; discriminate|exact E|exact Htr|].
  eexists _, next'. exact H.
Defined.

End SchedulerExamples.
