(* ===== verification/Executor.v ===== *)
(** * internal/scheduler/executor.go: running a job

    The three executors and the dispatcher as programs of Effects.v.  The shell,
    the HTTP client and the clock are calls; what the program relies on is in
    their answers' types ([shell_outcome], a status code or an error text). *)
From Stdlib Require Import ZArith Lia String Ascii.
From stdpp Require Import base tactics list strings numbers option gmap.
From S2P Require Import Prelude.
From S2P Require Import GoTime.
From S2P Require Import GoStrings.
From S2P Require Import Store.
From S2P Require Import Effects.

Local Open Scope string_scope.
Local Open Scope Z_scope.

(** ** Shell commands *)
Definition defaultShellTimeout : Z := 10 * Minute.

Record ShellExecutor := mkShellExecutor { Timeout : Z }.

Definition newline : string := String "010"%char EmptyString.

#[export] Instance Shell_Run : Executor ShellExecutor := λ e j,
  let timeout := if Timeout e =? 0 then defaultShellTimeout else Timeout e in
  started ← perform Now;
  res ← perform (Shell timeout (j_Payload j));
  finished ← perform Now;
  match sh_err res with
  | None => mret (mkRun (j_ID j) started finished 0 (sh_out res) "ok")
  | Some err =>
      let output := if sh_deadline res then sh_out res ++ newline ++ "[timeout]" else sh_out res in
      let code := match err with ExitError c => c | OtherError => 0 end in
      mret (mkRun (j_ID j) started finished code output "error")
  end.

(** ** HTTP requests *)
Record HTTPExecutor := mkHTTPExecutor { client : option Client }.

#[export] Instance HTTP_Run : Executor HTTPExecutor := λ e j,
  let cl := match client e with Some c => c | None => 30 * Second end in
  started ← perform Now;
  resp ← perform (Post cl (j_Payload j) (mkEnvelope (j_ID j) (j_Name j) started));
  finished ← perform Now;
  match resp with
  | inl err => mret (mkRun (j_ID j) started finished 0 err "error")
  | inr code =>
      if (200 <=? code) && (code <? 300)
      then mret (mkRun (j_ID j) started finished code EmptyString "ok")
      else mret (mkRun (j_ID j) started finished code ("HTTP " ++ Itoa code) "error")
  end.

(** ** Kafka topics *)
Record KafkaExecutor := mkKafkaExecutor { Brokers : list string }.

#[export] Instance Kafka_Run : Executor KafkaExecutor := λ e j,
  started ← perform Now;
  match SplitN2 (j_Payload j) ":" with
  | [topic; message] =>
      match Brokers e with
      | [] =>
          _ ← perform (LogPrintf ("[kafka] no brokers configured — skipping publish (topic=" ++
                                  topic ++ " msg=" ++ message ++ ")"));
          finished ← perform Now;
          mret (mkRun (j_ID j) started finished 0 ("skipped: no brokers (topic=" ++ topic ++ ")") "ok")
      | _ =>
          finished ← perform Now;
          mret (mkRun (j_ID j) started finished 0 "kafka executor not yet implemented" "error")
      end
  | _ =>
      finished ← perform Now;
      mret (mkRun (j_ID j) started finished 0
        ("kafka payload must be " ++ String "034"%char "topic:message" ++ String "034"%char EmptyString)
        "error")
  end.

(** ** The dispatcher *)
Inductive anExecutor :=
| AShell (e : ShellExecutor)
| AnHTTP (e : HTTPExecutor)
| AKafka (e : KafkaExecutor).

#[export] Instance any_Run : Executor anExecutor := λ e j,
  match e with AShell e => Run e j | AnHTTP e => Run e j | AKafka e => Run e j end.

Record Dispatcher := mkDispatcher { m : gmap string anExecutor }.

Definition NewDispatcher : Dispatcher :=
  mkDispatcher (<["shell" := AShell (mkShellExecutor 0)]>
               (<["http" := AnHTTP (mkHTTPExecutor None)]>
               (<["kafka" := AKafka (mkKafkaExecutor [])]> ∅))).

#[export] Instance Dispatcher_Run : Executor Dispatcher := λ d j,
  match m d !! j_Executor j with
  | None =>
      started ← perform Now;
      finished ← perform Now;
      mret (mkRun (j_ID j) started finished 0 ("unknown executor type: " ++ j_Executor j) "error")
  | Some ex => Run ex j
  end.

(** ** Theorems *)

(** What one run calls apart from the clock and the log. *)
Definition outside (c : call) : bool :=
  match c with
  | @Call X e x => match e with Now | LogPrintf _ => false | _ => true end
  end.

Lemma NewDispatcher_lookup name :
  m NewDispatcher !! name =
  if String.eqb name "shell" then Some (AShell (mkShellExecutor 0))
  else if String.eqb name "http" then Some (AnHTTP (mkHTTPExecutor None))
  else if String.eqb name "kafka" then Some (AKafka (mkKafkaExecutor [])) else None.
Proof.
  unfold NewDispatcher. simpl.
  destruct (String.eqb_spec name "shell") as [->|H1]; [by rewrite lookup_insert_eq|].
  rewrite lookup_insert_ne by done.
  destruct (String.eqb_spec name "http") as [->|H2]; [by rewrite lookup_insert_eq|].
  rewrite lookup_insert_ne by done.
  destruct (String.eqb_spec name "kafka") as [->|H3]; [by rewrite lookup_insert_eq|].
  rewrite lookup_insert_ne by done. apply lookup_empty.
Qed.

(** The record of a run of job [j], started and finished at clock readings. *)
Definition record_for (j : Job) (t t' : Time) (rec : RunRecord) : Prop :=
  r_JobID rec = j_ID j ∧ r_StartedAt rec = t ∧ r_FinishedAt rec = t' ∧
  (r_Status rec = "ok" ∨ r_Status rec = "error").

Lemma Shell_run_spec e j tr rec :
  runs (Run (e : ShellExecutor) j) tr rec →
  ∃ t res t',
    tr = [Call Now t;
          Call (Shell (if Timeout e =? 0 then 600 * Second else Timeout e) (j_Payload j)) res;
          Call Now t'] ∧ record_for j t t' rec ∧ (r_Status rec = "ok" ↔ sh_err res = None).
Proof.
  intros (t & ? & -> & res & ? & -> & t' & ? & -> & H). exists t, res, t'.
  simpl in H. destruct (sh_err res) as [err|] eqn:Ee; destruct H as [-> ->]; simpl;
    (split; [done|split; [split_and!; try done; (by left) || (by right)|by split]]).
Qed.

Lemma HTTP_run_spec e j tr rec :
  runs (Run (e : HTTPExecutor) j) tr rec →
  ∃ t res t',
    tr = [Call Now t; Call (Post (default (30 * Second) (client e)) (j_Payload j)
                             (mkEnvelope (j_ID j) (j_Name j) t)) res; Call Now t'] ∧
    record_for j t t' rec ∧ (r_Status rec = "ok" ↔ ∃ code, res = inr code ∧ 200 <= code < 300).
Proof.
  intros (t & ? & -> & res & ? & -> & t' & ? & -> & H). exists t, res, t'.
  simpl in H. destruct res as [err|code].
  - destruct H as [-> ->]. split; [by destruct (client e)|]. split; [split_and!; try done; by right|].
    simpl. split; [done|]. by intros (? & [=] & _).
  - destruct ((200 <=? code) && (code <? 300)) eqn:Ec; destruct H as [-> ->].
    + split; [by destruct (client e)|]. split; [split_and!; try done; by left|]. simpl.
      apply andb_true_iff in Ec as [H1%Z.leb_le H2%Z.ltb_lt]. split; [|done]. intros _.
      by exists code.
    + split; [by destruct (client e)|]. split; [split_and!; try done; by right|]. simpl.
      split; [done|]. intros (c & [= <-] & H1 & H2). apply andb_false_iff in Ec.
      rewrite Z.leb_gt, Z.ltb_ge in Ec. lia.
Qed.

Lemma Kafka_run_spec e j tr rec :
  runs (Run (e : KafkaExecutor) j) tr rec →
  List.filter outside tr = [] ∧ (∃ t t', record_for j t t' rec) ∧
  (r_Status rec = "ok" ↔ Brokers e = [] ∧ ∃ topic message, SplitN2 (j_Payload j) ":" = [topic; message]).
Proof.
  intros (t & tr1 & -> & H). simpl in H.
  destruct (SplitN2 (j_Payload j) ":") as [|topic [|message [|]]] eqn:Es.
  2: { destruct H as (t' & ? & -> & -> & ->). simpl. split; [done|].
       split; [exists t, t'; split_and!; try done; by right|]. split; [done|]. by intros (_ & ? & ? & [=]). }
  1,3: destruct H as (t' & ? & -> & -> & ->); simpl; (split; [done|]);
       (split; [exists t, t'; split_and!; try done; by right|]); (split; [done|]);
       by intros (_ & ? & ? & [=]).
  destruct (Brokers e).
  - destruct H as ([] & ? & -> & t' & ? & -> & -> & ->). simpl. split; [done|].
    split; [exists t, t'; split_and!; try done; by left|]. split; [|done]. intros _.
    split; [done|]. by exists topic, message.
  - destruct H as (t' & ? & -> & -> & ->). simpl. split; [done|].
    split; [exists t, t'; split_and!; try done; by right|]. split; [done|]. by intros [[=] _].
Qed.

(** Whatever its executor field, running a job through the dispatcher gives a
    record for that job with status "ok" or "error", makes at most one call to the
    outside, and makes none at all when the executor is unknown, which is an
    error. *)
Theorem Dispatcher_one_attempt j tr rec :
  runs (Run NewDispatcher j) tr rec →
  (∃ t t', record_for j t t' rec) ∧ (length (List.filter outside tr) <= 1)%nat ∧
  (m NewDispatcher !! j_Executor j = None →
   List.filter outside tr = [] ∧ r_Status rec = "error").
Proof.
  intros H. unfold Run, Dispatcher_Run in H. rewrite NewDispatcher_lookup in *.
  destruct (String.eqb (j_Executor j) "shell"); [|destruct (String.eqb (j_Executor j) "http");
    [|destruct (String.eqb (j_Executor j) "kafka")]].
  - apply Shell_run_spec in H as (t & res & t' & -> & Hr & _). split; [by exists t, t'|].
    by split; [simpl; lia|].
  - apply HTTP_run_spec in H as (t & res & t' & -> & Hr & _). split; [by exists t, t'|].
    by split; [simpl; lia|].
  - apply Kafka_run_spec in H as (-> & Hr & _). split; [done|]. by split; [simpl; lia|].
  - destruct H as (t & ? & -> & t' & ? & -> & -> & ->). simpl.
    split; [exists t, t'; split_and!; try done; by right|]. by split; [lia|].
Qed.

(** A shell job runs its payload once, with the default timeout of ten minutes
    when none is set, and is "ok" exactly when the command did not fail; an HTTP
    job posts once to its payload, with a 30 second client by default, and is "ok"
    exactly on a 2xx status; a Kafka job never leaves the process and is "ok"
    exactly when its payload has a topic and there are no brokers. *)
Theorem executors_status (es : ShellExecutor) (eh : HTTPExecutor) (ek : KafkaExecutor) j tr rec :
  (runs (Run es j) tr rec → ∃ t res t',
     tr = [Call Now t;
           Call (Shell (if Timeout es =? 0 then 600 * Second else Timeout es) (j_Payload j)) res;
           Call Now t'] ∧ (r_Status rec = "ok" ↔ sh_err res = None)) ∧
  (runs (Run eh j) tr rec → ∃ t res t',
     tr = [Call Now t; Call (Post (default (30 * Second) (client eh)) (j_Payload j)
                              (mkEnvelope (j_ID j) (j_Name j) t)) res; Call Now t'] ∧
     (r_Status rec = "ok" ↔ ∃ code, res = inr code ∧ 200 <= code < 300)) ∧
  (runs (Run ek j) tr rec → List.filter outside tr = [] ∧
     (r_Status rec = "ok" ↔ Brokers ek = [] ∧
        ∃ topic message, SplitN2 (j_Payload j) ":" = [topic; message])).
Proof.
  split_and!.
  - intros (t & res & t' & ? & _ & ?)%Shell_run_spec. by exists t, res, t'.
  - intros (t & res & t' & ? & _ & ?)%HTTP_run_spec. by exists t, res, t'.
  - by intros (? & _ & ?)%Kafka_run_spec.
Qed.

(** ** A job at work *)
Module ExecutorExamples.

Definition job (executor payload : string) : Job :=
  mkJob "a" "nightly" "0 2 * * *" executor payload "skip" zeroTime zeroTime EmptyString zeroTime.
Definition t0 : Time := mkTime 5000 0.

(** A command that exits with status 3, a server that answers 204. *)
Definition answers (X : Type) (e : eff X) : X :=
  match e with
  | Now => t0
  | RandRead n => repeat "000"%char n
  | CallGetState => (4, true)
  | CallSubmit _ => None
  | CallGetJob _ => (zeroJob, false)
  | CallListJobs => []
  | CallGetRuns _ => []
  | GoFireJob _ _ => tt
  | Shell _ _ => mkShell "out" (Some (ExitError 3)) true
  | Post _ _ _ => inr 204
  | LogPrintf _ => tt
  end.

Lemma Dispatcher_one_attempt_witness :
  ∃ tr rec, runs (Run NewDispatcher (job "cobol" "x")) tr rec ∧ r_Status rec = "error" ∧
    List.filter outside tr = [].
Proof.
  destruct (drive answers (Run NewDispatcher (job "cobol" "x"))) as [[tr rec]|] eqn:E;
    [|vm_compute in E; discriminate].
  apply drive_runs in E. destruct (Dispatcher_one_attempt (job "cobol" "x") tr rec E) as (_ & _ & H).
  exists tr, rec. destruct H as [H1 H2]; [vm_compute; reflexivity|]. by split_and!.
Defined.

Lemma executors_status_witness :
  ∃ tr rec, runs (Run (mkShellExecutor 0) (job "shell" "exit 3")) tr rec ∧ ∃ t res t',
    tr = [Call Now t; Call (Shell (600 * Second) "exit 3") res; Call Now t'] ∧
    (r_Status rec = "ok" ↔ sh_err res = None).
Proof.
  destruct (drive answers (Run (mkShellExecutor 0) (job "shell" "exit 3"))) as [[tr rec]|] eqn:E;
    [|vm_compute in E; discriminate].
  apply drive_runs in E. exists tr, rec. split; [exact E|].
  exact (proj1 (executors_status (mkShellExecutor 0) (mkHTTPExecutor None) (mkKafkaExecutor [])
                  (job "shell" "exit 3") tr rec) E).
Defined.

End ExecutorExamples.
