(* ===== verification/Api.v ===== *)
(** * internal/api: the REST handlers

    handlers.go, server.go and middleware.go as programs of Effects.v over the interfaces
    [jobStore], [jobScheduler] and [leaderChecker].  [net/http] and
    [encoding/json] stay outside: a request is its method, the segments of its
    path and its decoded body (or the decoder's error), a response its status
    and the value that is encoded. *)
From Stdlib Require Import ZArith Lia String Ascii.
From stdpp Require Import base tactics list strings numbers option gmap.
From S2P Require Import Prelude.
From S2P Require Import GoTime.
From S2P Require Import GoStrings.
From S2P Require Import Cron.
From S2P Require Import CronNext.
From S2P Require Import Store.
From S2P Require Import Effects.
From S2P Require Import Scheduler.
From S2P Require Import SchedulerTheorems.

Local Open Scope string_scope.
Local Open Scope Z_scope.

(** ** Requests and responses *)
Record createJobReq := mkCreateJobReq {
  cj_ID : string; cj_Name : string; cj_CronExpr : string; cj_Executor : string;
  cj_Payload : string; cj_CatchupPolicy : string
}.

Record request := mkRequest {
  rq_method : string;
  rq_path : list string;  (* the segments of the cleaned path; a final slash adds an empty one *)
  rq_body : string + createJobReq
}.

(** Error texts, up to the texts of the errors they quote. *)
Inductive message :=
| Text (s : string)
| TextCron (s : string) (e : CronErr)
| TextStore (e : error)
| TextFire (e : fire_error).

Inductive payload :=
| NoBody
| ErrorBody (msg : message)
| JobBody (j : Job)
| JobsBody (js : list Job)
| jobDetail (j : Job) (rs : list RunRecord)
| TriggeredBody (id : string)
| clusterStatusResp (term : Z) (isLeader : bool).

Record response := mkResponse { rs_status : Z; rs_body : payload }.

Definition writeJSON (code : Z) (v : payload) : response := mkResponse code v.
Definition writeError (code : Z) (msg : message) : response := writeJSON code (ErrorBody msg).

Definition StatusOK : Z := 200.
Definition StatusCreated : Z := 201.
Definition StatusAccepted : Z := 202.
Definition StatusNoContent : Z := 204.
Definition StatusBadRequest : Z := 400.
Definition StatusNotFound : Z := 404.
Definition StatusMethodNotAllowed : Z := 405.
Definition StatusConflict : Z := 409.
Definition StatusInternalServerError : Z := 500.

Section Server.
Context {S C L : Type} {stC : jobStore S} {scC : jobScheduler C} {lcC : leaderChecker L}.

Record Server := mkServer { st : S; sc : C; lc : L }.
Implicit Types (s : Server).

(** ** Handlers *)
Definition createJob s (body : string + createJobReq) : prog response :=
  match body with
  | inl err => mret (writeError StatusBadRequest (Text ("invalid JSON: " ++ err)))
  | inr req =>
      match Parse (cj_CronExpr req) with
      | Err err => mret (writeError StatusBadRequest (TextCron "invalid cron_expr: " err))
      | Ok expr =>
          id ← (if String.eqb (cj_ID req) EmptyString then generateID else mret (cj_ID req));
          let policy := if String.eqb (cj_CatchupPolicy req) EmptyString then "skip"
                        else cj_CatchupPolicy req in
          now ← perform Now;
          next ← compute (Next expr now);
          created ← perform Now;
          let job := mkJob id (cj_Name req) (cj_CronExpr req) (cj_Executor req) (cj_Payload req)
                       policy next zeroTime EmptyString created in
          reqID ← generateID;
          err ← js_Submit (st s) (mkCmd CmdUpsert reqID job EmptyString zeroRun);
          match err with
          | Some ErrNotLeader =>
              mret (writeError StatusConflict (Text "not the leader — retry against the leader node"))
          | Some err => mret (writeError StatusInternalServerError (TextStore err))
          | None => mret (writeJSON StatusCreated (JobBody job))
          end
      end
  end.

(** A nil slice and an empty one are the same list. *)
Definition listJobs s : prog response :=
  jobs ← js_ListJobs (st s);
  mret (writeJSON StatusOK (JobsBody jobs)).

Definition getJob s (id : string) : prog response :=
  '(j, ok) ← js_GetJob (st s) id;
  if negb ok then mret (writeError StatusNotFound (Text ("job not found: " ++ id))) else
  runs ← js_GetRuns (st s) id;
  mret (writeJSON StatusOK (jobDetail j runs)).

Definition deleteJob s (id : string) : prog response :=
  '(_, ok) ← js_GetJob (st s) id;
  if negb ok then mret (writeError StatusNotFound (Text ("job not found: " ++ id))) else
  reqID ← generateID;
  err ← js_Submit (st s) (mkCmd CmdDelete reqID zeroJob id zeroRun);
  match err with
  | Some ErrNotLeader => mret (writeError StatusConflict (Text "not the leader"))
  | Some err => mret (writeError StatusInternalServerError (TextStore err))
  | None => mret (mkResponse StatusNoContent NoBody)
  end.

Definition triggerJob s (id : string) : prog response :=
  err ← FireNow (sc s) id;
  match err with
  | Some err => mret (writeError StatusNotFound (TextFire err))
  | None => mret (writeJSON StatusAccepted (TriggeredBody id))
  end.

Definition clusterStatus s : prog response :=
  '(term, isLeader) ← GetState (lc s);
  mret (writeJSON StatusOK (clusterStatusResp term isLeader)).

(** ** Routes: a GET pattern also matches HEAD, [{id}] a segment that is not empty *)
Definition is_get (m : string) : bool := String.eqb m "GET" || String.eqb m "HEAD".

Definition mux s (r : request) : prog response :=
  let m := rq_method r in
  let not_allowed := mret (mkResponse StatusMethodNotAllowed NoBody) in
  let not_found := mret (mkResponse StatusNotFound NoBody) in
  match rq_path r with
  | [a] =>
      if String.eqb a "jobs" then
        if String.eqb m "POST" then createJob s (rq_body r)
        else if is_get m then listJobs s else not_allowed
      else if String.eqb a "cluster" then
        if is_get m then clusterStatus s else not_allowed
      else not_found
  | [a; id] =>
      if String.eqb a "jobs" && nonempty id then
        if is_get m then getJob s id
        else if String.eqb m "DELETE" then deleteJob s id else not_allowed
      else not_found
  | [a; id; b] =>
      if String.eqb a "jobs" && String.eqb b "trigger" then
        if String.eqb m "POST" then triggerJob s id else not_allowed
      else not_found
  | _ => not_found
  end.

(** ** Logging (middleware.go) *)
Definition log_line (r : request) (elapsed : Z) : string :=
  rq_method r ++ " /" ++ str_join "/" (rq_path r) ++ " " ++ Duration_String elapsed.

Definition logging (next : request → prog response) (r : request) : prog response :=
  start ← perform Now;
  resp ← next r;
  now ← perform Now;
  _ ← perform (LogPrintf (log_line r (Sub now start)));
  mret resp.

(** The handler of the server; its address and timeouts are net/http's business. *)
Definition New s (r : request) : prog response := logging (mux s) r.

End Server.
Arguments Server : clear implicits.
Arguments mkServer {S C L}.

(** ** Theorems, for the server [main] builds *)
Section Theorems.
Context {E : Type} {execC : Executor E}.
Abbreviation server := (Server storeRef (Scheduler raftPeer E) raftPeer).
Implicit Types (s : server) (r : request).

(** The response to a [Submit] error. *)
Definition submit_status (ok : Z) (err : option error) : Z :=
  match err with
  | None => ok
  | Some ErrNotLeader => StatusConflict
  | Some _ => StatusInternalServerError
  end.

(** The job a creation request stores. *)
Definition requested (req : createJobReq) (id : string) (next created : Time) : Job :=
  mkJob id (cj_Name req) (cj_CronExpr req) (cj_Executor req) (cj_Payload req)
    (if String.eqb (cj_CatchupPolicy req) EmptyString then "skip" else cj_CatchupPolicy req)
    next zeroTime EmptyString created.

(** The commands a trace submits. *)
Definition submits (tr : list call) : list Cmd := omap submitted tr.

Lemma runs_generateID tr id :
  runs generateID tr id ↔ ∃ b, id = EncodeToString b ∧ tr = [Call (RandRead 8) b].
Proof using Type.
  unfold generateID. simpl. split.
  - intros (b & tr' & -> & -> & ->). by exists b.
  - intros (b & -> & ->). by exists b, [].
Qed.

Lemma runs_createJob s body tr resp :
  runs (createJob s body) tr resp →
  (tr = [] ∧ rs_status resp = 400 ∧ match body with
     | inl _ => True
     | inr req => ∃ err, Parse (cj_CronExpr req) = Err err
     end) ∨
  ∃ req expr id now next created reqID err, body = inr req ∧ Parse (cj_CronExpr req) = Ok expr ∧
    (cj_ID req ≠ EmptyString → id = cj_ID req) ∧
    (cj_ID req = EmptyString → ∃ b, id = EncodeToString b) ∧
    Next expr now = Some next ∧ Call Now now ∈ tr ∧
    submits tr = [mkCmd CmdUpsert reqID (requested req id next created) EmptyString zeroRun] ∧
    rs_status resp = submit_status 201 err ∧
    (err = None → rs_body resp = JobBody (requested req id next created)).
Proof using Type.
  unfold createJob. destruct body as [jerr|req]; [by intros [-> ->]; left|].
  destruct (Parse (cj_CronExpr req)) as [expr|perr] eqn:Ep.
  2:{ intros [-> ->]. left. split_and!; [done|done|by exists perr]. }
  intros H. run_bind H as id tr1 tr2 H1. right.
  run_call H as now tr3. run_bind H as next tr4 tr5 H4. apply runs_compute in H4 as [Hn ->].
  cbn [app]. run_call H as created tr6. run_bind H as reqID tr7 tr8 H7.
  apply runs_generateID in H7 as (b & -> & ->). cbn [app]. cbn zeta in H.
  run_call H as err tr9.
  exists req, expr, id, now, next, created, (EncodeToString b), err.
  assert (Hid : (cj_ID req ≠ EmptyString → id = cj_ID req) ∧
    (cj_ID req = EmptyString → ∃ b, id = EncodeToString b) ∧ submits tr1 = []).
  { destruct (String.eqb_spec (cj_ID req) EmptyString) as [He|He].
    - apply runs_generateID in H1 as (b' & -> & ->). split_and!; [done| |done]. by exists b'.
    - destruct H1 as [-> ->]. by split_and!. }
  destruct Hid as (Hid1 & Hid2 & Hs).
  assert (H9' : tr9 = [] ∧ rs_status resp = submit_status 201 err ∧
                (err = None → rs_body resp = JobBody (requested req id next created))).
  { destruct err as [[|]|]; destruct H as [-> ->]; by split_and!. }
  destruct H9' as (-> & Hst & Hb). split_and!; try done.
  - apply elem_of_app. right. by left.
  - unfold submits. rewrite omap_app. fold (submits tr1). by rewrite Hs.
Qed.

(** C38. Creating a job, whenever it answers (in a location half an hour off UTC hours [Next]
    may run for ever, and [createJob] then submits and answers nothing): bad JSON or a bad cron expression is refused with 400 and
    nothing is called; otherwise exactly one command is submitted, the upsert of
    the requested job, with its id or a fresh one, the "skip" policy by default,
    and the next activation of its expression; the answer is 201 with the job, 409
    when this node is not the leader, 500 on a timeout. *)
Theorem createJob_effect s body tr resp :
  runs (createJob s body) tr resp →
  (tr = [] ∧ rs_status resp = 400 ∧ match body with
     | inl _ => True
     | inr req => ∃ err, Parse (cj_CronExpr req) = Err err
     end) ∨
  ∃ req expr id now next created reqID err, body = inr req ∧ Parse (cj_CronExpr req) = Ok expr ∧
    (cj_ID req ≠ EmptyString → id = cj_ID req) ∧
    (cj_ID req = EmptyString → ∃ b, id = EncodeToString b) ∧
    Next expr now = Some next ∧ Call Now now ∈ tr ∧
    submits tr = [mkCmd CmdUpsert reqID (requested req id next created) EmptyString zeroRun] ∧
    rs_status resp = submit_status 201 err ∧
    (err = None → rs_body resp = JobBody (requested req id next created)).
Proof using Type. apply runs_createJob. Qed.

(** A created job is never due when it is created: its [NextRun] is past the
    clock, or zero when nothing matches within four years, and then it is never
    due. *)
Theorem created_job_not_due s req tr resp j :
  (∀ t, Call Now t ∈ tr → hour_zone t ∧ 0 <= abs t) →
  runs (createJob s (inr req)) tr resp → rs_status resp = 201 → rs_body resp = JobBody j →
  (∀ now, due now j = false) ∨
  ∃ now, Call Now now ∈ tr ∧ due now j = false ∧ abs now < abs (j_NextRun j).
Proof using Type.
  intros Hz [(_ & Hst & _)|H]%runs_createJob Hok Hb; [congruence|].
  destruct H as (req' & expr & id & now & next & created & reqID & err & _ & _ & _ & _ &
    Hn & Hin & _ & Hst & Hbody).
  assert (err = None) as ->.
  { rewrite Hok in Hst. by destruct err as [[|]|]. }
  rewrite Hbody in Hb by done. injection Hb as <-.
  destruct (Hz now Hin) as [Hzn H0].
  destruct (Next_result expr now Hzn) as (r & Hr & [[-> _]|(_ & _ & Hlt & _)]);
    rewrite Hn in Hr; injection Hr as ->; [left|right].
  - intros t. by unfold due.
  - exists now. split_and!; [done| |simpl; lia]. unfold due, After. simpl.
    destruct (Z.ltb_spec (abs now) (abs r)); [|lia]. by rewrite orb_true_r.
Qed.

Lemma runs_deleteJob s id tr resp :
  runs (deleteJob s id) tr resp →
  (rs_status resp = 404 ∧ submits tr = []) ∨
  ∃ reqID err, submits tr = [mkCmd CmdDelete reqID zeroJob id zeroRun] ∧
    rs_status resp = submit_status 204 err.
Proof using Type.
  unfold deleteJob. rewrite runs_bind. intros ([j ok] & tr1 & tr2 & H1 & H2 & ->).
  apply runs_perform in H1 as ->. destruct ok; simpl negb in H2; cbn iota in H2.
  - right. rewrite runs_bind in H2. destruct H2 as (reqID & tr3 & tr4 & H3 & H4 & ->).
    apply runs_generateID in H3 as (b & -> & ->). cbn [app]. run_call H4 as err tr5.
    exists (EncodeToString b), err. destruct err as [[|]|]; by destruct H4 as [-> ->].
  - left. by destruct H2 as [-> ->].
Qed.

(** Deleting a job: 404 when the store does not know it, and nothing is
    submitted; otherwise one delete command for it, with 204, 409 or 500. *)
Theorem deleteJob_effect s id tr resp :
  runs (deleteJob s id) tr resp →
  (rs_status resp = 404 ∧ submits tr = []) ∨
  ∃ reqID err, submits tr = [mkCmd CmdDelete reqID zeroJob id zeroRun] ∧
    rs_status resp = submit_status 204 err.
Proof using Type. apply runs_deleteJob. Qed.

Lemma runs_triggerJob s id tr resp :
  runs (triggerJob s id) tr resp →
  ∃ j ok, (ok = false ∧ rs_status resp = 404 ∧ tr = [Call (CallGetJob id) (j, false)]) ∨
    ∃ now, ok = true ∧ rs_status resp = 202 ∧
      tr = [Call (CallGetJob id) (j, true); Call Now now; Call (GoFireJob j now) tt].
Proof using Type.
  unfold triggerJob. rewrite runs_bind. intros (err & tr1 & tr2 & H1 & H2 & ->).
  unfold FireNow, Scheduler_FireNow in H1. rewrite runs_bind in H1.
  destruct H1 as ([j ok] & tr3 & tr4 & H3 & H4 & ->). apply runs_perform in H3 as ->.
  exists j, ok. destruct ok; simpl in H4.
  - right. destruct H4 as (now & ? & -> & [] & ? & -> & -> & ->). exists now.
    by destruct H2 as [-> ->].
  - left. destruct H4 as [-> ->]. by destruct H2 as [-> ->].
Qed.

(** A manual trigger is accepted by any node that knows the job: the handler
    answers 202 and starts the run without asking whether this node is the leader,
    and 404 exactly when the store does not know the job. *)
Theorem triggerJob_ignores_leadership s id tr resp :
  runs (triggerJob s id) tr resp →
  ∃ j ok, (ok = false ∧ rs_status resp = 404 ∧ tr = [Call (CallGetJob id) (j, false)]) ∨
    ∃ now, ok = true ∧ rs_status resp = 202 ∧
      tr = [Call (CallGetJob id) (j, true); Call Now now; Call (GoFireJob j now) tt].
Proof using Type. apply runs_triggerJob. Qed.

Lemma runs_listJobs s tr resp : runs (listJobs s) tr resp → submits tr = [].
Proof using Type. unfold listJobs. intros H. run_call H as js tr2. by destruct H as [-> _]. Qed.

Lemma runs_clusterStatus s tr resp : runs (clusterStatus s) tr resp → submits tr = [].
Proof using Type.
  unfold clusterStatus. intros H. run_call H as [term isl] tr2. by destruct H as [-> _].
Qed.

Lemma runs_getJob s id tr resp : runs (getJob s id) tr resp → submits tr = [].
Proof using Type.
  unfold getJob. intros H. run_call H as [j ok] tr2.
  destruct ok; simpl negb in H; cbn iota in H; [|by destruct H as [-> _]].
  run_call H as rs tr3. by destruct H as [-> _].
Qed.

Lemma mux_writes s r tr resp :
  runs (mux s r) tr resp →
  (length (submits tr) <= 1)%nat ∧
  (submits tr ≠ [] → rq_method r = "POST" ∧ rq_path r = ["jobs"] ∨
                     ∃ id, rq_method r = "DELETE" ∧ rq_path r = ["jobs"; id]).
Proof using Type.
  assert (Hno : ∀ (resp' : response) tr', runs (mret resp' : prog response) tr' resp → submits tr' = [])
    by by intros resp' tr' [-> _].
  assert (Hzero : submits tr = [] → (length (submits tr) <= 1)%nat ∧
    (submits tr ≠ [] → rq_method r = "POST" ∧ rq_path r = ["jobs"] ∨
                       ∃ id, rq_method r = "DELETE" ∧ rq_path r = ["jobs"; id])).
  { intros ->. split; [simpl; lia|done]. }
  unfold mux. destruct (rq_path r) as [|a [|id [|b [|]]]] eqn:Ep; intros H;
    try (by eapply Hzero, Hno).
  - destruct (String.eqb_spec a "jobs") as [->|].
    + destruct (String.eqb_spec (rq_method r) "POST") as [Hm|].
      * split; [|by left].
        destruct (runs_createJob _ _ _ _ H) as [(-> & _)|H']; [simpl; lia|].
        destruct H' as (? & ? & ? & ? & ? & ? & ? & ? & _ & _ & _ & _ & _ & _ & -> & _).
        simpl. lia.
      * destruct (is_get (rq_method r)); [|by eapply Hzero, Hno]. apply Hzero.
        by eapply runs_listJobs.
    + destruct (String.eqb a "cluster"); [|by eapply Hzero, Hno].
      destruct (is_get (rq_method r)); [|by eapply Hzero, Hno]. apply Hzero.
      by eapply runs_clusterStatus.
  - destruct (String.eqb_spec a "jobs") as [->|]; cbn [andb] in H; [|by eapply Hzero, Hno].
    destruct (nonempty id); cbn [andb] in H; [|by eapply Hzero, Hno].
    destruct (is_get (rq_method r)); [by eapply Hzero, runs_getJob|].
    destruct (String.eqb_spec (rq_method r) "DELETE") as [Hm|]; [|by eapply Hzero, Hno].
    split; [|by intros _; right; exists id].
    destruct (runs_deleteJob _ _ _ _ H) as [(_ & ->)|(? & ? & -> & _)]; simpl; lia.
  - destruct (_ && _); [|by eapply Hzero, Hno].
    destruct (String.eqb (rq_method r) "POST"); [|by eapply Hzero, Hno]. apply Hzero.
    destruct (runs_triggerJob _ _ _ _ H) as (j & ok & [(_ & _ & ->)|(now & _ & _ & ->)]); done.
Qed.

(** The log takes the time around the handler, and changes nothing else. *)
Lemma runs_logging next r tr resp :
  runs (logging next r) tr resp ↔ ∃ t tr' t', runs (next r) tr' resp ∧
    tr = Call Now t :: tr' ++ [Call Now t'; Call (LogPrintf (log_line r (Sub t' t))) tt].
Proof using Type.
  unfold logging. split.
  - intros H. run_call H as t tr2. run_bind H as resp' tr3 tr4 H3. run_call H as t' tr5. run_call H as u tr6.
    destruct H as [-> ->], u. by exists t, tr3, t'.
  - intros (t & tr' & t' & Hr & ->). set (line := Call (LogPrintf (log_line r (Sub t' t))) tt).
    exists t, (tr' ++ [Call Now t'; line])%list. split; [done|]. apply (runs_bind (next r)).
    exists resp, tr', [Call Now t'; line]. split; [done|]. split; [|done].
    exists t', [line]. split; [done|]. by exists tt, [].
Qed.

Lemma submits_logged (t t' : Time) tr (msg : string) :
  submits (Call Now t :: tr ++ [Call Now t'; Call (LogPrintf msg) tt]) = submits tr.
Proof using Type. unfold submits. cbn. rewrite omap_app. cbn. by rewrite app_nil_r. Qed.

(** Only the handlers of [POST /jobs] and [DELETE /jobs/{id}] submit commands, at
    most one per request; those of every other request, whatever its method and
    path, submit none. *)
Theorem only_writes_submit s r tr resp :
  runs (New s r) tr resp →
  (length (submits tr) <= 1)%nat ∧
  (submits tr ≠ [] → rq_method r = "POST" ∧ rq_path r = ["jobs"] ∨
                     ∃ id, rq_method r = "DELETE" ∧ rq_path r = ["jobs"; id]).
Proof using Type.
  intros (t & tr' & t' & Hr & ->)%runs_logging. rewrite submits_logged. by eapply mux_writes.
Qed.

End Theorems.

(** ** A server at work *)
Module ApiExamples.

Definition sc0 : Scheduler raftPeer NoopExecutor := mkScheduler TheRaft TheStore mkNoop.
Definition server0 : Server storeRef (Scheduler raftPeer NoopExecutor) raftPeer :=
  mkServer TheStore sc0 TheRaft.
Definition req : createJobReq := mkCreateJobReq EmptyString "n" "0 12 * * *" "http" "http://x" EmptyString.
Definition t0 : Time := mkTime (1000 * DayNs + 10 * Hour) 7200.

(** A follower that knows job "a". *)
Definition follower (X : Type) (e : eff X) : X :=
  match e with
  | Now => t0
  | RandRead n => repeat "000"%char n
  | CallGetState => (4, false)
  | CallSubmit _ => Some ErrNotLeader
  | CallGetJob _ => (zeroJob, true)
  | CallListJobs => []
  | CallGetRuns _ => []
  | GoFireJob _ _ => tt
  | Shell _ _ => mkShell EmptyString None false
  | Post _ _ _ => inr 200
  | LogPrintf _ => tt
  end.
(** The leader. *)
Definition leader (X : Type) (e : eff X) : X :=
  match e in eff Y return Y with
  | CallSubmit _ => None
  | e => follower _ e
  end.

Lemma createJob_effect_witness :
  ∃ tr resp, runs (createJob server0 (inr req)) tr resp ∧ rs_status resp = 409 ∧
    ∃ c, submits tr = [c].
Proof.
  destruct (drive follower (createJob server0 (inr req))) as [[tr resp]|] eqn:E;
    [|vm_compute in E; discriminate].
  assert (Hst : rs_status resp = 409) by (vm_compute in E; by injection E as _ <-).
  apply drive_runs in E. exists tr, resp. split; [exact E|]. split; [exact Hst|].
  destruct (createJob_effect server0 (inr req) tr resp E) as [(_ & H & _)|H]; [congruence|].
  destruct H as (? & ? & ? & ? & ? & ? & ? & ? & _ & _ & _ & _ & _ & _ & H & _). eexists. exact H.
Defined.

Lemma created_job_not_due_witness :
  ∃ tr resp j, runs (createJob server0 (inr req)) tr resp ∧ rs_body resp = JobBody j ∧
    ((∀ now, due now j = false) ∨
     ∃ now, Call Now now ∈ tr ∧ due now j = false ∧ abs now < abs (j_NextRun j)).
Proof.
  destruct (drive leader (createJob server0 (inr req))) as [[tr resp]|] eqn:E;
    [|vm_compute in E; discriminate].
  assert (Hst : rs_status resp = 201 ∧ (∃ j, rs_body resp = JobBody j) ∧
                ∀ t, Call Now t ∈ tr → t = t0).
  { vm_compute in E. injection E as <- <-. split_and!; [done|by eexists|].
    intros t Hin. repeat (apply elem_of_cons in Hin as [Hin|Hin];
      [apply (f_equal (λ c, (is_now c, time_answer c))) in Hin; simpl in Hin; simplify_eq; done|]).
    by apply not_elem_of_nil in Hin. }
  destruct Hst as (Hst & (j & Hj) & Ht). apply drive_runs in E.
  exists tr, resp, j. split; [exact E|]. split; [exact Hj|].
  apply (created_job_not_due server0 req tr resp j); [|exact E|exact Hst|exact Hj].
  intros t Hin. rewrite (Ht t Hin). done.
Defined.

Lemma deleteJob_effect_witness :
  ∃ tr resp, runs (deleteJob server0 "a") tr resp ∧
    ((rs_status resp = 404 ∧ submits tr = []) ∨
     ∃ reqID err, submits tr = [mkCmd CmdDelete reqID zeroJob "a" zeroRun] ∧
       rs_status resp = submit_status 204 err).
Proof.
  destruct (drive leader (deleteJob server0 "a")) as [[tr resp]|] eqn:E;
    [|vm_compute in E; discriminate].
  apply drive_runs in E. exists tr, resp. split; [exact E|].
  exact (deleteJob_effect server0 "a" tr resp E).
Defined.

(** A follower answers 202. *)
Lemma triggerJob_ignores_leadership_witness :
  ∃ tr resp, runs (triggerJob server0 "a") tr resp ∧ rs_status resp = 202 ∧
    Call CallGetState (4, false) ∉ tr.
Proof.
  destruct (drive follower (triggerJob server0 "a")) as [[tr resp]|] eqn:E;
    [|vm_compute in E; discriminate].
  assert (Hst : rs_status resp = 202) by (vm_compute in E; by injection E as _ <-).
  apply drive_runs in E. exists tr, resp. split_and!; [exact E|exact Hst|].
  destruct (triggerJob_ignores_leadership server0 "a" tr resp E) as (j & ok & [(_ & H & _)|H]);
    [congruence|]. destruct H as (now & _ & _ & ->). intros Hin.
  repeat (apply elem_of_cons in Hin as [Hin|Hin]; [by inversion Hin|]).
  by apply not_elem_of_nil in Hin.
Defined.

Lemma only_writes_submit_witness :
  ∃ tr resp, runs (New server0 (mkRequest "GET" ["jobs"; "a"] (inl "EOF"))) tr resp ∧
    (length (submits tr) <= 1)%nat.
Proof.
  destruct (drive leader (New server0 (mkRequest "GET" ["jobs"; "a"] (inl "EOF"))))
    as [[tr resp]|] eqn:E; [|vm_compute in E; discriminate].
  apply drive_runs in E. exists tr, resp. split; [exact E|].
  apply (only_writes_submit server0 (mkRequest "GET" ["jobs"; "a"] (inl "EOF")) tr resp E).
Defined.

End ApiExamples.
