(* ===== verification/Main.v ===== *)
(** * cmd/crond: configuration and start-up

    What [main] reads from the environment and decides before it opens a socket,
    the server it wires, and the goroutine that waits for leadership to catch up
    missed jobs.  [os.Getenv] is the argument [getenv]; [log.Fatalf] is an [Err]. *)
From Stdlib Require Import ZArith Lia String Ascii.
From stdpp Require Import base tactics list strings numbers option.
From S2P Require Import Prelude.
From S2P Require Import GoTime.
From S2P Require Import GoStrings.
From S2P Require Import RaftNode.
From S2P Require Import Store.
From S2P Require Import Effects.
From S2P Require Import Scheduler.
From S2P Require Import SchedulerTheorems.
From S2P Require Import Executor.

Local Open Scope string_scope.
Local Open Scope Z_scope.

Inductive fatal :=
| EnvRequired (key : string)
| NotAnInteger (v : string)
| OutOfRange (me : Z) (n : nat).

Record config := mkConfig {
  bindAddr : string; peersList : list Peer; me : nat; apiAddr : string
}.

Definition mustEnv (getenv : string → string) (key : string) : result fatal string :=
  let v := getenv key in
  if String.eqb v EmptyString then Err (EnvRequired key) else Ok v.

(** [main] up to the listener. *)
Definition configure (getenv : string → string) : result fatal config :=
  bind ← mustEnv getenv "BIND_ADDR";
  peersEnv ← mustEnv getenv "PEERS";
  meStr ← mustEnv getenv "ME";
  let api := getenv "API_ADDR" in
  match Atoi meStr with
  | None => Err (NotAnInteger meStr)
  | Some i =>
      let addrs := Split peersEnv "," in
      let peers := (λ addr, NewPeer (TrimSpace addr)) <$> addrs in
      if (i <? 0) || (i >=? zlen peers) then Err (OutOfRange i (length peers))
      else Ok (mkConfig bind peers (Z.to_nat i) api)
  end.

(** The scheduler [main] makes, with the dispatcher as its executor. *)
Definition nodeScheduler : Scheduler raftPeer Dispatcher := mkScheduler TheRaft TheStore NewDispatcher.

(** One turn of the goroutine that waits for leadership; it is over after [true]
    and sleeps 200 ms after [false]. *)
Definition waitLeader : prog bool :=
  '(_, isLeader) ← GetState TheRaft;
  if (isLeader : bool) then
    _ ← ReconcileMissedJobs nodeScheduler;
    mret true
  else mret false.

(** ** Lemmas on trimming *)
Fixpoint blanks (n : nat) : string :=
  match n with O => EmptyString | S n => String " " (blanks n) end.

Lemma all_space_blanks n : all_space 0 (blanks n) = true.
Proof. induction n as [|n IH]; [done|]. cbn [blanks all_space]. exact IH. Qed.

Lemma trim_left_blanks n s : trim_left 0 (blanks n ++ s) = trim_left 0 s.
Proof. induction n as [|n IH]; [done|]. cbn [blanks]. rewrite app_String. cbn [trim_left]. exact IH. Qed.

Lemma trim_left_plain a s :
  33 <= Z.of_nat (nat_of_ascii a) <= 126 → trim_left 0 (String a s) = String a s.
Proof. intros H. cbn [trim_left]. by rewrite space_len_plain. Qed.

Lemma trim_right_plain w n : plain w = true → trim_right (w ++ blanks n) = w.
Proof.
  induction w as [|a w IH]; intros Hw.
  - rewrite app_Empty. destruct n as [|n]; [done|].
    change (trim_right (blanks (S n))) with
      (if all_space 0 (blanks (S n)) then EmptyString else String " " (trim_right (blanks n))).
    by rewrite all_space_blanks.
  - rewrite plain_String in Hw. apply andb_prop in Hw as [Ha Hw]. apply bool_decide_eq_true in Ha.
    rewrite app_String. cbn [trim_right all_space]. rewrite space_len_plain by done. by rewrite IH.
Qed.

Lemma TrimSpace_padded m w n :
  plain w = true → TrimSpace (blanks m ++ (w ++ blanks n)) = w.
Proof.
  intros Hw. unfold TrimSpace. rewrite trim_left_blanks. destruct w as [|a w].
  - rewrite app_Empty. assert (E : trim_left 0 (blanks n) = EmptyString).
    { rewrite <- (append_empty_r (blanks n)). by rewrite trim_left_blanks. }
    by rewrite E.
  - pose proof Hw as Hw'. rewrite plain_String in Hw'. apply andb_prop in Hw' as [Ha _].
    apply bool_decide_eq_true in Ha. rewrite app_String, trim_left_plain by done.
    rewrite <- app_String. by apply trim_right_plain.
Qed.

Lemma absent_blanks c n : c ≠ " "%char → absent c (blanks n) = true.
Proof.
  intros Hc. induction n as [|n IH]; [done|]. cbn [blanks absent].
  by rewrite bool_decide_false, IH by done.
Qed.

(** ** Theorems *)

(** A node starts exactly when its three variables are set and [ME] is the
    index of one of its peers; then its own address is one of [PEERS]. *)
Theorem configure_ok getenv cfg :
  configure getenv = Ok cfg ↔
  getenv "BIND_ADDR" ≠ EmptyString ∧ getenv "PEERS" ≠ EmptyString ∧ getenv "ME" ≠ EmptyString ∧
  bindAddr cfg = getenv "BIND_ADDR" ∧ apiAddr cfg = getenv "API_ADDR" ∧
  peersList cfg = (λ a, NewPeer (TrimSpace a)) <$> Split (getenv "PEERS") "," ∧
  Atoi (getenv "ME") = Some (Z.of_nat (me cfg)) ∧ is_Some (peersList cfg !! me cfg).
Proof.
  unfold configure, mustEnv.
  destruct (String.eqb_spec (getenv "BIND_ADDR") EmptyString); [split; [done|by intros [? _]]|].
  destruct (String.eqb_spec (getenv "PEERS") EmptyString); [split; [done|by intros (_ & ? & _)]|].
  destruct (String.eqb_spec (getenv "ME") EmptyString); [split; [done|by intros (_ & _ & ? & _)]|].
  simpl. set (ps := (λ a, NewPeer (TrimSpace a)) <$> Split (getenv "PEERS") ",").
  destruct (Atoi (getenv "ME")) as [i|]; [|split; [done|by intros (_ & _ & _ & _ & _ & _ & [=] & _)]].
  destruct (Z.ltb_spec i 0) as [Hneg|Hpos]; simpl.
  { split; [done|]. intros (_ & _ & _ & _ & _ & _ & [= ->] & _). lia. }
  destruct (Z.geb_spec i (zlen ps)) as [Hge|Hlt].
  - split; [done|]. intros (_ & _ & _ & _ & _ & Hps & [= ->] & [p Hp]).
    rewrite Hps in Hp. apply lookup_lt_Some in Hp. unfold zlen in Hge. lia.
  - split.
    + intros [= <-]. simpl. split_and!; try done; [f_equal; lia|]. apply lookup_lt_is_Some.
      unfold zlen in Hlt. lia.
    + intros (_ & _ & _ & Hb & Ha & Hps & [= ->] & _). f_equal. destruct cfg. simpl in *.
      rewrite Nat2Z.id. congruence.
Qed.

(** The peer list is read back from the text: addresses of printable characters
    without commas, separated by commas with any blanks around them, give exactly
    those peers in order. *)
Theorem configure_peers_roundtrip getenv ws i bind :
  ws ≠ [] → Forall (λ '(l, w, r), plain w = true ∧ absent "," w = true ∧ w ≠ EmptyString) ws →
  getenv "BIND_ADDR" = bind → bind ≠ EmptyString →
  getenv "PEERS" = str_join "," ((λ '(l, w, r), blanks l ++ (w ++ blanks r)) <$> ws) →
  getenv "ME" = Itoa (Z.of_nat i) → (i < length ws)%nat → Z.of_nat i <= max_int64 →
  configure getenv = Ok (mkConfig bind ((λ '(l, w, r), NewPeer w) <$> ws) i (getenv "API_ADDR")).
Proof.
  intros Hne Hall Hbind Hb Hp Hm Hi Hmax.
  assert (Hsplit : Split (getenv "PEERS") "," =
                   ((λ '(l, w, r), blanks l ++ (w ++ blanks r)) <$> ws)).
  { rewrite Hp. apply Split_join; [by destruct ws|]. apply Forall_fmap.
    eapply List.Forall_impl; [|exact Hall]. intros [[l w] r] (_ & Hc & _). simpl.
    by rewrite !absent_app, Hc, !absent_blanks. }
  assert (Hpe : getenv "PEERS" ≠ EmptyString).
  { intros He. rewrite He in Hsplit. destruct Hall as [|[[l w] r] ws' (_ & _ & Hw) _]; [done|].
    simpl in Hsplit. injection Hsplit as Hs _. destruct l, w; try done. }
  pose proof (Atoi_Itoa (Z.of_nat i) ltac:(lia)) as Hat.
  assert (Hme : Itoa (Z.of_nat i) ≠ EmptyString) by (intros He; by rewrite He in Hat).
  unfold configure, mustEnv. rewrite Hbind, Hm.
  destruct (String.eqb_spec bind EmptyString); [done|].
  destruct (String.eqb_spec (getenv "PEERS") EmptyString); [done|].
  destruct (String.eqb_spec (Itoa (Z.of_nat i)) EmptyString); [done|].
  simpl. rewrite Hat, Hsplit.
  assert (Hps : ((λ addr, NewPeer (TrimSpace addr)) <$>
                 ((λ '(l, w, r), blanks l ++ (w ++ blanks r)) <$> ws)) =
                ((λ '(l, w, r), NewPeer w) <$> ws)).
  { rewrite <- list_fmap_compose. apply list_fmap_ext. intros k [[l w] r] Hk. simpl.
    apply (Forall_lookup_1 _ _ _ _ Hall) in Hk as (Hw & _). by rewrite TrimSpace_padded. }
  rewrite Hps. unfold zlen. rewrite length_fmap.
  destruct (Z.ltb_spec (Z.of_nat i) 0); [lia|].
  destruct (Z.geb_spec (Z.of_nat i) (Z.of_nat (length ws))); [lia|]. simpl. by rewrite Nat2Z.id.
Qed.

(** The catch-up runs only on a leader and then once: a turn of the waiting
    goroutine on another node makes no call after the leadership check and waits
    on; on the leader it is one [ReconcileMissedJobs], and it is over. *)
Theorem waitLeader_once tr over :
  runs waitLeader tr over →
  ∃ term isLeader tr', tr = Call CallGetState (term, isLeader) :: tr' ∧ over = isLeader ∧
    if isLeader then runs (ReconcileMissedJobs nodeScheduler) tr' tt else tr' = [].
Proof.
  unfold waitLeader. intros H. run_call H as [term isl] tr2. exists term, isl.
  destruct isl.
  - run_bind H as [] tr3 tr4 H3. destruct H as [-> ->]. exists tr3. by rewrite app_nil_r.
  - destruct H as [-> ->]. by exists [].
Qed.

(** ** An environment *)
Module MainExamples.

Definition env (key : string) : string :=
  if String.eqb key "BIND_ADDR" then ":8001"
  else if String.eqb key "PEERS" then "a:8001, b:8001 ,c:8001"
  else if String.eqb key "ME" then "1" else EmptyString.

Example env_ok : configure env =
  Ok (mkConfig ":8001" [NewPeer "a:8001"; NewPeer "b:8001"; NewPeer "c:8001"] 1 EmptyString).
Proof. vm_compute. reflexivity. Qed.

Lemma configure_peers_roundtrip_witness :
  configure env =
  Ok (mkConfig ":8001" ((λ '(l, w, r), NewPeer w) <$>
        [(0%nat, "a:8001", 0%nat); (1%nat, "b:8001", 1%nat); (0%nat, "c:8001", 0%nat)]) 1 EmptyString).
Proof.
  apply (configure_peers_roundtrip env
    [(0%nat, "a:8001", 0%nat); (1%nat, "b:8001", 1%nat); (0%nat, "c:8001", 0%nat)] 1 ":8001");
    [done|repeat constructor; done|reflexivity|done|reflexivity|vm_compute; reflexivity|simpl; lia|].
  vm_compute. discriminate.
Defined.

Definition follower (X : Type) (e : eff X) : X :=
  match e with
  | Now => zeroTime
  | RandRead n => repeat "000"%char n
  | CallGetState => (4, false)
  | CallSubmit _ => Some ErrNotLeader
  | CallGetJob _ => (zeroJob, true)
  | CallListJobs => []
  | CallGetRuns _ => []
  | GoFireJob _ _ => tt
  | Shell _ _ => mkShell EmptyString None false
  | Post _ _ _ => inr 200
  | LogPrintf _ => tt
  end.

Lemma waitLeader_once_witness :
  ∃ tr over, runs waitLeader tr over ∧ ∃ term isLeader tr',
    tr = Call CallGetState (term, isLeader) :: tr' ∧ over = isLeader.
Proof.
  destruct (drive follower waitLeader) as [[tr over]|] eqn:E; [|vm_compute in E; discriminate].
  apply drive_runs in E. exists tr, over. split; [exact E|].
  destruct (waitLeader_once tr over E) as (term & isl & tr' & H1 & H2 & _). by exists term, isl, tr'.
Defined.

End MainExamples.
