(* ===== verification/Nodes.v ===== *)
(** * The whole program: goroutines on every node

    System.v with the code that calls the stores: every node runs the goroutines of
    scheduler.go, recovery.go, handlers.go and main.go as programs of Effects.v, one
    call at a time.  A call to the node's peer or store is answered by the system, a
    [Submit] waits for the answer of the store, [go sc.fireJob] starts a goroutine, and
    the clock, the shell, the network and the random source answer what they like.  A
    node that goes down loses its goroutines; it comes back with the persister it had
    ([NodeRestart]) or, as main.go makes one at every start, with an empty one
    ([NodeStartOver]).

    A goroutine remembers its calls ([go_trace]), dead or alive: ghost state that the
    theorems of NodeSafety.v are about. *)
From Stdlib Require Import ZArith Lia String Ascii.
From stdpp Require Import base tactics list strings numbers option gmap.
From S2P Require Import Prelude.
From S2P Require Import GoTime.
From S2P Require Import Gob.
From S2P Require Import Persister.
From S2P Require Import RaftNode.
From S2P Require Import Cluster.
From S2P Require Import Store.
From S2P Require Import System.
From S2P Require Import Effects.
From S2P Require Import EffectsLogic.
From S2P Require Import Scheduler.
From S2P Require Import SchedulerTheorems.
From S2P Require Import Executor.
From S2P Require Import Api.
From S2P Require Import Main.

Local Open Scope Z_scope.

(** ** Goroutines *)

(** A turn of the tick loop, a fired job, the wait for leadership, a request. *)
Inductive task :=
| TickTask (now : Time)
| FireTask (j : Job) (now : Time)
| WaitTask
| RequestTask (r : request).

Inductive outcome := Over | Answered (resp : response).

(** The server that main.go wires. *)
Definition nodeServer : Server storeRef (Scheduler raftPeer Dispatcher) raftPeer :=
  Api.mkServer TheStore nodeScheduler TheRaft.

Definition task_prog (t : task) : prog outcome :=
  match t with
  | TickTask now => _ ← tickLoop nodeScheduler (Tick now); mret Over
  | FireTask j now => _ ← fireJob nodeScheduler j now; mret Over
  | WaitTask => _ ← waitLeader; mret Over
  | RequestTask r => resp ← Api.New nodeServer r; mret (Answered resp)
  end.

(** [go_chan] is the channel of the [Submit] it waits for. *)
Record goroutine := mkGo {
  go_node : nat;
  go_task : task;
  go_prog : prog outcome;
  go_chan : option nat;
  go_trace : list call;
  go_alive : bool
}.

Definition new_go (p : nat) (t : task) : goroutine := mkGo p t (task_prog t) None [] true.

(** The answer [x] to the call [e]; [rest] is what remains to do. *)
Definition answered {X} (g : goroutine) (e : eff X) (x : X) (rest : prog outcome) : goroutine :=
  mkGo (go_node g) (go_task g) rest None (go_trace g ++ [Call e x]) (go_alive g).

Definition waits (g : goroutine) (ch : nat) : goroutine :=
  mkGo (go_node g) (go_task g) (go_prog g) (Some ch) (go_trace g) (go_alive g).

(** The node [p] goes down. *)
Definition crash (p : nat) (g : goroutine) : goroutine :=
  if decide (go_node g = p)
  then mkGo (go_node g) (go_task g) (go_prog g) (go_chan g) (go_trace g) false else g.

(** ** Answers *)

(** What comes from outside the program. *)
Inductive outside_answer :=
| AnsTime (t : Time)
| AnsBytes (b : list ascii)
| AnsKeys (order : list string)
| AnsShell (res : shell_outcome)
| AnsPost (res : string + Z)
| AnsNone.

(** [order] is the order in which Go visits the map of jobs. *)
Definition local_answer {X} (e : eff X) (rf : Raft Cmd) (s : Store) (o : outside_answer) : option X :=
  match e in eff X return option X with
  | Now => match o with AnsTime t => Some t | _ => None end
  | RandRead n => match o with
      | AnsBytes b => if decide (length b = n) then Some b else None
      | _ => None
      end
  | CallGetState => Some (RaftNode.GetState rf)
  | CallSubmit _ => None
  | CallGetJob id => Some (GetJob s id)
  | CallListJobs => match o with
      | AnsKeys order =>
          if decide (order ≡ₚ (map_to_list (jobs s)).*1) then Some (ListJobs s order) else None
      | _ => None
      end
  | CallGetRuns id => Some (GetRuns s id)
  | GoFireJob _ _ => Some tt
  | Shell _ _ => match o with AnsShell res => Some res | _ => None end
  | Post _ _ _ => match o with AnsPost res => Some res | _ => None end
  | LogPrintf _ => Some tt
  end.

(** The result of [Submit] as the answer to a call. *)
Definition submit_answer {X} (e : eff X) (err : option error) : option X :=
  match e in eff X return option X with CallSubmit _ => Some err | _ => None end.

(** The goroutine that a call starts. *)
Definition spawned {X} (p : nat) (e : eff X) : list goroutine :=
  match e with GoFireJob j now => [new_go p (FireTask j now)] | _ => [] end.

(** ** Steps *)
Section Nodes.
Context {gobZ : Gob Z} {gobLog : Gob (list (LogEntry Cmd))} {gobState : Gob storeState}.

Record program := mkProgram { ns_sys : system; ns_gos : list goroutine }.

Inductive node_event :=
| NodeSys (ev : sys_event)
| NodeGo (p : nat) (t : task)
| NodeCall (i : nat) (o : outside_answer)
| NodeRestart (p : nat) (now : Z)
| NodeStartOver (p : nat) (now : Z).

(** The events of a system that no goroutine makes. *)
Definition background (ev : sys_event) : bool :=
  match ev with SysSubmit _ _ | SysRestart _ _ | SysStartOver _ _ => false | _ => true end.

(** main.go starts these goroutines; a job is fired by [GoFireJob] only. *)
Definition startable (t : task) : bool := match t with FireTask _ _ => false | _ => true end.

(** The next call of a goroutine, or the answer it waits for. *)
Definition go_call (N : program) (i : nat) (g : goroutine) (o : outside_answer) : option program :=
  let S := ns_sys N in
  pr ← sy_procs S !! go_node g;
  rf ← nodes (sy_cluster S) !! go_node g;
  match go_prog g with
  | Ret _ | Hang => None
  | Do e k =>
      match submit_of e, go_chan g with
      | Some cmd, None =>
          S' ← sys_step S (SysSubmit (go_node g) cmd);
          Some (mkProgram S' (<[i := waits g (length (started (pr_world pr)))]> (ns_gos N)))
      | Some _, Some ch =>
          r ← list_find (λ x, x.1 = ch) (returned (pr_world pr));
          x ← submit_answer e r.2.2;
          Some (mkProgram S (<[i := answered g e x (k x)]> (ns_gos N)))
      | None, _ =>
          x ← local_answer e rf (store (pr_world pr)) o;
          Some (mkProgram S (<[i := answered g e x (k x)]> (ns_gos N) ++ spawned (go_node g) e))
      end
  end.

Definition node_step (N : program) (ev : node_event) : option program :=
  let S := ns_sys N in
  match ev with
  | NodeSys ev =>
      if background ev then S' ← sys_step S ev; Some (mkProgram S' (ns_gos N)) else None
  | NodeGo p t =>
      _ ← sy_procs S !! p;
      if startable t then Some (mkProgram S (ns_gos N ++ [new_go p t])) else None
  | NodeCall i o =>
      g ← ns_gos N !! i;
      if go_alive g then go_call N i g o else None
  | NodeRestart p now =>
      S' ← sys_step S (SysRestart p now);
      Some (mkProgram S' (crash p <$> ns_gos N))
  | NodeStartOver p now =>
      S' ← sys_step S (SysStartOver p now);
      Some (mkProgram S' (crash p <$> ns_gos N))
  end.

(** A run of the program: any order of the events that are possible. *)
Fixpoint node_exec (N : program) (evs : list node_event) : option program :=
  match evs with
  | [] => Some N
  | ev :: evs' => N' ← node_step N ev; node_exec N' evs'
  end.

(** ** What the code leaves open, see System.v *)

(** No snapshot is installed on a peer that has applied more or is delivering. *)
Definition node_snapshot_in_step (N : program) (ev : node_event) : Prop :=
  match ev with NodeSys ev => snapshot_in_step (ns_sys N) ev | _ => True end.

Fixpoint node_snapshots_in_step (N : program) (evs : list node_event) : Prop :=
  match evs with
  | [] => True
  | ev :: evs' =>
      node_snapshot_in_step N ev ∧
      match node_step N ev with Some N' => node_snapshots_in_step N' evs' | None => True end
  end.

(** A node that comes back has the persister it had, or it does not come back. *)
Definition node_starts_over (ev : node_event) : bool :=
  match ev with NodeStartOver _ _ => true | _ => false end.

Definition node_disks_survive (evs : list node_event) : Prop := Forall (λ ev, node_starts_over ev = false) evs.

(** No node stops, no call and no [Submit] fails: messages are late at worst. *)
Definition undisturbed (ev : node_event) : bool :=
  match ev with
  | NodeSys (SysCluster (EvKill _)) | NodeSys (SysCluster (EvCallFail _)) | NodeSys (SysTimeout _ _)
  | NodeSys (SysRestart _ _) | NodeSys (SysStartOver _ _) | NodeRestart _ _ | NodeStartOver _ _ => false
  | _ => true
  end.

(** The runs in which both are so, as a function: see [node_run_exec]. *)
Definition node_in_step (N : program) (ev : node_event) : Prop :=
  match ev with NodeSys ev => in_step (ns_sys N) ev | NodeStartOver _ _ => False | _ => True end.

#[export] Instance node_in_step_dec N ev : Decision (node_in_step N ev).
Proof. destruct ev; apply _. Defined.

Fixpoint node_run (N : program) (evs : list node_event) : option program :=
  match evs with
  | [] => Some N
  | ev :: evs' =>
      if decide (node_in_step N ev) then N' ← node_step N ev; node_run N' evs' else None
  end.

Definition node_init (ps : list Peer) (now : Z) : program := mkProgram (sys_init ps now) [].

Definition node_reachable (ps : list Peer) (now : Z) (N : program) : Prop :=
  ∃ evs, node_run (node_init ps now) evs = Some N.

(** ** What was submitted *)

(** The command a goroutine is about to submit, or waits for. *)
Definition current_submit (p : prog outcome) : option Cmd :=
  match p with Do e _ => submit_of e | _ => None end.

Definition go_submits (g : goroutine) : list Cmd :=
  submits (go_trace g) ++ match go_chan g with Some _ => option_list (current_submit (go_prog g)) | None => [] end.

Definition submitted_by (gos : list goroutine) (cmd : Cmd) : Prop :=
  ∃ g, g ∈ gos ∧ cmd ∈ go_submits g.

(** Request ids are 64 random bits: no two commands of the run have the same. *)
Definition distinct_ids (N : program) : Prop :=
  ∀ cmd cmd', submitted_by (ns_gos N) cmd → submitted_by (ns_gos N) cmd' →
    c_ReqID cmd = c_ReqID cmd' → cmd = cmd'.

(** ** Runs in step *)
Lemma node_in_step_spec N ev N' :
  node_step N ev = Some N' → node_in_step N ev ↔ node_snapshot_in_step N ev ∧ node_starts_over ev = false.
Proof using Type.
  intros E. destruct ev as [ev| | | |]; cbn [node_in_step node_snapshot_in_step node_starts_over];
    [|split; [done|by intros [? ?]]..]. rewrite in_step_spec. cbn [node_step] in E. by destruct ev.
Qed.

Lemma node_run_exec N evs N' :
  node_run N evs = Some N' ↔ node_exec N evs = Some N' ∧ node_snapshots_in_step N evs ∧ node_disks_survive evs.
Proof using Type.
  revert N. induction evs as [|ev evs IH]; intros N;
    [simpl; unfold node_disks_survive; rewrite Forall_nil; tauto|].
  cbn [node_run node_exec node_snapshots_in_step]. unfold node_disks_survive. rewrite Forall_cons.
  destruct (node_step N ev) as [N1|] eqn:E; cbn [mbind option_bind].
  - pose proof (node_in_step_spec N ev N1 E) as Hs. specialize (IH N1). unfold node_disks_survive in IH.
    destruct (decide (node_in_step N ev)) as [Hi|Hi]; [rewrite IH; tauto|]. split; [done|tauto].
  - by case_decide; split; [|intros [? _]| |intros [? _]].
Qed.

Lemma node_snapshots_in_step_app N evs evs' N' :
  node_exec N evs = Some N' →
  node_snapshots_in_step N (evs ++ evs') ↔ node_snapshots_in_step N evs ∧ node_snapshots_in_step N' evs'.
Proof using Type.
  revert N. induction evs as [|ev evs IH]; intros N E; cbn [app node_exec node_snapshots_in_step] in *;
    [injection E as ->; tauto|].
  destruct (node_step N ev) as [N1|]; [|done]. cbn [mbind option_bind] in E. rewrite (IH N1 E). tauto.
Qed.

(** A run in two parts. *)
Lemma node_run_parts N evs N1 evs' N2 :
  node_exec N evs = Some N1 → node_exec N1 evs' = Some N2 →
  node_snapshots_in_step N (evs ++ evs') → node_disks_survive (evs ++ evs') →
  node_run N evs = Some N1 ∧ node_run N1 evs' = Some N2.
Proof using Type.
  intros E E' Hs Hd. rewrite (node_snapshots_in_step_app _ _ _ _ E) in Hs. unfold node_disks_survive in Hd.
  rewrite Forall_app in Hd. rewrite !node_run_exec. tauto.
Qed.

End Nodes.

(** The parts of a run in step. *)
Section Parts.
Context {gobZ : Gob Z} {gobLog : Gob (list (LogEntry Cmd))} {gobState : Gob storeState}.

Lemma node_run_node_exec N evs N' : node_run N evs = Some N' → node_exec N evs = Some N'.
Proof using Type. intros H%node_run_exec. apply H. Qed.

Lemma node_run_snapshots N evs N' : node_run N evs = Some N' → node_snapshots_in_step N evs.
Proof using Type. intros H%node_run_exec. apply H. Qed.

Lemma node_run_disks N evs N' : node_run N evs = Some N' → node_disks_survive evs.
Proof using Type. intros H%node_run_exec. apply H. Qed.

End Parts.
