(* ===== verification/NodeLaws.v ===== *)
(** * The whole program: what each goroutine guarantees about its calls

    For every task of Nodes.v and every prefix of its run: which commands it submits
    ([origin]), that a job only does its work after the advance of its [NextRun] was
    acknowledged ([lawful]), and what an answer to a request means ([settled]). *)
From Stdlib Require Import ZArith Lia String Ascii.
From stdpp Require Import base tactics list strings numbers option gmap.
From S2P Require Import Prelude.
From S2P Require Import GoTime.
From S2P Require Import GoStrings.
From S2P Require Import Cron.
From S2P Require Import Gob.
From S2P Require Import Store.
From S2P Require Import Effects.
From S2P Require Import EffectsLogic.
From S2P Require Import Scheduler.
From S2P Require Import SchedulerTheorems.
From S2P Require Import Executor.
From S2P Require Import Api.
From S2P Require Import Main.
From S2P Require Import Nodes.

Local Open Scope string_scope.
Local Open Scope list_scope.
Local Open Scope Z_scope.

(** ** Assertions *)

(** [Submit] returned no error for [cmd]. *)
Definition acked (tr : list call) (cmd : Cmd) : Prop := Call (CallSubmit cmd) None ∈ tr.

(** [cmd] moves [NextRun] of [j] to its next activation after [now]. *)
Definition advance (j : Job) (now : Time) (cmd : Cmd) : Prop :=
  ∃ req next, nextRun (j_CronExpr j) now = Some (next, true) ∧ cmd = upsertCmd req (set_NextRun next j).

(** [rec] is the record of a run of [j] that began after the advance was acknowledged. *)
Definition outcome_of (j : Job) (now : Time) (tr : list call) (rec : RunRecord) : Prop :=
  ∃ req next run tr1 tr2 tr3, tr = tr1 ++ tr2 ++ tr3 ∧ nextRun (j_CronExpr j) now = Some (next, true) ∧
    acked tr1 (upsertCmd req (set_NextRun next j)) ∧ runs (Run NewDispatcher (set_NextRun next j)) tr2 run ∧
    completed j now run rec.

(** Why the task [t] submits [cmd] after the calls [tr]. *)
Definition origin (t : task) (tr : list call) (cmd : Cmd) : Prop :=
  match t with
  | TickTask _ => False
  | FireTask j now => advance j now cmd ∨ ∃ req rec, cmd = recordCmd req rec ∧ outcome_of j now tr rec
  | WaitTask => ∃ j now, j_CatchupPolicy j = "skip" ∧ advance j now cmd
  | RequestTask r =>
      (rq_method r = "POST" ∧ rq_path r = ["jobs"] ∧ ∃ req id next created reqID, rq_body r = inr req ∧
         cmd = mkCmd CmdUpsert reqID (requested req id next created) EmptyString zeroRun) ∨
      (∃ id reqID, rq_method r = "DELETE" ∧ rq_path r = ["jobs"; id] ∧
         cmd = mkCmd CmdDelete reqID zeroJob id zeroRun)
  end.

Definition lawful (t : task) : assertion := λ tr X e,
  (∀ cmd, submit_of e = Some cmd → origin t tr cmd) ∧
  (external e = true → ∃ j now adv, t = FireTask j now ∧ advance j now adv ∧ acked tr adv).

(** What success answers to a request stand for. *)
Definition settled (t : task) (tr : list call) (out : outcome) : Prop :=
  match t, out with
  | RequestTask r, Answered resp =>
      (rs_status resp = 201 → ∃ reqID j, rs_body resp = JobBody j ∧
         acked tr (mkCmd CmdUpsert reqID j EmptyString zeroRun)) ∧
      (rs_status resp = 204 → ∃ reqID id, rq_path r = ["jobs"; id] ∧
         acked tr (mkCmd CmdDelete reqID zeroJob id zeroRun))
  | _, _ => True
  end.

Lemma acked_snoc tr c cmd : acked tr cmd → acked (tr ++ [c]) cmd.
Proof. intros H. apply elem_of_app. by left. Qed.

Lemma acked_last tr cmd : acked (tr ++ [Call (CallSubmit cmd) None]) cmd.
Proof. apply elem_of_app. right. by apply list_elem_of_singleton. Qed.

Lemma harmless_lawful t tr X e : harmless tr X e → lawful t tr X e.
Proof. intros [Hs He]. split; [by rewrite Hs|by rewrite He]. Qed.

(** ** Rules *)

(** A program that submits nothing keeps what more calls cannot break. *)
Lemma always_frame {A} I0 I (J : list call → Prop) (Q : list call → A → Prop) tr p :
  always I0 Q tr p → J tr → (∀ tr c, J tr → J (tr ++ [c])) →
  (∀ tr X e, J tr → I0 tr X e → I tr X e) → always I (λ tr a, J tr ∧ Q tr a) tr p.
Proof.
  intros Hp HJ Hc HI. revert tr Hp HJ. induction p as [a|X e k IH|]; intros tr; simpl; [done| |done].
  intros [He Hk] HJ. split; [by apply HI|]. intros x. apply IH; [done|by apply Hc].
Qed.

(** One call that neither submits nor does a job's work. *)
Ltac quiet x := split; [by apply harmless_lawful|intros x].

(** ** The executors *)
Lemma Dispatcher_no_submit j tr :
  always (λ _ X e, submit_of e = None) (λ _ _, True) tr (Run NewDispatcher j).
Proof.
  unfold Run, Dispatcher_Run. rewrite NewDispatcher_lookup.
  destruct (String.eqb (j_Executor j) "shell"); [|destruct (String.eqb (j_Executor j) "http");
    [|destruct (String.eqb (j_Executor j) "kafka")]].
  - do 3 (split; [done|intros ?]). simpl. by destruct (sh_err _).
  - do 3 (split; [done|intros ?]). simpl. case_match; [done|]. by destruct (_ && _).
  - split; [done|intros t]. simpl. repeat (case_match; try (split; [done|intros ?])); try done.
  - by do 2 (split; [done|intros ?]).
Qed.

(** ** The scheduler *)

(** What [fireJob] does with the record of its run. *)
Lemma record_lawful j now next req run tr1 tr2 :
  nextRun (j_CronExpr j) now = Some (next, true) → acked tr1 (upsertCmd req (set_NextRun next j)) →
  runs (Run NewDispatcher (set_NextRun next j)) tr2 run →
  always (lawful (FireTask j now)) (λ _ _, True) (tr1 ++ tr2)
    (let run := mkRun (j_ID j) (r_StartedAt run) (r_FinishedAt run) (r_ExitCode run)
                  (r_Output run) (r_Status run) in
     let run := if IsZero (r_StartedAt run)
                then mkRun (r_JobID run) now (r_FinishedAt run) (r_ExitCode run) (r_Output run) (r_Status run)
                else run in
     run ← (if IsZero (r_FinishedAt run) then
              t ← perform Now;
              mret (mkRun (r_JobID run) (r_StartedAt run) t (r_ExitCode run) (r_Output run) (r_Status run))
            else mret run);
     req ← newReqID;
     _ ← submit nodeScheduler (recordCmd req run);
     mret tt).
Proof.
  intros Hn Hack Hrun.
  assert (Hrec : ∀ tr3 rec, completed j now run rec →
    always (lawful (FireTask j now)) (λ _ _, True) ((tr1 ++ tr2) ++ tr3)
      (req ← newReqID; _ ← submit nodeScheduler (recordCmd req rec); mret tt)).
  { intros tr3 rec Hc. quiet b. split; [|done]. split; [|done]. intros cmd [= <-]. right.
    exists (EncodeToString b), rec. split; [done|]. exists req, next, run, tr1, tr2, (tr3 ++ [Call (RandRead 8) b]).
    by rewrite <- !app_assoc. }
  cbv zeta. cbn [r_StartedAt r_FinishedAt r_JobID r_ExitCode r_Output r_Status].
  destruct (IsZero (r_StartedAt run)) eqn:E1; cbn [r_StartedAt r_FinishedAt r_JobID r_ExitCode r_Output r_Status];
    destruct (IsZero (r_FinishedAt run)) eqn:E2;
    [quiet t; apply (Hrec [_])|rewrite <- (app_nil_r (tr1 ++ tr2)); apply Hrec
    |quiet t; apply (Hrec [_])|rewrite <- (app_nil_r (tr1 ++ tr2)); apply Hrec];
    unfold completed; cbn; rewrite E1; (split_and!; try done; by rewrite E2).
Qed.

Lemma fireJob_lawful j now :
  always (lawful (FireTask j now)) (λ _ _, True) [] (fireJob nodeScheduler j now).
Proof.
  unfold fireJob. destruct (nextRun (j_CronExpr j) now) as [[next []]|] eqn:En; [|done|done].
  quiet b. split.
  { split; [|done]. intros cmd [= <-]. left. by eexists _, _. }
  intros [err|]; [done|]. set (adv := upsertCmd _ _). assert (Hadv : advance j now adv) by by eexists _, _.
  apply (always_bind _ _ _ (Run NewDispatcher (set_NextRun next j))).
  eapply always_mono; [eapply (always_frame _ (lawful (FireTask j now)) (λ tr, acked tr adv))|done|].
  - apply always_runs, Dispatcher_no_submit.
  - apply acked_last.
  - intros tr c. apply acked_snoc.
  - intros tr X e Hack He. split; [by rewrite He|]. intros _. by exists j, now, adv.
  - intros tr run (_ & _ & tr2 & -> & Hrun). exact (record_lawful j now next (EncodeToString b) run _ tr2 En (acked_last _ _) Hrun).
Qed.

Lemma tick_lawful now :
  always (lawful (TickTask now)) (λ _ _, True) [] (tickLoop nodeScheduler (Tick now)).
Proof.
  quiet ans. destruct ans as [term []]; [|done]. quiet js. apply always_bind.
  eapply always_mono; [apply (always_for_each _ (λ _, True))|done|done]; [done|].
  intros j tr _ _. case_match; [done|]. by quiet u.
Qed.

Lemma wait_lawful : always (lawful WaitTask) (λ _ _, True) [] waitLeader.
Proof.
  quiet ans. destruct ans as [term []]; [|done]. quiet now. quiet js. apply always_bind.
  eapply always_mono; [apply (always_for_each _ (λ _, True))|done|done]; [done|].
  intros j tr _ _. case_match; [done|]. destruct (String.eqb_spec (j_CatchupPolicy j) "skip") as [Hp|].
  - unfold advanceNextRun. destruct (nextRun (j_CronExpr j) now) as [[next []]|] eqn:En; [|done|done].
    quiet b. split; [|done]. split; [|done]. intros cmd [= <-]. exists j, now. split; [done|]. by eexists _, _.
  - destruct (String.eqb (j_CatchupPolicy j) "run_once"); [by quiet u|done].
Qed.

(** ** The REST API *)
Definition answers_ok (r : request) : list call → response → Prop :=
  λ tr resp, settled (RequestTask r) tr (Answered resp).

#[local] Opaque Next Parse.

Lemma createJob_lawful r tr0 :
  rq_method r = "POST" → rq_path r = ["jobs"] →
  always (lawful (RequestTask r)) (answers_ok r) tr0 (createJob nodeServer (rq_body r)).
Proof.
  intros Hm Hp. unfold createJob. destruct (rq_body r) as [err|req] eqn:Eb; [done|].
  destruct (Parse (cj_CronExpr req)) as [expr|err]; [|done].
  apply (always_bind _ _ _ (if String.eqb (cj_ID req) EmptyString then generateID else mret (cj_ID req))).
  apply (always_mono (lawful (RequestTask r)) _ (λ _ _, True));
    [destruct (String.eqb _ _); [by quiet b|done]|done|].
  intros tr id _. cbv zeta. quiet now. cbn [prog_bind mbind prog_mbind perform].
  destruct (Next expr now) as [next|]; [|done]. quiet created. quiet b. split.
  - split; [|done]. intros cmd [= <-]. left. split_and!; [done|done|].
    exists req, id, next, created, (EncodeToString b). by split.
  - intros [[|]|]; [done|done|]. split; [|done]. intros _. eexists _, _. split; [done|apply acked_last].
Qed.

Lemma deleteJob_lawful r id tr0 :
  rq_method r = "DELETE" → rq_path r = ["jobs"; id] →
  always (lawful (RequestTask r)) (answers_ok r) tr0 (deleteJob nodeServer id).
Proof.
  intros Hm Hp. quiet ans. destruct ans as [j []]; [|done]. quiet b. split.
  - split; [|done]. intros cmd [= <-]. right. by eexists id, _.
  - intros [[|]|]; [done|done|]. split; [done|]. intros _. eexists _, id. split; [done|apply acked_last].
Qed.

Lemma mux_lawful r tr0 : always (lawful (RequestTask r)) (answers_ok r) tr0 (mux nodeServer r).
Proof.
  unfold mux. destruct (rq_path r) as [|a [|id [|b [|]]]] eqn:Ep; try done.
  - destruct (String.eqb_spec a "jobs") as [->|].
    + destruct (String.eqb_spec (rq_method r) "POST") as [Hm|]; [by apply createJob_lawful|].
      destruct (is_get (rq_method r)); [by quiet js|done].
    + destruct (String.eqb a "cluster"); [|done]. destruct (is_get (rq_method r)); [|done].
      by quiet ans; destruct ans.
  - destruct (String.eqb_spec a "jobs") as [->|]; cbn [andb]; [|done].
    destruct (nonempty id); [|done]. destruct (is_get (rq_method r)).
    + quiet ans. destruct ans as [j []]; [by quiet rs|done].
    + destruct (String.eqb_spec (rq_method r) "DELETE") as [Hm|]; [by apply deleteJob_lawful|done].
  - destruct (_ && _); [|done]. destruct (String.eqb (rq_method r) "POST"); [|done].
    quiet ans. destruct ans as [j []]; [|done]. quiet now. by quiet u.
Qed.

Lemma answers_snoc r tr c resp : answers_ok r tr resp → answers_ok r (tr ++ [c]) resp.
Proof.
  intros [H1 H2]. split.
  - intros (reqID & j & Hb & Ha)%H1. exists reqID, j. split; [done|by apply acked_snoc].
  - intros (reqID & id & Hb & Ha)%H2. exists reqID, id. split; [done|by apply acked_snoc].
Qed.

Lemma request_lawful r : always (lawful (RequestTask r)) (answers_ok r) [] (Api.New nodeServer r).
Proof.
  unfold Api.New, logging. quiet start. apply (always_bind _ _ _ (mux nodeServer r)).
  eapply always_mono; [apply mux_lawful|done|]. intros tr resp H. quiet now. quiet u.
  by do 2 apply answers_snoc.
Qed.

(** ** Every task *)
Lemma task_lawful t : always (lawful t) (settled t) [] (task_prog t).
Proof.
  destruct t as [now|j now| |r]; apply always_bind.
  - eapply always_mono; [apply tick_lawful|done|done].
  - eapply always_mono; [apply fireJob_lawful|done|done].
  - eapply always_mono; [apply wait_lawful|done|done].
  - apply request_lawful.
Qed.
