(* ===== verification/NodeSafety.v ===== *)
(** * The whole program: the invariant

    A running program is in order ([node_ok]): its system is as in System.v, every
    goroutine is somewhere in a run of its task, a [Submit] it saw succeed is in the log
    of all stores for good, and all that is in the system comes from commands that
    goroutines submitted. *)
From Stdlib Require Import ZArith Lia String Ascii.
From stdpp Require Import base tactics list strings numbers option gmap.
From S2P Require Import Prelude.
From S2P Require Import GoTime.
From S2P Require Import Gob.
From S2P Require Import Persister.
From S2P Require Import RaftNode.
From S2P Require Import History.
From S2P Require Import HistorySteps.
From S2P Require Import Cluster.
From S2P Require Import ClusterVotes.
From S2P Require Import ClusterSafety.
From S2P Require Import ClusterInv.
From S2P Require Import ClusterSteps.
From S2P Require Import ClusterLog.
From S2P Require Import ClusterEffects.
From S2P Require Import ClusterHanded.
From S2P Require Import ClusterTotal.
From S2P Require Import ClusterCommit.
From S2P Require Import Store.
From S2P Require Import StoreSpec.
From S2P Require Import StoreTheorems.
From S2P Require Import System.
From S2P Require Import SystemSafety.
From S2P Require Import SystemValidity.
From S2P Require Import SystemOrigin.
From S2P Require Import Effects.
From S2P Require Import EffectsLogic.
From S2P Require Import Scheduler.
From S2P Require Import SchedulerTheorems.
From S2P Require Import Executor.
From S2P Require Import Api.
From S2P Require Import Main.
From S2P Require Import Nodes.
From S2P Require Import NodeLaws.

Local Open Scope string_scope.
Local Open Scope list_scope.
Local Open Scope Z_scope.

Section Safety.
Context {gobZ : Gob Z} {gobLog : Gob (list (LogEntry Cmd))} {gobState : Gob storeState}.
Context (n : nat).
Implicit Types (h : history Cmd) (S : system) (N : program) (g : goroutine) (gos : list goroutine).

(** ** The invariant *)

(** A submitted command with the request id of [cmd] is in the log for good, and all up
    to it was handed to stores. *)
Definition final S h gos (cmd : Cmd) : Prop :=
  ∃ i cmd', 0 < i ∧ handed (sy_cluster S) i ∧ entry_at n h i (Some cmd') ∧ c_ReqID cmd' = c_ReqID cmd ∧
    submitted_by gos cmd'.

(** The store of node [p] has executed it. *)
Definition seen S h gos (p : nat) (cmd : Cmd) : Prop :=
  ∃ pr i cmd', sy_procs S !! p = Some pr ∧ 0 < i <= pr_index pr ∧
    entry_at n h i (Some cmd') ∧ c_ReqID cmd' = c_ReqID cmd ∧ submitted_by gos cmd'.

Record go_ok S gos h g : Prop := {
  gk_run : reaches (task_prog (go_task g)) (go_trace g) (go_prog g);
  gk_acked : ∀ cmd, acked (go_trace g) cmd → final S h gos cmd;
  gk_seen : go_alive g = true → ∀ cmd, acked (go_trace g) cmd → seen S h gos (go_node g) cmd;
  gk_waits : go_alive g = true → ∀ ch, go_chan g = Some ch →
    ∃ pr wt, sy_procs S !! go_node g = Some pr ∧ started (pr_world pr) !! ch = Some wt ∧
      current_submit (go_prog g) = Some (w_cmd wt)
}.

Record node_ok N h : Prop := {
  nk_sys : sys_ok n (ns_sys N) h;
  nk_explained : explained (submitted_by (ns_gos N)) (ns_sys N);
  nk_go : ∀ g, g ∈ ns_gos N → go_ok (ns_sys N) (ns_gos N) h g
}.

Definition more_submits gos gos' : Prop := ∀ cmd, submitted_by gos cmd → submitted_by gos' cmd.

(** The callers on node [p] are still there, and its store has not gone back. *)
Definition kept_calls S S' (p : nat) : Prop := ∀ pr, sy_procs S !! p = Some pr →
  ∃ pr' l, sy_procs S' !! p = Some pr' ∧ started (pr_world pr') = started (pr_world pr) ++ l ∧
    pr_index pr <= pr_index pr'.

Lemma kept_calls_refl S p : kept_calls S S p.
Proof using Type. intros pr Hp. exists pr, []. by rewrite app_nil_r. Qed.

Lemma final_mono S S' h h' gos gos' cmd :
  hist_ext h h' → more_submits gos gos' → hands_more S S' → final S h gos cmd → final S' h' gos' cmd.
Proof using Type.
  intros He Hs [ms Ha] (i & cmd' & Hi & Hh & Hen & Hreq & Hsub). exists i, cmd'.
  split_and!; [done|by eapply handed_app|by eapply entry_at_ext|done|by apply Hs].
Qed.

Lemma seen_final S h gos p cmd :
  sys_ok n S h → gapless (sy_cluster S) → seen S h gos p cmd → final S h gos cmd.
Proof using Type.
  intros Hok Hg (pr & i & cmd' & Hp & [Hi Hle] & H). exists i, cmd'. split; [done|]. split; [|done].
  eapply handed_le; [by eapply index_handed|done].
Qed.

Lemma seen_mono S S' h h' gos gos' p cmd :
  hist_ext h h' → more_submits gos gos' → kept_calls S S' p → seen S h gos p cmd → seen S' h' gos' p cmd.
Proof using Type.
  intros He Hs Hk (pr & i & cmd' & Hp & Hi & Hen & Hreq & Hsub). destruct (Hk pr Hp) as (pr' & l & Hp' & _ & Hle).
  exists pr', i, cmd'. split_and!; [done|lia|lia|by eapply entry_at_ext|done|by apply Hs].
Qed.

Lemma go_ok_mono S S' gos gos' h h' g :
  hist_ext h h' → more_submits gos gos' → hands_more S S' →
  (go_alive g = true → kept_calls S S' (go_node g)) → go_ok S gos h g → go_ok S' gos' h' g.
Proof using Type.
  intros He Hs Hm Hk [Hr Ha Hse Hw]. constructor; [done| | |].
  - intros cmd Hc. by eapply final_mono, Ha.
  - intros Hal cmd Hc. eapply seen_mono; [done|done|by apply Hk|by apply Hse].
  - intros Hal ch Hch. destruct (Hw Hal ch Hch) as (pr & wt & Hp & Hwt & Hcmd).
    destruct (Hk Hal pr Hp) as (pr' & l & Hp' & Hst & _). exists pr', wt. split_and!; [done| |done].
    rewrite Hst. by apply lookup_app_l_Some.
Qed.

(** ** Lists of goroutines *)
Lemma more_submits_refl gos : more_submits gos gos.
Proof using Type. by intros cmd. Qed.

Lemma more_submits_app gos gos' : more_submits gos (gos ++ gos').
Proof using Type. intros cmd (g & Hg & Hc). exists g. split; [|done]. apply elem_of_app. by left. Qed.

Lemma more_submits_insert gos i g g' :
  gos !! i = Some g → (∀ cmd, cmd ∈ go_submits g → cmd ∈ go_submits g') → more_submits gos (<[i := g']> gos).
Proof using Type.
  intros Hi Hg cmd (x & Hx & Hc). apply list_elem_of_lookup in Hx as [j Hj].
  destruct (decide (i = j)) as [->|Hne].
  - rewrite Hi in Hj. injection Hj as ->. exists g'. split; [|by apply Hg].
    eapply list_elem_of_lookup_2, list_lookup_insert_eq. by eapply lookup_lt_Some.
  - exists x. split; [|done]. eapply list_elem_of_lookup_2. by rewrite list_lookup_insert_ne.
Qed.

Lemma elem_insert gos i g' x : x ∈ <[i := g']> gos → x = g' ∨ x ∈ gos.
Proof using Type.
  intros Hx. apply list_elem_of_lookup in Hx as [j Hj].
  apply list_lookup_insert_Some in Hj as [(_ & <- & _)|(_ & Hj)]; [by left|right].
  by eapply list_elem_of_lookup_2.
Qed.

Lemma submits_snoc tr c : submits (tr ++ [c]) = submits tr ++ option_list (submitted c).
Proof using Type. unfold submits. rewrite omap_app. simpl. by destruct (submitted c). Qed.

Lemma acked_snoc_inv tr c cmd :
  acked (tr ++ [c]) cmd → acked tr cmd ∨ c = Call (CallSubmit cmd) None.
Proof using Type.
  unfold acked. intros [?|Hc]%elem_of_app; [by left|right]. by apply list_elem_of_singleton in Hc.
Qed.

(** A goroutine with its call answered submits what it did before. *)
Lemma answered_submits g {X} (e : eff X) k x cmd :
  go_prog g = Do e k → cmd ∈ go_submits g → cmd ∈ go_submits (answered g e x (k x)).
Proof using Type.
  unfold go_submits, answered. intros Hp. cbn. rewrite submits_snoc, app_nil_r. cbn.
  intros [?|Hc]%elem_of_app; apply elem_of_app; [by left|right].
  destruct (go_chan g); [|by apply not_elem_of_nil in Hc]. rewrite Hp in Hc. simpl in Hc. by destruct e.
Qed.

(** ** Steps *)

(** The goroutine [i] becomes [g'], the others stay as they are. *)
Lemma node_ok_update N S' h h' i g g' more :
  node_ok N h → ns_gos N !! i = Some g → hist_ext h h' → sys_ok n S' h' →
  (∀ p, kept_calls (ns_sys N) S' p) → hands_more (ns_sys N) S' → (∀ cmd, cmd ∈ go_submits g → cmd ∈ go_submits g') →
  explained (submitted_by (<[i := g']> (ns_gos N) ++ more)) S' →
  go_ok S' (<[i := g']> (ns_gos N) ++ more) h' g' →
  (∀ x, x ∈ more → go_ok S' (<[i := g']> (ns_gos N) ++ more) h' x) →
  node_ok (mkProgram S' (<[i := g']> (ns_gos N) ++ more)) h'.
Proof using Type.
  intros [_ _ Hgo] Hi He Hok Hk Hhm Hsub Hv Hg' Hmore. constructor; [done|done|].
  intros x [Hx|Hx]%elem_of_app; [|by apply Hmore]. apply elem_insert in Hx as [->|Hx]; [done|].
  eapply go_ok_mono; [done| |done| |by apply Hgo]; [|by intros _].
  intros cmd Hc. apply more_submits_app. by eapply more_submits_insert.
Qed.

Lemma new_go_ok S gos h p t : go_ok S gos h (new_go p t).
Proof using Type.
  constructor; [apply reaches_refl|by intros cmd ?%not_elem_of_nil|by intros _ cmd ?%not_elem_of_nil|done].
Qed.

Lemma spawned_new p {X} (e : eff X) x : x ∈ spawned p e → ∃ t, x = new_go p t.
Proof using Type.
  destruct e; simpl; try by intros ?%not_elem_of_nil. intros ->%list_elem_of_singleton. by eexists.
Qed.

(** A goroutine makes its [Submit]. *)
Lemma node_submit N h i g {X} (e : eff X) k cmd pr S' :
  node_ok N h → ns_gos N !! i = Some g → go_prog g = Do e k → submit_of e = Some cmd → go_chan g = None →
  sy_procs (ns_sys N) !! go_node g = Some pr → sys_step (ns_sys N) (SysSubmit (go_node g) cmd) = Some S' →
  ∃ h', hist_ext h h' ∧
    node_ok (mkProgram S' (<[i := waits g (length (started (pr_world pr)))]> (ns_gos N))) h'.
Proof using Type.
  intros Hn Hi Hp Hs Hch Hpr E. set (g' := waits g _). pose proof Hn as [Hok Hv Hgo].
  destruct (sys_step_ok n _ h (SysSubmit (go_node g) cmd) S' Hok I E) as (h' & He & Hok').
  exists h'. split; [done|]. rewrite <- (app_nil_r (<[i := g']> _)).
  assert (Hsub : ∀ x, x ∈ go_submits g → x ∈ go_submits g').
  { unfold go_submits. rewrite Hch, app_nil_r. intros x Hx. apply elem_of_app. by left. }
  assert (Hmore : more_submits (ns_gos N) (<[i := g']> (ns_gos N) ++ [])).
  { rewrite app_nil_r. by eapply more_submits_insert. }
  assert (Hkept : ∀ p, kept_calls (ns_sys N) S' p) by (intros p q Hq; by eapply (sys_started n (ns_sys N) h (SysSubmit (go_node g) cmd))).
  assert (Hhm : hands_more (ns_sys N) S') by exact (sys_hands_more _ (SysSubmit (go_node g) cmd) _ eq_refl E).
  eapply node_ok_update; [done|done|done|done|exact Hkept|exact Hhm|done| | |by intros x ?%not_elem_of_nil].
  - eapply (explained_step _ n (ns_sys N) h (SysSubmit (go_node g) cmd) S' h'); [done|done| | |done|done].
    + exact (explained_mono _ _ _ Hmore Hv).
    + intros p x [= _ <-]. exists g'. split.
      * apply elem_of_app. left. eapply list_elem_of_lookup_2, list_lookup_insert_eq. by eapply lookup_lt_Some.
      * apply elem_of_app. right. cbn. rewrite Hp. simpl. rewrite Hs. by apply list_elem_of_singleton.
  - destruct (Hgo g ltac:(by eapply list_elem_of_lookup_2)) as [Hr Ha Hse _]. constructor; [done| | |].
    + intros x Hx. eapply final_mono; [done|done|exact Hhm|by apply Ha].
    + intros Hal x Hx. eapply seen_mono; [done|done|apply Hkept|by apply Hse].
    + intros _ ch [= <-]. destruct (sys_submitted _ _ _ _ _ E Hpr) as (pr' & wt & Hpr' & Hwt & Hcmd).
      exists pr', wt. split_and!; [done|done|]. cbn. rewrite Hp. simpl. by rewrite Hs, Hcmd.
Qed.

(** A goroutine gets an answer, and may start another. *)
Lemma node_answer N h i g {X} (e : eff X) k x :
  node_ok N h → ns_gos N !! i = Some g → go_prog g = Do e k →
  (∀ cmd, Call e x = Call (CallSubmit cmd) None → seen (ns_sys N) h (ns_gos N) (go_node g) cmd) →
  node_ok (mkProgram (ns_sys N) (<[i := answered g e x (k x)]> (ns_gos N) ++ spawned (go_node g) e)) h.
Proof using Type.
  intros Hn Hi Hp Hack. pose proof Hn as [Hok Hv Hgo]. set (g' := answered g e x (k x)).
  assert (Hsub : ∀ c, c ∈ go_submits g → c ∈ go_submits g') by (intros c; by apply answered_submits).
  assert (Hmore : more_submits (ns_gos N) (<[i := g']> (ns_gos N) ++ spawned (go_node g) e)).
  { intros c Hc. apply more_submits_app. by eapply more_submits_insert. }
  eapply node_ok_update; [done|done|apply hist_ext_refl|done|apply kept_calls_refl|apply hands_more_refl|done| | |].
  - exact (explained_mono _ _ _ Hmore Hv).
  - destruct (Hgo g ltac:(by eapply list_elem_of_lookup_2)) as [Hr Ha Hse _]. constructor; [| | |done].
    + cbn. rewrite Hp in Hr. by apply reaches_snoc.
    + intros cmd Hc. eapply final_mono; [apply hist_ext_refl|done|apply hands_more_refl|].
      apply acked_snoc_inv in Hc as [Hc|Hc]; [by apply Ha|eapply seen_final; [done|apply (proj1 Hv)|by apply Hack]].
    + intros Hal cmd Hc. eapply seen_mono; [apply hist_ext_refl|done|apply kept_calls_refl|].
      apply acked_snoc_inv in Hc as [Hc|Hc]; [by apply Hse|by apply Hack].
  - intros y Hy. apply spawned_new in Hy as [t ->]. apply new_go_ok.
Qed.

(** The answer [None] of a [Submit] means what it says. *)
Lemma node_acked N h g {X} (e : eff X) k ch pr r x cmd :
  node_ok N h → g ∈ ns_gos N → go_alive g = true → go_prog g = Do e k → go_chan g = Some ch →
  sy_procs (ns_sys N) !! go_node g = Some pr →
  list_find (λ y, y.1 = ch) (returned (pr_world pr)) = Some r → submit_answer e r.2.2 = Some x →
  Call e x = Call (CallSubmit cmd) None → seen (ns_sys N) h (ns_gos N) (go_node g) cmd.
Proof using Type.
  intros [Hok Hv Hgo] Hg Hal Hp Hch Hpr Hf Hx Hc. destruct r as [j [c err]].
  apply list_find_Some in Hf as (Hj & Hc1 & _). simpl in Hc1, Hx. subst c.
  destruct (gk_waits _ _ _ _ (Hgo g Hg) Hal ch Hch) as (pr2 & wt & Hpr2 & Hwt & Hcur).
  rewrite Hpr in Hpr2. injection Hpr2 as <-. rewrite Hp in Hcur. simpl in Hcur.
  destruct e as [| | |cmd0| | | | | | |]; try done. cbn in Hx, Hcur. injection Hx as <-. injection Hcur as Hcmd.
  assert (Hs : cmd0 = cmd) by (apply (f_equal submitted) in Hc; by injection Hc).
  assert (He : err = None).
  { by apply (f_equal (λ c, match c with
      | @Call X e y => match e in eff Y return Y → option error with CallSubmit _ => λ y, y | _ => λ _, None end y
      end)) in Hc. }
  subst err. destruct (returned_final _ n _ h _ _ _ Hok (proj1 Hv) Hpr (list_elem_of_lookup_2 _ _ _ Hj))
    as (wt2 & cmd' & Hwt2 & Hreq & Hsub & Hi & Hen). rewrite Hwt in Hwt2. injection Hwt2 as <-.
  exists pr, (w_index wt), cmd'. split_and!; [done|apply Hi|apply Hi|done| |done]. congruence.
Qed.

Lemma node_call N h i o N' :
  node_ok N h → node_step N (NodeCall i o) = Some N' → ∃ h', hist_ext h h' ∧ node_ok N' h'.
Proof using Type.
  intros Hn E. cbn [node_step] in E. destruct (ns_gos N !! i) as [g|] eqn:Hi; [|done]. cbn [mbind option_bind] in E.
  destruct (go_alive g) eqn:Hal; [|done]. unfold go_call in E.
  destruct (sy_procs (ns_sys N) !! go_node g) as [pr|] eqn:Hpr; [|done]. cbn [mbind option_bind] in E.
  destruct (nodes (sy_cluster (ns_sys N)) !! go_node g) as [rf|]; [|done]. cbn [mbind option_bind] in E.
  destruct (go_prog g) as [a|X e k|] eqn:Hp; [done| |done].
  pose proof (list_elem_of_lookup_2 _ _ _ Hi) as Hin.
  destruct (submit_of e) as [cmd|] eqn:Hs.
  - destruct (go_chan g) as [ch|] eqn:Hch.
    + destruct (list_find _ _) as [r|] eqn:Hf; [|done]. cbn [mbind option_bind] in E.
      destruct (submit_answer e r.2.2) as [x|] eqn:Hx; [|done]. cbn [mbind option_bind] in E. injection E as <-.
      exists h. split; [apply hist_ext_refl|]. rewrite <- (app_nil_r (<[i := _]> _)).
      assert (Hsp : spawned (go_node g) e = []) by by destruct e. rewrite <- Hsp.
      apply node_answer; [done|done|done|]. intros cmd' Hc. by eapply node_acked.
    + destruct (sys_step (ns_sys N) _) as [S'|] eqn:Es; [|done]. cbn [mbind option_bind] in E.
      injection E as <-. by eapply node_submit.
  - destruct (local_answer e rf _ o) as [x|]; [|done]. cbn [mbind option_bind] in E.
    assert (EN : N' = mkProgram (ns_sys N) (<[i := answered g e x (k x)]> (ns_gos N) ++ spawned (go_node g) e))
      by by destruct (go_chan g); injection E as <-.
    exists h. split; [apply hist_ext_refl|]. rewrite EN. apply node_answer; [done|done|done|].
    intros cmd' Hc. apply (f_equal submitted) in Hc. simpl in Hc. exfalso. by destruct e.
Qed.

Lemma crash_submits p g : go_submits (crash p g) = go_submits g.
Proof using Type. unfold crash. by case_decide. Qed.

Lemma node_restart N h p now N' :
  node_ok N h → node_step N (NodeRestart p now) = Some N' → ∃ h', hist_ext h h' ∧ node_ok N' h'.
Proof using Type.
  intros [Hok Hv Hgo] E. cbn [node_step] in E. destruct (sys_step (ns_sys N) (SysRestart p now)) as [S'|] eqn:Es; [|done].
  cbn [mbind option_bind] in E. injection E as <-.
  destruct (sys_step_ok n _ h (SysRestart p now) S' Hok I Es) as (h' & He & Hok'). exists h'. split; [done|].
  assert (Hmore : more_submits (ns_gos N) (crash p <$> ns_gos N)).
  { intros cmd (g & Hg & Hc). exists (crash p g). rewrite crash_submits. split; [|done].
    by apply list_elem_of_fmap_2. }
  constructor; [done| |]; cbn.
  - eapply (explained_step _ n (ns_sys N) h (SysRestart p now) S' h'); [done|done|exact (explained_mono _ _ _ Hmore Hv)|done|done|done].
  - intros g' (g & -> & Hg)%list_elem_of_fmap. pose proof (Hgo g Hg) as Hgk. unfold crash. case_decide as Hd.
    + destruct Hgk as [Hr Ha _ _]. constructor; [done| |done|done]. intros cmd Hc.
      eapply final_mono; [done|done|exact (sys_hands_more _ (SysRestart p now) _ eq_refl Es)|by apply Ha].
    + eapply go_ok_mono; [done|done|exact (sys_hands_more _ (SysRestart p now) _ eq_refl Es)| |done]. intros _ pr Hp.
      eapply (sys_started n (ns_sys N) h); [done|done|done| |done].
      intros now' [= -> _]. done.
Qed.

Lemma node_step_ok N h ev N' :
  node_ok N h → node_in_step N ev → node_step N ev = Some N' → ∃ h', hist_ext h h' ∧ node_ok N' h'.
Proof using Type.
  intros Hn Hst E. destruct ev as [ev|p t|i o|p now|]; [| |by eapply node_call|by eapply node_restart|done]; cbn [node_step] in E.
  - destruct (background ev) eqn:Hb; [|done]. destruct (sys_step (ns_sys N) ev) as [S'|] eqn:Es; [|done].
    cbn [mbind option_bind] in E. injection E as <-. destruct Hn as [Hok Hv Hgo].
    assert (Hd : starts_over ev = false) by by destruct ev.
    destruct (sys_step_ok n _ h ev S' Hok Hst Es) as (h' & He & Hok'). exists h'. split; [done|].
    constructor; [done| |]; cbn.
    + eapply (explained_step _ n (ns_sys N) h ev S' h'); [done|done|done| |done|done]. by intros p cmd ->.
    + intros g Hg. eapply go_ok_mono; [done|apply more_submits_refl|by eapply sys_hands_more| |by apply Hgo].
      intros _ pr Hp. eapply (sys_started n (ns_sys N) h); [done|done|done| |done]. by intros now ->.
  - destruct (sy_procs (ns_sys N) !! p); [|done]. cbn [mbind option_bind] in E.
    destruct (startable t); [|done]. injection E as <-. destruct Hn as [Hok Hv Hgo].
    exists h. split; [apply hist_ext_refl|]. constructor; [done| |]; cbn.
    + eapply explained_mono; [|done]. apply more_submits_app.
    + intros g [Hg| ->%list_elem_of_singleton]%elem_of_app; [|apply new_go_ok].
      eapply go_ok_mono; [apply hist_ext_refl|apply more_submits_app|apply hands_more_refl| |by apply Hgo].
      intros _. apply kept_calls_refl.
Qed.

Lemma node_run_ok N h evs N' :
  node_ok N h → node_run N evs = Some N' → ∃ h', hist_ext h h' ∧ node_ok N' h'.
Proof using Type.
  revert N h. induction evs as [|ev evs IH]; intros N h Hn; simpl.
  { intros [= <-]. exists h. split; [apply hist_ext_refl|done]. }
  destruct (decide (node_in_step N ev)) as [Hst|]; [|done].
  destruct (node_step N ev) as [N1|] eqn:E; [|done]. cbn [mbind option_bind]. intros Hr.
  destruct (node_step_ok _ _ _ _ Hn Hst E) as (h1 & He1 & Hn1).
  destruct (IH N1 h1 Hn1 Hr) as (h' & He & Hn'). exists h'. split; [by eapply hist_ext_trans|done].
Qed.

End Safety.
