(* ===== verification/NodeTheorems.v ===== *)
(** * The whole program: what clients and jobs can rely on

    From the invariant of NodeSafety.v and the assertions of NodeLaws.v: an answer 201
    or 204 is final, a job works only after the advance of its [NextRun] is, every
    command has its goroutine.  Last, a run in which a job runs twice. *)
From Stdlib Require Import ZArith Lia String Ascii.
From stdpp Require Import base tactics list strings numbers option gmap.
From S2P Require Import Prelude.
From S2P Require Import GoTime.
From S2P Require Import Gob.
From S2P Require Import Persister.
From S2P Require Import RaftNode.
From S2P Require Import History.
From S2P Require Import HistorySteps.
From S2P Require Import Cluster.
From S2P Require Import ClusterVotes.
From S2P Require Import ClusterSafety.
From S2P Require Import ClusterInv.
From S2P Require Import ClusterSteps.
From S2P Require Import ClusterLog.
From S2P Require Import Store.
From S2P Require Import StoreSpec.
From S2P Require Import StoreTheorems.
From S2P Require Import System.
From S2P Require Import ClusterHanded.
From S2P Require Import SystemSafety.
From S2P Require Import SystemValidity.
From S2P Require Import SystemOrigin.
From S2P Require Import Effects.
From S2P Require Import EffectsLogic.
From S2P Require Import Scheduler.
From S2P Require Import SchedulerTheorems.
From S2P Require Import Executor.
From S2P Require Import Api.
From S2P Require Import Main.
From S2P Require Import Nodes.
From S2P Require Import NodeLaws.
From S2P Require Import NodeSafety.

Local Open Scope string_scope.
Local Open Scope list_scope.
Local Open Scope Z_scope.

(** ** The theorems *)
Section Theorems.
Context {gobZ : Gob Z} {gobLog : Gob (list (LogEntry Cmd))} {gobState : Gob storeState}.
Implicit Types (N : program) (g : goroutine).

Lemma node_init_ok ps now : node_ok (length ps) (node_init ps now) hist_init.
Proof using Type.
  constructor; [apply sys_init_ok|apply explained_init|]. by intros g ?%not_elem_of_nil.
Qed.

Lemma node_reachable_ok ps now N : node_reachable ps now N → ∃ h, node_ok (length ps) N h.
Proof using Type.
  intros [evs Hr]. destruct (node_run_ok _ _ _ _ _ (node_init_ok ps now) Hr) as (h & _ & Hn). by exists h.
Qed.

(** No goroutine forgets what it submitted. *)
Lemma node_step_more N ev N' : node_step N ev = Some N' → more_submits (ns_gos N) (ns_gos N').
Proof using Type.
  intros E. assert (Hcrash : ∀ p, more_submits (ns_gos N) (crash p <$> ns_gos N)).
  { intros p cmd (g & Hg & Hc). exists (crash p g).
    rewrite crash_submits. split; [by apply list_elem_of_fmap_2|done]. }
  destruct ev as [ev|p t|i o|p now|p now]; cbn [node_step] in E.
  - destruct (background ev); [|done]. destruct (sys_step (ns_sys N) ev); [|done]. injection E as <-. apply more_submits_refl.
  - destruct (sy_procs _ !! p); [|done]. cbn [mbind option_bind] in E. destruct (startable t); [|done].
    injection E as <-. apply more_submits_app.
  - destruct (ns_gos N !! i) as [g|] eqn:Hi; [|done]. cbn [mbind option_bind] in E.
    destruct (go_alive g); [|done]. unfold go_call in E.
    destruct (sy_procs _ !! _) as [pr|]; [|done]. cbn [mbind option_bind] in E.
    destruct (nodes _ !! _) as [rf|]; [|done]. cbn [mbind option_bind] in E.
    destruct (go_prog g) as [a|X e k|] eqn:Hp; [done| |done].
    assert (Hans : ∀ x more, more_submits (ns_gos N) (<[i := answered g e x (k x)]> (ns_gos N) ++ more)).
    { intros x more c Hc. apply more_submits_app. eapply more_submits_insert; [done| |done].
      intros y. by apply answered_submits. }
    destruct (submit_of e) as [cmd|] eqn:Hs; [destruct (go_chan g) as [ch|] eqn:Hch|].
    + destruct (list_find _ _) as [r|]; [|done]. cbn [mbind option_bind] in E.
      destruct (submit_answer e r.2.2) as [x|]; [|done]. injection E as <-. cbn.
      rewrite <- (app_nil_r (<[i := _]> _)). apply Hans.
    + destruct (sys_step _ _); [|done]. injection E as <-. eapply more_submits_insert; [done|].
      unfold go_submits. rewrite Hch, app_nil_r. intros y Hy. apply elem_of_app. by left.
    + destruct (local_answer e rf _ o) as [x|]; [|done]. destruct (go_chan g); injection E as <-; apply Hans.
  - destruct (sys_step _ _); [|done]. injection E as <-. apply Hcrash.
  - destruct (sys_step _ _); [|done]. injection E as <-. apply Hcrash.
Qed.

Lemma node_step_hands N ev N' :
  node_starts_over ev = false → node_step N ev = Some N' → hands_more (ns_sys N) (ns_sys N').
Proof using Type.
  intros Hd E. destruct ev as [ev|p t|i o|p now|]; [..|done]; cbn [node_step] in E; clear Hd.
  - destruct (background ev) eqn:Hb; [|done]. destruct (sys_step (ns_sys N) ev) eqn:Es; [|done].
    injection E as <-. eapply (sys_hands_more _ ev); [by destruct ev|done].
  - destruct (sy_procs _ !! p); [|done]. cbn [mbind option_bind] in E. destruct (startable t); [|done].
    injection E as <-. apply hands_more_refl.
  - destruct (ns_gos N !! i) as [g|]; [|done]. cbn [mbind option_bind] in E.
    destruct (go_alive g); [|done]. unfold go_call in E.
    destruct (sy_procs _ !! _) as [pr|]; [|done]. cbn [mbind option_bind] in E.
    destruct (nodes _ !! _) as [rf|]; [|done]. cbn [mbind option_bind] in E.
    destruct (go_prog g) as [a|X e k|]; [done| |done].
    destruct (submit_of e) as [cmd|]; [destruct (go_chan g) as [ch|]|].
    + destruct (list_find _ _) as [r|]; [|done]. cbn [mbind option_bind] in E.
      destruct (submit_answer e r.2.2); [|done]. injection E as <-. apply hands_more_refl.
    + destruct (sys_step _ _) eqn:Es; [|done]. injection E as <-. by eapply (sys_hands_more _ (SysSubmit _ _)).
    + destruct (local_answer e rf _ o); [|done]. destruct (go_chan g); injection E as <-; apply hands_more_refl.
  - destruct (sys_step _ _) eqn:Es; [|done]. injection E as <-. by eapply (sys_hands_more _ (SysRestart _ _)).
Qed.

Lemma node_run_more N evs N' : node_run N evs = Some N' → more_submits (ns_gos N) (ns_gos N').
Proof using Type.
  revert N. induction evs as [|ev evs IH]; intros N; simpl; [intros [= <-]; apply more_submits_refl|].
  destruct (decide _); [|done]. destruct (node_step N ev) as [N1|] eqn:E; [|done]. cbn [mbind option_bind].
  intros Hr cmd Hc. by eapply IH, node_step_more.
Qed.

Lemma node_run_hands N evs N' : node_run N evs = Some N' → hands_more (ns_sys N) (ns_sys N').
Proof using Type.
  revert N. induction evs as [|ev evs IH]; intros N; simpl; [intros [= <-]; apply hands_more_refl|].
  destruct (decide _) as [Hi|]; [|done]. destruct (node_step N ev) as [N1|] eqn:E; [|done]. cbn [mbind option_bind].
  apply (node_in_step_spec _ _ _ E) in Hi as [_ Hd].
  intros Hr. destruct (IH _ Hr) as [ms Hms]. destruct (node_step_hands _ _ _ Hd E) as [ms1 Hms1].
  exists (ms1 ++ ms). by rewrite Hms, Hms1, app_assoc.
Qed.

(** [L] is the log of what was handed to the stores by the second moment, and all stores
    follow it, at both. *)
Definition common_log N N' (L : list (option Cmd)) : Prop :=
  service_log (sy_cluster (ns_sys N')) L ∧
  ∀ pr, pr ∈ sy_procs (ns_sys N) ∨ pr ∈ sy_procs (ns_sys N') → replicates L pr.

(** [cmd] is in that log. *)
Definition in_log N N' (cmd : Cmd) : Prop := ∃ L i, common_log N N' L ∧ L !! i = Some (Some cmd).

Lemma node_common_log n N N' h h' :
  node_ok n N h → node_ok n N' h' → hist_ext h h' → hands_more (ns_sys N) (ns_sys N') →
  ∃ L, common_log N N' L ∧
    ∀ i cmd, 0 < i → handed (sy_cluster (ns_sys N')) i → entry_at n h' i cmd → L !! Z.to_nat (i - 1) = Some cmd.
Proof using Type.
  intros [Hok Hv _] [Hok' Hv' _] He Hm.
  destruct (stores_one_log n _ h _ h' Hok Hok' He (sv_gapless _ _ (proj1 Hv)) (sv_gapless _ _ (proj1 Hv')) Hm)
    as (L & HL & Hr & Hat). by exists L.
Qed.

Lemma acked_submitted g gos cmd : g ∈ gos → acked (go_trace g) cmd → submitted_by gos cmd.
Proof using Type.
  intros Hg Hc. exists g. split; [done|]. apply elem_of_app. left.
  apply list_elem_of_omap. by exists (Call (CallSubmit cmd) None).
Qed.

(** A [Submit] that a goroutine saw succeed. *)
Lemma acked_in_log ps now N evs N' g cmd :
  node_reachable ps now N → node_run N evs = Some N' → distinct_ids N' →
  g ∈ ns_gos N → acked (go_trace g) cmd → in_log N N' cmd.
Proof using Type.
  intros (h & Hn)%node_reachable_ok Hr Hd Hg Hc. destruct (node_run_ok _ _ _ _ _ Hn Hr) as (h' & He & Hn').
  pose proof (node_run_more _ _ _ Hr) as Hmore.
  destruct (final_mono _ _ _ _ _ _ _ _ He Hmore (node_run_hands _ _ _ Hr) (gk_acked _ _ _ _ _ (nk_go _ _ _ Hn g Hg) cmd Hc))
    as (i & cmd' & Hi & Hh & Hen & Hreq & Hsub).
  assert (cmd' = cmd) as ->.
  { apply Hd; [done| |done]. apply Hmore. by apply (acked_submitted g). }
  destruct (node_common_log _ _ _ _ _ Hn Hn' He (node_run_hands _ _ _ Hr)) as (L & HL & Hat).
  exists L, (Z.to_nat (i - 1)). split; [done|]. by apply Hat.
Qed.

(** A run in step, in two parts. *)
Lemma node_reachable_parts ps now evs N evs' N' :
  node_exec (node_init ps now) evs = Some N → node_exec N evs' = Some N' →
  node_snapshots_in_step (node_init ps now) (evs ++ evs') → node_disks_survive (evs ++ evs') →
  node_reachable ps now N ∧ node_run N evs' = Some N'.
Proof using Type.
  intros E E' Hs Hd. destruct (node_run_parts _ _ _ _ _ E E' Hs Hd) as [? ?]. split; [by exists evs|done].
Qed.

Lemma node_reachable_exec ps now evs N :
  node_exec (node_init ps now) evs = Some N → node_snapshots_in_step (node_init ps now) evs →
  node_disks_survive evs → node_reachable ps now N.
Proof using Type. intros E Hs Hd. exists evs. by apply node_run_exec. Qed.

Lemma go_law ps now N g :
  node_reachable ps now N → g ∈ ns_gos N →
  always (lawful (go_task g)) (settled (go_task g)) (go_trace g) (go_prog g) ∧
  ∀ tr1 X (e : eff X) x tr2, go_trace g = tr1 ++ Call e x :: tr2 → lawful (go_task g) tr1 X e.
Proof using Type.
  intros (h & Hn)%node_reachable_ok Hg.
  exact (always_reaches _ _ _ _ _ _ (task_lawful (go_task g)) (gk_run _ _ _ _ _ (nk_go _ _ _ Hn g Hg))).
Qed.

(** C3. The answers of the REST API are final, for the whole program: when a request was
    answered 201 with a job, the upsert of this job is in the one log that the stores of
    all nodes follow, then and at any later moment of the run; when it was answered 204,
    the delete of the job it names is.  This holds in runs in which no two commands drew
    the same random request id, no snapshot is installed on a peer that has applied more or
    is delivering entries (raft.go:898 does not prevent it), and a node that comes back
    after a crash has the persister it had (main.go:60 makes an empty one; nodes that stay
    down are covered).  Elections, lost and repeated messages occur in any order. *)
Theorem answer_is_final ps now evs N evs' N' g r resp :
  node_exec (node_init ps now) evs = Some N → node_exec N evs' = Some N' →
  node_snapshots_in_step (node_init ps now) (evs ++ evs') → node_disks_survive (evs ++ evs') →
  distinct_ids N' →
  g ∈ ns_gos N → go_task g = RequestTask r → go_prog g = Ret (Answered resp) →
  (rs_status resp = 201 → ∃ reqID j, rs_body resp = JobBody j ∧
     in_log N N' (mkCmd CmdUpsert reqID j EmptyString zeroRun)) ∧
  (rs_status resp = 204 → ∃ reqID id, rq_path r = ["jobs"; id] ∧
     in_log N N' (mkCmd CmdDelete reqID zeroJob id zeroRun)).
Proof using Type.
  intros E E' Hs Hds Hd Hg Ht Hp. destruct (node_reachable_parts _ _ _ _ _ _ E E' Hs Hds) as [Hn Hr].
  destruct (go_law _ _ _ _ Hn Hg) as [Hl _]. rewrite Ht, Hp in Hl.
  destruct Hl as [H1 H4]. split.
  - intros (reqID & j & Hb & Ha)%H1. exists reqID, j. split; [done|]. by eapply acked_in_log.
  - intros (reqID & id & Hb & Ha)%H4. exists reqID, id. split; [done|]. by eapply acked_in_log.
Qed.

(** C4. A job does its work only after its advance is final, for the whole program: a
    goroutine that has run a shell command or posted to a URL is one that was started to
    fire a job (by a tick, by the catch-up or by a request for a manual run); before that
    call it saw a [Submit] succeed of the upsert that moves the job's [NextRun] to its next
    activation, and this upsert is in the one log that the stores of all nodes follow, then
    and at any later moment of the run.  This holds in runs in which no two commands drew
    the same random request id, no snapshot is installed on a peer that has applied more or
    is delivering entries (raft.go:898 does not prevent it), and a node that comes back has
    the persister it had (main.go:60 makes an empty one). *)
Theorem works_after_advance ps now evs N evs' N' g c :
  node_exec (node_init ps now) evs = Some N → node_exec N evs' = Some N' →
  node_snapshots_in_step (node_init ps now) (evs ++ evs') → node_disks_survive (evs ++ evs') →
  distinct_ids N' → g ∈ ns_gos N → c ∈ go_trace g → external_call c = true →
  ∃ j t adv tr, go_task g = FireTask j t ∧ advance j t adv ∧
    tr ++ [c] `prefix_of` go_trace g ∧ acked tr adv ∧ in_log N N' adv.
Proof using Type.
  intros E E' Hs Hds Hd Hg Hc Hext. destruct (node_reachable_parts _ _ _ _ _ _ E E' Hs Hds) as [Hn Hr].
  destruct (go_law _ _ _ _ Hn Hg) as [_ Hl].
  apply list_elem_of_split in Hc as (tr1 & tr2 & Heq). destruct c as [X e x].
  destruct (Hl _ _ _ _ _ Heq) as [_ Hx]. destruct (Hx Hext) as (j & t & adv & Ht & Hadv & Hack).
  exists j, t, adv, tr1. split_and!; [done|done|rewrite Heq; exists tr2; by rewrite <- app_assoc|done|].
  eapply acked_in_log; try done. unfold acked. rewrite Heq. apply elem_of_app. by left.
Qed.

(** A submitted command, its goroutine and the calls before. *)
Lemma submitted_origin ps now N cmd :
  node_reachable ps now N → submitted_by (ns_gos N) cmd →
  ∃ g tr, g ∈ ns_gos N ∧ tr `prefix_of` go_trace g ∧ origin (go_task g) tr cmd.
Proof using Type.
  intros Hn (g & Hg & Hin). destruct (go_law _ _ _ _ Hn Hg) as [Hcur Hl]. exists g.
  apply elem_of_app in Hin as [Hin|Hin].
  - apply list_elem_of_omap in Hin as ([X e x] & Hin & Hs). apply list_elem_of_split in Hin as (tr1 & tr2 & Heq).
    exists tr1. split_and!; [done|rewrite Heq; by eexists|]. apply (Hl _ _ _ _ _ Heq). by destruct e.
  - destruct (go_chan g); [|by apply not_elem_of_nil in Hin]. exists (go_trace g). split_and!; [done|done|].
    destruct (go_prog g) as [a|X e k|]; try by apply not_elem_of_nil in Hin.
    apply (proj1 Hcur). simpl in Hin. destruct (submit_of e); [|by apply not_elem_of_nil in Hin].
    by apply list_elem_of_singleton in Hin as ->.
Qed.

(** Every command has its goroutine: what a store was given to execute was submitted by
    a goroutine that had a reason to. *)
Theorem commands_have_origin ps now N p pr m cmd :
  node_reachable ps now N → sy_procs (ns_sys N) !! p = Some pr →
  m ∈ handled (pr_world pr) → am_SnapshotValid m = false → am_Command m = Some cmd →
  ∃ g tr, g ∈ ns_gos N ∧ tr `prefix_of` go_trace g ∧ origin (go_task g) tr cmd.
Proof using Type.
  intros Hn Hp Hm Hv Hc. destruct (node_reachable_ok _ _ _ Hn) as [h Hok].
  eapply submitted_origin; [done|].
  eapply (sv_heard _ _ (proj1 (nk_explained _ _ _ Hok)) p pr m Hp); [|done|done]. apply elem_of_app. by left.
Qed.


(** C18. The run histories are true: every run record in the store of any node is the
    outcome of a run that happened, by a goroutine that fired this job and began to work
    only after the advance of [NextRun] was acknowledged.  This holds in runs in which no
    snapshot is installed on a peer that has applied more or is delivering entries
    (raft.go:898 does not prevent it), and a node that comes back has the persister it had
    (main.go:60 makes an empty one). *)
Theorem runs_happened ps now evs N p pr id rs r :
  node_exec (node_init ps now) evs = Some N →
  node_snapshots_in_step (node_init ps now) evs → node_disks_survive evs →
  sy_procs (ns_sys N) !! p = Some pr →
  Store.runs (store (pr_world pr)) !! id = Some rs → r ∈ rs →
  ∃ g j t tr, g ∈ ns_gos N ∧ go_task g = FireTask j t ∧ j_ID j = id ∧
    tr `prefix_of` go_trace g ∧ outcome_of j t tr r.
Proof using Type.
  intros E Hs Hds Hp Hrs Hin. pose proof (node_reachable_exec _ _ _ _ E Hs Hds) as Hn.
  destruct (node_reachable_ok _ _ _ Hn) as [h Hok].
  destruct (sf_runs _ _ (fr_store _ _ (proj2 (nk_explained _ _ _ Hok)) p pr Hp) id rs r Hrs Hin)
    as (cmd & Hsub & Ht & Hid & Hr).
  destruct (submitted_origin _ _ _ _ Hn Hsub) as (g & tr & Hg & Htr & Ho).
  destruct (go_task g) as [now1|j t| |rq] eqn:Eg; simpl in Ho; [done| | |].
  - destruct Ho as [(req & next & _ & ->)|(req & rec & -> & Ho)]; [done|]. simpl in Hr. subst rec.
    exists g, j, t, tr. split_and!; try done. destruct Ho as (? & ? & ? & ? & ? & ? & _ & _ & _ & _ & Hc & _).
    by rewrite <- Hc.
  - by destruct Ho as (j & t & _ & req & next & _ & ->).
  - destruct Ho as [(_ & _ & ? & ? & ? & ? & ? & _ & ->)|(? & ? & _ & _ & ->)]; done.
Qed.

Lemma distinct_ids_check N :
  NoDup (c_ReqID <$> mjoin (go_submits <$> ns_gos N)) → distinct_ids N.
Proof using Type.
  intros Hd. assert (Hin : ∀ cmd, submitted_by (ns_gos N) cmd → cmd ∈ mjoin (go_submits <$> ns_gos N)).
  { intros cmd (g & Hg & Hc). apply list_elem_of_join. exists (go_submits g). split; [done|].
    by apply list_elem_of_fmap_2. }
  intros cmd cmd' (i & Hi)%Hin%list_elem_of_lookup (j & Hj)%Hin%list_elem_of_lookup Heq.
  assert (i = j) as ->.
  { eapply NoDup_lookup; [exact Hd| |]; rewrite list_lookup_fmap; [by rewrite Hi|]. rewrite Hj. simpl. by rewrite <- Heq. }
  congruence.
Qed.

End Theorems.

(** ** A job that runs twice *)
Module DoubleFire.
Import Runs.

Definition cl (ev : event Cmd) : node_event := NodeSys (SysCluster ev).

(** POST /jobs with a job every five minutes; the clock on day 1000 after 10:00. *)
Definition body : createJobReq :=
  mkCreateJobReq "a" "nightly" "*/5 * * * *" "shell" "backup" EmptyString.
Definition post : request := mkRequest "POST" ["jobs"] (inr body).
Definition clock (min sec : Z) : Time := mkTime (1000 * DayNs + 10 * Hour + min * Minute + sec * Second) 0.
Definition random (c : ascii) : outside_answer := AnsBytes (repeat c 8).
Definition exits : outside_answer := AnsShell (mkShell "done" None false).

(** Node 0 is elected, creates the job at 10:31 and answers 201. *)
Definition created : list node_event :=
  [cl (EvElection 0 300 260); cl (EvRun 6); cl (EvServe 0 301); cl (EvReply 7 0);
   NodeGo 0 (RequestTask post); NodeCall 0 (AnsTime (clock 31 0)); NodeCall 0 (AnsTime (clock 31 0));
   NodeCall 0 (AnsTime (clock 31 0)); NodeCall 0 (random "001"); NodeCall 0 AnsNone;
   cl (EvRun 8); cl (EvRun 8); cl (EvServe 1 310); cl (EvReply 9 1); cl (EvRun 0);
   NodeSys (SysHandle 0); NodeSys (SysReceive 0 0); NodeCall 0 AnsNone;
   NodeCall 0 (AnsTime (clock 31 1)); NodeCall 0 AnsNone].

(** Node 1 learns of it by a heartbeat.  At 10:35:01 node 0 fires the job: its advance
    is on node 1 and committed, and the command runs.  Its next messages are late. *)
Definition fired_once : list node_event :=
  [cl (EvRun 6); cl (EvRun 8); cl (EvRun 8); cl (EvServe 2 320); cl (EvReply 10 2); cl (EvRun 1);
   NodeSys (SysHandle 1);
   NodeGo 0 (TickTask (clock 35 1)); NodeCall 1 AnsNone; NodeCall 1 (AnsKeys ["a"]); NodeCall 1 AnsNone;
   NodeCall 2 (random "002"); NodeCall 2 AnsNone;
   cl (EvRun 10); cl (EvRun 10); cl (EvServe 3 330); cl (EvReply 11 3); cl (EvRun 6);
   NodeSys (SysHandle 0); NodeSys (SysReceive 0 1); NodeCall 2 AnsNone;
   NodeCall 2 (AnsTime (clock 35 1)); NodeCall 2 exits].

(** Node 1 is elected by node 2, which had nothing and gets all entries.  The advance is in its log, but it may not count replicas of
    entries of an old term: its store still has the old [NextRun] at its next tick. *)
Definition fired_twice : list node_event :=
  [cl (EvElection 0 700 260); cl (EvRun 12); cl (EvServe 4 701); cl (EvReply 12 4);
   NodeGo 1 (TickTask (clock 35 2)); NodeCall 3 AnsNone; NodeCall 3 (AnsKeys ["a"]); NodeCall 3 AnsNone;
   NodeCall 4 (random "003"); NodeCall 4 AnsNone;
   cl (EvRun 13); cl (EvRun 14); cl (EvServe 5 710); cl (EvReply 14 5);
   cl (EvRun 12); cl (EvRun 13); cl (EvRun 14); cl (EvServe 6 720); cl (EvReply 15 6);
   cl (EvRun 7); cl (EvRun 14); NodeSys (SysHandle 1); NodeSys (SysHandle 1); NodeSys (SysReceive 1 0);
   NodeCall 4 AnsNone; NodeCall 4 (AnsTime (clock 35 2)); NodeCall 4 exits].

Definition n0 : program := node_init ps3 0.
Definition n1 : program := default n0 (node_run n0 created).
Definition n2 : program := default n0 (node_run n1 (fired_once ++ fired_twice)).

Lemma n1_run : node_run n0 created = Some n1.
Proof. vm_compute. reflexivity. Qed.

Lemma n1_n2 : node_run n1 (fired_once ++ fired_twice) = Some n2.
Proof. vm_compute. reflexivity. Qed.

Definition go (N : program) (i : nat) : goroutine := default (new_go 0 WaitTask) (ns_gos N !! i).

Lemma go_elem N i : (i < length (ns_gos N))%nat → go N i ∈ ns_gos N.
Proof. intros [g Hg]%lookup_lt_is_Some_2. unfold go. rewrite Hg. by eapply list_elem_of_lookup_2. Qed.

Lemma n2_distinct : distinct_ids n2.
Proof. apply distinct_ids_check. by apply (bool_decide_unpack _); vm_compute. Qed.

Lemma n1_reachable : node_reachable ps3 0 n1.
Proof. exists created. apply n1_run. Qed.

Lemma n2_run : node_run n0 (created ++ fired_once ++ fired_twice) = Some n2.
Proof. vm_compute. reflexivity. Qed.

Lemma n2_reachable : node_reachable ps3 0 n2.
Proof. exists (created ++ fired_once ++ fired_twice). apply n2_run. Qed.

(** The moment between the two runs of the job. *)
Definition n12 : program := default n0 (node_run n1 fired_once).

Lemma n12_run : node_run n0 (created ++ fired_once) = Some n12.
Proof. vm_compute. reflexivity. Qed.

Lemma n12_n2 : node_run n12 fired_twice = Some n2.
Proof. vm_compute. reflexivity. Qed.

Lemma halves_run : node_run n0 ((created ++ fired_once) ++ fired_twice) = Some n2.
Proof. vm_compute. reflexivity. Qed.

Lemma halves_undisturbed : forallb undisturbed ((created ++ fired_once) ++ fired_twice) = true.
Proof. vm_compute. reflexivity. Qed.

(** Goroutine [i], which is started between [n12] and [n2]. *)
Lemma go_later i :
  (length (ns_gos n12) <= i)%nat → (i < length (ns_gos n2))%nat → go n2 i ∈ drop (length (ns_gos n12)) (ns_gos n2).
Proof.
  intros Hle [g Hg]%lookup_lt_is_Some_2. unfold go. rewrite Hg. apply (list_elem_of_lookup_2 _ (i - length (ns_gos n12))).
  rewrite lookup_drop. by replace (_ + _)%nat with i by lia.
Qed.

(** A goroutine that worked, computed. *)
Definition worked (g : goroutine) : bool := existsb external_call (go_trace g).

Lemma worked_call g : worked g = true → ∃ c, c ∈ go_trace g ∧ external_call c = true.
Proof. intros (c & Hc & He)%existsb_exists. exists c. by rewrite list_elem_of_In. Qed.

#[local] Opaque n1 n2.

(** The job that was created; it is due at 10:35. *)
Definition nightly : Job :=
  mkJob "a" "nightly" "*/5 * * * *" "shell" "backup" "skip" (clock 35 0) zeroTime EmptyString (clock 31 0).

Lemma answer_is_final_witness :
  go_prog (go n1 0) = Ret (Answered (mkResponse 201 (JobBody nightly))) ∧
  ∃ reqID, in_log n1 n2 (mkCmd CmdUpsert reqID nightly EmptyString zeroRun).
Proof.
  assert (Hp : go_prog (go n1 0) = Ret (Answered (mkResponse 201 (JobBody nightly)))) by (vm_compute; reflexivity).
  split; [exact Hp|].
  destruct (answer_is_final ps3 0 created n1 (fired_once ++ fired_twice) n2 (go n1 0) post
    (mkResponse 201 (JobBody nightly)) (node_run_node_exec _ _ _ n1_run) (node_run_node_exec _ _ _ n1_n2)
    (node_run_snapshots _ _ _ n2_run) (node_run_disks _ _ _ n2_run) n2_distinct) as [H _];
    [apply go_elem; vm_compute; lia|vm_compute; reflexivity|exact Hp|].
  destruct (H eq_refl) as (reqID & j & [= <-] & Hl). by exists reqID.
Defined.

Lemma n2_nil : node_exec n2 [] = Some n2.
Proof. exact eq_refl. Qed.

Lemma n2_run_nil : node_run n0 ((created ++ fired_once ++ fired_twice) ++ []) = Some n2.
Proof. vm_compute. reflexivity. Qed.

Lemma works_after_advance_witness :
  ∃ t adv, go_task (go n2 4) = FireTask nightly t ∧ advance nightly t adv ∧ in_log n2 n2 adv.
Proof.
  destruct (worked_call (go n2 4)) as (c & Hc & He); [vm_compute; reflexivity|].
  assert (Ht : go_task (go n2 4) = FireTask nightly (clock 35 2)) by (vm_compute; reflexivity).
  destruct (works_after_advance ps3 0 (created ++ fired_once ++ fired_twice) n2 [] n2 (go n2 4) c
    (node_run_node_exec _ _ _ n2_run) n2_nil (node_run_snapshots _ _ _ n2_run_nil)
    (node_run_disks _ _ _ n2_run_nil) n2_distinct)
    as (j & t & adv & tr & Ht' & Ha & _ & _ & Hl); [apply go_elem; vm_compute; lia|exact Hc|exact He|].
  rewrite Ht in Ht'. injection Ht' as <- <-. exists (clock 35 2), adv. exact (conj Ht (conj Ha Hl)).
Defined.

(** Node 1 records its run and executes that command, too. *)
Definition recorded : list node_event :=
  [NodeCall 4 (AnsTime (clock 35 3)); NodeCall 4 (random "004"); NodeCall 4 AnsNone;
   cl (EvRun 15); cl (EvRun 16); cl (EvServe 7 730); cl (EvReply 16 7); cl (EvRun 14); NodeSys (SysHandle 1)].

Definition n3 : program := default n0 (node_run n2 recorded).

Definition all : list node_event := created ++ fired_once ++ fired_twice ++ recorded.

Lemma n3_run : node_run n0 all = Some n3.
Proof. vm_compute. reflexivity. Qed.

(** The store of node [p]. *)
Definition store_at (N : program) (p : nat) : option Store :=
  (λ pr, store (pr_world pr)) <$> sy_procs (ns_sys N) !! p.

Definition backup_run : RunRecord := mkRun "a" (clock 35 2) (clock 35 3) 0 "done" "ok".
Definition nightly_ran : Job :=
  mkJob "a" "nightly" "*/5 * * * *" "shell" "backup" "skip" (clock 40 0) (clock 35 2) "ok" (clock 31 0).

Lemma n3_store : (λ s, (jobs s !! "a", Store.runs s !! "a")) <$> store_at n3 1 = Some (Some nightly_ran, Some [backup_run]).
Proof. vm_compute. reflexivity. Qed.

Lemma n3_process :
  ∃ pr, sy_procs (ns_sys n3) !! 1%nat = Some pr ∧ jobs (store (pr_world pr)) !! "a" = Some nightly_ran ∧
    Store.runs (store (pr_world pr)) !! "a" = Some [backup_run].
Proof.
  pose proof n3_store as H. unfold store_at in H. destruct (sy_procs (ns_sys n3) !! 1%nat) as [pr|]; [|discriminate H].
  injection H as Hj Hr. exists pr. exact (conj eq_refl (conj Hj Hr)).
Qed.

#[local] Opaque n3.


Lemma runs_happened_witness :
  ∃ g j t tr, g ∈ ns_gos n3 ∧ go_task g = FireTask j t ∧ j_ID j = "a" ∧
    tr `prefix_of` go_trace g ∧ outcome_of j t tr backup_run.
Proof.
  destruct n3_process as (pr & Hp & _ & Hr).
  exact (runs_happened ps3 0 all n3 1 pr "a" [backup_run] backup_run
    (node_run_node_exec _ _ _ n3_run) (node_run_snapshots _ _ _ n3_run) (node_run_disks _ _ _ n3_run) Hp Hr
    (list_elem_of_here _ _)).
Defined.

(** The advance of [nightly] by node 0. *)
Definition first_advance : Cmd := upsertCmd "0202020202020202" (set_NextRun (clock 40 0) nightly).

End DoubleFire.

(** C16. A job can run twice for one activation, on two nodes: there is a run of three
    nodes, in which no node stops, no call and no [Submit] fails and installed snapshots
    are in step, with a moment at which the following holds.  Until then, a tick of node 0,
    told by GetState that it leads, has listed the job and fired it; the fired goroutine
    saw the [Submit] of its advance succeed, the store of node 0 has the advanced job, and
    the goroutine has made its external call.  After that moment a tick begins on node 1;
    GetState tells it that it leads, in the next term, ListJobs lists the job with the old
    [NextRun], and the goroutine it fires for this job makes its external call, too. *)
Theorem double_fire :
  ∃ evs1 N1 evs2 N2 j t t' adv pr gt g c gt' g' c',
    node_exec (node_init Runs.ps3 0) evs1 = Some N1 ∧ node_exec N1 evs2 = Some N2 ∧
    forallb undisturbed (evs1 ++ evs2) = true ∧
    node_snapshots_in_step (node_init Runs.ps3 0) (evs1 ++ evs2) ∧ distinct_ids N2 ∧
    gt ∈ ns_gos N1 ∧ go_node gt = 0%nat ∧ go_task gt = TickTask t ∧
    go_trace gt = [Call CallGetState (1, true); Call CallListJobs [j]; Call (GoFireJob j t) tt] ∧
    g ∈ ns_gos N1 ∧ go_node g = 0%nat ∧ go_task g = FireTask j t ∧
    advance j t adv ∧ acked (go_trace g) adv ∧ c ∈ go_trace g ∧ external_call c = true ∧
    sy_procs (ns_sys N1) !! 0%nat = Some pr ∧ jobs (store (pr_world pr)) !! j_ID j = Some (c_Job adv) ∧
    gt' ∈ drop (length (ns_gos N1)) (ns_gos N2) ∧ go_node gt' = 1%nat ∧ go_task gt' = TickTask t' ∧
    go_trace gt' = [Call CallGetState (2, true); Call CallListJobs [j]; Call (GoFireJob j t') tt] ∧
    g' ∈ drop (length (ns_gos N1)) (ns_gos N2) ∧ go_node g' = 1%nat ∧ go_task g' = FireTask j t' ∧
    c' ∈ go_trace g' ∧ external_call c' = true.
Proof.
  destruct (DoubleFire.worked_call (DoubleFire.go DoubleFire.n12 2)) as (c & Hc & He); [vm_compute; reflexivity|].
  destruct (DoubleFire.worked_call (DoubleFire.go DoubleFire.n2 4)) as (c' & Hc' & He'); [vm_compute; reflexivity|].
  destruct (sy_procs (ns_sys DoubleFire.n12) !! 0%nat) as [pr|] eqn:Hp; [|vm_compute in Hp; discriminate Hp].
  assert (Hj : (λ pr, jobs (store (pr_world pr)) !! "a") <$> sy_procs (ns_sys DoubleFire.n12) !! 0%nat =
    Some (Some (c_Job DoubleFire.first_advance))) by (vm_compute; reflexivity).
  rewrite Hp in Hj. apply (inj Some) in Hj.
  exists (DoubleFire.created ++ DoubleFire.fired_once), DoubleFire.n12, DoubleFire.fired_twice, DoubleFire.n2,
    DoubleFire.nightly, (DoubleFire.clock 35 1), (DoubleFire.clock 35 2), DoubleFire.first_advance, pr,
    (DoubleFire.go DoubleFire.n12 1), (DoubleFire.go DoubleFire.n12 2), c,
    (DoubleFire.go DoubleFire.n2 3), (DoubleFire.go DoubleFire.n2 4), c'.
  split; [exact (node_run_node_exec _ _ _ DoubleFire.n12_run)|].
  split; [exact (node_run_node_exec _ _ _ DoubleFire.n12_n2)|].
  split; [exact DoubleFire.halves_undisturbed|].
  split; [exact (node_run_snapshots _ _ _ DoubleFire.halves_run)|]. split; [exact DoubleFire.n2_distinct|].
  split; [apply DoubleFire.go_elem; vm_compute; lia|].
  split; [vm_compute; reflexivity|]. split; [vm_compute; reflexivity|]. split; [vm_compute; reflexivity|].
  split; [apply DoubleFire.go_elem; vm_compute; lia|].
  split; [vm_compute; reflexivity|]. split; [vm_compute; reflexivity|].
  split; [exists "0202020202020202", (DoubleFire.clock 40 0); split; vm_compute; reflexivity|].
  split; [vm_compute; right; left|]. split; [exact Hc|]. split; [exact He|].
  split; [exact Hp|]. split; [exact Hj|].
  split; [apply DoubleFire.go_later; vm_compute; lia|].
  split; [vm_compute; reflexivity|]. split; [vm_compute; reflexivity|]. split; [vm_compute; reflexivity|].
  split; [apply DoubleFire.go_later; vm_compute; lia|].
  split; [vm_compute; reflexivity|]. split; [vm_compute; reflexivity|]. split; [exact Hc'|exact He'].
Qed.
