(* ===== verification/NodeOrder.v ===== *)
(** * The whole program: writes and reads in time

    What clients see of the order of events: a write that is acknowledged before another
    one is submitted comes before it in the log, so every store executes them in this
    order, and the store of a node does not go back while the node runs. *)
From Stdlib Require Import ZArith Lia String Ascii.
From stdpp Require Import base tactics list strings numbers option gmap.
From S2P Require Import Prelude.
From S2P Require Import GoTime.
From S2P Require Import Gob.
From S2P Require Import Persister.
From S2P Require Import RaftNode.
From S2P Require Import History.
From S2P Require Import HistorySteps.
From S2P Require Import Cluster.
From S2P Require Import ClusterVotes.
From S2P Require Import ClusterSafety.
From S2P Require Import ClusterInv.
From S2P Require Import ClusterSteps.
From S2P Require Import ClusterLog.
From S2P Require Import Store.
From S2P Require Import StoreSpec.
From S2P Require Import StoreTheorems.
From S2P Require Import System.
From S2P Require Import SystemSafety.
From S2P Require Import SystemValidity.
From S2P Require Import SystemOrigin.
From S2P Require Import Effects.
From S2P Require Import EffectsLogic.
From S2P Require Import Scheduler.
From S2P Require Import SchedulerTheorems.
From S2P Require Import Executor.
From S2P Require Import Api.
From S2P Require Import Main.
From S2P Require Import Nodes.
From S2P Require Import NodeLaws.
From S2P Require Import NodeSafety.
From S2P Require Import ClusterEffects.
From S2P Require Import ClusterValidity.
From S2P Require Import ClusterHanded.
From S2P Require Import NodeTheorems.

Local Open Scope string_scope.
Local Open Scope list_scope.
Local Open Scope Z_scope.

Section Order.
Context {gobZ : Gob Z} {gobLog : Gob (list (LogEntry Cmd))} {gobState : Gob storeState}.
Implicit Types (N : program) (g : goroutine) (h : history Cmd).

(** A command that the log of a later moment has where this moment has come is submitted. *)
Lemma handed_submitted n N N' h L k cmd :
  node_ok n N h → hands_more (ns_sys N) (ns_sys N') → service_log (sy_cluster (ns_sys N')) L →
  handed (sy_cluster (ns_sys N)) (Z.of_nat k + 1) → L !! k = Some (Some cmd) → submitted_by (ns_gos N) cmd.
Proof using Type.
  intros Hn [ms Hms] HL Hh Hk. destruct (Hh (Z.of_nat k + 1)) as (q & m & Hin & Hv & Hi); [lia|].
  destruct (sl_entry _ _ HL q m) as [_ Hl]; [rewrite Hms; apply elem_of_app; by left|done|].
  rewrite Hi in Hl. replace (Z.to_nat (Z.of_nat k + 1 - 1)) with k in Hl by lia. rewrite Hk in Hl. injection Hl as Hl.
  eapply (va_applied _ _ (sv_cluster _ _ (proj1 (nk_explained _ _ _ Hn))) q m Hin Hv). by rewrite <- Hl.
Qed.

(** C6. Writes take effect in the order of time.  If a [Submit] was acknowledged before
    another command was submitted, on whichever nodes and with whatever elections in
    between, then in the one log that all stores follow, then and later, the second
    command comes only after the first, wherever it is; if it was acknowledged, too, it is
    there.  This holds in runs in which no two commands drew the same random request id, no
    snapshot is installed on a peer that has applied more or is delivering entries
    (raft.go:898 does not prevent it), and a node that comes back has the persister it had
    (main.go:60 makes an empty one). *)
Theorem writes_in_order ps now evs N evs' N' g1 cmd1 cmd2 :
  node_exec (node_init ps now) evs = Some N → node_exec N evs' = Some N' →
  node_snapshots_in_step (node_init ps now) (evs ++ evs') → node_disks_survive (evs ++ evs') →
  distinct_ids N' → g1 ∈ ns_gos N → acked (go_trace g1) cmd1 →
  (submitted_by (ns_gos N) cmd2 → False) →
  ∃ L i, common_log N N' L ∧ L !! i = Some (Some cmd1) ∧
    (∀ k, L !! k = Some (Some cmd2) → (i < k)%nat) ∧
    (∀ g2, g2 ∈ ns_gos N' → acked (go_trace g2) cmd2 → ∃ k, L !! k = Some (Some cmd2)).
Proof using Type.
  intros E E' Hs Hds Hd Hg1 Ha1 Hnew. destruct (node_reachable_parts _ _ _ _ _ _ E E' Hs Hds) as [Hn0 Hr].
  destruct (node_reachable_ok _ _ _ Hn0) as (h & Hn).
  destruct (node_run_ok _ _ _ _ _ Hn Hr) as (h' & He & Hn'). pose proof (node_run_more _ _ _ Hr) as Hmore.
  pose proof (node_run_hands _ _ _ Hr) as Hm.
  destruct (gk_acked _ _ _ _ _ (nk_go _ _ _ Hn g1 Hg1) cmd1 Ha1) as (i & c1 & Hi & Hh & Hen & Hreq & Hsub).
  assert (c1 = cmd1) as -> by (apply Hd; [by apply Hmore|apply Hmore; by apply (acked_submitted g1)|done]).
  destruct (node_common_log _ _ _ _ _ Hn Hn' He Hm) as (L & HL & Hat).
  exists L, (Z.to_nat (i - 1)). split_and!; [done| | |].
  - apply Hat; [done| |by eapply entry_at_ext]. destruct Hm as [ms Hms]. by eapply handed_app.
  - intros j Hj. destruct (decide (Z.to_nat (i - 1) < j)%nat); [done|]. exfalso. apply Hnew.
    eapply (handed_submitted _ N N' h L j cmd2 Hn Hm (proj1 HL)); [|done]. eapply handed_le; [done|lia].
  - intros g2 Hg2 Ha2.
    destruct (gk_acked _ _ _ _ _ (nk_go _ _ _ Hn' g2 Hg2) cmd2 Ha2) as (k & c2 & Hk & Hh' & Hen' & Hreq' & Hsub').
    assert (c2 = cmd2) as -> by (apply Hd; [done|by apply (acked_submitted g2)|done]).
    exists (Z.to_nat (k - 1)). by apply Hat.
Qed.

(** ** One node *)

(** The node [p] does not go down in the run [evs]. *)
Definition stays_up (p : nat) (evs : list node_event) : Prop :=
  ∀ now, (NodeRestart p now ∉ evs) ∧ (NodeStartOver p now ∉ evs).

Lemma node_step_index n N h ev N' p pr :
  node_ok n N h → node_starts_over ev = false → node_step N ev = Some N' → (∀ now, ev ≠ NodeRestart p now) →
  sy_procs (ns_sys N) !! p = Some pr →
  ∃ pr', sy_procs (ns_sys N') !! p = Some pr' ∧ pr_index pr <= pr_index pr'.
Proof using Type.
  intros [Hok _ _] Hd E Hev Hp. assert (Hsys : ∀ sev, sys_step (ns_sys N) sev = Some (ns_sys N') →
    starts_over sev = false → (∀ now, sev ≠ SysRestart p now) → ∃ pr', sy_procs (ns_sys N') !! p = Some pr' ∧ pr_index pr <= pr_index pr').
  { intros sev Es Hso Hs. destruct (sys_started n _ h sev _ p pr Hok Es Hso Hs Hp) as (pr' & l & ? & _ & ?). by exists pr'. }
  assert (Hsame : ns_sys N' = ns_sys N → ∃ pr', sy_procs (ns_sys N') !! p = Some pr' ∧ pr_index pr <= pr_index pr')
    by (intros ->; by exists pr).
  destruct ev as [sev|q t|i o|q now|]; [..|done]; cbn [node_step] in E.
  - destruct (background sev) eqn:Hb; [|done]. destruct (sys_step (ns_sys N) sev) eqn:Es; [|done].
    injection E as <-. apply (Hsys sev Es); [by destruct sev|]. by intros now ->.
  - destruct (sy_procs _ !! q); [|done]. cbn [mbind option_bind] in E. destruct (startable t); [|done].
    injection E as <-. by apply Hsame.
  - destruct (ns_gos N !! i) as [g|]; [|done]. cbn [mbind option_bind] in E.
    destruct (go_alive g); [|done]. unfold go_call in E.
    destruct (sy_procs _ !! go_node g) as [x|]; [|done]. cbn [mbind option_bind] in E.
    destruct (nodes _ !! _) as [rf|]; [|done]. cbn [mbind option_bind] in E.
    destruct (go_prog g) as [a|X e k|]; [done| |done].
    destruct (submit_of e) as [cmd|]; [destruct (go_chan g) as [ch|]|].
    + destruct (list_find _ _) as [r|]; [|done]. cbn [mbind option_bind] in E.
      destruct (submit_answer e r.2.2); [|done]. injection E as <-. by apply Hsame.
    + destruct (sys_step (ns_sys N) _) eqn:Es; [|done]. injection E as <-. by apply (Hsys _ Es).
    + destruct (local_answer e rf _ o); [|done]. destruct (go_chan g); injection E as <-; by apply Hsame.
  - destruct (sys_step (ns_sys N) _) eqn:Es; [|done]. injection E as <-. apply (Hsys _ Es); [done|].
    intros now' [= -> ->]. by destruct (Hev now').
Qed.

Lemma node_run_index n N h evs N' p pr :
  node_ok n N h → node_run N evs = Some N' → stays_up p evs → sy_procs (ns_sys N) !! p = Some pr →
  ∃ pr', sy_procs (ns_sys N') !! p = Some pr' ∧ pr_index pr <= pr_index pr'.
Proof using Type.
  revert N h pr. induction evs as [|ev evs IH]; intros N h pr Hn; simpl.
  { intros [= <-] _ Hp. by exists pr. }
  destruct (decide (node_in_step N ev)) as [Hst|]; [|done].
  destruct (node_step N ev) as [N1|] eqn:E; [|done]. cbn [mbind option_bind]. intros Hr Hup Hp.
  destruct (node_step_ok _ _ _ _ _ Hn Hst E) as (h1 & _ & Hn1).
  destruct (node_step_index n N h ev N1 p pr Hn) as (pr1 & Hp1 & Hle1);
    [by apply (node_in_step_spec _ _ _ E) in Hst as [_ ?]|done| |done|].
  { intros now ->. apply (proj1 (Hup now)). by left. }
  destruct (IH N1 h1 pr1 Hn1 Hr) as (pr' & Hp' & Hle'); [|done|].
  { intros now. destruct (Hup now) as [H1 H2]. split; intros Hin; [apply H1|apply H2]; by right. }
  exists pr'. split; [done|lia].
Qed.

(** C7. Reads do not go back in time.  As long as a node does not go down, its store is
    at every moment the result of a prefix of the one log of all stores, and the prefix
    only grows: what a client has read there stays behind it.  This holds in runs in which
    no snapshot is installed on a peer that has applied more or is delivering entries
    (raft.go:898 does not prevent it, and [stores_diverge] is a run in which a store goes
    back), and a node that comes back has the persister it had (main.go:60 makes an empty
    one). *)
Theorem reads_go_forward ps now evs N evs' N' p pr :
  node_exec (node_init ps now) evs = Some N → node_exec N evs' = Some N' →
  node_snapshots_in_step (node_init ps now) (evs ++ evs') → node_disks_survive (evs ++ evs') →
  stays_up p evs' → sy_procs (ns_sys N) !! p = Some pr →
  ∃ pr' L, sy_procs (ns_sys N') !! p = Some pr' ∧ pr_index pr <= pr_index pr' ∧
    common_log N N' L ∧ replicates L pr ∧ replicates L pr'.
Proof using Type.
  intros E E' Hs Hds Hup Hp. destruct (node_reachable_parts _ _ _ _ _ _ E E' Hs Hds) as [Hn0 Hr].
  destruct (node_reachable_ok _ _ _ Hn0) as (h & Hn).
  destruct (node_run_ok _ _ _ _ _ Hn Hr) as (h' & He & Hn').
  destruct (node_run_index _ _ _ _ _ _ _ Hn Hr Hup Hp) as (pr' & Hp' & Hle).
  destruct (node_common_log _ _ _ _ _ Hn Hn' He (node_run_hands _ _ _ Hr)) as (L & HL & _). exists pr', L.
  split_and!; [done|done|done|apply HL; left|apply HL; right]; by eapply list_elem_of_lookup_2.
Qed.

End Order.

#[local] Opaque DoubleFire.n1 DoubleFire.n2.

(** The commands that the goroutines [0] of [n1] and [4] of [n2] saw acknowledged first. *)
Definition first_acked (g : goroutine) : option Cmd :=
  match omap (λ c, match c with
    | @Call X e x => match e in eff Y return Y → option Cmd with
        | CallSubmit cmd => λ x, match x with None => Some cmd | Some _ => None end
        | _ => λ _, None
        end x
    end) (go_trace g) with cmd :: _ => Some cmd | [] => None end.

Lemma first_acked_elem g cmd : first_acked g = Some cmd → acked (go_trace g) cmd.
Proof.
  unfold first_acked. destruct (omap _ _) as [|x l] eqn:E; [done|]. intros [= ->].
  assert (Hin : cmd ∈ omap (λ c, match c with
    | @Call X e x => match e in eff Y return Y → option Cmd with
        | CallSubmit cmd => λ x, match x with None => Some cmd | Some _ => None end
        | _ => λ _, None
        end x
    end) (go_trace g)) by (rewrite E; left).
  apply list_elem_of_omap in Hin as ([X e y] & Hin & Hc). unfold acked.
  destruct e; try done. destruct y; [done|]. by injection Hc as ->.
Qed.

(** The client's job was acknowledged before node 1 advanced it. *)
Lemma writes_in_order_witness :
  ∃ cmd1 cmd2 (L : list (option Cmd)) (i k : nat), first_acked (DoubleFire.go DoubleFire.n1 0) = Some cmd1 ∧
    first_acked (DoubleFire.go DoubleFire.n2 4) = Some cmd2 ∧
    L !! i = Some (Some cmd1) ∧ L !! k = Some (Some cmd2) ∧ (i < k)%nat.
Proof.
  destruct (first_acked (DoubleFire.go DoubleFire.n1 0)) as [cmd1|] eqn:H1; [|exfalso; by vm_compute in H1].
  destruct (first_acked (DoubleFire.go DoubleFire.n2 4)) as [cmd2|] eqn:H2; [|exfalso; by vm_compute in H2].
  assert (Hnew : submitted_by (ns_gos DoubleFire.n1) cmd2 → False).
  { intros (g & Hg & Hc). assert (Hin : cmd2 ∈ mjoin (go_submits <$> ns_gos DoubleFire.n1)).
    { apply list_elem_of_join. exists (go_submits g). split; [done|]. by apply list_elem_of_fmap_2. }
    revert Hin. vm_compute in H2. injection H2 as <-. apply (bool_decide_unpack _); vm_compute. exact I. }
  destruct (writes_in_order Runs.ps3 0 DoubleFire.created DoubleFire.n1
    (DoubleFire.fired_once ++ DoubleFire.fired_twice) DoubleFire.n2
    (DoubleFire.go DoubleFire.n1 0) cmd1 cmd2 (node_run_node_exec _ _ _ DoubleFire.n1_run)
    (node_run_node_exec _ _ _ DoubleFire.n1_n2) (node_run_snapshots _ _ _ DoubleFire.n2_run)
    (node_run_disks _ _ _ DoubleFire.n2_run) DoubleFire.n2_distinct) as (L & i & _ & Hi & Hlt & Hack);
    [apply DoubleFire.go_elem; vm_compute; lia|by apply first_acked_elem|exact Hnew|].
  destruct (Hack (DoubleFire.go DoubleFire.n2 4)) as [k Hk];
    [apply DoubleFire.go_elem; vm_compute; lia|by apply first_acked_elem|].
  exists cmd1, cmd2, L, i, k. split; [reflexivity|]. split; [reflexivity|]. split; [exact Hi|]. split; [exact Hk|].
  exact (Hlt k Hk).
Defined.

Lemma reads_go_forward_witness :
  ∃ pr pr' L, sy_procs (ns_sys DoubleFire.n1) !! 1%nat = Some pr ∧
    sy_procs (ns_sys DoubleFire.n2) !! 1%nat = Some pr' ∧ pr_index pr < pr_index pr' ∧
    replicates L pr ∧ replicates L pr'.
Proof.
  destruct (sy_procs (ns_sys DoubleFire.n1) !! 1%nat) as [pr|] eqn:Hp; [|exfalso; by vm_compute in Hp].
  destruct (reads_go_forward Runs.ps3 0 DoubleFire.created DoubleFire.n1
    (DoubleFire.fired_once ++ DoubleFire.fired_twice) DoubleFire.n2
    1 pr (node_run_node_exec _ _ _ DoubleFire.n1_run) (node_run_node_exec _ _ _ DoubleFire.n1_n2)
    (node_run_snapshots _ _ _ DoubleFire.n2_run) (node_run_disks _ _ _ DoubleFire.n2_run))
    as (pr' & L & Hp' & _ & _ & HL & HL').
  { intros now. split; intros Hin; apply list_elem_of_In in Hin; vm_compute in Hin;
    repeat (destruct Hin as [Hin|Hin]; [discriminate Hin|]); exact Hin. }
  { exact Hp. }
  exists pr, pr', L. split; [reflexivity|]. split; [exact Hp'|]. split; [|exact (conj HL HL')].
  vm_compute in Hp, Hp'. injection Hp as <-. injection Hp' as <-. vm_compute. reflexivity.
Defined.
