(* ===== verification/NodeReads.v ===== *)
(** * The whole program: a client reads its own writes

    A node that answered a write has executed it, and until it restarts its reads come
    from a store that has: [gk_seen] of the invariant, read through the specification of
    the store. *)
From Stdlib Require Import ZArith Lia String Ascii.
From stdpp Require Import base tactics list strings numbers option gmap.
From S2P Require Import Prelude.
From S2P Require Import GoTime.
From S2P Require Import Gob.
From S2P Require Import Persister.
From S2P Require Import RaftNode.
From S2P Require Import History.
From S2P Require Import HistorySteps.
From S2P Require Import Cluster.
From S2P Require Import ClusterVotes.
From S2P Require Import ClusterSafety.
From S2P Require Import ClusterInv.
From S2P Require Import ClusterSteps.
From S2P Require Import ClusterLog.
From S2P Require Import Store.
From S2P Require Import StoreSpec.
From S2P Require Import StoreTheorems.
From S2P Require Import System.
From S2P Require Import ClusterHanded.
From S2P Require Import SystemSafety.
From S2P Require Import SystemValidity.
From S2P Require Import SystemOrigin.
From S2P Require Import Effects.
From S2P Require Import EffectsLogic.
From S2P Require Import Scheduler.
From S2P Require Import SchedulerTheorems.
From S2P Require Import Executor.
From S2P Require Import Api.
From S2P Require Import Main.
From S2P Require Import Nodes.
From S2P Require Import NodeLaws.
From S2P Require Import NodeSafety.
From S2P Require Import NodeTheorems.

Local Open Scope string_scope.
Local Open Scope list_scope.
Local Open Scope Z_scope.

(** ** Commands about a job *)
Definition touches (id : string) (c : Cmd) : bool :=
  upserts id c || deletes id c || bool_decide (is_Some (record_of id c)).

Lemma spec_job_untouched id h t :
  Forall (λ c, touches id c = false) t → spec_job id (h ++ t) = spec_job id h.
Proof.
  induction t as [|c t IH] using rev_ind; [by rewrite app_nil_r|].
  intros [Ht [Hc _]%Forall_cons]%Forall_app. unfold touches in Hc.
  apply orb_false_iff in Hc as [[Hu Hd]%orb_false_iff Hr]. apply bool_decide_eq_false in Hr.
  rewrite app_assoc, spec_job_snoc, Hu, Hd, IH by done. destruct (record_of id c); [by destruct Hr|].
  by destruct (spec_job id h).
Qed.

Section Reads.
Context {gobZ : Gob Z} {gobLog : Gob (list (LogEntry Cmd))} {gobState : Gob storeState}.
Implicit Types (N : program) (g : goroutine).

(** No command of [L] between [i] and [k] is about the job [id]. *)
Definition unchanged_since (L : list (option Cmd)) (i k : nat) (id : string) : Prop :=
  ∀ x cmd, (i < x < k)%nat → L !! x = Some (Some cmd) → touches id cmd = false.

Lemma spec_job_since L i k id :
  (i < k)%nat → unchanged_since L i k id → spec_job id (commands L k) = spec_job id (commands L (S i)).
Proof using Type.
  induction k as [|k IH]; [lia|]. intros Hik Hu. destruct (decide (i = k)) as [->|]; [done|].
  rewrite <- IH by (lia || by intros x cmd Hx; apply Hu; lia).
  destruct (L !! k) as [oc|] eqn:Hk.
  - rewrite (commands_S _ _ _ Hk). destruct oc as [cmd|]; [|by rewrite app_nil_r].
    apply spec_job_untouched, Forall_singleton. apply (Hu k); [lia|done].
  - unfold commands. by rewrite !take_ge by (apply lookup_ge_None in Hk; lia).
Qed.

(** A store that has executed a write of a job serves it, as long as nothing follows. *)
Lemma replica_job L pr i cmd id :
  replicates L pr → L !! i = Some (Some cmd) → (i < Z.to_nat (pr_index pr))%nat →
  unchanged_since L i (Z.to_nat (pr_index pr)) id →
  (upserts id cmd = true → GetJob (store (pr_world pr)) id = (c_Job cmd, true)) ∧
  (upserts id cmd = false → deletes id cmd = true → GetJob (store (pr_world pr)) id = (zeroJob, false)).
Proof using Type.
  intros [_ Hs] Hi Hlt Hu. apply (f_equal Jobs) in Hs. cbn [sm Jobs] in Hs. unfold GetJob.
  rewrite Hs, (proj1 (state_after_spec _ _)), (spec_job_since L i) by done.
  rewrite (commands_S _ _ _ Hi). change (option_list (Some cmd)) with [cmd]. rewrite spec_job_snoc.
  split; [by intros ->|]. by intros -> ->.
Qed.

(** [cmd] is in the log of all stores, and the store of [pr] has executed it. *)
Definition executed N L (pr : process) (cmd : Cmd) (i : nat) : Prop :=
  common_log N N L ∧
  L !! i = Some (Some cmd) ∧ (i < Z.to_nat (pr_index pr))%nat.

Lemma acked_executed ps now N g pr cmd :
  node_reachable ps now N → distinct_ids N → g ∈ ns_gos N → go_alive g = true →
  sy_procs (ns_sys N) !! go_node g = Some pr → acked (go_trace g) cmd → ∃ L i, executed N L pr cmd i.
Proof using Type.
  intros (h & Hn)%node_reachable_ok Hd Hg Hal Hp Hc.
  destruct (gk_seen _ _ _ _ _ (nk_go _ _ _ Hn g Hg) Hal cmd Hc)
    as (pr2 & i & cmd' & Hp2 & Hi & Hen & Hreq & Hsub).
  rewrite Hp in Hp2. injection Hp2 as <-.
  assert (cmd' = cmd) as -> by (apply Hd; [done|by apply (acked_submitted g)|done]).
  destruct (node_common_log _ _ _ _ _ Hn Hn (hist_ext_refl h) (hands_more_refl _)) as (L & HL & Hat).
  exists L, (Z.to_nat (i - 1)). split_and!; [done| |lia]. apply Hat; [lia| |done].
  eapply handed_le; [eapply (index_handed _ _ _ _ _ (nk_sys _ _ _ Hn) (sv_gapless _ _ (proj1 (nk_explained _ _ _ Hn))) Hp)|].
  lia.
Qed.

(** C5. Clients read their own writes.  A node that answered 201 or 204 has executed the
    command, and until it goes down its store is the result of a prefix of the one log
    with this command in it: a read of the job there finds the job that was created, or
    no job after a delete, or what later commands about the job made of it.  This holds in
    runs in which no two commands drew the same random request id, no snapshot is installed
    on a peer that has applied more or is delivering entries (raft.go:928 would take the job
    out of the store again, and raft.go:898 does not prevent it), and a node that comes back
    has the persister it had (main.go:60 makes an empty one). *)
Theorem read_your_writes ps now evs N g r resp pr :
  node_exec (node_init ps now) evs = Some N →
  node_snapshots_in_step (node_init ps now) evs → node_disks_survive evs →
  distinct_ids N → g ∈ ns_gos N → go_alive g = true →
  go_task g = RequestTask r → go_prog g = Ret (Answered resp) → sy_procs (ns_sys N) !! go_node g = Some pr →
  (rs_status resp = 201 → ∃ reqID j L i, rs_body resp = JobBody j ∧
     executed N L pr (mkCmd CmdUpsert reqID j EmptyString zeroRun) i ∧
     (unchanged_since L i (Z.to_nat (pr_index pr)) (j_ID j) → GetJob (store (pr_world pr)) (j_ID j) = (j, true))) ∧
  (rs_status resp = 204 → ∃ reqID id L i, rq_path r = ["jobs"; id] ∧
     executed N L pr (mkCmd CmdDelete reqID zeroJob id zeroRun) i ∧
     (unchanged_since L i (Z.to_nat (pr_index pr)) id → GetJob (store (pr_world pr)) id = (zeroJob, false))).
Proof using Type.
  intros E Hs Hds Hd Hg Hal Ht Hp Hpr. pose proof (node_reachable_exec _ _ _ _ E Hs Hds) as Hn.
  destruct (go_law _ _ _ _ Hn Hg) as [Hl _]. rewrite Ht, Hp in Hl.
  destruct Hl as [H1 H4]. split.
  - intros (reqID & j & Hb & Ha)%H1. destruct (acked_executed _ _ _ _ _ _ Hn Hd Hg Hal Hpr Ha) as (L & i & Hx).
    exists reqID, j, L, i. split_and!; [done|done|]. intros Hu. destruct Hx as ([_ HL] & Hi & Hlt).
    specialize (HL pr (or_introl (list_elem_of_lookup_2 _ _ _ Hpr))).
    apply (proj1 (replica_job _ _ _ _ _ HL Hi Hlt Hu)). unfold upserts. by rewrite bool_decide_true.
  - intros (reqID & id & Hb & Ha)%H4. destruct (acked_executed _ _ _ _ _ _ Hn Hd Hg Hal Hpr Ha) as (L & i & Hx).
    exists reqID, id, L, i. split_and!; [done|done|]. intros Hu. destruct Hx as ([_ HL] & Hi & Hlt).
    specialize (HL pr (or_introl (list_elem_of_lookup_2 _ _ _ Hpr))).
    apply (proj2 (replica_job _ _ _ _ _ HL Hi Hlt Hu)).
    + unfold upserts. rewrite bool_decide_false; [done|]. by intros [? _].
    + unfold deletes. by rewrite bool_decide_true.
Qed.

End Reads.

#[local] Opaque DoubleFire.n1 DoubleFire.n2.

(** Node 0 has answered the request for [nightly], and serves it. *)
Lemma read_your_writes_witness :
  ∃ pr reqID L i, sy_procs (ns_sys DoubleFire.n1) !! 0%nat = Some pr ∧
    executed DoubleFire.n1 L pr (mkCmd CmdUpsert reqID DoubleFire.nightly EmptyString zeroRun) i.
Proof.
  assert (Hd : distinct_ids DoubleFire.n1).
  { apply distinct_ids_check. by apply (bool_decide_unpack _); vm_compute. }
  destruct (sy_procs (ns_sys DoubleFire.n1) !! 0%nat) as [pr|] eqn:Hp; [|exfalso; by vm_compute in Hp].
  assert (Hprog : go_prog (DoubleFire.go DoubleFire.n1 0) = Ret (Answered (mkResponse 201 (JobBody DoubleFire.nightly))))
    by (vm_compute; reflexivity).
  destruct (read_your_writes Runs.ps3 0 DoubleFire.created DoubleFire.n1 (DoubleFire.go DoubleFire.n1 0) DoubleFire.post
    (mkResponse 201 (JobBody DoubleFire.nightly)) pr (node_run_node_exec _ _ _ DoubleFire.n1_run)
    (node_run_snapshots _ _ _ DoubleFire.n1_run) (node_run_disks _ _ _ DoubleFire.n1_run) Hd) as [H _];
    [apply DoubleFire.go_elem; vm_compute; lia|vm_compute; reflexivity|vm_compute; reflexivity|exact Hprog|exact Hp|].
  destruct (H eq_refl) as (reqID & j & L & i & [= <-] & Hx & _). exists pr, reqID, L, i. exact (conj eq_refl Hx).
Defined.
