(* ===== verification/NodeProgress.v ===== *)
(** * The whole program: a job can always be created

    Whatever the nodes have come to, as long as none of them is killed, one can be elected
    and answer 201 to a request that creates a job, with no node going down for it: the
    runs of SystemProgress.v with the goroutine of the handler ([gets] is its way to the
    [Submit]). *)
From Stdlib Require Import ZArith Lia String Ascii.
From stdpp Require Import base tactics list strings numbers option gmap.
From S2P Require Import Prelude.
From S2P Require Import GoTime.
From S2P Require Import Cron.
From S2P Require Import CronNext.
From S2P Require Import Gob.
From S2P Require Import Persister.
From S2P Require Import RaftNode.
From S2P Require Import History.
From S2P Require Import HistorySteps.
From S2P Require Import Cluster.
From S2P Require Import ClusterVotes.
From S2P Require Import ClusterSafety.
From S2P Require Import ClusterInv.
From S2P Require Import ClusterSteps.
From S2P Require Import ClusterLog.
From S2P Require Import ClusterLoops.
From S2P Require Import ClusterProgress.
From S2P Require Import Store.
From S2P Require Import StoreSpec.
From S2P Require Import StoreTheorems.
From S2P Require Import System.
From S2P Require Import SystemSafety.
From S2P Require Import SystemProgress.
From S2P Require Import Effects.
From S2P Require Import EffectsLogic.
From S2P Require Import Scheduler.
From S2P Require Import SchedulerTheorems.
From S2P Require Import Executor.
From S2P Require Import Api.
From S2P Require Import Main.
From S2P Require Import Nodes.
From S2P Require Import NodeLaws.
From S2P Require Import NodeSafety.
From S2P Require Import NodeTheorems.

Local Open Scope string_scope.
Local Open Scope list_scope.
Local Open Scope Z_scope.

Section Progress.
Context {gobZ : Gob Z} {gobLog : Gob (list (LogEntry Cmd))} {gobState : Gob storeState}.
Implicit Types (N : program) (S : system) (g : goroutine).

(** ** Runs *)
Lemma node_exec_app N evs evs' N1 N2 :
  node_exec N evs = Some N1 → node_exec N1 evs' = Some N2 → node_exec N (evs ++ evs') = Some N2.
Proof using Type.
  revert N. induction evs as [|ev evs IH]; intros N; cbn [node_exec app]; [by intros [= ->]|].
  destruct (node_step N ev) as [N3|]; [|done]. cbn [mbind option_bind]. apply IH.
Qed.

(** Nothing fails on the way from [N] to [N']. *)
Definition executes N N' : Prop := ∃ evs, node_exec N evs = Some N' ∧ forallb undisturbed evs = true.

Lemma executes_refl N : executes N N.
Proof using Type. by exists []. Qed.

Lemma executes_trans N1 N2 N3 : executes N1 N2 → executes N2 N3 → executes N1 N3.
Proof using Type.
  intros (e1 & H1 & U1) (e2 & H2 & U2). exists (e1 ++ e2). split; [by eapply node_exec_app|].
  by rewrite forallb_app, U1, U2.
Qed.

Lemma executes_step N ev N' : undisturbed ev = true → node_step N ev = Some N' → executes N N'.
Proof using Type.
  intros U E. exists [ev]. split; [|by cbn [forallb]; rewrite U]. cbn [node_exec]. by rewrite E.
Qed.

(** What the peers and the stores do, with the goroutines at rest. *)
Lemma flows_executes S S' gos : flows S S' → executes (mkProgram S gos) (mkProgram S' gos).
Proof using Type.
  intros (evs & Hr & Hq). revert S Hr Hq. induction evs as [|ev evs IH]; intros S; cbn [sys_exec forallb].
  - intros [= ->] _. apply executes_refl.
  - destruct (sys_step S ev) as [S1|] eqn:E; [|done]. cbn [mbind option_bind]. intros Hr [Hq Hqs]%andb_prop.
    eapply executes_trans; [|by apply (IH S1)]. apply (executes_step _ (NodeSys ev)); [by destruct ev as [[]| | | | | | |]|].
    cbn [node_step ns_sys ns_gos]. assert (background ev = true) as -> by by destruct ev. by rewrite E.
Qed.

(** The peers of a program make the runs of ClusterLog.v. *)
Lemma node_step_service n N h ev N' :
  node_ok n N h → node_starts_over ev = false → node_step N ev = Some N' →
  ∃ evs, service_run (sy_cluster (ns_sys N)) evs = Some (sy_cluster (ns_sys N')).
Proof using Type.
  intros Hok Hd E. pose proof (nk_sys _ _ _ Hok) as Hs.
  destruct ev as [ev|p t|i o|p now|]; [..|done]; clear Hd; cbn [node_step] in E.
  - destruct (background ev) eqn:Hb; [|done]. destruct (sys_step _ _) as [S'|] eqn:Es; [|done].
    injection E as <-. eapply (sys_step_service _ _ _ ev); [done|by destruct ev|done].
  - destruct (sy_procs _ !! _); [|done]. cbn [mbind option_bind] in E. destruct (startable t); [|done].
    injection E as <-. by exists [].
  - destruct (ns_gos N !! i) as [g|]; [|done]. cbn [mbind option_bind] in E. destruct (go_alive g); [|done].
    unfold go_call in E. destruct (sy_procs _ !! _) as [pr|]; [|done]. cbn [mbind option_bind] in E.
    destruct (nodes _ !! _) as [rf|]; [|done]. cbn [mbind option_bind] in E.
    destruct (go_prog g) as [|X e k|]; [done| |done]. destruct (submit_of e) as [cmd|].
    + destruct (go_chan g) as [ch|].
      * destruct (list_find _ _) as [r|]; [|done]. cbn [mbind option_bind] in E.
        destruct (submit_answer e _); [|done]. injection E as <-. by exists [].
      * destruct (sys_step _ _) as [S'|] eqn:Es; [|done]. injection E as <-.
        by eapply (sys_step_service _ _ _ (SysSubmit _ _)).
    + destruct (local_answer e _ _ o); [|done]. injection E as <-. by exists [].
  - destruct (sys_step _ _) as [S'|] eqn:Es; [|done]. injection E as <-.
    by eapply (sys_step_service _ _ _ (SysRestart _ _)).
Qed.

Lemma node_started ps now N : node_reachable ps now N → ClusterLog.started ps now (sy_cluster (ns_sys N)).
Proof using Type.
  intros [evs Hr]. assert (H0 : ClusterLog.started ps now (sy_cluster (ns_sys (node_init ps now)))) by by exists [].
  pose proof (node_init_ok ps now) as Hok. revert Hr H0 Hok.
  generalize (node_init ps now). generalize (@hist_init Cmd). induction evs as [|ev evs IH]; intros h N0; cbn [node_run].
  - by intros [= ->].
  - destruct (decide _) as [Hst|]; [|done]. destruct (node_step N0 ev) as [N1|] eqn:E; [|done].
    cbn [mbind option_bind]. intros Hr [e0 H0] Hok.
    destruct (node_step_ok _ _ _ _ _ Hok Hst E) as (h1 & _ & Hok1).
    destruct (node_step_service _ _ _ _ _ Hok ltac:(by apply (node_in_step_spec _ _ _ E) in Hst as [_ ?]) E) as [e1 H1]. apply (IH h1 N1); [done| |done].
    eapply started_app; [by exists e0|done].
Qed.

Lemma node_step_open N ev N' : sys_open (ns_sys N) → node_step N ev = Some N' → sys_open (ns_sys N').
Proof using Type.
  intros Hop E. destruct ev as [ev|p t|i o|p now|p now]; cbn [node_step] in E.
  - destruct (background ev); [|done]. destruct (sys_step _ _) as [S'|] eqn:Es; [|done].
    injection E as <-. by eapply sys_open_step.
  - destruct (sy_procs _ !! _); [|done]. cbn [mbind option_bind] in E. destruct (startable t); [|done].
    by injection E as <-.
  - destruct (ns_gos N !! i) as [g|]; [|done]. cbn [mbind option_bind] in E. destruct (go_alive g); [|done].
    unfold go_call in E. destruct (sy_procs _ !! _) as [pr|]; [|done]. cbn [mbind option_bind] in E.
    destruct (nodes _ !! _) as [rf|]; [|done]. cbn [mbind option_bind] in E.
    destruct (go_prog g) as [|X e k|]; [done| |done]. destruct (submit_of e) as [cmd|].
    + destruct (go_chan g) as [ch|].
      * destruct (list_find _ _) as [r|]; [|done]. cbn [mbind option_bind] in E.
        destruct (submit_answer e _); [|done]. by injection E as <-.
      * destruct (sys_step _ _) as [S'|] eqn:Es; [|done]. injection E as <-. by eapply sys_open_step.
    + destruct (local_answer e _ _ o); [|done]. by injection E as <-.
  - destruct (sys_step _ _) as [S'|] eqn:Es; [|done]. injection E as <-. by eapply sys_open_step.
  - destruct (sys_step _ _) as [S'|] eqn:Es; [|done]. injection E as <-. by eapply sys_open_step.
Qed.

Lemma node_exec_open N evs N' : sys_open (ns_sys N) → node_exec N evs = Some N' → sys_open (ns_sys N').
Proof using Type.
  revert N. induction evs as [|ev evs IH]; intros N Hop; cbn [node_exec]; [by intros [= <-]|].
  destruct (node_step N ev) as [N1|] eqn:E; [|done]. cbn [mbind option_bind]. apply IH. by eapply node_step_open.
Qed.

(** ** A goroutine asks the clock and the random source, or logs *)
Inductive gets : prog outcome → prog outcome → Prop :=
| gets_refl p : gets p p
| gets_now t k p : gets (k t) p → gets (Do Now k) p
| gets_rand n b k p : length b = n → gets (k b) p → gets (Do (RandRead n) k) p
| gets_log msg k p : gets (k tt) p → gets (Do (LogPrintf msg) k) p.

(** [g'] is [g], about to do [p]. *)
Definition comes_to g (p : prog outcome) g' : Prop :=
  go_node g' = go_node g ∧ go_task g' = go_task g ∧ go_prog g' = p ∧ go_chan g' = None ∧ go_alive g' = true.

Lemma call_local S gos i g {X} (e : eff X) k o x pr rf :
  sy_procs S !! go_node g = Some pr → nodes (sy_cluster S) !! go_node g = Some rf →
  gos !! i = Some g → go_alive g = true → go_prog g = Do e k → submit_of e = None →
  local_answer e rf (store (pr_world pr)) o = Some x →
  executes (mkProgram S gos) (mkProgram S (<[i := answered g e x (k x)]> gos ++ spawned (go_node g) e)).
Proof using Type.
  intros Hp Hrf Hi Ha Hg Hs Hx. apply (executes_step _ (NodeCall i o)); [done|]. cbn [node_step ns_gos].
  rewrite Hi. cbn [mbind option_bind]. rewrite Ha. unfold go_call. cbn [ns_sys ns_gos]. rewrite Hp, Hrf.
  cbn [mbind option_bind]. by rewrite Hg, Hs, Hx.
Qed.

Lemma call_alone S gos i g {X} (e : eff X) k o x pr rf :
  sy_procs S !! go_node g = Some pr → nodes (sy_cluster S) !! go_node g = Some rf →
  gos !! i = Some g → go_alive g = true → go_prog g = Do e k → submit_of e = None →
  local_answer e rf (store (pr_world pr)) o = Some x → spawned (go_node g) e = [] →
  executes (mkProgram S gos) (mkProgram S (<[i := answered g e x (k x)]> gos)).
Proof using Type.
  intros Hp Hrf Hi Ha Hg Hs Hx Hsp. pose proof (call_local S gos i g e k o x pr rf Hp Hrf Hi Ha Hg Hs Hx) as H.
  by rewrite Hsp, app_nil_r in H.
Qed.

Lemma exec_gets S gos i g p pr rf :
  sy_procs S !! go_node g = Some pr → nodes (sy_cluster S) !! go_node g = Some rf →
  gos !! i = Some g → go_alive g = true → go_chan g = None → gets (go_prog g) p →
  ∃ g', executes (mkProgram S gos) (mkProgram S (<[i := g']> gos)) ∧ comes_to g p g'.
Proof using Type.
  intros Hp Hrf Hi Ha Hc Hg. remember (go_prog g) as q eqn:Eq. symmetry in Eq.
  revert g gos Eq Hp Hi Ha Hc Hrf. induction Hg as [q|t k q Hg IH|m b k q Hb Hg IH|msg k q Hg IH]; intros g gos Eq Hp Hi Ha Hc Hrf.
  - exists g. split; [rewrite list_insert_id by done; apply executes_refl|done].
  - pose proof (call_alone S gos i g Now k (AnsTime t) t pr rf Hp Hrf Hi Ha Eq eq_refl eq_refl eq_refl) as H1.
    destruct (IH (answered g Now t (k t)) (<[i := answered g Now t (k t)]> gos)) as (g' & H2 & Hg'); try done.
    { apply list_lookup_insert_eq. by eapply lookup_lt_Some. }
    rewrite list_insert_insert_eq in H2. exists g'. split; [by eapply executes_trans|done].
  - assert (Hx : local_answer (RandRead m) rf (store (pr_world pr)) (AnsBytes b) = Some b).
    { simpl. by rewrite decide_True. }
    pose proof (call_alone S gos i g (RandRead m) k (AnsBytes b) b pr rf Hp Hrf Hi Ha Eq eq_refl Hx eq_refl) as H1.
    destruct (IH (answered g (RandRead m) b (k b)) (<[i := answered g (RandRead m) b (k b)]> gos)) as (g' & H2 & Hg'); try done.
    { apply list_lookup_insert_eq. by eapply lookup_lt_Some. }
    rewrite list_insert_insert_eq in H2. exists g'. split; [by eapply executes_trans|done].
  - pose proof (call_alone S gos i g (LogPrintf msg) k AnsNone tt pr rf Hp Hrf Hi Ha Eq eq_refl eq_refl eq_refl) as H1.
    destruct (IH (answered g (LogPrintf msg) tt (k tt)) (<[i := answered g (LogPrintf msg) tt (k tt)]> gos)) as (g' & H2 & Hg'); try done.
    { apply list_lookup_insert_eq. by eapply lookup_lt_Some. }
    rewrite list_insert_insert_eq in H2. exists g'. split; [by eapply executes_trans|done].
Qed.

(** ** The handler of [POST /jobs] *)
#[local] Opaque Next Parse.

Definition post_job (req : createJobReq) : request := mkRequest "POST" ["jobs"] (inr req).

Lemma createJob_gets req e t next :
  Parse (cj_CronExpr req) = Ok e → Next e t = Some next →
  ∃ id reqID k, let j := requested req id next t in (cj_ID req ≠ EmptyString → id = cj_ID req) ∧
    gets (task_prog (RequestTask (post_job req))) (Do (CallSubmit (mkCmd CmdUpsert reqID j EmptyString zeroRun)) k) ∧
    gets (k None) (Ret (Answered (mkResponse 201 (JobBody j)))).
Proof using Type.
  intros He Hn. assert (Hb : ∃ b : list ascii, length b = 8%nat) by by exists (repeat "0"%char 8).
  destruct Hb as [b Hb]. unfold task_prog, post_job, Api.New, logging, mux. cbn [rq_path rq_method rq_body].
  unfold createJob. rewrite He. destruct (String.eqb_spec (cj_ID req) EmptyString).
  - exists (EncodeToString b), (EncodeToString b). eexists. cbn. split; [done|]. split.
    + apply (gets_now t), (gets_rand 8 b); [done|]. apply (gets_now t). rewrite Hn. apply (gets_now t), (gets_rand 8 b), gets_refl. done.
    + apply (gets_now t), gets_log, gets_refl.
  - exists (cj_ID req), (EncodeToString b). eexists. cbn. split; [done|]. split.
    + apply (gets_now t), (gets_now t). rewrite Hn. apply (gets_now t), (gets_rand 8 b), gets_refl. done.
    + apply (gets_now t), gets_log, gets_refl.
Qed.
Lemma started_nodes ps now (c : cluster Cmd) : ClusterLog.started ps now c → length (nodes c) = length ps.
Proof using Type. intros [h Hg]%good_started. apply (inv_len _ _ (proj1 Hg)). Qed.

(** ** A goroutine submits and is answered *)
Definition submitted_ok g cmd (k : option error → prog outcome) : goroutine := answered g (CallSubmit cmd) None (k None).

Lemma exec_submit ps now S gos p T rf w i g cmd k :
  ready p T S rf w → ClusterLog.started ps now (sy_cluster S) → (2 <= length ps)%nat →
  gos !! i = Some g → go_node g = p → go_alive g = true → go_chan g = None →
  go_prog g = Do (CallSubmit cmd) k →
  ∃ S' rf' w', executes (mkProgram S gos) (mkProgram S' (<[i := submitted_ok g cmd k]> gos)) ∧
    ready p T S' rf' w' ∧ ClusterLog.started ps now (sy_cluster S') ∧
    ∃ s, jobs (store w') = jobs (applyCmd s cmd).
Proof using Type.
  intros Hr Hs Hn Hi <- Ha Hc Hg.
  destruct (ready_submits ps now _ _ _ _ _ cmd Hr Hs Hn) as (S1 & S2 & rf2 & w2 & E1 & Hf & Hs2 & Hr2 & [_ [j Hret] Hj]).
  destruct (rd_proc _ _ _ _ _ Hr) as [i0 Hp]. pose proof (ld_node _ _ _ _ (rd_leading _ _ _ _ _ Hr)) as Hrf.
  destruct (rd_proc _ _ _ _ _ Hr2) as [i2 Hp2]. pose proof (ld_node _ _ _ _ (rd_leading _ _ _ _ _ Hr2)) as Hrf2.
  assert (Hlt : (i < length gos)%nat) by by eapply lookup_lt_Some.
  set (g1 := waits g (length (started w))).
  assert (H1 : node_step (mkProgram S gos) (NodeCall i AnsNone) = Some (mkProgram S1 (<[i := g1]> gos))).
  { cbn [node_step ns_gos]. rewrite Hi. cbn [mbind option_bind]. rewrite Ha. unfold go_call. cbn [ns_sys ns_gos].
    rewrite Hp, Hrf. cbn [mbind option_bind]. rewrite Hg. cbn [submit_of]. by rewrite Hc, E1. }
  assert (H3 : node_step (mkProgram S2 (<[i := g1]> gos)) (NodeCall i AnsNone) =
    Some (mkProgram S2 (<[i := submitted_ok g cmd k]> gos))).
  { unfold g1. cbn [node_step ns_gos]. rewrite list_lookup_insert_eq by done. cbn [mbind option_bind go_alive waits].
    rewrite Ha. unfold go_call. cbn [ns_sys ns_gos go_node go_prog go_chan waits]. rewrite Hp2, Hrf2.
    cbn [mbind option_bind pr_world]. rewrite Hg. cbn [submit_of]. rewrite Hret.
    cbn [mbind option_bind submit_answer snd]. by rewrite list_insert_insert_eq. }
  exists S2, rf2, w2. split_and!; [|done|done|done].
  eapply executes_trans; [by eapply executes_step, H1|]. eapply executes_trans; [by apply flows_executes|].
  by eapply executes_step, H3.
Qed.

(** ** A leader for new requests *)

(** No peer of the program was killed. *)
Definition nodes_alive N : Prop := all_alive (sy_cluster (ns_sys N)).

Lemma elect_leader ps now N :
  node_reachable ps now N → (2 <= length ps)%nat → nodes_alive N →
  ∃ p T S rf w, executes N (mkProgram S (ns_gos N)) ∧ ready p T S rf w ∧
    ClusterLog.started ps now (sy_cluster S).
Proof using Type.
  intros Hr Hn Ha. destruct (node_reachable_ok _ _ _ Hr) as [h Hok].
  assert (Hop : sys_open (ns_sys N)).
  { destruct Hr as [evs Hr]. apply node_run_exec in Hr as (Hr & _).
    eapply node_exec_open; [|exact Hr]. apply sys_open_init. }
  destruct (leader_ready _ ps now _ h (nk_sys _ _ _ Hok) Hop (node_started _ _ _ Hr) Hn Ha)
    as (p & S2 & T & rf & w & Hf & Hrd & Hs2).
  exists p, T, S2, rf, w. split_and!; [|done|done]. destruct N as [S gos]. by apply flows_executes.
Qed.

(** A new goroutine on [p]. *)
Lemma exec_go p T S rf w gos t :
  ready p T S rf w → startable t = true → executes (mkProgram S gos) (mkProgram S (gos ++ [new_go p t])).
Proof using Type.
  intros Hrd Ht. destruct (rd_proc _ _ _ _ _ Hrd) as [i Hp]. apply (executes_step _ (NodeGo p t)); [done|].
  cbn [node_step ns_sys ns_gos]. rewrite Hp. cbn [mbind option_bind]. by rewrite Ht.
Qed.

(** A goroutine that gets to a [Submit] gets past it. *)
Lemma exec_work ps now p T S rf w gos i g cmd k :
  ready p T S rf w → ClusterLog.started ps now (sy_cluster S) → (2 <= length ps)%nat →
  gos !! i = Some g → go_node g = p → go_alive g = true → go_chan g = None →
  gets (go_prog g) (Do (CallSubmit cmd) k) →
  ∃ S' rf' w' g', executes (mkProgram S gos) (mkProgram S' (<[i := g']> gos)) ∧ comes_to g (k None) g' ∧
    ready p T S' rf' w' ∧ ClusterLog.started ps now (sy_cluster S') ∧ ∃ s, jobs (store w') = jobs (applyCmd s cmd).
Proof using Type.
  intros Hrd Hs Hn Hi <- Ha Hc Hg. destruct (rd_proc _ _ _ _ _ Hrd) as [i0 Hp].
  pose proof (ld_node _ _ _ _ (rd_leading _ _ _ _ _ Hrd)) as Hrf.
  destruct (exec_gets S gos i g _ _ rf Hp Hrf Hi Ha Hc Hg) as (g1 & H1 & Hnode & Htask & Hprog & Hchan & Halive).
  assert (Hi1 : <[i := g1]> gos !! i = Some g1) by (apply list_lookup_insert_eq; by eapply lookup_lt_Some).
  destruct (exec_submit ps now S (<[i := g1]> gos) _ T rf w i g1 cmd k Hrd Hs Hn Hi1 Hnode Halive Hchan Hprog)
    as (S2 & rf2 & w2 & H2 & Hrd2 & Hs2 & Hj).
  rewrite list_insert_insert_eq in H2. exists S2, rf2, w2, (submitted_ok g1 cmd k).
  split_and!; [by eapply executes_trans|by split_and!|done|done|done].
Qed.

(** The request is answered 201. *)
Lemma exec_post ps now p T S rf w gos req e t next :
  ready p T S rf w → ClusterLog.started ps now (sy_cluster S) → (2 <= length ps)%nat →
  Parse (cj_CronExpr req) = Ok e → Next e t = Some next →
  ∃ S' rf' w' g id, let j := requested req id next t in (cj_ID req ≠ EmptyString → id = cj_ID req) ∧
    executes (mkProgram S gos) (mkProgram S' (gos ++ [g])) ∧ go_node g = p ∧
    go_task g = RequestTask (post_job req) ∧ go_prog g = Ret (Answered (mkResponse 201 (JobBody j))) ∧
    ready p T S' rf' w' ∧ ClusterLog.started ps now (sy_cluster S') ∧ jobs (store w') !! id = Some j.
Proof using Type.
  intros Hrd Hs Hn He Hnext. destruct (createJob_gets req e t next He Hnext) as (id & reqID & k & Hid & Hg & Hk).
  cbn zeta in Hg, Hk. set (task := RequestTask (post_job req)) in *.
  assert (Hi : (gos ++ [new_go p task]) !! length gos = Some (new_go p task)).
  { by rewrite lookup_app_r, Nat.sub_diag by lia. }
  destruct (exec_work ps now p T S rf w _ _ (new_go p task) _ k Hrd Hs Hn Hi eq_refl eq_refl eq_refl Hg)
    as (S' & rf' & w' & g1 & H2 & (Hnode & Htask & Hprog & Hchan & Halive) & Hrd' & Hs' & s & Hj).
  rewrite insert_app_r_alt, Nat.sub_diag in H2 by lia. cbn [list_insert] in H2.
  destruct (rd_proc _ _ _ _ _ Hrd') as [i0 Hp]. pose proof (ld_node _ _ _ _ (rd_leading _ _ _ _ _ Hrd')) as Hrf.
  cbn [go_node new_go] in Hnode. rewrite <- Hnode in Hp, Hrf. rewrite <- Hprog in Hk.
  assert (Hi1 : (gos ++ [g1]) !! length gos = Some g1) by by rewrite lookup_app_r, Nat.sub_diag by lia.
  destruct (exec_gets S' _ _ g1 _ _ rf' Hp Hrf Hi1 Halive Hchan Hk) as (g & H3 & Hnode2 & Htask2 & Hprog2 & _).
  rewrite insert_app_r_alt, Nat.sub_diag in H3 by lia. cbn [list_insert] in H3.
  exists S', rf', w', g, id. cbn zeta. split_and!; [done| |congruence|exact (eq_trans Htask2 Htask)|done|done|done|].
  - eapply executes_trans; [by apply (exec_go p T S rf w gos task)|]. by eapply executes_trans.
  - rewrite Hj. apply lookup_insert_eq.
Qed.

(** Jobs can always be created.  From every state that two or more nodes reach, none of them
    killed - leaders deposed, messages lost - a client's [POST /jobs] with a valid
    expression can get through, with no node going down and no call failing: a node is
    elected and runs the handler, whose command goes through the log of that node's peer
    to all others and back to its store; the answer is 201, with the job that the store of
    the node then has. *)
Theorem job_can_be_created ps now evs0 N req e t next :
  node_exec (node_init ps now) evs0 = Some N →
  node_snapshots_in_step (node_init ps now) evs0 → node_disks_survive evs0 →
  (2 <= length ps)%nat → nodes_alive N → Parse (cj_CronExpr req) = Ok e → Next e t = Some next →
  ∃ evs N' g pr id, let j := requested req id next t in (cj_ID req ≠ EmptyString → id = cj_ID req) ∧
    node_exec N evs = Some N' ∧ forallb undisturbed evs = true ∧ ns_gos N' !! length (ns_gos N) = Some g ∧
    go_task g = RequestTask (post_job req) ∧ go_prog g = Ret (Answered (mkResponse 201 (JobBody j))) ∧
    sy_procs (ns_sys N') !! go_node g = Some pr ∧ jobs (store (pr_world pr)) !! id = Some j.
Proof using Type.
  intros E0 Hst Hds Hn Ha He Hnext. pose proof (node_reachable_exec _ _ _ _ E0 Hst Hds) as Hr.
  destruct (elect_leader ps now N Hr Hn Ha) as (p & T & S & rf & w & H1 & Hrd & Hs).
  destruct (exec_post ps now p T S rf w (ns_gos N) req e t next Hrd Hs Hn He Hnext)
    as (S' & rf' & w' & g & id & Hid & H2 & Hnode & Htask & Hprog & Hrd' & _ & Hj).
  destruct (executes_trans _ _ _ H1 H2) as (evs & Hev & Hu). destruct (rd_proc _ _ _ _ _ Hrd') as [i Hp].
  exists evs, (mkProgram S' (ns_gos N ++ [g])), g, (mkProcess w' [] i), id. cbn zeta.
  split_and!; [done|done|done| |done|done|by rewrite Hnode|done].
  cbn [ns_gos]. by rewrite lookup_app_r, Nat.sub_diag by done.
Qed.

End Progress.

(** After the runs of [DoubleFire], a client creates job "b". *)
Definition daily : createJobReq := mkCreateJobReq "b" "daily" "30 14 * * *" "shell" "backup" EmptyString.
Definition at_noon : Time := mkTime (1000 * DayNs + 12 * Hour) 0.
Definition at_half_two : Time := mkTime (1000 * DayNs + 14 * Hour + 30 * Minute) 0.

#[local] Opaque DoubleFire.n2.

Lemma n2_alive : nodes_alive DoubleFire.n2.
Proof. apply all_alive_check. vm_compute. reflexivity. Qed.

Lemma job_can_be_created_witness :
  length (ns_gos DoubleFire.n2) = 5%nat ∧
  ∃ evs N' g, node_exec DoubleFire.n2 evs = Some N' ∧ ns_gos N' !! 5%nat = Some g ∧
    go_prog g = Ret (Answered (mkResponse 201 (JobBody (requested daily "b" at_half_two at_noon)))).
Proof.
  assert (Hl : length (ns_gos DoubleFire.n2) = 5%nat) by (vm_compute; reflexivity). split; [exact Hl|].
  destruct (Parse (cj_CronExpr daily)) as [e|err] eqn:He; [|vm_compute in He; discriminate].
  assert (Hn : Next e at_noon = Some at_half_two).
  { vm_compute in He. injection He as <-. vm_compute. reflexivity. }
  destruct (job_can_be_created Runs.ps3 0 _ DoubleFire.n2 daily e at_noon at_half_two
    (node_run_node_exec _ _ _ DoubleFire.n2_run) (node_run_snapshots _ _ _ DoubleFire.n2_run)
    (node_run_disks _ _ _ DoubleFire.n2_run))
    as (evs & N' & g & pr & id & Hid & Hr & _ & Hg & _ & Hprog & _); [simpl; lia|exact n2_alive|exact He|exact Hn|].
  rewrite Hl in Hg. rewrite Hid in Hprog by discriminate. exists evs, N', g. exact (conj Hr (conj Hg Hprog)).
Defined.
