(* ===== verification/NodeFiring.v ===== *)
(** * The whole program: a job that was created can run

    The rest of the way of a job: a leader that has created it fires it when it is due.
    The tick loop lists the jobs and starts a goroutine for each that is due ([fire_all]);
    that of our job advances its [NextRun] through the log and hands its command to the
    shell. *)
From Stdlib Require Import ZArith Lia String Ascii.
From stdpp Require Import base tactics list strings numbers option gmap.
From S2P Require Import Prelude.
From S2P Require Import GoTime.
From S2P Require Import Cron.
From S2P Require Import CronNext.
From S2P Require Import Gob.
From S2P Require Import Persister.
From S2P Require Import RaftNode.
From S2P Require Import History.
From S2P Require Import HistorySteps.
From S2P Require Import Cluster.
From S2P Require Import ClusterVotes.
From S2P Require Import ClusterSafety.
From S2P Require Import ClusterInv.
From S2P Require Import ClusterSteps.
From S2P Require Import ClusterLog.
From S2P Require Import ClusterLoops.
From S2P Require Import ClusterProgress.
From S2P Require Import Store.
From S2P Require Import StoreSpec.
From S2P Require Import StoreTheorems.
From S2P Require Import System.
From S2P Require Import SystemSafety.
From S2P Require Import SystemProgress.
From S2P Require Import Effects.
From S2P Require Import EffectsLogic.
From S2P Require Import Scheduler.
From S2P Require Import SchedulerTheorems.
From S2P Require Import Executor.
From S2P Require Import Api.
From S2P Require Import Main.
From S2P Require Import Nodes.
From S2P Require Import NodeLaws.
From S2P Require Import NodeSafety.
From S2P Require Import NodeTheorems.
From S2P Require Import NodeProgress.

Local Open Scope string_scope.
Local Open Scope list_scope.
Local Open Scope Z_scope.

Section Firing.
Context {gobZ : Gob Z} {gobLog : Gob (list (LogEntry Cmd))} {gobState : Gob storeState}.
Implicit Types (N : program) (S : system) (g : goroutine).

(** ** The loop of [tick] *)
Definition fire_due (now : Time) (j : Job) : prog unit :=
  if IsZero (j_NextRun j) || After (j_NextRun j) now then mret tt else perform (GoFireJob j now).

Lemma fire_due_eq now j : fire_due now j = if due now j then perform (GoFireJob j now) else mret tt.
Proof using Type. unfold fire_due, due. by destruct (_ || _). Qed.

(** [C] is what remains to do after the loop. *)
Lemma fire_all S (C : prog unit → prog outcome) p now pr rf js gos i g :
  (∀ X (e : eff X) k, C (Do e k) = Do e (λ x, C (k x))) →
  sy_procs S !! p = Some pr → nodes (sy_cluster S) !! p = Some rf →
  gos !! i = Some g → go_node g = p → go_alive g = true → go_prog g = C (for_each js (fire_due now)) →
  ∃ g' more, executes (mkProgram S gos) (mkProgram S (<[i := g']> gos ++ more)) ∧
    go_node g' = p ∧ go_task g' = go_task g ∧ (∀ c, c ∈ go_trace g → c ∈ go_trace g') ∧
    ∀ j, j ∈ js → due now j = true → new_go p (FireTask j now) ∈ more ∧ Call (GoFireJob j now) tt ∈ go_trace g'.
Proof using Type.
  intros HC Hp Hrf. revert gos g. induction js as [|x js IH]; intros gos g Hi Hn Ha Hg.
  { exists g, []. rewrite app_nil_r, list_insert_id by done.
    split_and!; [apply executes_refl|done|done|done|by intros j ?%not_elem_of_nil]. }
  cbn [for_each] in Hg. rewrite fire_due_eq in Hg. destruct (due now x) eqn:Hd.
  - change (go_prog g = C (Do (GoFireJob x now) (λ _, for_each js (fire_due now)))) in Hg. rewrite HC in Hg.
    rewrite <- Hn in Hp, Hrf. pose proof (call_local S gos i g _ _ AnsNone tt pr rf Hp Hrf Hi Ha Hg eq_refl eq_refl) as H1.
    set (g1 := answered g _ _ _) in H1. cbn [spawned] in H1. rewrite Hn in *.
    destruct (IH (<[i := g1]> gos ++ [new_go p (FireTask x now)]) g1) as (g' & more & H2 & Hn' & Ht' & Htr & Hmore); try done.
    { rewrite lookup_app_l; [apply list_lookup_insert_eq|rewrite length_insert]; by eapply lookup_lt_Some. }
    rewrite insert_app_l, list_insert_insert_eq, <- app_assoc in H2 by (rewrite length_insert; by eapply lookup_lt_Some).
    exists g', ([new_go p (FireTask x now)] ++ more). split_and!; [by eapply executes_trans|done|done| |].
    + intros c Hc. apply Htr. cbn. apply elem_of_app. by left.
    + intros j [->|Hj]%elem_of_cons Hdj; [split; [by left|]|].
      * apply Htr. cbn. apply elem_of_app. right. by left.
      * destruct (Hmore j Hj Hdj). split; [by right|done].
  - destruct (IH gos g Hi Hn Ha Hg) as (g' & more & H2 & Hn' & Ht' & Htr & Hmore). exists g', more.
    split_and!; [done..|]. intros j [->|Hj]%elem_of_cons Hdj; [congruence|by apply Hmore].
Qed.

(** A turn of the tick loop of a leader. *)
Lemma exec_tick p T S rf w gos now id j :
  ready p T S rf w → jobs (store w) !! id = Some j → due now j = true →
  ∃ g more, executes (mkProgram S gos) (mkProgram S (gos ++ g :: more)) ∧
    go_node g = p ∧ go_task g = TickTask now ∧ Call (GoFireJob j now) tt ∈ go_trace g ∧
    new_go p (FireTask j now) ∈ more.
Proof using Type.
  intros Hrd Hj Hd. destruct (rd_proc _ _ _ _ _ Hrd) as [i0 Hp].
  pose proof (rd_leading _ _ _ _ _ Hrd) as Hld. pose proof (ld_node _ _ _ _ Hld) as Hrf.
  set (order := (map_to_list (jobs (store w))).*1). set (i := length gos).
  pose proof (exec_go p T S rf w gos (TickTask now) Hrd eq_refl) as H1.
  set (g := new_go p (TickTask now)) in H1. set (js := ListJobs (store w) order).
  assert (Hi : (gos ++ [g]) !! i = Some g) by (unfold i; by rewrite lookup_app_r, Nat.sub_diag by lia).
  assert (Hst : local_answer CallGetState rf (store w) AnsNone = Some (currentTerm rf, true)).
  { simpl. unfold RaftNode.GetState. rewrite bool_decide_true by apply Hld. done. }
  pose proof (call_alone S _ i g CallGetState _ AnsNone _ _ rf Hp Hrf Hi eq_refl eq_refl eq_refl Hst eq_refl) as H2.
  set (g1 := answered g _ _ _) in H2.
  assert (Hi1 : <[i := g1]> (gos ++ [g]) !! i = Some g1) by (apply list_lookup_insert_eq; by eapply lookup_lt_Some).
  assert (Hls : local_answer CallListJobs rf (store w) (AnsKeys order) = Some js) by (simpl; by rewrite decide_True).
  pose proof (call_alone S _ i g1 CallListJobs _ (AnsKeys order) _ _ rf Hp Hrf Hi1 eq_refl eq_refl eq_refl Hls eq_refl) as H3.
  set (g2 := answered g1 _ _ _) in H3. rewrite list_insert_insert_eq in H3.
  destruct (fire_all S (λ q, prog_bind (prog_bind q (λ _, mret true)) (λ _, mret Over)) p now (mkProcess w [] i0) rf js
    (<[i := g2]> (gos ++ [g])) i g2) as (g' & more & H4 & Hn' & Ht' & _ & Hmore); try done.
  { apply list_lookup_insert_eq. by eapply lookup_lt_Some. }
  assert (Heq : <[i := g']> (gos ++ [g]) = gos ++ [g']) by (unfold i; by rewrite insert_app_r_alt, Nat.sub_diag by lia).
  rewrite list_insert_insert_eq, Heq, <- app_assoc in H4.
  destruct (Hmore j) as [Hnew Hcall]; [|done|].
  { unfold js, ListJobs. apply list_elem_of_omap. exists id. split; [|done].
    apply list_elem_of_fmap. exists (id, j). split; [done|]. by apply elem_of_map_to_list. }
  exists g', more. split_and!; [by do 3 (eapply executes_trans; [done|])|done|done|done|done].
Qed.

(** ** The job that was fired *)
#[local] Opaque Next Parse.

Lemma fireJob_gets j now next :
  nextRun (j_CronExpr j) now = Some (next, true) → j_Executor j = "shell" →
  ∃ reqID k k', gets (task_prog (FireTask j now)) (Do (CallSubmit (upsertCmd reqID (set_NextRun next j))) k) ∧
    gets (k None) (Do (Shell defaultShellTimeout (j_Payload j)) k').
Proof using Type.
  intros Hn He. assert (Hb : ∃ b : list ascii, length b = 8%nat) by by exists (repeat "0"%char 8).
  destruct Hb as [b Hb]. unfold task_prog, fireJob. rewrite Hn. exists (EncodeToString b). eexists _, _. split.
  - cbn. apply (gets_rand 8 b), gets_refl. done.
  - cbn [set_NextRun j_ID j_Executor]. unfold Run at 1, Dispatcher_Run. cbn [exec nodeScheduler set_NextRun j_Executor].
    rewrite NewDispatcher_lookup, He. cbn. apply (gets_now zeroTime), gets_refl.
Qed.

(** The goroutine of a due job advances it and runs its command. *)
Lemma exec_fire ps now p T S rf w gos i j t next :
  ready p T S rf w → ClusterLog.started ps now (sy_cluster S) → (2 <= length ps)%nat →
  gos !! i = Some (new_go p (FireTask j t)) → nextRun (j_CronExpr j) t = Some (next, true) → j_Executor j = "shell" →
  ∃ S' rf' w' g res, executes (mkProgram S gos) (mkProgram S' (<[i := g]> gos)) ∧ go_node g = p ∧ go_task g = FireTask j t ∧
    Call (Shell defaultShellTimeout (j_Payload j)) res ∈ go_trace g ∧ ready p T S' rf' w' ∧
    jobs (store w') !! j_ID j = Some (set_NextRun next j).
Proof using Type.
  intros Hrd Hs Hn Hi Hnext He. destruct (fireJob_gets j t next Hnext He) as (reqID & k & k' & Hg & Hk).
  destruct (exec_work ps now p T S rf w gos i _ _ k Hrd Hs Hn Hi eq_refl eq_refl eq_refl Hg)
    as (S1 & rf1 & w1 & g1 & H1 & (Hnode & Htask & Hprog & Hchan & Halive) & Hrd1 & Hs1 & s & Hj).
  assert (Hlt : (i < length gos)%nat) by by eapply lookup_lt_Some.
  destruct (rd_proc _ _ _ _ _ Hrd1) as [i1 Hp1]. pose proof (ld_node _ _ _ _ (rd_leading _ _ _ _ _ Hrd1)) as Hrf1.
  cbn [go_node new_go] in Hnode. rewrite <- Hnode in Hp1, Hrf1. rewrite <- Hprog in Hk.
  assert (Hi1 : <[i := g1]> gos !! i = Some g1) by by apply list_lookup_insert_eq.
  destruct (exec_gets S1 _ i g1 _ _ rf1 Hp1 Hrf1 Hi1 Halive Hchan Hk) as (g2 & H2 & Hnode2 & Htask2 & Hprog2 & _ & Halive2).
  rewrite list_insert_insert_eq in H2. rewrite <- Hnode2 in Hp1, Hrf1.
  assert (Hi2 : <[i := g2]> gos !! i = Some g2) by by apply list_lookup_insert_eq.
  set (res := mkShell EmptyString None false).
  pose proof (call_alone S1 _ i g2 _ _ (AnsShell res) res _ rf1 Hp1 Hrf1 Hi2 Halive2 Hprog2 eq_refl eq_refl eq_refl) as H3.
  set (g3 := answered g2 _ _ _) in H3. rewrite list_insert_insert_eq in H3.
  exists S1, rf1, w1, g3, res. split_and!; [|cbn; congruence|exact (eq_trans Htask2 Htask)| |done|].
  - eapply executes_trans; [done|]. by eapply executes_trans.
  - cbn. apply elem_of_app. right. by left.
  - rewrite Hj. apply lookup_insert_eq.
Qed.

(** C15. Jobs can be created and run.  From every state that two or more nodes reach, none of
    them killed, in a run in which no snapshot was installed on a peer that had applied more
    or was delivering entries and a node that came back had the persister it had: a client
    can have a shell job created, and when its time has come it can run, in a continuation
    in which no node goes down and no call or [Submit] fails.  One node p answers the
    request 201 with the job; a turn of the tick loop of p at t2, after the job's [NextRun],
    starts the goroutine for it; and this goroutine, on p, has made the shell call with the
    job's payload, with the store of p at the next activation after t2.  (The expression has
    the activations that [Next] computes, neither of them the zero time.) *)
Theorem created_job_can_run ps now evs0 N req e t next t2 next2 :
  node_exec (node_init ps now) evs0 = Some N →
  node_snapshots_in_step (node_init ps now) evs0 → node_disks_survive evs0 →
  (2 <= length ps)%nat → nodes_alive N →
  Parse (cj_CronExpr req) = Ok e → cj_Executor req = "shell" →
  Next e t = Some next → IsZero next = false → After next t2 = false →
  Next e t2 = Some next2 → IsZero next2 = false →
  ∃ evs N' p pr g1 gt g2 id res, let j := requested req id next t in
    node_exec N evs = Some N' ∧ forallb undisturbed evs = true ∧
    g1 ∈ ns_gos N' ∧ go_node g1 = p ∧
    go_task g1 = RequestTask (post_job req) ∧ go_prog g1 = Ret (Answered (mkResponse 201 (JobBody j))) ∧
    gt ∈ ns_gos N' ∧ go_node gt = p ∧ go_task gt = TickTask t2 ∧ Call (GoFireJob j t2) tt ∈ go_trace gt ∧
    g2 ∈ ns_gos N' ∧ go_node g2 = p ∧ go_task g2 = FireTask j t2 ∧
    Call (Shell defaultShellTimeout (cj_Payload req)) res ∈ go_trace g2 ∧
    sy_procs (ns_sys N') !! p = Some pr ∧ jobs (store (pr_world pr)) !! id = Some (set_NextRun next2 j).
Proof using Type.
  intros E0 Hst Hds Hn Ha He Hex Hnext Hz Hdue Hnext2 Hz2.
  pose proof (node_reachable_exec _ _ _ _ E0 Hst Hds) as Hr.
  destruct (elect_leader ps now N Hr Hn Ha) as (p & T & S & rf & w & H1 & Hrd & Hs).
  destruct (exec_post ps now p T S rf w (ns_gos N) req e t next Hrd Hs Hn He Hnext)
    as (S1 & rf1 & w1 & g1 & id & _ & H2 & Hnode & Htask & Hprog & Hrd1 & Hs1 & Hj1).
  set (j := requested req id next t) in *. set (gos1 := ns_gos N ++ [g1]) in *.
  destruct (exec_tick p T S1 rf1 w1 gos1 t2 id j Hrd1 Hj1)
    as (gt & more & H3 & Hnt & Htt & Hfire & [k Hk]%list_elem_of_lookup).
  { unfold due. cbn. by rewrite Hz, Hdue. }
  assert (Hk' : (gos1 ++ gt :: more) !! (length gos1 + Datatypes.S k)%nat = Some (new_go p (FireTask j t2))).
  { rewrite lookup_app_r by lia. by replace (length gos1 + Datatypes.S k - length gos1)%nat with (Datatypes.S k) by lia. }
  assert (Hnr : nextRun (j_CronExpr j) t2 = Some (next2, true)).
  { unfold nextRun. cbn. rewrite He, Hnext2. cbn [mbind option_bind]. by rewrite Hz2. }
  destruct (exec_fire ps now p T S1 rf1 w1 _ _ j t2 next2 Hrd1 Hs1 Hn Hk' Hnr Hex)
    as (S2 & rf2 & w2 & g2 & res & H4 & Hn2 & Htask2 & Hcall & Hrd2 & Hj2).
  rewrite insert_app_r in H4. cbn [list_insert] in H4. destruct (rd_proc _ _ _ _ _ Hrd2) as [i Hp].
  destruct (executes_trans _ _ _ H1 (executes_trans _ _ _ H2 (executes_trans _ _ _ H3 H4))) as (evs & Hev & Hu).
  exists evs, (mkProgram S2 (gos1 ++ gt :: <[k := g2]> more)), p, (mkProcess w2 [] i), g1, gt, g2, id, res. cbn zeta.
  assert (Hin : g1 ∈ gos1 ++ gt :: <[k := g2]> more ∧ gt ∈ gos1 ++ gt :: <[k := g2]> more ∧
    g2 ∈ gos1 ++ gt :: <[k := g2]> more).
  { split_and!; apply elem_of_app.
    - left. unfold gos1. apply elem_of_app. right. by left.
    - right. by left.
    - right. right. eapply list_elem_of_lookup_2, list_lookup_insert_eq. by eapply lookup_lt_Some. }
  destruct Hin as (? & ? & ?). by split_and!.
Qed.

End Firing.

(** The job "b" of NodeProgress.v, five seconds after it is due. *)
Definition half_two_and : Time := mkTime (1000 * DayNs + 14 * Hour + 30 * Minute + 5 * Second) 0.
Definition next_day : Time := mkTime (1001 * DayNs + 14 * Hour + 30 * Minute) 0.

#[local] Opaque DoubleFire.n2.

Lemma created_job_can_run_witness :
  After at_half_two half_two_and = false ∧
  ∃ evs N' g res, node_exec DoubleFire.n2 evs = Some N' ∧ g ∈ ns_gos N' ∧
    Call (Shell defaultShellTimeout "backup") res ∈ go_trace g.
Proof.
  assert (Hd : After at_half_two half_two_and = false) by (vm_compute; reflexivity). split; [exact Hd|].
  destruct (Parse (cj_CronExpr daily)) as [e|err] eqn:He; [|vm_compute in He; discriminate].
  assert (Hn : Next e at_noon = Some at_half_two ∧ Next e half_two_and = Some next_day).
  { vm_compute in He. injection He as <-. split; vm_compute; reflexivity. }
  destruct (created_job_can_run Runs.ps3 0 _ DoubleFire.n2 daily e at_noon at_half_two half_two_and next_day
    (node_run_node_exec _ _ _ DoubleFire.n2_run) (node_run_snapshots _ _ _ DoubleFire.n2_run)
    (node_run_disks _ _ _ DoubleFire.n2_run))
    as (evs & N' & p & pr & g1 & gt & g & id & res & Hr & _ & _ & _ & _ & _ & _ & _ & _ & _ & Hg & _ & _ & Hc & _);
    [simpl; lia|exact n2_alive|exact He|reflexivity|exact (proj1 Hn)|vm_compute; reflexivity|exact Hd|exact (proj2 Hn)|vm_compute; reflexivity|].
  exists evs, N', g, res. exact (conj Hr (conj Hg Hc)).
Defined.
