(* ===== verification/Startup.v ===== *)
(** * cmd/crond: from the environment to a running deployment

    [boot] is [main] of one node up to the signal: configuration, listener, persister,
    Raft peer, RPC server, store, scheduler, the [go] statements and the REST API;
    [shutdown] is the rest.  [net.Listen] is the argument [listen], which gives the error
    if there is one; [net/http] serves what [httpServer] says and tells [serveAPI] how it
    ended.  The lines that [main] logs itself are left out.

    [deploy] puts booted nodes side by side, and the theorem is that this is a state of
    Nodes.v: what the other files prove of [node_reachable] programs is about deployments. *)
From Stdlib Require Import ZArith Lia String Ascii.
From stdpp Require Import base tactics list strings numbers option gmap.
From S2P Require Import Prelude.
From S2P Require Import GoTime.
From S2P Require Import GoStrings.
From S2P Require Import Gob.
From S2P Require Import Persister.
From S2P Require Import RaftNode.
From S2P Require Import Cluster.
From S2P Require Import ClusterVotes.
From S2P Require Import ClusterSafety.
From S2P Require Import Transport.
From S2P Require Import Store.
From S2P Require Import System.
From S2P Require Import Effects.
From S2P Require Import Scheduler.
From S2P Require Import Executor.
From S2P Require Import Api.
From S2P Require Import Main.
From S2P Require Import Nodes.

Local Open Scope string_scope.
Local Open Scope list_scope.
Local Open Scope Z_scope.

(** ** The REST API of a node *)
Record httpServer := mkHTTP {
  hs_Addr : string;
  hs_Handler : Api.request → prog Api.response;
  hs_ReadTimeout : Z;
  hs_WriteTimeout : Z
}.

(** [api.New]. *)
Definition apiServer (addr : string) : httpServer :=
  mkHTTP addr (Api.New Nodes.nodeServer) (10 * GoTime.Second) (10 * GoTime.Second).

(** How [ListenAndServe] ends. *)
Inductive serve_error := ErrServerClosed | ServeFailed (err : string).

(** The goroutine of the API.  A server that cannot listen is logged, and the node runs on
    without one. *)
Definition serveAPI (srv : httpServer) (ended : option serve_error) : prog unit :=
  _ ← perform (LogPrintf ("API server on " +:+ hs_Addr srv));
  match ended with
  | Some (ServeFailed err) => perform (LogPrintf ("API server error: " +:+ err))
  | _ => mret tt
  end.

(** ** One node *)

(** What becomes [log.Fatalf]. *)
Inductive boot_error :=
| BadConfig (f : fatal)
| ListenError (bind err : string)
| RegisterError.

(** The words of [PEERS], with the blanks around them. *)
Abbreviation words := (list (nat * string * nat)).
Definition peers_text (ws : words) : string :=
  str_join "," ((λ '(l, w, r), blanks l +:+ (w +:+ blanks r)) <$> ws).
Definition peers_of (ws : words) : list Peer := (λ '(l, w, r), NewPeer w) <$> ws.

Section Startup.
Context {gobZ : Gob Z} {gobLog : Gob (list (LogEntry Cmd))} {gobState : Gob storeState}.
Context {gobRVA : Gob RequestVoteArgs} {gobRVR : Gob RequestVoteReply}.
Context {gobAEA : Gob (AppendEntriesArgs Cmd)} {gobAER : Gob AppendEntriesReply}.
Context {gobISA : Gob InstallSnapshotArgs} {gobISR : Gob InstallSnapshotReply}.

(** The server of Transport.v: by the name of the service and of the method. *)
Definition rpcServer : Type :=
  gmap string (gmap string (Raft Cmd → bytes → Z → option (Raft Cmd * Transport.response))).

(** The [go] statements of [main] and of the [Make]s it calls. *)
Inductive go_stmt :=
| GoRaft (t : thread Cmd)                          (* raft.Make *)
| GoAccept (srv : rpcServer)                       (* srv.Accept(ln) *)
| GoApplyLoop                                      (* store.Make *)
| GoTickLoop                                       (* scheduler.Make *)
| GoTask (t : task)                                (* the wait for leadership *)
| GoServe (srv : httpServer).                      (* the REST API *)

Record node := mkNode {
  nd_raft : Raft Cmd;
  nd_store : Store;
  nd_sched : Scheduler raftPeer Dispatcher;
  nd_done : bool;                                  (* [sc.done] is closed *)
  nd_go : list go_stmt
}.

Definition boot (getenv : string → string) (listen : string → option string) (now : Z)
  : result boot_error node :=
  cfg ← wrap_err BadConfig (configure getenv);
  _ ← match listen (bindAddr cfg) with
      | Some err => Err (ListenError (bindAddr cfg) err)
      | None => Ok tt
      end;
  let persister := MakePersister in
  let rf := RaftNode.Make (peersList cfg) (Main.me cfg) persister now in
  srv ← match Transport.nodeServer with Some srv => Ok srv | None => Err RegisterError end;
  let st := Store.Make true (Some persister) in
  let api := if String.eqb (apiAddr cfg) EmptyString then []
             else [GoServe (apiServer (apiAddr cfg))] in
  mret (mkNode rf st nodeScheduler false
    ((GoRaft <$> loops (Main.me cfg)) ++
     [GoAccept srv; GoApplyLoop; GoTickLoop; GoTask WaitTask] ++ api)).

(** [close] of a closed channel panics. *)
Definition Scheduler_Kill (nd : node) : option node :=
  if nd_done nd then None
  else Some (mkNode (nd_raft nd) (nd_store nd) (nd_sched nd) true (nd_go nd)).

(** What [tickLoop] can receive. *)
Definition receives (nd : node) (ev : tick_event) : bool :=
  match ev with Done => nd_done nd | Tick _ => true end.

(** [main] after the signal. *)
Definition shutdown (nd : node) : option node :=
  nd ← Scheduler_Kill nd;
  Some (mkNode (RaftNode.Kill (nd_raft nd)) (nd_store nd) (nd_sched nd) (nd_done nd) (nd_go nd)).

(** ** All nodes *)
Definition raft_threads (nd : node) : list (thread Cmd) :=
  omap (λ g, match g with GoRaft t => Some t | _ => None end) (nd_go nd).
Definition node_tasks (nd : node) : list task :=
  omap (λ g, match g with GoTask t => Some t | _ => None end) (nd_go nd).

(** The nodes after their start, nothing sent yet. *)
Definition deploy (nds : list node) : program :=
  mkProgram
    (mkSystem (mkCluster (nd_raft <$> nds) [] (nds ≫= raft_threads) [] [] [])
       ((λ nd, mkProcess (world_init (nd_store nd)) [] (lastIncludedIndex (nd_raft nd))) <$> nds))
    (nds ≫= λ nd, new_go (RaftNode.me (nd_raft nd)) <$> node_tasks nd).

(** Who listens at an address of the peer list. *)
Definition listener (ps : list Peer) (a : string) : option nat :=
  fst <$> list_find (λ p, addr p = a) ps.

(** ** Start and end of one node *)

(** The node of a configuration. *)
Definition node_of (cfg : config) (now : Z) (nd : node) : Prop :=
  ∃ srv, Transport.nodeServer = Some srv ∧
    nd = mkNode (RaftNode.Make (peersList cfg) (Main.me cfg) MakePersister now)
           (Store.Make true (Some MakePersister)) nodeScheduler false
           ((GoRaft <$> loops (Main.me cfg)) ++ [GoAccept srv; GoApplyLoop; GoTickLoop; GoTask WaitTask] ++
            if String.eqb (apiAddr cfg) EmptyString then [] else [GoServe (apiServer (apiAddr cfg))]).

Lemma boot_ok getenv listen now cfg :
  configure getenv = Ok cfg → listen (bindAddr cfg) = None →
  ∃ nd, boot getenv listen now = Ok nd ∧ node_of cfg now nd.
Proof using Type.
  intros Hc Hl. unfold boot. rewrite Hc. cbn. rewrite Hl. cbn. eexists. split; [reflexivity|].
  eexists. split; reflexivity.
Qed.

(** The only errors: the configuration, and an address that is taken. *)
Lemma boot_errors getenv listen now e :
  boot getenv listen now = Err e →
  (∃ f, e = BadConfig f ∧ configure getenv = Err f) ∨
  ∃ cfg err, configure getenv = Ok cfg ∧ listen (bindAddr cfg) = Some err ∧ e = ListenError (bindAddr cfg) err.
Proof using Type.
  unfold boot. destruct (configure getenv) as [cfg|f]; cbn; [|intros [= <-]; left; by exists f].
  destruct (listen (bindAddr cfg)) as [err|] eqn:Hl; cbn; [|done]. intros [= <-]. right. by exists cfg, err.
Qed.

(** The node goes down in order once: the peer is dead, the tick loop can end, and a second
    [Kill] of the scheduler panics. *)
Lemma shutdown_once getenv listen now nd :
  boot getenv listen now = Ok nd →
  ∃ nd', shutdown nd = Some nd' ∧ killed (nd_raft nd') = true ∧ shutdown nd' = None ∧
    receives nd Done = false ∧ receives nd' Done = true.
Proof using Type.
  unfold boot. destruct (configure getenv) as [cfg|f]; cbn; [|done].
  destruct (listen (bindAddr cfg)); cbn; [done|]. intros [= <-]. by eexists.
Qed.

Lemma node_run_app N evs N1 evs' N2 :
  node_run N evs = Some N1 → node_run N1 evs' = Some N2 → node_run N (evs ++ evs') = Some N2.
Proof using Type.
  revert N. induction evs as [|ev evs IH]; intros N; cbn [app node_run]; [by intros [= ->]|].
  destruct (decide (node_in_step N ev)); [|done]. destruct (node_step N ev); [|done].
  cbn [mbind option_bind]. apply IH.
Qed.

(** ** Peers that start one after the other *)
Section Restarts.
Context (ps : list Peer) (t : nat → Z) (now : Z).

(** The peer [p] when the first [k] peers have been started anew. *)
Definition started_peer (k p : nat) : Raft Cmd :=
  RaftNode.Make ps p MakePersister (if decide (p < k)%nat then t p else now).

(** The goroutines of the peers that are not started yet come first. *)
Definition started_cluster (k : nat) : cluster Cmd :=
  mkCluster (started_peer k <$> seq 0 (length ps)) []
    ((seq k (length ps - k) ≫= loops) ++ (seq 0 k ≫= loops)) [] [] [].

Definition started_program (k : nat) : program :=
  mkProgram (mkSystem (started_cluster k) (new_process <$> nodes (started_cluster k))) [].

Lemma none_started : started_program 0 = node_init ps now.
Proof using Type.
  unfold started_program, node_init, sys_init, cluster_init, started_cluster. cbn [nodes].
  rewrite Nat.sub_0_r. cbn [seq mbind list_bind]. by rewrite app_nil_r.
Qed.

(** Peers that are numbered keep their place. *)
Lemma insert_seq {A} (f g : nat → A) n k x :
  (∀ p, p ≠ k → g p = f p) → g k = x → <[k := x]> (f <$> seq 0 n) = g <$> seq 0 n.
Proof using Type.
  intros Hg Hx. apply list_eq. intros p. destruct (decide (p = k)) as [->|Hp].
  - destruct (decide (k < n)%nat) as [Hk|Hk].
    + rewrite list_lookup_insert_eq by by rewrite length_fmap, length_seq.
      rewrite list_lookup_fmap, lookup_seq_lt by done. simpl. by rewrite Hx.
    + rewrite !lookup_ge_None_2; [done| |]; rewrite ?length_insert, length_fmap, length_seq; lia.
  - rewrite list_lookup_insert_ne, !list_lookup_fmap by done. destruct (seq 0 n !! p) as [q|] eqn:Hq; [|done].
    apply lookup_seq in Hq as [-> _]. simpl. by rewrite Hg.
Qed.

Lemma other_loops k l :
  k ∉ l → List.filter (λ x : thread Cmd, negb (t_node x =? k)%nat) (l ≫= loops) = l ≫= loops.
Proof using Type.
  induction l as [|p l IH]; [done|]. intros [Hp Hl]%not_elem_of_cons.
  change ((p :: l) ≫= loops) with (loops (Command:=Cmd) p ++ (l ≫= loops)). rewrite List.filter_app, IH by done.
  f_equal. cbn [loops List.filter t_node]. by rewrite (proj2 (Nat.eqb_neq p k)) by done.
Qed.

Lemma own_loops k : List.filter (λ x : thread Cmd, negb (t_node x =? k)%nat) (loops k) = [].
Proof using Type. cbn [loops List.filter t_node]. by rewrite Nat.eqb_refl. Qed.

Lemma next_peer_started k :
  (k < length ps)%nat → node_step (started_program k) (NodeRestart k (t k)) = Some (started_program (S k)).
Proof using Type.
  intros Hk.
  assert (Hr : nodes (started_cluster k) !! k = Some (started_peer k k)).
  { cbn [started_cluster nodes]. by rewrite list_lookup_fmap, lookup_seq_lt by done. }
  destruct (Make_fixed ps k MakePersister now) as (Hps & _ & Hpe & _).
  assert (Hp : peers (started_peer k k) = ps ∧ persister (started_peer k k) = MakePersister).
  { unfold started_peer. rewrite decide_False by lia. by split. }
  destruct Hp as [Hps' Hpe'].
  assert (Hk' : started_peer (S k) k = RaftNode.Make ps k MakePersister (t k)).
  { unfold started_peer. by rewrite decide_True by lia. }
  assert (Hne : ∀ p, p ≠ k → started_peer (S k) p = started_peer k p).
  { intros p Hp. unfold started_peer. destruct (decide (p < k)%nat);
      [by rewrite decide_True by lia|by rewrite decide_False by lia]. }
  assert (Hn : <[k := RaftNode.Make ps k MakePersister (t k)]> (nodes (started_cluster k)) =
               nodes (started_cluster (S k))) by by apply insert_seq.
  assert (Ht : List.filter (λ x, negb (t_node x =? k)%nat) (threads (started_cluster k)) ++ loops k =
               threads (started_cluster (S k))).
  { cbn [started_cluster threads]. replace (length ps - k)%nat with (S (length ps - S k)) by lia.
    change (seq k (S (length ps - S k)) ≫= loops)
      with (loops (Command:=Cmd) k ++ (seq (S k) (length ps - S k) ≫= loops)).
    rewrite !List.filter_app, own_loops, !other_loops by (rewrite elem_of_seq; lia).
    rewrite (seq_S k 0), bind_app. cbn [app Nat.add mbind list_bind]. by rewrite app_nil_r, app_assoc. }
  assert (Hc : cluster_step (started_cluster k) (EvRestart k (t k)) = Some (started_cluster (S k))).
  { cbn [cluster_step]. unfold restart. rewrite Hr. cbn [mbind option_bind]. by rewrite Hps', Hpe', Hn, Ht. }
  cbn [node_step started_program ns_sys ns_gos]. unfold sys_step. cbn [sy_cluster sy_procs]. rewrite Hc.
  cbn [mbind option_bind]. rewrite <- Hn at 1. rewrite list_lookup_insert_eq
    by (cbn [started_cluster nodes]; by rewrite length_fmap, length_seq).
  cbn [mbind option_bind]. rewrite <- list_fmap_insert, Hn. reflexivity.
Qed.

Lemma peers_started k :
  (k <= length ps)%nat →
  node_run (node_init ps now) ((λ p, NodeRestart p (t p)) <$> seq 0 k) = Some (started_program k).
Proof using Type.
  induction k as [|k IH]; intros Hk; [by rewrite none_started|].
  rewrite seq_S, fmap_app. eapply node_run_app; [apply IH; lia|]. cbn [fmap list_fmap node_run Nat.add].
  rewrite decide_True by done. by rewrite next_peer_started by lia.
Qed.

(** The waits for leadership start. *)
Lemma waits_start N l :
  Forall (λ p, p < length (sy_procs (ns_sys N)))%nat l →
  node_run N ((λ p, NodeGo p WaitTask) <$> l) =
    Some (mkProgram (ns_sys N) (ns_gos N ++ ((λ p, new_go p WaitTask) <$> l))).
Proof using Type.
  revert N. induction l as [|p l IH]; intros [S gos] Hl.
  { cbn. by rewrite app_nil_r. }
  apply Forall_cons in Hl as [Hp Hl]. cbn [fmap list_fmap node_run]. rewrite decide_True by done.
  cbn [node_step ns_sys ns_gos]. apply lookup_lt_is_Some in Hp as [pr Hp]. cbn [ns_sys] in Hp. rewrite Hp.
  cbn [mbind option_bind startable]. rewrite IH by done. cbn [ns_sys ns_gos]. by rewrite <- app_assoc.
Qed.

End Restarts.

(** ** The deployment *)

Definition is_node (ps : list Peer) (t : nat → Z) (i : nat) (nd : node) : Prop :=
  nd_raft nd = RaftNode.Make ps i MakePersister (t i) ∧ nd_store nd = Store.Make true (Some MakePersister) ∧
  raft_threads nd = loops i ∧ new_go (RaftNode.me (nd_raft nd)) <$> node_tasks nd = [new_go i WaitTask].

Lemma side_by_side ps t now ids nds :
  Forall (λ i, i < length ps)%nat ids → Forall2 (is_node ps t) ids nds →
  nd_raft <$> nds = started_peer ps t now (length ps) <$> ids ∧
  nds ≫= raft_threads = ids ≫= loops ∧
  (λ nd, mkProcess (world_init (nd_store nd)) [] (lastIncludedIndex (nd_raft nd))) <$> nds =
    new_process <$> (started_peer ps t now (length ps) <$> ids) ∧
  (nds ≫= λ nd, new_go (RaftNode.me (nd_raft nd)) <$> node_tasks nd) = (λ p, new_go p WaitTask) <$> ids.
Proof using Type.
  intros Hlt Hnd. induction Hnd as [|i nd ids nds (Hr & Hs & Hth & Hg) _ IH]; [done|].
  apply Forall_cons in Hlt as [Hi Hlt]. destruct (IH Hlt) as (E1 & E2 & E3 & E4).
  assert (Hp : started_peer ps t now (length ps) i = nd_raft nd).
  { rewrite Hr. unfold started_peer. by rewrite decide_True by done. }
  cbn [fmap list_fmap mbind list_bind]. rewrite Hp, Hth. split_and!.
  - by f_equal.
  - by f_equal.
  - f_equal; [|done]. unfold new_process. rewrite Hs, Hr. by destruct (Make_fixed ps i MakePersister (t i)) as (_ & _ & -> & _).
  - change ((new_go (RaftNode.me (nd_raft nd)) <$> node_tasks nd) ++
            (nds ≫= λ nd, new_go (RaftNode.me (nd_raft nd)) <$> node_tasks nd) =
            [new_go i WaitTask] ++ ((λ p, new_go p WaitTask) <$> ids)).
    by rewrite Hg, E4.
Qed.

Lemma node_of_is_node ps t i cfg nd :
  node_of cfg (t i) nd → peersList cfg = ps → Main.me cfg = i → is_node ps t i nd.
Proof using Type.
  intros (srv & _ & ->) <- <-. unfold is_node, raft_threads, node_tasks. cbn [nd_raft nd_store nd_go].
  destruct (Make_fixed (peersList cfg) (Main.me cfg) MakePersister (t (Main.me cfg))) as (_ & -> & _).
  by destruct (String.eqb (apiAddr cfg) EmptyString).
Qed.

Lemma deploy_reachable ps t now nds :
  Forall2 (is_node ps t) (seq 0 (length ps)) nds → node_reachable ps now (deploy nds).
Proof using Type.
  intros Hnds.
  assert (E : deploy nds = mkProgram (ns_sys (started_program ps t now (length ps)))
                             ((λ p, new_go p WaitTask) <$> seq 0 (length ps))).
  { unfold deploy, started_program, started_cluster. cbn [ns_sys nodes].
    destruct (side_by_side ps t now (seq 0 (length ps)) nds) as (-> & -> & -> & ->); [|done|].
    { apply Forall_forall. intros i Hi%elem_of_seq. lia. }
    by rewrite Nat.sub_diag. }
  eexists. eapply node_run_app; [by apply (peers_started ps t now (length ps))|].
  rewrite E. apply (waits_start (started_program ps t now (length ps)) (seq 0 (length ps))).
  cbn [started_program ns_sys sy_procs started_cluster nodes].
  rewrite !length_fmap, length_seq. apply Forall_forall. intros i Hi%elem_of_seq. lia.
Qed.

(** The API server runs exactly when [API_ADDR] is set. *)
Lemma node_of_serves cfg now nd srv :
  node_of cfg now nd →
  GoServe srv ∈ nd_go nd ↔ apiAddr cfg ≠ EmptyString ∧ srv = apiServer (apiAddr cfg).
Proof using Type.
  intros (rpc & _ & ->). cbn [nd_go loops fmap list_fmap app].
  destruct (String.eqb_spec (apiAddr cfg) EmptyString) as [->|He]; split.
  - intros H. by repeat (apply elem_of_cons in H as [[=]|H]); apply elem_of_nil in H.
  - by intros [? _].
  - intros H. repeat ((apply elem_of_cons in H as [[= <-]|H]; [by split|]) || apply elem_of_cons in H as [[=]|H]).
    by apply elem_of_nil in H.
  - intros [_ ->]. do 6 right. left.
Qed.

(** Addresses that differ are found in the peer list. *)
Lemma listener_peer ps i p : NoDup (addr <$> ps) → ps !! i = Some p → listener ps (addr p) = Some i.
Proof using Type.
  intros Hd Hi. unfold listener. destruct (list_find (λ q, addr q = addr p) ps) as [[j q]|] eqn:E.
  - apply list_find_Some in E as (Hj & Hq & _). simpl. f_equal.
    eapply (NoDup_lookup (addr <$> ps)); [done|rewrite list_lookup_fmap, Hj; simpl; by rewrite Hq
                                           |by rewrite list_lookup_fmap, Hi].
  - apply list_find_None in E. apply (Forall_lookup_1 _ _ _ _ E) in Hi. done.
Qed.

(** C19. Nodes with the same peer list form a deployment that the theorems of the whole
    program are about.  When every node has the text of the peer list (words of printable
    characters between commas, with any blanks), its own index in it, and an address it can
    listen on, then every [main] gets through its start, whenever each is started; its API
    serves [Api.New] on [API_ADDR], if that is set; together the nodes are a state that
    [node_run] reaches from [node_init].  When the addresses are distinct, a dialled address
    is that of one node, as [wires_implement_cluster] needs. *)
Theorem deployment_starts (ws : words) (env : nat → string → string)
    (listen : nat → string → option string) (t : nat → Z) now :
  ws ≠ [] → Forall (λ '(l, w, r), plain w = true ∧ absent "," w = true ∧ w ≠ EmptyString) ws →
  Z.of_nat (length ws) <= max_int64 →
  (∀ i, (i < length ws)%nat →
     env i "PEERS" = peers_text ws ∧ env i "ME" = Itoa (Z.of_nat i) ∧
     env i "BIND_ADDR" ≠ EmptyString ∧ listen i (env i "BIND_ADDR") = None) →
  ∃ nds, Forall2 (λ i nd, boot (env i) (listen i) (t i) = Ok nd) (seq 0 (length ws)) nds ∧
    (∀ i nd srv, nds !! i = Some nd →
       GoServe srv ∈ nd_go nd ↔ env i "API_ADDR" ≠ EmptyString ∧ srv = apiServer (env i "API_ADDR")) ∧
    node_reachable (peers_of ws) now (deploy nds) ∧
    (NoDup (addr <$> peers_of ws) →
     ∀ i p, peers_of ws !! i = Some p → listener (peers_of ws) (addr p) = Some i).
Proof using Type.
  intros Hne Hws Hmax Henv.
  pose (cfg i := mkConfig (env i "BIND_ADDR") (peers_of ws) i (env i "API_ADDR")).
  assert (Hcfg : ∀ i, (i < length ws)%nat → configure (env i) = Ok (cfg i)).
  { intros i Hi. destruct (Henv i Hi) as (Hp & Hm & Hb & _).
    eapply configure_peers_roundtrip; [done|done|reflexivity|done|done|done|done|lia]. }
  assert (Hboot : ∃ nds, Forall2 (λ i nd, boot (env i) (listen i) (t i) = Ok nd ∧ node_of (cfg i) (t i) nd)
                           (seq 0 (length ws)) nds).
  { assert (Hlt : Forall (λ i, i < length ws)%nat (seq 0 (length ws)))
      by (apply Forall_forall; intros i Hi%elem_of_seq; lia).
    induction Hlt as [|i ids Hi _ [nds IH]]; [by exists []|].
    destruct (boot_ok (env i) (listen i) (t i) (cfg i)) as (nd & Hb & Hn);
      [by apply Hcfg|by apply (Henv i Hi)|]. exists (nd :: nds). by constructor. }
  destruct Hboot as [nds Hnds]. exists nds. split_and!.
  - eapply Forall2_impl; [exact Hnds|]. by intros i nd [? _].
  - intros i nd srv Hi. destruct (Forall2_lookup_r _ _ _ _ _ Hnds Hi) as (j & Hj & _ & Hn).
    apply lookup_seq in Hj as [-> _]. exact (node_of_serves _ _ _ srv Hn).
  - apply (deploy_reachable _ t). replace (length (peers_of ws)) with (length ws)
      by (unfold peers_of; by rewrite length_fmap).
    eapply Forall2_impl; [exact Hnds|]. intros i nd [_ Hn]. by eapply node_of_is_node.
  - intros Hd i p Hi. by apply listener_peer.
Qed.

End Startup.

(** ** Three nodes *)
Module StartupExamples.

Definition ws3 : words := [(0%nat, "a", 0%nat); (1%nat, "b", 1%nat); (0%nat, "c", 0%nat)].

Definition env3 (i : nat) (key : string) : string :=
  if String.eqb key "BIND_ADDR" then ":8001"
  else if String.eqb key "PEERS" then "a, b ,c"
  else if String.eqb key "ME" then Itoa (Z.of_nat i)
  else if String.eqb key "API_ADDR" then (if decide (i = 0%nat) then ":8080" else EmptyString)
  else EmptyString.

Definition listen3 (i : nat) (a : string) : option string := None.

(** The three nodes are the ones of the other examples, with the API on node 0 only. *)
Lemma deployment_starts_witness :
  ∃ nd0 nd1 nd2 : node, boot (env3 0) (listen3 0) 10 = Ok nd0 ∧ GoServe (apiServer ":8080") ∈ nd_go nd0 ∧
    boot (env3 2) (listen3 2) 12 = Ok nd2 ∧ (∀ srv, GoServe srv ∈ nd_go nd2 → False) ∧
    node_reachable Runs.ps3 0 (deploy [nd0; nd1; nd2]) ∧ listener Runs.ps3 "b" = Some 1%nat.
Proof.
  destruct (deployment_starts ws3 env3 listen3 (λ i, 10 + Z.of_nat i) 0) as (nds & Hn & Hs & Hr & Hl).
  - done.
  - repeat constructor; done.
  - vm_compute. discriminate.
  - intros [|[|[|i]]] Hi; [| | |simpl in Hi; lia]; split_and!; vm_compute; done.
  - change (seq 0 (length ws3)) with [0; 1; 2]%nat in Hn.
    apply Forall2_cons_inv_l in Hn as (nd0 & l0 & H0 & Hn & ->).
    apply Forall2_cons_inv_l in Hn as (nd1 & l1 & H1 & Hn & ->).
    apply Forall2_cons_inv_l in Hn as (nd2 & l2 & H2 & Hn & ->). apply Forall2_nil_inv_l in Hn as ->.
    exists nd0, nd1, nd2. split; [exact H0|]. split.
    { apply (Hs 0%nat); [reflexivity|]. split; [discriminate|reflexivity]. }
    split; [exact H2|]. split.
    { intros srv Hsrv. apply (Hs 2%nat nd2 srv eq_refl) in Hsrv as [He _]. apply He. reflexivity. }
    split; [exact Hr|]. apply (Hl ltac:(apply (bool_decide_unpack _); vm_compute; exact I) 1%nat (NewPeer "b")).
    reflexivity.
Defined.

End StartupExamples.
